(* ===== verification/_CoqProject ===== *)
-Q . S2P
Prelude.v
Text.v
Events.v
Fold.v
Geometry.v
Validation.v
Keys.v
Ports.v
Memory.v
Append.v
Transition.v
System.v
Worker.v
Redelivery.v
Service.v
Listing.v
Projection.v
Replay.v
ProjectionRun.v
Lease.v
ReadModel.v
Verification.v
WorkQueue.v
Consumer.v
Config.v
ServiceConfig.v
EventStore.v
JetStream.v
Migrate.v
Contracts.v
Auth.v
DocumentApi.v
ChatBus.v
Kv.v
UploadKv.v
S3.v
ChatLocks.v
ChatLockRun.v
ChatReplay.v
Realtime.v
ChatReplayRun.v
RealtimeRun.v
Hubs.v
Feed.v
Commands.v
ChatStore.v
ChatStoreRun.v
ChatWorker.v
Llm.v
Startup.v
ChatWorkerRun.v
ChatTurnRun.v
ChatApi.v
ChatApiRun.v
OldBus.v
OldChunk.v
OldTurn.v
OldApi.v
OldIngest.v
OldUpload.v
OldFeed.v
OldSources.v
OldFeedApi.v
OldAuth.v
OldExtract.v
