(* ===== verification/Prelude.v ===== *)
(** * Delphi: a verification development for the document and chat back end

    Delphi lets a tenant upload documents and chat about them.  Four services
    share a JetStream server, a Postgres database and an S3 store.

    The document side is event sourced.  The API (services/api-service, over
    crates/document-app/src/service.rs) opens a multipart upload and, when the
    client says it is complete, puts one work item on a queue.  The document worker
    (worker.rs) assembles the object, checks its size, sniffs and scans it and
    appends one event to the log of the document.  A projection folds the log into
    the [document] table, which the API lists.

    The chat side is a turn at a time.  The API locks the conversation and
    publishes a command; a chat worker (services/chat-worker) claims the lock,
    streams the answer of the model as events, commits the turn and releases the
    lock; the realtime service (services/realtime-service) feeds the events to the
    websockets of the conversation and replays what a client missed.

    ** The files

    Shared:
    - Prelude: results, integers at their width, the program monad [prog] with
      its runs ([run]), its traces ([exec], [safe]) and the two logics with which
      interleavings are proved: [rg], where every program keeps one guarantee, and
      [owns], where a program also owns a part of the world;
    - Text: UTF-8 strings, trimming, decimal numbers; the classes that stand for
      the crates hex, sha2, crc32fast and serde_json;
    - Kv: a JetStream key-value bucket, under the locks and the upload records.

    Documents, the use cases (crates/document-domain, crates/document-app):
    - Events, Fold, Geometry, Validation: the catalogue and the pure rules;
    - Keys: every name the system derives (object keys, event ids, subjects,
      upload keys, cursors) and when two of them coincide;
    - Ports: each port method a constructor of [PortE]; Memory: testing.rs, the
      reference implementation of the ports;
    - Append, Transition, Worker, Service: the use cases, one file each, as
      programs over [PortE];
    - System: what any interleaving of use cases keeps; Redelivery: runs of the
      worker; Listing: the pages of the listing;
    - EventStore: the contract of the event store as a class and its laws, and the
      append paths proved on any store that keeps it.

    Documents, the adapters (crates/document-adapters, services/document-worker):
    - JetStream (event_store.rs), UploadKv (upload_state_store.rs), S3 (s3.rs),
      ReadModel (postgres/read_model.rs): the ports in production, each over a
      signature of the client calls it makes and a step relation that says what
      the server documents of them;
    - Projection, Replay, ProjectionRun: the fold of the log into rows; Lease: the
      advisory lock under which it runs; Migrate: the migration runner;
    - Verification: the scanner and the content validator; WorkQueue: one delivery
      and its answer; Consumer: the loop that pulls deliveries; Config: config.rs;
    - DocumentApi: services/api-service/src/documents.rs.

    Chat:
    - Contracts (crates/contracts); Auth (crates/auth);
    - ChatBus: the data of crates/nats and its in-memory bus; ChatLocks and
      ChatLockRun: the locks over the bucket, and their interleavings; ChatReplay
      and ChatReplayRun: the event log and the replay index;
      Commands: the queue of commands between the API and the workers, and the
      tasks that relay stops and events;
    - ChatStore and ChatStoreRun: crates/storage, in memory and on Postgres tables;
    - ChatWorker, ChatWorkerRun, ChatTurnRun: services/chat-worker, as a program,
      against any services, and against the in-memory ones; Llm: crates/llm, the
      choice of the model and what of its stream becomes text; ServiceConfig:
      crates/config, with the parser of socket addresses;
    - Startup: the start of each service of either side, and the streams, buckets
      and consumers it declares;
    - ChatApi and ChatApiRun: services/api-service/src/main.rs;
    - Realtime and RealtimeRun: a websocket; Hubs: the hubs the sockets share;
      Feed: the tasks from the event log to the sockets.

    The previous back end (old/backend/src), which is kept beside the workspace:
    - OldBus (chat/bus.rs, chat/inprocess.rs): the turns of a conversation in one
      process, as interleavings of the operations on sessions, owners and readers;
    - OldTurn (chat/worker.rs, api/sse.rs): one turn; OldApi: the chat and
      conversation endpoints of api/;
    - OldIngest (ingestion/validation, autofill.rs, text_extract.rs): the checks and
      the text of an upload; OldUpload (uploads.rs, completion.rs): its endpoints;
    - OldChunk (text_extractor, chunker): words with their places, and chunks, over
      binary64 numbers; OldFeed (pipeline.rs, rag.rs, notifier.rs, embedder): the
      ingestion of a feed item; OldSources (sources, filter, service_identity.rs): the
      tasks that deliver them; OldFeedApi (discovery.rs, documents.rs, chunks.rs): the
      readers;
    - OldAuth (auth, storage/request.rs): the identity of a request, from its token to
      its connection of the pool, and the rows that a first request creates;
    - OldExtract (llm_extractor.rs): metadata that a model reads from a text.

    ** How the code is read

    An asynchronous function is a program over a signature of calls; one call is
    one atomic step, and a theorem about [pool_step] holds for every interleaving
    of any number of programs with each other and with an environment.  What a
    call may answer is either free ([exec], [safe]), or a step relation with the
    failures and lost answers the server documents, or a handler to run.
    Integers are [Z] with the width written out.  Instants are nanoseconds.
    Crates outside the repository are classes whose laws state what their
    documentation says; each class has an instance in a [Demo] module, so that
    every definition evaluates.

    ** What the theorems show

    - the document life cycle: only verified bytes become documents, an accepted
      upload is durable, redeliveries change nothing, requests stay within their
      tenant, and any interleaving of services and workers keeps the log a chain
      of versions (System, Worker, Redelivery, Service, DocumentApi, WorkQueue);
    - the log: the append paths are correct on any store that keeps the contract,
      and the JetStream store keeps it (EventStore, JetStream); what it reads is
      capped;
    - the read side: whatever fails, a row is the fold of a prefix of the log that
      reaches the checkpoint, one projector commits at a time, and the pages of a
      listing are complete on Postgres (ProjectionRun, Lease, ReadModel);
    - the stores: what the S3 adapter answers was so, its paging ends, a terminal
      upload status is final, migrations run once (S3, UploadKv, Migrate), and
      streams and buckets are only ever what the code declares, the document
      topology by the API alone (Startup);
    - a chat turn: the order of its steps whatever fails, one worker per lease, the
      locks over the bucket refine the in-memory ones, a submitted turn is
      committed, published and acknowledged, and a published command stays queued
      until then (ChatWorkerRun, ChatLockRun, ChatApiRun, Commands);
    - the conversation as stored and as seen: Postgres refines the in-memory
      repository, the bus over JetStream the in-memory bus; a socket is fed every
      event in order or told how many it lost, and a client that reconnects gets
      what is retained (ChatStoreRun, ChatReplayRun, Feed, RealtimeRun, Hubs);
    - the caller: only a key the endpoint served authenticates (Auth);
    - the previous back end: a subscriber is fed without a gap or told to resync and
      one turn is in flight (OldBus), every turn ends settled (OldTurn), a request
      acts only once checked (OldApi), an upload becomes a document only when its
      bytes and its metadata passed every check (OldIngest, OldUpload), the chunks of
      a document are windows that leave no word out (OldChunk), and a feed item is
      written once per version, whatever fails after that (OldFeed, OldSources); the
      handlers run on a connection authenticated with the token of the request, and
      first requests that race agree on their rows (OldAuth);
    - the pure parts: fold, geometry, validation, names, cursors, configuration.

    ** Fuel and bounds

    The retry loops carry the code's own attempt counts.  [scan_loop] takes the
    length of the object plus one as fuel, and [scan_exact] shows that it
    suffices; [list_pages] takes ten thousand rounds, the number of parts an upload
    can have, and [list_parts_ends] shows that they suffice.  The loops that end
    only with their process or connection (a projection, an election, a socket, a
    consumer, the tasks of Feed) take a number of rounds, and their theorems hold
    for every number.

    ** Not modelled

    - HTTP routing and the decoding of bodies, the websocket upgrade, tracing;
    - the clients of NATS, Postgres and S3 and the pool of connections;
    - the model providers, which are clients of the crate rig;
    - the front end;
    - of old/: the queries of its SurrealDB storage, the clients of its models, and
      its older copy of the object store. *)

From stdpp Require Export base gmap list strings fin_maps sorting.
From Stdlib Require Export ZArith Lia.

(** ** Results

    Rust's [Result<A, E>]; [option] is Rust's [Option]. *)

Inductive result (A E : Type) : Type :=
| Ok (a : A)
| Err (e : E).
Global Arguments Ok {_ _} _.
Global Arguments Err {_ _} _.

#[export] Instance result_eq_dec `{EqDecision A, EqDecision E} : EqDecision (result A E).
Proof. solve_decision. Defined.

Definition result_bind {A B E} (r : result A E) (f : A → result B E) : result B E :=
  match r with Ok a => f a | Err e => Err e end.

Definition result_map_err {A E F} (f : E → F) (r : result A E) : result A F :=
  match r with Ok a => Ok a | Err e => Err (f e) end.

Definition result_map {A B E} (f : A → B) (r : result A E) : result B E :=
  match r with Ok a => Ok (f a) | Err e => Err e end.

Definition ok_or {A E} (o : option A) (e : E) : result A E :=
  match o with Some a => Ok a | None => Err e end.

Definition is_ok {A E} (r : result A E) : bool :=
  match r with Ok _ => true | Err _ => false end.

Declare Scope rust_scope.
Delimit Scope rust_scope with rust.
Open Scope rust_scope.

(** [let? x := r in k] is [let x = r?; k]. *)
Notation "'let?' x := r 'in' k" :=
  (result_bind r (λ x, k)) (at level 10, x pattern, r at level 200, k at level 200)
  : rust_scope.

(** [guard c else e; k] is [if !c { return Err(e) }; k]. *)
Notation "'ensure' c 'else' e ; k" :=
  (if (c : bool) then k else Err e)
  (at level 10, c at level 100, e at level 100, k at level 200) : rust_scope.

(** ** Machine integers

    A [u16], [u32], [u64] or [i64] is a [Z] within its range; conversions wrap
    the way [as] does, arithmetic is written with the method the code calls. *)

Definition u16_max : Z := 65535.
Definition u32_max : Z := 4294967295.
Definition u64_max : Z := 18446744073709551615.
Definition i64_max : Z := 9223372036854775807.
Definition i64_min : Z := -9223372036854775808.

Definition in_u16 (z : Z) : Prop := (0 ≤ z ≤ u16_max)%Z.
Definition in_u32 (z : Z) : Prop := (0 ≤ z ≤ u32_max)%Z.
Definition in_u64 (z : Z) : Prop := (0 ≤ z ≤ u64_max)%Z.

(** [a + b] on [u64] in a release build. *)
Definition u64_add (a b : Z) : Z := ((a + b) mod (u64_max + 1))%Z.
(** [a.saturating_sub(b)] on an unsigned width. *)
Definition saturating_sub (a b : Z) : Z := Z.max 0 (a - b).
(** [a.saturating_add(b)] on a width whose maximum is [m]. *)
Definition saturating_add (m a b : Z) : Z := Z.min m (a + b).
(** [a.saturating_mul(b)] on a width whose maximum is [m]. *)
Definition saturating_mul (m a b : Z) : Z := Z.min m (a * b).
(** [a.checked_mul(b)] on a width whose maximum is [m]. *)
Definition checked_mul (m a b : Z) : option Z :=
  if (a * b <=? m)%Z then Some (a * b)%Z else None.
(** [a.checked_sub(b)] on an unsigned width. *)
Definition checked_sub (a b : Z) : option Z :=
  if (b <=? a)%Z then Some (a - b)%Z else None.
(** [a.div_ceil(b)]. *)
Definition div_ceil (a b : Z) : Z := ((a + b - 1) / b)%Z.
(** [x as i64] for [x : u64]. *)
Definition u64_as_i64 (x : Z) : Z :=
  if (x <=? i64_max)%Z then x else (x - (u64_max + 1))%Z.
(** [x.max(0) as u64] for [x : i64]. *)
Definition i64_as_u64 (x : Z) : Z := Z.max 0 x.

Ltac unfold_ints :=
  unfold in_u16, in_u32, in_u64, u16_max, u32_max, u64_max, i64_max, i64_min,
    saturating_sub, saturating_add, saturating_mul in *.

Lemma i64_as_u64_roundtrip x :
  (0 ≤ x ≤ i64_max)%Z → i64_as_u64 (u64_as_i64 x) = x.
Proof.
  intros Hx. unfold i64_as_u64, u64_as_i64. case_match; unfold_ints; lia.
Qed.

Lemma div_ceil_le a b c : (0 < b)%Z → (div_ceil a b ≤ c ↔ a ≤ c * b)%Z.
Proof.
  intros Hb. unfold div_ceil. split; intros H.
  - pose proof (Z.div_mod (a + b - 1) b ltac:(lia)).
    pose proof (Z.mod_pos_bound (a + b - 1) b Hb). nia.
  - apply Z.lt_succ_r, Z.div_lt_upper_bound; nia.
Qed.

Lemma div_ceil_bounds a b :
  ((0 < b) → a ≤ div_ceil a b * b ∧ (div_ceil a b - 1) * b < a)%Z.
Proof.
  intros Hb. split.
  - apply (div_ceil_le a b); [done | lia].
  - destruct (Z_lt_le_dec ((div_ceil a b - 1) * b) a) as [? | Hle]; [done |].
    apply (div_ceil_le a b) in Hle; lia.
Qed.

Lemma div_ceil_pos a b : (0 < a)%Z → (0 < b)%Z → (0 < div_ceil a b)%Z.
Proof. intros Ha Hb. destruct (div_ceil_bounds a b Hb). nia. Qed.

(** ** Effectful programs

    An [async fn] over ports is a finite tree of calls: [prog E R] performs
    calls of signature [E] and returns an [R].  Every use case of the code is
    one; nothing in it says what a call answers, which is what lets one
    program be run against the in-memory ports, interleaved with others, or
    confronted with an arbitrary environment. *)

Inductive prog (E : Type → Type) (R : Type) : Type :=
| Ret (r : R)
| Vis (X : Type) (e : E X) (k : X → prog E R).
Global Arguments Ret {_ _} _.
Global Arguments Vis {_ _ _} _ _.

Fixpoint prog_bind {E A B} (p : prog E A) (f : A → prog E B) : prog E B :=
  match p with
  | Ret a => f a
  | Vis e k => Vis e (λ x, prog_bind (k x) f)
  end.

Definition call {E X} (e : E X) : prog E X := Vis e Ret.

Notation "'let*' x := p 'in' k" :=
  (prog_bind p (λ x, k)) (at level 10, x pattern, p at level 200, k at level 200)
  : rust_scope.

(** [let*? x := p in k] is [let x = p.await?; k]. *)
Notation "'let*?' x := p 'in' k" :=
  (prog_bind p (λ r, match r with Ok x => k | Err e => Ret (Err e) end))
  (at level 10, x pattern, p at level 200, k at level 200) : rust_scope.

(** A program whose calls are themselves programs, over a lower signature. *)
Fixpoint interp {E F R} (h : ∀ X, E X → prog F X) (p : prog E R) : prog F R :=
  match p with
  | Ret r => Ret r
  | Vis e k => prog_bind (h _ e) (λ x, interp h (k x))
  end.

(** The same calls with the same answers and the same return. *)
Inductive prog_equiv {E : Type → Type} {R} : prog E R → prog E R → Prop :=
| equiv_ret r : prog_equiv (Ret r) (Ret r)
| equiv_vis {X} (e : E X) k k' : (∀ x, prog_equiv (k x) (k' x)) → prog_equiv (Vis e k) (Vis e k').

#[export] Instance prog_equiv_refl {E R} : Reflexive (@prog_equiv E R).
Proof. intros p. by induction p; constructor. Qed.

Lemma bind_equiv_assoc {E A B C} (p : prog E A) (f : A → prog E C) (g : A → prog E B) (k : B → prog E C) :
  (∀ a, prog_equiv (f a) (prog_bind (g a) k)) → prog_equiv (prog_bind p f) (prog_bind (prog_bind p g) k).
Proof. intros Hf. induction p; simpl; [apply Hf | by constructor]. Qed.

Lemma interp_bind {E F A B} (h : ∀ X, E X → prog F X) (p : prog E A) (f : A → prog E B) :
  prog_equiv (interp h (prog_bind p f)) (prog_bind (interp h p) (λ a, interp h (f a))).
Proof. induction p; simpl; [reflexivity | by apply bind_equiv_assoc]. Qed.

(** *** Running against a deterministic implementation of the ports *)

Definition handler (E : Type → Type) (W : Type) : Type := ∀ X, E X → W → W * X.

Fixpoint run {E W R} (h : handler E W) (p : prog E R) (w : W) : W * R :=
  match p with
  | Ret r => (w, r)
  | Vis e k => let '(w', x) := h _ e w in run h (k x) w'
  end.

Lemma run_bind {E W A B} (h : handler E W) (p : prog E A) (f : A → prog E B) w :
  run h (prog_bind p f) w = let '(w', a) := run h p w in run h (f a) w'.
Proof.
  revert w. induction p as [a | X e k IH]; intros w; simpl; [done |].
  destruct (h _ e w) as [w' x]. apply IH.
Qed.

(** *** An arbitrary environment

    [exec obs p tr r]: [p] may return [r] having made the calls recorded in
    [tr], whatever the environment answered. [obs] records a call with its
    answer. *)

Section exec.
Context {E : Type → Type} {O : Type} (obs : ∀ X, E X → X → O).

Fixpoint exec {R} (p : prog E R) (tr : list O) (r : R) : Prop :=
  match p with
  | Ret r' => tr = [] ∧ r' = r
  | Vis e k =>
      match tr with
      | [] => False
      | o :: tr' => ∃ x, o = obs _ e x ∧ exec (k x) tr' r
      end
  end.

(** [safe ok p Q past]: whatever the environment answers, every call of [p] is
    [ok] after the calls made before it, and [p] returns with the whole trace and
    the result in [Q]. *)
Fixpoint safe (ok : list O → O → Prop) {R} (p : prog E R) (Q : list O → R → Prop)
    (past : list O) : Prop :=
  match p with
  | Ret r => Q past r
  | Vis e k =>
      ∀ x, ok past (obs _ e x) ∧ safe ok (k x) Q (past ++ [obs _ e x])
  end.

Lemma safe_ret ok {R} (r : R) (Q : list O → R → Prop) past :
  Q past r → safe ok (Ret r) Q past.
Proof. done. Qed.

Lemma safe_mono ok {R} (p : prog E R) (Q Q' : list O → R → Prop) past :
  safe ok p Q past → (∀ past' r, past `prefix_of` past' → Q past' r → Q' past' r) →
  safe ok p Q' past.
Proof.
  revert past. induction p as [r | A e k IH]; simpl; intros past Hp HQ; [by apply HQ |].
  intros x. destruct (Hp x) as [Hok Hk]. split; [done |].
  apply IH; [done |]. intros past' r Hpre. apply HQ.
  etrans; [by apply prefix_app_r | done].
Qed.

Lemma safe_bind ok {A B} (p : prog E A) (f : A → prog E B) Q past :
  safe ok p (λ past' a, safe ok (f a) Q past') past → safe ok (prog_bind p f) Q past.
Proof.
  revert past. induction p as [a | A' e k IH]; simpl; intros past Hp; [done |].
  intros x. destruct (Hp x). split; [done | by apply IH].
Qed.

Lemma safe_call ok {A B} (e : E A) (f : A → prog E B) Q past :
  (∀ x, ok past (obs A e x) ∧ safe ok (f x) Q (past ++ [obs A e x])) →
  safe ok (prog_bind (call e) f) Q past.
Proof. done. Qed.

(** A bind whose first part is known by its own specification. *)
Lemma safe_bind_spec ok {A B} (p : prog E A) (f : A → prog E B) P Q past :
  safe ok p P past →
  (∀ past' a, past `prefix_of` past' → P past' a → safe ok (f a) Q past') →
  safe ok (prog_bind p f) Q past.
Proof. intros Hp Hf. apply safe_bind. by eapply safe_mono. Qed.

Lemma exec_safe ok {R} (p : prog E R) Q past tr r :
  exec p tr r → safe ok p Q past →
  (∀ tr1 o tr2, tr = tr1 ++ o :: tr2 → ok (past ++ tr1) o) ∧ Q (past ++ tr) r.
Proof.
  revert past tr. induction p as [r' | A e k IH]; simpl; intros past tr Hx Hp.
  - destruct Hx as [-> ->]. rewrite app_nil_r. split; [| done]. by intros [].
  - destruct tr as [|o tr]; [done |]. destruct Hx as (x & -> & Hx).
    destruct (Hp x) as [Hok Hk]. destruct (IH x _ _ Hx Hk) as [Hall HQ].
    rewrite <- (assoc_L app) in HQ. split; [| done].
    intros [|o1 tr1] o tr2 Heq; simplify_eq/=; [by rewrite app_nil_r |].
    specialize (Hall _ _ _ eq_refl). by rewrite <- (assoc_L app) in Hall.
Qed.

Lemma exec_bind_inv {A B} (p : prog E A) (f : A → prog E B) tr r :
  exec (prog_bind p f) tr r →
  ∃ tr1 tr2 a, tr = tr1 ++ tr2 ∧ exec p tr1 a ∧ exec (f a) tr2 r.
Proof.
  revert tr. induction p as [a | X e k IH]; simpl; intros tr H.
  - by exists [], tr, a.
  - destruct tr as [|o tr]; [done |]. destruct H as (x & -> & H).
    destruct (IH _ _ H) as (tr1 & tr2 & a & -> & Hp & Hf).
    exists (obs X e x :: tr1), tr2, a. naive_solver.
Qed.

Lemma exec_vis {A R} (e : E A) (k : A → prog E R) tr r :
  exec (prog_bind (call e) k) tr r → ∃ x tr', tr = obs A e x :: tr' ∧ exec (k x) tr' r.
Proof. destruct tr as [| o tr]; [done |]. intros (x & -> & Hx). by exists x, tr. Qed.

(** The trace of a run against an implementation. *)
Fixpoint run_trace {W R} (h : handler E W) (p : prog E R) (w : W) : list O :=
  match p with
  | Ret _ => []
  | Vis e k => let '(w', x) := h _ e w in obs _ e x :: run_trace h (k x) w'
  end.

Lemma run_trace_exec {W R} (h : handler E W) (p : prog E R) w :
  exec p (run_trace h p w) (run h p w).2.
Proof.
  revert w. induction p as [r | X e k IH]; intros w; simpl; [done |].
  destruct (h X e w) as [w' x]. by exists x.
Qed.

End exec.

(** *** Interleaving

    A pool of programs over one shared world: a step lets one of them make its
    next call, atomically, or lets the environment move. [rg] is the
    rely/guarantee proof rule for one program of the pool. *)

Section pool.
Context {E : Type → Type} {W : Type}.
Context (h : ∀ X, E X → W → W → X → Prop) (env : W → W → Prop).

Inductive pool_step {R} : W * list (prog E R) → W * list (prog E R) → Prop :=
| pool_call w w' ts i X (e : E X) k x :
    ts !! i = Some (Vis e k) →
    h X e w w' x →
    pool_step (w, ts) (w', <[i := k x]> ts)
| pool_env w w' ts : env w w' → pool_step (w, ts) (w', ts).

Definition stable (G : W → W → Prop) (P : W → Prop) : Prop :=
  ∀ w w', P w → G w w' → P w'.

(** [rg G p P Q]: from a world in [P], every call of [p] is a [G] step
    whatever the others did in between, as long as they make [G] steps too,
    and a return of [r] finds the world in [Q r]. *)
Fixpoint rg (G : W → W → Prop) {R} (p : prog E R) (P : W → Prop) (Q : R → W → Prop) : Prop :=
  match p with
  | Ret r => ∀ w, P w → Q r w
  | Vis e k =>
      ∀ w w' x, P w → h _ e w w' x →
        G w w' ∧ ∃ P', stable G P' ∧ P' w' ∧ rg G (k x) P' Q
  end.

Lemma rg_ret G {R} (r : R) (P : W → Prop) (Q : R → W → Prop) :
  (∀ w, P w → Q r w) → rg G (Ret r) P Q.
Proof. done. Qed.

Lemma rg_weaken G {R} (p : prog E R) (P P' : W → Prop) (Q Q' : R → W → Prop) :
  rg G p P Q → (∀ w, P' w → P w) → (∀ r w, Q r w → Q' r w) → rg G p P' Q'.
Proof.
  revert P P'. induction p as [r | X e k IH]; simpl; intros P P' Hp HP HQ; [by eauto |].
  intros w w' x Hw Hh. destruct (Hp w w' x (HP _ Hw) Hh) as (HG & P1 & Hst & HP1 & Hk).
  split; [done |]. exists P1. split_and!; [done.. |]. by eapply IH.
Qed.

Lemma rg_pre G {R} (p : prog E R) (P P' : W → Prop) (Q : R → W → Prop) :
  (∀ w, P' w → P w) → rg G p P Q → rg G p P' Q.
Proof. intros HP Hp. by eapply rg_weaken. Qed.

(** What the precondition says about the program alone may be assumed. *)
Lemma rg_pure G {R} (φ : Prop) (p : prog E R) (P : W → Prop) (Q : R → W → Prop) :
  (∀ w, P w → φ) → (φ → rg G p P Q) → rg G p P Q.
Proof.
  intros HP Hp. destruct p as [r | X e k]; simpl in *.
  - intros w Hw. by apply (Hp (HP _ Hw)).
  - intros w w' x Hw. by apply (Hp (HP _ Hw)).
Qed.

Lemma rg_exists G {R I} (p : prog E R) (P : W → Prop) (Pi : I → W → Prop) (Q : R → W → Prop) :
  (∀ w, P w → ∃ i, Pi i w) → (∀ i, rg G p (Pi i) Q) → rg G p P Q.
Proof.
  intros HP Hp. destruct p as [r | X e k]; simpl in *.
  - intros w [i Hw]%HP. by apply (Hp i).
  - intros w w' x [i Hw]%HP. by apply (Hp i).
Qed.

Lemma rg_bind G {A B} (p : prog E A) (f : A → prog E B) P Q R :
  rg G p P Q → (∀ a, rg G (f a) (Q a) R) → rg G (prog_bind p f) P R.
Proof.
  revert P. induction p as [a | X e k IH]; simpl; intros P Hp Hf.
  - by eapply rg_weaken.
  - intros w w' x Hw Hh. destruct (Hp w w' x Hw Hh) as (HG & P1 & Hst & HP1 & Hk).
    split; [done |]. exists P1. split_and!; [done.. |]. by apply IH.
Qed.

Lemma rg_call G {X B} (e : E X) (f : X → prog E B) (P : W → Prop) (Q : X → W → Prop) R :
  (∀ w w' x, P w → h _ e w w' x → G w w' ∧ stable G (Q x) ∧ Q x w') →
  (∀ x, rg G (f x) (Q x) R) → rg G (prog_bind (call e) f) P R.
Proof.
  simpl. intros He Hf w w' x Hw Hh. destruct (He w w' x Hw Hh) as (? & ? & ?).
  split; [done |]. exists (Q x). done.
Qed.

Lemma rg_equiv G {R} (p q : prog E R) (P : W → Prop) (Q : R → W → Prop) :
  prog_equiv p q → rg G q P Q → rg G p P Q.
Proof.
  intros Heq. revert P. induction Heq as [r | X e k k' _ IH]; simpl; intros P Hq; [done |].
  intros w w' x Hw Hx. destruct (Hq w w' x Hw Hx) as (HG & P' & ? & ? & Hk). split; [done |].
  exists P'. split_and!; [done.. | by apply IH].
Qed.

(** A thread of a pool together with what it promises on return. *)
Definition rg_thread (G : W → W → Prop) {R} (w : W) (p : prog E R) (Q : R → W → Prop) : Prop :=
  ∃ P, stable G P ∧ P w ∧ rg G p P Q.

Lemma rg_thread_stable G {R} w w' (p : prog E R) Q :
  G w w' → rg_thread G w p Q → rg_thread G w' p Q.
Proof. intros HG (P & Hst & HP & Hp). exists P. split_and!; [done | by eapply Hst | done]. Qed.

Lemma rg_thread_ret G {R} w r (Q : R → W → Prop) : rg_thread G w (Ret r) Q → Q r w.
Proof. intros (P & _ & HP & Hr). by apply Hr. Qed.

Lemma pool_step_rg (G : W → W → Prop) {R} (c c' : W * list (prog E R)) Qs :
  (∀ w w', env w w' → G w w') →
  pool_step c c' →
  Forall2 (rg_thread G c.1) c.2 Qs →
  G c.1 c'.1 ∧ Forall2 (rg_thread G c'.1) c'.2 Qs.
Proof.
  intros Henv Hstep Hts.
  destruct Hstep as [w w' ts i X e k x Hi Hh | w w' ts Hw]; simpl in *.
  - destruct (Forall2_lookup_l _ _ _ _ _ Hts Hi) as (Q & HQ & P & _ & HP & Hrg).
    destruct (Hrg _ _ _ HP Hh) as (HG & P' & HP'st & HP' & Hrg').
    split; [done |].
    rewrite <- (list_insert_id Qs i Q) by done.
    apply Forall2_insert; [| by exists P'].
    eapply Forall2_impl; [done |]. intros; by eapply rg_thread_stable.
  - apply Henv in Hw. split; [done |].
    eapply Forall2_impl; [done |]. intros; by eapply rg_thread_stable.
Qed.

(** Every reachable pool keeps its guarantee with the starting world, and
    every thread that has returned keeps its promise. *)
Lemma pool_steps_rg (G : W → W → Prop) `{!Reflexive G, !Transitive G} {R}
    (c c' : W * list (prog E R)) Qs :
  (∀ w w', env w w' → G w w') →
  rtc pool_step c c' →
  Forall2 (rg_thread G c.1) c.2 Qs →
  G c.1 c'.1 ∧ Forall2 (rg_thread G c'.1) c'.2 Qs.
Proof.
  intros Henv Hsteps. induction Hsteps as [c | c1 c2 c3 Hstep _ IH]; intros Hts.
  - done.
  - destruct (pool_step_rg G c1 c2 Qs Henv Hstep Hts) as [HG Hts2].
    destruct (IH Hts2) as [HG' Hts3]. split; [by etrans | done].
Qed.

(** Programs that own something, such as a connection: thread [i] makes [G i]
    steps and is proved against the steps [Rely i] of the others. *)
Fixpoint owns (G Rely : W → W → Prop) {R} (p : prog E R) (P : W → Prop) (Q : R → W → Prop) : Prop :=
  match p with
  | Ret r => ∀ w, P w → Q r w
  | Vis e k =>
      ∀ w w' x, P w → h _ e w w' x →
        G w w' ∧ ∃ P', stable Rely P' ∧ P' w' ∧ owns G Rely (k x) P' Q
  end.

Lemma owns_weaken G Rely {R} (p : prog E R) (P P' : W → Prop) (Q Q' : R → W → Prop) :
  owns G Rely p P Q → (∀ w, P' w → P w) → (∀ r w, Q r w → Q' r w) → owns G Rely p P' Q'.
Proof.
  revert P P'. induction p as [r | X e k IH]; simpl; intros P P' Hp HP HQ; [by eauto |].
  intros w w' x Hw Hh. destruct (Hp w w' x (HP _ Hw) Hh) as (HG & P1 & Hst & HP1 & Hk).
  split; [done |]. exists P1. split_and!; [done.. |]. by eapply IH.
Qed.

Lemma owns_pre G Rely {R} (p : prog E R) (P P' : W → Prop) (Q : R → W → Prop) :
  (∀ w, P' w → P w) → owns G Rely p P Q → owns G Rely p P' Q.
Proof. intros HP Hp. by eapply owns_weaken. Qed.

Lemma owns_pure G Rely {R} (φ : Prop) (p : prog E R) (P : W → Prop) (Q : R → W → Prop) :
  (∀ w, P w → φ) → (φ → owns G Rely p P Q) → owns G Rely p P Q.
Proof.
  intros HP Hp. destruct p as [r | X e k]; simpl in *.
  - intros w Hw. by apply (Hp (HP _ Hw)).
  - intros w w' x Hw. by apply (Hp (HP _ Hw)).
Qed.

Lemma owns_exists G Rely {R I} (p : prog E R) (P : W → Prop) (Pi : I → W → Prop) (Q : R → W → Prop) :
  (∀ w, P w → ∃ i, Pi i w) → (∀ i, owns G Rely p (Pi i) Q) → owns G Rely p P Q.
Proof.
  intros HP Hp. destruct p as [r | X e k]; simpl in *.
  - intros w [i Hw]%HP. by apply (Hp i).
  - intros w w' x [i Hw]%HP. by apply (Hp i).
Qed.

Lemma owns_bind G Rely {A B} (p : prog E A) (f : A → prog E B) P Q R :
  owns G Rely p P Q → (∀ a, owns G Rely (f a) (Q a) R) → owns G Rely (prog_bind p f) P R.
Proof.
  revert P. induction p as [a | X e k IH]; simpl; intros P Hp Hf.
  - by eapply owns_weaken.
  - intros w w' x Hw Hh. destruct (Hp w w' x Hw Hh) as (HG & P1 & Hst & HP1 & Hk).
    split; [done |]. exists P1. split_and!; [done.. |]. by apply IH.
Qed.

Lemma owns_call G Rely {X B} (e : E X) (f : X → prog E B) (P : W → Prop) (Q : X → W → Prop) R :
  (∀ w w' x, P w → h _ e w w' x → G w w' ∧ stable Rely (Q x) ∧ Q x w') →
  (∀ x, owns G Rely (f x) (Q x) R) → owns G Rely (prog_bind (call e) f) P R.
Proof.
  simpl. intros He Hf w w' x Hw Hh. destruct (He w w' x Hw Hh) as (? & ? & ?).
  split; [done |]. by exists (Q x).
Qed.

(** Every thread of the pool keeps what it owns. *)
Definition owners (G Rely : nat → W → W → Prop) {R} (Q : nat → R → W → Prop)
    (c : W * list (prog E R)) : Prop :=
  ∀ i p, c.2 !! i = Some p → ∃ P, stable (Rely i) P ∧ P c.1 ∧ owns (G i) (Rely i) p P (Q i).

Lemma pool_steps_owners (G Rely : nat → W → W → Prop) (T : W → W → Prop) `{!Reflexive T, !Transitive T}
    {R} (Q : nat → R → W → Prop) (c c' : W * list (prog E R)) :
  (∀ i j w w', i ≠ j → G i w w' → Rely j w w') → (∀ i w w', env w w' → Rely i w w') →
  (∀ i w w', G i w w' → T w w') → (∀ w w', env w w' → T w w') →
  rtc pool_step c c' → owners G Rely Q c → T c.1 c'.1 ∧ owners G Rely Q c'.
Proof.
  intros HGR Henv HGT HenvT Hsteps. induction Hsteps as [c | c1 c2 c3 Hstep _ IH]; intros Hc; [done |].
  assert (T c1.1 c2.1 ∧ owners G Rely Q c2) as [HT Hc2]; [| destruct (IH Hc2); split; [by etrans | done]].
  destruct Hstep as [w w' ts i X e k x Hi Hh | w w' ts Hw]; simpl in *.
  - destruct (Hc i _ Hi) as (P & _ & HP & Hp). destruct (Hp _ _ _ HP Hh) as (HG & P' & Hst' & HP' & Hp').
    split; [by eapply HGT |]. intros j p Hj. simpl in *.
    destruct (decide (i = j)) as [<- | Hne].
    + rewrite list_lookup_insert_eq in Hj by (by eapply lookup_lt_Some). simplify_eq. by exists P'.
    + rewrite list_lookup_insert_ne in Hj by done. destruct (Hc j p Hj) as (Pj & Hstj & HPj & Hpj).
      exists Pj. split_and!; [done | | done]. eapply Hstj; [done | by eapply HGR].
  - split; [by apply HenvT |]. intros j p Hj. destruct (Hc j p Hj) as (Pj & Hstj & HPj & Hpj).
    exists Pj. split_and!; [done | | done]. eapply Hstj; [done | by apply Henv].
Qed.

Lemma owns_mono (G G' Rely Rely' : W → W → Prop) {R} (p : prog E R) P Q :
  (∀ w w', G w w' → G' w w') → (∀ w w', Rely' w w' → Rely w w') →
  owns G Rely p P Q → owns G' Rely' p P Q.
Proof.
  intros HG HR. revert P. induction p as [r | X e k IH]; simpl; intros P Hp; [done |].
  intros w w' x Hw Hx. destruct (Hp w w' x Hw Hx) as (? & P' & Hst & ? & Hk). split; [by apply HG |].
  exists P'. split_and!; [| done | by apply IH]. intros v v' Hv Hr. eapply Hst; [done | by apply HR].
Qed.

(** One program alone with its environment. *)
Lemma pool_steps_owner (G Rely T : W → W → Prop) `{!Reflexive T, !Transitive T} {R}
    (p : prog E R) (P : W → Prop) (Q : R → W → Prop) w w' ts' :
  (∀ w w', env w w' → Rely w w') → (∀ w w', G w w' → T w w') → (∀ w w', env w w' → T w w') →
  rtc pool_step (w, [p]) (w', ts') → stable Rely P → P w → owns G Rely p P Q → T w w'.
Proof.
  intros Henv HGT HenvT Hsteps Hst HP Hp.
  destruct (pool_steps_owners (λ i w w', i = 0%nat ∧ G w w') (λ i w w', i ≠ 0%nat ∨ Rely w w') T
    (λ _, Q) (w, [p]) (w', ts')) as [HT _]; [| | | | done | | exact HT].
  - intros i j v v' Hne [-> _]. left. congruence.
  - intros i v v' Hv. right. by apply Henv.
  - intros i v v' [_ ?]. by apply HGT.
  - done.
  - intros i q Hi. apply list_lookup_singleton_Some in Hi as [-> <-]. exists P. split_and!; [| done |].
    + intros v v' Hv [? | ?]; [done | by eapply Hst].
    + eapply owns_mono; [| | exact Hp]; [by split | by intros v v' [? | ?]].
Qed.
End pool.

Lemma pool_step_mono {E W R} (h h' : ∀ X, E X → W → W → X → Prop) env
    (c c' : W * list (prog E R)) :
  (∀ X e w w' x, h X e w w' x → h' X e w w' x) → pool_step h env c c' → pool_step h' env c c'.
Proof.
  intros Hh Hs. destruct Hs as [w w' ts i X e k x Hi Hx | w w' ts Hw].
  - eapply pool_call; [done | by apply Hh].
  - by apply pool_env.
Qed.

(** Running one program alone is one of the behaviours of the pool. *)
Lemma pool_run {E W R} (h : handler E W) env (p : prog E R) w :
  rtc (pool_step (λ A e w w' x, h A e w = (w', x)) env)
    (w, [p]) ((run h p w).1, [Ret (run h p w).2]).
Proof.
  revert w. induction p as [r | A e k IH]; intros w; simpl; [done |].
  destruct (h A e w) as [w' x] eqn:Hh.
  eapply rtc_l; [| apply IH].
  by apply (pool_call _ _ w w' [Vis e k] 0 A e k x).
Qed.

(** A thread of a pool may run to its end undisturbed. *)
Lemma pool_run_at {E W R} (h : handler E W) env (ts : list (prog E R)) i p w :
  ts !! i = Some p →
  rtc (pool_step (λ A e w w' x, h A e w = (w', x)) env)
    (w, ts) ((run h p w).1, <[i := Ret (run h p w).2]> ts).
Proof.
  revert w ts. induction p as [r | A e k IH]; intros w ts Hi; simpl.
  - by rewrite list_insert_id.
  - destruct (h A e w) as [w' x] eqn:Hh.
    eapply rtc_l; [by eapply pool_call |].
    assert (<[i := k x]> ts !! i = Some (k x)) as Hi'
      by (apply list_lookup_insert_eq; by eapply lookup_lt_Some).
    specialize (IH x w' _ Hi'). by rewrite list_insert_insert_eq in IH.
Qed.

(** The same for an implementation of a step relation. *)
Lemma pool_run_sub {E W R} (step : ∀ X, E X → W → W → X → Prop) (h : handler E W) env
    (ts : list (prog E R)) i p w :
  (∀ X e w1 w2 x, h X e w1 = (w2, x) → step X e w1 w2 x) → ts !! i = Some p →
  rtc (pool_step step env) (w, ts) ((run h p w).1, <[i := Ret (run h p w).2]> ts).
Proof.
  intros Hsub Hi. eapply rtc_subrel; [| by apply (pool_run_at h env)].
  intros c c' Hc. eapply pool_step_mono; [exact Hsub | exact Hc].
Qed.

(** The same where the implementation relies on an invariant. *)
Lemma pool_run_inv {E W R} (I : W → Prop) (step : ∀ X, E X → W → W → X → Prop) (h : handler E W) env
    (p : prog E R) w :
  (∀ X e w1 w2 x, I w1 → h X e w1 = (w2, x) → I w2 ∧ step X e w1 w2 x) → I w →
  rtc (pool_step step env) (w, [p]) ((run h p w).1, [Ret (run h p w).2]).
Proof.
  intros Hsub. revert w. induction p as [r | X e k IH]; intros w Hw; simpl; [done |].
  destruct (h X e w) as [w' x] eqn:Hh. destruct (Hsub _ _ _ _ _ Hw Hh) as [Hw' Hx].
  eapply rtc_l; [| by apply IH]. by apply (pool_call _ _ w w' [Vis e k] 0 X e k x).
Qed.

(** ** Lists *)

(** [find] with its index-free specification. *)
Lemma list_find_Some_in {A} (f : A → bool) (l : list A) x :
  List.find f l = Some x → x ∈ l ∧ f x = true.
Proof.
  intros H%List.find_some. by rewrite list_elem_of_In.
Qed.

Lemma last_snoc_inv {A} (l : list A) x :
  last l = Some x → ∃ l', l = l' ++ [x].
Proof. intros H. apply last_Some in H as [l' ->]. by exists l'. Qed.

Lemma filter_none {A} (P : A → Prop) `{!∀ x, Decision (P x)} (l : list A) :
  Forall (λ x, ¬ P x) l → filter P l = [].
Proof.
  intros Hl. induction Hl as [|x l Hx _ IH]; [done |].
  by rewrite filter_cons_False.
Qed.

Lemma filter_keeps {A} (P Q : A → Prop) `{!∀ x, Decision (P x)} (l : list A) :
  Forall Q l → Forall Q (filter P l).
Proof.
  rewrite !Forall_forall. intros Hl x [_ Hx]%list_elem_of_filter. by apply Hl.
Qed.

(** ** Automation *)

Create HintDb delphi.

(** Case analysis on every [match] of the goal, with equations. *)
Ltac case_matches := repeat (case_match; simplify_eq/=; try done).

(** Boolean connectives of the code to propositions. *)
Ltac destruct_bools :=
  repeat match goal with
  | H : _ && _ = true |- _ => apply andb_true_iff in H; destruct H
  | H : _ && _ = false |- _ => apply andb_false_iff in H
  | H : _ || _ = true |- _ => apply orb_true_iff in H
  | H : _ || _ = false |- _ => apply orb_false_iff in H; destruct H
  | H : negb _ = true |- _ => apply negb_true_iff in H
  | H : negb _ = false |- _ => apply negb_false_iff in H
  | H : bool_decide _ = true |- _ => apply bool_decide_eq_true in H
  | H : bool_decide _ = false |- _ => apply bool_decide_eq_false in H
  | H : (_ =? _)%Z = true |- _ => apply Z.eqb_eq in H
  | H : (_ =? _)%Z = false |- _ => apply Z.eqb_neq in H
  | H : (_ <? _)%Z = true |- _ => apply Z.ltb_lt in H
  | H : (_ <? _)%Z = false |- _ => apply Z.ltb_ge in H
  | H : (_ <=? _)%Z = true |- _ => apply Z.leb_le in H
  | H : (_ <=? _)%Z = false |- _ => apply Z.leb_gt in H
  end.
