(* ===== verification/Text.v ===== *)
(** * Text: the parts of Rust's [str] and of foreign text codecs the code uses

    A Rust [String] is the Rocq [string] of its UTF-8 bytes; [chars] decodes it
    to Unicode scalar values, [trim] and [is_control] work on those.  Decimal
    printing and parsing follow [Display] and [FromStr] of the integer types.
    The crates [hex], [sha2], [crc32fast] and [serde_json] are not part of the
    repository: they are classes, and [Demo] instantiates each of them so that
    concrete inputs can be evaluated. *)

From S2P Require Import Prelude.
From Stdlib Require Export Ascii.
From Stdlib Require Import DecimalString DecimalN.

Local Open Scope Z_scope.

(** ** Characters *)

Definition byte_of_ascii (a : ascii) : Z := Z.of_N (Ascii.N_of_ascii a).
Definition ascii_of_byte (b : Z) : ascii := Ascii.ascii_of_N (Z.to_N b).

Lemma byte_of_ascii_of_byte b : 0 ≤ b < 256 → byte_of_ascii (ascii_of_byte b) = b.
Proof.
  intros Hb. unfold byte_of_ascii, ascii_of_byte.
  rewrite Ascii.N_ascii_embedding; lia.
Qed.

(** [str::chars], on UTF-8 (the only contents a [str] has). *)
Fixpoint chars (s : string) : list Z :=
  match s with
  | EmptyString => []
  | String a0 s1 =>
      let b0 := byte_of_ascii a0 in
      if b0 <? 128 then b0 :: chars s1 else
      match s1 with
      | EmptyString => [b0]
      | String a1 s2 =>
          let b1 := byte_of_ascii a1 mod 64 in
          if b0 <? 224 then (b0 - 192) * 64 + b1 :: chars s2 else
          match s2 with
          | EmptyString => [b0]
          | String a2 s3 =>
              let b2 := byte_of_ascii a2 mod 64 in
              if b0 <? 240 then (b0 - 224) * 4096 + b1 * 64 + b2 :: chars s3 else
              match s3 with
              | EmptyString => [b0]
              | String a3 s4 =>
                  let b3 := byte_of_ascii a3 mod 64 in
                  (b0 - 240) * 262144 + b1 * 4096 + b2 * 64 + b3 :: chars s4
              end
          end
      end
  end.

Definition utf8_char (c : Z) (s : string) : string :=
  if c <? 128 then String (ascii_of_byte c) s
  else if c <? 2048 then
    String (ascii_of_byte (192 + c / 64)) (String (ascii_of_byte (128 + c mod 64)) s)
  else if c <? 65536 then
    String (ascii_of_byte (224 + c / 4096))
      (String (ascii_of_byte (128 + c / 64 mod 64))
         (String (ascii_of_byte (128 + c mod 64)) s))
  else
    String (ascii_of_byte (240 + c / 262144))
      (String (ascii_of_byte (128 + c / 4096 mod 64))
         (String (ascii_of_byte (128 + c / 64 mod 64))
            (String (ascii_of_byte (128 + c mod 64)) s))).

(** [iter.collect::<String>()] *)
Definition collect (cs : list Z) : string := foldr utf8_char "" cs.

Definition is_scalar (c : Z) : Prop := 0 ≤ c < 1114112.

Lemma continuation_mod b : 0 ≤ b < 64 → (128 + b) mod 64 = b.
Proof. intros Hb. rewrite Z.add_mod by lia. change (128 mod 64) with 0. rewrite Z.add_0_l, Z.mod_mod by lia. by apply Z.mod_small. Qed.

Lemma chars_utf8_char c s : is_scalar c → chars (utf8_char c s) = c :: chars s.
Proof.
  unfold is_scalar. intros Hc.
  assert (0 ≤ c mod 64 < 64) by (apply Z.mod_pos_bound; lia).
  assert (0 ≤ c / 64 mod 64 < 64) by (apply Z.mod_pos_bound; lia).
  assert (0 ≤ c / 4096 mod 64 < 64) by (apply Z.mod_pos_bound; lia).
  unfold utf8_char. repeat case_match; destruct_bools; cbn [chars].
  - rewrite byte_of_ascii_of_byte by lia. case_match; destruct_bools; [done | lia].
  - assert (c / 64 < 32) by (apply Z.div_lt_upper_bound; lia).
    assert (2 ≤ c / 64) by (apply Z.div_le_lower_bound; lia).
    rewrite !byte_of_ascii_of_byte, !continuation_mod by lia.
    repeat case_match; destruct_bools; try lia.
    f_equal. pose proof (Z.div_mod c 64). lia.
  - assert (c / 4096 < 16) by (apply Z.div_lt_upper_bound; lia).
    assert (0 ≤ c / 4096) by (apply Z.div_pos; lia).
    rewrite !byte_of_ascii_of_byte, !continuation_mod by lia.
    repeat case_match; destruct_bools; try lia.
    f_equal. pose proof (Z.div_mod c 64). pose proof (Z.div_mod (c / 64) 64).
    rewrite Z.div_div in * by lia. change (64 * 64) with 4096 in *. lia.
  - assert (c / 262144 < 5) by (apply Z.div_lt_upper_bound; lia).
    assert (0 ≤ c / 262144) by (apply Z.div_pos; lia).
    rewrite !byte_of_ascii_of_byte, !continuation_mod by lia.
    repeat case_match; destruct_bools; try lia.
    f_equal. pose proof (Z.div_mod c 64). pose proof (Z.div_mod (c / 64) 64).
    pose proof (Z.div_mod (c / 4096) 64).
    rewrite !Z.div_div in * by lia.
    change (64 * 64) with 4096 in *. change (4096 * 64) with 262144 in *. lia.
Qed.

Lemma chars_collect cs : Forall is_scalar cs → chars (collect cs) = cs.
Proof.
  induction 1 as [|c cs Hc Hcs IH]; simpl; [done |].
  by rewrite chars_utf8_char, IH.
Qed.

(** [char::is_whitespace]: the [White_Space] property. *)
Definition is_whitespace (c : Z) : bool :=
  ((9 <=? c) && (c <=? 13)) || (c =? 32) || (c =? 133) || (c =? 160) || (c =? 5760)
  || ((8192 <=? c) && (c <=? 8202)) || (c =? 8232) || (c =? 8233) || (c =? 8239)
  || (c =? 8287) || (c =? 12288).

(** [char::is_control]: general category Cc. *)
Definition is_control (c : Z) : bool :=
  ((0 <=? c) && (c <=? 31)) || ((127 <=? c) && (c <=? 159)).

Definition is_ascii_alphanumeric (c : Z) : bool :=
  ((48 <=? c) && (c <=? 57)) || ((65 <=? c) && (c <=? 90)) || ((97 <=? c) && (c <=? 122)).

Fixpoint trim_start (cs : list Z) : list Z :=
  match cs with
  | c :: cs' => if is_whitespace c then trim_start cs' else cs
  | [] => []
  end.

Definition trim_chars (cs : list Z) : list Z :=
  reverse (trim_start (reverse (trim_start cs))).

(** [str::trim] *)
Definition trim (s : string) : string := collect (trim_chars (chars s)).

(** [s.is_empty()] *)
Definition is_empty (s : string) : bool :=
  match s with EmptyString => true | _ => false end.

(** [s.to_ascii_lowercase()] *)
Definition ascii_lower (a : ascii) : ascii :=
  let b := byte_of_ascii a in
  if (65 <=? b) && (b <=? 90) then ascii_of_byte (b + 32) else a.
Fixpoint to_ascii_lowercase (s : string) : string :=
  match s with
  | EmptyString => EmptyString
  | String a s' => String (ascii_lower a) (to_ascii_lowercase s')
  end.

(** [s.starts_with(p)] and [s.strip_prefix(p)] *)
Fixpoint strip_prefix (p s : string) : option string :=
  match p, s with
  | EmptyString, _ => Some s
  | String a p', String b s' => if Ascii.eqb a b then strip_prefix p' s' else None
  | String _ _, EmptyString => None
  end.
Lemma strip_prefix_app p s : strip_prefix p (p +:+ s) = Some s.
Proof.
  induction p as [|a p IH]; [by destruct s |].
  change (String a p +:+ s) with (String a (p +:+ s)). cbn. by rewrite Ascii.eqb_refl.
Qed.

Definition starts_with (s p : string) : bool :=
  match strip_prefix p s with Some _ => true | None => false end.

(** [s.split_once(c)] for an ASCII [c]: the part before the first [c] and the
    part after it. *)
Fixpoint split_once (c : ascii) (s : string) : option (string * string) :=
  match s with
  | EmptyString => None
  | String a s' =>
      if Ascii.eqb a c then Some (EmptyString, s')
      else match split_once c s' with
           | Some (l, r) => Some (String a l, r)
           | None => None
           end
  end.

(** [s.split(c)] for an ASCII [c] *)
Fixpoint split (c : ascii) (s : string) : list string :=
  match s with
  | EmptyString => [EmptyString]
  | String a s' =>
      if Ascii.eqb a c then EmptyString :: split c s'
      else match split c s' with
           | [] => [String a EmptyString]
           | t :: ts => String a t :: ts
           end
  end.

Fixpoint all_chars (f : ascii → bool) (s : string) : bool :=
  match s with
  | EmptyString => true
  | String a s' => f a && all_chars f s'
  end.

Lemma string_app_cons a s t : String a s +:+ t = String a (s +:+ t).
Proof. done. Qed.

Lemma string_app_nil s : "" +:+ s = s.
Proof. done. Qed.

(** Normalise a one-byte separator literal so that [app_sep_inj], [split_app]
    and [split_once_app] apply. *)
Tactic Notation "expose_sep" constr(c) :=
  rewrite ?(string_app_cons c), ?string_app_nil.
Tactic Notation "expose_sep" constr(c) "in" hyp(H) :=
  rewrite ?(string_app_cons c), ?string_app_nil in H.

Lemma string_app_assoc s t u : (s +:+ t) +:+ u = s +:+ (t +:+ u).
Proof.
  induction s as [|a s IH]; [done |]. by rewrite !string_app_cons, IH.
Qed.

(** Does the byte occur in the string? *)
Fixpoint has_char (c : ascii) (s : string) : bool :=
  match s with
  | EmptyString => false
  | String a s' => Ascii.eqb a c || has_char c s'
  end.

Lemma has_char_app c s t : has_char c (s +:+ t) = has_char c s || has_char c t.
Proof.
  induction s as [|a s IH]; [done |]. rewrite string_app_cons. cbn [has_char].
  rewrite IH. by destruct (Ascii.eqb a c).
Qed.

Lemma split_once_app c s t :
  has_char c s = false → split_once c (s +:+ String c t) = Some (s, t).
Proof.
  induction s as [|a s IH].
  - intros _. change (EmptyString +:+ String c t) with (String c t). cbn.
    by rewrite Ascii.eqb_refl.
  - cbn [has_char]. intros [Ha Hs]%orb_false_iff.
    rewrite string_app_cons. cbn. by rewrite Ha, IH.
Qed.

Lemma split_none c s : has_char c s = false → split c s = [s].
Proof.
  induction s as [|a s IH]; [done |].
  cbn. intros [Ha Hs]%orb_false_iff. by rewrite Ha, IH.
Qed.

Lemma split_app c s t :
  has_char c s = false → split c (s +:+ String c t) = s :: split c t.
Proof.
  induction s as [|a s IH].
  - intros _. change (EmptyString +:+ String c t) with (String c t). cbn.
    by rewrite Ascii.eqb_refl.
  - cbn [has_char]. intros [Ha Hs]%orb_false_iff.
    rewrite string_app_cons. cbn. by rewrite Ha, IH.
Qed.

(** Two strings joined by a byte the first parts do not contain. *)
Lemma app_sep_inj c s1 s2 t1 t2 :
  has_char c s1 = false → has_char c s2 = false →
  s1 +:+ String c t1 = s2 +:+ String c t2 → s1 = s2 ∧ t1 = t2.
Proof.
  intros H1 H2 Heq.
  assert (split_once c (s1 +:+ String c t1) = split_once c (s2 +:+ String c t2)) as Hs
    by congruence.
  rewrite !split_once_app in Hs by done. by simplify_eq.
Qed.

(** ** UTF-8 validation *)

Definition is_scalarb (c : Z) : bool :=
  (0 <=? c) && (c <? 1114112) && negb ((55296 <=? c) && (c <=? 57343)).

(** Well-formed UTF-8: decoding and encoding again gives the same bytes, and
    only scalar values are decoded. *)
Definition valid_utf8 (s : string) : bool :=
  forallb is_scalarb (chars s) && bool_decide (collect (chars s) = s).

Lemma valid_utf8_cons a s :
  byte_of_ascii a < 128 → valid_utf8 s = true → valid_utf8 (String a s) = true.
Proof.
  intros Ha [Hs Heq]%andb_true_iff. apply bool_decide_eq_true in Heq.
  assert (0 ≤ byte_of_ascii a) by (unfold byte_of_ascii; lia).
  unfold valid_utf8. cbn [chars]. rewrite (proj2 (Z.ltb_lt _ _)) by done.
  cbn [forallb]. rewrite Hs. apply andb_true_iff. split.
  - unfold is_scalarb. rewrite andb_true_r.
    rewrite (proj2 (Z.leb_le 0 _)), (proj2 (Z.ltb_lt _ 1114112)), (proj2 (Z.leb_gt 55296 _)) by lia.
    done.
  - apply bool_decide_eq_true. cbn [collect foldr]. fold (collect (chars s)).
    rewrite Heq. unfold utf8_char. rewrite (proj2 (Z.ltb_lt _ _)) by done.
    f_equal. unfold byte_of_ascii, ascii_of_byte. rewrite N2Z.id. apply ascii_N_embedding.
Qed.

Lemma valid_utf8_app f s t :
  all_chars f s = true → (∀ a, f a = true → byte_of_ascii a < 128) →
  valid_utf8 t = true → valid_utf8 (s +:+ t) = true.
Proof.
  intros Hs Hf Ht. induction s as [|a s IH]; [done |].
  rewrite string_app_cons. cbn in Hs. apply andb_true_iff in Hs as [Ha Hs].
  apply valid_utf8_cons; auto.
Qed.

(** ** Decimal integers *)

(** [Display] of an unsigned integer *)
Definition show_uint (n : Z) : string := NilEmpty.string_of_uint (N.to_uint (Z.to_N n)).
(** [Display] of a signed integer *)
Definition show_int (n : Z) : string :=
  if n <? 0 then String "-" (show_uint (- n)) else show_uint n.

Definition parse_digits (s : string) : option Z :=
  if is_empty s then None
  else match NilEmpty.uint_of_string s with
       | Some d => Some (Z.of_N (N.of_uint d))
       | None => None
       end.

Definition check_range (lo hi : Z) (o : option Z) : option Z :=
  match o with
  | Some n => if (lo <=? n) && (n <=? hi) then Some n else None
  | None => None
  end.

(** [s.parse::<u64>()] *)
Definition parse_u64 (s : string) : option Z :=
  check_range 0 u64_max
    (match s with
     | String "+" s' => parse_digits s'
     | _ => parse_digits s
     end).

(** [s.parse::<i64>()] *)
Definition parse_i64 (s : string) : option Z :=
  check_range i64_min i64_max
    (match s with
     | String "+" s' => parse_digits s'
     | String "-" s' => Z.opp <$> parse_digits s'
     | _ => parse_digits s
     end).

Lemma show_uint_not_empty n : is_empty (show_uint n) = false.
Proof.
  unfold show_uint.
  pose proof (DecimalFacts.unorm_nonnil (N.to_uint (Z.to_N n))) as Hnil.
  rewrite <- Unsigned.to_of, Unsigned.of_to in Hnil.
  by destruct (N.to_uint (Z.to_N n)).
Qed.

Lemma parse_digits_show n : 0 ≤ n → parse_digits (show_uint n) = Some n.
Proof.
  intros Hn. unfold parse_digits. rewrite show_uint_not_empty.
  unfold show_uint. rewrite NilEmpty.usu, Unsigned.of_to. f_equal. lia.
Qed.

Definition is_digit (a : ascii) : bool :=
  (48 <=? byte_of_ascii a) && (byte_of_ascii a <=? 57).

Lemma show_uint_digits n : all_chars is_digit (show_uint n) = true.
Proof. unfold show_uint. by induction (N.to_uint (Z.to_N n)). Qed.

Lemma all_chars_has_char f c s :
  all_chars f s = true → f c = false → has_char c s = false.
Proof.
  intros Hs Hc. induction s as [|a s IH]; [done |].
  cbn in *. apply andb_true_iff in Hs as [Ha Hs]. rewrite IH by done.
  destruct (Ascii.eqb_spec a c); [congruence | done].
Qed.

Lemma show_uint_head n :
  ∃ a s, show_uint n = String a s ∧ is_digit a = true.
Proof.
  pose proof (show_uint_not_empty n) as He. pose proof (show_uint_digits n) as Hd.
  destruct (show_uint n) as [|a s]; [done |]. exists a, s. split; [done |].
  cbn in Hd. by apply andb_true_iff in Hd as [? _].
Qed.

Lemma check_range_some lo hi n : lo ≤ n ≤ hi → check_range lo hi (Some n) = Some n.
Proof. intros [??]. unfold check_range. by rewrite !(proj2 (Z.leb_le _ _)). Qed.

Lemma parse_u64_show n : in_u64 n → parse_u64 (show_uint n) = Some n.
Proof.
  intros Hn. unfold parse_u64.
  destruct (show_uint_head n) as (a & s & Hs & Ha).
  replace (match show_uint n with String "+" s' => parse_digits s' | _ => _ end)
    with (parse_digits (show_uint n)).
  - rewrite parse_digits_show by (unfold_ints; lia).
    by apply check_range_some.
  - rewrite Hs. destruct a as [[] [] [] [] [] [] [] []]; done.
Qed.

Lemma parse_i64_show n : i64_min ≤ n ≤ i64_max → parse_i64 (show_int n) = Some n.
Proof.
  intros Hn. unfold parse_i64, show_int. destruct (Z.ltb_spec n 0).
  - rewrite parse_digits_show by lia. cbn [fmap option_fmap option_map].
    rewrite Z.opp_involutive. by apply check_range_some.
  - destruct (show_uint_head n) as (a & s & Hs & Ha).
    replace (match show_uint n with String "+" s' => parse_digits s'
             | String "-" s' => Z.opp <$> parse_digits s' | _ => _ end)
      with (parse_digits (show_uint n)).
    + rewrite parse_digits_show by lia. by apply check_range_some.
    + rewrite Hs. destruct a as [[] [] [] [] [] [] [] []]; done.
Qed.

Lemma show_int_no_colon n : has_char ":" (show_int n) = false.
Proof.
  assert (∀ m, has_char ":" (show_uint m) = false) as Hu.
  { intros m. eapply all_chars_has_char; [apply show_uint_digits | done]. }
  unfold show_int. case_match; [| done]. cbn. apply Hu.
Qed.

(** ** Foreign crates *)

Abbreviation bytes := (list Byte.byte).

Definition bytes_of_string : string → bytes := String.list_byte_of_string.
Definition string_of_bytes : bytes → string := String.string_of_list_byte.

(** [hex::encode] and [hex::decode] *)
Class Hex := {
  hex_encode : bytes → string;
  hex_decode : string → option bytes;
  hex_decode_encode : ∀ b, hex_decode (hex_encode b) = Some b;
}.

(** [Sha256::digest] *)
Class Sha2 := {
  sha256 : bytes → bytes;
  sha256_length : ∀ b, length (sha256 b) = 32%nat;
}.

(** [crc32fast::hash] *)
Class Crc32 := {
  crc32 : bytes → Z;
  crc32_u32 : ∀ b, in_u32 (crc32 b);
}.

(** [serde_json::Value], the parts of its interface the code uses: the two
    literals [Value::Null] and [Value::Object(Map::new())], [is_object] and
    [to_vec] ([None] is its [Err]). *)
Class SerdeJson := {
  Value : Type;
  Value_eq_dec :: EqDecision Value;
  value_null : Value;
  value_empty_object : Value;
  value_is_object : Value → bool;
  value_to_vec : Value → option bytes;
  value_empty_object_is_object : value_is_object value_empty_object = true;
}.

Lemma string_of_bytes_of_string s : string_of_bytes (bytes_of_string s) = s.
Proof. apply String.string_of_list_byte_of_string. Qed.

(** [String::from_utf8] *)
Definition from_utf8 (b : bytes) : option string :=
  let s := string_of_bytes b in if valid_utf8 s then Some s else None.

Lemma from_utf8_bytes s : valid_utf8 s = true → from_utf8 (bytes_of_string s) = Some s.
Proof. intros Hs. unfold from_utf8. by rewrite string_of_bytes_of_string, Hs. Qed.

(** ** Concrete instances, for evaluating the model on inputs *)

Module Demo.

Definition nibble (n : Z) : ascii := ascii_of_byte (if n <? 10 then 48 + n else 87 + n).
Definition unnibble (a : ascii) : option Z :=
  let b := byte_of_ascii a in
  if (48 <=? b) && (b <=? 57) then Some (b - 48)
  else if (97 <=? b) && (b <=? 102) then Some (b - 87)
  else if (65 <=? b) && (b <=? 70) then Some (b - 55)
  else None.

Fixpoint hex_string (s : string) : string :=
  match s with
  | EmptyString => EmptyString
  | String a s' =>
      String (nibble (byte_of_ascii a / 16))
        (String (nibble (byte_of_ascii a mod 16)) (hex_string s'))
  end.
Fixpoint unhex_string (s : string) : option string :=
  match s with
  | EmptyString => Some EmptyString
  | String a (String b s') =>
      match unnibble a, unnibble b, unhex_string s' with
      | Some hi, Some lo, Some r => Some (String (ascii_of_byte (hi * 16 + lo)) r)
      | _, _, _ => None
      end
  | String _ EmptyString => None
  end.

Lemma unhex_hex s : unhex_string (hex_string s) = Some s.
Proof.
  induction s as [|a s IH]; [done |]. cbn [hex_string unhex_string].
  rewrite IH. by destruct a as [[] [] [] [] [] [] [] []].
Qed.

#[export] Instance hex : Hex := {|
  hex_encode b := hex_string (string_of_bytes b);
  hex_decode s := bytes_of_string <$> unhex_string s;
  hex_decode_encode b := ltac:(
    cbv beta; rewrite unhex_hex; cbn; f_equal;
    apply String.list_byte_of_string_of_list_byte);
|}.

(** A stand-in for the digest: the input cut or padded to 32 bytes. *)
#[export] Instance sha2 : Sha2 := {|
  sha256 b := resize 32%nat Byte.x00 b;
  sha256_length b := length_resize b 32 Byte.x00;
|}.

#[export] Instance crc : Crc32 := {|
  crc32 b := Z.of_nat (length b) mod 65536;
  crc32_u32 b := ltac:(
    unfold in_u32, u32_max;
    pose proof (Z.mod_pos_bound (Z.of_nat (length b)) 65536); lia);
|}.

(** [None] is [null], [Some fields] an object with string members. *)
Fixpoint print_fields (fs : list (string * string)) : string :=
  match fs with
  | [] => "}"
  | (k, v) :: fs' => k +:+ ":" +:+ v +:+ "," +:+ print_fields fs'
  end.

#[export] Instance json : SerdeJson := {|
  Value := option (list (string * string));
  value_null := None;
  value_empty_object := Some [];
  value_is_object v := bool_decide (is_Some v);
  value_to_vec v :=
    Some (bytes_of_string (match v with None => "null" | Some fs => "{" +:+ print_fields fs end));
  value_empty_object_is_object := eq_refl;
|}.
End Demo.
