(* ===== verification/Events.v ===== *)
(** * The event catalogue (crates/document-domain/src/events.rs)

    One durable fact about one document, its payload, the metadata patch it
    carries, and the two classifications the rest of the system relies on:
    which payloads advance the document version, and which blob a payload
    introduced. *)

From S2P Require Import Prelude Text.

(** [chrono::DateTime<Utc>]: an instant, in nanoseconds. *)
Abbreviation DateTime := Z.

Definition DOCUMENT_CONTRACT_VERSION : Z := 1.
Definition INDEX_STAGE : string := "index".

Inductive Actor : Type :=
| User (user_id : string)
| System (component : string).

Definition actor_user_id (a : Actor) : option string :=
  match a with
  | User user_id => Some user_id
  | System _ => None
  end.

#[export] Instance Actor_eq_dec : EqDecision Actor.
Proof. solve_decision. Defined.

Section events.
Context {J : SerdeJson}.

Record MetadataPatch : Type := mkPatch {
  mp_title : option string;
  mp_tags : option (list string);
  mp_description : option string;
  mp_metadata : option Value;
}.

(** [MetadataPatch::default()] *)
Definition default_patch : MetadataPatch := mkPatch None None None None.

(** [MetadataPatch::is_empty] *)
Definition patch_is_empty (p : MetadataPatch) : bool :=
  bool_decide (mp_title p = None) && bool_decide (mp_tags p = None)
  && bool_decide (mp_description p = None) && bool_decide (mp_metadata p = None).

Record DocumentCreated : Type := mkCreated {
  dc_blob_ref : string;
  dc_filename : string;
  dc_content_type : string;
  dc_byte_size : Z;
  dc_checksum : string;
  dc_patch : MetadataPatch;
}.

Record DocumentBlobValidated : Type := mkValidated {
  dv_blob_ref : string;
  dv_filename : string;
  dv_content_type : string;
  dv_byte_size : Z;
  dv_checksum : string;
  dv_patch : MetadataPatch;
  dv_based_on_version : option Z;
}.

Record DocumentTextExtracted : Type := mkExtracted {
  dx_for_version : Z;
  dx_extractor_version : string;
  dx_char_count : Z;
  dx_checksum : string;
}.

Record DocumentIndexed : Type := mkIndexed {
  di_for_version : Z;
  di_vector_count : Z;
  di_embedding_model : string;
}.

Record DocumentStageFailed : Type := mkStageFailed {
  df_for_version : Z;
  df_stage : string;
  df_reason : string;
  df_attempts : Z;
}.

Inductive DocumentEventPayload : Type :=
| PDocumentCreated (created : DocumentCreated)
| PDocumentBlobValidated (validated : DocumentBlobValidated)
| PDocumentMetadataChanged (patch : MetadataPatch)
| PDocumentTextExtracted (extracted : DocumentTextExtracted)
| PDocumentIndexed (indexed : DocumentIndexed)
| PDocumentStageFailed (failed : DocumentStageFailed)
| PDocumentReverted (reverted_to : Z) (patch : MetadataPatch)
| PDocumentDeleted (reason : string)
| PDocumentBlobPruned (blob_ref : string) (reason : string).

Record DocumentEvent : Type := mkEvent {
  ev_v : Z;
  ev_event_id : string;
  ev_tenant_id : string;
  ev_document_id : string;
  ev_actor : Actor;
  ev_version : Z;
  ev_ts : DateTime;
  ev_payload : DocumentEventPayload;
}.

#[export] Instance MetadataPatch_eq_dec : EqDecision MetadataPatch.
Proof. solve_decision. Defined.
#[export] Instance DocumentCreated_eq_dec : EqDecision DocumentCreated.
Proof. solve_decision. Defined.
#[export] Instance DocumentBlobValidated_eq_dec : EqDecision DocumentBlobValidated.
Proof. solve_decision. Defined.
#[export] Instance DocumentTextExtracted_eq_dec : EqDecision DocumentTextExtracted.
Proof. solve_decision. Defined.
#[export] Instance DocumentIndexed_eq_dec : EqDecision DocumentIndexed.
Proof. solve_decision. Defined.
#[export] Instance DocumentStageFailed_eq_dec : EqDecision DocumentStageFailed.
Proof. solve_decision. Defined.
#[export] Instance DocumentEventPayload_eq_dec : EqDecision DocumentEventPayload.
Proof. solve_decision. Defined.
#[export] Instance DocumentEvent_eq_dec : EqDecision DocumentEvent.
Proof. solve_decision. Defined.

(** [DocumentEventPayload::advances_version] *)
Definition payload_advances_version (p : DocumentEventPayload) : bool :=
  match p with
  | PDocumentCreated _ | PDocumentBlobValidated _ | PDocumentMetadataChanged _
  | PDocumentReverted _ _ | PDocumentDeleted _ => true
  | PDocumentTextExtracted _ | PDocumentIndexed _ | PDocumentStageFailed _
  | PDocumentBlobPruned _ _ => false
  end.

(** [DocumentEvent::advances_version] *)
Definition advances_version (e : DocumentEvent) : bool :=
  payload_advances_version (ev_payload e).

(** [DocumentEventPayload::blob_ref] *)
Definition blob_ref (p : DocumentEventPayload) : option string :=
  match p with
  | PDocumentCreated created => Some (dc_blob_ref created)
  | PDocumentBlobValidated validated => Some (dv_blob_ref validated)
  | PDocumentBlobPruned _ _ => None
  | PDocumentMetadataChanged _ | PDocumentTextExtracted _ | PDocumentIndexed _
  | PDocumentStageFailed _ | PDocumentReverted _ _ | PDocumentDeleted _ => None
  end.

(** [DocumentEventPayload::type_name] *)
Definition type_name (p : DocumentEventPayload) : string :=
  match p with
  | PDocumentCreated _ => "document_created"
  | PDocumentBlobValidated _ => "document_blob_validated"
  | PDocumentMetadataChanged _ => "document_metadata_changed"
  | PDocumentTextExtracted _ => "document_text_extracted"
  | PDocumentIndexed _ => "document_indexed"
  | PDocumentStageFailed _ => "document_stage_failed"
  | PDocumentReverted _ _ => "document_reverted"
  | PDocumentDeleted _ => "document_deleted"
  | PDocumentBlobPruned _ _ => "document_blob_pruned"
  end.

(** The payloads that introduce a blob are version-advancing. *)
Lemma blob_ref_advances p b :
  blob_ref p = Some b → payload_advances_version p = true.
Proof. by destruct p. Qed.
End events.
