(* ===== verification/Fold.v ===== *)
(** * The fold (crates/document-domain/src/fold.rs)

    [apply] turns the events of one document into its state; the [document]
    table is a cache of it.  The theorems say what a well-formed history folds
    to, which field each event may touch, and that the state of a document is
    determined by its last writer of each field. *)

From S2P Require Import Prelude Text Events.

Inductive DocState : Type := Active | Deleted.
Inductive IndexState : Type := Pending | Current | Failed.

#[export] Instance DocState_eq_dec : EqDecision DocState.
Proof. solve_decision. Defined.
#[export] Instance IndexState_eq_dec : EqDecision IndexState.
Proof. solve_decision. Defined.

(** [DocState::as_str], [DocState::parse] *)
Definition docstate_as_str (s : DocState) : string :=
  match s with Active => "active" | Deleted => "deleted" end.
Definition docstate_parse (value : string) : option DocState :=
  if bool_decide (value = "active") then Some Active
  else if bool_decide (value = "deleted") then Some Deleted
  else None.

(** [IndexState::as_str], [IndexState::parse] *)
Definition indexstate_as_str (s : IndexState) : string :=
  match s with Pending => "pending" | Current => "current" | Failed => "failed" end.
Definition indexstate_parse (value : string) : option IndexState :=
  if bool_decide (value = "pending") then Some Pending
  else if bool_decide (value = "current") then Some Current
  else if bool_decide (value = "failed") then Some Failed
  else None.

Lemma docstate_parse_as_str s : docstate_parse (docstate_as_str s) = Some s.
Proof. by destruct s. Qed.
Lemma indexstate_parse_as_str s : indexstate_parse (indexstate_as_str s) = Some s.
Proof. by destruct s. Qed.

Inductive FoldError : Type :=
| NoPriorState (document_id : string) (event_type : string)
| SystemActorCreate (document_id : string)
| DocumentMismatch (expected : string) (actual : string).

#[export] Instance FoldError_eq_dec : EqDecision FoldError.
Proof. solve_decision. Defined.

(** [Display for FoldError] *)
Definition fold_error_to_string (e : FoldError) : string :=
  match e with
  | NoPriorState document_id event_type =>
      "event " +:+ event_type +:+ " for document " +:+ document_id
      +:+ " arrived with no prior state"
  | SystemActorCreate document_id =>
      "document " +:+ document_id
      +:+ " was created by a system actor; a create must name a user"
  | DocumentMismatch expected actual =>
      "event for document " +:+ actual +:+ " folded into state for " +:+ expected
  end.

Section fold.
Context {J : SerdeJson}.

Record DocumentState : Type := mkState {
  ds_tenant_id : string;
  ds_document_id : string;
  ds_owner_user_id : string;
  ds_version : Z;
  ds_stream_seq : Z;
  ds_state : DocState;
  ds_index_state : IndexState;
  ds_index_version : option Z;
  ds_current_blob : option string;
  ds_filename : option string;
  ds_content_type : option string;
  ds_byte_size : option Z;
  ds_checksum : option string;
  ds_title : option string;
  ds_tags : list string;
  ds_description : option string;
  ds_metadata : Value;
  ds_created_at : DateTime;
  ds_updated_at : DateTime;
}.

#[export] Instance DocumentState_eq_dec : EqDecision DocumentState.
Proof. solve_decision. Defined.

(** [merge_patch]: only the [Some] fields of the patch are written. *)
Definition merge_patch (s : DocumentState) (patch : MetadataPatch) : DocumentState :=
  {| ds_tenant_id := ds_tenant_id s;
     ds_document_id := ds_document_id s;
     ds_owner_user_id := ds_owner_user_id s;
     ds_version := ds_version s;
     ds_stream_seq := ds_stream_seq s;
     ds_state := ds_state s;
     ds_index_state := ds_index_state s;
     ds_index_version := ds_index_version s;
     ds_current_blob := ds_current_blob s;
     ds_filename := ds_filename s;
     ds_content_type := ds_content_type s;
     ds_byte_size := ds_byte_size s;
     ds_checksum := ds_checksum s;
     ds_title :=
       match mp_title patch with Some title => Some title | None => ds_title s end;
     ds_tags := match mp_tags patch with Some tags => tags | None => ds_tags s end;
     ds_description :=
       match mp_description patch with Some d => Some d | None => ds_description s end;
     ds_metadata :=
       match mp_metadata patch with Some m => m | None => ds_metadata s end;
     ds_created_at := ds_created_at s;
     ds_updated_at := ds_updated_at s |}.

(** [next.version = ..; next.stream_seq = ..; next.updated_at = ..] *)
Definition touch (s : DocumentState) (version stream_seq : Z) (ts : DateTime) : DocumentState :=
  mkState (ds_tenant_id s) (ds_document_id s) (ds_owner_user_id s) version stream_seq
    (ds_state s) (ds_index_state s) (ds_index_version s) (ds_current_blob s)
    (ds_filename s) (ds_content_type s) (ds_byte_size s) (ds_checksum s)
    (ds_title s) (ds_tags s) (ds_description s) (ds_metadata s) (ds_created_at s) ts.

(** The five content fields of a validated blob, and the reset of the index. *)
Definition set_content (s : DocumentState) (v : DocumentBlobValidated) : DocumentState :=
  mkState (ds_tenant_id s) (ds_document_id s) (ds_owner_user_id s) (ds_version s)
    (ds_stream_seq s) (ds_state s) Pending (ds_index_version s)
    (Some (dv_blob_ref v)) (Some (dv_filename v)) (Some (dv_content_type v))
    (Some (dv_byte_size v)) (Some (dv_checksum v))
    (ds_title s) (ds_tags s) (ds_description s) (ds_metadata s)
    (ds_created_at s) (ds_updated_at s).

(** [next.state = DocState::Deleted] *)
Definition set_state (s : DocumentState) (st : DocState) : DocumentState :=
  mkState (ds_tenant_id s) (ds_document_id s) (ds_owner_user_id s) (ds_version s)
    (ds_stream_seq s) st (ds_index_state s) (ds_index_version s) (ds_current_blob s)
    (ds_filename s) (ds_content_type s) (ds_byte_size s) (ds_checksum s)
    (ds_title s) (ds_tags s) (ds_description s) (ds_metadata s)
    (ds_created_at s) (ds_updated_at s).

(** [next.index_state = ..; next.index_version = ..] *)
Definition set_index (s : DocumentState) (st : IndexState) (v : option Z) : DocumentState :=
  mkState (ds_tenant_id s) (ds_document_id s) (ds_owner_user_id s) (ds_version s)
    (ds_stream_seq s) (ds_state s) st v (ds_current_blob s)
    (ds_filename s) (ds_content_type s) (ds_byte_size s) (ds_checksum s)
    (ds_title s) (ds_tags s) (ds_description s) (ds_metadata s)
    (ds_created_at s) (ds_updated_at s).

(** The inner [match payload] of [apply], on a state already touched. *)
Definition apply_payload (next : DocumentState) (p : DocumentEventPayload) : DocumentState :=
  match p with
  | PDocumentCreated _ => next
  | PDocumentBlobValidated validated =>
      merge_patch (set_content next validated) (dv_patch validated)
  | PDocumentMetadataChanged patch => merge_patch next patch
  | PDocumentReverted _ patch => merge_patch next patch
  | PDocumentDeleted _ => set_state next Deleted
  | PDocumentIndexed indexed =>
      set_index next
        (if (ds_version next <=? di_for_version indexed)%Z then Current else Pending)
        (Some (di_for_version indexed))
  | PDocumentStageFailed failed =>
      if bool_decide (df_stage failed = INDEX_STAGE)
      then set_index next Failed (ds_index_version next) else next
  | PDocumentTextExtracted _ | PDocumentBlobPruned _ _ => next
  end.

(** The state a create seeds, before its patch. *)
Definition seed (e : DocumentEvent) (user_id : string) (created : DocumentCreated)
    (created_at : DateTime) (stream_seq : Z) : DocumentState :=
  {| ds_tenant_id := ev_tenant_id e;
     ds_document_id := ev_document_id e;
     ds_owner_user_id := user_id;
     ds_version := ev_version e;
     ds_stream_seq := stream_seq;
     ds_state := Active;
     ds_index_state := Pending;
     ds_index_version := None;
     ds_current_blob := Some (dc_blob_ref created);
     ds_filename := Some (dc_filename created);
     ds_content_type := Some (dc_content_type created);
     ds_byte_size := Some (dc_byte_size created);
     ds_checksum := Some (dc_checksum created);
     ds_title := None;
     ds_tags := [];
     ds_description := None;
     ds_metadata := value_empty_object;
     ds_created_at := created_at;
     ds_updated_at := ev_ts e |}.

(** [apply] *)
Definition apply (state : option DocumentState) (event : DocumentEvent) (stream_seq : Z)
  : result DocumentState FoldError :=
  let mismatch :=
    match state with
    | Some existing => bool_decide (ds_document_id existing ≠ ev_document_id event)
    | None => false
    end in
  if mismatch then
    Err (DocumentMismatch (default "" (ds_document_id <$> state)) (ev_document_id event))
  else
    match ev_payload event with
    | PDocumentCreated created =>
        match ev_actor event with
        | User user_id =>
            let created_at := default (ev_ts event) (ds_created_at <$> state) in
            Ok (merge_patch (seed event user_id created created_at stream_seq)
                  (dc_patch created))
        | System _ => Err (SystemActorCreate (ev_document_id event))
        end
    | payload =>
        let? next := ok_or state (NoPriorState (ev_document_id event) (type_name payload)) in
        Ok (apply_payload (touch next (ev_version event) stream_seq (ev_ts event)) payload)
    end.

(** Fold a history, as [fold_history] of worker.rs does. *)
Fixpoint fold_from (state : option DocumentState) (history : list (Z * DocumentEvent))
  : result (option DocumentState) FoldError :=
  match history with
  | [] => Ok state
  | (seq, event) :: history' =>
      let? s := apply state event seq in fold_from (Some s) history'
  end.

Definition fold_history (history : list (Z * DocumentEvent))
  : result (option DocumentState) FoldError := fold_from None history.

(** ** Lemmas *)

Lemma fold_from_app s h1 h2 :
  fold_from s (h1 ++ h2) = result_bind (fold_from s h1) (λ s', fold_from s' h2).
Proof.
  revert s. induction h1 as [|[seq e] h1 IH]; intros s; simpl; [done |].
  destruct (apply s e seq); simpl; [apply IH | done].
Qed.

Lemma fold_from_snoc s h seq e :
  fold_from s (h ++ [(seq, e)])
  = result_bind (fold_from s h) (λ s', result_map Some (apply s' e seq)).
Proof.
  rewrite fold_from_app. destruct (fold_from s h); simpl; [| done].
  by destruct (apply _ e seq).
Qed.

(** What every successful [apply] leaves in the bookkeeping fields. *)
Lemma apply_bookkeeping s e seq s' :
  apply s e seq = Ok s' →
  ds_document_id s' = ev_document_id e ∧ ds_version s' = ev_version e ∧
  ds_stream_seq s' = seq ∧ ds_updated_at s' = ev_ts e ∧
  ds_created_at s' = default (ev_ts e) (ds_created_at <$> s).
Proof.
  unfold apply. destruct s as [s|]; simpl.
  - case_bool_decide as Hid; [done |].
    destruct (ev_payload e); simpl; intros; case_matches; simplify_eq/=; by rewrite ?Hid.
  - destruct (ev_payload e); simpl; intros; case_matches; by simplify_eq/=.
Qed.

(** Whether [apply] accepts an event after some history of its document. *)
Definition acceptable (doc : string) (e : DocumentEvent) : bool :=
  bool_decide (ev_document_id e = doc)
  && match ev_payload e, ev_actor e with
     | PDocumentCreated _, System _ => false
     | _, _ => true
     end.

Definition is_user_create (e : DocumentEvent) : bool :=
  match ev_payload e, ev_actor e with
  | PDocumentCreated _, User _ => true
  | _, _ => false
  end.

(** The histories the event store is meant to hold. *)
Definition valid_history (h : list (Z * DocumentEvent)) : bool :=
  match h with
  | [] => true
  | (_, e) :: h' =>
      is_user_create e && forallb (λ p, acceptable (ev_document_id e) p.2) h'
  end.

Lemma apply_some_ok s e seq :
  is_ok (apply (Some s) e seq) = acceptable (ds_document_id s) e.
Proof.
  unfold apply, acceptable. simpl.
  repeat case_bool_decide; try congruence; simpl; [done |].
  destruct (ev_payload e), (ev_actor e); done.
Qed.

Lemma apply_none_ok e seq : is_ok (apply None e seq) = is_user_create e.
Proof.
  unfold apply, is_user_create. simpl. by destruct (ev_payload e), (ev_actor e).
Qed.

Lemma fold_from_some_ok s h :
  is_ok (fold_from (Some s) h) = forallb (λ p, acceptable (ds_document_id s) p.2) h.
Proof.
  revert s. induction h as [|[seq e] h IH]; intros s; [done |].
  cbn [fold_from forallb snd]. rewrite <- (apply_some_ok s e seq).
  destruct (apply (Some s) e seq) as [s'|] eqn:Ha; simpl; [| done].
  assert (ds_document_id s' = ds_document_id s) as Hd.
  { pose proof (apply_some_ok s e seq) as Hok. rewrite Ha in Hok. simpl in Hok.
    symmetry in Hok. apply andb_true_iff in Hok as [Hok _]. destruct_bools.
    apply apply_bookkeeping in Ha as [-> _]. done. }
  by rewrite IH, Hd.
Qed.

Lemma fold_history_Some_valid h s :
  fold_history h = Ok (Some s) → valid_history h = true ∧ h ≠ [].
Proof.
  destruct h as [|[seq e] h]; [done |]. unfold fold_history. simpl.
  rewrite <- (apply_none_ok e seq).
  destruct (apply None e seq) as [s'|] eqn:Ha; simpl; [| done].
  intros H. split; [| done].
  apply apply_bookkeeping in Ha as [<- _].
  rewrite <- fold_from_some_ok. by rewrite H.
Qed.

(** The last blob introduced by a history. *)
Definition last_blob (h : list (Z * DocumentEvent)) : option string :=
  last (omap (λ p, blob_ref (ev_payload p.2)) h).

Lemma apply_current_blob s e seq s' :
  apply s e seq = Ok s' →
  ds_current_blob s' =
    match blob_ref (ev_payload e) with
    | Some b => Some b
    | None => s ≫= ds_current_blob
    end.
Proof.
  unfold apply. destruct s as [s|]; simpl.
  - case_bool_decide; [done |].
    destruct (ev_payload e); simpl; intros; case_matches; by simplify_eq/=.
  - destruct (ev_payload e); simpl; intros; case_matches; by simplify_eq/=.
Qed.

Lemma omap_snoc {A B} (f : A → option B) l x :
  omap f (l ++ [x]) = omap f l ++ match f x with Some y => [y] | None => [] end.
Proof. by rewrite omap_app. Qed.

(** Does a history end deleted: a delete with no create after it. *)
Fixpoint ends_deleted (d : bool) (h : list (Z * DocumentEvent)) : bool :=
  match h with
  | [] => d
  | (_, e) :: h' =>
      ends_deleted
        (match ev_payload e with
         | PDocumentCreated _ => false
         | PDocumentDeleted _ => true
         | _ => d
         end) h'
  end.

Lemma apply_state s e seq s' :
  apply s e seq = Ok s' →
  bool_decide (ds_state s' = Deleted) =
    match ev_payload e with
    | PDocumentCreated _ => false
    | PDocumentDeleted _ => true
    | _ => match s with Some s => bool_decide (ds_state s = Deleted) | None => false end
    end.
Proof.
  unfold apply. destruct s as [s|]; simpl.
  - case_bool_decide; [done |].
    destruct (ev_payload e); simpl; intros; case_matches; by simplify_eq/=.
  - destruct (ev_payload e); simpl; intros; case_matches; by simplify_eq/=.
Qed.

Lemma fold_history_rev_ind (P : list (Z * DocumentEvent) → option DocumentState → Prop) :
  P [] None →
  (∀ h s seq e s', fold_history h = Ok s → P h s → apply s e seq = Ok s' →
     P (h ++ [(seq, e)]) (Some s')) →
  ∀ h s, fold_history h = Ok s → P h s.
Proof.
  intros Hnil Hsnoc h. induction h as [|[seq e] h IH] using rev_ind; intros s Hf.
  - unfold fold_history in Hf. by simplify_eq/=.
  - unfold fold_history in Hf. rewrite fold_from_snoc in Hf.
    destruct (fold_from None h) as [s0|] eqn:Hs0; simpl in Hf; [| done].
    destruct (apply s0 e seq) as [s1|] eqn:Ha; simplify_eq/=.
    eapply Hsnoc; [done | by apply IH | done].
Qed.

Lemma fold_current_blob h s :
  fold_history h = Ok s → last_blob h = s ≫= ds_current_blob.
Proof.
  revert h s. apply fold_history_rev_ind; [done |].
  intros h s seq e s' _ IH Ha. simpl.
  rewrite (apply_current_blob _ _ _ _ Ha), <- IH.
  unfold last_blob. rewrite omap_snoc, last_app. by destruct (blob_ref _).
Qed.

Lemma fold_created_at h s :
  fold_history h = Ok s →
  ∀ first seq e, head (h ++ [(seq, e)]) = Some first →
    default (ev_ts e) (ds_created_at <$> s) = ev_ts first.2.
Proof.
  revert h s.
  apply (fold_history_rev_ind (λ h s, ∀ first seq e,
           head (h ++ [(seq, e)]) = Some first →
           default (ev_ts e) (ds_created_at <$> s) = ev_ts first.2)).
  - intros first seq e [= <-]. done.
  - intros h s seq e s' _ IH Ha first seq1 e1 Hh. simpl.
    apply apply_bookkeeping in Ha as (_ & _ & _ & _ & ->).
    apply (IH first seq e). destruct h; simpl in *; congruence.
Qed.

Lemma ends_deleted_snoc d h seq e :
  ends_deleted d (h ++ [(seq, e)]) =
    match ev_payload e with
    | PDocumentCreated _ => false
    | PDocumentDeleted _ => true
    | _ => ends_deleted d h
    end.
Proof. revert d. induction h as [|[seq' e'] h IH]; intros d; [done |]. apply IH. Qed.

Lemma fold_deleted h s :
  fold_history h = Ok s →
  match s with Some s => bool_decide (ds_state s = Deleted) | None => false end
  = ends_deleted false h.
Proof.
  revert h s. apply fold_history_rev_ind; [done |].
  intros h s seq e s' _ IH Ha. rewrite ends_deleted_snoc, <- IH.
  by apply apply_state in Ha.
Qed.

(** ** Properties *)

(** Fact: a history folds to a state exactly when it is empty or starts with a
    create by a user and every later event names the same document, a create
    again naming a user; nothing else is ever rejected. *)
Theorem fold_history_ok_iff h :
  is_ok (fold_history h) = valid_history h.
Proof.
  destruct h as [|[seq e] h]; [done |].
  unfold fold_history. simpl. rewrite <- (apply_none_ok e seq).
  destruct (apply None e seq) as [s'|] eqn:Ha; simpl; [| done].
  apply apply_bookkeeping in Ha as [<- _].
  apply fold_from_some_ok.
Qed.

(** Fact: the folded state of a document carries the version, sequence and time
    of its last event, the creation time of its first, the blob of the last
    event that introduced one, and is deleted exactly when a delete was not
    followed by a create. *)
Theorem fold_history_state h seq e first s :
  fold_history (h ++ [(seq, e)]) = Ok (Some s) →
  head (h ++ [(seq, e)]) = Some first →
  ds_document_id s = ev_document_id e ∧ ds_version s = ev_version e ∧
  ds_stream_seq s = seq ∧ ds_updated_at s = ev_ts e ∧
  ds_created_at s = ev_ts first.2 ∧
  ds_current_blob s = last_blob (h ++ [(seq, e)]) ∧
  ds_state s = (if ends_deleted false (h ++ [(seq, e)]) then Deleted else Active).
Proof.
  intros Hf Hfirst. pose proof Hf as Hf'.
  unfold fold_history in Hf. rewrite fold_from_snoc in Hf.
  destruct (fold_from None h) as [s0|] eqn:Hs0; simpl in Hf; [| done].
  destruct (apply s0 e seq) as [s1|] eqn:Ha; simplify_eq/=.
  pose proof (apply_bookkeeping _ _ _ _ Ha) as (Hid & Hv & Hseq & Hts & Hc).
  split_and!; [done.. | | |].
  - rewrite Hc. by apply (fold_created_at _ _ Hs0 _ _ _ Hfirst).
  - rewrite (apply_current_blob _ _ _ _ Ha), <- (fold_current_blob _ _ Hs0).
    unfold last_blob. rewrite omap_snoc, last_app. by destruct (blob_ref _).
  - apply fold_deleted in Hf'. rewrite <- Hf'. by destruct (ds_state s).
Qed.

(** The fields a metadata patch has no say over. *)
Definition unpatched (s : DocumentState) :=
  (ds_tenant_id s, ds_document_id s, ds_owner_user_id s, ds_version s, ds_stream_seq s,
   ds_state s, ds_index_state s, ds_index_version s, ds_current_blob s, ds_filename s,
   ds_content_type s, ds_byte_size s, ds_checksum s, ds_created_at s, ds_updated_at s).

(** Fact: a patch writes only the fields it carries: merging touches nothing
    outside the four patchable fields, an absent field keeps the folded
    value, merging a patch twice is merging it once, and an empty patch
    changes nothing. *)
Theorem merge_patch_partial s p :
  let s' := merge_patch s p in
  (ds_title s' = match mp_title p with Some t => Some t | None => ds_title s end) ∧
  (ds_tags s' = default (ds_tags s) (mp_tags p)) ∧
  (ds_description s' =
     match mp_description p with Some d => Some d | None => ds_description s end) ∧
  (ds_metadata s' = default (ds_metadata s) (mp_metadata p)) ∧
  touch (set_content s' (mkValidated "" "" "" 0 "" p None)) 0 0 0
    = merge_patch (touch (set_content s (mkValidated "" "" "" 0 "" p None)) 0 0 0) p ∧
  merge_patch s' p = s' ∧
  (patch_is_empty p = true → s' = s).
Proof.
  simpl. split_and!; [done | by destruct (mp_tags p) | done
                     | by destruct (mp_metadata p) | done | |].
  - destruct p as [[] [] [] []]; done.
  - unfold patch_is_empty. intros Hp. destruct_bools.
    destruct p; simplify_eq/=. by destruct s.
Qed.

(** Fact: a redelivered create folds to the state it already seeded, only the
    stream sequence moving. *)
Theorem create_refold_idempotent e seq seq' s :
  apply None e seq = Ok s →
  is_user_create e = true →
  apply (Some s) e seq' = Ok (touch s (ds_version s) seq' (ds_updated_at s)).
Proof.
  intros Ha Hc. unfold is_user_create in Hc. unfold apply in Ha |- *. simpl in *.
  destruct (ev_payload e) as [created| | | | | | | |] eqn:Hp; try done.
  destruct (ev_actor e) as [u|] eqn:Hu; [| done]. simplify_eq/=.
  case_bool_decide; done.
Qed.
End fold.

Arguments apply : simpl never.

(** ** Witnesses *)

Module FoldDemo.
Definition created : @DocumentEvent Demo.json :=
  mkEvent 1 "e1" "acme" "doc-1" (User "user-1") 1 100
    (PDocumentCreated (mkCreated "u1" "report.pdf" "application/pdf" 1024 "sha256:aa"
       default_patch)).
Definition replaced : @DocumentEvent Demo.json :=
  mkEvent 1 "e2" "acme" "doc-1" (User "user-2") 2 200
    (PDocumentBlobValidated (mkValidated "u2" "report.pdf" "application/pdf" 2048
       "sha256:bb" default_patch (Some 1%Z))).
Definition deleted : @DocumentEvent Demo.json :=
  mkEvent 1 "e3" "acme" "doc-1" (User "user-1") 3 300 (PDocumentDeleted "done").
End FoldDemo.

Lemma fold_history_state_witness :
  let h := [(1%Z, FoldDemo.created); (2%Z, FoldDemo.replaced)] in
  ∃ s, fold_history (h ++ [(7%Z, FoldDemo.deleted)]) = Ok (Some s) ∧
    ds_document_id s = "doc-1" ∧ ds_version s = 3%Z ∧ ds_stream_seq s = 7%Z ∧
    ds_updated_at s = 300%Z ∧ ds_created_at s = 100%Z ∧
    ds_current_blob s = Some "u2" ∧ ds_state s = Deleted.
Proof.
  intros h. eexists. split; [vm_compute; reflexivity |].
  apply (fold_history_state h 7 FoldDemo.deleted (1%Z, FoldDemo.created));
    vm_compute; reflexivity.
Defined.

Lemma create_refold_idempotent_witness :
  ∃ s, apply None FoldDemo.created 1 = Ok s ∧
    apply (Some s) FoldDemo.created 9 = Ok (touch s (ds_version s) 9 (ds_updated_at s)).
Proof.
  eexists. split; [reflexivity |].
  apply (create_refold_idempotent FoldDemo.created 1 9); reflexivity.
Defined.
