(* ===== verification/Geometry.v ===== *)
(** * Part geometry (crates/document-domain/src/geometry.rs)

    How a file is sliced into multipart parts. The theorems are the promises
    preflight makes to the client: no input can need more than [MAX_PARTS]
    parts, the parts cover the file exactly, and the configured part size is
    honoured until the part cap binds and never after. *)

From S2P Require Import Prelude Text.

Local Open Scope Z_scope.

Definition MAX_OBJECT_BYTES : Z := 5 * 1024 * 1024 * 1024 * 1024.
Definition MIN_PART_BYTES : Z := 5 * 1024 * 1024.
Definition MAX_PARTS : Z := 10000.
Definition MAX_PART_BYTES : Z := 5 * 1024 * 1024 * 1024.

Inductive GeometryError : Type :=
| GEmpty
| GInvalidPartSize (part_size : Z)
| GTooLarge (size : Z)
| GZeroPartSize
| GTooManyParts (size part_size parts : Z).

#[export] Instance GeometryError_eq_dec : EqDecision GeometryError.
Proof. solve_decision. Defined.

(** [Display for GeometryError] *)
Definition geometry_error_to_string (e : GeometryError) : string :=
  match e with
  | GEmpty => "file size must be greater than zero"
  | GInvalidPartSize part_size =>
      "configured part size " +:+ show_uint part_size +:+ " must be between "
      +:+ show_uint MIN_PART_BYTES +:+ " and " +:+ show_uint MAX_PART_BYTES +:+ " bytes"
  | GTooLarge size =>
      "file size " +:+ show_uint size +:+ " exceeds the "
      +:+ show_uint MAX_OBJECT_BYTES +:+ " byte object limit"
  | GZeroPartSize => "part size must be greater than zero"
  | GTooManyParts size part_size parts =>
      "file size " +:+ show_uint size +:+ " at part size " +:+ show_uint part_size
      +:+ " needs " +:+ show_uint parts +:+ " parts, over the "
      +:+ show_uint MAX_PARTS +:+ " limit"
  end.

(** [part_size_bytes] *)
Definition part_size_bytes (file_size target : Z) : result Z GeometryError :=
  ensure ((MIN_PART_BYTES <=? target) && (target <=? MAX_PART_BYTES))
    else (GInvalidPartSize target);
  ensure (negb (file_size =? 0)) else GEmpty;
  ensure (negb (MAX_OBJECT_BYTES <? file_size)) else (GTooLarge file_size);
  Ok (Z.max target (div_ceil file_size MAX_PARTS)).

(** [largest_size_honouring] *)
Definition largest_size_honouring (target : Z) : Z := saturating_mul u64_max target MAX_PARTS.

(** [u16::try_from(n).ok()] *)
Definition u16_try_from (n : Z) : option Z :=
  if (0 <=? n) && (n <=? u16_max) then Some n else None.

(** [part_count] *)
Definition part_count (file_size part_size : Z) : result Z GeometryError :=
  ensure (negb (file_size =? 0)) else GEmpty;
  ensure (negb (part_size =? 0)) else GZeroPartSize;
  let parts := div_ceil file_size part_size in
  ensure (negb (MAX_PARTS <? parts)) else (GTooManyParts file_size part_size parts);
  ok_or (u16_try_from parts) (GTooManyParts file_size part_size parts).

Ltac unfold_geometry :=
  unfold MAX_OBJECT_BYTES, MIN_PART_BYTES, MAX_PARTS, MAX_PART_BYTES in *.

Lemma part_size_bytes_inv size target p :
  part_size_bytes size target = Ok p →
  MIN_PART_BYTES ≤ target ≤ MAX_PART_BYTES ∧ size ≠ 0 ∧ size ≤ MAX_OBJECT_BYTES ∧
  p = Z.max target (div_ceil size MAX_PARTS).
Proof.
  unfold part_size_bytes. intros H. case_matches. destruct_bools. lia.
Qed.

Lemma part_size_bytes_ok size target :
  MIN_PART_BYTES ≤ target ≤ MAX_PART_BYTES → 0 < size ≤ MAX_OBJECT_BYTES →
  part_size_bytes size target = Ok (Z.max target (div_ceil size MAX_PARTS)).
Proof.
  intros [? ?] [? ?]. unfold part_size_bytes.
  rewrite (proj2 (Z.leb_le MIN_PART_BYTES _)), (proj2 (Z.leb_le target _)) by done.
  rewrite (proj2 (Z.eqb_neq size 0)), (proj2 (Z.ltb_ge _ size)) by lia. done.
Qed.

Lemma part_count_inv size p n :
  part_count size p = Ok n → size ≠ 0 ∧ p ≠ 0 ∧ n = div_ceil size p ∧ n ≤ MAX_PARTS.
Proof.
  unfold part_count, u16_try_from. intros H. case_matches. destruct_bools. lia.
Qed.

Lemma part_count_ok size p :
  0 < size → 0 < p → size ≤ MAX_PARTS * p → part_count size p = Ok (div_ceil size p).
Proof.
  intros ? ? Hle. unfold part_count, u16_try_from.
  pose proof (div_ceil_pos size p). apply (div_ceil_le size p MAX_PARTS) in Hle; [| done].
  rewrite (proj2 (Z.eqb_neq size 0)), (proj2 (Z.eqb_neq p 0)), (proj2 (Z.ltb_ge _ _)) by lia.
  cbn [negb]. rewrite (proj2 (Z.leb_le 0 _)), (proj2 (Z.leb_le _ u16_max)); [done | | lia].
  unfold_geometry. unfold_ints. lia.
Qed.

(** The part size a successful preflight computes always fits the count. *)
Lemma geometry_fits size target p :
  0 ≤ size → part_size_bytes size target = Ok p → 0 < size ∧ 0 < p ∧ size ≤ MAX_PARTS * p.
Proof.
  intros H0 H. apply part_size_bytes_inv in H as ([? ?] & ? & ? & ->).
  pose proof (div_ceil_bounds size MAX_PARTS ltac:(done)) as [Hup _].
  unfold_geometry. lia.
Qed.

(** C25: a part size the server computes yields between one and [MAX_PARTS]
    parts, lies within S3's limits for a part, and the parts cover the file with
    only the last one short: the client can never be made to slice differently. *)
Theorem geometry_sound size target p :
  in_u64 size →
  part_size_bytes size target = Ok p →
  ∃ n, part_count size p = Ok n ∧ 1 ≤ n ≤ MAX_PARTS ∧
       MIN_PART_BYTES ≤ p ≤ MAX_PART_BYTES ∧
       (n - 1) * p < size ≤ n * p.
Proof.
  intros Hsize H. pose proof (geometry_fits size target p ltac:(apply Hsize) H) as (? & ? & ?).
  exists (div_ceil size p). split; [by apply part_count_ok |].
  pose proof (div_ceil_pos size p). pose proof (div_ceil_bounds size p).
  assert (div_ceil size p ≤ MAX_PARTS) by (by apply div_ceil_le).
  apply part_size_bytes_inv in H as ([? ?] & ? & ? & Hp).
  assert (div_ceil size MAX_PARTS ≤ MAX_PART_BYTES)
    by (apply div_ceil_le; unfold_geometry; lia).
  lia.
Qed.

(** Fact: part count scales before part size. Up to [largest_size_honouring] the
    configured part size is used as it is; one byte past it the part grows and
    the count is pinned at exactly [MAX_PARTS]. *)
Theorem count_scales_before_size size target p :
  in_u64 size →
  part_size_bytes size target = Ok p →
  (size ≤ largest_size_honouring target → p = target) ∧
  (largest_size_honouring target < size → target < p ∧ part_count size p = Ok MAX_PARTS).
Proof.
  intros Hsize H. pose proof (geometry_fits size target p ltac:(apply Hsize) H) as (? & ? & ?).
  pose proof (part_count_ok size p ltac:(lia) ltac:(lia) ltac:(lia)) as Hc.
  apply part_size_bytes_inv in H as ([? ?] & ? & ? & Hp).
  assert (largest_size_honouring target = target * MAX_PARTS) as ->.
  { unfold largest_size_honouring. unfold_ints. unfold_geometry. lia. }
  split; intros Hcmp.
  - apply (div_ceil_le size MAX_PARTS target) in Hcmp; [lia | done].
  - assert (target < div_ceil size MAX_PARTS) as Hlt.
    { apply Z.lt_nge. intros Hle. apply div_ceil_le in Hle; [lia | done]. }
    split; [lia |]. rewrite Hc. f_equal.
    destruct (div_ceil_bounds size MAX_PARTS ltac:(done)) as [_ Hlow].
    apply Z.le_antisymm; [by apply div_ceil_le |].
    apply Z.lt_pred_le, Z.lt_nge. intros Hle. apply div_ceil_le in Hle; [| lia].
    unfold_geometry. lia.
Qed.

(** Fact: every refusal of [part_size_bytes] and the input it is for. *)
Theorem part_size_bytes_refusals size target :
  in_u64 size → in_u64 target →
  match part_size_bytes size target with
  | Ok p => p = Z.max target (div_ceil size MAX_PARTS) ∧ in_u64 p
  | Err (GInvalidPartSize t) => t = target ∧ (target < MIN_PART_BYTES ∨ MAX_PART_BYTES < target)
  | Err GEmpty => size = 0
  | Err (GTooLarge s) => s = size ∧ MAX_OBJECT_BYTES < size
  | Err GZeroPartSize | Err (GTooManyParts _ _ _) => False
  end.
Proof.
  intros Hs Ht. unfold part_size_bytes.
  destruct ((MIN_PART_BYTES <=? target) && (target <=? MAX_PART_BYTES)) eqn:Hr.
  2: { destruct_bools. split; [done |]. destruct Hr; destruct_bools; lia. }
  destruct_bools. destruct (Z.eqb_spec size 0); [done |]. simpl.
  destruct (Z.ltb_spec MAX_OBJECT_BYTES size); simpl; [done |].
  split; [done |]. pose proof (div_ceil_pos size MAX_PARTS).
  assert (div_ceil size MAX_PARTS ≤ u64_max)
    by (apply div_ceil_le; unfold_geometry; unfold_ints; lia).
  unfold_geometry. unfold_ints. lia.
Qed.

Lemma geometry_sound_witness :
  in_u64 20971521 ∧ part_size_bytes 20971521 20971520 = Ok 20971520 ∧
  ∃ n, part_count 20971521 20971520 = Ok n ∧ 1 ≤ n ≤ MAX_PARTS ∧
       MIN_PART_BYTES ≤ 20971520 ≤ MAX_PART_BYTES ∧
       (n - 1) * 20971520 < 20971521 ≤ n * 20971520.
Proof.
  split; [unfold_ints; lia |]. split; [reflexivity |].
  apply (geometry_sound 20971521 20971520); [unfold_ints; lia | reflexivity].
Defined.

Lemma count_scales_before_size_witness :
  (209715200001 ≤ largest_size_honouring 20971520 → 20971521 = 20971520) ∧
  (largest_size_honouring 20971520 < 209715200001 →
     20971520 < 20971521 ∧ part_count 209715200001 20971521 = Ok MAX_PARTS).
Proof.
  apply (count_scales_before_size 209715200001 20971520 20971521);
    [unfold_ints; lia | vm_compute; reflexivity].
Defined.

Lemma part_size_bytes_refusals_witness :
  match part_size_bytes 1024 1024 with
  | Ok p => p = Z.max 1024 (div_ceil 1024 MAX_PARTS) ∧ in_u64 p
  | Err (GInvalidPartSize t) => t = 1024 ∧ (1024 < MIN_PART_BYTES ∨ MAX_PART_BYTES < 1024)
  | Err GEmpty => 1024 = 0
  | Err (GTooLarge s) => s = 1024 ∧ MAX_OBJECT_BYTES < 1024
  | Err GZeroPartSize | Err (GTooManyParts _ _ _) => False
  end.
Proof. apply (part_size_bytes_refusals 1024 1024); unfold_ints; lia. Defined.
