(* ===== verification/Validation.v ===== *)
(** * Metadata validation (crates/document-domain/src/validation.rs)

    [validate_metadata_patch] is the one gate every write path calls. The
    theorems give it a declarative specification, and show what it does not
    bound: lengths and control characters are checked on the trimmed text, but
    the untrimmed text is what is stored. *)

From S2P Require Import Prelude Text Events.

Definition MAX_TITLE_CHARS : nat := 512.
Definition MAX_TAGS : nat := 64.
Definition MAX_TAG_CHARS : nat := 64.
Definition MAX_DESCRIPTION_CHARS : nat := N.to_nat 8192.
Definition MAX_METADATA_BYTES : nat := N.to_nat 32768.

Inductive ValidationError : Type :=
| VTitle | VTagCount | VTag | VDescription | VMetadataShape | VMetadataSize.

#[export] Instance ValidationError_eq_dec : EqDecision ValidationError.
Proof. solve_decision. Defined.

(** [Display for ValidationError] *)
Definition validation_error_to_string (e : ValidationError) : string :=
  match e with
  | VTitle => "title must be between 1 and 512 characters"
  | VTagCount => "at most 64 tags are allowed"
  | VTag => "each tag must be between 1 and 64 characters with no control characters"
  | VDescription => "description must be at most 8192 characters"
  | VMetadataShape => "metadata must be a JSON object"
  | VMetadataSize => "metadata must serialize to at most 32768 bytes"
  end.

Section validation.
Context {J : SerdeJson}.

Definition check_title (title : string) : result unit ValidationError :=
  let len := length (trim_chars (chars title)) in
  if (len =? 0)%nat || (MAX_TITLE_CHARS <? len)%nat then Err VTitle else Ok tt.

(** One iteration of the tag loop. *)
Definition check_tag (tag : string) : result unit ValidationError :=
  let trimmed := trim_chars (chars tag) in
  let len := length trimmed in
  if (len =? 0)%nat || (MAX_TAG_CHARS <? len)%nat then Err VTag
  else if existsb is_control trimmed then Err VTag
  else Ok tt.

Fixpoint check_tag_list (tags : list string) : result unit ValidationError :=
  match tags with
  | [] => Ok tt
  | tag :: tags' => let? _ := check_tag tag in check_tag_list tags'
  end.

Definition check_tags (tags : list string) : result unit ValidationError :=
  if (MAX_TAGS <? length tags)%nat then Err VTagCount else check_tag_list tags.

Definition check_description (description : string) : result unit ValidationError :=
  if (MAX_DESCRIPTION_CHARS <? length (chars description))%nat then Err VDescription else Ok tt.

Definition check_metadata (metadata : Value) : result unit ValidationError :=
  if negb (value_is_object metadata) then Err VMetadataShape
  else
    let? serialized := ok_or (value_to_vec metadata) VMetadataShape in
    if (MAX_METADATA_BYTES <? length serialized)%nat then Err VMetadataSize else Ok tt.

(** [if let Some(x) = &field { .. }] *)
Definition when_some {A} (o : option A) (f : A → result unit ValidationError)
  : result unit ValidationError :=
  match o with Some x => f x | None => Ok tt end.

(** [validate_metadata_patch] *)
Definition validate_metadata_patch (patch : MetadataPatch) : result unit ValidationError :=
  let? _ := when_some (mp_title patch) check_title in
  let? _ := when_some (mp_tags patch) check_tags in
  let? _ := when_some (mp_description patch) check_description in
  when_some (mp_metadata patch) check_metadata.

(** ** Specification *)

Definition valid_title (t : string) : Prop :=
  1 ≤ length (trim_chars (chars t)) ≤ MAX_TITLE_CHARS.
Definition valid_tag (t : string) : Prop :=
  1 ≤ length (trim_chars (chars t)) ≤ MAX_TAG_CHARS ∧
  Forall (λ c, is_control c = false) (trim_chars (chars t)).
Definition valid_metadata (m : Value) : Prop :=
  value_is_object m = true ∧
  ∃ b, value_to_vec m = Some b ∧ length b ≤ MAX_METADATA_BYTES.

Definition valid_patch (p : MetadataPatch) : Prop :=
  (∀ t, mp_title p = Some t → valid_title t) ∧
  (∀ ts, mp_tags p = Some ts → length ts ≤ MAX_TAGS ∧ Forall valid_tag ts) ∧
  (∀ d, mp_description p = Some d → length (chars d) ≤ MAX_DESCRIPTION_CHARS) ∧
  (∀ m, mp_metadata p = Some m → valid_metadata m).

Lemma check_title_ok t : check_title t = Ok tt ↔ valid_title t.
Proof.
  unfold check_title, valid_title. generalize (length (trim_chars (chars t))) as n.
  intros n. destruct (Nat.eqb_spec n 0), (Nat.ltb_spec MAX_TITLE_CHARS n); simpl;
    split; (done || lia).
Qed.

Lemma existsb_Forall {A} (f : A → bool) l :
  existsb f l = false ↔ Forall (λ x, f x = false) l.
Proof.
  induction l as [|x l IH]; simpl; [by split |].
  rewrite orb_false_iff, Forall_cons, IH. done.
Qed.

Lemma check_tag_ok t : check_tag t = Ok tt ↔ valid_tag t.
Proof.
  unfold check_tag, valid_tag. rewrite <- existsb_Forall.
  generalize (existsb is_control (trim_chars (chars t))) as b.
  generalize (length (trim_chars (chars t))) as n. intros n b.
  destruct (Nat.eqb_spec n 0), (Nat.ltb_spec MAX_TAG_CHARS n), b; simpl;
    split; try done; try (intros [? ?]; (done || lia)); lia.
Qed.

Lemma check_tag_list_ok ts : check_tag_list ts = Ok tt ↔ Forall valid_tag ts.
Proof.
  induction ts as [|t ts IH]; simpl; [by split |].
  rewrite Forall_cons, <- check_tag_ok, <- IH.
  destruct (check_tag t) as [[]|]; simpl; naive_solver.
Qed.

Lemma check_metadata_ok m : check_metadata m = Ok tt ↔ valid_metadata m.
Proof.
  unfold check_metadata, valid_metadata.
  destruct (value_is_object m), (value_to_vec m) as [b|]; simpl; try naive_solver.
  destruct (Nat.ltb_spec MAX_METADATA_BYTES (length b)); simpl; split; try naive_solver lia.
Qed.

Lemma when_some_ok {A} (o : option A) f :
  when_some o f = Ok tt ↔ ∀ x, o = Some x → f x = Ok tt.
Proof. destruct o; simpl; naive_solver. Qed.

Lemma validate_metadata_patch_spec p :
  validate_metadata_patch p = Ok tt ↔ valid_patch p.
Proof.
  unfold validate_metadata_patch, valid_patch.
  assert ((∀ t, mp_title p = Some t → valid_title t)
          ↔ when_some (mp_title p) check_title = Ok tt) as ->.
  { rewrite when_some_ok. by setoid_rewrite check_title_ok. }
  assert ((∀ ts, mp_tags p = Some ts → length ts ≤ MAX_TAGS ∧ Forall valid_tag ts)
          ↔ when_some (mp_tags p) check_tags = Ok tt) as ->.
  { rewrite when_some_ok. setoid_rewrite <- check_tag_list_ok. unfold check_tags.
    split; intros H ts Hts; specialize (H ts Hts);
      destruct (Nat.ltb_spec MAX_TAGS (length ts)); naive_solver lia. }
  assert ((∀ d, mp_description p = Some d → length (chars d) ≤ MAX_DESCRIPTION_CHARS)
          ↔ when_some (mp_description p) check_description = Ok tt) as ->.
  { rewrite when_some_ok. unfold check_description.
    split; intros H d Hd; specialize (H d Hd);
      destruct (Nat.ltb_spec MAX_DESCRIPTION_CHARS (length (chars d))); naive_solver lia. }
  assert ((∀ m, mp_metadata p = Some m → valid_metadata m)
          ↔ when_some (mp_metadata p) check_metadata = Ok tt) as ->.
  { rewrite when_some_ok. by setoid_rewrite check_metadata_ok. }
  destruct (when_some (mp_title p) check_title) as [[]|]; simpl; [| naive_solver].
  destruct (when_some (mp_tags p) check_tags) as [[]|]; simpl; [| naive_solver].
  destruct (when_some (mp_description p) check_description) as [[]|]; simpl; naive_solver.
Qed.

(** Fact: the gate accepts exactly the patches of the declarative
    specification: bounded trimmed title and tags without control characters
    inside, bounded description, and metadata that is an object serialising
    to at most [MAX_METADATA_BYTES]. *)
Theorem validate_metadata_patch_iff p :
  validate_metadata_patch p = Ok tt ↔ valid_patch p.
Proof. apply validate_metadata_patch_spec. Qed.

(** A text preceded by [n] spaces. *)
Fixpoint pad (n : nat) (s : string) : string :=
  match n with O => s | S n => String " " (pad n s) end.

Lemma chars_pad n s : trim_start (chars (pad n s)) = trim_start (chars s).
Proof. by induction n. Qed.

Lemma pad_length n s : String.length (pad n s) = n + String.length s.
Proof. induction n; simpl; congruence. Qed.

(** Fact: the length checks look at the trimmed text only. Padding a title with
    any number of spaces keeps it valid, and it is the padded title the patch
    carries, so a valid patch is not bounded in size. *)
Theorem title_size_unbounded n s :
  valid_title s →
  let p := mkPatch (Some (pad n s)) None None None in
  validate_metadata_patch p = Ok tt ∧
  n ≤ String.length (default "" (mp_title p)).
Proof.
  intros Hs p. split; [| subst p; simpl; rewrite pad_length; lia].
  unfold validate_metadata_patch, p. simpl.
  assert (check_title (pad n s) = Ok tt) as ->; [| done].
  apply check_title_ok. unfold valid_title, trim_chars in *. by rewrite chars_pad.
Qed.

(** Fact: a tag may carry control characters at its ends: the newline around
    this one is trimmed before the check and stored with the tag. *)
Theorem tag_control_characters_survive :
  let tag := String "010" "finance" in
  validate_metadata_patch (mkPatch None (Some [tag]) None None) = Ok tt ∧
  existsb is_control (chars tag) = true.
Proof. vm_compute. done. Qed.
End validation.

Lemma title_size_unbounded_witness :
  let p := @mkPatch Demo.json (Some (pad 1000 "a")) None None None in
  validate_metadata_patch p = Ok tt ∧ 1000 ≤ String.length (default "" (mp_title p)).
Proof.
  apply (@title_size_unbounded Demo.json 1000 "a").
  unfold valid_title, MAX_TITLE_CHARS. vm_compute. lia.
Defined.
