(* ===== verification/Keys.v ===== *)
(** * Names: object keys, event ids, subjects, upload keys and cursors

    crates/document-app/src/{keys,digest,principal,cursor}.rs, the key function
    of upload_state.rs, [event_subject] of
    crates/document-adapters/src/jetstream/mod.rs and its reader
    [document_key_from_subject] in postgres/projection.rs.

    The theorems say when two names can coincide: the multi-tenant isolation of
    the system is the injectivity of these functions on what a [Principal] may
    contain. *)

From S2P Require Import Prelude Text Events.

(** [DateTime::from_timestamp_micros] of chrono: an instant for every count of
    microseconds its calendar represents. *)
Class Chrono := {
  from_timestamp_micros : Z → option DateTime;
  from_timestamp_micros_exact :
    ∀ m t, from_timestamp_micros m = Some t → t = (m * 1000)%Z;
}.

(** [DateTime::timestamp_micros] *)
Definition timestamp_micros (t : DateTime) : Z := (t / 1000)%Z.

(** ** keys.rs, digest.rs *)

(** [object_key] *)
Definition object_key (tenant_id upload_id : string) : string :=
  "tenants/" +:+ tenant_id +:+ "/blobs/" +:+ upload_id +:+ "/original".

(** [upload_completed_command_id] *)
Definition upload_completed_command_id (tenant_id upload_id : string) : string :=
  "upload-completed:" +:+ tenant_id +:+ ":" +:+ upload_id.

(** What [event_id] feeds to the hasher. *)
Definition event_id_preimage (tenant_id upload_id kind : string) : bytes :=
  bytes_of_string (tenant_id +:+ "|" +:+ upload_id +:+ "|" +:+ kind).

Section digests.
Context {X : Hex} {S : Sha2}.

(** [event_id] *)
Definition event_id (tenant_id upload_id kind : string) : string :=
  hex_encode (take 16 (sha256 (event_id_preimage tenant_id upload_id kind))).

(** [created_event_id], [blob_validated_event_id] *)
Definition created_event_id (tenant_id upload_id : string) : string :=
  event_id tenant_id upload_id "created".
Definition blob_validated_event_id (tenant_id upload_id : string) : string :=
  event_id tenant_id upload_id "blob_validated".

(** [sha256_hex] *)
Definition sha256_hex (b : bytes) : string := hex_encode (sha256 b).
End digests.

(** [checksum] *)
Definition checksum (sha256_hex : string) : string := "sha256:" +:+ sha256_hex.

(** ** principal.rs *)

Inductive PrincipalError : Type := PETenant | PEUser.

Record Principal : Type := mkPrincipal {
  pr_tenant_id : string;
  pr_user_id : string;
}.

Definition MAX_PRINCIPAL_CHARS : nat := 128.

Definition segment_char (c : Z) : bool :=
  (is_ascii_alphanumeric c || (c =? 45) || (c =? 95))%Z.

(** [is_safe_segment] *)
Definition is_safe_segment (value : string) : bool :=
  negb (is_empty value) && (length (chars value) <=? MAX_PRINCIPAL_CHARS)%nat
  && forallb segment_char (chars value).

(** [Principal::new] *)
Definition principal_new (tenant_id user_id : string) : result Principal PrincipalError :=
  ensure (is_safe_segment tenant_id) else PETenant;
  ensure (is_safe_segment user_id) else PEUser;
  Ok (mkPrincipal tenant_id user_id).

(** ** upload_state.rs, jetstream/mod.rs, postgres/projection.rs *)

(** [UploadState::key] *)
Definition upload_key (tenant_id user_id upload_id : string) : string :=
  tenant_id +:+ "/" +:+ user_id +:+ "/" +:+ upload_id.

Definition EVENT_PARTITIONS : Z := 16.

(** [{partition:02}] *)
Definition show_02 (n : Z) : string :=
  if (n <? 10)%Z then "0" +:+ show_uint n else show_uint n.

(** [event_subject] *)
Definition event_subject `{Crc32} (tenant_id document_id : string) : string :=
  let partition := (crc32 (bytes_of_string document_id) mod EVENT_PARTITIONS)%Z in
  "documents." +:+ tenant_id +:+ "." +:+ show_02 partition +:+ "." +:+ document_id.

(** [document_key_from_subject] *)
Definition document_key_from_subject (subject : string) : option (string * string) :=
  match split "." subject with
  | [root; tenant; _; document_id] =>
      if bool_decide (root = "documents") then Some (tenant, document_id) else None
  | _ => None
  end.

(** ** cursor.rs *)

Record DocumentCursor : Type := mkCursor {
  cu_updated_at : DateTime;
  cu_document_id : string;
}.

#[export] Instance DocumentCursor_eq_dec : EqDecision DocumentCursor.
Proof. solve_decision. Defined.

Section cursor.
Context {X : Hex} {C : Chrono}.

(** [DocumentCursor::encode] *)
Definition cursor_encode (c : DocumentCursor) : string :=
  hex_encode (bytes_of_string
    (show_int (timestamp_micros (cu_updated_at c)) +:+ ":" +:+ cu_document_id c)).

(** [DocumentCursor::decode] *)
Definition cursor_decode (value : string) : option DocumentCursor :=
  b ← hex_decode value;
  text ← from_utf8 b;
  '(micros, document_id) ← split_once ":" text;
  if is_empty document_id then None
  else
    m ← parse_i64 micros;
    updated_at ← from_timestamp_micros m;
    Some (mkCursor updated_at document_id).
End cursor.

(** ** Lemmas *)

(** The bytes a safe segment is made of. *)
Definition segment_byte (a : ascii) : bool := segment_char (byte_of_ascii a).

Lemma collect_all_chars f cs :
  Forall (λ c, 0 ≤ c < 128 ∧ f (ascii_of_byte c) = true)%Z cs →
  all_chars f (collect cs) = true.
Proof.
  induction 1 as [|c cs [Hc Hf] _ IH]; [done |]. cbn [collect foldr].
  unfold utf8_char. rewrite (proj2 (Z.ltb_lt c 128)) by lia. cbn [all_chars].
  by rewrite Hf.
Qed.

Lemma segment_char_range c : segment_char c = true → (0 ≤ c < 128)%Z.
Proof.
  unfold segment_char, is_ascii_alphanumeric. intros H.
  repeat (destruct_bools; try match goal with H : _ ∨ _ |- _ => destruct H end); idtac; lia.
Qed.

Lemma safe_segment_bytes s :
  valid_utf8 s = true → is_safe_segment s = true → all_chars segment_byte s = true.
Proof.
  intros [_ Hs]%andb_true_iff Hsafe. apply bool_decide_eq_true in Hs. rewrite <- Hs.
  unfold is_safe_segment in Hsafe. destruct_bools.
  apply collect_all_chars, Forall_forall. intros c Hc.
  match goal with H : forallb _ _ = true |- _ => rewrite forallb_forall in H;
    specialize (H c ltac:(by rewrite <- list_elem_of_In)) end.
  assert (0 ≤ c < 128)%Z by (by apply segment_char_range).
  split; [done |]. unfold segment_byte. by rewrite byte_of_ascii_of_byte by lia.
Qed.

(** A principal's segments, as the rest of the system receives them. *)
Definition segment (s : string) : Prop := valid_utf8 s = true ∧ is_safe_segment s = true.

Lemma segment_has_char c s : segment s → segment_byte c = false → has_char c s = false.
Proof.
  intros [??] Hc. eapply all_chars_has_char; [by apply safe_segment_bytes | done].
Qed.

Lemma app_inj_l s t u : s +:+ t = s +:+ u → t = u.
Proof.
  induction s as [|a s IH]; [done |]. rewrite !string_app_cons.
  intros [= H]. by apply IH.
Qed.

Lemma string_length_app s t : String.length (s +:+ t) = String.length s + String.length t.
Proof. induction s as [|a s IH]; [done |]. rewrite string_app_cons. simpl. by rewrite IH. Qed.

Lemma app_inj_r s t u : s +:+ u = t +:+ u → s = t.
Proof.
  revert t. induction s as [|a s IH]; intros [|b t]; [done | | |].
  - intros H. apply (f_equal String.length) in H. rewrite !string_length_app in H.
    simpl in H. lia.
  - intros H. apply (f_equal String.length) in H. rewrite !string_length_app in H.
    simpl in H. lia.
  - rewrite !string_app_cons. intros [= -> H]. f_equal. by apply IH.
Qed.

Lemma hex_encode_inj `{Hex} a b : hex_encode a = hex_encode b → a = b.
Proof.
  intros Heq. apply (f_equal hex_decode) in Heq. rewrite !hex_decode_encode in Heq. congruence.
Qed.

Lemma bytes_of_string_inj s t : bytes_of_string s = bytes_of_string t → s = t.
Proof.
  intros H. rewrite <- (string_of_bytes_of_string s), <- (string_of_bytes_of_string t).
  by rewrite H.
Qed.

Lemma split_once_inv c s l r :
  split_once c s = Some (l, r) → s = l +:+ String c r ∧ has_char c l = false.
Proof.
  revert l r. induction s as [|a s IH]; intros l r; [done |]. cbn.
  destruct (Ascii.eqb a c) eqn:Ha.
  - apply Ascii.eqb_eq in Ha as ->. intros [= <- <-]. done.
  - destruct (split_once c s) as [[l' r']|] eqn:Hs; [| done]. intros [= <- <-].
    destruct (IH _ _ eq_refl) as [-> Hl]. split; [done |]. cbn. by rewrite Ha.
Qed.

Lemma show_02_digits n : all_chars is_digit (show_02 n) = true.
Proof.
  unfold show_02. case_match; [| apply show_uint_digits].
  rewrite string_app_cons. cbn [all_chars]. apply andb_true_iff. split; [done |].
  change (EmptyString +:+ show_uint n) with (show_uint n). apply show_uint_digits.
Qed.

Lemma show_int_ascii n : all_chars (λ a, is_digit a || Ascii.eqb a "-") (show_int n) = true.
Proof.
  assert (∀ m, all_chars (λ a, is_digit a || Ascii.eqb a "-") (show_uint m) = true) as Hu.
  { intros m. generalize (show_uint_digits m). induction (show_uint m) as [|a s IH]; [done |].
    cbn [all_chars]. intros [-> Hs]%andb_true_iff. by rewrite IH. }
  unfold show_int. case_match; [| done]. cbn [all_chars]. by rewrite Hu.
Qed.

(** ** Properties *)

(** Fact: two uploads of the system share an object key only if they are the same
    upload of the same tenant, whatever the upload ids contain after the
    tenant: no tenant can name another tenant's blob. *)
Theorem object_key_injective t1 u1 t2 u2 :
  segment t1 → segment t2 →
  object_key t1 u1 = object_key t2 u2 → t1 = t2 ∧ u1 = u2.
Proof.
  intros H1 H2 Heq. unfold object_key in Heq. apply app_inj_l in Heq.
  expose_sep "/"%char in Heq.
  apply app_sep_inj in Heq as [-> Heq]; [| by apply segment_has_char..].
  injection Heq as Heq. rewrite !string_app_nil in Heq. by apply app_inj_r in Heq.
Qed.

(** Fact: the upload record of one user is out of reach of every other: whatever
    string a caller presents as an upload id, the key it derives is another
    principal's key only when it is the same principal and the same id. *)
Theorem upload_key_isolates t1 u1 t2 u2 p1 p2 i1 i2 :
  valid_utf8 t1 = true → valid_utf8 u1 = true → valid_utf8 t2 = true → valid_utf8 u2 = true →
  principal_new t1 u1 = Ok p1 → principal_new t2 u2 = Ok p2 →
  upload_key t1 u1 i1 = upload_key t2 u2 i2 → p1 = p2 ∧ i1 = i2.
Proof.
  intros Ht1 Hu1 Ht2 Hu2 Hp1 Hp2 Heq. unfold principal_new in *.
  destruct (is_safe_segment t1) eqn:?, (is_safe_segment u1) eqn:?; try done.
  destruct (is_safe_segment t2) eqn:?, (is_safe_segment u2) eqn:?; try done.
  simplify_eq. unfold upload_key in Heq. expose_sep "/"%char in Heq.
  apply app_sep_inj in Heq as [-> Heq]; [| by apply segment_has_char..].
  expose_sep "/"%char in Heq.
  apply app_sep_inj in Heq as [-> Heq]; [done | by apply segment_has_char..].
Qed.

(** Fact: event ids name uploads. Two event ids coincide only for the same
    tenant, the same upload and the same kind of event, unless the two
    preimages are themselves a collision of the truncated SHA-256. *)
Theorem event_id_names_upload `{Hex, Sha2} t1 u1 k1 t2 u2 k2 :
  segment t1 → segment t2 → has_char "|" u1 = false → has_char "|" u2 = false →
  event_id t1 u1 k1 = event_id t2 u2 k2 →
  (t1 = t2 ∧ u1 = u2 ∧ k1 = k2) ∨
  (event_id_preimage t1 u1 k1 ≠ event_id_preimage t2 u2 k2 ∧
   take 16 (sha256 (event_id_preimage t1 u1 k1)) =
   take 16 (sha256 (event_id_preimage t2 u2 k2))).
Proof.
  intros Ht1 Ht2 Hu1 Hu2 Heq. apply hex_encode_inj in Heq.
  destruct (decide (t1 +:+ "|" +:+ u1 +:+ "|" +:+ k1 = t2 +:+ "|" +:+ u2 +:+ "|" +:+ k2))
    as [Hp | Hp]; [left | right; split; [| done]; by intros ?%bytes_of_string_inj].
  expose_sep "|"%char in Hp.
  apply app_sep_inj in Hp as [-> Hp]; [| by apply segment_has_char..].
  expose_sep "|"%char in Hp.
  by apply app_sep_inj in Hp as [-> ->].
Qed.

(** Fact: the projection reads back from a subject exactly the tenant and document
    the event store published under, for every document id a subject token can
    be. *)
Theorem event_subject_roundtrip `{Crc32} tenant document_id :
  segment tenant → has_char "." document_id = false →
  document_key_from_subject (event_subject tenant document_id) = Some (tenant, document_id).
Proof.
  intros Ht Hd. unfold document_key_from_subject, event_subject.
  change "documents." with ("documents" +:+ "."). rewrite string_app_assoc.
  expose_sep "."%char.
  rewrite (split_app "." "documents") by done.
  rewrite split_app by (by apply segment_has_char).
  rewrite split_app.
  - rewrite split_none by done. done.
  - eapply all_chars_has_char; [apply show_02_digits | done].
Qed.

(** C27: decoding an emitted cursor gives back the document id, colons included,
    and the instant cut to the microsecond [timestamptz] keeps; nothing but the
    sub-microsecond part is lost. *)
Theorem cursor_roundtrip `{Hex, Chrono} c t :
  (i64_min ≤ timestamp_micros (cu_updated_at c) ≤ i64_max)%Z →
  from_timestamp_micros (timestamp_micros (cu_updated_at c)) = Some t →
  valid_utf8 (cu_document_id c) = true →
  is_empty (cu_document_id c) = false →
  cursor_decode (cursor_encode c) = Some (mkCursor t (cu_document_id c)) ∧
  (cu_updated_at c - 1000 < t ≤ cu_updated_at c)%Z.
Proof.
  intros Hr Ht Hu He. split.
  - unfold cursor_decode, cursor_encode. rewrite hex_decode_encode. simpl.
    rewrite from_utf8_bytes; simpl.
    + expose_sep ":"%char. rewrite split_once_app by apply show_int_no_colon. simpl.
      rewrite He, parse_i64_show by done. simpl.
      by rewrite Ht.
    + eapply valid_utf8_app; [apply show_int_ascii | |].
      * intros a [Ha | Ha]%orb_true_iff.
        -- unfold is_digit in Ha. destruct_bools. lia.
        -- apply Ascii.eqb_eq in Ha as ->. done.
      * expose_sep ":"%char. by apply valid_utf8_cons.
  - apply from_timestamp_micros_exact in Ht as ->. unfold timestamp_micros.
    pose proof (Z.div_mod (cu_updated_at c) 1000).
    pose proof (Z.mod_pos_bound (cu_updated_at c) 1000). lia.
Qed.

(** Fact: a cursor that decodes is one: hexadecimal, UTF-8, a decimal timestamp,
    a colon and a non-empty id. Everything else is refused rather than read as
    the beginning of the listing. *)
Theorem cursor_decode_inv `{Hex, Chrono} value c :
  cursor_decode value = Some c →
  ∃ b micros m, hex_decode value = Some b ∧
    valid_utf8 (string_of_bytes b) = true ∧
    string_of_bytes b = micros +:+ ":" +:+ cu_document_id c ∧
    has_char ":" micros = false ∧
    parse_i64 micros = Some m ∧ cu_updated_at c = (m * 1000)%Z ∧
    cu_document_id c ≠ "".
Proof.
  unfold cursor_decode. intros Hd.
  apply bind_Some in Hd as (b & Hb & Hd). apply bind_Some in Hd as (text & Htext & Hd).
  apply bind_Some in Hd as ([micros id] & Hs & Hd). simpl in Hd.
  destruct (is_empty id) eqn:He; [done |].
  apply bind_Some in Hd as (m & Hm & Hd). apply bind_Some in Hd as (t & Ht & Hd).
  simplify_eq/=. apply from_timestamp_micros_exact in Ht as ->.
  unfold from_utf8 in Htext. case_match; simplify_eq/=.
  exists b, micros, m. split_and!; try done.
  - by apply split_once_inv.
  - by eapply split_once_inv.
  - by intros ->.
Qed.

(** ** Witnesses *)

Module ChronoDemo.
(** The calendar of chrono: years -262143 to 262142. *)
#[export] Instance chrono : Chrono := {|
  from_timestamp_micros m :=
    if ((-8334601228800000000 <=? m) && (m <=? 8210266876799999999))%Z
    then Some (m * 1000)%Z else None;
  from_timestamp_micros_exact m t := ltac:(
    cbv beta; case_match; [intros [= <-]; reflexivity | discriminate]);
|}.
End ChronoDemo.

Lemma object_key_injective_witness :
  segment "acme" ∧ object_key "acme" "01JZ8QM2" = object_key "acme" "01JZ8QM2" ∧
  "acme" = "acme" ∧ "01JZ8QM2" = "01JZ8QM2".
Proof.
  assert (segment "acme") by (split; vm_compute; reflexivity).
  split; [done |]. split; [reflexivity |].
  apply (object_key_injective "acme" "01JZ8QM2" "acme" "01JZ8QM2"); done.
Defined.

Lemma upload_key_isolates_witness :
  mkPrincipal "acme" "user-1" = mkPrincipal "acme" "user-1" ∧ "a/../b" = "a/../b".
Proof.
  apply (upload_key_isolates "acme" "user-1" "acme" "user-1"); vm_compute; reflexivity.
Defined.

Lemma event_id_names_upload_witness :
  ("acme" = "acme" ∧ "u1" = "u1" ∧ "created" = "created") ∨
  (event_id_preimage "acme" "u1" "created" ≠ event_id_preimage "acme" "u1" "created" ∧
   take 16 (@sha256 Demo.sha2 (event_id_preimage "acme" "u1" "created")) =
   take 16 (@sha256 Demo.sha2 (event_id_preimage "acme" "u1" "created"))).
Proof.
  apply (@event_id_names_upload Demo.hex Demo.sha2 "acme" "u1" "created" "acme" "u1" "created");
    try (split; vm_compute; reflexivity); vm_compute; reflexivity.
Defined.

Lemma event_subject_roundtrip_witness :
  document_key_from_subject (@event_subject Demo.crc "acme" "doc-1") = Some ("acme", "doc-1").
Proof.
  apply (@event_subject_roundtrip Demo.crc "acme" "doc-1");
    [split; vm_compute; reflexivity | reflexivity].
Defined.

Lemma cursor_roundtrip_witness :
  let c := mkCursor 1755000000123456789 "weird:id:here" in
  @cursor_decode Demo.hex ChronoDemo.chrono (@cursor_encode Demo.hex c)
    = Some (mkCursor 1755000000123456000 "weird:id:here") ∧
  (1755000000123456789 - 1000 < 1755000000123456000 ≤ 1755000000123456789)%Z.
Proof.
  apply (@cursor_roundtrip Demo.hex ChronoDemo.chrono
           (mkCursor 1755000000123456789 "weird:id:here") 1755000000123456000);
    [vm_compute; split; discriminate | vm_compute; reflexivity..].
Defined.

Lemma cursor_decode_inv_witness :
  ∃ b micros m,
    @hex_decode Demo.hex "313a64" = Some b ∧
    valid_utf8 (string_of_bytes b) = true ∧
    string_of_bytes b = micros +:+ ":" +:+ "d" ∧
    has_char ":" micros = false ∧
    parse_i64 micros = Some m ∧ 1000%Z = (m * 1000)%Z ∧ "d" ≠ "".
Proof.
  apply (@cursor_decode_inv Demo.hex ChronoDemo.chrono "313a64" (mkCursor 1000 "d")).
  vm_compute. reflexivity.
Defined.
