(* ===== verification/Ports.v ===== *)
(** * Ports: the data the use cases exchange and the calls they make

    crates/document-app/src/{ports,errors,command,upload_state}.rs.  Each port
    method is a constructor of [PortE], indexed by what it answers; a use case
    is a program over [PortE], and an [Obs] is a call together with its answer. *)

From S2P Require Import Prelude Text Events Fold Geometry Validation Keys.

Local Open Scope Z_scope.

(** ** errors.rs *)

Inductive BlobErrorKind : Type :=
| NoSuchUpload | InvalidParts | NotFoundBlob | Transient | Permanent.

Record BlobError : Type := mkBlobError {
  be_kind : BlobErrorKind;
  be_message : string;
}.

Inductive EventStoreError : Type :=
| EConflict
| EUnavailable (message : string)
| EPayload (message : string).

Inductive ContextError : Type :=
| CAlreadyExists
| CConflict
| CExpired
| CUnavailable (message : string)
| CPayload (message : string).

Inductive ReadError : Type := RUnavailable (message : string) | RPayload (message : string).
Inductive QueueError : Type := QUnavailable (message : string) | QPayload (message : string).
Inductive ScanError : Type := SUnavailable (message : string) | SRead (message : string).
Inductive ValidateError : Type := VUnavailable (message : string).

Inductive AppendError : Type :=
| AlreadyCreated
| NoSuchDocument
| VersionMismatch (client current : Z)
| ConflictRetryExhausted
| AStore (error : EventStoreError).

Inductive DocumentError : Type :=
| DNotFound
| DForbidden
| DGone
| DInvalid (message : string)
| DTooLarge (message : string)
| DConflict (current_version : Z)
| DDeleted
| DInternal (message : string).

(** [Display] of each error *)
Definition blob_error_kind_debug (k : BlobErrorKind) : string :=
  match k with
  | NoSuchUpload => "NoSuchUpload"
  | InvalidParts => "InvalidParts"
  | NotFoundBlob => "NotFound"
  | Transient => "Transient"
  | Permanent => "Permanent"
  end.

Definition blob_error_to_string (e : BlobError) : string :=
  blob_error_kind_debug (be_kind e) +:+ ": " +:+ be_message e.

Definition event_store_error_to_string (e : EventStoreError) : string :=
  match e with
  | EConflict => "expected sequence conflict"
  | EUnavailable m => "event store unavailable: " +:+ m
  | EPayload m => "event store payload error: " +:+ m
  end.

Definition context_error_to_string (e : ContextError) : string :=
  match e with
  | CAlreadyExists => "upload state already exists"
  | CConflict => "upload state changed underneath this write"
  | CExpired => "upload state has expired"
  | CUnavailable m => "upload state store unavailable: " +:+ m
  | CPayload m => "upload state payload error: " +:+ m
  end.

Definition read_error_to_string (e : ReadError) : string :=
  match e with
  | RUnavailable m => "read model unavailable: " +:+ m
  | RPayload m => "read model payload error: " +:+ m
  end.

Definition queue_error_to_string (e : QueueError) : string :=
  match e with
  | QUnavailable m => "work queue unavailable: " +:+ m
  | QPayload m => "work queue payload error: " +:+ m
  end.

Definition scan_error_to_string (e : ScanError) : string :=
  match e with
  | SUnavailable m => "scanner unavailable: " +:+ m
  | SRead m => "scan read failed: " +:+ m
  end.

Definition validate_error_to_string (e : ValidateError) : string :=
  match e with VUnavailable m => "content validator unavailable: " +:+ m end.

Definition append_error_to_string (e : AppendError) : string :=
  match e with
  | AlreadyCreated => "document already created"
  | NoSuchDocument => "document does not exist"
  | VersionMismatch client current =>
      "client version " +:+ show_uint client +:+ " does not match current version "
      +:+ show_uint current
  | ConflictRetryExhausted => "gave up after repeated expected-sequence conflicts"
  | AStore e => event_store_error_to_string e
  end.

Definition document_error_to_string (e : DocumentError) : string :=
  match e with
  | DNotFound => "not found"
  | DForbidden => "forbidden"
  | DGone => "gone"
  | DInvalid m => "invalid request: " +:+ m
  | DTooLarge m => "payload too large: " +:+ m
  | DConflict v => "version conflict; current version is " +:+ show_uint v
  | DDeleted => "document is deleted"
  | DInternal m => "internal error: " +:+ m
  end.

(** [DocumentError::internal] *)
Definition internal (context error : string) : DocumentError :=
  DInternal (context +:+ ": " +:+ error).

(** The [From] implementations behind every [?] *)
Definition from_validation_error (e : ValidationError) : DocumentError :=
  DInvalid (validation_error_to_string e).
Definition from_geometry_error (e : GeometryError) : DocumentError :=
  DInvalid (geometry_error_to_string e).
Definition from_event_store_error (e : EventStoreError) : DocumentError :=
  internal "event store" (event_store_error_to_string e).
Definition from_read_error (e : ReadError) : DocumentError :=
  internal "read model" (read_error_to_string e).
Definition from_queue_error (e : QueueError) : DocumentError :=
  internal "work queue" (queue_error_to_string e).
Definition from_context_error (e : ContextError) : DocumentError :=
  match e with
  | CExpired => DGone
  | other => internal "upload state" (context_error_to_string other)
  end.

(** ** upload_state.rs *)

Inductive UploadMode : Type := Create | Replace.

(** [UploadMode::as_str] *)
Definition mode_as_str (m : UploadMode) : string :=
  match m with Create => "create" | Replace => "replace" end.

Inductive UploadStatus : Type :=
| Uploading
| Scanning
| Accepted (version : Z) (superseded : bool)
| Rejected (reason : string).

#[export] Instance UploadMode_eq_dec : EqDecision UploadMode.
Proof. solve_decision. Defined.
#[export] Instance UploadStatus_eq_dec : EqDecision UploadStatus.
Proof. solve_decision. Defined.

(** [UploadStatus::as_str] *)
Definition status_as_str (s : UploadStatus) : string :=
  match s with
  | Uploading => "uploading"
  | Scanning => "scanning"
  | Accepted _ _ => "accepted"
  | Rejected _ => "rejected"
  end.

(** [UploadStatus::is_terminal] *)
Definition is_terminal (s : UploadStatus) : bool :=
  match s with Accepted _ _ | Rejected _ => true | _ => false end.

Record UploadState : Type := mkUpload {
  us_tenant_id : string;
  us_owner_user_id : string;
  us_upload_id : string;
  us_document_id : string;
  us_mode : UploadMode;
  us_storage_key : string;
  us_multipart_upload_id : string;
  us_filename : string;
  us_content_type : string;
  us_declared_size : Z;
  us_part_size_bytes : Z;
  us_part_count : Z;
  us_status : UploadStatus;
  us_created_at : DateTime;
  us_updated_at : DateTime;
}.

#[export] Instance UploadState_eq_dec : EqDecision UploadState.
Proof. solve_decision. Defined.

(** [UploadState::own_key] *)
Definition own_key (s : UploadState) : string :=
  upload_key (us_tenant_id s) (us_owner_user_id s) (us_upload_id s).

(** [UploadState::with_status] *)
Definition with_status (s : UploadState) (status : UploadStatus) (now : DateTime) : UploadState :=
  mkUpload (us_tenant_id s) (us_owner_user_id s) (us_upload_id s) (us_document_id s)
    (us_mode s) (us_storage_key s) (us_multipart_upload_id s) (us_filename s)
    (us_content_type s) (us_declared_size s) (us_part_size_bytes s) (us_part_count s)
    status (us_created_at s) now.

Record StoredUpload : Type := mkStored {
  su_state : UploadState;
  su_revision : Z;
}.

(** [reject_reason] *)
Definition MULTIPART_LOST : string := "multipart_lost".
Definition INVALID_PARTS : string := "invalid_parts".
Definition SIZE_MISMATCH : string := "size_mismatch".
Definition MALWARE_DETECTED : string := "malware_detected".
Definition VERSION_CONFLICT : string := "version_conflict".
Definition CONTENT_REJECTED : string := "content_rejected".
Definition CORRUPT_HISTORY : string := "corrupt_history".
Definition PIPELINE_FAILED : string := "pipeline_failed".
Definition UPLOAD_EXPIRED : string := "upload_expired".

(** ** ports.rs, the data *)

Inductive Expect : Type := CreateOnly | Exactly (seq : Z).

Record Appended : Type := mkAppended {
  ap_stream_seq : Z;
  ap_version : Z;
  ap_duplicate : bool;
}.

Record PresignedPart : Type := mkPresigned {
  pp_part_number : Z;
  pp_url : string;
  pp_expires_at : DateTime;
}.

Record UploadedPart : Type := mkPart {
  up_part_number : Z;
  up_etag : string;
  up_size : Z;
}.

Record CompletedPart : Type := mkCompleted {
  cp_part_number : Z;
  cp_etag : string;
}.

Record BlobHead : Type := mkHead {
  bh_byte_size : Z;
  bh_content_type : option string;
  bh_last_modified : DateTime;
}.

(** A [BoxAsyncRead], as what its successive reads deliver until end of file. *)
Definition BoxAsyncRead : Type := list (result bytes string).

Inductive ScanVerdict : Type := Clean | Infected (signature : string).

Record ScanOutcome : Type := mkScan {
  sc_verdict : ScanVerdict;
  sc_sha256_hex : string;
  sc_byte_count : Z;
}.

Record DeclaredContent : Type := mkDeclared {
  de_filename : string;
  de_content_type : string;
  de_byte_size : Z;
}.

Inductive ContentVerdict : Type := ContentOk | ContentRejected (reason : string).

(** ** command.rs *)

Inductive ConflictPolicy : Type := Supersede | FailOnConflict.

#[export] Instance ConflictPolicy_eq_dec : EqDecision ConflictPolicy.
Proof. solve_decision. Defined.

Section ports.
Context {J : SerdeJson}.

Record UploadCompleted : Type := mkCommand {
  uc_v : Z;
  uc_command_id : string;
  uc_tenant_id : string;
  uc_owner_user_id : string;
  uc_upload_id : string;
  uc_document_id : string;
  uc_mode : UploadMode;
  uc_storage_key : string;
  uc_multipart_upload_id : string;
  uc_filename : string;
  uc_content_type : string;
  uc_declared_size : Z;
  uc_if_match : option Z;
  uc_on_conflict : ConflictPolicy;
  uc_patch : MetadataPatch;
  uc_ts : DateTime;
}.

(** ** ports.rs, the calls *)

Inductive PortE : Type → Type :=
(* EventStore *)
| EvAppend (event : DocumentEvent) (expect : Expect)
    : PortE (result Appended EventStoreError)
| EvLast (tenant document_id : string)
    : PortE (result (option (Z * Z)) EventStoreError)
| EvReadStream (tenant document_id : string)
    : PortE (result (list (Z * DocumentEvent)) EventStoreError)
(* BlobStore *)
| BlBegin (key content_type : string) : PortE (result string BlobError)
| BlPresign (key upload : string) (part : Z) (ttl : Z)
    : PortE (result PresignedPart BlobError)
| BlListParts (key upload : string)
    : PortE (result (option (list UploadedPart)) BlobError)
| BlComplete (key upload : string) (parts : list CompletedPart)
    : PortE (result unit BlobError)
| BlAbort (key upload : string) : PortE (result unit BlobError)
| BlHead (key : string) : PortE (result (option BlobHead) BlobError)
| BlOpenRead (key : string) : PortE (result BoxAsyncRead BlobError)
| BlReadPrefix (key : string) (len : Z) : PortE (result bytes BlobError)
| BlDelete (key : string) : PortE (result unit BlobError)
(* BlobScanner, ContentValidator *)
| ScanBlob (blob : BoxAsyncRead) : PortE (result ScanOutcome ScanError)
| ValidateContent (head : BlobHead) (prefix : bytes) (declared : DeclaredContent)
    : PortE (result ContentVerdict ValidateError)
(* UploadStateStore *)
| UpCreate (state : UploadState) : PortE (result unit ContextError)
| UpGet (tenant user upload_id : string)
    : PortE (result (option StoredUpload) ContextError)
| UpUpdate (state : UploadState) (revision : Z) : PortE (result Z ContextError)
| UpDelete (tenant user upload_id : string) : PortE (result unit ContextError)
(* DocumentReadModel *)
| RmGet (tenant document_id : string) : PortE (result (option DocumentState) ReadError)
| RmList (tenant : string) (limit : Z) (after : option DocumentCursor)
    : PortE (result (list DocumentState) ReadError)
(* WorkQueue, Clock, IdGen *)
| QPublish (cmd : UploadCompleted) : PortE (result unit QueueError)
| ClNow : PortE DateTime
| IdUlid : PortE string.

(** A call and its answer *)
Inductive Obs : Type := mkObs (X : Type) (e : PortE X) (x : X).
End ports.
