(* ===== verification/Memory.v ===== *)
(** * The in-memory ports (crates/document-app/src/testing.rs)

    The reference implementation of every port: the one the repository's own
    use-case tests run against, with JetStream's rule that deduplication is
    decided before the expected sequence.  One [World] holds the state of all
    the ports and [mem] is the handler that runs a use case in it.  Each
    method is a critical section of the code (one mutex), hence one atomic
    step here. *)

From S2P Require Import Prelude Text Events Fold Geometry Validation Keys Ports.

Local Open Scope Z_scope.

(** [fixed_time] *)
Definition fixed_time (offset_secs : Z) : DateTime := (1760000000 + offset_secs) * 1000000000.

Section memory.
Context {J : SerdeJson}.

(** ** Event store *)

Record EventStoreState : Type := mkEvents {
  es_streams : gmap (string * string) (list (Z * DocumentEvent));
  es_seen : gmap (string * string * string) Z;
  es_head : Z;
  es_conflicts_remaining : Z;
  es_always_conflict : bool;
  es_unavailable : bool;
}.

(** [EventStoreState::default()] *)
Definition es_default : EventStoreState := mkEvents ∅ ∅ 0 0 false false.

(** [state.streams.get(&key)], absent being empty for every reader *)
Definition es_stream (s : EventStoreState) (tenant document_id : string)
  : list (Z * DocumentEvent) := default [] (es_streams s !! (tenant, document_id)).

Definition last_seq (h : list (Z * DocumentEvent)) : Z := default 0 (fst <$> last h).

(** [EventStore::append]. [head += 1] cannot reach the width of [u64]. *)
Definition mem_append (s : EventStoreState) (event : DocumentEvent) (expect : Expect)
  : EventStoreState * result Appended EventStoreError :=
  if es_unavailable s then (s, Err (EUnavailable "injected")) else
  let stream_key := (ev_tenant_id event, ev_document_id event) in
  let dedupe_key := (ev_tenant_id event, ev_document_id event, ev_event_id event) in
  match es_seen s !! dedupe_key with
  | Some sequence =>
      let version :=
        default (ev_version event)
          (existing ← List.find (λ p, p.1 =? sequence)
             (es_stream s (ev_tenant_id event) (ev_document_id event));
           Some (ev_version existing.2)) in
      (s, Ok (mkAppended sequence version true))
  | None =>
      if es_always_conflict s then (s, Err EConflict) else
      if 0 <? es_conflicts_remaining s then
        (mkEvents (es_streams s) (es_seen s) (es_head s) (es_conflicts_remaining s - 1)
           (es_always_conflict s) (es_unavailable s), Err EConflict)
      else
      let last_seq := last_seq (es_stream s (ev_tenant_id event) (ev_document_id event)) in
      let expected := match expect with CreateOnly => 0 | Exactly seq => seq end in
      if negb (last_seq =? expected) then (s, Err EConflict) else
      let sequence := es_head s + 1 in
      (mkEvents
         (<[stream_key := es_stream s (ev_tenant_id event) (ev_document_id event)
              ++ [(sequence, event)]]> (es_streams s))
         (<[dedupe_key := sequence]> (es_seen s))
         sequence (es_conflicts_remaining s) (es_always_conflict s) (es_unavailable s),
       Ok (mkAppended sequence (ev_version event) false))
  end.

(** [EventStore::last] *)
Definition mem_last (s : EventStoreState) (tenant document_id : string)
  : result (option (Z * Z)) EventStoreError :=
  if es_unavailable s then Err (EUnavailable "injected")
  else Ok ((λ p, (ev_version p.2, p.1)) <$> last (es_stream s tenant document_id)).

(** [EventStore::read_stream] *)
Definition mem_read_stream (s : EventStoreState) (tenant document_id : string)
  : result (list (Z * DocumentEvent)) EventStoreError :=
  if es_unavailable s then Err (EUnavailable "injected")
  else Ok (es_stream s tenant document_id).

(** ** Blob store *)

Record BlobState : Type := mkBlobs {
  bl_multiparts : gmap (string * string) (list UploadedPart);
  bl_objects : gmap string (bytes * DateTime);
  bl_next_multipart : Z;
  bl_complete_error : option BlobError;
  bl_assembled : gmap string (list Z);
  bl_deleted : list string;
  bl_aborted : list string;
}.

Definition bl_default : BlobState := mkBlobs ∅ ∅ 0 None ∅ [] [].

(** [begin_multipart] *)
Definition mem_begin_multipart (s : BlobState) (key : string)
  : BlobState * result string BlobError :=
  let next := bl_next_multipart s + 1 in
  let upload := "mp-" +:+ show_uint next in
  (mkBlobs (<[(key, upload) := []]> (bl_multiparts s)) (bl_objects s) next
     (bl_complete_error s) (bl_assembled s) (bl_deleted s) (bl_aborted s), Ok upload).

(** [presign_part]; the ttl is a [Duration] in nanoseconds. *)
Definition mem_presign_part (key upload : string) (part ttl : Z)
  : result PresignedPart BlobError :=
  Ok (mkPresigned part
        ("https://blobs.test/" +:+ key +:+ "?uploadId=" +:+ upload +:+ "&partNumber="
           +:+ show_uint part)
        (fixed_time (ttl / 1000000000))).

Definition x_byte : Byte.byte := Byte.x78.

(** The loop of [complete_multipart] over the requested parts. *)
Fixpoint assemble_bytes (uploaded : list UploadedPart) (parts : list CompletedPart) (acc : bytes)
  : result bytes BlobError :=
  match parts with
  | [] => Ok acc
  | part :: parts' =>
      match List.find (λ u, up_part_number u =? cp_part_number part) uploaded with
      | None =>
          Err (mkBlobError InvalidParts
                 ("part " +:+ show_uint (cp_part_number part) +:+ " was never uploaded"))
      | Some found =>
          if bool_decide (up_etag found ≠ cp_etag part) then
            Err (mkBlobError InvalidParts
                   ("etag mismatch on part " +:+ show_uint (cp_part_number part)))
          else assemble_bytes uploaded parts'
                 (acc ++ replicate (Z.to_nat (up_size found)) x_byte)
      end
  end.

(** [complete_multipart] *)
Definition mem_complete_multipart (s : BlobState) (key upload : string)
    (parts : list CompletedPart) : BlobState * result unit BlobError :=
  match bl_complete_error s with
  | Some error => (s, Err error)
  | None =>
      match bl_multiparts s !! (key, upload) with
      | None => (s, Err (mkBlobError NoSuchUpload "no such multipart upload"))
      | Some uploaded =>
          let multiparts := delete (key, upload) (bl_multiparts s) in
          let assembled := <[key := cp_part_number <$> parts]> (bl_assembled s) in
          match assemble_bytes uploaded parts [] with
          | Err e =>
              (mkBlobs multiparts (bl_objects s) (bl_next_multipart s) None assembled
                 (bl_deleted s) (bl_aborted s), Err e)
          | Ok b =>
              (mkBlobs multiparts (<[key := (b, fixed_time 0)]> (bl_objects s))
                 (bl_next_multipart s) None assembled (bl_deleted s) (bl_aborted s), Ok tt)
          end
      end
  end.

(** [abort_multipart] *)
Definition mem_abort_multipart (s : BlobState) (key upload : string) : BlobState :=
  mkBlobs (delete (key, upload) (bl_multiparts s)) (bl_objects s) (bl_next_multipart s)
    (bl_complete_error s) (bl_assembled s) (bl_deleted s) (bl_aborted s ++ [key]).

(** [head] *)
Definition mem_head (s : BlobState) (key : string) : option BlobHead :=
  (λ o, mkHead (Z.of_nat (length o.1)) None o.2) <$> bl_objects s !! key.

Definition no_such_object : BlobError := mkBlobError NotFoundBlob "no such object".

(** [open_read] *)
Definition mem_open_read (s : BlobState) (key : string) : result BoxAsyncRead BlobError :=
  match bl_objects s !! key with
  | Some (b, _) => Ok [Ok b]
  | None => Err no_such_object
  end.

(** [read_prefix] *)
Definition mem_read_prefix (s : BlobState) (key : string) (len : Z) : result bytes BlobError :=
  match bl_objects s !! key with
  | Some (b, _) => Ok (take (Z.to_nat len) b)
  | None => Err no_such_object
  end.

(** [delete] *)
Definition mem_delete (s : BlobState) (key : string) : BlobState :=
  mkBlobs (bl_multiparts s) (delete key (bl_objects s)) (bl_next_multipart s)
    (bl_complete_error s) (bl_assembled s) (bl_deleted s ++ [key]) (bl_aborted s).

(** ** Upload state *)

Record UploadStateInner : Type := mkUploads {
  ui_entries : gmap string StoredUpload;
  ui_conflict_once : option UploadStatus;
}.

(** [UploadStateStore::create] *)
Definition mem_up_create (s : UploadStateInner) (state : UploadState)
  : UploadStateInner * result unit ContextError :=
  match ui_entries s !! own_key state with
  | Some _ => (s, Err CAlreadyExists)
  | None =>
      (mkUploads (<[own_key state := mkStored state 1]> (ui_entries s)) (ui_conflict_once s),
       Ok tt)
  end.

(** The status a competing writer leaves when a conflict is injected. *)
Definition force_status (winner : UploadStatus) (stored : StoredUpload) : StoredUpload :=
  mkStored (with_status (su_state stored) winner (us_updated_at (su_state stored)))
    (su_revision stored + 1).

(** [UploadStateStore::update] *)
Definition mem_up_update (s : UploadStateInner) (state : UploadState) (revision : Z)
  : UploadStateInner * result Z ContextError :=
  let key := own_key state in
  match ui_conflict_once s with
  | Some winner =>
      (mkUploads (alter (force_status winner) key (ui_entries s)) None, Err CConflict)
  | None =>
      match ui_entries s !! key with
      | None => (s, Err CExpired)
      | Some stored =>
          if bool_decide (su_revision stored ≠ revision) then (s, Err CConflict)
          else
            (mkUploads (<[key := mkStored state (su_revision stored + 1)]> (ui_entries s)) None,
             Ok (su_revision stored + 1))
      end
  end.

(** ** Read model *)

Record ReadModelState : Type := mkRead {
  rm_documents : gmap (string * string) DocumentState;
  rm_checkpoint : option (Z * DateTime);
}.

(** The listing key: [(updated_at, document_id)] compared as Rust compares
    the tuple, strings bytewise. *)
Definition row_key (d : DocumentState) : DateTime * string := (ds_updated_at d, ds_document_id d).
Definition key_lt (a b : DateTime * string) : bool :=
  (a.1 <? b.1) || ((a.1 =? b.1) && String.ltb a.2 b.2).
Definition cursor_key (c : DocumentCursor) : DateTime * string :=
  (cu_updated_at c, cu_document_id c).

(** [sort_by_key] on the two [Reverse] components: newest first. *)
Fixpoint insert_row (d : DocumentState) (l : list DocumentState) : list DocumentState :=
  match l with
  | [] => [d]
  | x :: l' => if key_lt (row_key d) (row_key x) then x :: insert_row d l' else d :: l
  end.
Definition sort_rows (l : list DocumentState) : list DocumentState := foldr insert_row [] l.

(** [DocumentReadModel::list] *)
Definition mem_list (s : ReadModelState) (tenant : string) (limit : Z)
    (after : option DocumentCursor) : list DocumentState :=
  let items :=
    List.filter (λ d, match after with
                 | None => true
                 | Some cursor => key_lt (row_key d) (cursor_key cursor)
                 end)
      (List.filter (λ d, bool_decide (ds_tenant_id d = tenant))
         (snd <$> map_to_list (rm_documents s))) in
  take (Z.to_nat limit) (sort_rows items).

(** ** Scanner *)

(** [read_to_end] *)
Fixpoint read_to_end (blob : BoxAsyncRead) : result bytes string :=
  match blob with
  | [] => Ok []
  | Err e :: _ => Err e
  | Ok b :: blob' => let? rest := read_to_end blob' in Ok (b ++ rest)
  end.

(** [StubScanner::scan] *)
Definition stub_scan `{Hex, Sha2} (force_infected : bool) (blob : BoxAsyncRead)
  : result ScanOutcome ScanError :=
  let? b := result_map_err SRead (read_to_end blob) in
  Ok (mkScan (if force_infected then Infected "Test.Forced" else Clean) (sha256_hex b)
        (Z.of_nat (length b))).

(** [{:04}] *)
Definition show_04 (n : Z) : string :=
  if n <? 10 then "000" +:+ show_uint n
  else if n <? 100 then "00" +:+ show_uint n
  else if n <? 1000 then "0" +:+ show_uint n
  else show_uint n.

(** [SeqIdGen::ulid] for the [n]-th id *)
Definition seq_id (n : Z) : string := "id-" +:+ show_04 n.

(** ** The world *)

Record World : Type := mkWorld {
  w_events : EventStoreState;
  w_blobs : BlobState;
  w_uploads : UploadStateInner;
  w_read : ReadModelState;
  w_queue : list UploadCompleted;
  w_force_infected : bool;
  w_verdict : ContentVerdict;
  w_clock : Z;
  w_ids : Z;
}.

Definition set_events (w : World) (s : EventStoreState) : World :=
  mkWorld s (w_blobs w) (w_uploads w) (w_read w) (w_queue w) (w_force_infected w)
    (w_verdict w) (w_clock w) (w_ids w).
Definition set_blobs (w : World) (s : BlobState) : World :=
  mkWorld (w_events w) s (w_uploads w) (w_read w) (w_queue w) (w_force_infected w)
    (w_verdict w) (w_clock w) (w_ids w).
Definition set_uploads (w : World) (s : UploadStateInner) : World :=
  mkWorld (w_events w) (w_blobs w) s (w_read w) (w_queue w) (w_force_infected w)
    (w_verdict w) (w_clock w) (w_ids w).
Definition set_queue (w : World) (q : list UploadCompleted) : World :=
  mkWorld (w_events w) (w_blobs w) (w_uploads w) (w_read w) q (w_force_infected w)
    (w_verdict w) (w_clock w) (w_ids w).
Definition set_ids (w : World) (n : Z) : World :=
  mkWorld (w_events w) (w_blobs w) (w_uploads w) (w_read w) (w_queue w) (w_force_infected w)
    (w_verdict w) (w_clock w) n.

(** [publish_upload_completed]: deduplicated on the command id. *)
Definition mem_publish (q : list UploadCompleted) (cmd : UploadCompleted) : list UploadCompleted :=
  if existsb (λ existing, bool_decide (uc_command_id existing = uc_command_id cmd)) q
  then q else q ++ [cmd].

Context {X : Hex} {S : Sha2}.

(** Every port, in one world. *)
Definition mem : handler PortE World := λ A e w,
  match e in PortE A return World * A with
  | EvAppend event expect =>
      let '(s, r) := mem_append (w_events w) event expect in (set_events w s, r)
  | EvLast t d => (w, mem_last (w_events w) t d)
  | EvReadStream t d => (w, mem_read_stream (w_events w) t d)
  | BlBegin key _ =>
      let '(s, r) := mem_begin_multipart (w_blobs w) key in (set_blobs w s, r)
  | BlPresign key upload part ttl => (w, mem_presign_part key upload part ttl)
  | BlListParts key upload => (w, Ok (bl_multiparts (w_blobs w) !! (key, upload)))
  | BlComplete key upload parts =>
      let '(s, r) := mem_complete_multipart (w_blobs w) key upload parts in (set_blobs w s, r)
  | BlAbort key upload => (set_blobs w (mem_abort_multipart (w_blobs w) key upload), Ok tt)
  | BlHead key => (w, Ok (mem_head (w_blobs w) key))
  | BlOpenRead key => (w, mem_open_read (w_blobs w) key)
  | BlReadPrefix key len => (w, mem_read_prefix (w_blobs w) key len)
  | BlDelete key => (set_blobs w (mem_delete (w_blobs w) key), Ok tt)
  | ScanBlob blob => (w, stub_scan (w_force_infected w) blob)
  | ValidateContent _ _ _ => (w, Ok (w_verdict w))
  | UpCreate state =>
      let '(s, r) := mem_up_create (w_uploads w) state in (set_uploads w s, r)
  | UpGet t u i => (w, Ok (ui_entries (w_uploads w) !! upload_key t u i))
  | UpUpdate state revision =>
      let '(s, r) := mem_up_update (w_uploads w) state revision in (set_uploads w s, r)
  | UpDelete t u i =>
      (set_uploads w (mkUploads (delete (upload_key t u i) (ui_entries (w_uploads w)))
                        (ui_conflict_once (w_uploads w))), Ok tt)
  | RmGet t d => (w, Ok (rm_documents (w_read w) !! (t, d)))
  | RmList t limit after => (w, Ok (mem_list (w_read w) t limit after))
  | QPublish cmd => (set_queue w (mem_publish (w_queue w) cmd), Ok tt)
  | ClNow => (w, fixed_time (w_clock w))
  | IdUlid => (set_ids w (w_ids w + 1), seq_id (w_ids w + 1))
  end.

(** The atomic steps of the in-memory system, as a relation for pools. *)
Definition mem_step (A : Type) (e : PortE A) (w w' : World) (x : A) : Prop :=
  mem A e w = (w', x).
End memory.

(** ** The event log: what every append preserves *)

Section event_log.
Context {J : SerdeJson}.

(** Sequences strictly increase along a stream, from above [lo]. *)
Fixpoint increasing (lo : Z) (h : list (Z * DocumentEvent)) : Prop :=
  match h with
  | [] => True
  | (q, _) :: h' => lo < q ∧ increasing q h'
  end.

Record es_inv (s : EventStoreState) : Prop := {
  inv_own t d q e :
    (q, e) ∈ es_stream s t d → ev_tenant_id e = t ∧ ev_document_id e = d;
  inv_increasing t d : increasing 0 (es_stream s t d);
  inv_head t d : last_seq (es_stream s t d) ≤ es_head s;
  inv_head_nonneg : 0 ≤ es_head s;
  inv_seen t d i q :
    es_seen s !! (t, d, i) = Some q ↔
    ∃ e, (q, e) ∈ es_stream s t d ∧ ev_event_id e = i;
}.

(** Every stream of [s] is a prefix of the same stream of [s']. *)
Definition es_extends (s s' : EventStoreState) : Prop :=
  ∀ t d, es_stream s t d `prefix_of` es_stream s' t d.

#[export] Instance es_extends_refl : Reflexive es_extends.
Proof. by intros s t d. Qed.
#[export] Instance es_extends_trans : Transitive es_extends.
Proof. intros s1 s2 s3 H1 H2 t d. by etrans; [apply H1 | apply H2]. Qed.

Lemma last_seq_snoc h q e : last_seq (h ++ [(q, e)]) = q.
Proof. unfold last_seq. by rewrite last_snoc. Qed.

Lemma last_seq_cons q (e : DocumentEvent) p h : last_seq ((q, e) :: p :: h) = last_seq (p :: h).
Proof. done. Qed.

Lemma increasing_last lo h : increasing lo h → h ≠ [] → lo < last_seq h.
Proof.
  revert lo. induction h as [|[q e] h IH]; [done |]. intros lo [Hq Hh] _.
  destruct h as [|[q' e'] h']; [done |].
  rewrite last_seq_cons.
  specialize (IH q Hh ltac:(done)). lia.
Qed.

Lemma increasing_snoc lo h q e :
  0 ≤ lo → increasing lo h → lo < q → last_seq h < q → increasing lo (h ++ [(q, e)]).
Proof.
  revert lo. induction h as [|[q' e'] h IH]; intros lo H0 Hh Hlo Hl; simpl; [done |].
  destruct Hh as [? Hh]. split; [done |].
  destruct h as [|p h]; [by simpl in * |].
  rewrite last_seq_cons in Hl.
  pose proof (increasing_last q' (p :: h) Hh ltac:(done)).
  apply IH; [lia | done | lia | done].
Qed.

Lemma increasing_bounds lo h q e :
  increasing lo h → (q, e) ∈ h → lo < q ≤ last_seq h.
Proof.
  revert lo. induction h as [|[q' e'] h IH]; intros lo Hh Hin; [by apply elem_of_nil in Hin |].
  destruct Hh as [Hlo Hh]. apply elem_of_cons in Hin as [[= <- <-] | Hin].
  - split; [done |]. destruct h as [|p h]; [done |].
    rewrite last_seq_cons.
    pose proof (increasing_last q (p :: h) Hh ltac:(done)). lia.
  - destruct h as [|p h]; [by apply elem_of_nil in Hin |].
    rewrite last_seq_cons.
    specialize (IH q' Hh Hin). lia.
Qed.

(** A sequence names one event of a stream. *)
Lemma increasing_functional lo h q e e' :
  increasing lo h → (q, e) ∈ h → (q, e') ∈ h → e = e'.
Proof.
  revert lo. induction h as [|[q' e1] h IH]; intros lo Hh H1 H2; [by apply elem_of_nil in H1 |].
  destruct Hh as [_ Hh].
  apply elem_of_cons in H1 as [H1 | H1]; apply elem_of_cons in H2 as [H2 | H2]; simplify_eq.
  - done.
  - pose proof (increasing_bounds _ h _ _ Hh H2). lia.
  - pose proof (increasing_bounds _ h _ _ Hh H1). lia.
  - by eapply IH.
Qed.

Lemma es_stream_insert s ss hd cr ac un (t d t' d' : string)
    (h : list (Z * DocumentEvent)) :
  es_stream (mkEvents (<[(t, d) := h]> (es_streams s)) ss hd cr ac un) t' d' =
  if decide ((t, d) = (t', d')) then h else es_stream s t' d'.
Proof.
  unfold es_stream. simpl. case_decide as Heq.
  - by rewrite Heq, lookup_insert_eq.
  - by rewrite lookup_insert_ne.
Qed.

Lemma last_in_stream (h : list (Z * DocumentEvent)) q e : last h = Some (q, e) → (q, e) ∈ h.
Proof. intros [h' ->]%last_Some. rewrite elem_of_app. right. by apply list_elem_of_singleton. Qed.

(** What an [append] may do, case by case. *)
Inductive append_outcome (s : EventStoreState) (event : DocumentEvent) (expect : Expect)
  : EventStoreState → result Appended EventStoreError → Prop :=
| ao_unavailable m :
    es_unavailable s = true → append_outcome s event expect s (Err (EUnavailable m))
| ao_duplicate q e :
    (q, e) ∈ es_stream s (ev_tenant_id event) (ev_document_id event) →
    ev_event_id e = ev_event_id event →
    append_outcome s event expect s (Ok (mkAppended q (ev_version e) true))
| ao_conflict n :
    append_outcome s event expect
      (mkEvents (es_streams s) (es_seen s) (es_head s) n (es_always_conflict s)
         (es_unavailable s)) (Err EConflict)
| ao_fresh s' :
    es_seen s !! (ev_tenant_id event, ev_document_id event, ev_event_id event) = None →
    last_seq (es_stream s (ev_tenant_id event) (ev_document_id event))
      = match expect with CreateOnly => 0 | Exactly q => q end →
    es_head s' = es_head s + 1 →
    es_seen s' = <[(ev_tenant_id event, ev_document_id event, ev_event_id event)
                   := es_head s + 1]> (es_seen s) →
    (∀ t d, es_stream s' t d =
       if decide ((ev_tenant_id event, ev_document_id event) = (t, d))
       then es_stream s t d ++ [(es_head s + 1, event)] else es_stream s t d) →
    append_outcome s event expect s'
      (Ok (mkAppended (es_head s + 1) (ev_version event) false)).

Lemma es_eta s :
  mkEvents (es_streams s) (es_seen s) (es_head s) (es_conflicts_remaining s)
    (es_always_conflict s) (es_unavailable s) = s.
Proof. by destruct s. Qed.

Lemma find_seq h q (e : DocumentEvent) :
  increasing 0 h → (q, e) ∈ h → List.find (λ p, p.1 =? q) h = Some (q, e).
Proof.
  intros Hinc Hin. destruct (List.find _ h) as [[q' e']|] eqn:Hf.
  - apply list_find_Some_in in Hf as [Hin' Hq]. simpl in Hq. destruct_bools. subst q'.
    by rewrite (increasing_functional _ _ _ _ _ Hinc Hin Hin').
  - apply find_none with (x := (q, e)) in Hf; [| by apply list_elem_of_In].
    simpl in Hf. by rewrite Z.eqb_refl in Hf.
Qed.

Lemma mem_append_outcome s event expect s' r :
  es_inv s → mem_append s event expect = (s', r) → append_outcome s event expect s' r.
Proof.
  intros Hinv. unfold mem_append.
  destruct (es_unavailable s) eqn:Hu; [intros [= <- <-]; by constructor |].
  destruct (es_seen s !! _) as [q|] eqn:Hseen.
  { intros [= <- <-]. apply (inv_seen _ Hinv) in Hseen as (e & Hin & Hid).
    rewrite (find_seq _ _ _ (inv_increasing _ Hinv _ _) Hin). simpl. by econstructor. }
  destruct (es_always_conflict s) eqn:Hac.
  { intros [= <- <-]. pose proof (ao_conflict s event expect (es_conflicts_remaining s)) as H.
    by rewrite es_eta in H. }
  destruct (0 <? es_conflicts_remaining s) eqn:Hcr.
  { intros [= <- <-].
    pose proof (ao_conflict s event expect (es_conflicts_remaining s - 1)) as H.
    by rewrite Hac, Hu in H. }
  destruct (last_seq _ =? _) eqn:Hl; simpl.
  2: { intros [= <- <-]. pose proof (ao_conflict s event expect (es_conflicts_remaining s)) as H.
       by rewrite es_eta in H. }
  intros [= <- <-]. apply Z.eqb_eq in Hl. constructor; [done.. |].
  intros t d. rewrite es_stream_insert. case_decide; by simplify_eq.
Qed.

Lemma append_extends s event expect s' r :
  append_outcome s event expect s' r → es_extends s s'.
Proof.
  intros H t d. destruct H as [| | |s' _ _ _ _ Hs]; try done.
  rewrite Hs. case_decide; [by apply prefix_app_r | done].
Qed.

Lemma append_inv s event expect s' r :
  es_inv s → append_outcome s event expect s' r → es_inv s'.
Proof.
  intros Hinv H. destruct H as [| |n|s' Hseen Hlast Hhead Hseen' Hs]; [done.. | |].
  - destruct Hinv as [Ho Hi Hh Hn Hse]. constructor; [apply Ho | apply Hi | apply Hh | done | apply Hse].
  - pose proof (inv_head_nonneg _ Hinv). constructor.
    + intros t d q e. rewrite Hs. case_decide as Heq; [| by apply inv_own].
      simplify_eq. rewrite elem_of_app, list_elem_of_singleton.
      intros [Hin | [= -> ->]]; [by eapply inv_own | done].
    + intros t d. rewrite Hs. case_decide; [| by apply inv_increasing].
      pose proof (inv_head _ Hinv t d).
      apply increasing_snoc; [done | by apply inv_increasing | lia | lia].
    + intros t d. rewrite Hs, Hhead. case_decide; [by rewrite last_seq_snoc |].
      pose proof (inv_head _ Hinv t d). lia.
    + lia.
    + intros t d i q. rewrite Hseen', Hs.
      destruct (decide ((ev_tenant_id event, ev_document_id event, ev_event_id event) = (t, d, i)))
        as [Heq | Hne].
      * simplify_eq. rewrite lookup_insert_eq, decide_True by done. split.
        -- intros [= <-]. exists event. rewrite elem_of_app, list_elem_of_singleton. auto.
        -- intros (e & Hin & Hid). rewrite elem_of_app, list_elem_of_singleton in Hin.
           destruct Hin as [Hin | [= -> ->]]; [| done].
           assert (es_seen s !! (ev_tenant_id event, ev_document_id event, ev_event_id event) = Some q)
             by (apply inv_seen; eauto). congruence.
      * rewrite lookup_insert_ne by done. rewrite inv_seen by done.
        case_decide as Heq; [| done]. simplify_eq. split; intros (e & Hin & Hid); exists e.
        -- rewrite elem_of_app. auto.
        -- rewrite elem_of_app, list_elem_of_singleton in Hin.
           destruct Hin as [Hin | [= -> ->]]; [done | congruence].
Qed.

Lemma es_default_inv : es_inv es_default.
Proof.
  assert (∀ t d, es_stream es_default t d = []) as Hs.
  { intros t d. unfold es_stream. simpl. by rewrite lookup_empty. }
  constructor; intros; rewrite ?Hs in *; simpl; [by apply elem_of_nil in H | done | done | done |].
  rewrite lookup_empty. split; [done |]. intros (e & Hin & _). by apply elem_of_nil in Hin.
Qed.

(** Fact: the event store is an append-only log: whatever is appended, with
    whatever expectation and under injected faults, every stream only grows at
    its end, sequences strictly increase along it, each event keeps its tenant
    and document, and an event id is recorded at one sequence only. *)
Theorem log_append_only s event expect :
  es_inv s →
  let '(s', r) := mem_append s event expect in
  es_inv s' ∧ es_extends s s' ∧
  (∀ a, r = Ok a → ap_duplicate a = false →
     es_stream s' (ev_tenant_id event) (ev_document_id event) =
       es_stream s (ev_tenant_id event) (ev_document_id event) ++ [(ap_stream_seq a, event)] ∧
     last_seq (es_stream s (ev_tenant_id event) (ev_document_id event)) =
       match expect with CreateOnly => 0 | Exactly q => q end).
Proof.
  intros Hinv. destruct (mem_append s event expect) as [s' r] eqn:Ha.
  apply mem_append_outcome in Ha; [| done]. split_and!.
  - by eapply append_inv.
  - by eapply append_extends.
  - intros a -> Hd. inversion Ha as [| | | s1 _ Hl _ _ Hs]; simplify_eq/=.
    split; [| done]. by rewrite Hs, decide_True.
Qed.

Lemma append_dedupes_id s event expect q e :
  es_inv s → es_unavailable s = false →
  (q, e) ∈ es_stream s (ev_tenant_id event) (ev_document_id event) →
  ev_event_id e = ev_event_id event →
  mem_append s event expect = (s, Ok (mkAppended q (ev_version e) true)).
Proof.
  intros Hinv Hu Hin Hid. unfold mem_append. rewrite Hu.
  assert (es_seen s !! (ev_tenant_id event, ev_document_id event, ev_event_id event) = Some q)
    as -> by (apply inv_seen; eauto).
  by rewrite (find_seq _ _ _ (inv_increasing _ Hinv _ _) Hin).
Qed.

(** Fact: a redelivered append is recognised before the expected sequence is
    looked at: once an event id is in the stream, appending any event with that
    id changes nothing and answers the version and sequence of the recorded
    event, for every expectation. *)
Theorem append_dedupes s event expect q e :
  es_inv s → es_unavailable s = false →
  (q, e) ∈ es_stream s (ev_tenant_id event) (ev_document_id event) →
  ev_event_id e = ev_event_id event →
  mem_append s event expect = (s, Ok (mkAppended q (ev_version e) true)).
Proof. apply append_dedupes_id. Qed.
End event_log.

(** *** Witnesses *)

#[local] Existing Instance Demo.json.

Lemma log_append_only_witness :
  let '(s', r) := mem_append es_default FoldDemo.created CreateOnly in
  es_inv s' ∧ es_extends es_default s' ∧
  (∀ a, r = Ok a → ap_duplicate a = false →
     es_stream s' "acme" "doc-1" =
       es_stream es_default "acme" "doc-1" ++ [(ap_stream_seq a, FoldDemo.created)] ∧
     last_seq (es_stream es_default "acme" "doc-1") = 0).
Proof. apply (log_append_only es_default FoldDemo.created CreateOnly es_default_inv). Defined.

Lemma append_dedupes_witness :
  let s := (mem_append es_default FoldDemo.created CreateOnly).1 in
  mem_append s FoldDemo.created (Exactly 77) = (s, Ok (mkAppended 1 1 true)).
Proof.
  intros s. apply (append_dedupes s FoldDemo.created (Exactly 77) 1 FoldDemo.created).
  - eapply (append_inv es_default FoldDemo.created CreateOnly); [apply es_default_inv |].
    apply mem_append_outcome; [apply es_default_inv | apply surjective_pairing].
  - reflexivity.
  - vm_compute. apply list_elem_of_here.
  - reflexivity.
Defined.

(** ** A world to run in *)

Module MemoryDemo.
Definition empty : World :=
  mkWorld es_default bl_default (mkUploads ∅ None) (mkRead ∅ None) [] false ContentOk 0 0.

(** The log after the first event of a document. *)
Definition log1 : EventStoreState := (mem_append es_default FoldDemo.created CreateOnly).1.

Lemma log1_inv : es_inv log1.
Proof.
  eapply (append_inv es_default FoldDemo.created CreateOnly); [apply es_default_inv |].
  apply mem_append_outcome; [apply es_default_inv | apply surjective_pairing].
Qed.

Definition with_log : World := set_events empty log1.
End MemoryDemo.
