(* ===== verification/Append.v ===== *)
(** * The two append paths (crates/document-app/src/append.rs)

    [append_create] for the first event of a document, [append_update] for
    every later one, and the re-read after a deduplicated publish.  The theorems
    are about the retry discipline under an arbitrary event store, and about
    what the helpers write to the in-memory log. *)

From S2P Require Import Prelude Text Events Fold Geometry Validation Keys Ports Memory.

Local Open Scope Z_scope.

Definition UPDATE_ATTEMPTS : nat := 3.

Section append.
Context {J : SerdeJson}.

(** [resolve_duplicate] *)
Definition resolve_duplicate (tenant document_id : string) (appended : Appended)
  : prog PortE (result Appended AppendError) :=
  if negb (ap_duplicate appended) then Ret (Ok appended) else
  let* r := call (EvLast tenant document_id) in
  match r with
  | Err e => Ret (Err (AStore e))
  | Ok None => Ret (Err NoSuchDocument)
  | Ok (Some (version, stream_seq)) => Ret (Ok (mkAppended stream_seq version true))
  end.

(** The [client_version] test of [append_update]. *)
Definition version_check (client_version : option Z) (current_version : Z)
  : result unit AppendError :=
  match client_version with
  | Some client =>
      if bool_decide (client ≠ current_version)
      then Err (VersionMismatch client current_version) else Ok tt
  | None => Ok tt
  end.

(** [append_create] *)
Definition append_create (event : DocumentEvent) : prog PortE (result Appended AppendError) :=
  let tenant := ev_tenant_id event in
  let document_id := ev_document_id event in
  let* r := call (EvAppend event CreateOnly) in
  match r with
  | Ok appended => resolve_duplicate tenant document_id appended
  | Err EConflict => Ret (Err AlreadyCreated)
  | Err error => Ret (Err (AStore error))
  end.

(** The [for _ in 0..UPDATE_ATTEMPTS] of [append_update], [attempts] left. *)
Fixpoint append_update_loop (attempts : nat) (tenant document_id : string)
    (client_version : option Z) (build_event : Z → DocumentEvent)
  : prog PortE (result Appended AppendError) :=
  match attempts with
  | O => Ret (Err ConflictRetryExhausted)
  | S attempts =>
      let* r := call (EvLast tenant document_id) in
      match r with
      | Err e => Ret (Err (AStore e))
      | Ok None => Ret (Err NoSuchDocument)
      | Ok (Some (current_version, current_seq)) =>
          match version_check client_version current_version with
          | Err e => Ret (Err e)
          | Ok _ =>
              let event := build_event (u64_add current_version 1) in
              let* r := call (EvAppend event (Exactly current_seq)) in
              match r with
              | Ok appended => resolve_duplicate tenant document_id appended
              | Err EConflict =>
                  append_update_loop attempts tenant document_id client_version build_event
              | Err error => Ret (Err (AStore error))
              end
          end
      end
  end.

(** [append_update] *)
Definition append_update (tenant document_id : string) (client_version : option Z)
    (build_event : Z → DocumentEvent) : prog PortE (result Appended AppendError) :=
  append_update_loop UPDATE_ATTEMPTS tenant document_id client_version build_event.

(** ** Every execution, against any event store *)

Definition is_append (o : Obs) : bool :=
  match o with mkObs _ (EvAppend _ _) _ => true | _ => false end.

(** An append the store answered with a sequence conflict. *)
Definition is_conflict (o : Obs) : bool :=
  match o with
  | mkObs _ e r =>
      match e in PortE A return A → bool with
      | EvAppend _ _ => λ r, match r with Err EConflict => true | _ => false end
      | _ => λ _, false
      end r
  end.

Section discipline.
Context (tenant document_id : string) (client_version : option Z).
Context (build_event : Z → DocumentEvent).

Definition obs_last (v q : Z) : Obs :=
  mkObs _ (EvLast tenant document_id) (Ok (Some (v, q))).
Definition obs_attempt (v q : Z) (a : result Appended EventStoreError) : Obs :=
  mkObs _ (EvAppend (build_event (u64_add v 1)) (Exactly q)) a.
Definition client_agrees (v : Z) : Prop :=
  ∀ client, client_version = Some client → client = v.

Abbreviation appendless := (Forall (λ o, is_append o = false)).

(** The shape of every execution with [n] attempts left. *)
Inductive update_trace : nat → list Obs → result Appended AppendError → Prop :=
| ut_out : update_trace 0 [] (Err ConflictRetryExhausted)
| ut_stop n tr r :
    appendless tr → r ≠ Err ConflictRetryExhausted → update_trace (S n) tr r
| ut_done n v q a tail r :
    client_agrees v → a ≠ Err EConflict → appendless tail →
    r ≠ Err ConflictRetryExhausted →
    update_trace (S n) (obs_last v q :: obs_attempt v q a :: tail) r
| ut_retry n v q tr r :
    client_agrees v → update_trace n tr r →
    update_trace (S n) (obs_last v q :: obs_attempt v q (Err EConflict) :: tr) r.

Lemma resolve_duplicate_trace t d a tr r :
  exec mkObs (resolve_duplicate t d a) tr r →
  appendless tr ∧ r ≠ Err ConflictRetryExhausted.
Proof.
  unfold resolve_duplicate. case_match; simpl.
  - by intros [-> <-].
  - destruct tr as [|o tr]; [done |]. intros (x & -> & Hx).
    destruct x as [[[v q]|]|]; simpl in Hx; destruct Hx as [-> <-]; split; by repeat constructor.
Qed.

Lemma version_check_agrees v : version_check client_version v = Ok tt → client_agrees v.
Proof.
  unfold version_check, client_agrees. intros H c ->. by case_bool_decide.
Qed.

Lemma append_update_trace n tr r :
  exec mkObs (append_update_loop n tenant document_id client_version build_event) tr r →
  update_trace n tr r.
Proof.
  revert tr. induction n as [|n IH]; intros tr; simpl; [intros [-> <-]; constructor |].
  destruct tr as [|o tr]; [done |]. intros (x & -> & H).
  destruct x as [[[v q]|]|]; simpl in H;
    [| destruct H as [-> <-]; by repeat constructor ..].
  destruct (version_check client_version v) as [[]|e] eqn:Hc; simpl in H.
  2: { destruct H as [-> <-]. unfold version_check in Hc. case_matches.
       constructor; [by repeat constructor | done]. }
  apply version_check_agrees in Hc.
  destruct tr as [|o tr]; [done |]. destruct H as (a & -> & H).
  destruct a as [a|e]; simpl in H.
  - apply resolve_duplicate_trace in H as [??]. by apply ut_done.
  - destruct e; simpl in H; [by apply ut_retry, IH | |];
      destruct H as [-> <-]; by apply ut_done.
Qed.

Definition appends (tr : list Obs) : nat := length (List.filter is_append tr).
Definition conflicts (tr : list Obs) : nat := length (List.filter is_conflict tr).

Lemma conflict_is_append o : is_conflict o = true → is_append o = true.
Proof. destruct o as [A e r]. destruct e; done. Qed.

Lemma appendless_counts tr : appendless tr → appends tr = 0%nat ∧ conflicts tr = 0%nat.
Proof.
  unfold appends, conflicts. induction 1 as [|o tr Ho _ [IH1 IH2]]; [done |]. simpl.
  rewrite Ho. destruct (is_conflict o) eqn:Hc; [| done].
  apply conflict_is_append in Hc. congruence.
Qed.

Lemma update_trace_counts n tr r :
  update_trace n tr r →
  (appends tr ≤ n)%nat ∧ (r = Err ConflictRetryExhausted ↔ conflicts tr = n).
Proof.
  induction 1 as [|n tr r Hf Hr|n v q a tail r Hv Ha Hf Hr|n v q tr r Hv _ [IH1 IH2]].
  - done.
  - apply appendless_counts in Hf as [-> ->]. split; [lia | done].
  - apply appendless_counts in Hf as [Ht Hc].
    unfold appends, conflicts in *. simpl. rewrite Ht. split; [lia |].
    destruct a as [a|[]]; simpl; rewrite ?Hc; done || (split; [done | lia]).
  - unfold appends, conflicts in *. simpl. split; [lia |]. rewrite IH2. lia.
Qed.

(** Every append of the trace is preceded by the [last] it is built on, and
    follows conflicts only. *)
Definition attempt_ok (tr1 : list Obs) (o : Obs) : Prop :=
  ∃ tr0 v q a, tr1 = tr0 ++ [obs_last v q] ∧ o = obs_attempt v q a ∧ client_agrees v ∧
    Forall (λ o, is_append o = true → is_conflict o = true) tr0.

Lemma update_trace_attempts n tr r :
  update_trace n tr r →
  ∀ tr1 o tr2, tr = tr1 ++ o :: tr2 → is_append o = true → attempt_ok tr1 o.
Proof.
  assert (∀ l tr1 o tr2, appendless l → l = tr1 ++ o :: tr2 → is_append o = true → False)
    as Hnone.
  { intros l tr1 o tr2 Hf -> Ho. apply Forall_app in Hf as [_ Hf].
    inversion Hf. congruence. }
  induction 1 as [|n tr r Hf Hr|n v q a tail r Hv Ha Hf Hr|n v q tr r Hv _ IH];
    intros tr1 o tr2 Heq Ho.
  - by destruct tr1.
  - exfalso. by eapply Hnone.
  - destruct tr1 as [|o1 [|o2 tr1]]; simplify_eq/=.
    + exists [], v, q, a. done.
    + exfalso. by eapply Hnone.
  - destruct tr1 as [|o1 [|o2 tr1]]; simplify_eq/=.
    + exists [], v, q, (Err EConflict). done.
    + destruct (IH tr1 o tr2) as (tr0 & v' & q' & a' & -> & -> & Hv' & Hf); [done.. |].
      exists (obs_last v q :: obs_attempt v q (Err EConflict) :: tr0), v', q', a'.
      split_and!; [done.. |]. by repeat constructor.
Qed.
End discipline.

(** Fact: against any event store, an update makes at most [UPDATE_ATTEMPTS]
    appends; each is a compare-and-swap on the sequence, and an event built on
    the version, of a [last] read immediately before it; an attempt is repeated
    only after a conflict; a client version that disagrees is never appended
    over; and giving up means exactly [UPDATE_ATTEMPTS] conflicts. *)
Theorem append_update_discipline tenant document_id client_version build_event tr r :
  exec mkObs (append_update tenant document_id client_version build_event) tr r →
  (appends tr ≤ UPDATE_ATTEMPTS)%nat ∧
  (r = Err ConflictRetryExhausted ↔ conflicts tr = UPDATE_ATTEMPTS) ∧
  ∀ tr1 o tr2, tr = tr1 ++ o :: tr2 → is_append o = true →
    attempt_ok tenant document_id client_version build_event tr1 o.
Proof.
  intros H%append_update_trace. split_and!.
  - by eapply update_trace_counts.
  - by eapply update_trace_counts.
  - by eapply update_trace_attempts.
Qed.

(** ** Against the in-memory log *)

Context {X : Hex} {S : Sha2}.

Definition with_conflicts (s : EventStoreState) (n : Z) : EventStoreState :=
  mkEvents (es_streams s) (es_seen s) (es_head s) n (es_always_conflict s) (es_unavailable s).

(** The log after [event] landed at the end of its stream. *)
Definition landed (s : EventStoreState) (event : DocumentEvent) : EventStoreState :=
  mkEvents
    (<[(ev_tenant_id event, ev_document_id event) :=
         es_stream s (ev_tenant_id event) (ev_document_id event) ++ [(es_head s + 1, event)]]>
       (es_streams s))
    (<[(ev_tenant_id event, ev_document_id event, ev_event_id event) := es_head s + 1]>
       (es_seen s))
    (es_head s + 1) 0 false false.

(** A log that answers, with [n] conflicts left to inject. *)
Definition answering (s : EventStoreState) (n : Z) : Prop :=
  es_unavailable s = false ∧ es_always_conflict s = false ∧ es_conflicts_remaining s = n.

Definition unseen (s : EventStoreState) (event : DocumentEvent) : Prop :=
  es_seen s !! (ev_tenant_id event, ev_document_id event, ev_event_id event) = None.

Lemma mem_append_lands s event expect :
  answering s 0 → unseen s event →
  last_seq (es_stream s (ev_tenant_id event) (ev_document_id event))
    = match expect with CreateOnly => 0 | Exactly q => q end →
  mem_append s event expect
    = (landed s event, Ok (mkAppended (es_head s + 1) (ev_version event) false)).
Proof.
  intros (Hu & Hac & Hcr) Hun Hl. unfold mem_append, landed.
  rewrite Hu, Hun, Hac, Hcr, Hl, Z.eqb_refl. done.
Qed.

Lemma mem_append_conflicts s event expect n :
  answering s n → 0 < n → unseen s event →
  mem_append s event expect = (with_conflicts s (n - 1), Err EConflict).
Proof.
  intros (Hu & Hac & Hcr) Hn Hun. unfold mem_append, with_conflicts.
  rewrite Hu, Hun, Hac, Hcr. by rewrite (proj2 (Z.ltb_lt 0 n)).
Qed.

Definition set_conflicts (w : World) (n : Z) : World :=
  set_events w (with_conflicts (w_events w) n).

Section updating.
Context (tenant document_id : string) (client_version : option Z).
Context (build_event : Z → DocumentEvent).

Lemma append_update_loop_memory k w n q e :
  answering (w_events w) n → 0 ≤ n →
  last (es_stream (w_events w) tenant document_id) = Some (q, e) →
  client_agrees client_version (ev_version e) →
  let event := build_event (u64_add (ev_version e) 1) in
  ev_tenant_id event = tenant → ev_document_id event = document_id →
  unseen (w_events w) event →
  run mem (append_update_loop k tenant document_id client_version build_event) w =
    if n <? Z.of_nat k
    then (set_events w (landed (w_events w) event),
          Ok (mkAppended (es_head (w_events w) + 1) (ev_version event) false))
    else (set_conflicts w (n - Z.of_nat k), Err ConflictRetryExhausted).
Proof.
  intros Han Hn Hl Hc event Ht Hd Hun. revert w n Han Hn Hl Hun.
  assert (version_check client_version (ev_version e) = Ok tt) as Hvc.
  { unfold version_check. destruct client_version as [c|]; [| done].
    rewrite bool_decide_eq_false_2; [done |]. intros Hne. by apply Hne, Hc. }
  induction k as [|k IH]; intros w n Han Hn Hl Hun.
  - cbn [run append_update_loop]. destruct (Z.ltb_spec n (Z.of_nat 0)); [lia |]. f_equal.
    unfold set_conflicts, with_conflicts. destruct Han as (? & ? & <-).
    rewrite Z.sub_0_r. by destruct w as [[]].
  - pose proof Han as (Hu & Hac & Hcr).
    cbn [append_update_loop prog_bind call run mem].
    unfold mem_last. rewrite Hu, Hl. cbn [fmap option_fmap option_map fst snd].
    rewrite Hvc. cbn [prog_bind call run mem]. fold event.
    destruct (decide (n = 0)) as [-> | Hn0].
    + rewrite mem_append_lands; [| done | done |].
      * rewrite (proj2 (Z.ltb_lt 0 _)) by lia. done.
      * rewrite Ht, Hd. unfold last_seq. by rewrite Hl.
    + rewrite (mem_append_conflicts _ _ _ n) by (done || lia).
      rewrite (IH _ (n - 1)); [| done | lia | done | done].
      destruct (Z.ltb_spec (n - 1) (Z.of_nat k)), (Z.ltb_spec n (Z.of_nat (Datatypes.S k)));
        try lia; [done |].
      by replace (n - 1 - Z.of_nat k) with (n - Z.of_nat (Datatypes.S k)) by lia.
Qed.

(** Fact: an update sees through fewer than [UPDATE_ATTEMPTS] concurrent
    writes: with [n] conflicts on the way it lands the event built on the
    current version when [n] is smaller, and otherwise reports exhaustion
    with the log untouched. *)
Theorem append_update_retries w n q e :
  answering (w_events w) n → 0 ≤ n →
  last (es_stream (w_events w) tenant document_id) = Some (q, e) →
  client_agrees client_version (ev_version e) →
  let event := build_event (u64_add (ev_version e) 1) in
  ev_tenant_id event = tenant → ev_document_id event = document_id →
  unseen (w_events w) event →
  run mem (append_update tenant document_id client_version build_event) w =
    if n <? 3
    then (set_events w (landed (w_events w) event),
          Ok (mkAppended (es_head (w_events w) + 1) (ev_version event) false))
    else (set_conflicts w (n - 3), Err ConflictRetryExhausted).
Proof. apply (append_update_loop_memory UPDATE_ATTEMPTS). Qed.

(** Fact: the refusals of an update leave the world as it was: a stale client
    version, a document without events, a store that does not answer. *)
Theorem append_update_refuses w :
  let outcome := run mem (append_update tenant document_id client_version build_event) w in
  (es_unavailable (w_events w) = true → outcome = (w, Err (AStore (EUnavailable "injected")))) ∧
  (es_unavailable (w_events w) = false →
   es_stream (w_events w) tenant document_id = [] → outcome = (w, Err NoSuchDocument)) ∧
  (∀ q e client, es_unavailable (w_events w) = false →
     last (es_stream (w_events w) tenant document_id) = Some (q, e) →
     client_version = Some client → client ≠ ev_version e →
     outcome = (w, Err (VersionMismatch client (ev_version e)))).
Proof.
  unfold append_update, UPDATE_ATTEMPTS. cbn [append_update_loop prog_bind call run mem].
  unfold mem_last. split_and!.
  - by intros ->.
  - by intros -> ->.
  - intros q e client -> -> -> Hc. cbn [fmap option_fmap option_map fst snd].
    unfold version_check. by rewrite bool_decide_eq_true_2.
Qed.
End updating.

(** Fact: on a create the conflict is the answer. A create lands on an empty
    stream with the sequence and version of its event; a second create with
    another id finds the document there and is told so after one append, the
    log unchanged; the same create redelivered is a success that reports the
    head of the stream. *)
Theorem append_create_outcomes w event :
  es_inv (w_events w) → answering (w_events w) 0 →
  let h := es_stream (w_events w) (ev_tenant_id event) (ev_document_id event) in
  run mem (append_create event) w =
    if bool_decide (unseen (w_events w) event) then
      if bool_decide (h = [])
      then (set_events w (landed (w_events w) event),
            Ok (mkAppended (es_head (w_events w) + 1) (ev_version event) false))
      else (w, Err AlreadyCreated)
    else
      match last h with
      | Some (q, e) => (w, Ok (mkAppended q (ev_version e) true))
      | None => (w, Err NoSuchDocument)
      end.
Proof.
  intros Hinv Han h. unfold append_create. cbn [prog_bind call run mem].
  assert (set_events w (w_events w) = w) as Hw by (by destruct w).
  case_bool_decide as Hun.
  - case_bool_decide as Hh.
    + rewrite mem_append_lands; [done | done | done |]. fold h. by rewrite Hh.
    + pose proof Han as (Hu & Hac & Hcr).
      assert (mem_append (w_events w) event CreateOnly = (w_events w, Err EConflict)) as ->.
      { unfold mem_append. rewrite Hu, Hun, Hac, Hcr. fold h.
        pose proof (increasing_last 0 h (inv_increasing _ Hinv _ _) Hh).
        by rewrite (proj2 (Z.eqb_neq (last_seq h) 0)) by lia. }
      simpl. by rewrite Hw.
  - destruct Han as (Hu & _ & _).
    unfold unseen in Hun. destruct (es_seen (w_events w) !! _) as [q|] eqn:Hs; [| done].
    apply inv_seen in Hs as (e & Hin & Hid); [| done].
    rewrite (append_dedupes_id _ event CreateOnly q e) by done.
    cbn [prog_bind call run]. unfold resolve_duplicate. cbn [ap_duplicate negb prog_bind call run mem].
    rewrite Hw. unfold mem_last. rewrite Hu. fold h.
    destruct (last h) as [[q' e']|]; done.
Qed.
End append.

(** ** Witnesses *)

#[local] Existing Instances Demo.json Demo.hex Demo.sha2.

Module AppendDemo.
(** A replacement event of the document of [FoldDemo.created]. *)
Definition build (version : Z) : DocumentEvent :=
  mkEvent 1 "e2" "acme" "doc-1" (User "user-2") version 200
    (PDocumentBlobValidated
       (mkValidated "u2" "b.pdf" "application/pdf" 2048 "sha256:bb" default_patch (Some 1%Z))).

(** Two conflicts, then success. *)
Definition trace : list Obs :=
  [mkObs _ (EvLast "acme" "doc-1") (Ok (Some (1, 1)));
   mkObs _ (EvAppend (build 2) (Exactly 1)) (Err EConflict);
   mkObs _ (EvLast "acme" "doc-1") (Ok (Some (1, 2)));
   mkObs _ (EvAppend (build 2) (Exactly 2)) (Ok (mkAppended 3 2 false))].

Definition contended : World := set_conflicts MemoryDemo.with_log 2.
End AppendDemo.

Lemma append_update_discipline_witness :
  (appends AppendDemo.trace ≤ UPDATE_ATTEMPTS)%nat ∧
  (Ok (mkAppended 3 2 false) = Err ConflictRetryExhausted
     ↔ conflicts AppendDemo.trace = UPDATE_ATTEMPTS) ∧
  ∀ tr1 o tr2, AppendDemo.trace = tr1 ++ o :: tr2 → is_append o = true →
    attempt_ok "acme" "doc-1" (Some 1) AppendDemo.build tr1 o.
Proof.
  apply (append_update_discipline "acme" "doc-1" (Some 1) AppendDemo.build AppendDemo.trace
           (Ok (mkAppended 3 2 false))).
  repeat (eexists; split; [reflexivity |]). done.
Defined.

Lemma append_update_retries_witness :
  run mem (append_update "acme" "doc-1" (Some 1) AppendDemo.build) AppendDemo.contended =
    (set_events AppendDemo.contended (landed (w_events AppendDemo.contended) (AppendDemo.build 2)),
     Ok (mkAppended 2 2 false)).
Proof.
  refine (append_update_retries "acme" "doc-1" (Some 1) AppendDemo.build AppendDemo.contended
            2 1 FoldDemo.created _ _ _ _ _ _ _); try reflexivity.
  - by split_and!.
  - done.
  - by intros c [= <-].
Defined.

Lemma append_update_refuses_witness :
  run mem (append_update "acme" "doc-1" (Some 5) AppendDemo.build) MemoryDemo.with_log =
    (MemoryDemo.with_log, Err (VersionMismatch 5 1)) ∧
  run mem (append_update "acme" "ghost" None AppendDemo.build) MemoryDemo.with_log =
    (MemoryDemo.with_log, Err NoSuchDocument).
Proof.
  split.
  - by apply (append_update_refuses "acme" "doc-1" (Some 5) AppendDemo.build MemoryDemo.with_log)
      with (q := 1) (e := FoldDemo.created) (client := 5).
  - by apply (append_update_refuses "acme" "ghost" None AppendDemo.build MemoryDemo.with_log).
Defined.

Lemma append_create_outcomes_witness :
  run mem (append_create FoldDemo.created) MemoryDemo.with_log =
    (MemoryDemo.with_log, Ok (mkAppended 1 1 true)).
Proof.
  refine (append_create_outcomes MemoryDemo.with_log FoldDemo.created MemoryDemo.log1_inv _).
  by split_and!.
Defined.
