(* ===== verification/Transition.v ===== *)
(** * The one way an upload's status moves (crates/document-app/src/transition.rs)

    A compare-and-swap loop around one rule: a terminal status is final.  Here:
    what the loop writes against any store, and what it does to the in-memory
    one; System.v adds the interleaving with other writers. *)

From S2P Require Import Prelude Text Events Fold Geometry Validation Keys Ports Memory.

Local Open Scope Z_scope.

Definition CAS_ATTEMPTS : nat := 3.

Inductive Transition : Type :=
| Applied (state : UploadState)
| AlreadyTerminal (state : UploadState)
| Expired.

Section transition.
Context {J : SerdeJson}.

(** The [for _ in 0..CAS_ATTEMPTS] of [set_status], [attempts] left. *)
Fixpoint set_status_loop (attempts : nat) (tenant user upload_id : string)
    (status : UploadStatus) (now : DateTime) : prog PortE (result Transition DocumentError) :=
  match attempts with
  | O =>
      Ret (Err (internal "upload state" "gave up after repeated compare-and-swap conflicts"))
  | S attempts =>
      let* r := call (UpGet tenant user upload_id) in
      match r with
      | Err e => Ret (Err (from_context_error e))
      | Ok None => Ret (Ok Expired)
      | Ok (Some stored) =>
          if is_terminal (us_status (su_state stored))
          then Ret (Ok (AlreadyTerminal (su_state stored)))
          else
            let next := with_status (su_state stored) status now in
            let* r := call (UpUpdate next (su_revision stored)) in
            match r with
            | Ok _ => Ret (Ok (Applied next))
            | Err CConflict => set_status_loop attempts tenant user upload_id status now
            | Err CExpired => Ret (Ok Expired)
            | Err error => Ret (Err (from_context_error error))
            end
      end
  end.

(** [set_status] *)
Definition set_status (tenant user upload_id : string) (status : UploadStatus) (now : DateTime)
  : prog PortE (result Transition DocumentError) :=
  set_status_loop CAS_ATTEMPTS tenant user upload_id status now.

(** [load] *)
Definition load (tenant user upload_id : string)
  : prog PortE (result (option UploadState) DocumentError) :=
  let* r := call (UpGet tenant user upload_id) in
  match r with
  | Err e => Ret (Err (from_context_error e))
  | Ok None => Ret (Ok None)
  | Ok (Some stored) =>
      if bool_decide (us_owner_user_id (su_state stored) ≠ user)
         || bool_decide (us_tenant_id (su_state stored) ≠ tenant)
      then Ret (Ok None)
      else Ret (Ok (Some (su_state stored)))
  end.

(** [finish_with] *)
Definition finish_with (state_key : string * string * string) (status : UploadStatus)
    (now : DateTime) : prog PortE (result Transition DocumentError) :=
  let '(tenant, user, upload_id) := state_key in
  set_status tenant user upload_id status now.

(** ** Every execution, against any store *)

Definition is_update (o : Obs) : bool :=
  match o with mkObs _ (UpUpdate _ _) _ => true | _ => false end.

(** An update the store applied. *)
Definition update_applied (o : Obs) : bool :=
  match o with
  | mkObs _ e r =>
      match e in PortE A return A → bool with
      | UpUpdate _ _ => λ r, is_ok r
      | _ => λ _, false
      end r
  end.

(** The record as read just before, still open, moved to [status] at the
    revision it was read at. *)
Definition write_ok (tenant user upload_id : string) (status : UploadStatus) (now : DateTime)
    (tr1 : list Obs) (o : Obs) : Prop :=
  ∃ tr0 stored a,
    tr1 = tr0 ++ [mkObs _ (UpGet tenant user upload_id) (Ok (Some stored))] ∧
    o = mkObs _ (UpUpdate (with_status (su_state stored) status now) (su_revision stored)) a ∧
    is_terminal (us_status (su_state stored)) = false ∧
    Forall (λ o, update_applied o = false) tr0.

Definition outcome_ok (status : UploadStatus) (tr : list Obs)
    (r : result Transition DocumentError) : Prop :=
  match r with
  | Ok (Applied s) => us_status s = status ∧ ∃ tr' rev v, tr = tr' ++ [mkObs _ (UpUpdate s rev) (Ok v)]
  | Ok (AlreadyTerminal s) =>
      is_terminal (us_status s) = true ∧ Forall (λ o, update_applied o = false) tr
  | _ => Forall (λ o, update_applied o = false) tr
  end.

Definition updates (tr : list Obs) : nat := length (List.filter is_update tr).

Lemma outcome_ok_retry status tr r o1 o2 :
  update_applied o1 = false → update_applied o2 = false →
  outcome_ok status tr r → outcome_ok status (o1 :: o2 :: tr) r.
Proof.
  intros H1 H2. destruct r as [[s|s|]|e]; simpl.
  - intros (? & tr' & rev & v & ->). split; [done |]. by exists (o1 :: o2 :: tr'), rev, v.
  - intros [??]. split; [done |]. by repeat constructor.
  - intros ?. by repeat constructor.
  - intros ?. by repeat constructor.
Qed.

(** The body of the CAS loop, on every branch. *)
Lemma set_status_loop_exec tenant user upload_id status now n tr r :
  exec mkObs (set_status_loop n tenant user upload_id status now) tr r →
  (updates tr ≤ n)%nat ∧ outcome_ok status tr r ∧
  ∀ tr1 o tr2, tr = tr1 ++ o :: tr2 → is_update o = true →
    write_ok tenant user upload_id status now tr1 o.
Proof.
  revert tr. induction n as [|n IH]; intros tr Hx; simpl in Hx.
  { destruct Hx as [-> <-]. split_and!; [done | constructor |]. by intros [|??]. }
  destruct tr as [|o tr]; [done |]. destruct Hx as (x & -> & Hx).
  set (get := mkObs _ (UpGet tenant user upload_id) x).
  assert (∀ tr1 o tr2, [get] = tr1 ++ o :: tr2 → is_update o = true →
            write_ok tenant user upload_id status now tr1 o) as Hget.
  { intros [|o1 [|o2 l]] o tr2 Heq Ho; by simplify_eq/=. }
  destruct x as [[stored|]|e]; simpl in Hx;
    [| by (destruct Hx as [-> <-]; split_and!; [unfold updates; simpl; lia | by repeat constructor | done]) ..].
  destruct (is_terminal (us_status (su_state stored))) eqn:Ht; simpl in Hx.
  { destruct Hx as [-> <-]; split_and!; [unfold updates; simpl; lia | | done]. split; [done | by repeat constructor]. }
  destruct tr as [|o tr]; [done |]. destruct Hx as (x & -> & Hx).
  set (next := with_status (su_state stored) status now) in *.
  assert (∀ tr1 o tr2, get :: mkObs _ (UpUpdate next (su_revision stored)) x :: tr
              = tr1 ++ o :: tr2 → is_update o = true → length tr1 ≤ 1 →
            write_ok tenant user upload_id status now tr1 o)%nat as Hfirst.
  { intros [|o1 [|o2 l]] o tr2 Heq Ho Hlen; simplify_eq/=; [| lia].
    exists [], stored, x. split_and!; done. }
  assert (tr = [] → ∀ tr1 o tr2, get :: mkObs _ (UpUpdate next (su_revision stored)) x :: tr
              = tr1 ++ o :: tr2 → is_update o = true →
            write_ok tenant user upload_id status now tr1 o) as Hlast.
  { intros -> tr1 o tr2 Heq Ho. eapply Hfirst; [done | done |].
    apply (f_equal length) in Heq. rewrite length_app in Heq. simpl in Heq. lia. }
  destruct x as [rev|[]]; simpl in Hx;
    try (destruct Hx as [-> <-]; split_and!;
         [unfold updates; simpl; lia | by repeat constructor | by apply Hlast]).
  - destruct Hx as [-> <-]. split_and!; [unfold updates; simpl; lia | | by apply Hlast].
    split; [done |]. by exists [get], (su_revision stored), rev.
  - apply IH in Hx as (Hn & Ho & Hw). split_and!.
    + unfold updates in *. simpl. lia.
    + by apply outcome_ok_retry.
    + intros [|o1 [|o2 tr1]] o tr2 Heq Hup; [eapply Hfirst; [exact Heq | exact Hup | simpl; lia] .. |].
      simplify_eq/=. destruct (Hw tr1 o tr2 eq_refl Hup) as (tr0 & st & a & -> & -> & Hst & Hf).
      exists (mkObs _ (UpGet tenant user upload_id) (Ok (Some stored))
              :: mkObs _ (UpUpdate next (su_revision stored)) (Err CConflict) :: tr0), st, a.
      split_and!; [done.. |]. by repeat constructor.
Qed.

(** Fact: against any store, a status is moved by at most [CAS_ATTEMPTS]
    compare-and-swaps; each writes the record as it was read immediately before
    with only the status and time changed, at the revision it was read at, and
    only if it was still open; nothing is written after a write succeeded; and
    the answer tells the truth: [Applied] iff the last write went through,
    [AlreadyTerminal] only with a terminal record and no write. *)
Theorem set_status_discipline tenant user upload_id status now tr r :
  exec mkObs (set_status tenant user upload_id status now) tr r →
  (updates tr ≤ CAS_ATTEMPTS)%nat ∧ outcome_ok status tr r ∧
  ∀ tr1 o tr2, tr = tr1 ++ o :: tr2 → is_update o = true →
    write_ok tenant user upload_id status now tr1 o.
Proof. apply set_status_loop_exec. Qed.
End transition.

(** ** Witnesses *)

#[local] Existing Instances Demo.json.

Module TransitionDemo.
Definition state (status : UploadStatus) : UploadState :=
  mkUpload "acme" "user-1" "u1" "doc-1" Create "tenants/acme/blobs/u1/original" "mp-1"
    "report.pdf" "application/pdf" 32 32 1 status 0 0.

Definition trace : list Obs :=
  [mkObs _ (UpGet "acme" "user-1" "u1") (Ok (Some (mkStored (state Uploading) 4)));
   mkObs _ (UpUpdate (with_status (state Uploading) Scanning 9) 4) (Err CConflict);
   mkObs _ (UpGet "acme" "user-1" "u1") (Ok (Some (mkStored (state (Accepted 1 false)) 5)))].
End TransitionDemo.

Lemma set_status_discipline_witness :
  (updates TransitionDemo.trace ≤ CAS_ATTEMPTS)%nat ∧
  outcome_ok Scanning TransitionDemo.trace
    (Ok (AlreadyTerminal (TransitionDemo.state (Accepted 1 false)))) ∧
  ∀ tr1 o tr2, TransitionDemo.trace = tr1 ++ o :: tr2 → is_update o = true →
    write_ok "acme" "user-1" "u1" Scanning 9 tr1 o.
Proof.
  apply (set_status_discipline "acme" "user-1" "u1" Scanning 9).
  repeat (eexists; split; [reflexivity |]). done.
Defined.
