(* ===== verification/System.v ===== *)
(** * Interleaving: many use cases over one world

    Any number of use cases run against the in-memory ports at once, their calls
    interleaved in any order, together with everything else that happens to the
    system: records expiring, faults coming and going, objects changing, indexing
    results landing in the log.  [sys_guarantee] is what every one of those steps
    keeps, and the lemmas of this file discharge it for the append helpers and
    the status transition; Worker.v and Service.v apply them to whole use cases. *)

From S2P Require Import Prelude Text Events Fold Geometry Validation Keys Ports Memory.
From S2P Require Import Append Transition.

Local Open Scope Z_scope.

(** Close a program that has returned. *)
Ltac sys_ret :=
  refine (rg_ret _ _ _ _ _ _); first [exact (λ _ Hw, Hw) | by intros ? [? _]].

Section system.
Context {J : SerdeJson} {X : Hex} {S2 : Sha2}.

(** ** The invariant of the log *)

(** The versions along a stream: an event that advances the version carries
    the next one, every other event repeats the last. *)
Fixpoint chain (prev : Z) (h : list (Z * DocumentEvent)) : Prop :=
  match h with
  | [] => True
  | (_, e) :: h' =>
      ev_version e = (if advances_version e then u64_add prev 1 else prev)
      ∧ chain (ev_version e) h'
  end.

Definition head_version (h : list (Z * DocumentEvent)) : Z :=
  default 0 ((λ p, ev_version p.2) <$> last h).

Record log_inv (s : EventStoreState) : Prop := {
  li_store : es_inv s;
  li_chain t d : chain 0 (es_stream s t d);
}.

(** ** The invariant of the upload records *)

Record up_inv (u : UploadStateInner) : Prop := {
  ui_no_fault : ui_conflict_once u = None;
  ui_keyed k st : ui_entries u !! k = Some st → own_key (su_state st) = k;
}.

(** The immutable half of a record. *)
Definition parameters (s : UploadState) : UploadState := with_status s Uploading 0.

(** How one record may evolve: its revision moves with every write, its
    parameters never do, and a terminal record does not change at all. *)
Definition record_evolves (st st' : StoredUpload) : Prop :=
  su_revision st ≤ su_revision st' ∧
  (su_revision st' = su_revision st → st' = st) ∧
  (is_terminal (us_status (su_state st)) = true → su_state st' = su_state st) ∧
  parameters (su_state st') = parameters (su_state st).

Definition entry_evolves (o o' : option StoredUpload) : Prop :=
  match o, o' with
  | _, None => True
  | None, Some _ => False
  | Some st, Some st' => record_evolves st st'
  end.

Definition up_evolves (u u' : UploadStateInner) : Prop :=
  ∀ k, entry_evolves (ui_entries u !! k) (ui_entries u' !! k).

(** ** The guarantee of every step *)

Definition sys_inv (w : World) : Prop := log_inv (w_events w) ∧ up_inv (w_uploads w).

Definition sys_guarantee (w w' : World) : Prop :=
  sys_inv w →
  sys_inv w' ∧ es_extends (w_events w) (w_events w') ∧ up_evolves (w_uploads w) (w_uploads w').

(** What happens to the system besides the use cases. *)
Inductive environment : World → World → Prop :=
| env_expire w es :
    (∀ k st, es !! k = Some st → ui_entries (w_uploads w) !! k = Some st) →
    environment w (set_uploads w (mkUploads es (ui_conflict_once (w_uploads w))))
| env_faults w n always unavailable :
    environment w
      (set_events w (mkEvents (es_streams (w_events w)) (es_seen (w_events w))
                       (es_head (w_events w)) n always unavailable))
| env_index w event expect q e :
    last (es_stream (w_events w) (ev_tenant_id event) (ev_document_id event)) = Some (q, e) →
    advances_version event = false → ev_version event = ev_version e →
    environment w (set_events w (mem_append (w_events w) event expect).1)
| env_other w blobs read queue infected verdict clock ids :
    environment w
      (mkWorld (w_events w) blobs (w_uploads w) read queue infected verdict clock ids).

(** ** Lemmas *)

#[export] Instance record_evolves_refl : Reflexive record_evolves.
Proof. intros st. unfold record_evolves. auto with lia. Qed.

#[export] Instance record_evolves_trans : Transitive record_evolves.
Proof.
  intros s1 s2 s3 (Hr & He & Ht & Hp) (Hr' & He' & Ht' & Hp').
  unfold record_evolves. split_and!; [lia | | | congruence].
  - intros Heq. assert (s2 = s1) as -> by (apply He; lia). apply He'; lia.
  - intros Hterm. specialize (Ht Hterm). rewrite <- Ht. apply Ht'. by rewrite Ht.
Qed.

#[export] Instance up_evolves_refl : Reflexive up_evolves.
Proof. intros u k. unfold entry_evolves. by case_match. Qed.

#[export] Instance up_evolves_trans : Transitive up_evolves.
Proof.
  intros u1 u2 u3 H1 H2 k. specialize (H1 k). specialize (H2 k). unfold entry_evolves in *.
  repeat case_match; simplify_eq; try done. by etrans.
Qed.

#[export] Instance sys_guarantee_refl : Reflexive sys_guarantee.
Proof. intros w Hw. done. Qed.

#[export] Instance sys_guarantee_trans : Transitive sys_guarantee.
Proof.
  intros w1 w2 w3 H1 H2 Hw. destruct (H1 Hw) as (Hw2 & He & Hu).
  destruct (H2 Hw2) as (Hw3 & He' & Hu'). split_and!; [done | by etrans | by etrans].
Qed.

Lemma sys_inv_stable : stable sys_guarantee sys_inv.
Proof. intros w w' Hw HG. by apply HG. Qed.

Lemma chain_snoc prev h q e :
  chain prev h →
  ev_version e =
    (let v := default prev ((λ p, ev_version p.2) <$> last h) in
     if advances_version e then u64_add v 1 else v) →
  chain prev (h ++ [(q, e)]).
Proof.
  revert prev. induction h as [|[q' e'] h IH]; intros prev Hc Hv; simpl in *; [done |].
  destruct Hc as [He Hc]. split; [done |]. apply IH; [done |].
  destruct h as [|p h]; [done |]. rewrite Hv. simpl.
  destruct (last (p :: h)) eqn:Hl; [done |]. by apply last_None in Hl.
Qed.

Lemma log_inv_extend s event expect s' r :
  log_inv s → mem_append s event expect = (s', r) →
  (∀ h, h = es_stream s (ev_tenant_id event) (ev_document_id event) →
     last_seq h = match expect with CreateOnly => 0 | Exactly q => q end →
     ev_version event =
       if advances_version event then u64_add (head_version h) 1 else head_version h) →
  log_inv s' ∧ es_extends s s'.
Proof.
  intros [Hinv Hch] Ha Hv. apply mem_append_outcome in Ha; [| done].
  split; [| by eapply append_extends]. constructor; [by eapply append_inv |].
  intros t d. destruct Ha as [| | |s' _ Hl _ _ Hs]; [apply Hch.. |].
  rewrite Hs. case_decide as Heq; [| apply Hch]. simplify_eq.
  apply chain_snoc; [apply Hch |]. by apply Hv.
Qed.

Lemma guarantee_events w s :
  (log_inv (w_events w) → log_inv s ∧ es_extends (w_events w) s) →
  sys_guarantee w (set_events w s).
Proof. intros H [Hl Hu]. destruct (H Hl). split; [by split | split; [assumption | reflexivity]]. Qed.

Lemma guarantee_uploads w u :
  (up_inv (w_uploads w) → up_inv u ∧ up_evolves (w_uploads w) u) →
  sys_guarantee w (set_uploads w u).
Proof. intros H [Hl Hu]. destruct (H Hu). split; [by split | split; [reflexivity | assumption]]. Qed.

Lemma guarantee_same w w' :
  w_events w' = w_events w → w_uploads w' = w_uploads w → sys_guarantee w w'.
Proof. intros He Hu [??]. unfold sys_inv. rewrite He, Hu. split; [by split | split; reflexivity]. Qed.

Lemma environment_guarantee w w' : environment w w' → sys_guarantee w w'.
Proof.
  destruct 1 as [w es Hes|w n always unavailable|w event expect q e Hl Ha Hv|].
  - apply guarantee_uploads. intros [Hf Hk]. split; [constructor; [done |] |].
    + intros k st Hst. by apply Hk, Hes.
    + intros k. simpl. unfold entry_evolves. destruct (es !! k) as [st|] eqn:Hst; [| by case_match].
      by rewrite (Hes _ _ Hst).
  - apply guarantee_events. intros [[Ho Hi Hh Hn Hse] Hc].
    split; [constructor; [by constructor | exact Hc] | by intros t d].
  - apply guarantee_events. intros Hlog.
    destruct (mem_append (w_events w) event expect) as [s' r] eqn:Hap. simpl.
    eapply log_inv_extend; [done | done |]. intros h -> _.
    rewrite Ha, Hv. unfold head_version. by rewrite Hl.
  - by apply guarantee_same.
Qed.

(** ** Calls and helpers keep the guarantee *)

Abbreviation sysrg := (rg mem_step sys_guarantee).

(** The calls that touch neither the log nor the upload records. *)
Definition quiet {A} (e : PortE A) : bool :=
  match e with
  | EvAppend _ _ | UpCreate _ | UpUpdate _ _ | UpDelete _ _ _ => false
  | _ => true
  end.

Lemma mem_quiet A (e : PortE A) w w' x :
  quiet e = true → mem_step A e w w' x →
  w_events w' = w_events w ∧ w_uploads w' = w_uploads w.
Proof.
  unfold mem_step. destruct e; intros Hq Hm; try done; simpl in Hm;
    repeat case_match; by simplify_eq.
Qed.

Lemma rg_quiet {A B} (e : PortE A) (f : A → prog PortE B) P R :
  quiet e = true → stable sys_guarantee P →
  (∀ x, sysrg (f x) P R) → sysrg (prog_bind (call e) f) P R.
Proof.
  intros Hq Hst Hf. apply (rg_call _ _ _ _ _ (λ _, P)); [| done].
  intros w w' x HP Hm. apply mem_quiet in Hm as [He Hu]; [| done].
  assert (sys_guarantee w w') by (by apply guarantee_same).
  split_and!; [done | done | by eapply Hst].
Qed.

(** Facts about the log that outlive every step. *)
Definition recorded (t d : string) (q : Z) (e : DocumentEvent) (w : World) : Prop :=
  (q, e) ∈ es_stream (w_events w) t d.

Definition last_fact (t d : string) (x : result (option (Z * Z)) EventStoreError) (w : World)
  : Prop :=
  match x with
  | Ok (Some (v, q)) => ∃ e, recorded t d q e w ∧ ev_version e = v
  | _ => True
  end.

Lemma recorded_stable t d q e :
  stable sys_guarantee (λ w, sys_inv w ∧ recorded t d q e w).
Proof.
  intros w w' [Hw Hr] HG. destruct (HG Hw) as (Hw' & He & _). split; [done |].
  unfold recorded in *. by eapply elem_of_prefix.
Qed.

Lemma last_fact_stable t d x : stable sys_guarantee (λ w, sys_inv w ∧ last_fact t d x w).
Proof.
  intros w w' [Hw Hf] HG. destruct x as [[[v q]|]|]; [| by split; [apply HG |] ..].
  destruct Hf as (e & Hr & Hv).
  destruct (recorded_stable t d q e w w') as [??]; [done.. |]. split; [done | by exists e].
Qed.

Lemma rg_last {B} t d (f : _ → prog PortE B) R :
  (∀ x, sysrg (f x) (λ w, sys_inv w ∧ last_fact t d x w) R) →
  sysrg (prog_bind (call (EvLast t d)) f) sys_inv R.
Proof.
  intros Hf. apply (rg_call _ _ _ _ _ (λ x w, sys_inv w ∧ last_fact t d x w)); [| done].
  intros w w' x Hw Hm. assert (w' = w) as -> by (unfold mem_step in Hm; by simplify_eq/=).
  split_and!; [done | apply last_fact_stable | done |].
  unfold mem_step in Hm. simpl in Hm. simplify_eq. unfold mem_last. case_match; [done |].
  destruct (last _) as [[q e]|] eqn:Hl; simpl; [| done]. exists e.
  split; [by apply last_in_stream | done].
Qed.

(** The end of a stream is the event its last sequence names. *)
Lemma last_seq_recorded s t d q e :
  es_inv s → (q, e) ∈ es_stream s t d → last_seq (es_stream s t d) = q →
  head_version (es_stream s t d) = ev_version e.
Proof.
  intros Hinv Hin Hl. unfold head_version, last_seq in *.
  destruct (last (es_stream s t d)) as [[q' e']|] eqn:Hlast; simpl in *.
  - subst q'. apply last_in_stream in Hlast.
    by rewrite (increasing_functional _ _ _ _ _ (inv_increasing _ Hinv t d) Hin Hlast).
  - subst q. pose proof (increasing_bounds _ _ _ _ (inv_increasing _ Hinv t d) Hin). lia.
Qed.

(** An append that continues the version chain it names is a guarantee step. *)
Lemma rg_append {B} event expect (f : _ → prog PortE B) P R :
  stable sys_guarantee P → (∀ w, P w → sys_inv w) →
  advances_version event = true →
  (∀ w, P w →
     last_seq (es_stream (w_events w) (ev_tenant_id event) (ev_document_id event))
       = match expect with CreateOnly => 0 | Exactly q => q end →
     ev_version event =
       u64_add (head_version (es_stream (w_events w) (ev_tenant_id event) (ev_document_id event))) 1) →
  (∀ x, sysrg (f x) P R) → sysrg (prog_bind (call (EvAppend event expect)) f) P R.
Proof.
  intros Hst HP Hadv Hv Hf. apply (rg_call _ _ _ _ _ (λ _, P)); [| done].
  intros w w' x Hw Hm. unfold mem_step in Hm. simpl in Hm.
  destruct (mem_append (w_events w) event expect) as [s' r] eqn:Ha. simplify_eq/=.
  assert (sys_guarantee w (set_events w s')) as HG.
  { apply guarantee_events. intros Hlog. eapply log_inv_extend; [done | done |].
    intros h -> Hl. rewrite Hadv. by apply Hv. }
  split_and!; [done | done | by eapply Hst].
Qed.

Lemma resolve_duplicate_rg t d a : sysrg (resolve_duplicate t d a) sys_inv (λ _, sys_inv).
Proof.
  unfold resolve_duplicate. case_match; [sys_ret |].
  apply rg_quiet; [done | apply sys_inv_stable |]. intros [[[v q]|]|]; sys_ret.
Qed.

Lemma head_version_nil_stream s t d :
  es_inv s → last_seq (es_stream s t d) = 0 → head_version (es_stream s t d) = 0.
Proof.
  intros Hinv Hl. destruct (es_stream s t d) as [|p h] eqn:Hs; [done |].
  pose proof (increasing_last 0 (p :: h)) as H. rewrite <- Hs in H at 1.
  specialize (H (inv_increasing _ Hinv t d) ltac:(done)). lia.
Qed.

Lemma append_create_rg event :
  advances_version event = true → ev_version event = 1 →
  sysrg (append_create event) sys_inv (λ _, sys_inv).
Proof.
  intros Hadv Hv. unfold append_create.
  apply rg_append; [apply sys_inv_stable | done | done | |].
  - intros w [[Hlog _] _] Hl. rewrite (head_version_nil_stream _ _ _ Hlog Hl), Hv. done.
  - intros [a|[]]; [apply resolve_duplicate_rg | sys_ret..].
Qed.

(** What [append_update] may be given to build. *)
Definition builds_successor (t d : string) (build_event : Z → DocumentEvent) : Prop :=
  ∀ v, ev_version (build_event v) = v ∧ advances_version (build_event v) = true ∧
       ev_tenant_id (build_event v) = t ∧ ev_document_id (build_event v) = d.

Lemma append_update_rg t d client build_event :
  builds_successor t d build_event →
  sysrg (append_update t d client build_event) sys_inv (λ _, sys_inv).
Proof.
  intros Hb. unfold append_update. generalize UPDATE_ATTEMPTS as n.
  induction n as [|n IH]; [sys_ret |]. cbn [append_update_loop].
  apply rg_last. intros [[[v q]|]|]; [| sys_ret ..].
  destruct (version_check client v) as [|]; [| sys_ret].
  destruct (Hb (u64_add v 1)) as (Hv & Hadv & Ht & Hd).
  apply rg_append; [apply last_fact_stable | by intros ? [? _] | done | |].
  - rewrite Ht, Hd, Hv. intros w [[[Hlog _] _] (e & Hr & <-)] Hl.
    by rewrite (last_seq_recorded _ _ _ _ _ Hlog Hr Hl).
  - intros [a'|[]]; [| | sys_ret ..].
    + eapply rg_weaken; [apply resolve_duplicate_rg | by intros ? [? _] | done].
    + eapply rg_weaken; [apply IH | by intros ? [? _] | done].
Qed.

(** What a [get] of a record tells, for as long as its revision stands. *)
Definition record_fact (k : string) (stored : StoredUpload) (w : World) : Prop :=
  match ui_entries (w_uploads w) !! k with
  | None => True
  | Some st => su_revision stored ≤ su_revision st ∧ (su_revision st = su_revision stored → st = stored)
  end.

Lemma record_fact_stable k stored :
  stable sys_guarantee (λ w, sys_inv w ∧ record_fact k stored w).
Proof.
  intros w w' [Hw Hf] HG. destruct (HG Hw) as (Hw' & _ & Hu). split; [done |].
  specialize (Hu k). unfold record_fact, entry_evolves in *.
  destruct (ui_entries (w_uploads w) !! k) as [st|],
    (ui_entries (w_uploads w') !! k) as [st'|]; try done.
  destruct Hf as [Hle Heq], Hu as (Hle' & Heq' & _). split; [lia |].
  intros Hrev. assert (st' = st) as -> by (apply Heq'; lia). apply Heq. lia.
Qed.

Lemma with_status_own_key s status now : own_key (with_status s status now) = own_key s.
Proof. done. Qed.

Lemma rg_get {B} t u i (f : _ → prog PortE B) R :
  (∀ x, sysrg (f x) (λ w, sys_inv w ∧
     match x with
     | Ok (Some stored) =>
         own_key (su_state stored) = upload_key t u i ∧ record_fact (upload_key t u i) stored w
     | _ => True
     end) R) →
  sysrg (prog_bind (call (UpGet t u i)) f) sys_inv R.
Proof.
  intros Hf. eapply (rg_call _ _ _ _ _ (λ x w, sys_inv w ∧ _)); [| done].
  intros w w' x Hw Hm. unfold mem_step in Hm. simplify_eq/=.
  split; [reflexivity |]. destruct (ui_entries (w_uploads w') !! _) as [stored|] eqn:Hs.
  - split.
    + intros w w1 [Hw1 [Hk Hf1]] HG.
      destruct (record_fact_stable (upload_key t u i) stored w w1) as [??]; done.
    + split; [done |]. split; [by eapply ui_keyed; [apply Hw |] |].
      unfold record_fact. rewrite Hs. split; [lia | done].
  - split; [| done]. intros w w1 [Hw1 _] HG. split; [by apply HG | done].
Qed.

Lemma rg_update {B} s status now stored (f : _ → prog PortE B) R :
  s = with_status (su_state stored) status now →
  is_terminal (us_status (su_state stored)) = false →
  (∀ x, sysrg (f x) sys_inv R) →
  sysrg (prog_bind (call (UpUpdate s (su_revision stored))) f)
    (λ w, sys_inv w ∧ record_fact (own_key (su_state stored)) stored w) R.
Proof.
  intros -> Hopen Hf. apply (rg_call _ _ _ _ _ (λ _, sys_inv)); [| done].
  intros w w' x [Hw Hfact] Hm. unfold mem_step in Hm. cbn [mem] in Hm.
  destruct (mem_up_update _ _ _) as [u r] eqn:Hup. simplify_eq/=.
  assert (sys_guarantee w (set_uploads w u)) as HG.
  { apply guarantee_uploads. intros [Hnf Hk]. unfold mem_up_update in Hup.
    rewrite Hnf, with_status_own_key in Hup. unfold record_fact in Hfact.
    destruct (ui_entries (w_uploads w) !! _) as [st|] eqn:Hst; [| by simplify_eq].
    case_bool_decide as Hrev; simplify_eq/=; [by split; [| reflexivity] |].
    destruct Hfact as [_ Heq]. rewrite (Heq ltac:(done)) in *. split.
    - constructor; [done |]. intros k st'. simpl.
      destruct (decide (k = own_key (su_state stored))) as [-> | Hne].
      + rewrite lookup_insert_eq. by intros [= <-].
      + rewrite lookup_insert_ne by done. apply Hk.
    - intros k. simpl. destruct (decide (k = own_key (su_state stored))) as [-> | Hne].
      + rewrite lookup_insert_eq, Hst. repeat split; simpl; [lia | lia | congruence].
      + rewrite lookup_insert_ne by done. apply up_evolves_refl. }
  split_and!; [done | apply sys_inv_stable | by apply HG].
Qed.

Lemma set_status_rg t u i status now :
  sysrg (set_status t u i status now) sys_inv (λ _, sys_inv).
Proof.
  unfold set_status. generalize CAS_ATTEMPTS as n. induction n as [|n IH]; [sys_ret |].
  cbn [set_status_loop]. apply rg_get. intros [[stored|]|]; [| sys_ret ..].
  destruct (is_terminal _) eqn:Ht; [sys_ret |].
  eapply rg_weaken; [eapply rg_update; [reflexivity | done |] | | exact (λ _ _ Hw, Hw)].
  - intros [rev|[]]; try sys_ret. apply IH.
  - intros w (Hw & Hk & Hf). by rewrite Hk.
Qed.

Lemma load_rg t u i : sysrg (load t u i) sys_inv (λ _, sys_inv).
Proof.
  apply rg_quiet; [done | apply sys_inv_stable |]. intros [[stored|]|]; try sys_ret.
  case_match; sys_ret.
Qed.
End system.

Lemma empty_log_inv `{SerdeJson} : log_inv es_default.
Proof.
  constructor; [apply es_default_inv |]. intros t d. unfold es_stream. simpl.
  by rewrite lookup_empty.
Qed.
