(* ===== verification/Worker.v ===== *)
(** * Finishing an upload (crates/document-app/src/worker.rs)

    One work item drives [run]: consult the record, assemble, check the size,
    sniff, scan, append, record.  [finish] adds the policy of the last delivery.
    The theorems are the safety of the pipeline against any environment (what
    must have happened before an answer is given and before bytes are deleted),
    its behaviour under redelivery, and its interleaving with other writers. *)

From S2P Require Import Prelude Text Events Fold Geometry Validation Keys Ports Memory.
From S2P Require Import Append Transition System.

Local Open Scope Z_scope.

Definition PREFIX_BYTES : Z := 512.

Inductive FinishOutcome : Type :=
| FAccepted (document_id : string) (version : Z) (superseded : bool)
| FRejected (reason : string)
| FRetry (error : string).

#[export] Instance FinishOutcome_eq_dec : EqDecision FinishOutcome.
Proof. solve_decision. Defined.

Inductive Assembled : Type :=
| Ready (head : option BlobHead)
| Terminal (outcome : FinishOutcome).

(** [completed.sort_by_key(|part| part.part_number)], a stable sort. *)
Fixpoint insert_part (p : CompletedPart) (l : list CompletedPart) : list CompletedPart :=
  match l with
  | [] => [p]
  | q :: l' => if cp_part_number p <=? cp_part_number q then p :: l else q :: insert_part p l'
  end.
Definition sort_parts (l : list CompletedPart) : list CompletedPart := foldr insert_part [] l.

Section worker.
Context {J : SerdeJson} {X : Hex} {S2 : Sha2}.

Abbreviation io := (prog PortE).

(** [replay] *)
Definition replay (command : UploadCompleted) (status : UploadStatus) : FinishOutcome :=
  match status with
  | Accepted version superseded => FAccepted (uc_document_id command) version superseded
  | Rejected reason => FRejected reason
  | other =>
      FRetry ("replay called with the non-terminal status " +:+ status_as_str other)
  end.

(** [based.is_some_and(|based| based != version.saturating_sub(1))] *)
Definition based_elsewhere (based_on_version : option Z) (version : Z) : bool :=
  match based_on_version with
  | Some based => negb (based =? saturating_sub version 1)
  | None => false
  end.

(** [superseded_flag] *)
Definition superseded_flag (event : DocumentEvent) : bool :=
  match ev_payload event with
  | PDocumentBlobValidated validated =>
      based_elsewhere (dv_based_on_version validated) (ev_version event)
  | _ => false
  end.

(** [history.iter().find(|(_, event)| event.payload.blob_ref() == Some(upload_id))] *)
Definition applied_event (upload_id : string) (history : list (Z * DocumentEvent))
  : option DocumentEvent :=
  snd <$> List.find (λ p, bool_decide (blob_ref (ev_payload p.2) = Some upload_id)) history.

(** [record]: every outcome of the transition is only logged. *)
Definition record (command : UploadCompleted) (status : UploadStatus) : io unit :=
  let* now := call ClNow in
  let* _ := finish_with (uc_tenant_id command, uc_owner_user_id command, uc_upload_id command)
              status now in
  Ret tt.

(** [reclaim]: failures are only logged. *)
Definition reclaim (command : UploadCompleted) : io unit :=
  let* _ := call (BlAbort (uc_storage_key command) (uc_multipart_upload_id command)) in
  let* _ := call (BlDelete (uc_storage_key command)) in
  Ret tt.

(** [accept] *)
Definition accept (command : UploadCompleted) (version : Z) (superseded : bool)
  : io FinishOutcome :=
  let* _ := record command (Accepted version superseded) in
  Ret (FAccepted (uc_document_id command) version superseded).

(** [reject] *)
Definition reject (command : UploadCompleted) (reason : string) : io FinishOutcome :=
  let* _ := reclaim command in
  let* _ := record command (Rejected reason) in
  Ret (FRejected reason).

(** [load_state] *)
Definition load_state (command : UploadCompleted) : io (result (option UploadStatus) string) :=
  let* r := load (uc_tenant_id command) (uc_owner_user_id command) (uc_upload_id command) in
  Ret (match r with
       | Ok state => Ok (us_status <$> state)
       | Err error => Err (document_error_to_string error)
       end).

(** [applied_version] *)
Definition applied_version (command : UploadCompleted) : io (result (option Z) string) :=
  let* r := call (EvReadStream (uc_tenant_id command) (uc_document_id command)) in
  match r with
  | Err error => Ret (Err (event_store_error_to_string error))
  | Ok history => Ret (Ok (ev_version <$> applied_event (uc_upload_id command) history))
  end.

(** [discard_expired] *)
Definition discard_expired (command : UploadCompleted) : io FinishOutcome :=
  let* r := applied_version command in
  match r with
  | Ok (Some version) => Ret (FAccepted (uc_document_id command) version false)
  | Ok None =>
      let* _ := reclaim command in
      Ret (FRejected UPLOAD_EXPIRED)
  | Err error => Ret (FRetry error)
  end.

(** The [HEAD] that settles whether an object is there. *)
Definition settle_by_head (command : UploadCompleted) : io Assembled :=
  let* r := call (BlHead (uc_storage_key command)) in
  match r with
  | Ok (Some head) => Ret (Ready (Some head))
  | Ok None =>
      let* outcome := reject command MULTIPART_LOST in
      Ret (Terminal outcome)
  | Err error => Ret (Terminal (FRetry (blob_error_to_string error)))
  end.

(** [assemble] *)
Definition assemble (command : UploadCompleted) : io Assembled :=
  let* r := call (BlListParts (uc_storage_key command) (uc_multipart_upload_id command)) in
  match r with
  | Err error => Ret (Terminal (FRetry (blob_error_to_string error)))
  | Ok None => settle_by_head command
  | Ok (Some []) =>
      let* outcome := reject command INVALID_PARTS in
      Ret (Terminal outcome)
  | Ok (Some parts) =>
      let completed :=
        sort_parts ((λ part, mkCompleted (up_part_number part) (up_etag part)) <$> parts) in
      let* r := call (BlComplete (uc_storage_key command) (uc_multipart_upload_id command)
                        completed) in
      match r with
      | Ok tt => Ret (Ready None)
      | Err error =>
          match be_kind error with
          | NoSuchUpload => settle_by_head command
          | Transient => Ret (Terminal (FRetry (blob_error_to_string error)))
          | InvalidParts | NotFoundBlob | Permanent =>
              let* outcome := reject command INVALID_PARTS in
              Ret (Terminal outcome)
          end
      end
  end.

(** [validate_content] *)
Definition validate_content (command : UploadCompleted) (head : BlobHead) (prefix : bytes)
  : io (result ContentVerdict string) :=
  let* r := call (ValidateContent head prefix
                    (mkDeclared (uc_filename command) (uc_content_type command)
                       (uc_declared_size command))) in
  Ret (result_map_err validate_error_to_string r).

(** The event [append_created] builds. *)
Definition created_event (command : UploadCompleted) (sha256_hex : string) (now : DateTime)
  : DocumentEvent :=
  mkEvent DOCUMENT_CONTRACT_VERSION
    (created_event_id (uc_tenant_id command) (uc_upload_id command))
    (uc_tenant_id command) (uc_document_id command) (User (uc_owner_user_id command)) 1 now
    (PDocumentCreated
       (mkCreated (uc_upload_id command) (uc_filename command) (uc_content_type command)
          (uc_declared_size command) (checksum sha256_hex) (uc_patch command))).

(** [append_created] *)
Definition append_created (command : UploadCompleted) (sha256_hex : string)
  : io FinishOutcome :=
  let* now := call ClNow in
  let* r := append_create (created_event command sha256_hex now) in
  match r with
  | Ok appended => accept command (ap_version appended) false
  | Err AlreadyCreated =>
      let* r := call (EvLast (uc_tenant_id command) (uc_document_id command)) in
      match r with
      | Ok (Some (version, _)) => accept command version false
      | Ok None => Ret (FRetry "create conflicted but the document has no events")
      | Err error => Ret (FRetry (event_store_error_to_string error))
      end
  | Err error => Ret (FRetry (append_error_to_string error))
  end.

(** The closure [build] of [append_replaced]. *)
Definition validated_event (command : UploadCompleted) (sha256_hex : string) (now : DateTime)
    (version : Z) : DocumentEvent :=
  mkEvent DOCUMENT_CONTRACT_VERSION
    (blob_validated_event_id (uc_tenant_id command) (uc_upload_id command))
    (uc_tenant_id command) (uc_document_id command) (User (uc_owner_user_id command)) version now
    (PDocumentBlobValidated
       (mkValidated (uc_upload_id command) (uc_filename command) (uc_content_type command)
          (uc_declared_size command) (checksum sha256_hex) (uc_patch command)
          (uc_if_match command))).

(** [expected != current_version && on_conflict == Fail] *)
Definition version_conflict (command : UploadCompleted) (current_version : Z) : bool :=
  match uc_if_match command with
  | Some expected =>
      negb (expected =? current_version) && bool_decide (uc_on_conflict command = FailOnConflict)
  | None => false
  end.

(** [append_replaced] *)
Definition append_replaced (command : UploadCompleted) (sha256_hex : string)
  : io FinishOutcome :=
  let* r := call (EvReadStream (uc_tenant_id command) (uc_document_id command)) in
  match r with
  | Err error => Ret (FRetry (event_store_error_to_string error))
  | Ok history =>
      match applied_event (uc_upload_id command) history with
      | Some applied => accept command (ev_version applied) (superseded_flag applied)
      | None =>
          match fold_history history with
          | Ok None => reject command MULTIPART_LOST
          | Err _ => reject command CORRUPT_HISTORY
          | Ok (Some state) =>
              if version_conflict command (ds_version state)
              then reject command VERSION_CONFLICT
              else
                let* now := call ClNow in
                let* r := append_update (uc_tenant_id command) (uc_document_id command) None
                            (validated_event command sha256_hex now) in
                match r with
                | Ok appended =>
                    accept command (ap_version appended)
                      (based_elsewhere (uc_if_match command) (ap_version appended))
                | Err error => Ret (FRetry (append_error_to_string error))
                end
          end
      end
  end.

(** Step 5 of [run]. *)
Definition append_event (command : UploadCompleted) (sha256_hex : string) : io FinishOutcome :=
  match uc_mode command with
  | Create => append_created command sha256_hex
  | Replace => append_replaced command sha256_hex
  end.

(** Steps 3 to 5 of [run]: sniff, scan, append. *)
Definition verify_and_append (command : UploadCompleted) (head : BlobHead)
  : io FinishOutcome :=
  let* r := call (BlReadPrefix (uc_storage_key command) PREFIX_BYTES) in
  match r with
  | Err error => Ret (FRetry (blob_error_to_string error))
  | Ok prefix =>
      let* r := validate_content command head prefix in
      match r with
      | Err error => Ret (FRetry error)
      | Ok (ContentRejected _) => reject command CONTENT_REJECTED
      | Ok ContentOk =>
          let* r := call (BlOpenRead (uc_storage_key command)) in
          match r with
          | Err error => Ret (FRetry (blob_error_to_string error))
          | Ok reader =>
              let* r := call (ScanBlob reader) in
              match r with
              | Err error => Ret (FRetry (scan_error_to_string error))
              | Ok outcome =>
                  match sc_verdict outcome with
                  | Infected _ => reject command MALWARE_DETECTED
                  | Clean =>
                      if negb (sc_byte_count outcome =? uc_declared_size command)
                      then reject command SIZE_MISMATCH
                      else append_event command (sc_sha256_hex outcome)
                  end
              end
          end
      end
  end.

(** Step 2 of [run]: the declared size, on the head the assembly carried. *)
Definition check_size (command : UploadCompleted) (head : BlobHead) : io FinishOutcome :=
  if negb (bh_byte_size head =? uc_declared_size command)
  then reject command SIZE_MISMATCH
  else verify_and_append command head.

(** Steps 1 and 2 of [run]. *)
Definition pipeline (command : UploadCompleted) : io FinishOutcome :=
  let* assembled := assemble command in
  match assembled with
  | Terminal outcome => Ret outcome
  | Ready (Some head) => check_size command head
  | Ready None =>
      let* r := call (BlHead (uc_storage_key command)) in
      match r with
      | Ok (Some head) => check_size command head
      | Ok None => reject command MULTIPART_LOST
      | Err error => Ret (FRetry (blob_error_to_string error))
      end
  end.

(** [UploadFinisher::run] *)
Definition run_item (command : UploadCompleted) : io FinishOutcome :=
  let* r := load_state command in
  match r with
  | Ok (Some status) =>
      if is_terminal status then Ret (replay command status) else pipeline command
  | Ok None => discard_expired command
  | Err error => Ret (FRetry error)
  end.

(** [UploadFinisher::finish] *)
Definition finish (command : UploadCompleted) (final_delivery : bool) : io FinishOutcome :=
  let* outcome := run_item command in
  match outcome with
  | FRetry _ => if final_delivery then reject command PIPELINE_FAILED else Ret outcome
  | _ => Ret outcome
  end.

(** ** What must have happened before *)

Section evidence.
Context (command : UploadCompleted).

Abbreviation tenant := (uc_tenant_id command).
Abbreviation doc := (uc_document_id command).
Abbreviation key := (uc_storage_key command).
Abbreviation multipart := (uc_multipart_upload_id command).

(** The event this upload may append, for the digest [sha]. *)
Definition own_event (sha : string) (e : DocumentEvent) : Prop :=
  ∃ now v, e = match uc_mode command with
               | Create => created_event command sha now
               | Replace => validated_event command sha now v
               end.

(** Its bytes were read whole from its own key, came out clean, have the
    declared length and hash to [sha]; and their head was validated against
    what was declared. *)
Definition verified (sha : string) (before : list Obs) : Prop :=
  (∃ reader outcome,
     mkObs _ (BlOpenRead key) (Ok reader) ∈ before ∧
     mkObs _ (ScanBlob reader) (Ok outcome) ∈ before ∧
     sc_verdict outcome = Clean ∧ sc_byte_count outcome = uc_declared_size command ∧
     sc_sha256_hex outcome = sha) ∧
  (∃ head prefix,
     mkObs _ (BlReadPrefix key PREFIX_BYTES) (Ok prefix) ∈ before ∧
     mkObs _ (ValidateContent head prefix
                (mkDeclared (uc_filename command) (uc_content_type command)
                   (uc_declared_size command))) (Ok ContentOk) ∈ before ∧
     bh_byte_size head = uc_declared_size command).

(** The log answered that this upload's event is in it; on a create also that
    the document is there already. *)
Definition durable (version : Z) (before : list Obs) : Prop :=
  (∃ h e, mkObs _ (EvReadStream tenant doc) (Ok h) ∈ before ∧
     applied_event (uc_upload_id command) h = Some e ∧ ev_version e = version) ∨
  (∃ sha e expect a, mkObs _ (EvAppend e expect) (Ok a) ∈ before ∧ own_event sha e ∧
     (ap_duplicate a = false → version = ap_version a)) ∨
  (uc_mode command = Create ∧
   ∃ sha e q, mkObs _ (EvAppend e CreateOnly) (Err EConflict) ∈ before ∧ own_event sha e ∧
     mkObs _ (EvLast tenant doc) (Ok (Some (version, q))) ∈ before).

(** Both halves of [reclaim] were asked for. *)
Definition reclaimed (before : list Obs) : Prop :=
  (∃ a, mkObs _ (BlAbort key multipart) a ∈ before) ∧ (∃ a, mkObs _ (BlDelete key) a ∈ before).

(** The record already held this terminal answer. *)
Definition replayed (status : UploadStatus) (before : list Obs) : Prop :=
  is_terminal status = true ∧
  ∃ stored, mkObs _ (UpGet tenant (uc_owner_user_id command) (uc_upload_id command))
              (Ok (Some stored)) ∈ before ∧ us_status (su_state stored) = status.

Definition evidence (status : UploadStatus) (before : list Obs) : Prop :=
  match status with
  | Accepted version _ => durable version before
  | Rejected _ => reclaimed before
  | _ => False
  end.

(** The part list storage reported, in the order S3 wants. *)
Definition listed (parts : list CompletedPart) (before : list Obs) : Prop :=
  ∃ ups, mkObs _ (BlListParts key multipart) (Ok (Some ups)) ∈ before ∧ ups ≠ [] ∧
    parts = sort_parts ((λ part, mkCompleted (up_part_number part) (up_etag part)) <$> ups).

(** When each call is allowed. *)
Definition call_ok (before : list Obs) (o : Obs) : Prop :=
  match o with
  | mkObs _ (BlDelete k) _ => k = key ∧ ∃ a, mkObs _ (BlAbort key multipart) a ∈ before
  | mkObs _ (BlAbort k m) _ => k = key ∧ m = multipart
  | mkObs _ (BlComplete k m parts) _ => k = key ∧ m = multipart ∧ listed parts before
  | mkObs _ (EvAppend e _) _ => ∃ sha, own_event sha e ∧ verified sha before
  | mkObs _ (UpUpdate s _) _ => evidence (us_status s) before
  | mkObs _ (UpCreate _) _ | mkObs _ (UpDelete _ _ _) _ | mkObs _ (QPublish _) _
  | mkObs _ (BlBegin _ _) _ | mkObs _ (BlPresign _ _ _ _) _ => False
  | _ => True
  end.

(** Calls that destroy bytes. *)
Definition reclaiming (o : Obs) : bool :=
  match o with
  | mkObs _ (BlDelete _) _ | mkObs _ (BlAbort _ _) _ => true
  | _ => false
  end.

Definition kept (tr : list Obs) : Prop := Forall (λ o, reclaiming o = false) tr.

(** What an answer is worth. *)
Definition outcome_worth (tr : list Obs) (r : FinishOutcome) : Prop :=
  match r with
  | FAccepted d version superseded =>
      d = doc ∧ kept tr ∧ (durable version tr ∨ replayed (Accepted version superseded) tr)
  | FRejected reason => reclaimed tr ∨ (kept tr ∧ replayed (Rejected reason) tr)
  | FRetry _ => kept tr
  end.

Lemma kept_snoc tr o : kept tr → reclaiming o = false → kept (tr ++ [o]).
Proof. intros ??. apply Forall_app. split; [done | by repeat constructor]. Qed.

Lemma elem_of_snoc {A} (x : A) l : x ∈ l ++ [x].
Proof. apply elem_of_app. right. by apply list_elem_of_singleton. Qed.

Lemma verified_grows sha before before' :
  before `prefix_of` before' → verified sha before → verified sha before'.
Proof.
  intros Hp [(r & o & H1 & H2 & H3) (h & p & H4 & H5 & H6)]. split.
  - exists r, o. split_and!; try apply H3; by eapply elem_of_prefix.
  - exists h, p. split_and!; [by eapply elem_of_prefix.. | done].
Qed.

Lemma durable_grows v before before' :
  before `prefix_of` before' → durable v before → durable v before'.
Proof.
  intros Hp [(h & e & H1 & H2) | [(sha & e & x & a & H1 & H2) | (Hm & sha & e & q & H1 & H2 & H3)]].
  - left. exists h, e. split; [by eapply elem_of_prefix | done].
  - right; left. exists sha, e, x, a. split; [by eapply elem_of_prefix | done].
  - right; right. split; [done |]. exists sha, e, q. split_and!; [| done |]; by eapply elem_of_prefix.
Qed.

Lemma reclaimed_grows before before' :
  before `prefix_of` before' → reclaimed before → reclaimed before'.
Proof.
  intros Hp [[a Ha] [b Hb]]. split; [exists a | exists b]; by eapply elem_of_prefix.
Qed.

Lemma evidence_grows st before before' :
  before `prefix_of` before' → evidence st before → evidence st before'.
Proof.
  intros Hp. destruct st; simpl; [done | done | by apply durable_grows | by apply reclaimed_grows].
Qed.

(** ** The pipeline, call by call *)

Abbreviation wsafe := (safe mkObs call_ok).

(** Extended by calls that destroy nothing. *)
Definition extends_kept (past past' : list Obs) : Prop :=
  ∃ ext, past' = past ++ ext ∧ kept ext.

Lemma extends_kept_refl past : extends_kept past past.
Proof. exists []. rewrite app_nil_r. split; [done | constructor]. Qed.

Lemma extends_kept_step past o past' :
  reclaiming o = false → extends_kept (past ++ [o]) past' → extends_kept past past'.
Proof.
  intros Ho (ext & -> & Hk). exists (o :: ext). rewrite <- (assoc_L app). split; [done |].
  by constructor.
Qed.

Lemma extends_kept_prefix past past' : extends_kept past past' → past `prefix_of` past'.
Proof. intros (ext & -> & _). by apply prefix_app_r. Qed.

Lemma extends_kept_kept past past' : kept past → extends_kept past past' → kept past'.
Proof. intros Hk (ext & -> & He). by apply Forall_app. Qed.

Lemma set_status_safe status now past :
  evidence status past →
  wsafe (set_status tenant (uc_owner_user_id command) (uc_upload_id command) status now)
    (λ past' _, extends_kept past past') past.
Proof.
  unfold set_status. generalize CAS_ATTEMPTS as n. intros n. revert past.
  induction n as [|n IH]; intros past Hev; [apply safe_ret, extends_kept_refl |].
  cbn [set_status_loop]. apply safe_call. intros x. split; [done |].
  set (get := mkObs _ _ x).
  assert (evidence status (past ++ [get])) as Hev'
    by (eapply evidence_grows; [by apply prefix_app_r | done]).
  assert (∀ past', extends_kept (past ++ [get]) past' → extends_kept past past') as Hget
    by (intros ?; by apply extends_kept_step).
  destruct x as [[stored|]|]; [| apply safe_ret, Hget, extends_kept_refl..].
  destruct (is_terminal _); [apply safe_ret, Hget, extends_kept_refl |].
  apply safe_call. intros x. split; [done |].
  set (upd := mkObs _ _ x).
  assert (∀ past', extends_kept ((past ++ [get]) ++ [upd]) past' → extends_kept past past') as Hupd
    by (intros ? Hx; eapply Hget, extends_kept_step, Hx; done).
  destruct x as [rev|[]]; try apply safe_ret, Hupd, extends_kept_refl.
  eapply safe_mono; [apply IH | intros ? ? _; apply Hupd].
  eapply evidence_grows; [by apply prefix_app_r | done].
Qed.

Lemma record_safe status past :
  evidence status past → wsafe (record command status) (λ past' _, extends_kept past past') past.
Proof.
  intros Hev. apply safe_call. intros now. split; [done |].
  eapply safe_bind_spec; [apply set_status_safe |].
  - eapply evidence_grows; [by apply prefix_app_r | done].
  - intros past' r _ Hx. apply safe_ret. by eapply extends_kept_step, Hx.
Qed.

Lemma reclaim_safe past : wsafe (reclaim command) (λ past' _, reclaimed past') past.
Proof.
  apply safe_call. intros a. split; [done |].
  apply safe_call. intros b. split; [split; [done | exists a; apply elem_of_snoc] |].
  apply safe_ret. split; [exists a | exists b; apply elem_of_snoc].
  rewrite elem_of_app. left. apply elem_of_snoc.
Qed.

Lemma reject_answers reason past :
  wsafe (reject command reason) (λ tr r, reclaimed tr ∧ r = FRejected reason) past.
Proof.
  eapply safe_bind_spec; [apply reclaim_safe |]. intros past' [] _ Hr.
  eapply safe_bind_spec; [by apply record_safe |]. intros past2 [] Hp _.
  apply safe_ret. split; [by eapply reclaimed_grows | done].
Qed.

Lemma reject_safe reason past : wsafe (reject command reason) outcome_worth past.
Proof.
  eapply safe_mono; [apply reject_answers |]. intros past' r _ [Hr ->]. by left.
Qed.

Lemma accept_safe v s past :
  durable v past → kept past → wsafe (accept command v s) outcome_worth past.
Proof.
  intros Hd Hk. eapply safe_bind_spec; [by apply record_safe |]. intros past' [] Hp He.
  apply safe_ret. split_and!; [done | by eapply extends_kept_kept |].
  left. by eapply durable_grows.
Qed.

Lemma retry_safe past m : kept past → wsafe (Ret (FRetry m)) outcome_worth past.
Proof. intros Hk. by apply safe_ret. Qed.

(** Step over a call that is always allowed, keeping what is known. *)
Ltac step x := apply safe_call; intros x; split; [done |].

Lemma applied_event_some_in u h e :
  applied_event u h = Some e → ∃ q, (q, e) ∈ h ∧ blob_ref (ev_payload e) = Some u.
Proof.
  unfold applied_event. destruct (List.find _ h) as [[q e']|] eqn:Hf; [| done].
  intros [= <-]. apply list_find_Some_in in Hf as [Hin Hb]. destruct_bools. by exists q.
Qed.

Lemma discard_expired_safe past : kept past → wsafe (discard_expired command) outcome_worth past.
Proof.
  intros Hk. unfold discard_expired, applied_version. apply safe_bind. step x.
  assert (kept (past ++ [mkObs _ (EvReadStream tenant doc) x])) as Hk' by by apply kept_snoc.
  destruct x as [h|e]; apply safe_ret; [| by apply retry_safe].
  destruct (applied_event (uc_upload_id command) h) as [e|] eqn:He;
    cbn [fmap option_fmap option_map].
  - apply safe_ret. split_and!; [done | done |]. left. left. exists h, e. split_and!; [apply elem_of_snoc | done..].
  - eapply safe_bind_spec; [apply reclaim_safe |]. intros past' [] _ Hr. apply safe_ret. by left.
Qed.

(** What [assemble] promises to its caller. *)
Definition assembled_worth (tr : list Obs) (a : Assembled) : Prop :=
  match a with
  | Ready _ => kept tr
  | Terminal outcome => outcome_worth tr outcome
  end.

Lemma reject_terminal_safe reason past :
  wsafe (let* outcome := reject command reason in Ret (Terminal outcome)) assembled_worth past.
Proof.
  eapply safe_bind_spec; [apply reject_safe |]. intros past' a _ Ha. by apply safe_ret.
Qed.

Lemma settle_by_head_safe past :
  kept past → wsafe (settle_by_head command) assembled_worth past.
Proof.
  intros Hk. step x.
  assert (kept (past ++ [mkObs _ (BlHead key) x])) as Hk' by by apply kept_snoc.
  destruct x as [[h|]|e]; [by apply safe_ret | apply reject_terminal_safe | by apply safe_ret].
Qed.

Lemma assemble_safe past : kept past → wsafe (assemble command) assembled_worth past.
Proof.
  intros Hk. step x.
  assert (kept (past ++ [mkObs _ (BlListParts key multipart) x])) as Hk' by by apply kept_snoc.
  destruct x as [[ups|]|e]; [| by apply settle_by_head_safe | by apply safe_ret].
  destruct ups as [|up ups]; [apply reject_terminal_safe |].
  apply safe_call. intros x. split.
  { split_and!; [done | done |]. exists (up :: ups). split_and!; [apply elem_of_snoc | done | done]. }
  match goal with |- safe _ _ _ _ ?tr => assert (kept tr) as Hk2 by by apply kept_snoc end.
  destruct x as [[]|e]; [by apply safe_ret |].
  destruct (be_kind e); [by apply settle_by_head_safe | apply reject_terminal_safe
    | apply reject_terminal_safe | by apply safe_ret | apply reject_terminal_safe].
Qed.

Lemma resolve_duplicate_safe t d a past :
  kept past →
  wsafe (resolve_duplicate t d a)
    (λ past' r, extends_kept past past' ∧
       match r with
       | Ok a' => ap_duplicate a = false → a' = a
       | Err e => e ≠ AlreadyCreated
       end) past.
Proof.
  intros Hk. unfold resolve_duplicate. destruct (ap_duplicate a) eqn:Hd; simpl.
  - intros x. split; [done |].
    assert (extends_kept past (past ++ [mkObs _ (EvLast t d) x])) as He
      by (eapply extends_kept_step; [| apply extends_kept_refl]; done).
    destruct x as [[[v q]|]|]; by apply safe_ret.
  - split; [apply extends_kept_refl | done].
Qed.

Lemma append_created_safe sha past :
  uc_mode command = Create → verified sha past → kept past →
  wsafe (append_created command sha) outcome_worth past.
Proof.
  intros Hm Hv Hk. unfold append_created. step now.
  set (past1 := past ++ _). assert (kept past1) as Hk1 by by apply kept_snoc.
  assert (own_event sha (created_event command sha now)) as Hown.
  { exists now, 0. by rewrite Hm. }
  assert (verified sha past1) as Hv1 by (eapply verified_grows, Hv; by apply prefix_app_r).
  unfold append_create. apply safe_bind. apply safe_call. intros x.
  split; [by exists sha |].
  set (past2 := past1 ++ _). assert (kept past2) as Hk2 by by apply kept_snoc.
  destruct x as [a|[]].
  - eapply safe_mono; [by apply resolve_duplicate_safe |].
    intros past3 [a'|e] Hp [He Ha].
    2: { destruct e; [done | apply retry_safe; by eapply extends_kept_kept..]. }
    apply accept_safe; [| by eapply extends_kept_kept].
    right; left. exists sha, (created_event command sha now), CreateOnly, a. split_and!.
    + eapply elem_of_prefix; [apply elem_of_snoc | done].
    + done.
    + intros Hd. by rewrite (Ha Hd).
  - apply safe_ret. step y.
    set (past3 := past2 ++ _). assert (kept past3) as Hk3 by by apply kept_snoc.
    destruct y as [[[v q]|]|]; [| by apply retry_safe..].
    apply accept_safe; [| done]. right; right. split; [done |].
    exists sha, (created_event command sha now), q. split_and!; [| done | apply elem_of_snoc].
    apply elem_of_app. left. apply elem_of_snoc.
  - by apply safe_ret, retry_safe.
  - by apply safe_ret, retry_safe.
Qed.

(** What an update reports has been appended. *)
Definition update_worth (past' : list Obs) (r : result Appended AppendError)
  : Prop :=
  kept past' ∧ match r with Ok a => durable (ap_version a) past' | Err _ => True end.

Lemma append_update_safe sha now past :
  uc_mode command = Replace → verified sha past → kept past →
  wsafe (append_update tenant doc None (validated_event command sha now))
    update_worth past.
Proof.
  intros Hm. unfold append_update. generalize UPDATE_ATTEMPTS as n. intros n. revert past.
  induction n as [|n IH]; intros past Hv Hk; [by apply safe_ret |].
  cbn [append_update_loop]. step x.
  set (past1 := past ++ _). assert (kept past1) as Hk1 by by apply kept_snoc.
  assert (verified sha past1) as Hv1 by (eapply verified_grows, Hv; by apply prefix_app_r).
  destruct x as [[[v q]|]|]; [| by apply safe_ret ..]. cbn [version_check].
  set (event := validated_event command sha now (u64_add v 1)).
  assert (own_event sha event) as Hown.
  { exists now, (u64_add v 1). by rewrite Hm. }
  apply safe_call. intros x. split; [by exists sha |].
  set (past2 := past1 ++ _). assert (kept past2) as Hk2 by by apply kept_snoc.
  assert (verified sha past2) as Hv2 by (eapply verified_grows, Hv1; by apply prefix_app_r).
  destruct x as [a|[]]; [| by apply IH | by apply safe_ret..].
  eapply safe_mono; [by apply resolve_duplicate_safe |].
  intros past3 [a'|e] Hp [He Ha]; (split; [by eapply extends_kept_kept | try done]).
  right; left. exists sha, event, (Exactly q), a. split_and!.
  - eapply elem_of_prefix; [apply elem_of_snoc | done].
  - done.
  - intros Hd. by rewrite (Ha Hd).
Qed.

Lemma append_replaced_safe sha past :
  uc_mode command = Replace → verified sha past → kept past →
  wsafe (append_replaced command sha) outcome_worth past.
Proof.
  intros Hm Hv Hk. unfold append_replaced. step x.
  set (past1 := past ++ _). assert (kept past1) as Hk1 by by apply kept_snoc.
  assert (verified sha past1) as Hv1 by (eapply verified_grows, Hv; by apply prefix_app_r).
  destruct x as [h|e]; [| by apply retry_safe].
  destruct (applied_event _ h) as [e|] eqn:He.
  { apply accept_safe; [| done]. left. exists h, e. split_and!; [apply elem_of_snoc | done..]. }
  destruct (fold_history h) as [[st|]|]; [| apply reject_safe..].
  destruct (version_conflict command _); [apply reject_safe |].
  step now. set (past2 := past1 ++ _).
  eapply safe_bind_spec; [apply append_update_safe; [done | | by apply kept_snoc] |].
  { eapply verified_grows, Hv1. by apply prefix_app_r. }
  intros past3 [a|e] _ [Hk3 Hd]; [by apply accept_safe | by apply retry_safe].
Qed.

Lemma append_event_safe sha past :
  verified sha past → kept past → wsafe (append_event command sha) outcome_worth past.
Proof.
  intros. unfold append_event. destruct (uc_mode command) eqn:Hm;
    [by apply append_created_safe | by apply append_replaced_safe].
Qed.

Lemma verify_and_append_safe head past :
  bh_byte_size head = uc_declared_size command → kept past →
  wsafe (verify_and_append command head) outcome_worth past.
Proof.
  intros Hsize Hk. step x. set (past1 := past ++ _).
  assert (kept past1) as Hk1 by by apply kept_snoc.
  destruct x as [prefix|e]; [| by apply retry_safe].
  unfold validate_content. apply safe_bind. step y. set (past2 := past1 ++ _).
  assert (kept past2) as Hk2 by by apply kept_snoc.
  destruct y as [[|reason]|e]; apply safe_ret; cbn [result_map_err];
    [| apply reject_safe | by apply retry_safe].
  step x. set (past3 := past2 ++ _).
  assert (kept past3) as Hk3 by by apply kept_snoc.
  destruct x as [reader|e]; [| by apply retry_safe].
  step x. set (past4 := past3 ++ _). assert (kept past4) as Hk4 by by apply kept_snoc.
  destruct x as [outcome|e]; [| by apply retry_safe].
  destruct (sc_verdict outcome) eqn:Hverdict; [| apply reject_safe].
  destruct (negb _) eqn:Hcount; [apply reject_safe |]. destruct_bools.
  apply append_event_safe; [| done]. split.
  - exists reader, outcome. split_and!; try done; [| apply elem_of_snoc].
    apply elem_of_app. left. apply elem_of_snoc.
  - exists head, prefix. split_and!; [| | done].
    + do 3 (apply elem_of_app; left). apply elem_of_snoc.
    + do 2 (apply elem_of_app; left). apply elem_of_snoc.
Qed.

Lemma check_size_safe head past :
  kept past → wsafe (check_size command head) outcome_worth past.
Proof.
  intros Hk. unfold check_size. destruct (negb _) eqn:Hs; [apply reject_safe |].
  destruct_bools. by apply verify_and_append_safe.
Qed.

Lemma pipeline_safe past : kept past → wsafe (pipeline command) outcome_worth past.
Proof.
  intros Hk. eapply safe_bind_spec; [by apply assemble_safe |].
  intros past1 [[head|]|outcome] _ Ha; simpl in Ha; [by apply check_size_safe | | by apply safe_ret].
  step x. match goal with |- safe _ _ _ _ ?tr => assert (kept tr) as Hk2 by by apply kept_snoc end.
  destruct x as [[head|]|e]; [by apply check_size_safe | apply reject_safe | by apply retry_safe].
Qed.

Lemma run_item_safe past : kept past → wsafe (run_item command) outcome_worth past.
Proof.
  intros Hk. unfold run_item, load_state, load. apply safe_bind, safe_bind. step x.
  match goal with |- safe _ _ _ _ ?tr => set (past1 := tr) end.
  assert (kept past1) as Hk1 by by apply kept_snoc.
  destruct x as [[stored|]|e]; [| by apply discard_expired_safe | by apply retry_safe].
  case_match; [by apply discard_expired_safe |]. simpl.
  destruct (is_terminal _) eqn:Ht; [| by apply pipeline_safe].
  apply safe_ret. assert (replayed (us_status (su_state stored)) past1) as Hr.
  { split; [done |]. exists stored. split; [apply elem_of_snoc | done]. }
  destruct (us_status (su_state stored)) as [| |v sup|reason] eqn:Hst; try done; simpl.
  - split_and!; [done | done | by right].
  - by right.
Qed.

Lemma finish_safe final past :
  kept past →
  wsafe (finish command final)
    (λ tr r, outcome_worth tr r ∧ (final = true → ∀ m, r ≠ FRetry m)) past.
Proof.
  intros Hk. eapply safe_bind_spec; [by apply run_item_safe |].
  intros past1 r _ Hr. destruct r as [d v s|reason|m]; [by apply safe_ret.. |].
  destruct final; [| by apply safe_ret].
  eapply safe_mono; [apply reject_answers |]. intros past2 r _ [Hr2 ->]. split; [by left | done].
Qed.
Lemma finish_exec final tr r :
  exec mkObs (finish command final) tr r →
  (∀ tr1 o tr2, tr = tr1 ++ o :: tr2 → call_ok tr1 o) ∧
  outcome_worth tr r ∧ (final = true → ∀ m, r ≠ FRetry m).
Proof.
  intros Hx. exact (exec_safe _ call_ok _ _ [] _ _ Hx (finish_safe final [] ltac:(constructor))).
Qed.

(** C2: against any environment, whatever it answers: an event is appended only
    after this upload's bytes were read whole from its own key, scanned clean,
    counted to exactly the declared size, and their head validated against the
    declaration; the event is this upload's own (tenant, document, id, blob) and
    its checksum is the digest of that very scan. *)
Theorem only_verified_bytes_become_documents final tr r tr1 e expect a tr2 :
  exec mkObs (finish command final) tr r →
  tr = tr1 ++ mkObs _ (EvAppend e expect) a :: tr2 →
  ∃ sha, own_event sha e ∧ verified sha tr1.
Proof. intros [Hok _]%finish_exec Heq. apply (Hok _ _ _ Heq). Qed.


(** Fact: a transient failure destroys nothing and is never the answer on the
    final delivery; a rejection either gave the bytes back, aborting the
    multipart and deleting the object, or repeats the answer already recorded. *)
Theorem refusals_clean_up final tr r :
  exec mkObs (finish command final) tr r →
  (∀ m, r = FRetry m → final = false ∧ kept tr) ∧
  (∀ reason, r = FRejected reason →
     reclaimed tr ∨ (kept tr ∧ replayed (Rejected reason) tr)).
Proof.
  intros (_ & H & Hfin)%finish_exec. split.
  - intros m ->. split; [| done]. destruct final; [| done]. by destruct (Hfin eq_refl m).
  - by intros reason ->.
Qed.

(** Fact: a work item stays within its upload. It aborts and deletes its own
    multipart and object only, the object after the multipart; it assembles
    exactly the parts storage listed; it writes a status to the record only after
    the fact the status reports (durable event, reclaimed bytes); and it makes no
    call of preflight or of [/complete]. *)
Theorem work_item_confined final tr r tr1 o tr2 :
  exec mkObs (finish command final) tr r →
  tr = tr1 ++ o :: tr2 →
  call_ok tr1 o.
Proof. intros [Hok _]%finish_exec Heq. apply (Hok _ _ _ Heq). Qed.
End evidence.

(** ** Interleaved with everything else *)

Abbreviation sysrg := (rg mem_step sys_guarantee).

Ltac quiet x := apply rg_quiet; [done | apply sys_inv_stable |]; intros x.

Lemma record_rg command status : sysrg (record command status) sys_inv (λ _, sys_inv).
Proof.
  quiet now. eapply rg_bind; [apply set_status_rg |]. intros r. sys_ret.
Qed.

Lemma reclaim_rg command : sysrg (reclaim command) sys_inv (λ _, sys_inv).
Proof. quiet a. quiet b. sys_ret. Qed.

Lemma accept_rg command v s : sysrg (accept command v s) sys_inv (λ _, sys_inv).
Proof. eapply rg_bind; [apply record_rg |]. intros []. sys_ret. Qed.

Lemma reject_rg command reason : sysrg (reject command reason) sys_inv (λ _, sys_inv).
Proof.
  eapply rg_bind; [apply reclaim_rg |]. intros [].
  eapply rg_bind; [apply record_rg |]. intros []. sys_ret.
Qed.

Lemma append_created_rg command sha : sysrg (append_created command sha) sys_inv (λ _, sys_inv).
Proof.
  quiet now. eapply rg_bind; [by apply append_create_rg |].
  intros [a|[]]; [apply accept_rg | | sys_ret..].
  quiet x. destruct x as [[[v q]|]|]; [apply accept_rg | sys_ret..].
Qed.

Lemma append_replaced_rg command sha :
  sysrg (append_replaced command sha) sys_inv (λ _, sys_inv).
Proof.
  quiet x. destruct x as [h|]; [| sys_ret].
  destruct (applied_event _ h) as [e|]; [apply accept_rg |].
  destruct (fold_history h) as [[st|]|]; [| apply reject_rg..].
  destruct (version_conflict _ _); [apply reject_rg |].
  quiet now. eapply rg_bind; [apply append_update_rg |].
  - by intros v.
  - intros [a|]; [apply accept_rg | sys_ret].
Qed.

Lemma verify_and_append_rg command head :
  sysrg (verify_and_append command head) sys_inv (λ _, sys_inv).
Proof.
  quiet x. destruct x as [prefix|]; [| sys_ret].
  unfold validate_content. eapply (rg_bind _ _ _ _ _ (λ _, sys_inv)); [quiet y; sys_ret |].
  intros [[|]|]; [| apply reject_rg | sys_ret].
  quiet x. destruct x as [reader|]; [| sys_ret].
  quiet x. destruct x as [outcome|]; [| sys_ret].
  destruct (sc_verdict outcome); [| apply reject_rg].
  destruct (negb _); [apply reject_rg |].
  unfold append_event. destruct (uc_mode command); [apply append_created_rg | apply append_replaced_rg].
Qed.

Lemma check_size_rg command head : sysrg (check_size command head) sys_inv (λ _, sys_inv).
Proof.
  unfold check_size. destruct (negb _); [apply reject_rg | apply verify_and_append_rg].
Qed.

Lemma reject_terminal_rg command reason :
  sysrg (let* outcome := reject command reason in Ret (Terminal outcome)) sys_inv (λ _, sys_inv).
Proof. eapply rg_bind; [apply reject_rg |]. intros r. sys_ret. Qed.

Lemma settle_by_head_rg command : sysrg (settle_by_head command) sys_inv (λ _, sys_inv).
Proof. quiet x. destruct x as [[h|]|]; [sys_ret | apply reject_terminal_rg | sys_ret]. Qed.

Lemma assemble_rg command : sysrg (assemble command) sys_inv (λ _, sys_inv).
Proof.
  quiet x. destruct x as [[[|up ups]|]|];
    [apply reject_terminal_rg | | apply settle_by_head_rg | sys_ret].
  quiet y. destruct y as [[]|e]; [sys_ret |].
  destruct (be_kind e);
    [apply settle_by_head_rg | apply reject_terminal_rg | apply reject_terminal_rg | sys_ret
    | apply reject_terminal_rg].
Qed.

Lemma discard_expired_rg command : sysrg (discard_expired command) sys_inv (λ _, sys_inv).
Proof.
  eapply (rg_bind _ _ _ _ _ (λ _, sys_inv)).
  - quiet x. destruct x; sys_ret.
  - intros [[v|]|]; [sys_ret | | sys_ret]. eapply rg_bind; [apply reclaim_rg |]. intros []. sys_ret.
Qed.

Lemma finish_rg command final : sysrg (finish command final) sys_inv (λ _, sys_inv).
Proof.
  eapply (rg_bind _ _ _ _ _ (λ _, sys_inv)).
  - eapply (rg_bind _ _ _ _ _ (λ _, sys_inv)).
    { eapply rg_bind; [apply load_rg |]. intros r. sys_ret. }
    intros [[status|]|]; [| apply discard_expired_rg | sys_ret].
    destruct (is_terminal status); [sys_ret |].
    eapply rg_bind; [apply assemble_rg |]. intros [[head|]|outcome];
      [apply check_size_rg | | sys_ret].
    quiet x. destruct x as [[head|]|]; [apply check_size_rg | apply reject_rg | sys_ret].
  - intros [d v s|reason|m]; [sys_ret..|]. destruct final; [apply reject_rg | sys_ret].
Qed.
End worker.
