(* ===== verification/Redelivery.v ===== *)
(** * Running the worker (crates/document-app/src/worker.rs over testing.rs)

    What [finish] does to the in-memory system: a good upload becomes a
    document, a redelivered work item changes nothing and repeats its answer, and
    what the last delivery does when the log cannot be read. *)

From S2P Require Import Prelude Text Events Fold Geometry Validation Keys Ports Memory.
From S2P Require Import Append Transition System Worker.

Local Open Scope Z_scope.

Section redelivery.
Context {J : SerdeJson} {X : Hex} {S2 : Sha2}.

(** ** Triples about one run *)

Definition triple {R} (P : World → Prop) (p : prog PortE R) (Q : R → World → Prop) : Prop :=
  ∀ w, P w → Q (run mem p w).2 (run mem p w).1.

Lemma triple_ret {R} (r : R) (P : World → Prop) (Q : R → World → Prop) :
  (∀ w, P w → Q r w) → triple P (Ret r) Q.
Proof. done. Qed.

Lemma triple_bind {A B} (p : prog PortE A) (f : A → prog PortE B) P Q R :
  triple P p Q → (∀ a, triple (Q a) (f a) R) → triple P (prog_bind p f) R.
Proof.
  intros Hp Hf w Hw. rewrite run_bind. specialize (Hp w Hw).
  destruct (run mem p w) as [w' a]. by apply Hf.
Qed.

Lemma triple_mono {R} (p : prog PortE R) (P : World → Prop) (Q Q' : R → World → Prop) :
  triple P p Q → (∀ r w, Q r w → Q' r w) → triple P p Q'.
Proof. intros Hp HQ w Hw. by apply HQ, Hp. Qed.

(** A predicate on the upload records alone. *)
Definition ups (U : UploadStateInner → Prop) (w : World) : Prop := U (w_uploads w).

Definition leaves_uploads {A} (e : PortE A) : bool :=
  match e with
  | UpCreate _ | UpUpdate _ _ | UpDelete _ _ _ => false
  | _ => true
  end.

Lemma mem_leaves_uploads A (e : PortE A) w :
  leaves_uploads e = true → w_uploads (mem A e w).1 = w_uploads w.
Proof. destruct e; intros Hq; try done; simpl; by repeat case_match. Qed.

Lemma triple_call {A B} (e : PortE A) (f : A → prog PortE B) U Q :
  leaves_uploads e = true →
  (∀ x, triple (ups U) (f x) Q) → triple (ups U) (prog_bind (call e) f) Q.
Proof.
  intros He Hf w Hw. simpl. pose proof (mem_leaves_uploads A e w He) as Hu.
  destruct (mem A e w) as [w' x]. simpl in Hu. apply Hf. unfold ups. by rewrite Hu.
Qed.

Section item.
Context (command : UploadCompleted).

Definition item_key : string :=
  upload_key (uc_tenant_id command) (uc_owner_user_id command) (uc_upload_id command).

(** The record of this upload, with its caller's names in it. *)
Definition record_at (status : UploadStatus) (u : UploadStateInner) : Prop :=
  ui_conflict_once u = None ∧
  ∃ stored, ui_entries u !! item_key = Some stored ∧
    us_tenant_id (su_state stored) = uc_tenant_id command ∧
    us_owner_user_id (su_state stored) = uc_owner_user_id command ∧
    us_upload_id (su_state stored) = uc_upload_id command ∧
    us_status (su_state stored) = status.

Definition still_open (u : UploadStateInner) : Prop :=
  ∃ status, is_terminal status = false ∧ record_at status u.

(** The record holds the answer [r]. *)
Definition answered (r : FinishOutcome) (u : UploadStateInner) : Prop :=
  ∃ status, is_terminal status = true ∧ record_at status u ∧ replay command status = r.

Lemma set_status_triple status now :
  triple (ups still_open)
    (set_status (uc_tenant_id command) (uc_owner_user_id command) (uc_upload_id command)
       status now)
    (λ _, ups (record_at status)).
Proof.
  intros w (st & Hst & Hnf & stored & Hs & Ht & Ho & Hi & Hstatus).
  unfold set_status, CAS_ATTEMPTS. cbn [set_status_loop prog_bind call run mem].
  fold item_key. rewrite Hs, Hstatus, Hst. cbn [prog_bind call run mem].
  unfold mem_up_update. rewrite Hnf, with_status_own_key.
  assert (own_key (su_state stored) = item_key) as ->.
  { unfold own_key, item_key. congruence. }
  rewrite Hs, bool_decide_eq_false_2 by (intros Hne; by apply Hne). simpl.
  split; [done |]. eexists. split; [apply lookup_insert_eq | done].
Qed.

Lemma record_triple status :
  is_terminal status = true →
  triple (ups still_open) (record command status) (λ _, ups (answered (replay command status))).
Proof.
  intros Hst. apply triple_call; [done |]. intros now.
  eapply triple_bind; [apply set_status_triple |]. intros r. apply triple_ret.
  intros w Hw. by exists status.
Qed.

(** The answers that are given once and for all. *)
Definition settled (r : FinishOutcome) (w : World) : Prop :=
  match r with FRetry _ => ups still_open w | _ => ups (answered r) w end.

Ltac silent x := apply triple_call; [done |]; intros x.
Ltac retries := apply triple_ret; intros w Hw; exact Hw.

Lemma accept_triple v s : triple (ups still_open) (accept command v s) settled.
Proof.
  eapply triple_bind; [by apply (record_triple (Accepted v s)) |]. intros []. retries.
Qed.

Lemma reject_triple reason :
  triple (ups still_open) (reject command reason)
    (λ r w, settled r w ∧ r = FRejected reason).
Proof.
  eapply (triple_bind _ _ _ (λ _, ups still_open)); [silent a; silent b; retries |].
  intros []. eapply triple_bind; [by apply (record_triple (Rejected reason)) |].
  intros []. by apply triple_ret.
Qed.

Lemma reject_settles reason : triple (ups still_open) (reject command reason) settled.
Proof. eapply triple_mono; [apply reject_triple |]. by intros r w [? _]. Qed.

Lemma keeps_open_bind {A B} (p : prog PortE A) (f : A → prog PortE B) Q :
  triple (ups still_open) p (λ _, ups still_open) →
  (∀ a, triple (ups still_open) (f a) Q) → triple (ups still_open) (prog_bind p f) Q.
Proof. apply triple_bind. Qed.

Lemma resolve_duplicate_triple t d a :
  triple (ups still_open) (resolve_duplicate t d a) (λ _, ups still_open).
Proof.
  unfold resolve_duplicate. case_match; [retries |]. silent x. destruct x as [[[v q]|]|]; retries.
Qed.

Lemma append_create_triple e :
  triple (ups still_open) (append_create e) (λ _, ups still_open).
Proof. silent x. destruct x as [a|[]]; [apply resolve_duplicate_triple | retries..]. Qed.

Lemma append_update_triple t d c b :
  triple (ups still_open) (append_update t d c b) (λ _, ups still_open).
Proof.
  unfold append_update. generalize UPDATE_ATTEMPTS as n. induction n as [|n IH]; [retries |].
  silent x. destruct x as [[[v q]|]|]; [| retries..].
  destruct (version_check c v); [| retries].
  silent y. destruct y as [a'|[]]; [apply resolve_duplicate_triple | apply IH | retries..].
Qed.

Lemma append_event_triple sha :
  triple (ups still_open) (append_event command sha) settled.
Proof.
  unfold append_event. destruct (uc_mode command).
  - silent now. apply keeps_open_bind; [apply append_create_triple |].
    intros [a|[]]; [apply accept_triple | | retries..].
    silent x. destruct x as [[[v q]|]|]; [apply accept_triple | retries..].
  - silent x. destruct x as [h|]; [| retries].
    destruct (applied_event _ h) as [e|]; [apply accept_triple |].
    destruct (fold_history h) as [[st|]|]; [| apply reject_settles..].
    destruct (version_conflict _ _); [apply reject_settles |].
    silent now. apply keeps_open_bind; [apply append_update_triple |].
    intros [a|]; [apply accept_triple | retries].
Qed.

Lemma check_size_triple head : triple (ups still_open) (check_size command head) settled.
Proof.
  unfold check_size. destruct (negb _); [apply reject_settles |].
  silent x. destruct x as [prefix|]; [| retries].
  apply keeps_open_bind; [silent y; retries |].
  intros [[|]|]; [| apply reject_settles | retries].
  silent x. destruct x as [reader|]; [| retries].
  silent x. destruct x as [outcome|]; [| retries].
  destruct (sc_verdict outcome); [| apply reject_settles].
  destruct (negb _); [apply reject_settles | apply append_event_triple].
Qed.

Definition assembled_settled (a : Assembled) (w : World) : Prop :=
  match a with Ready _ => ups still_open w | Terminal r => settled r w end.

Lemma reject_terminal_triple reason :
  triple (ups still_open)
    (let* outcome := reject command reason in Ret (Terminal outcome)) assembled_settled.
Proof. eapply triple_bind; [apply reject_settles |]. intros r. by apply triple_ret. Qed.

Lemma settle_by_head_triple :
  triple (ups still_open) (settle_by_head command) assembled_settled.
Proof. silent x. destruct x as [[h|]|]; [retries | apply reject_terminal_triple | retries]. Qed.

Lemma assemble_triple : triple (ups still_open) (assemble command) assembled_settled.
Proof.
  silent x. destruct x as [[[|up l]|]|];
    [apply reject_terminal_triple | | apply settle_by_head_triple | retries].
  silent y. destruct y as [[]|e]; [retries |].
  destruct (be_kind e); [apply settle_by_head_triple | apply reject_terminal_triple
    | apply reject_terminal_triple | retries | apply reject_terminal_triple].
Qed.

Lemma pipeline_triple : triple (ups still_open) (pipeline command) settled.
Proof.
  eapply triple_bind; [apply assemble_triple |].
  intros [[head|]|outcome]; [apply check_size_triple | | retries].
  silent x. destruct x as [[head|]|]; [apply check_size_triple | apply reject_settles | retries].
Qed.

(** Consulting the record of this upload. *)
Lemma load_state_run w status :
  ups (record_at status) w → run mem (load_state command) w = (w, Ok (Some status)).
Proof.
  intros (_ & stored & Hs & Ht & Ho & _ & Hst). unfold load_state, load.
  cbn [prog_bind call run mem]. fold item_key. rewrite Hs.
  rewrite !bool_decide_eq_false_2 by congruence. simpl. by rewrite Hst.
Qed.

Lemma finish_open_triple final :
  triple (ups still_open) (finish command final)
    (λ r w, settled r w ∧ (final = true → ∀ m, r ≠ FRetry m)).
Proof.
  eapply (triple_bind _ _ _ settled).
  - intros w Hw. destruct Hw as (status & Hopen & Hat).
    unfold run_item. rewrite run_bind, (load_state_run w status Hat), Hopen.
    apply pipeline_triple. by exists status.
  - intros [d v s|reason|m]; [by apply triple_ret..|].
    destruct final; [| by apply triple_ret].
    eapply triple_mono; [apply reject_triple |]. intros r w [Hr ->]. done.
Qed.

Lemma finish_answered w final r :
  ups (answered r) w → run mem (finish command final) w = (w, r).
Proof.
  intros (status & Hterm & Hat & Hr). unfold finish, run_item.
  rewrite !run_bind, (load_state_run w status Hat), Hterm. cbn [run]. rewrite Hr.
  by destruct status; simplify_eq/=.
Qed.

(** C4: a work item is idempotent under redelivery. Whatever the state of
    everything else, while this upload has its record: once a delivery has
    answered anything but "retry", delivering the item again changes nothing at
    all, in the log, the object store or the record, and answers the same. *)
Theorem redelivery_is_idempotent status w w' r final final' :
  ups (record_at status) w →
  run mem (finish command final) w = (w', r) →
  (∀ m, r ≠ FRetry m) →
  run mem (finish command final') w' = (w', r).
Proof.
  intros Hat Hrun Hr. apply finish_answered.
  destruct (is_terminal status) eqn:Hterm.
  - rewrite (finish_answered w final (replay command status)) in Hrun by (by exists status).
    simplify_eq. by exists status.
  - destruct (finish_open_triple final w) as [Hs _]; [by exists status |].
    rewrite Hrun in Hs. simpl in Hs. destruct r; [done.. |]. by destruct (Hr error).
Qed.

(** Recording an outcome touches the upload records only. *)
Lemma set_status_only_uploads t u i status now w :
  let w' := (run mem (set_status t u i status now) w).1 in
  w_events w' = w_events w ∧ w_blobs w' = w_blobs w.
Proof.
  unfold set_status. generalize CAS_ATTEMPTS as n. intros n. revert w.
  induction n as [|n IH]; intros w; [done |].
  cbn [set_status_loop prog_bind call run mem].
  destruct (ui_entries _ !! _) as [stored|]; [| done].
  destruct (is_terminal _); [done |]. cbn [prog_bind call run mem].
  destruct (mem_up_update _ _ _) as [s r]. destruct r as [rev|[]]; try done.
  apply (IH (set_uploads w s)).
Qed.

Lemma record_only_uploads status w :
  let w' := (run mem (record command status) w).1 in
  w_events w' = w_events w ∧ w_blobs w' = w_blobs w.
Proof.
  unfold record, finish_with. cbn [prog_bind call run mem]. rewrite run_bind.
  pose proof (set_status_only_uploads (uc_tenant_id command) (uc_owner_user_id command)
                (uc_upload_id command) status (fixed_time (w_clock w)) w) as Hs.
  destruct (run mem (set_status _ _ _ _ _) w). done.
Qed.

(** ** A good upload *)

Definition as_completed (u : UploadedPart) : CompletedPart :=
  mkCompleted (up_part_number u) (up_etag u).

Definition stored_size (l : list UploadedPart) : nat :=
  sum_list_with (λ u, Z.to_nat (up_size u)) l.

Lemma find_part uploaded u :
  NoDup (up_part_number <$> uploaded) → u ∈ uploaded →
  List.find (λ v, up_part_number v =? up_part_number u) uploaded = Some u.
Proof.
  induction uploaded as [|v l IH]; [by intros _ ?%elem_of_nil |].
  rewrite fmap_cons, NoDup_cons. intros [Hv Hl] Hin. simpl.
  apply elem_of_cons in Hin as [<- | Hin]; [by rewrite Z.eqb_refl |].
  destruct (Z.eqb_spec (up_part_number v) (up_part_number u)) as [Heq | _]; [| by apply IH].
  destruct Hv. rewrite Heq. apply list_elem_of_fmap. by exists u.
Qed.

Lemma assemble_bytes_ok uploaded l acc :
  NoDup (up_part_number <$> uploaded) → (∀ u, u ∈ l → u ∈ uploaded) →
  ∃ b, assemble_bytes uploaded (as_completed <$> l) acc = Ok b ∧
       length b = (length acc + stored_size l)%nat.
Proof.
  intros Hnd. revert acc. induction l as [|u l IH]; intros acc Hin.
  - exists acc. split; [done |]. unfold stored_size. simpl. lia.
  - simpl. rewrite (find_part uploaded u) by (done || apply Hin; left).
    rewrite bool_decide_eq_false_2 by (intros Hne; by apply Hne).
    destruct (IH (acc ++ replicate (Z.to_nat (up_size u)) x_byte)) as (b & Hb & Hl).
    { intros v Hv. apply Hin. by right. }
    exists b. split; [done |]. rewrite Hl, length_app, length_replicate.
    unfold stored_size. simpl. lia.
Qed.

Lemma insert_part_perm p l : insert_part p l ≡ₚ p :: l.
Proof.
  induction l as [|q l IH]; [done |]. simpl. case_match; [done |].
  rewrite IH. apply perm_swap.
Qed.

Lemma sort_parts_perm l : sort_parts l ≡ₚ l.
Proof. induction l as [|p l IH]; [done |]. simpl. by rewrite insert_part_perm, IH. Qed.

(** What a run needs of the world for this upload to go through. *)
Record good_upload (parts : list UploadedPart) (w : World) : Prop := {
  gu_open : ups still_open w;
  gu_create : uc_mode command = Create;
  gu_parts :
    bl_multiparts (w_blobs w) !! (uc_storage_key command, uc_multipart_upload_id command)
      = Some parts;
  gu_numbers : NoDup (up_part_number <$> parts);
  gu_some : parts ≠ [];
  gu_size : Z.of_nat (stored_size parts) = uc_declared_size command;
  gu_storage : bl_complete_error (w_blobs w) = None;
  gu_clean : w_force_infected w = false;
  gu_valid : w_verdict w = ContentOk;
  gu_log : answering (w_events w) 0;
  gu_new : es_stream (w_events w) (uc_tenant_id command) (uc_document_id command) = [];
  gu_unseen : es_seen (w_events w) !! (uc_tenant_id command, uc_document_id command,
                 created_event_id (uc_tenant_id command) (uc_upload_id command)) = None;
}.

Definition put_object (w : World) (b : bytes) (parts : list CompletedPart) : World :=
  set_blobs w
    (mkBlobs (delete (uc_storage_key command, uc_multipart_upload_id command)
                (bl_multiparts (w_blobs w)))
       (<[uc_storage_key command := (b, fixed_time 0)]> (bl_objects (w_blobs w)))
       (bl_next_multipart (w_blobs w)) None
       (<[uc_storage_key command := cp_part_number <$> parts]> (bl_assembled (w_blobs w)))
       (bl_deleted (w_blobs w)) (bl_aborted (w_blobs w))).

Lemma assemble_good parts w :
  good_upload parts w →
  ∃ b l, Z.of_nat (length b) = uc_declared_size command ∧
    run mem (assemble command) w = (put_object w b l, Ready None).
Proof.
  intros Hg. set (l := sort_parts (as_completed <$> parts)).
  assert (∃ ups', l = as_completed <$> ups' ∧ parts ≡ₚ ups') as (ups' & Hl & Hperm).
  { apply (Permutation_map_inv as_completed). subst l. apply sort_parts_perm. }
  destruct (assemble_bytes_ok parts ups' []) as (b & Hb & Hlen);
    [apply Hg | by intros u; rewrite Hperm |].
  exists b, l. split.
  { rewrite Hlen, <- (gu_size _ _ Hg). simpl. unfold stored_size. by rewrite Hperm. }
  unfold assemble. cbn [prog_bind call run mem]. rewrite (gu_parts _ _ Hg).
  pose proof (gu_some _ _ Hg). destruct parts as [|u parts]; [done |].
  cbn [prog_bind call run mem]. fold as_completed. fold l.
  unfold mem_complete_multipart. rewrite (gu_storage _ _ Hg), (gu_parts _ _ Hg), Hl, Hb.
  done.
Qed.

Definition landed_at (w : World) (b : bytes) (l : list CompletedPart) : World :=
  set_events (put_object w b l)
    (landed (w_events w) (created_event command (sha256_hex b) (fixed_time (w_clock w)))).

(** The checks a good object passes on the way to its event. *)
Lemma verify_good parts w b l :
  good_upload parts w → Z.of_nat (length b) = uc_declared_size command →
  run mem (append_created command (sha256_hex b)) (put_object w b l) =
    run mem (accept command 1 false) (landed_at w b l) →
  run mem (check_size command (mkHead (uc_declared_size command) None (fixed_time 0)))
    (put_object w b l) = run mem (accept command 1 false) (landed_at w b l).
Proof.
  intros Hg Hlen <-. unfold check_size. simpl bh_byte_size. rewrite Z.eqb_refl. cbn [negb].
  unfold verify_and_append. cbn [prog_bind call run mem].
  assert (bl_objects (w_blobs (put_object w b l)) !! uc_storage_key command
          = Some (b, fixed_time 0)) as Hobj by apply lookup_insert_eq.
  unfold mem_read_prefix. rewrite Hobj.
  unfold validate_content. cbn [prog_bind call run mem result_map_err].
  simpl w_verdict. rewrite (gu_valid _ _ Hg). cbn [prog_bind call run mem result_map_err].
  unfold mem_open_read. rewrite Hobj. cbn [prog_bind call run mem].
  simpl w_force_infected. rewrite (gu_clean _ _ Hg).
  unfold stub_scan. cbn [read_to_end result_bind result_map_err]. rewrite app_nil_r.
  cbn [sc_verdict sc_byte_count sc_sha256_hex]. rewrite Hlen, Z.eqb_refl. cbn [negb].
  unfold append_event. by rewrite (gu_create _ _ Hg).
Qed.

Lemma append_good parts w b l :
  good_upload parts w →
  run mem (append_created command (sha256_hex b)) (put_object w b l) =
    run mem (accept command 1 false) (landed_at w b l).
Proof.
  intros Hg. unfold append_created. cbn [prog_bind call run mem].
  unfold append_create. cbn [prog_bind call run mem].
  rewrite mem_append_lands.
  - done.
  - apply Hg.
  - apply Hg.
  - simpl. pose proof (gu_new _ _ Hg) as ->. done.
Qed.

(** C5: a good upload becomes a document: parts uploaded under distinct numbers
    that add up to the declared size, a clean scan and a log that answers. The
    work item is accepted at version 1, its create is the one event of the
    document, carrying the digest of the stored object, which stays in place. *)
Theorem good_upload_becomes_document parts w final :
  good_upload parts w →
  let '(w', r) := run mem (finish command final) w in
  r = FAccepted (uc_document_id command) 1 false ∧
  ups (answered r) w' ∧
  ∃ b, bl_objects (w_blobs w') !! uc_storage_key command = Some (b, fixed_time 0) ∧
    Z.of_nat (length b) = uc_declared_size command ∧
    es_stream (w_events w') (uc_tenant_id command) (uc_document_id command) =
      [(es_head (w_events w) + 1,
        created_event command (sha256_hex b) (fixed_time (w_clock w)))].
Proof.
  intros Hg. pose proof (gu_open _ _ Hg) as (status & Hopen & Hat).
  destruct (assemble_good parts w Hg) as (b & l & Hlen & Has).
  unfold finish, run_item. rewrite !run_bind, (load_state_run w status Hat), Hopen.
  unfold pipeline. rewrite run_bind, Has. cbn [prog_bind call run mem].
  assert (bl_objects (w_blobs (put_object w b l)) !! uc_storage_key command
          = Some (b, fixed_time 0)) as Hobj by apply lookup_insert_eq.
  unfold mem_head. rewrite Hobj.
  cbn [fmap option_fmap option_map fst snd]. rewrite Hlen.
  rewrite (verify_good parts w b l) by (done || by apply (append_good parts)).
  pose proof (accept_triple 1 false (landed_at w b l)) as Hacc.
  unfold accept in Hacc |- *. rewrite run_bind in Hacc |- *.
  assert (w_events (run mem (record command (Accepted 1 false)) (landed_at w b l)).1
          = w_events (landed_at w b l) ∧
          w_blobs (run mem (record command (Accepted 1 false)) (landed_at w b l)).1
          = w_blobs (landed_at w b l)) as [He Hb] by apply record_only_uploads.
  destruct (run mem (record command _) _) as [w' []]. cbn [run fst snd] in *.
  split; [done |]. split; [apply Hacc; by exists status |].
  exists b. rewrite Hb, He. split_and!; [apply lookup_insert_eq | done |].
  unfold landed_at. simpl w_events. unfold landed. rewrite es_stream_insert.
  rewrite decide_True by done. simpl. by rewrite (gu_new _ _ Hg).
Qed.

(** ** The last delivery *)

Lemma append_event_unavailable sha w :
  es_unavailable (w_events w) = true →
  ∃ m, run mem (append_event command sha) w = (w, FRetry m).
Proof.
  intros Hu. unfold append_event. destruct (uc_mode command).
  - unfold append_created, append_create. cbn [prog_bind call run mem].
    unfold mem_append. rewrite Hu. cbn [prog_bind run]. eexists. by destruct w.
  - unfold append_replaced. cbn [prog_bind call run mem].
    unfold mem_read_stream. rewrite Hu. by eexists.
Qed.

(** Fact: the last delivery of a work item deletes the bytes of a live document
    when the log cannot be read. An earlier delivery assembled the object and
    made its event durable, but its answer was never recorded; if the event
    store does not answer the last delivery, the transient error becomes a
    rejection, and the rejection reclaims the object the document serves without
    asking the log, which still holds the event. *)
Theorem final_delivery_deletes_live_blob w b t e :
  ups still_open w →
  bl_multiparts (w_blobs w) !! (uc_storage_key command, uc_multipart_upload_id command) = None →
  bl_objects (w_blobs w) !! uc_storage_key command = Some (b, t) →
  Z.of_nat (length b) = uc_declared_size command →
  w_force_infected w = false → w_verdict w = ContentOk →
  es_unavailable (w_events w) = true →
  applied_event (uc_upload_id command)
    (es_stream (w_events w) (uc_tenant_id command) (uc_document_id command)) = Some e →
  let '(w', r) := run mem (finish command true) w in
  r = FRejected PIPELINE_FAILED ∧
  bl_objects (w_blobs w') !! uc_storage_key command = None ∧
  applied_event (uc_upload_id command)
    (es_stream (w_events w') (uc_tenant_id command) (uc_document_id command)) = Some e.
Proof.
  intros (status & Hopen & Hat) Hmp Hobj Hlen Hclean Hvalid Hu He.
  unfold finish, run_item. rewrite !run_bind, (load_state_run w status Hat), Hopen.
  unfold pipeline. rewrite run_bind. unfold assemble, settle_by_head.
  cbn [prog_bind call run mem]. rewrite Hmp. cbn [prog_bind call run mem].
  unfold mem_head. rewrite Hobj. cbn [fmap option_fmap option_map prog_bind call run fst snd].
  unfold check_size. cbn [bh_byte_size]. rewrite Hlen, Z.eqb_refl. cbn [negb].
  unfold verify_and_append. cbn [prog_bind call run mem].
  unfold mem_read_prefix. rewrite Hobj.
  unfold validate_content. cbn [prog_bind call run mem]. rewrite Hvalid.
  cbn [prog_bind call run mem result_map_err]. unfold mem_open_read. rewrite Hobj.
  cbn [prog_bind call run mem]. rewrite Hclean.
  unfold stub_scan. cbn [read_to_end result_bind result_map_err]. rewrite app_nil_r.
  cbn [sc_verdict sc_byte_count sc_sha256_hex]. rewrite Hlen, Z.eqb_refl. cbn [negb].
  destruct (append_event_unavailable (sha256_hex b) w Hu) as [m ->]. cbn [run].
  unfold reject, reclaim. cbn [prog_bind call run mem]. rewrite run_bind.
  set (w1 := set_blobs _ _).
  pose proof (record_only_uploads (Rejected PIPELINE_FAILED) w1) as [Hev Hbl].
  destruct (run mem (record command _) w1) as [w' []]. cbn [run fst snd] in *.
  split; [done |]. rewrite Hbl, Hev. split; [apply lookup_delete_eq | exact He].
Qed.
End item.
End redelivery.

(** ** Witnesses *)

#[local] Existing Instances Demo.json Demo.hex Demo.sha2.

Module WorkerDemo.
Definition command : UploadCompleted :=
  mkCommand 1 "upload-completed:acme:u1" "acme" "user-1" "u1" "doc-1" Create
    "tenants/acme/blobs/u1/original" "mp-1" "report.pdf" "application/pdf" 3 None Supersede
    default_patch 0.

Definition record (status : UploadStatus) : UploadState :=
  mkUpload "acme" "user-1" "u1" "doc-1" Create "tenants/acme/blobs/u1/original" "mp-1"
    "report.pdf" "application/pdf" 3 5242880 1 status 0 0.

Definition parts : list UploadedPart := [mkPart 2 "b" 1; mkPart 1 "a" 2].

Definition uploads (status : UploadStatus) : UploadStateInner :=
  mkUploads {[ "acme/user-1/u1" := mkStored (record status) 1 ]} None.

(** The parts are in, the work item is about to be delivered. *)
Definition ready : World :=
  set_uploads
    (set_blobs MemoryDemo.empty
       (mkBlobs {[ ("tenants/acme/blobs/u1/original", "mp-1") := parts ]} ∅ 1 None ∅ [] []))
    (uploads Scanning).

(** The run on [ready]. *)
Definition trace : list Obs := run_trace mkObs mem (finish command false) ready.
Definition answer : FinishOutcome := FAccepted "doc-1" 1 false.

Lemma trace_exec : exec mkObs (finish command false) trace answer.
Proof.
  assert (answer = (run mem (finish command false) ready).2) as -> by (vm_compute; reflexivity).
  exact (run_trace_exec mkObs mem (finish command false) ready).
Qed.

(** The same upload after its event landed, its answer lost, and the event
    store gone away. *)
Definition after_append : World :=
  let w := (run mem (finish command false) ready).1 in
  set_uploads
    (set_events w (mkEvents (es_streams (w_events w)) (es_seen (w_events w))
                     (es_head (w_events w)) 0 false true))
    (uploads Scanning).

Definition event : DocumentEvent :=
  created_event command (sha256_hex [x_byte; x_byte; x_byte]) (fixed_time 0).
End WorkerDemo.

Lemma redelivery_is_idempotent_witness :
  let w := (run mem (finish WorkerDemo.command false) WorkerDemo.ready).1 in
  run mem (finish WorkerDemo.command true) w = (w, WorkerDemo.answer).
Proof.
  intros w.
  apply (redelivery_is_idempotent WorkerDemo.command Scanning WorkerDemo.ready w
           WorkerDemo.answer false true).
  - split; [done |]. eexists. split; [vm_compute; reflexivity | done].
  - assert ((run mem (finish WorkerDemo.command false) WorkerDemo.ready).2 = WorkerDemo.answer)
      as <- by (vm_compute; reflexivity).
    apply surjective_pairing.
  - done.
Defined.

Lemma good_upload_becomes_document_witness :
  let '(w', r) := run mem (finish WorkerDemo.command false) WorkerDemo.ready in
  r = FAccepted "doc-1" 1 false ∧
  ups (answered WorkerDemo.command r) w' ∧
  ∃ b, bl_objects (w_blobs w') !! "tenants/acme/blobs/u1/original" = Some (b, fixed_time 0) ∧
    Z.of_nat (length b) = 3 ∧
    es_stream (w_events w') "acme" "doc-1" =
      [(1, created_event WorkerDemo.command (sha256_hex b) (fixed_time 0))].
Proof.
  apply (good_upload_becomes_document WorkerDemo.command WorkerDemo.parts WorkerDemo.ready false).
  constructor; try (vm_compute; reflexivity).
  - exists Scanning. split; [done |]. split; [done |].
    eexists. split; [vm_compute; reflexivity | done].
  - vm_compute. repeat constructor; set_solver.
  - done.
  - by split_and!.
Defined.

Lemma final_delivery_deletes_live_blob_witness :
  let '(w', r) := run mem (finish WorkerDemo.command true) WorkerDemo.after_append in
  r = FRejected PIPELINE_FAILED ∧
  bl_objects (w_blobs w') !! "tenants/acme/blobs/u1/original" = None ∧
  applied_event "u1" (es_stream (w_events w') "acme" "doc-1") = Some WorkerDemo.event.
Proof.
  apply (final_delivery_deletes_live_blob WorkerDemo.command WorkerDemo.after_append
           [x_byte; x_byte; x_byte] (fixed_time 0) WorkerDemo.event);
    try (vm_compute; reflexivity).
  exists Scanning. split; [done |]. split; [done |].
  eexists. split; [vm_compute; reflexivity | done].
Defined.

Lemma only_verified_bytes_become_documents_witness :
  ∃ sha, own_event WorkerDemo.command sha WorkerDemo.event ∧
    verified WorkerDemo.command sha (take 9 WorkerDemo.trace).
Proof.
  apply (only_verified_bytes_become_documents WorkerDemo.command false WorkerDemo.trace
           WorkerDemo.answer (take 9 WorkerDemo.trace) WorkerDemo.event CreateOnly
           (Ok (mkAppended 1 1 false)) (drop 10 WorkerDemo.trace)).
  - apply WorkerDemo.trace_exec.
  - vm_compute. reflexivity.
Defined.


Lemma refusals_clean_up_witness :
  (∀ m, WorkerDemo.answer = FRetry m → false = false ∧ kept WorkerDemo.trace) ∧
  (∀ reason, WorkerDemo.answer = FRejected reason →
     reclaimed WorkerDemo.command WorkerDemo.trace ∨
     (kept WorkerDemo.trace ∧ replayed WorkerDemo.command (Rejected reason) WorkerDemo.trace)).
Proof. apply (refusals_clean_up WorkerDemo.command), WorkerDemo.trace_exec. Defined.

Lemma work_item_confined_witness :
  ∃ o, nth_error WorkerDemo.trace 12 = Some o ∧
    call_ok WorkerDemo.command (take 12 WorkerDemo.trace) o.
Proof.
  eexists. split; [vm_compute; reflexivity |].
  apply (work_item_confined WorkerDemo.command false WorkerDemo.trace WorkerDemo.answer
           (take 12 WorkerDemo.trace) _ (drop 13 WorkerDemo.trace)).
  - apply WorkerDemo.trace_exec.
  - vm_compute. reflexivity.
Defined.
