(* ===== verification/Service.v ===== *)
(** * The API-facing use cases (crates/document-app/src/service.rs)

    Preflight, part listing and signing, [/complete] and the reads.  The theorems
    are about what a failed preflight leaves behind, what [/complete] hands the
    worker, which parts may be resumed and signed, and the paging of the
    listing. *)

From S2P Require Import Prelude Text Events Fold Geometry Validation Keys Ports Memory.
From S2P Require Import Append Transition System Worker.

Local Open Scope Z_scope.

Definition DEFAULT_CONTENT_TYPE : string := "application/octet-stream".
Definition MAX_LIST_LIMIT : Z := 200.

Record UploadPolicy : Type := mkPolicy {
  po_part_url_ttl : Z;
  po_max_upload_bytes : Z;
  po_part_size_bytes : Z;
}.

Record PreflightRequest : Type := mkPreflight {
  pf_document_id : option string;
  pf_filename : string;
  pf_size : Z;
  pf_content_type : option string;
}.

Record PreflightResponse : Type := mkPreflightResponse {
  pr_upload_id : string;
  pr_document_id : string;
  pr_key : string;
  pr_part_size_bytes : Z;
  pr_part_count : Z;
}.

Record RenewRequest : Type := mkRenew {
  rr_from_part : option Z;
  rr_count : option Z;
}.

Record UploadedPartsResponse : Type := mkUploadedParts {
  upr_part_size_bytes : Z;
  upr_part_count : Z;
  upr_parts : list UploadedPart;
}.

(** [expected_part_size] *)
Definition expected_part_size (context : UploadState) (part_number : Z) : option Z :=
  if (part_number =? 0) || (us_part_count context <? part_number) then None
  else if part_number <? us_part_count context then Some (us_part_size_bytes context)
  else
    consumed ← checked_mul u64_max (us_part_count context - 1) (us_part_size_bytes context);
    checked_sub (us_declared_size context) consumed.

(** [lo..=hi] *)
Definition range_inclusive (lo hi : Z) : list Z :=
  (λ n, lo + Z.of_nat n) <$> seq 0 (Z.to_nat (hi - lo + 1)).

(** The content type preflight settles on. *)
Definition resolve_content_type (o : option string) : string :=
  match trim <$> o with
  | Some value => if is_empty value then DEFAULT_CONTENT_TYPE else value
  | None => DEFAULT_CONTENT_TYPE
  end.

Section service.
Context {J : SerdeJson} (policy : UploadPolicy).

Abbreviation io := (prog PortE).

Record CompleteRequest : Type := mkComplete {
  cr_if_match : option Z;
  cr_on_conflict : ConflictPolicy;
  cr_patch : MetadataPatch;
}.

Record DocumentPage : Type := mkPage {
  pg_items : list DocumentState;
  pg_next : option DocumentCursor;
}.

(** [unwind_preflight]: both failures are only logged. *)
Definition unwind_preflight (state : UploadState) : io unit :=
  let* _ := call (UpDelete (us_tenant_id state) (us_owner_user_id state) (us_upload_id state)) in
  let* _ := call (BlAbort (us_storage_key state) (us_multipart_upload_id state)) in
  Ret tt.

(** [resolve_replace_target] *)
Definition resolve_replace_target (tenant_id document_id : string)
  : io (result unit DocumentError) :=
  let* r := call (EvLast tenant_id document_id) in
  match r with
  | Err e => Ret (Err (from_event_store_error e))
  | Ok None => Ret (Err DNotFound)
  | Ok (Some _) =>
      let* r := call (RmGet tenant_id document_id) in
      match r with
      | Err e => Ret (Err (from_read_error e))
      | Ok (Some document) =>
          if bool_decide (ds_state document = Deleted) then Ret (Err DDeleted) else Ret (Ok tt)
      | Ok None => Ret (Ok tt)
      end
  end.

(** The checks preflight makes before any call, and the geometry they settle. *)
Definition preflight_checks (request : PreflightRequest)
  : result (string * Z * Z) DocumentError :=
  let filename := trim (pf_filename request) in
  if is_empty filename then Err (DInvalid "filename cannot be empty") else
  if po_max_upload_bytes policy <? pf_size request then
    Err (DTooLarge ("file is " +:+ show_uint (pf_size request) +:+ " bytes, over the "
                      +:+ show_uint (po_max_upload_bytes policy) +:+ " byte upload limit"))
  else
    let? part_size :=
      result_map_err from_geometry_error
        (part_size_bytes (pf_size request) (po_part_size_bytes policy)) in
    let? parts_total :=
      result_map_err from_geometry_error (part_count (pf_size request) part_size) in
    Ok (filename, part_size, parts_total).

(** The target of the upload: an existing document or a fresh id. *)
Definition preflight_target (tenant_id : string) (request : PreflightRequest)
  : io (result (string * UploadMode) DocumentError) :=
  match pf_document_id request with
  | Some document_id =>
      let*? _ := resolve_replace_target tenant_id document_id in
      Ret (Ok (document_id, Replace))
  | None =>
      let* id := call IdUlid in
      Ret (Ok (id, Create))
  end.

(** [preflight] *)
Definition preflight (tenant_id user_id : string) (request : PreflightRequest)
  : io (result PreflightResponse DocumentError) :=
  match preflight_checks request with
  | Err e => Ret (Err e)
  | Ok (filename, part_size, parts_total) =>
      let*? target := preflight_target tenant_id request in
      let document_id := fst target in
      let mode := snd target in
      let* upload_id := call IdUlid in
      let key := object_key tenant_id upload_id in
      let content_type := resolve_content_type (pf_content_type request) in
      let* r := call (BlBegin key content_type) in
      match r with
      | Err error => Ret (Err (internal "begin multipart" (blob_error_to_string error)))
      | Ok multipart_upload_id =>
          let* now := call ClNow in
          let state :=
            mkUpload tenant_id user_id upload_id document_id mode key multipart_upload_id
              filename content_type (pf_size request) part_size parts_total Uploading now now in
          let* r := call (UpCreate state) in
          match r with
          | Ok _ => Ret (Ok (mkPreflightResponse upload_id document_id key part_size parts_total))
          | Err error =>
              let* _ := unwind_preflight state in
              Ret (Err (from_context_error error))
          end
      end
  end.

(** [load_context] and [upload_state] *)
Definition load_context (tenant_id user_id upload_id : string)
  : io (result UploadState DocumentError) :=
  let*? o := load tenant_id user_id upload_id in
  Ret (ok_or o DNotFound).
Definition upload_state (tenant_id user_id upload_id : string)
  : io (result UploadState DocumentError) := load_context tenant_id user_id upload_id.

(** [list_parts] as the two endpoints use it *)
Definition list_or_gone (context : UploadState) : io (result (list UploadedPart) DocumentError) :=
  let* r := call (BlListParts (us_storage_key context) (us_multipart_upload_id context)) in
  match r with
  | Err error => Ret (Err (internal "list parts" (blob_error_to_string error)))
  | Ok None => Ret (Err DGone)
  | Ok (Some uploaded) => Ret (Ok uploaded)
  end.

(** The filter of [uploaded_parts] *)
Definition resumable (context : UploadState) (part : UploadedPart) : bool :=
  bool_decide (Some (up_size part) = expected_part_size context (up_part_number part)).

(** [uploaded_parts] *)
Definition uploaded_parts (tenant_id user_id upload_id : string)
  : io (result UploadedPartsResponse DocumentError) :=
  let*? context := load_context tenant_id user_id upload_id in
  let*? uploaded := list_or_gone context in
  Ret (Ok (mkUploadedParts (us_part_size_bytes context) (us_part_count context)
             (List.filter (resumable context) uploaded))).

(** [skip.contains(&part)] *)
Definition contains (l : list Z) (n : Z) : bool := existsb (Z.eqb n) l.

(** The loop of [presign_window] *)
Fixpoint presign_loop (context : UploadState) (numbers skip : list Z) (parts : list PresignedPart)
  : io (result (list PresignedPart) DocumentError) :=
  match numbers with
  | [] => Ret (Ok parts)
  | part_number :: numbers' =>
      if contains skip part_number then presign_loop context numbers' skip parts
      else
        let* r := call (BlPresign (us_storage_key context) (us_multipart_upload_id context)
                          part_number (po_part_url_ttl policy)) in
        match r with
        | Err error => Ret (Err (internal "presign part" (blob_error_to_string error)))
        | Ok part => presign_loop context numbers' skip (parts ++ [part])
        end
  end.

(** [presign_window] *)
Definition presign_window (context : UploadState) (first last : Z) (skip : list Z)
  : io (result (list PresignedPart) DocumentError) :=
  presign_loop context (range_inclusive first last) skip [].

(** Where [renew] starts, and what it skips. *)
Definition renew_from (context : UploadState) (from_part : option Z)
  : io (result (Z * list Z) DocumentError) :=
  match from_part with
  | Some from =>
      if (1 <=? from) && (from <=? us_part_count context) then Ret (Ok (from, []))
      else Ret (Err (DInvalid ("from_part must be between 1 and "
                                 +:+ show_uint (us_part_count context))))
  | None =>
      let*? uploaded := list_or_gone context in
      let already := up_part_number <$> uploaded in
      let first :=
        default (us_part_count context)
          (List.find (λ part, negb (contains already part))
             (range_inclusive 1 (us_part_count context))) in
      Ret (Ok (first, already))
  end.

(** Where [renew] ends. *)
Definition renew_last (context : UploadState) (first : Z) (count : option Z) : Z :=
  match count with
  | Some count =>
      Z.min (saturating_add u16_max first (Z.max count 1 - 1)) (us_part_count context)
  | None => us_part_count context
  end.

(** [renew] *)
Definition renew (tenant_id user_id upload_id : string) (request : RenewRequest)
  : io (result (list PresignedPart) DocumentError) :=
  let*? context := load_context tenant_id user_id upload_id in
  let*? window := renew_from context (rr_from_part request) in
  let first := fst window in
  presign_window context first (renew_last context first (rr_count request)) (snd window).

(** The command [complete] publishes. *)
Definition upload_completed (tenant_id user_id upload_id : string) (context : UploadState)
    (request : CompleteRequest) (ts : DateTime) : UploadCompleted :=
  mkCommand DOCUMENT_CONTRACT_VERSION (upload_completed_command_id tenant_id upload_id)
    tenant_id user_id upload_id (us_document_id context) (us_mode context)
    (us_storage_key context) (us_multipart_upload_id context) (us_filename context)
    (us_content_type context) (us_declared_size context) (cr_if_match request)
    (cr_on_conflict request) (cr_patch request) ts.

(** [complete] *)
Definition complete (tenant_id user_id upload_id : string) (request : CompleteRequest)
  : io (result unit DocumentError) :=
  match validate_metadata_patch (cr_patch request) with
  | Err e => Ret (Err (from_validation_error e))
  | Ok _ =>
      let*? context := load_context tenant_id user_id upload_id in
      if bool_decide (is_Some (cr_if_match request)) && bool_decide (us_mode context = Create)
      then Ret (Err (DInvalid "if_match is not valid for a new document"))
      else
        let* ts := call ClNow in
        let* r := call (QPublish (upload_completed tenant_id user_id upload_id context request ts)) in
        match r with
        | Err e => Ret (Err (from_queue_error e))
        | Ok _ =>
            let* now := call ClNow in
            let*? _ := set_status tenant_id user_id upload_id Scanning now in
            Ret (Ok tt)
        end
  end.

(** [get_document] *)
Definition get_document (tenant_id document_id : string)
  : io (result DocumentState DocumentError) :=
  let* r := call (RmGet tenant_id document_id) in
  match r with
  | Err e => Ret (Err (from_read_error e))
  | Ok o => Ret (ok_or o DNotFound)
  end.

(** The cursor of a page: only a full page has one. *)
Definition next_cursor (limit : Z) (items : list DocumentState) : option DocumentCursor :=
  if Z.of_nat (length items) =? limit
  then (λ document, mkCursor (ds_updated_at document) (ds_document_id document)) <$> last items
  else None.

(** [limit.clamp(1, MAX_LIST_LIMIT)] *)
Definition clamp_limit (limit : Z) : Z := Z.min MAX_LIST_LIMIT (Z.max 1 limit).

(** [list_documents] *)
Definition list_documents (tenant_id : string) (limit : Z) (after : option DocumentCursor)
  : io (result DocumentPage DocumentError) :=
  let limit := clamp_limit limit in
  let* r := call (RmList tenant_id limit after) in
  match r with
  | Err e => Ret (Err (from_read_error e))
  | Ok items => Ret (Ok (mkPage items (next_cursor limit items)))
  end.
End service.

(** ** Geometry of the parts *)

Lemma range_inclusive_snoc lo hi :
  lo ≤ hi + 1 → range_inclusive lo (hi + 1) = range_inclusive lo hi ++ [hi + 1].
Proof.
  intros H. unfold range_inclusive.
  replace (Z.to_nat (hi + 1 - lo + 1)) with (Z.to_nat (hi - lo + 1) + 1)%nat by lia.
  rewrite seq_app, fmap_app. simpl. do 2 f_equal. lia.
Qed.

Lemma elem_of_range lo hi n : n ∈ range_inclusive lo hi ↔ lo ≤ n ≤ hi.
Proof.
  unfold range_inclusive. rewrite list_elem_of_fmap. split.
  - intros (k & -> & Hk). apply elem_of_seq in Hk. lia.
  - intros H. exists (Z.to_nat (n - lo)). rewrite elem_of_seq. lia.
Qed.

Lemma omap_const {A B} (f : A → option B) (b : B) l :
  (∀ x, x ∈ l → f x = Some b) → omap f l = replicate (length l) b.
Proof.
  induction l as [|x l IH]; intros H; [done |]. simpl.
  rewrite (H x) by left. f_equal. apply IH. intros y Hy. apply H. by right.
Qed.

Lemma sum_replicate n (b : Z) : foldr Z.add 0 (replicate n b) = Z.of_nat n * b.
Proof.
  induction n as [|n IH]; [done |]. cbn [replicate foldr]. rewrite IH, Nat2Z.inj_succ. lia.
Qed.

Lemma foldr_add_app l1 l2 : foldr Z.add 0 (l1 ++ l2) = foldr Z.add 0 l1 + foldr Z.add 0 l2.
Proof. induction l1 as [|x l IH]; simpl; lia. Qed.

Definition expected_sizes (context : UploadState) : list Z :=
  omap (expected_part_size context) (range_inclusive 1 (us_part_count context)).

(** Fact: the part lengths a resumed upload is checked against are those of one
    exact slicing of the file: for a record whose geometry preflight computed,
    there is one length for each part number and none outside, every part is
    full but a last one that is shorter or equal and not empty, and together they
    are the declared size. *)
Theorem expected_sizes_cover context target :
  in_u64 (us_declared_size context) →
  part_size_bytes (us_declared_size context) target = Ok (us_part_size_bytes context) →
  part_count (us_declared_size context) (us_part_size_bytes context)
    = Ok (us_part_count context) →
  Z.of_nat (length (expected_sizes context)) = us_part_count context ∧
  foldr Z.add 0 (expected_sizes context) = us_declared_size context ∧
  Forall (λ s, 0 < s ≤ us_part_size_bytes context) (expected_sizes context) ∧
  (∀ n, 0 ≤ n → n ∉ range_inclusive 1 (us_part_count context) →
     expected_part_size context n = None).
Proof.
  intros Hsize Hp Hn.
  destruct (geometry_fits _ _ _ ltac:(apply Hsize) Hp) as (Hs0 & Hp0 & _).
  destruct (part_count_inv _ _ _ Hn) as (_ & _ & Hcount & Hmax).
  pose proof (div_ceil_bounds (us_declared_size context) (us_part_size_bytes context) Hp0)
    as [Hup Hlow].
  pose proof (div_ceil_pos (us_declared_size context) (us_part_size_bytes context) Hs0 Hp0).
  set (n := us_part_count context) in *. set (p := us_part_size_bytes context) in *.
  set (size := us_declared_size context) in *. rewrite <- Hcount in *.
  assert (expected_sizes context = replicate (Z.to_nat (n - 1)) p ++ [size - (n - 1) * p]) as Heq.
  { unfold expected_sizes. fold n. replace n with (n - 1 + 1) at 1 by lia.
    rewrite range_inclusive_snoc by lia. rewrite omap_app. f_equal.
    - rewrite (omap_const _ p).
      + f_equal. unfold range_inclusive. rewrite length_fmap, length_seq. lia.
      + intros k [Hk1 Hk2]%elem_of_range. unfold expected_part_size. fold n p.
        rewrite (proj2 (Z.eqb_neq k 0)), (proj2 (Z.ltb_ge n k)), (proj2 (Z.ltb_lt k n)) by lia.
        done.
    - replace (n - 1 + 1) with n by lia. simpl. unfold expected_part_size. fold n p size.
      rewrite (proj2 (Z.eqb_neq n 0)), !Z.ltb_irrefl by lia. simpl.
      unfold checked_mul, checked_sub. unfold_ints.
      rewrite (proj2 (Z.leb_le ((n - 1) * p) _)) by lia. simpl.
      rewrite (proj2 (Z.leb_le _ size)) by lia. done. }
  rewrite Heq, length_app, length_replicate, foldr_add_app, sum_replicate.
  cbn [length foldr].
  split_and!; [lia | rewrite Z2Nat.id by lia; lia | |].
  - apply Forall_app. split; [apply Forall_replicate; lia |]. repeat constructor; lia.
  - intros k Hk Hout. unfold expected_part_size. fold n.
    destruct (Z.eqb_spec k 0); [done |]. destruct (Z.ltb_spec n k); [done |].
    destruct Hout. apply elem_of_range. lia.
Qed.

(** ** Preflight, against any environment *)

Section traces.
Context {J : SerdeJson} (policy : UploadPolicy).

Definition is_abort (o : Obs) : bool :=
  match o with mkObs _ (BlAbort _ _) _ => true | _ => false end.

(** The multipart a call opened: its key and id. *)
Definition begin_of (o : Obs) : option (string * string) :=
  match o with
  | mkObs _ e r =>
      match e in PortE A return A → option (string * string) with
      | BlBegin key _ => λ r, match r with Ok mp => Some (key, mp) | Err _ => None end
      | _ => λ _, None
      end r
  end.

(** The record a call tried to create. *)
Definition create_of (o : Obs) : option UploadState :=
  match o with mkObs _ (UpCreate s) _ => Some s | _ => None end.

Definition begun (key mp : string) (tr : list Obs) : Prop :=
  ∃ o, o ∈ tr ∧ begin_of o = Some (key, mp).

(** The record a successful preflight wrote, as its response describes it. *)
Definition recorded_upload (tenant user : string) (request : PreflightRequest)
    (resp : PreflightResponse) (s : UploadState) : Prop :=
  us_tenant_id s = tenant ∧ us_owner_user_id s = user ∧
  us_upload_id s = pr_upload_id resp ∧ us_document_id s = pr_document_id resp ∧
  us_storage_key s = pr_key resp ∧ pr_key resp = object_key tenant (pr_upload_id resp) ∧
  us_declared_size s = pf_size request ∧ us_part_size_bytes s = pr_part_size_bytes resp ∧
  us_part_count s = pr_part_count resp ∧ us_status s = Uploading ∧
  us_mode s = (if pf_document_id request then Replace else Create).

(** The document named by a replace was in the log. *)
Definition target_exists (tenant : string) (request : PreflightRequest) (resp : PreflightResponse)
    (tr : list Obs) : Prop :=
  match pf_document_id request with
  | Some d => pr_document_id resp = d ∧ ∃ vq, mkObs _ (EvLast tenant d) (Ok (Some vq)) ∈ tr
  | None => mkObs _ IdUlid (pr_document_id resp) ∈ tr
  end.

Definition preflight_worth (tenant user : string) (request : PreflightRequest) (tr : list Obs)
    (r : result PreflightResponse DocumentError) : Prop :=
  match r with
  | Ok resp =>
      ∃ s,
        begun (us_storage_key s) (us_multipart_upload_id s) tr ∧
        mkObs _ (UpCreate s) (Ok tt) ∈ tr ∧
        recorded_upload tenant user request resp s ∧
        target_exists tenant request resp tr ∧
        Forall (λ o, is_abort o = false) tr
  | Err _ =>
      (∀ key mp, begun key mp tr → ∃ a, mkObs _ (BlAbort key mp) a ∈ tr) ∧
      (∀ o s, o ∈ tr → create_of o = Some s →
         ∃ a, mkObs _ (UpDelete (us_tenant_id s) (us_owner_user_id s) (us_upload_id s)) a ∈ tr)
  end.

Abbreviation psafe := (safe mkObs (λ _ _, True)).

Ltac step_any x := apply safe_call; intros x; split; [done |].

(** Nothing has been begun, recorded or aborted yet. *)
Definition untouched (o : Obs) : Prop :=
  begin_of o = None ∧ create_of o = None ∧ is_abort o = false.
Definition clean_start (tr : list Obs) : Prop := Forall untouched tr.

Lemma clean_start_snoc tr o : clean_start tr → untouched o → clean_start (tr ++ [o]).
Proof. intros ??. apply Forall_app. split; [done | by constructor]. Qed.

Lemma clean_start_fails tenant user request tr e :
  clean_start tr → preflight_worth tenant user request tr (Err e).
Proof.
  unfold clean_start. rewrite Forall_forall. intros Hc. split.
  - intros key mp (o & Ho & Hb). destruct (Hc o Ho) as [? _]. congruence.
  - intros o s Ho Hcr. destruct (Hc o Ho) as (_ & ? & _). congruence.
Qed.

Lemma preflight_target_safe tenant request past :
  clean_start past →
  psafe (preflight_target tenant request)
    (λ tr r, clean_start tr ∧
       match r with
       | Ok (d, mode) =>
           mode = (if pf_document_id request then Replace else Create) ∧
           match pf_document_id request with
           | Some d' => d = d' ∧ ∃ vq, mkObs _ (EvLast tenant d') (Ok (Some vq)) ∈ tr
           | None => mkObs _ IdUlid d ∈ tr
           end
       | Err _ => True
       end) past.
Proof.
  intros Hc. unfold preflight_target. destruct (pf_document_id request) as [d|].
  - apply safe_bind. step_any x.
    assert (clean_start (past ++ [mkObs _ (EvLast tenant d) x])) as Hc1
      by by apply clean_start_snoc.
    destruct x as [[vq|]|]; [| by repeat apply safe_ret..].
    step_any y. match goal with |- safe _ _ _ _ ?tr => assert (clean_start tr) as Hc2
      by by apply clean_start_snoc end.
    assert (∃ vq', mkObs _ (EvLast tenant d) (Ok (Some vq'))
       ∈ (past ++ [mkObs _ (EvLast tenant d) (Ok (Some vq))]) ++ [mkObs _ (RmGet tenant d) y]) as Hvq.
    { exists vq. apply elem_of_app. left. apply elem_of_snoc. }
    destruct y as [[doc|]|]; [case_bool_decide | |]; apply safe_ret; by apply safe_ret.
  - step_any x. apply safe_ret. split; [by apply clean_start_snoc |].
    split; [done | apply elem_of_snoc].
Qed.

Lemma unwind_safe s past :
  psafe (unwind_preflight s)
    (λ tr _, past `prefix_of` tr ∧
       ∃ d a, tr = (past ++ [mkObs _ (UpDelete (us_tenant_id s) (us_owner_user_id s)
                                        (us_upload_id s)) d])
                   ++ [mkObs _ (BlAbort (us_storage_key s) (us_multipart_upload_id s)) a]) past.
Proof.
  step_any d. step_any a. apply safe_ret. split; [| by exists d, a].
  rewrite <- (assoc_L app). by apply prefix_app_r.
Qed.

(** C24: a preflight that fails leaves no multipart behind: whatever failed and
    whenever, every multipart it opened it also aborted, and any record it tried
    to write it also deleted. One that succeeds opened one multipart on the key it
    answers, recorded exactly the geometry it answers under its caller, for a
    document that exists in the log or an id it just minted, and aborted nothing. *)
Theorem preflight_leaves_nothing_behind tenant user request tr r :
  exec mkObs (preflight policy tenant user request) tr r →
  preflight_worth tenant user request tr r.
Proof.
  intros Hx. apply (exec_safe mkObs (λ _ _, True) _ (preflight_worth tenant user request) [] tr r Hx).
  clear Hx. unfold preflight. assert (clean_start []) as Hc0 by constructor.
  destruct (preflight_checks policy request) as [[[filename part_size] total]|e];
    [| by apply safe_ret, clean_start_fails].
  eapply safe_bind_spec; [by apply preflight_target_safe |].
  intros past [[d mode]|e] _ [Hc Ht]; [| by apply safe_ret, clean_start_fails].
  destruct Ht as [Hmode Ht]. cbn [fst snd].
  step_any upload_id. set (past1 := past ++ _).
  assert (clean_start past1) as Hc1 by by apply clean_start_snoc.
  step_any b. set (past2 := past1 ++ _). destruct b as [mp|e].
  2: { apply safe_ret, clean_start_fails. by apply clean_start_snoc. }
  set (key := object_key tenant upload_id).
  step_any now. set (past3 := past2 ++ _). set (s := mkUpload _ _ _ _ _ _ _ _ _ _ _ _ _ _ _).
  step_any x. set (past4 := past3 ++ _). destruct x as [[]|e].
  - apply safe_ret. exists s. split_and!.
    + exists (mkObs _ (BlBegin key (resolve_content_type (pf_content_type request))) (Ok mp)).
      split; [| done]. unfold past4, past3, past2. rewrite !elem_of_app.
      do 2 left. right. by apply list_elem_of_singleton.
    + apply elem_of_snoc.
    + by split_and!.
    + unfold target_exists, past4, past3, past2, past1. destruct (pf_document_id request).
      * destruct Ht as [-> [vq Hvq]]. split; [done |]. exists vq. rewrite !elem_of_app. by do 4 left.
      * rewrite !elem_of_app. by do 4 left.
    + unfold past4, past3, past2. rewrite !Forall_app. split_and!; [| by repeat constructor..].
      eapply Forall_impl; [apply Hc1 |]. by intros o (_ & _ & ?).
  - eapply safe_bind_spec; [apply unwind_safe |].
    intros past5 [] _ (Hpre & del & ab & ->). apply safe_ret.
    unfold clean_start in Hc1. rewrite Forall_forall in Hc1.
    assert (∀ o, o ∈ (past4 ++ [mkObs _ (UpDelete tenant user upload_id) del])
                 ++ [mkObs _ (BlAbort key mp) ab] →
              (begin_of o = None ∨ begin_of o = Some (key, mp)) ∧
              (create_of o = None ∨ create_of o = Some s)) as Hall.
    { intros o. unfold past4, past3, past2. rewrite !elem_of_app, !list_elem_of_singleton.
      intros [[[[[Ho | ->] | ->] | ->] | ->] | ->]; simpl; try auto.
      destruct (Hc1 o Ho) as (? & ? & _). auto. }
    split.
    + intros key' mp' (o & Ho & Hb). destruct (Hall o Ho) as [[? | Heq] _]; [congruence |].
      rewrite Heq in Hb. simplify_eq. exists ab. apply elem_of_snoc.
    + intros o s' Ho Hcr. destruct (Hall o Ho) as [_ [? | Heq]]; [congruence |].
      rewrite Heq in Hcr. simplify_eq. exists del. apply elem_of_app. left. apply elem_of_snoc.
Qed.

(** ** [/complete], against any environment *)

(** The caller's own record, as storage answered it. *)
Definition own_record (tenant user upload_id : string) (context : UploadState) (tr : list Obs)
  : Prop :=
  us_tenant_id context = tenant ∧ us_owner_user_id context = user ∧
  ∃ rev, mkObs _ (UpGet tenant user upload_id) (Ok (Some (mkStored context rev))) ∈ tr.

Definition publish_of (o : Obs) : option UploadCompleted :=
  match o with
  | mkObs _ e r =>
      match e in PortE A return A → option UploadCompleted with
      | QPublish cmd => λ r, if is_ok r then Some cmd else None
      | _ => λ _, None
      end r
  end.

Section completing.
Context (tenant user upload_id : string) (request : CompleteRequest).

Definition publishable (cmd : UploadCompleted) (before : list Obs) : Prop :=
  valid_patch (cr_patch request) ∧
  ∃ context ts, own_record tenant user upload_id context before ∧
    (us_mode context = Create → cr_if_match request = None) ∧
    cmd = upload_completed tenant user upload_id context request ts.

Definition published (before : list Obs) : Prop :=
  ∃ o cmd, o ∈ before ∧ publish_of o = Some cmd.

(** When [/complete] may make a call. *)
Definition complete_ok (before : list Obs) (o : Obs) : Prop :=
  match o with
  | mkObs _ (QPublish cmd) _ => publishable cmd before
  | mkObs _ (UpUpdate s _) _ => us_status s = Scanning ∧ published before
  | mkObs _ (UpGet _ _ _) _ | mkObs _ ClNow _ => True
  | _ => False
  end.

Abbreviation csafe := (safe mkObs complete_ok).

Lemma load_context_safe past :
  csafe (load_context tenant user upload_id)
    (λ tr r, past `prefix_of` tr ∧
       match r with Ok context => own_record tenant user upload_id context tr | Err _ => True end)
    past.
Proof.
  unfold load_context, load. apply safe_bind, safe_call. intros x. split; [done |].
  assert (past `prefix_of` past ++ [mkObs _ (UpGet tenant user upload_id) x]) as Hp
    by by apply prefix_app_r.
  destruct x as [[stored|]|]; [| by repeat apply safe_ret ..].
  destruct (bool_decide _ || bool_decide _) eqn:Hown; [by repeat apply safe_ret |].
  destruct_bools. apply safe_ret, safe_ret. split; [done |]. cbn [ok_or].
  unfold own_record. split_and!; [by apply dec_stable.. |].
  exists (su_revision stored). destruct stored. apply elem_of_snoc.
Qed.

Lemma set_status_scanning_safe now past :
  published past → csafe (set_status tenant user upload_id Scanning now) (λ _ _, True) past.
Proof.
  unfold set_status. generalize CAS_ATTEMPTS as n. intros n. revert past.
  assert (∀ past o, published past → published (past ++ [o])) as Hgrow.
  { intros past o (o' & cmd & Ho & Hc). exists o', cmd. split; [| done].
    apply elem_of_app. by left. }
  induction n as [|n IH]; intros past Hpub; [by apply safe_ret |].
  cbn [set_status_loop]. apply safe_call. intros x. split; [done |].
  destruct x as [[stored|]|]; [| by apply safe_ret..].
  destruct (is_terminal _); [by apply safe_ret |].
  apply safe_call. intros x. split; [split; [done | by apply Hgrow] |].
  destruct x as [rev|[]]; try by apply safe_ret. by apply IH, Hgrow, Hgrow.
Qed.

(** Fact: [/complete] publishes at most what the caller's own record says: the
    patch passed validation, no [if_match] on a create, and every parameter of
    the command is the record's, read under the caller's key. The record is
    marked scanning only after the work item was published, and nothing else is
    touched: no event, no object, no other record. An answer of success means the
    item was published. *)
Theorem complete_publishes_own_record tr r :
  exec mkObs (complete tenant user upload_id request) tr r →
  (∀ tr1 o tr2, tr = tr1 ++ o :: tr2 → complete_ok tr1 o) ∧ (r = Ok tt → published tr).
Proof.
  intros Hx. eapply (exec_safe mkObs complete_ok _ (λ tr r, r = Ok tt → published tr) [] tr r Hx).
  clear Hx. unfold complete.
  destruct (validate_metadata_patch (cr_patch request)) as [[]|e] eqn:Hval; [| by apply safe_ret].
  apply validate_metadata_patch_spec in Hval.
  eapply safe_bind_spec; [apply load_context_safe |].
  intros past [context|e] _ [_ Hown]; [| by apply safe_ret].
  destruct (bool_decide _ && bool_decide _) eqn:Hmode; [by apply safe_ret |].
  apply safe_call. intros ts. split; [done |].
  apply safe_call. intros x. split.
  { split; [done |]. exists context, ts. split_and!; [| | done].
    - destruct Hown as (? & ? & rev & Hrev). split_and!; [done.. |]. exists rev.
      apply elem_of_app. by left.
    - intros Hc. destruct (cr_if_match request) eqn:Him; [| done].
      rewrite !bool_decide_eq_true_2 in Hmode by done. done. }
  destruct x as [[]|e]; [| by apply safe_ret].
  match goal with |- safe _ _ _ _ ?tr => assert (published tr) as Hpub end.
  { eexists _, _. split; [apply elem_of_snoc | done]. }
  apply safe_call. intros now. split; [done |].
  assert (∀ past o, published past → published (past ++ [o])) as Hgrow.
  { intros past' o (o' & cmd & Ho & Hc). exists o', cmd. split; [| done].
    apply elem_of_app. by left. }
  eapply safe_bind_spec; [by apply set_status_scanning_safe, Hgrow |].
  intros past' [t|e] Hp _; [| by apply safe_ret]. apply safe_ret. intros _.
  destruct (Hgrow _ (mkObs _ ClNow now) Hpub) as (o & cmd & Ho & Hc).
  exists o, cmd. split; [by eapply elem_of_prefix | done].
Qed.
End completing.

(** ** Signing and resuming, against any environment *)

(** The part a call signed: key, multipart, part number, lifetime. *)
Definition presign_of (o : Obs) : option (string * string * Z * Z) :=
  match o with
  | mkObs _ (BlPresign key upload part ttl) _ => Some (key, upload, part, ttl)
  | _ => None
  end.

Definition signed (tr : list Obs) : list (string * string * Z * Z) := omap presign_of tr.

Definition signs (context : UploadState) (n : Z) : string * string * Z * Z :=
  (us_storage_key context, us_multipart_upload_id context, n, po_part_url_ttl policy).

Abbreviation rsafe := (safe mkObs (λ _ _, True)).

Lemma signed_snoc tr o :
  signed (tr ++ [o]) = signed tr ++ match presign_of o with Some p => [p] | None => [] end.
Proof. unfold signed. by rewrite omap_app. Qed.

Lemma presign_loop_safe context numbers skip parts past :
  rsafe (presign_loop policy context numbers skip parts)
    (λ tr r, past `prefix_of` tr ∧ match r with
       | Ok _ => signed tr = signed past ++
           (signs context <$> List.filter (λ n, negb (contains skip n)) numbers)
       | Err _ => True end) past.
Proof.
  revert parts past. induction numbers as [|n numbers IH]; intros parts past.
  { apply safe_ret. split; [done |]. simpl. by rewrite app_nil_r. }
  cbn [presign_loop List.filter]. destruct (contains skip n) eqn:Hs; cbn [negb]; [apply IH |].
  apply safe_call. intros x. split; [done |].
  set (o := mkObs _ _ x). assert (past `prefix_of` past ++ [o]) as Hp by by apply prefix_app_r.
  destruct x as [part|e]; [| by apply safe_ret].
  eapply safe_mono; [apply IH |]. intros tr r _ [Hp' Hr]. split; [by etrans |].
  destruct r; [| done]. rewrite Hr, signed_snoc. cbn. by rewrite <- (assoc_L app).
Qed.

(** What [load_context] tells, without the checks of [complete]. *)
Lemma load_context_any tenant user upload_id past :
  rsafe (load_context tenant user upload_id)
    (λ tr r, signed tr = signed past ∧
       match r with Ok context => own_record tenant user upload_id context tr | Err _ => True end)
    past.
Proof.
  unfold load_context, load. apply safe_bind, safe_call. intros x. split; [done |].
  assert (signed (past ++ [mkObs _ (UpGet tenant user upload_id) x]) = signed past) as Hp.
  { rewrite signed_snoc. simpl. apply app_nil_r. }
  destruct x as [[stored|]|]; [| by repeat apply safe_ret ..].
  destruct (bool_decide _ || bool_decide _) eqn:Hown; [by repeat apply safe_ret |].
  destruct_bools. apply safe_ret, safe_ret. split; [done |]. cbn [ok_or].
  unfold own_record. split_and!; [by apply dec_stable.. |].
  exists (su_revision stored). destruct stored. apply elem_of_snoc.
Qed.

(** Where a signed window may start. *)
Definition window_start (context : UploadState) (from_part : option Z) (first : Z)
    (skip : list Z) (tr : list Obs) : Prop :=
  match from_part with
  | Some from => first = from ∧ skip = [] ∧ 1 ≤ first ≤ us_part_count context
  | None =>
      ∃ uploaded,
        mkObs _ (BlListParts (us_storage_key context) (us_multipart_upload_id context))
          (Ok (Some uploaded)) ∈ tr ∧
        skip = up_part_number <$> uploaded ∧
        ∀ n, 1 ≤ n ≤ us_part_count context → n < first → n ∈ skip
  end.

Lemma contains_spec l n : contains l n = true ↔ n ∈ l.
Proof.
  unfold contains. rewrite existsb_exists. split.
  - intros (x & Hx & ->%Z.eqb_eq). by apply list_elem_of_In.
  - intros Hn. exists n. split; [by apply list_elem_of_In | apply Z.eqb_refl].
Qed.

(** [find] over a range stops at the first hit. *)
Lemma find_range_first f lo hi first :
  default hi (List.find f (range_inclusive lo hi)) = first →
  ∀ n, lo ≤ n ≤ hi → n < first → f n = false.
Proof.
  intros <- n Hn Hlt. destruct (List.find f _) as [m|] eqn:Hf; simpl in Hlt.
  - apply List.find_some in Hf as Hm. destruct Hm as [_ Hm].
    revert Hf Hlt Hn. unfold range_inclusive. generalize (Z.to_nat (hi - lo + 1)) as k.
    assert (∀ k j, List.find f ((λ n, lo + Z.of_nat n) <$> seq j k) = Some m →
              lo + Z.of_nat j ≤ n → n < m → f n = false) as Hgen.
    { induction k as [|k IH]; intros j; [done |]. simpl.
      destruct (f (lo + Z.of_nat j)) eqn:Hj; [intros [= ->]; lia |].
      intros Hf Hjn Hnm. destruct (decide (n = lo + Z.of_nat j)) as [-> | Hne]; [done |].
      apply (IH (S j)); [done | lia | done]. }
    intros k Hf Hlt Hn. apply (Hgen k 0%nat Hf); lia.
  - eapply List.find_none in Hf; [done |]. apply list_elem_of_In, elem_of_range. lia.
Qed.

Lemma renew_from_safe context from_part past :
  rsafe (renew_from context from_part)
    (λ tr r, signed tr = signed past ∧ past `prefix_of` tr ∧
       match r with
       | Ok (first, skip) => window_start context from_part first skip tr
       | Err _ => True
       end) past.
Proof.
  unfold renew_from. destruct from_part as [from|].
  - case_match; [| by apply safe_ret]. destruct_bools. apply safe_ret.
    by split_and!.
  - unfold list_or_gone. apply safe_bind, safe_call. intros x. split; [done |].
    set (past1 := past ++ _).
    assert (signed past1 = signed past) as Hs
      by (unfold past1; rewrite signed_snoc; simpl; apply app_nil_r).
    assert (past `prefix_of` past1) as Hp by by apply prefix_app_r.
    destruct x as [[uploaded|]|e]; [| by repeat apply safe_ret..].
    apply safe_ret, safe_ret. split_and!; [done | done |].
    exists uploaded. split_and!; [apply elem_of_snoc | done |].
    intros n Hn Hlt. apply contains_spec, negb_false_iff.
    by apply (find_range_first (λ part, negb (contains (up_part_number <$> uploaded) part))
                1 (us_part_count context) _ eq_refl).
Qed.

Lemma renew_last_le context first count :
  renew_last context first count ≤ us_part_count context.
Proof. unfold renew_last. destruct count; lia. Qed.

(** Fact: a successful signing request signs exactly one window of the upload the
    caller owns: its own key and multipart, at the policy's lifetime, in order,
    from where it starts to where its count ends and never past the last part.
    Named parts are signed even if they are stored; without a start, the stored
    parts are skipped and every part before the window is stored already. *)
Theorem renew_signs_window tenant user upload_id request tr parts :
  exec mkObs (renew policy tenant user upload_id request) tr (Ok parts) →
  ∃ context first skip,
    own_record tenant user upload_id context tr ∧
    window_start context (rr_from_part request) first skip tr ∧
    signed tr = signs context <$>
      List.filter (λ n, negb (contains skip n))
        (range_inclusive first (renew_last context first (rr_count request))) ∧
    renew_last context first (rr_count request) ≤ us_part_count context.
Proof.
  intros Hx.
  set (Q := λ (tr : list Obs) (r : result (list PresignedPart) DocumentError),
    match r with Err _ => True | Ok _ => ∃ context first skip,
    own_record tenant user upload_id context tr ∧
    window_start context (rr_from_part request) first skip tr ∧
    signed tr = signs context <$>
      List.filter (λ n, negb (contains skip n))
        (range_inclusive first (renew_last context first (rr_count request))) ∧
    renew_last context first (rr_count request) ≤ us_part_count context end).
  apply (exec_safe mkObs (λ _ _, True) _ Q [] tr (Ok parts) Hx). clear Hx. unfold renew.
  eapply safe_bind_spec; [apply load_context_any |].
  intros past1 [context|e] _ [Hs1 Hown]; [| by apply safe_ret].
  eapply safe_bind_spec; [apply renew_from_safe |].
  intros past2 [[first skip]|e] _ (Hs2 & Hp2 & Hw); [| by apply safe_ret]. cbn [fst snd].
  unfold presign_window. eapply safe_mono; [apply presign_loop_safe |].
  intros past3 r _ [Hp3 Hr]. destruct r as [parts'|]; [| done].
  exists context, first, skip. split_and!.
  - destruct Hown as (? & ? & rev & Hrev). split_and!; [done.. |]. exists rev.
    eapply elem_of_prefix; [| done]. by eapply elem_of_prefix.
  - unfold window_start in *. destruct (rr_from_part request); [done |].
    destruct Hw as (up & Hin & Hw). exists up. split; [by eapply elem_of_prefix | done].
  - rewrite Hr, Hs2, Hs1. done.
  - apply renew_last_le.
Qed.
End traces.

(** ** The API and the workers, interleaved *)

Section together.
Context {J : SerdeJson} {X : Hex} {S2 : Sha2} (policy : UploadPolicy).

(** A delivery of a work item, or a request of a client. *)
Inductive Task : Type :=
| TWork (command : UploadCompleted) (final_delivery : bool)
| TComplete (tenant user upload_id : string) (request : CompleteRequest)
| TRenew (tenant user upload_id : string) (request : RenewRequest)
| TParts (tenant user upload_id : string)
| TState (tenant user upload_id : string)
| TDocument (tenant document_id : string)
| TList (tenant : string) (limit : Z) (after : option DocumentCursor).

Definition run_task (t : Task) : prog PortE unit :=
  match t with
  | TWork command final => let* _ := finish command final in Ret tt
  | TComplete t u i request => let* _ := complete t u i request in Ret tt
  | TRenew t u i request => let* _ := renew policy t u i request in Ret tt
  | TParts t u i => let* _ := uploaded_parts t u i in Ret tt
  | TState t u i => let* _ := upload_state t u i in Ret tt
  | TDocument t d => let* _ := get_document t d in Ret tt
  | TList t limit after => let* _ := list_documents t limit after in Ret tt
  end.

Abbreviation sysrg := (rg mem_step sys_guarantee).
Abbreviation keeps p := (sysrg p sys_inv (λ _, sys_inv)).

Lemma keeps_bind {A B} (p : prog PortE A) (f : A → prog PortE B) :
  keeps p → (∀ a, keeps (f a)) → keeps (prog_bind p f).
Proof. apply rg_bind. Qed.

Lemma keeps_quiet {A B} (e : PortE A) (f : A → prog PortE B) :
  quiet e = true → (∀ x, keeps (f x)) → keeps (prog_bind (call e) f).
Proof. intros. by apply rg_quiet; [| apply sys_inv_stable |]. Qed.

Lemma load_context_keeps t u i : keeps (load_context t u i).
Proof.
  apply keeps_bind; [apply load_rg |]. intros [o|]; sys_ret.
Qed.

Lemma list_or_gone_keeps context : keeps (list_or_gone context).
Proof. apply keeps_quiet; [done |]. intros [[l|]|]; sys_ret. Qed.

Lemma complete_keeps t u i request : keeps (complete t u i request).
Proof.
  unfold complete. destruct (validate_metadata_patch _); [| sys_ret].
  apply keeps_bind; [apply load_context_keeps |]. intros [context|]; [| sys_ret].
  destruct (_ && _); [sys_ret |].
  apply keeps_quiet; [done |]. intros ts. apply keeps_quiet; [done |]. intros [|]; [| sys_ret].
  apply keeps_quiet; [done |]. intros now.
  apply keeps_bind; [apply set_status_rg |]. intros [|]; sys_ret.
Qed.

Lemma presign_loop_keeps context numbers skip parts :
  keeps (presign_loop policy context numbers skip parts).
Proof.
  revert parts. induction numbers as [|n numbers IH]; intros parts; [sys_ret |].
  cbn [presign_loop]. destruct (contains skip n); [apply IH |].
  apply keeps_quiet; [done |]. intros [part|]; [apply IH | sys_ret].
Qed.

Lemma renew_keeps t u i request : keeps (renew policy t u i request).
Proof.
  apply keeps_bind; [apply load_context_keeps |]. intros [context|]; [| sys_ret].
  apply keeps_bind; [| intros [w|]; [apply presign_loop_keeps | sys_ret]].
  unfold renew_from. destruct (rr_from_part request); [case_match; sys_ret |].
  apply keeps_bind; [apply list_or_gone_keeps |]. intros [l|]; sys_ret.
Qed.

Lemma run_task_keeps t : keeps (run_task t).
Proof.
  destruct t; apply keeps_bind; try (intros a; sys_ret).
  - apply finish_rg.
  - apply complete_keeps.
  - apply renew_keeps.
  - apply keeps_bind; [apply load_context_keeps |]. intros [context|]; [| sys_ret].
    apply keeps_bind; [apply list_or_gone_keeps |]. intros [l|]; sys_ret.
  - apply load_context_keeps.
  - apply keeps_quiet; [done |]. intros [o|]; sys_ret.
  - apply keeps_quiet; [done |]. intros [o|]; sys_ret.
Qed.

End together.

(** ** Witnesses *)

#[local] Existing Instances Demo.json Demo.hex Demo.sha2.

Module ServiceDemo.
Definition policy : UploadPolicy := mkPolicy 300000000000 8589934592 20971520.
Definition request : PreflightRequest :=
  mkPreflight None " report.pdf " 52428800 (Some "application/pdf").
Definition response : PreflightResponse :=
  mkPreflightResponse "id-0002" "id-0001" "tenants/acme/blobs/id-0002/original" 20971520 3.

Definition preflight_trace : list Obs :=
  run_trace mkObs mem (preflight policy "acme" "user-1" request) MemoryDemo.empty.
Lemma preflight_exec :
  exec mkObs (preflight policy "acme" "user-1" request) preflight_trace (Ok response).
Proof.
  assert (Ok response = (run mem (preflight policy "acme" "user-1" request) MemoryDemo.empty).2)
    as -> by (vm_compute; reflexivity).
  exact (run_trace_exec mkObs mem (preflight policy "acme" "user-1" request) MemoryDemo.empty).
Qed.

(** The world after it. *)
Definition uploading : World :=
  (run mem (preflight policy "acme" "user-1" request) MemoryDemo.empty).1.

Definition context : UploadState :=
  mkUpload "acme" "user-1" "id-0002" "id-0001" Create "tenants/acme/blobs/id-0002/original" "mp-1"
    "report.pdf" "application/pdf" 52428800 20971520 3 Uploading (fixed_time 0) (fixed_time 0).

Definition completing : CompleteRequest := mkComplete None Supersede default_patch.
Definition complete_trace : list Obs :=
  run_trace mkObs mem (complete "acme" "user-1" "id-0002" completing) uploading.
Lemma complete_exec :
  exec mkObs (complete "acme" "user-1" "id-0002" completing) complete_trace (Ok tt).
Proof.
  assert (Ok tt = (run mem (complete "acme" "user-1" "id-0002" completing) uploading).2)
    as -> by (vm_compute; reflexivity).
  exact (run_trace_exec mkObs mem (complete "acme" "user-1" "id-0002" completing) uploading).
Qed.

Definition renewing : RenewRequest := mkRenew (Some 2) None.
Definition renew_trace : list Obs :=
  run_trace mkObs mem (renew policy "acme" "user-1" "id-0002" renewing) uploading.
Definition renewed : list PresignedPart :=
  match (run mem (renew policy "acme" "user-1" "id-0002" renewing) uploading).2 with
  | Ok parts => parts
  | Err _ => []
  end.
Lemma renew_exec :
  exec mkObs (renew policy "acme" "user-1" "id-0002" renewing) renew_trace (Ok renewed).
Proof.
  assert (Ok renewed = (run mem (renew policy "acme" "user-1" "id-0002" renewing) uploading).2)
    as -> by (vm_compute; reflexivity).
  exact (run_trace_exec mkObs mem (renew policy "acme" "user-1" "id-0002" renewing) uploading).
Qed.
End ServiceDemo.

Lemma expected_sizes_cover_witness :
  Z.of_nat (length (expected_sizes ServiceDemo.context)) = 3 ∧
  foldr Z.add 0 (expected_sizes ServiceDemo.context) = 52428800 ∧
  Forall (λ s, 0 < s ≤ 20971520) (expected_sizes ServiceDemo.context) ∧
  (∀ n, 0 ≤ n → n ∉ range_inclusive 1 3 → expected_part_size ServiceDemo.context n = None).
Proof.
  apply (expected_sizes_cover ServiceDemo.context 20971520);
    [vm_compute; split; discriminate | vm_compute; reflexivity..].
Defined.

Lemma preflight_leaves_nothing_behind_witness :
  preflight_worth "acme" "user-1" ServiceDemo.request ServiceDemo.preflight_trace
    (Ok ServiceDemo.response).
Proof.
  apply (preflight_leaves_nothing_behind ServiceDemo.policy), ServiceDemo.preflight_exec.
Defined.

Lemma complete_publishes_own_record_witness :
  (∀ tr1 o tr2, ServiceDemo.complete_trace = tr1 ++ o :: tr2 →
     complete_ok "acme" "user-1" "id-0002" ServiceDemo.completing tr1 o) ∧
  ((Ok tt : result unit DocumentError) = Ok tt → published ServiceDemo.complete_trace).
Proof.
  apply (complete_publishes_own_record "acme" "user-1" "id-0002" ServiceDemo.completing
           ServiceDemo.complete_trace (Ok tt)), ServiceDemo.complete_exec.
Defined.

Lemma renew_signs_window_witness :
  ∃ context first skip,
    own_record "acme" "user-1" "id-0002" context ServiceDemo.renew_trace ∧
    window_start context (Some 2) first skip ServiceDemo.renew_trace ∧
    signed ServiceDemo.renew_trace = signs ServiceDemo.policy context <$>
      List.filter (λ n, negb (contains skip n))
        (range_inclusive first (renew_last context first None)) ∧
    renew_last context first None ≤ us_part_count context.
Proof.
  apply (renew_signs_window ServiceDemo.policy "acme" "user-1" "id-0002" ServiceDemo.renewing
           ServiceDemo.renew_trace ServiceDemo.renewed), ServiceDemo.renew_exec.
Defined.

