(* ===== verification/Listing.v ===== *)
(** * The document listing (service.rs list_documents over testing.rs list)

    Keyset pagination on [(updated_at, document_id)], newest first.  The theorem
    is what a paging client relies on: following the cursors visits every document
    of the tenant exactly once, in order, whatever the page size. *)

From S2P Require Import Prelude Text Events Fold Geometry Validation Keys Ports Memory.
From S2P Require Import Append Transition System Worker Service.

Local Open Scope Z_scope.

(** ** The order of the key *)

Lemma ascii_compare_lt_trans a b c :
  Ascii.compare a b = Lt → Ascii.compare b c = Lt → Ascii.compare a c = Lt.
Proof. unfold Ascii.compare. rewrite !N.compare_lt_iff. lia. Qed.

Lemma string_ltb_irrefl s : String.ltb s s = false.
Proof.
  unfold String.ltb. induction s as [|a s IH]; [done |]. cbn [String.compare].
  assert (Ascii.compare a a = Eq) as -> by (apply N.compare_refl). done.
Qed.

Lemma string_compare_lt_trans s t u :
  String.compare s t = Lt → String.compare t u = Lt → String.compare s u = Lt.
Proof.
  revert t u. induction s as [|a s IH]; intros [|b t] [|c u]; try done. cbn [String.compare].
  destruct (Ascii.compare a b) eqn:Hab, (Ascii.compare b c) eqn:Hbc; try done.
  - apply Ascii.compare_eq_iff in Hab as ->, Hbc as ->.
    assert (Ascii.compare c c = Eq) as -> by (apply N.compare_refl). apply IH.
  - apply Ascii.compare_eq_iff in Hab as ->. by rewrite Hbc.
  - apply Ascii.compare_eq_iff in Hbc as ->. by rewrite Hab.
  - by rewrite (ascii_compare_lt_trans _ _ _ Hab Hbc).
Qed.

Lemma string_ltb_lt s t : String.ltb s t = true ↔ String.compare s t = Lt.
Proof. unfold String.ltb. by destruct (String.compare s t). Qed.

Lemma string_trichotomy s t : String.ltb s t = true ∨ s = t ∨ String.ltb t s = true.
Proof.
  rewrite !string_ltb_lt. destruct (String.compare s t) eqn:H.
  - right; left. by apply String.compare_eq_iff.
  - by left.
  - right; right. rewrite String.compare_antisym. by rewrite H.
Qed.

Lemma key_lt_spec a b :
  key_lt a b = true ↔ a.1 < b.1 ∨ (a.1 = b.1 ∧ String.ltb a.2 b.2 = true).
Proof. unfold key_lt. rewrite orb_true_iff, andb_true_iff, Z.ltb_lt, Z.eqb_eq. done. Qed.

Lemma key_lt_irrefl a : key_lt a a = false.
Proof. unfold key_lt. by rewrite Z.ltb_irrefl, string_ltb_irrefl, andb_false_r. Qed.

Lemma key_lt_trans a b c : key_lt a b = true → key_lt b c = true → key_lt a c = true.
Proof.
  rewrite !key_lt_spec, !string_ltb_lt.
  intros [?|[? Hab]] [?|[? Hbc]]; try (left; lia).
  right. split; [lia | by eapply string_compare_lt_trans].
Qed.

Lemma key_lt_total a b : key_lt a b = true ∨ a = b ∨ key_lt b a = true.
Proof.
  rewrite !key_lt_spec. destruct a as [x s], b as [y t]; simpl.
  destruct (Z.lt_trichotomy x y) as [? | [-> | ?]]; [by auto | | by auto].
  destruct (string_trichotomy s t) as [? | [-> | ?]]; auto.
Qed.

Section listing.
Context {J : SerdeJson}.

(** [x] is listed before [y]. *)
Definition newer (x y : DocumentState) : Prop := key_lt (row_key y) (row_key x) = true.

Abbreviation newest_first := (StronglySorted newer).

#[export] Instance newer_antisymm : AntiSymm (=) newer.
Proof.
  intros x y Hxy Hyx. pose proof (key_lt_trans _ _ _ Hxy Hyx) as H.
  by rewrite key_lt_irrefl in H.
Qed.

Lemma insert_row_perm d l : insert_row d l ≡ₚ d :: l.
Proof.
  induction l as [|x l IH]; [done |]. simpl. case_match; [| done].
  rewrite IH. apply perm_swap.
Qed.

Lemma sort_rows_perm l : sort_rows l ≡ₚ l.
Proof. induction l as [|x l IH]; [done |]. simpl. by rewrite insert_row_perm, IH. Qed.

Lemma insert_row_sorted d l :
  newest_first l → row_key d ∉ row_key <$> l → newest_first (insert_row d l).
Proof.
  induction 1 as [|x l Hl IH Hx]; intros Hd; simpl; [by repeat constructor |].
  rewrite fmap_cons, not_elem_of_cons in Hd. destruct Hd as [Hne Hd].
  destruct (key_lt (row_key d) (row_key x)) eqn:Hlt.
  - constructor; [by apply IH |]. apply Forall_forall. intros y.
    rewrite insert_row_perm, elem_of_cons. intros [-> | Hy]; [done |].
    rewrite Forall_forall in Hx. by apply Hx.
  - destruct (key_lt_total (row_key d) (row_key x)) as [? | [? | Hxd]]; [congruence.. |].
    constructor; [by constructor |]. constructor; [done |].
    eapply Forall_impl; [done |]. intros y Hy. unfold newer in *. by eapply key_lt_trans.
Qed.

Lemma sort_rows_sorted l : NoDup (row_key <$> l) → newest_first (sort_rows l).
Proof.
  induction l as [|x l IH]; [constructor |]. rewrite fmap_cons, NoDup_cons. intros [Hx Hl].
  apply insert_row_sorted; [by apply IH |].
  by rewrite (fmap_Permutation row_key _ _ (sort_rows_perm l)).
Qed.

Lemma filter_sorted (f : DocumentState → bool) l : newest_first l → newest_first (List.filter f l).
Proof.
  induction 1 as [|x l Hl IH Hx]; simpl; [constructor |]. destruct (f x); [| done].
  constructor; [done |]. rewrite Forall_forall in Hx |- *. intros y Hy.
  apply Hx. rewrite list_elem_of_In in Hy |- *. by apply filter_In in Hy as [? _].
Qed.

Lemma filter_perm (f : DocumentState → bool) l l' : l ≡ₚ l' → List.filter f l ≡ₚ List.filter f l'.
Proof.
  induction 1 as [|x l l' _ IH|x y l|]; simpl; [done | | | by etrans].
  - destruct (f x); [by f_equiv | done].
  - destruct (f x), (f y); [apply perm_swap | done..].
Qed.

Lemma NoDup_fmap_filter {B} (g : DocumentState → B) f l :
  NoDup (g <$> l) → NoDup (g <$> List.filter f l).
Proof.
  induction l as [|x l IH]; simpl; [done |]. rewrite NoDup_cons. intros [Hx Hl].
  destruct (f x); [| by apply IH]. rewrite fmap_cons, NoDup_cons. split; [| by apply IH].
  rewrite list_elem_of_fmap in Hx |- *. intros (y & Hy & Hin). apply Hx. exists y.
  split; [done |]. rewrite list_elem_of_In in Hin |- *. by apply filter_In in Hin as [? _].
Qed.

(** Filtering before or after sorting is the same. *)
Lemma sort_filter f l :
  NoDup (row_key <$> l) → sort_rows (List.filter f l) = List.filter f (sort_rows l).
Proof.
  intros Hnd. apply (StronglySorted_unique newer).
  - by apply sort_rows_sorted, NoDup_fmap_filter.
  - by apply filter_sorted, sort_rows_sorted.
  - rewrite sort_rows_perm. apply filter_perm. by rewrite sort_rows_perm.
Qed.

(** The rows after a cursor are those listed after its row. *)
Lemma filter_after pre d post :
  newest_first (pre ++ d :: post) →
  List.filter (λ x, key_lt (row_key x) (row_key d)) (pre ++ d :: post) = post.
Proof.
  intros Hs. rewrite List.filter_app. simpl. rewrite key_lt_irrefl.
  assert (∀ x, x ∈ pre → newer x d) as Hpre.
  { intros x Hx. induction pre as [|y pre IH]; [by apply elem_of_nil in Hx |].
    simpl in Hs. inversion Hs as [|? ? Hs' Hall]; subst.
    apply elem_of_cons in Hx as [-> | Hx]; [| by apply IH].
    rewrite Forall_forall in Hall. apply Hall, elem_of_app. right. left. }
  assert (∀ x, x ∈ post → newer d x) as Hpost.
  { clear Hpre. induction pre as [|y pre IH]; simpl in Hs.
    - inversion Hs as [|? ? _ Hall]; subst. by rewrite Forall_forall in Hall.
    - inversion Hs; subst. by apply IH. }
  assert (List.filter (λ x, key_lt (row_key x) (row_key d)) pre = []) as ->.
  { clear -Hpre. induction pre as [|y pre IH]; [done |]. simpl.
    destruct (key_lt (row_key y) (row_key d)) eqn:Hy.
    - exfalso. assert (newer y d) as Hyd by (apply Hpre; left).
      pose proof (key_lt_trans _ _ _ Hy Hyd) as H. by rewrite key_lt_irrefl in H.
    - apply IH. intros x Hx. apply Hpre. by right. }
  simpl. clear -Hpost. induction post as [|y post IH]; [done |]. simpl.
  assert (newer d y) as Hy by (apply Hpost; left). unfold newer in Hy. rewrite Hy. f_equal.
  apply IH. intros x Hx. apply Hpost. by right.
Qed.

(** ** A client that follows the cursors *)

Context {X : Hex} {S2 : Sha2}.

(** Fetch a page, then the page after its cursor, until there is none. *)
Fixpoint crawl (fuel : nat) (tenant : string) (limit : Z) (after : option DocumentCursor)
  : prog PortE (result (list DocumentState) DocumentError) :=
  match fuel with
  | O => Ret (Ok [])
  | S fuel =>
      let*? page := list_documents tenant limit after in
      match pg_next page with
      | None => Ret (Ok (pg_items page))
      | Some cursor =>
          let*? rest := crawl fuel tenant limit (Some cursor) in
          Ret (Ok (pg_items page ++ rest))
      end
  end.

(** The table is keyed by what its rows say. *)
Definition keyed (s : ReadModelState) : Prop :=
  ∀ k d, rm_documents s !! k = Some d → (ds_tenant_id d, ds_document_id d) = k.

Definition tenant_rows (s : ReadModelState) (tenant : string) : list DocumentState :=
  List.filter (λ d, bool_decide (ds_tenant_id d = tenant)) (snd <$> map_to_list (rm_documents s)).

Lemma tenant_rows_nodup s tenant : keyed s → NoDup (row_key <$> tenant_rows s tenant).
Proof.
  intros Hk.
  assert (NoDup ((λ d, (ds_tenant_id d, ds_document_id d)) <$> (snd <$> map_to_list (rm_documents s))))
    as Hnd.
  { replace (_ <$> (snd <$> map_to_list (rm_documents s)))
      with (fst <$> map_to_list (rm_documents s)).
    - apply NoDup_fst_map_to_list.
    - rewrite <- list_fmap_compose. apply list_fmap_ext. intros i [k d] Hi. simpl. symmetry.
      apply Hk. apply elem_of_map_to_list. by eapply list_elem_of_lookup_2. }
  apply (NoDup_fmap_filter _ (λ d, bool_decide (ds_tenant_id d = tenant))) in Hnd.
  fold (tenant_rows s tenant) in Hnd.
  assert (∀ d, d ∈ tenant_rows s tenant → ds_tenant_id d = tenant) as Ht.
  { intros d. unfold tenant_rows. rewrite list_elem_of_In. intros [_ H]%filter_In. by destruct_bools. }
  revert Hnd Ht. generalize (tenant_rows s tenant) as l. induction l as [|d l IH]; [constructor |].
  rewrite !fmap_cons, !NoDup_cons. intros [Hd Hl] Ht. split.
  - intros Hin. apply Hd. apply list_elem_of_fmap in Hin as (y & Hy & Hin).
    apply list_elem_of_fmap. exists y. split; [| done]. unfold row_key in Hy.
    rewrite (Ht d), (Ht y) by (by left || by right). congruence.
  - apply IH; [done |]. intros y Hy. apply Ht. by right.
Qed.

Definition cursor_of (d : DocumentState) : DocumentCursor :=
  mkCursor (ds_updated_at d) (ds_document_id d).

Definition rows_after (sorted : list DocumentState) (after : option DocumentCursor)
    (rest : list DocumentState) : Prop :=
  match after with
  | None => rest = sorted
  | Some c => ∃ pre d, sorted = pre ++ d :: rest ∧ c = cursor_of d
  end.

Lemma mem_list_page s tenant n after rest :
  keyed s → rows_after (sort_rows (tenant_rows s tenant)) after rest →
  mem_list s tenant n after = take (Z.to_nat n) rest.
Proof.
  intros Hk Hr. pose proof (tenant_rows_nodup s tenant Hk) as Hnd.
  unfold mem_list. fold (tenant_rows s tenant). rewrite sort_filter by done.
  pose proof (sort_rows_sorted _ Hnd) as Hsorted.
  destruct after as [c|]; simpl in Hr.
  - destruct Hr as (pre & d & Heq & ->). rewrite Heq in Hsorted |- *.
    f_equal. exact (filter_after pre d rest Hsorted).
  - subst rest. f_equal. generalize (sort_rows (tenant_rows s tenant)) as l.
    induction l as [|x l IH]; [done |]. simpl. by rewrite IH.
Qed.

Lemma clamp_limit_range limit : 1 ≤ clamp_limit limit ≤ MAX_LIST_LIMIT.
Proof. unfold clamp_limit, MAX_LIST_LIMIT. lia. Qed.

Lemma crawl_rest fuel w tenant limit after rest :
  keyed (w_read w) → rows_after (sort_rows (tenant_rows (w_read w) tenant)) after rest →
  (length rest < fuel)%nat →
  run mem (crawl fuel tenant limit after) w = (w, Ok rest).
Proof.
  intros Hk. revert after rest. induction fuel as [|fuel IH]; intros after rest Hr Hf; [lia |].
  pose proof (clamp_limit_range limit) as [Hlim _].
  cbn [crawl]. unfold list_documents. cbn [prog_bind call run mem].
  rewrite (mem_list_page _ _ _ _ rest) by done. cbn [prog_bind].
  set (n := Z.to_nat (clamp_limit limit)). assert (1 ≤ n)%nat as Hn by lia.
  unfold next_cursor. cbn [pg_next pg_items].
  destruct (Z.eqb_spec (Z.of_nat (length (take n rest))) (clamp_limit limit)) as [Hfull | Hshort].
  - destruct (last (take n rest)) as [d|] eqn:Hlast.
    2: { apply last_None in Hlast. rewrite Hlast in Hfull. simpl in Hfull. lia. }
    cbn [fmap option_fmap option_map]. change (mkCursor _ _) with (cursor_of d).
    apply last_snoc_inv in Hlast as [pre Hpre].
    rewrite run_bind, (IH (Some (cursor_of d)) (drop n rest)).
    + cbn [run]. by rewrite take_drop.
    + assert (rest = pre ++ d :: drop n rest) as Hrest.
      { rewrite <- (take_drop n rest) at 1. rewrite Hpre. by rewrite <- (assoc_L app). }
      destruct after as [c|]; simpl in Hr.
      * destruct Hr as (pre' & d' & Heq & _). exists (pre' ++ d' :: pre), d.
        split; [| done]. rewrite Heq, <- (assoc_L app). simpl. by rewrite <- Hrest.
      * exists pre, d. split; [| done]. by rewrite <- Hr.
    + rewrite length_drop. rewrite length_take in Hfull. lia.
  - cbn [run]. rewrite take_ge; [done |]. rewrite length_take in Hshort. lia.
Qed.

(** Fact: paging is complete and exact. A client that follows the cursors of the
    listing, with any page size it asks for, gets every document of its tenant
    exactly once, newest first with ties broken by document id, and none of
    another tenant's. *)
Theorem paging_visits_every_document w tenant limit fuel :
  keyed (w_read w) →
  (length (tenant_rows (w_read w) tenant) < fuel)%nat →
  ∃ l, run mem (crawl fuel tenant limit None) w = (w, Ok l) ∧
    l ≡ₚ tenant_rows (w_read w) tenant ∧ newest_first l.
Proof.
  intros Hk Hf. exists (sort_rows (tenant_rows (w_read w) tenant)). split_and!.
  - apply crawl_rest; [done | done |]. by rewrite sort_rows_perm.
  - apply sort_rows_perm.
  - by apply sort_rows_sorted, tenant_rows_nodup.
Qed.
End listing.

(** ** Witnesses *)

#[local] Existing Instances Demo.json Demo.hex Demo.sha2.

Module ListingDemo.
Definition doc (id : string) (at_ : Z) : DocumentState :=
  mkState "acme" id "user-1" 1 1 Active Pending None None None None None None None []
    None value_empty_object at_ at_.

(** Two documents share a timestamp. *)
Definition table : ReadModelState :=
  mkRead (<[("acme", "d1") := doc "d1" 7]> (<[("acme", "d2") := doc "d2" 7]>
            (<[("acme", "d3") := doc "d3" 9]> ∅))) None.

Definition world : World :=
  mkWorld es_default bl_default (mkUploads ∅ None) table [] false ContentOk 0 0.

Lemma table_keyed : keyed table.
Proof.
  intros k d. simpl. rewrite !lookup_insert_Some, lookup_empty.
  intros [[<- <-] | [_ [[<- <-] | [_ [[<- <-] | [_ ?]]]]]]; done.
Qed.
End ListingDemo.

Lemma paging_visits_every_document_witness :
  ∃ l, run mem (crawl 4 "acme" 1 None) ListingDemo.world = (ListingDemo.world, Ok l) ∧
    l ≡ₚ tenant_rows (w_read ListingDemo.world) "acme" ∧ StronglySorted newer l.
Proof.
  apply (paging_visits_every_document ListingDemo.world "acme" 1 4 ListingDemo.table_keyed).
  vm_compute. lia.
Defined.
