(* ===== verification/Projection.v ===== *)
(** * The projection of the event log into the [document] table

    crates/document-app/src/projection.rs (what one event does) and
    crates/document-adapters/src/postgres/{mod,projection}.rs (rows, the batch
    transaction, the loop).

    The programs call an effect signature [PgE]: the statements of the Postgres
    connection and the pulls of the JetStream consumer.  A transaction is the
    list of its statements; it reaches the tables when [Commit] runs it.
    [ProjectionRun] interprets the signature and states what the loop does. *)

From S2P Require Import Prelude Text Events Fold Keys Validation Ports.

(** ** crates/document-app/src/projection.rs *)

(** serde_json on the event type: [from_slice] into a [Value], [from_value]
    into a [DocumentEvent], [to_value] back; an error is its text. *)
Class EventCodec {J : SerdeJson} := {
  from_slice : bytes → result Value string;
  event_from_value : Value → result DocumentEvent string;
  event_to_value : DocumentEvent → result Value string;
}.

Section project.
Context {J : SerdeJson} {EC : EventCodec}.

Inductive DecodedEvent : Type :=
| DEvent (event : DocumentEvent)
| DUnknown (raw : Value) (error : string)
| DMalformed (error : string).

Definition decode_event (payload : bytes) : DecodedEvent :=
  match from_slice payload with
  | Err error => DMalformed error
  | Ok raw =>
      match event_from_value raw with
      | Ok event => DEvent event
      | Err error => DUnknown raw error
      end
  end.

Inductive ProjectionOutcome : Type :=
| Upsert (state : DocumentState)
| Failure (payload : Value) (error : string) (domain_violation : bool).

Definition project_event (prior : option DocumentState) (payload : bytes) (stream_seq : Z)
  : ProjectionOutcome :=
  match decode_event payload with
  | DEvent event =>
      match apply prior event stream_seq with
      | Ok state => Upsert state
      | Err error =>
          Failure (match event_to_value event with Ok v => v | Err _ => value_null end)
            (fold_error_to_string error) true
      end
  | DUnknown raw error => Failure raw error false
  | DMalformed error => Failure value_null error false
  end.
End project.

(** The primary key of the [document] table, and a message of a batch: its
    stream sequence, subject and payload. *)
Abbreviation key := (string * string)%type.
Abbreviation message := (Z * string * bytes)%type.

(** ** postgres/mod.rs: rows *)

Section rows.
Context {J : SerdeJson}.

(** A row of the [document] table, column by column. *)
Record Row : Type := mkRow {
  r_tenant_id : string;
  r_document_id : string;
  r_owner_user_id : string;
  r_version : Z;
  r_stream_seq : Z;
  r_state : string;
  r_index_state : string;
  r_index_version : option Z;
  r_current_blob : option string;
  r_filename : option string;
  r_content_type : option string;
  r_byte_size : option Z;
  r_checksum : option string;
  r_title : option string;
  r_tags : Value;
  r_description : option string;
  r_metadata : Value;
  r_created_at : DateTime;
  r_updated_at : DateTime;
}.

#[export] Instance Row_eq_dec : EqDecision Row.
Proof. solve_decision. Defined.

(** What Postgres and serde do to a value on its way through a column:
    [timestamptz] keeps microseconds, [jsonb] its own normal form, and the tags
    are a JSON array ([tags_to_value] may fail, [tags_from_value] may not
    recognise one).  [accepts_row] and [accepts_failure] are the server's right
    to refuse the parameters of a statement. *)
Class Postgres := {
  timestamptz : DateTime → DateTime;
  timestamptz_idemp : ∀ t, timestamptz (timestamptz t) = timestamptz t;
  jsonb : Value → Value;
  jsonb_idemp : ∀ v, jsonb (jsonb v) = jsonb v;
  value_empty_array : Value;
  tags_to_value : list string → option Value;
  tags_from_value : Value → option (list string);
  tags_roundtrip : ∀ tags, ∃ v, tags_to_value tags = Some v ∧
    tags_from_value (jsonb v) = Some tags;
  accepts_row : Row → bool;
  accepts_failure : string → Value → string → bool;
}.

Context {PG : Postgres}.

(** [row_to_document] *)
Definition row_to_document (row : Row) : DocumentState :=
  {| ds_tenant_id := r_tenant_id row;
     ds_document_id := r_document_id row;
     ds_owner_user_id := r_owner_user_id row;
     ds_version := i64_as_u64 (r_version row);
     ds_stream_seq := i64_as_u64 (r_stream_seq row);
     ds_state := default Active (docstate_parse (r_state row));
     ds_index_state := default Pending (indexstate_parse (r_index_state row));
     ds_index_version := i64_as_u64 <$> r_index_version row;
     ds_current_blob := r_current_blob row;
     ds_filename := r_filename row;
     ds_content_type := r_content_type row;
     ds_byte_size := i64_as_u64 <$> r_byte_size row;
     ds_checksum := r_checksum row;
     ds_title := r_title row;
     ds_tags := default [] (tags_from_value (r_tags row));
     ds_description := r_description row;
     ds_metadata := r_metadata row;
     ds_created_at := r_created_at row;
     ds_updated_at := r_updated_at row |}.

(** The nineteen [.bind(..)] of [upsert_document], as the columns they fill. *)
Definition document_to_row (state : DocumentState) : Row :=
  {| r_tenant_id := ds_tenant_id state;
     r_document_id := ds_document_id state;
     r_owner_user_id := ds_owner_user_id state;
     r_version := u64_as_i64 (ds_version state);
     r_stream_seq := u64_as_i64 (ds_stream_seq state);
     r_state := docstate_as_str (ds_state state);
     r_index_state := indexstate_as_str (ds_index_state state);
     r_index_version := u64_as_i64 <$> ds_index_version state;
     r_current_blob := ds_current_blob state;
     r_filename := ds_filename state;
     r_content_type := ds_content_type state;
     r_byte_size := u64_as_i64 <$> ds_byte_size state;
     r_checksum := ds_checksum state;
     r_title := ds_title state;
     r_tags := jsonb (default value_empty_array (tags_to_value (ds_tags state)));
     r_description := ds_description state;
     r_metadata := jsonb (ds_metadata state);
     r_created_at := timestamptz (ds_created_at state);
     r_updated_at := timestamptz (ds_updated_at state) |}.

(** [ON CONFLICT .. DO UPDATE SET ..]: every column but the key and
    [created_at]. *)
Definition update_row (old excluded : Row) : Row :=
  mkRow (r_tenant_id old) (r_document_id old) (r_owner_user_id excluded)
    (r_version excluded) (r_stream_seq excluded) (r_state excluded)
    (r_index_state excluded) (r_index_version excluded) (r_current_blob excluded)
    (r_filename excluded) (r_content_type excluded) (r_byte_size excluded)
    (r_checksum excluded) (r_title excluded) (r_tags excluded)
    (r_description excluded) (r_metadata excluded) (r_created_at old)
    (r_updated_at excluded).

(** ** The statements of postgres/projection.rs *)

Record Tables : Type := mkTables {
  t_document : gmap string (gmap key Row);
  t_checkpoint : gmap string Z;
  t_failure : gmap (string * Z) (string * Value * string);
}.

Definition no_tables : Tables := mkTables ∅ ∅ ∅.

Inductive Stmt : Type :=
| SUpsertDocument (table : string) (row : Row)
| SInsertFailure (name : string) (seq : Z) (subject : string) (payload : Value) (error : string)
| SUpsertCheckpoint (name : string) (seq : Z)
| STruncate (table : string)
| SDeleteCheckpoint (name : string)
| SDeleteFailures (name : string).

(** The rows of a table of the [document] shape. *)
Definition rows (t : Tables) (table : string) : gmap key Row :=
  default ∅ (t_document t !! table).

(** [INSERT .. ON CONFLICT (tenant_id, document_id) DO UPDATE .. WHERE
    stream_seq < EXCLUDED.stream_seq] on the rows of one table *)
Definition upsert_row (m : gmap key Row) (row : Row) : gmap key Row :=
  let k := (r_tenant_id row, r_document_id row) in
  match m !! k with
  | None => <[k := row]> m
  | Some old =>
      if (r_stream_seq old <? r_stream_seq row)%Z
      then <[k := update_row old row]> m else m
  end.

Definition exec_stmt (t : Tables) (s : Stmt) : Tables :=
  match s with
  | SUpsertDocument table row =>
      mkTables (<[table := upsert_row (rows t table) row]> (t_document t))
        (t_checkpoint t) (t_failure t)
  | SInsertFailure name seq subject payload error =>
      mkTables (t_document t) (t_checkpoint t)
        (match t_failure t !! (name, seq) with
         | Some _ => t_failure t
         | None => <[(name, seq) := (subject, jsonb payload, error)]> (t_failure t)
         end)
  | SUpsertCheckpoint name seq =>
      mkTables (t_document t) (<[name := seq]> (t_checkpoint t)) (t_failure t)
  | STruncate table =>
      mkTables (<[table := ∅]> (t_document t)) (t_checkpoint t) (t_failure t)
  | SDeleteCheckpoint name =>
      mkTables (t_document t) (delete name (t_checkpoint t)) (t_failure t)
  | SDeleteFailures name =>
      mkTables (t_document t) (t_checkpoint t)
        (filter (λ '((n, _), _), n ≠ name) (t_failure t))
  end.

Definition exec_stmts (t : Tables) (ss : list Stmt) : Tables := foldl exec_stmt t ss.

(** May Postgres accept a statement's parameters. *)
Definition accepts (s : Stmt) : bool :=
  match s with
  | SUpsertDocument _ row => accepts_row row
  | SInsertFailure _ _ subject payload error => accepts_failure subject payload error
  | SUpsertCheckpoint _ _ | STruncate _ | SDeleteCheckpoint _ | SDeleteFailures _ => true
  end.

(** ** The loop *)

(** One pull of the ordered consumer: a message at its place in the stream with
    what [message.info()] makes of it, a receive error, the end of the stream,
    or a timeout. *)
Inductive Delivery : Type :=
| Delivered (at_ : Z) (info : option Z) (subject : string) (payload : bytes)
| ReceiveFailed
| StreamEnded
| Elapsed.

Inductive PgE : Type → Type :=
| StillHeld : PgE (result bool string)
| SelectCheckpoint (name : string) : PgE (result (option Z) string)
| CreateConsumer (start_sequence : Z) : PgE (result unit string)
| NextMessage (after : Z) : PgE Delivery
| Begin : PgE (result unit string)
| SelectDocument (table tenant document_id : string) : PgE (result (option Row) string)
| Execute (s : Stmt) : PgE (result unit string)
| Commit (tx : list Stmt) : PgE (result unit string).

Record ProjectionLoop : Type := mkLoop {
  pl_name : string;
  pl_table : string;
  pl_batch_size : nat;
}.

Definition DOCUMENT_PROJECTION_NAME : string := "document-pg".

Definition projection_new (batch_size : nat) : ProjectionLoop :=
  mkLoop DOCUMENT_PROJECTION_NAME "document" (Nat.max batch_size 1).

Definition into_target (self : ProjectionLoop) (name table : string) : ProjectionLoop :=
  mkLoop name table (pl_batch_size self).

(** A statement joins the transaction once the server took it. *)
Definition execute (tx : list Stmt) (s : Stmt) : prog PgE (result (list Stmt) string) :=
  let*? _ := call (Execute s) in Ret (Ok (tx ++ [s])).

Definition read_checkpoint (self : ProjectionLoop) : prog PgE (result Z string) :=
  let*? sequence := call (SelectCheckpoint (pl_name self)) in
  Ret (Ok (Z.max 0 (default 0%Z sequence))).

Definition load_document (self : ProjectionLoop) (tenant document_id : string)
  : prog PgE (result (option DocumentState) string) :=
  let*? row := call (SelectDocument (pl_table self) tenant document_id) in
  Ret (Ok (option_map row_to_document row)).

Definition upsert_document (self : ProjectionLoop) (tx : list Stmt) (state : DocumentState)
  : prog PgE (result (list Stmt) string) :=
  execute tx (SUpsertDocument (pl_table self) (document_to_row state)).

Definition record_failure (self : ProjectionLoop) (tx : list Stmt) (sequence : Z)
    (subject : string) (payload : Value) (error : string)
  : prog PgE (result (list Stmt) string) :=
  execute tx (SInsertFailure (pl_name self) (u64_as_i64 sequence) subject payload error).

(** [HashMap::into_values]: the values, in an order the code cannot know. *)
Class IntoValues := {
  into_values : gmap key DocumentState → list DocumentState;
  into_values_perm : ∀ m, into_values m ≡ₚ (map_to_list m).*2;
}.

Context {EC : EventCodec} {IV : IntoValues}.

(** The prior state of a message's document. *)
Definition prior_of (self : ProjectionLoop) (folded : gmap key DocumentState) (subject : string)
  : prog PgE (result (option DocumentState) string) :=
  match document_key_from_subject subject with
  | Some k =>
      match folded !! k with
      | Some state => Ret (Ok (Some state))
      | None => load_document self k.1 k.2
      end
  | None => Ret (Ok None)
  end.

(** The first loop of [apply_batch]. *)
Fixpoint fold_batch (self : ProjectionLoop) (batch : list message)
    (folded : gmap key DocumentState) (tx : list Stmt) (last_seq : Z)
  : prog PgE (result (gmap key DocumentState * list Stmt * Z) string) :=
  match batch with
  | [] => Ret (Ok (folded, tx, last_seq))
  | (sequence, subject, payload) :: batch' =>
      let*? prior := prior_of self folded subject in
      match project_event prior payload sequence with
      | Upsert state =>
          fold_batch self batch'
            (<[(ds_tenant_id state, ds_document_id state) := state]> folded) tx sequence
      | Failure payload error _ =>
          let*? tx' := record_failure self tx sequence subject payload error in
          fold_batch self batch' folded tx' sequence
      end
  end.

(** The second loop of [apply_batch]. *)
Fixpoint upsert_all (self : ProjectionLoop) (states : list DocumentState) (tx : list Stmt)
  : prog PgE (result (list Stmt) string) :=
  match states with
  | [] => Ret (Ok tx)
  | state :: states' =>
      let*? tx' := upsert_document self tx state in upsert_all self states' tx'
  end.

(** [apply_batch] *)
Definition apply_batch (self : ProjectionLoop) (batch : list message)
  : prog PgE (result unit string) :=
  let*? _ := call Begin in
  let*? out := fold_batch self batch ∅ [] 0 in
  let*? tx := upsert_all self (into_values out.1.1) out.1.2 in
  let*? tx' := execute tx (SUpsertCheckpoint (pl_name self) (u64_as_i64 out.2)) in
  call (Commit tx').

(** [push_message] *)
Definition push_message (batch : list message) (info : option Z) (subject : string)
    (payload : bytes) : list message :=
  match info with
  | Some stream_sequence => batch ++ [(stream_sequence, subject, payload)]
  | None => batch
  end.

(** [while batch.len() < self.batch_size]; the cursor is the consumer's own. *)
Fixpoint drain (fuel : nat) (self : ProjectionLoop) (batch : list message) (cursor : Z)
  : prog PgE (list message * Z) :=
  match fuel with
  | O => Ret (batch, cursor)
  | S fuel' =>
      if (length batch <? pl_batch_size self)%nat then
        let* d := call (NextMessage cursor) in
        match d with
        | Delivered at_ info subject payload =>
            drain fuel' self (push_message batch info subject payload) at_
        | ReceiveFailed | StreamEnded | Elapsed => Ret (batch, cursor)
        end
      else Ret (batch, cursor)
  end.

(** The [loop] of [run]; fuel bounds its iterations, and running out of it is
    the process being stopped. *)
Fixpoint run_loop (fuel : nat) (self : ProjectionLoop) (cursor : Z)
  : prog PgE (result unit string) :=
  match fuel with
  | O => Ret (Ok tt)
  | S fuel' =>
      let*? held := call StillHeld in
      if negb held then Ret (Ok tt) else
      let* d := call (NextMessage cursor) in
      match d with
      | Delivered at_ info subject payload =>
          let* out := drain fuel self (push_message [] info subject payload) at_ in
          match out.1 with
          | [] => run_loop fuel' self out.2
          | batch =>
              let*? held := call StillHeld in
              if negb held then Ret (Ok tt) else
              let*? _ := apply_batch self batch in
              run_loop fuel' self out.2
          end
      | ReceiveFailed | Elapsed => run_loop fuel' self cursor
      | StreamEnded => Ret (Ok tt)
      end
  end.

(** [ProjectionLoop::run] *)
Definition projection_run (fuel : nat) (self : ProjectionLoop) : prog PgE (result unit string) :=
  let*? checkpoint := read_checkpoint self in
  let*? _ := call (CreateConsumer (checkpoint + 1)) in
  run_loop fuel self checkpoint.

(** [reset] *)
Definition reset (name table : string) : prog PgE (result unit string) :=
  let*? _ := call Begin in
  let*? tx := execute [] (STruncate table) in
  let*? tx := execute tx (SDeleteCheckpoint name) in
  let*? tx := execute tx (SDeleteFailures name) in
  call (Commit tx).

(** [peek_document] *)
Definition peek_document (tenant document_id : string)
  : prog PgE (result (option DocumentState) string) :=
  let*? row := call (SelectDocument "document" tenant document_id) in
  Ret (Ok (option_map row_to_document row)).
End rows.
