(* ===== verification/Replay.v ===== *)
(** * Replaying the log into rows

    The algebra behind the projection: a message changes each field of a
    document's state either to a constant or not at all, so folding a stretch
    of the log a second time over its own result changes nothing, and a row may
    be stored and loaded anywhere in between.  Nothing here is a model of code:
    it is the theory [ProjectionRun] applies to the loop. *)

From S2P Require Import Prelude Text Events Fold Keys Projection.

(** ** Fields, and functions that overwrite them *)

Section fields.
Context {J : SerdeJson}.

Inductive field : ∀ {A : Type}, (DocumentState → A) → Prop :=
| f_tenant : field ds_tenant_id
| f_document : field ds_document_id
| f_owner : field ds_owner_user_id
| f_version : field ds_version
| f_seq : field ds_stream_seq
| f_state : field ds_state
| f_index : field ds_index_state
| f_index_version : field ds_index_version
| f_blob : field ds_current_blob
| f_filename : field ds_filename
| f_type : field ds_content_type
| f_size : field ds_byte_size
| f_checksum : field ds_checksum
| f_title : field ds_title
| f_tags : field ds_tags
| f_description : field ds_description
| f_metadata : field ds_metadata
| f_created : field ds_created_at
| f_updated : field ds_updated_at.

Lemma state_ext s s' :
  (∀ A (φ : DocumentState → A), field φ → φ s = φ s') → s = s'.
Proof.
  intros H. destruct s, s'.
  f_equal; [apply (H _ _ f_tenant) | apply (H _ _ f_document) | apply (H _ _ f_owner)
  | apply (H _ _ f_version) | apply (H _ _ f_seq) | apply (H _ _ f_state)
  | apply (H _ _ f_index) | apply (H _ _ f_index_version) | apply (H _ _ f_blob)
  | apply (H _ _ f_filename) | apply (H _ _ f_type) | apply (H _ _ f_size)
  | apply (H _ _ f_checksum) | apply (H _ _ f_title) | apply (H _ _ f_tags)
  | apply (H _ _ f_description) | apply (H _ _ f_metadata) | apply (H _ _ f_created)
  | apply (H _ _ f_updated)].
Qed.

(** The states of one document. *)
Definition own (k : string * string) (s : DocumentState) : Prop :=
  ds_tenant_id s = k.1 ∧ ds_document_id s = k.2.

(** [F] overwrites fields of a document's states: each one with a constant,
    or not at all. *)
Definition overwrites (k : string * string) (F : DocumentState → DocumentState) : Prop :=
  (∀ s, own k s → own k (F s)) ∧
  ∀ A (φ : DocumentState → A), field φ →
    (∀ s, own k s → φ (F s) = φ s) ∨ (∃ c, ∀ s, own k s → φ (F s) = c).

Lemma overwrites_id k : overwrites k (λ s, s).
Proof. split; [done |]. by left. Qed.

Lemma overwrites_compose k F F' :
  overwrites k F → overwrites k F' → overwrites k (λ s, F' (F s)).
Proof.
  intros [Ho HF] [Ho' HF']. split; [by eauto |]. intros A φ Hφ.
  destruct (HF' _ _ Hφ) as [Hid' | [c Hc]]; [| right; exists c; by eauto].
  destruct (HF _ _ Hφ) as [Hid | [c Hc]]; [left | right; exists c];
    intros s Hs; rewrite Hid' by eauto; by auto.
Qed.

Lemma overwrites_idemp k F s : overwrites k F → own k s → F (F s) = F s.
Proof.
  intros [Ho HF] Hs. apply state_ext. intros A φ Hφ.
  destruct (HF _ _ Hφ) as [Hid | [c Hc]]; [by rewrite Hid by eauto | by rewrite !Hc by eauto].
Qed.

Lemma overwrites_ext k F F' :
  (∀ s, own k s → F s = F' s) → overwrites k F' → overwrites k F.
Proof.
  intros Heq [Ho HF]. split; [intros s Hs; rewrite Heq by done; by apply Ho |].
  intros A φ Hφ. destruct (HF _ _ Hφ) as [Hid | [c Hc]]; [left | right; exists c];
    intros s Hs; rewrite Heq by done; by auto.
Qed.

(** Each field of a record-building function, by case analysis. *)
Local Ltac by_fields :=
  split; [intros s [? ?]; split; simpl; congruence |];
  intros A φ Hφ; destruct Hφ;
  first [left; intros s _; reflexivity | right; eexists; intros s _; simpl; reflexivity].

Lemma merge_patch_overwrites k p : overwrites k (λ s, merge_patch s p).
Proof. destruct p as [[p1|] [p2|] [p3|] [p4|]]; by_fields. Qed.

Lemma touch_overwrites k v q t : overwrites k (λ s, touch s v q t).
Proof. by_fields. Qed.

Lemma set_content_overwrites k v : overwrites k (λ s, set_content s v).
Proof. by_fields. Qed.

Lemma set_state_overwrites k st : overwrites k (λ s, set_state s st).
Proof. by_fields. Qed.

Lemma set_index_overwrites k st v : overwrites k (λ s, set_index s st v).
Proof. by_fields. Qed.

Lemma index_failed_overwrites k : overwrites k (λ s, set_index s Failed (ds_index_version s)).
Proof. by_fields. Qed.

Lemma seed_overwrites e u c seq :
  overwrites (ev_tenant_id e, ev_document_id e) (λ s, seed e u c (ds_created_at s) seq).
Proof. by_fields. Qed.

Lemma payload_overwrites k v q t p : overwrites k (λ s, apply_payload (touch s v q t) p).
Proof.
  pose proof (touch_overwrites k v q t) as Ht.
  destruct p as [c|d|p|x|i|f|r p|d|b d]; simpl; [done | | | done | | | | | done].
  - apply (overwrites_compose k _ (λ s, merge_patch s (dv_patch d)));
      [| apply merge_patch_overwrites].
    by apply (overwrites_compose k _ (λ s, set_content s d)), set_content_overwrites.
  - by apply (overwrites_compose k _ (λ s, merge_patch s p)), merge_patch_overwrites.
  - by eapply (overwrites_compose k _ (λ s, set_index s _ _)), set_index_overwrites.
  - case_bool_decide; [| done].
    by apply (overwrites_compose k (λ s, touch s v q t) (λ s, set_index s Failed (ds_index_version s))),
      index_failed_overwrites.
  - by apply (overwrites_compose k _ (λ s, merge_patch s p)), merge_patch_overwrites.
  - by apply (overwrites_compose k _ (λ s, set_state s Deleted)), set_state_overwrites.
Qed.

Lemma apply_some_unfold s e seq :
  ds_document_id s = ev_document_id e →
  apply (Some s) e seq =
    match ev_payload e, ev_actor e with
    | PDocumentCreated c, User u =>
        Ok (merge_patch (seed e u c (ds_created_at s) seq) (dc_patch c))
    | PDocumentCreated _, System _ => Err (SystemActorCreate (ev_document_id e))
    | p, _ => Ok (apply_payload (touch s (ev_version e) seq (ev_ts e)) p)
    end.
Proof.
  intros Hd. unfold apply. simpl. rewrite bool_decide_eq_false_2 by congruence.
  by destruct (ev_payload e), (ev_actor e).
Qed.

Lemma apply_overwrites e seq :
  overwrites (ev_tenant_id e, ev_document_id e)
    (λ s, match apply (Some s) e seq with Ok s' => s' | Err _ => s end).
Proof.
  destruct (ev_payload e) as [c|d|p|x|i|f|r p|d|b d] eqn:Hp;
    [destruct (ev_actor e) as [u|u] eqn:Hu | ..].
  1: eapply overwrites_ext; [| apply (overwrites_compose _ (λ s, seed e u c (ds_created_at s) seq)
       (λ s, merge_patch s (dc_patch c))); [apply seed_overwrites | apply merge_patch_overwrites]].
  2: eapply overwrites_ext; [| apply overwrites_id].
  3-10: eapply overwrites_ext; [| eapply payload_overwrites].
  all: intros s [_ Hd]; rewrite apply_some_unfold by done; rewrite Hp, ?Hu; reflexivity.
Qed.
End fields.

(** ** One message on one document *)

Section messages.
Context {J : SerdeJson} {EC : EventCodec}.

Definition msg_seq (m : message) : Z := m.1.1.

(** What [fold_batch] makes of a message for the document [k]: its new state if
    the message is the document's and folds, the old one otherwise. *)
Definition mstep (k : string * string) (o : option DocumentState) (m : message)
  : option DocumentState :=
  let '(seq, subject, payload) := m in
  if bool_decide (document_key_from_subject subject = Some k) then
    match project_event o payload seq with
    | Upsert s => Some s
    | Failure _ _ _ => o
    end
  else o.

Definition replay (k : string * string) (o : option DocumentState) (ms : list message)
  : option DocumentState := foldl (mstep k) o ms.

(** The events of the log are published on the subject of their document, and
    their integers fit the [bigint] columns. *)
Definition in_i63 (z : Z) : Prop := (0 ≤ z ≤ i64_max)%Z.

Definition event_in_range (e : DocumentEvent) : Prop :=
  in_i63 (ev_version e) ∧
  match ev_payload e with
  | PDocumentCreated c => in_i63 (dc_byte_size c)
  | PDocumentBlobValidated v => in_i63 (dv_byte_size v)
  | PDocumentIndexed i => in_i63 (di_for_version i)
  | _ => True
  end.

Record good_message (m : message) : Prop := {
  gm_seq : (0 < msg_seq m ≤ i64_max)%Z;
  gm_addressed : ∀ e, decode_event m.2 = DEvent e →
    document_key_from_subject m.1.2 = Some (ev_tenant_id e, ev_document_id e) ∧
    event_in_range e;
}.

(** [k]'s states keep integers a [bigint] can hold. *)
Definition state_in_range (s : DocumentState) : Prop :=
  in_i63 (ds_version s) ∧ in_i63 (ds_stream_seq s) ∧
  (∀ v, ds_index_version s = Some v → in_i63 v) ∧
  (∀ v, ds_byte_size s = Some v → in_i63 v).

Definition mine (k : string * string) (o : option DocumentState) : Prop :=
  match o with Some s => own k s ∧ state_in_range s | None => True end.

(** The total step on existing states. *)
Definition sstep (k : string * string) (s : DocumentState) (m : message) : DocumentState :=
  default s (mstep k (Some s) m).

Lemma mstep_some k s m : mstep k (Some s) m = Some (sstep k s m).
Proof. unfold sstep, mstep. destruct m as [[??]?]. repeat case_match; done. Qed.

(** A message that changes no document's state, or one event on its document. *)
Lemma mstep_cases k m :
  good_message m →
  (∀ o, mstep k o m = o) ∨
  (∃ e, k = (ev_tenant_id e, ev_document_id e) ∧ event_in_range e ∧
     document_key_from_subject m.1.2 = Some k ∧ decode_event m.2 = DEvent e ∧
     ∀ o, mstep k o m = match apply o e (msg_seq m) with Ok s => Some s | Err _ => o end).
Proof.
  intros [_ Haddr]. destruct m as [[seq subject] payload]. simpl in *.
  unfold mstep, project_event. case_bool_decide as Hk; [| by left].
  destruct (decode_event payload) as [e| |] eqn:Hd; [| by left ..].
  destruct (Haddr e eq_refl) as [Hs Hr]. rewrite Hs in Hk. simplify_eq.
  right. exists e. split_and!; [done.. |]. intros o. unfold msg_seq. simpl. by destruct (apply o e seq).
Qed.

Lemma sstep_overwrites k m : good_message m → overwrites k (λ s, sstep k s m).
Proof.
  intros Hm. destruct (mstep_cases k m Hm) as [Hid | (e & -> & _ & _ & _ & He)].
  - eapply overwrites_ext; [| apply overwrites_id]. intros s _. unfold sstep. by rewrite Hid.
  - eapply overwrites_ext; [| apply (apply_overwrites e (msg_seq m))].
    intros s _. unfold sstep. rewrite He. by destruct (apply _ _ _).
Qed.

Lemma apply_in_range o e seq s :
  match o with Some s => state_in_range s | None => True end →
  event_in_range e → in_i63 seq → apply o e seq = Ok s → state_in_range s.
Proof.
  intros Ho [Hv Hp] Hq Ha. unfold state_in_range.
  pose proof (apply_bookkeeping _ _ _ _ Ha) as (_ & Hver & Hseq & _ & _).
  split_and!; [by rewrite Hver | by rewrite Hseq | |]; clear Hver Hseq; intros z Hz.
  - unfold apply in Ha. destruct o as [y|]; simpl in Ha.
    + destruct Ho as (_ & _ & Hi & _). case_bool_decide; [done |].
      destruct (ev_payload e); simplify_eq/=; repeat (case_match; simplify_eq/=); eauto.
    + destruct (ev_payload e); simplify_eq/=; repeat (case_match; simplify_eq/=); eauto.
  - unfold apply in Ha. destruct o as [y|]; simpl in Ha.
    + destruct Ho as (_ & _ & _ & Hb). case_bool_decide; [done |].
      destruct (ev_payload e); simplify_eq/=; repeat (case_match; simplify_eq/=); eauto.
    + destruct (ev_payload e); simplify_eq/=; repeat (case_match; simplify_eq/=); eauto.
Qed.

Lemma apply_none_own e seq s :
  apply None e seq = Ok s → own (ev_tenant_id e, ev_document_id e) s.
Proof.
  unfold apply, own. simpl. intros Ha.
  destruct (ev_payload e); simplify_eq/=; repeat (case_match; simplify_eq/=); done.
Qed.

Lemma mstep_mine k o m : good_message m → mine k o → mine k (mstep k o m).
Proof.
  intros Hm Ho. destruct (mstep_cases k m Hm) as [Hid | (e & -> & Hr & _ & _ & He)].
  { by rewrite Hid. }
  pose proof (gm_seq _ Hm) as Hq.
  rewrite He. destruct (apply o e (msg_seq m)) as [s'|] eqn:Ha; [| done].
  simpl. split.
  - destruct o as [s|]; [| by eapply apply_none_own].
    pose proof (proj1 (sstep_overwrites (ev_tenant_id e, ev_document_id e) m Hm) s (proj1 Ho)) as H.
    unfold sstep in H. by rewrite He, Ha in H.
  - apply (apply_in_range o e (msg_seq m)); [| done | unfold in_i63; lia | done].
    destruct o; [apply Ho | done].
Qed.

(** What a message may be to a document: inert; effective, changing every state
    there is; and then also a create, or lost on a document not there yet. *)
Definition inert (k : string * string) (m : message) : Prop :=
  mstep k None m = None ∧ ∀ s, own k s → sstep k s m = s.
Definition effective (k : string * string) (m : message) : Prop :=
  ∀ s, own k s → ds_stream_seq (sstep k s m) = msg_seq m.

Lemma apply_some_acceptable k s e seq :
  k = (ev_tenant_id e, ev_document_id e) → own k s →
  is_ok (apply (Some s) e seq) = acceptable (ev_document_id e) e.
Proof. intros -> [_ Hd]. simpl in Hd. by rewrite apply_some_ok, Hd. Qed.

Lemma create_acceptable e :
  is_user_create e = true → acceptable (ev_document_id e) e = true.
Proof.
  unfold is_user_create, acceptable. rewrite bool_decide_eq_true_2 by done.
  by repeat case_match.
Qed.

Lemma message_kind k m :
  good_message m →
  inert k m ∨
  effective k m ∧
    (mstep k None m = None ∨
     ∃ x, mstep k None m = Some x ∧ ds_stream_seq x = msg_seq m ∧ own k x).
Proof.
  intros Hm. destruct (mstep_cases k m Hm) as [Hid | (e & Hk & Hr & _ & _ & He)].
  { left. split; [apply Hid |]. intros s _. unfold sstep. by rewrite Hid. }
  destruct (acceptable (ev_document_id e) e) eqn:Hacc.
  - right. split.
    + intros s Hs. unfold sstep. rewrite He.
      pose proof (apply_some_acceptable k s e (msg_seq m) Hk Hs) as Hok.
      rewrite Hacc in Hok. destruct (apply _ _ _) eqn:Ha; [| done].
      by apply apply_bookkeeping in Ha as (_ & _ & ? & _).
    + rewrite He. destruct (apply None e (msg_seq m)) as [x|] eqn:Ha; [right | by left].
      exists x. split_and!; [done | by apply apply_bookkeeping in Ha as (_ & _ & ? & _) |].
      rewrite Hk. by eapply apply_none_own.
  - left. split.
    + rewrite He. pose proof (apply_none_ok e (msg_seq m)) as Hok.
      destruct (apply None e (msg_seq m)); [| done]. symmetry in Hok. simpl in Hok.
      by rewrite create_acceptable in Hacc.
    + intros s Hs. unfold sstep. rewrite He.
      pose proof (apply_some_acceptable k s e (msg_seq m) Hk Hs) as Hok.
      rewrite Hacc in Hok. by destruct (apply _ _ _).
Qed.

(** A create forgets everything but the creation time. *)
Lemma create_restarts k m x :
  good_message m → mstep k None m = Some x →
  ∀ s, own k s → ds_created_at s = ds_created_at x → sstep k s m = x.
Proof.
  intros Hm Hx s Hs Hc.
  destruct (mstep_cases k m Hm) as [Hid | (e & Hk & Hr & _ & _ & He)]; [by rewrite Hid in Hx |].
  rewrite He in Hx. unfold sstep. rewrite He. rewrite Hk in Hs. destruct Hs as [_ Hd].
  rewrite apply_some_unfold by done. unfold apply in Hx. simpl in Hx.
  destruct (ev_payload e); try done. destruct (ev_actor e); [| done].
  simplify_eq/=. by rewrite Hc.
Qed.

(** Nothing changes the creation time of an existing document. *)
Lemma sstep_created k s m :
  good_message m → ds_created_at (sstep k s m) = ds_created_at s.
Proof.
  intros Hm. unfold sstep.
  destruct (mstep_cases k m Hm) as [Hid | (e & Hk & Hr & _ & _ & He)]; [by rewrite Hid |].
  rewrite He. destruct (apply (Some s) e (msg_seq m)) eqn:Ha; [| done].
  by apply apply_bookkeeping in Ha as (_ & _ & _ & _ & ?).
Qed.

(** ** Stretches of messages *)

Lemma replay_cons k o m ms : replay k o (m :: ms) = replay k (mstep k o m) ms.
Proof. done. Qed.

Lemma replay_app k o ms ms' : replay k o (ms ++ ms') = replay k (replay k o ms) ms'.
Proof. apply foldl_app. Qed.

Lemma replay_some k s ms : replay k (Some s) ms = Some (foldl (sstep k) s ms).
Proof.
  revert s. induction ms as [|m ms IH]; intros s; [done |].
  rewrite replay_cons, mstep_some. apply IH.
Qed.

Lemma replay_mine k o ms : Forall good_message ms → mine k o → mine k (replay k o ms).
Proof.
  intros Hms. revert o. induction Hms as [|m ms Hm _ IH]; intros o Ho; [done |].
  apply IH. by apply mstep_mine.
Qed.

Lemma ssteps_overwrites k ms :
  Forall good_message ms → overwrites k (λ s, foldl (sstep k) s ms).
Proof.
  intros Hms. induction Hms as [|m ms Hm _ IH]; [apply overwrites_id |].
  apply (overwrites_compose k (λ s, sstep k s m) (λ s, foldl (sstep k) s ms)); [| done].
  by apply sstep_overwrites.
Qed.

Lemma ssteps_created k s ms :
  Forall good_message ms → ds_created_at (foldl (sstep k) s ms) = ds_created_at s.
Proof.
  intros Hms. revert s. induction Hms as [|m ms Hm _ IH]; intros s; [done |].
  simpl. rewrite IH. by apply sstep_created.
Qed.

(** A document that a stretch brings into being, was created in it. *)
Lemma replay_none_split k ms t :
  replay k None ms = Some t →
  ∃ ms1 m ms2 x, ms = ms1 ++ m :: ms2 ∧ mstep k None m = Some x ∧
    t = foldl (sstep k) x ms2.
Proof.
  induction ms as [|m ms IH]; [done |]. rewrite replay_cons.
  destruct (mstep k None m) as [x|] eqn:Hm.
  - intros Ht. rewrite (replay_some k x ms) in Ht. simplify_eq.
    by exists [], m, ms, x.
  - intros Ht. destruct (IH Ht) as (ms1 & m' & ms2 & x & -> & Hx & ->).
    by exists (m :: ms1), m', ms2, x.
Qed.

(** Replaying a stretch over its own result changes nothing. *)
Lemma replay_idemp k o ms :
  Forall good_message ms → mine k o →
  replay k (replay k o ms) ms = replay k o ms.
Proof.
  intros Hms Ho. destruct o as [s|].
  { rewrite !replay_some. f_equal.
    apply (overwrites_idemp k (λ s, foldl (sstep k) s ms)); [by apply ssteps_overwrites | apply Ho]. }
  destruct (replay k None ms) as [t|] eqn:Ht; [| done].
  destruct (replay_none_split k ms t Ht) as (ms1 & m & ms2 & x & -> & Hx & ->).
  apply Forall_app in Hms as Hms'. destruct Hms' as [Hms1 [Hm Hms2]%Forall_cons].
  assert (own k x) as Hown.
  { pose proof (mstep_mine k None m Hm I) as H. rewrite Hx in H. apply H. }
  assert (foldl (sstep k) x (ms1 ++ m :: ms2) = foldl (sstep k) x ms2) as Hx2.
  { rewrite foldl_app. simpl. f_equal. apply create_restarts; [done.. | |].
    - by apply (ssteps_overwrites k ms1).
    - by apply ssteps_created. }
  rewrite replay_some. f_equal. rewrite <- Hx2 at 1 2.
  apply (overwrites_idemp k (λ s, foldl (sstep k) s (ms1 ++ m :: ms2)));
    [by apply ssteps_overwrites | done].
Qed.

(** What a stretch leaves is what it found, or bears the sequence of its last
    effective message. *)
Lemma replay_seq k o ms :
  Forall good_message ms → mine k o →
  replay k o ms = o ∨
  ∃ s m, replay k o ms = Some s ∧ m ∈ ms ∧ effective k m ∧ ds_stream_seq s = msg_seq m.
Proof.
  intros Hms. revert o. induction Hms as [|m ms Hm Hms IH]; intros o Ho; [by left |].
  rewrite replay_cons.
  destruct (IH (mstep k o m)) as [Heq | (s & m' & Hs & Hin & Heff & Hseq)];
    [by apply mstep_mine | | right; exists s, m'; split_and!; [done | set_solver | done..]].
  rewrite Heq.
  destruct (message_kind k m Hm) as [[Hn Hi] | [Heff Hn]].
  - left. destruct o as [s|]; [| done]. rewrite mstep_some, Hi; [done | apply Ho].
  - destruct o as [s|].
    + right. exists (sstep k s m), m. rewrite mstep_some.
      split_and!; [done | set_solver | done | apply Heff, Ho].
    + destruct Hn as [Hn | (x & Hx & Hseq & _)]; [by left |].
      right. exists x, m. split_and!; [done | set_solver | done..].
Qed.
End messages.

(** ** The log and its prefixes *)

Lemma filter_window_split (l : list message) a b c :
  StronglySorted (λ m m', msg_seq m < msg_seq m')%Z l → (a ≤ b ≤ c)%Z →
  filter (λ m, a < msg_seq m ≤ c)%Z l =
    filter (λ m, a < msg_seq m ≤ b)%Z l ++ filter (λ m, b < msg_seq m ≤ c)%Z l.
Proof.
  intros Hs Hle. induction Hs as [|m l Hs IH Hm]; [done |].
  rewrite !filter_cons, IH.
  repeat case_decide; try lia; try done.
  rewrite (filter_none (λ m, a < msg_seq m ≤ b)%Z l) by
    (eapply Forall_impl; [exact Hm | simpl; lia]).
  done.
Qed.

Section log.
Context {J : SerdeJson} {EC : EventCodec} {PG : Postgres}.
Variable log : list message.

Record good_log : Prop := {
  gl_sorted : StronglySorted (λ m m', msg_seq m < msg_seq m')%Z log;
  gl_good : Forall good_message log;
}.

(** The messages with a sequence in [(a, b]], and the state of a document after
    every message up to [n]: what the read model should say at checkpoint [n]. *)
Definition window (a b : Z) : list message := filter (λ m, a < msg_seq m ≤ b)%Z log.
Definition proj (k : key) (n : Z) : option DocumentState := replay k None (window 0 n).

(** The consumer's next message, and a batch as a run of them. *)
Definition next_after (after : Z) : option message :=
  List.find (λ m, after <? msg_seq m)%Z log.

Fixpoint covers (l : Z) (batch : list message) (lend : Z) : Prop :=
  match batch with
  | [] => l = lend
  | m :: batch' => next_after l = Some m ∧ covers (msg_seq m) batch' lend
  end.

Hypothesis Hlog : good_log.

Lemma window_split a b c : (a ≤ b ≤ c)%Z → window a c = window a b ++ window b c.
Proof. apply filter_window_split, Hlog. Qed.

Lemma window_good a b : Forall good_message (window a b).
Proof. apply filter_keeps, Hlog. Qed.

Lemma window_elem m a b : m ∈ window a b ↔ m ∈ log ∧ (a < msg_seq m ≤ b)%Z.
Proof. unfold window. rewrite list_elem_of_filter. tauto. Qed.

Lemma window_nil a b : (b ≤ a)%Z → window a b = [].
Proof. intros Hle. apply filter_none, Forall_true. intros m. lia. Qed.

Lemma next_after_in l m : next_after l = Some m → m ∈ log ∧ (l < msg_seq m)%Z.
Proof. intros [H ?]%list_find_Some_in. destruct_bools. done. Qed.

Lemma next_window l m : next_after l = Some m → window l (msg_seq m) = [m].
Proof.
  unfold next_after, window. destruct Hlog as [Hs _]. clear Hlog.
  induction Hs as [|x xs Hs IH Hx]; [done |]. simpl.
  destruct (l <? msg_seq x)%Z eqn:Hl; destruct_bools.
  - intros [= ->]. rewrite filter_cons, decide_True by lia. f_equal.
    apply filter_none. eapply Forall_impl; [exact Hx | simpl; lia].
  - intros Hf. rewrite filter_cons, decide_False by lia. by apply IH.
Qed.

Lemma elem_window m : m ∈ log → window (msg_seq m - 1) (msg_seq m) = [m].
Proof.
  unfold window. destruct Hlog as [Hs _]. clear Hlog.
  induction Hs as [|x xs Hs IH Hx]; [set_solver |].
  rewrite filter_cons. intros [-> | Hin]%elem_of_cons.
  - rewrite decide_True by lia. f_equal.
    apply filter_none. eapply Forall_impl; [exact Hx | simpl; lia].
  - rewrite Forall_forall in Hx. specialize (Hx _ Hin).
    rewrite decide_False by lia. by apply IH.
Qed.

Lemma proj_mine k n : mine k (proj k n).
Proof. apply replay_mine; [apply window_good | done]. Qed.

Lemma proj_app k a b :
  (0 ≤ a ≤ b)%Z → proj k b = replay k (proj k a) (window a b).
Proof. intros ?. unfold proj. by rewrite (window_split 0 a b), replay_app by lia. Qed.

(** A stretch replayed from any point inside it ends where it should. *)
Lemma proj_replay k c n l :
  (0 ≤ c ≤ n)%Z → (n ≤ l)%Z → replay k (proj k n) (window c l) = proj k l.
Proof.
  intros Hc Hn. rewrite (window_split c n l), replay_app by lia.
  rewrite (proj_app k n l) by lia. f_equal.
  rewrite (proj_app k c n) by lia. apply replay_idemp; [apply window_good | apply proj_mine].
Qed.

Lemma proj_none_mono k a b : (0 ≤ a ≤ b)%Z → proj k b = None → proj k a = None.
Proof.
  intros Hle Hb. rewrite (proj_app k a b) in Hb by done.
  destruct (proj k a); [| done]. by rewrite replay_some in Hb.
Qed.

Lemma proj_seq_mono k a b y z :
  (0 ≤ a ≤ b)%Z → proj k a = Some y → proj k b = Some z →
  (ds_stream_seq y ≤ a)%Z ∧ (ds_stream_seq y ≤ ds_stream_seq z)%Z ∧
  (ds_stream_seq y = ds_stream_seq z → y = z).
Proof.
  intros Hle Hy Hz.
  assert (ds_stream_seq y ≤ a)%Z as Hya.
  { destruct (replay_seq k None (window 0 a)) as [Hn | (s & m & Hs & Hin & _ & Hq)];
      [apply window_good | done | unfold proj in Hy; congruence |].
    apply window_elem in Hin. unfold proj in Hy. rewrite Hs in Hy. simplify_eq. lia. }
  split; [done |].
  pose proof (proj_mine k a) as Hm.
  rewrite (proj_app k a b), Hy in Hz by done. rewrite Hy in Hm.
  destruct (replay_seq k (Some y) (window a b)) as [Hn | (s & m & Hs & Hin & _ & Hq)];
    [apply window_good | done | |].
  - rewrite Hn in Hz. simplify_eq. done.
  - rewrite Hs in Hz. simplify_eq. apply window_elem in Hin. lia.
Qed.

Lemma proj_created k a b y z :
  (0 ≤ a ≤ b)%Z → proj k a = Some y → proj k b = Some z →
  ds_created_at z = ds_created_at y.
Proof.
  intros Hle Hy Hz. rewrite (proj_app k a b), Hy, replay_some in Hz by done. simplify_eq.
  apply ssteps_created, window_good.
Qed.

Lemma proj_effective k n y m :
  (0 ≤ n)%Z → proj k n = Some y → m ∈ window 0 n → effective k m →
  (msg_seq m ≤ ds_stream_seq y)%Z.
Proof.
  intros Hn Hy [Hin Hr]%window_elem Heff.
  assert (good_message m) as Hm by (pose proof (gl_good Hlog) as H; rewrite Forall_forall in H; auto).
  rewrite (proj_app k (msg_seq m - 1) n) in Hy by lia.
  rewrite (window_split _ (msg_seq m) n), elem_window, replay_app in Hy by (lia || done).
  pose proof (proj_mine k (msg_seq m - 1)) as Ho.
  set (o := proj k (msg_seq m - 1)) in *. clearbody o.
  destruct (replay_seq k (replay k o [m]) (window (msg_seq m) n)) as [Heq | (s & m' & Hs & Hin' & _ & Hq)];
    [apply window_good | by apply (mstep_mine k o m) | |].
  - rewrite Heq in Hy. simpl in Hy. destruct o as [s|].
    + rewrite mstep_some in Hy. simplify_eq. rewrite Heff; [done | apply Ho].
    + destruct (message_kind k m Hm) as [[Hno _] | [_ [Hno | (x & Hx & Hq & _)]]]; [congruence.. |].
      rewrite Hx in Hy. simplify_eq. lia.
  - rewrite Hs in Hy. simplify_eq. apply window_elem in Hin'. lia.
Qed.

(** A stretch that ends before the row it starts from is stale: what it makes
    of the row is no newer. *)
Lemma proj_stale k c l n y z :
  (0 ≤ c ≤ l)%Z → (l ≤ n)%Z → proj k n = Some y →
  replay k (Some y) (window c l) = Some z → (ds_stream_seq z ≤ ds_stream_seq y)%Z.
Proof.
  intros Hc Hl Hy Hz. pose proof (proj_mine k n) as Hm. rewrite Hy in Hm.
  destruct (replay_seq k (Some y) (window c l)) as [Heq | (s & m & Hs & Hin & Heff & Hq)];
    [apply window_good | done | rewrite Heq in Hz; by simplify_eq |].
  rewrite Hs in Hz. simplify_eq. rewrite Hq.
  apply (proj_effective k n); [lia | done | | done].
  apply window_elem in Hin. apply window_elem. split; [apply Hin | lia].
Qed.

(** ** Rows *)

(** Two states a row cannot tell apart. *)
Definition same_row (s s' : DocumentState) : Prop := document_to_row s = document_to_row s'.

#[local] Instance same_row_equivalence : Equivalence same_row.
Proof. split; unfold same_row; [intros ? | intros ?? | intros ???]; congruence. Qed.

Lemma overwrites_same_row k F s s' :
  overwrites k F → own k s → own k s' → same_row s s' → same_row (F s) (F s').
Proof.
  intros [_ HF] Hs Hs' Heq. unfold same_row, document_to_row in *.
  injection Heq as H1 H2 H3 H4 H5 H6 H7 H8 H9 H10 H11 H12 H13 H14 H15 H16 H17 H18 H19.
  f_equal;
    match goal with |- context [?φ (F s)] => 
      let Hφ := fresh in
      assert (field φ) as Hφ by constructor;
      destruct (HF _ _ Hφ) as [Hid | [c Hc]];
      [rewrite !Hid by done; done | rewrite !Hc by done; done] end.
Qed.

Lemma same_row_own k s s' : same_row s s' → own k s → own k s'.
Proof.
  intros Heq [Ht Hd]. unfold same_row, document_to_row in Heq.
  injection Heq as H1 H2 _ _ _ _ _ _ _ _ _ _ _ _ _ _ _ _ _. split; congruence.
Qed.

Lemma row_roundtrip s :
  state_in_range s → same_row (row_to_document (document_to_row s)) s.
Proof.
  intros (Hv & Hq & Hi & Hb). unfold same_row, document_to_row, row_to_document, in_i63 in *.
  simpl. f_equal.
  - by rewrite i64_as_u64_roundtrip.
  - by rewrite i64_as_u64_roundtrip.
  - by rewrite docstate_parse_as_str.
  - by rewrite indexstate_parse_as_str.
  - destruct (ds_index_version s) as [v|]; simpl; [| done].
    by rewrite i64_as_u64_roundtrip by auto.
  - destruct (ds_byte_size s) as [v|]; simpl; [| done].
    by rewrite i64_as_u64_roundtrip by auto.
  - destruct (tags_roundtrip (ds_tags s)) as (v & Hv' & Ht). rewrite Hv'. simpl.
    rewrite Ht. simpl. by rewrite Hv'.
  - apply jsonb_idemp.
  - apply timestamptz_idemp.
  - apply timestamptz_idemp.
Qed.

Lemma update_same k y z :
  own k y → own k z → ds_created_at z = ds_created_at y →
  update_row (document_to_row y) (document_to_row z) = document_to_row z.
Proof.
  intros [Ht Hd] [Ht' Hd'] Hc. unfold update_row, document_to_row. simpl. congruence.
Qed.

Lemma row_seq s : state_in_range s → r_stream_seq (document_to_row s) = ds_stream_seq s.
Proof.
  intros (_ & Hq & _). unfold in_i63 in Hq. simpl. unfold u64_as_i64, i64_max in *.
  destruct (_ <=? _)%Z eqn:?; destruct_bools; lia.
Qed.
End log.
