(* ===== verification/ProjectionRun.v ===== *)
(** * The projection loop against a database and a log

    [db_step] interprets the signature of Projection.v: Postgres runs a
    transaction's statements when it commits and may fail any call, losing the
    answer of a commit included; the consumer hands over the log in order.  Any
    number of loops may run at once, each believing it holds the lease.

    The theorems say that the rows are the fold of the log all the same, that a
    batch is all or nothing, and that no payload stops the checkpoint. *)

From S2P Require Import Prelude Text Events Fold Keys Projection Replay.

Section run.
Context {J : SerdeJson} {EC : EventCodec} {PG : Postgres} {IV : IntoValues}.

(** [log] is everything the stream will ever hold; a message not published yet
    is one the consumer has not been able to hand over ([Elapsed]). *)
Variable log : list message.
Variables (name table : string).
Abbreviation window := (window log).
Abbreviation proj := (proj log).
Abbreviation next_after := (next_after log).
Abbreviation covers := (covers log).

Definition db_step (X : Type) (e : PgE X) (w w' : Tables) : X → Prop :=
  match e in PgE X return X → Prop with
  | StillHeld | CreateConsumer _ | Begin => λ _, w' = w
  | SelectCheckpoint n => λ x,
      w' = w ∧ match x with Ok v => v = t_checkpoint w !! n | Err _ => True end
  | NextMessage after => λ d,
      w' = w ∧
      match d with
      | Delivered at_ info subject payload =>
          next_after after = Some (at_, subject, payload) ∧ info = Some at_
      | ReceiveFailed | StreamEnded | Elapsed => True
      end
  | SelectDocument tb tenant document_id => λ x,
      w' = w ∧
      match x with Ok row => row = rows w tb !! (tenant, document_id) | Err _ => True end
  | Execute s => λ x, w' = w ∧ (x = Ok tt → accepts s = true)
  | Commit tx => λ x, (w' = w ∧ is_ok x = false) ∨ w' = exec_stmts w tx
  end.

(** The same world on a good day: every call succeeds that Postgres does not
    refuse, and the stream ends where the log does. *)
Definition db : handler PgE Tables := λ X e w,
  match e in PgE X return Tables * X with
  | StillHeld => (w, Ok true)
  | SelectCheckpoint n => (w, Ok (t_checkpoint w !! n))
  | CreateConsumer _ | Begin => (w, Ok tt)
  | NextMessage after =>
      (w, match next_after after with
          | Some (seq, subject, payload) => Delivered seq (Some seq) subject payload
          | None => StreamEnded
          end)
  | SelectDocument tb tenant document_id => (w, Ok (rows w tb !! (tenant, document_id)))
  | Execute s => (w, if accepts s then Ok tt else Err "refused by the server")
  | Commit tx => (exec_stmts w tx, Ok tt)
  end.

(** Everybody else: other tables, other projections, failures under any name. *)
Definition elsewhere (w w' : Tables) : Prop :=
  rows w' table = rows w table ∧ t_checkpoint w' !! name = t_checkpoint w !! name.

(** [k]'s row is the fold of the log up to some point at or past [n]. *)
Definition reached (k : key) (n : Z) (w : Tables) : Prop :=
  ∃ n', (0 ≤ n')%Z ∧ (n ≤ n')%Z ∧ rows w table !! k = document_to_row <$> proj k n'.

Definition read_model (w : Tables) : Prop :=
  (∀ k, reached k 0 w) ∧
  ∀ c, t_checkpoint w !! name = Some c → (0 ≤ c)%Z ∧ ∀ k, reached k c w.

Definition progress (w w' : Tables) : Prop :=
  read_model w → read_model w' ∧ ∀ k n, reached k n w → reached k n w'.

(** The events of a document, with their sequences. *)
Definition event_of (k : key) (m : message) : option (Z * DocumentEvent) :=
  if bool_decide (document_key_from_subject m.1.2 = Some k) then
    match decode_event m.2 with
    | DEvent e => Some (msg_seq m, e)
    | DUnknown _ _ | DMalformed _ => None
    end
  else None.

Definition history (k : key) (n : Z) : list (Z * DocumentEvent) :=
  omap (event_of k) (window 0 n).

Definition failure_stmt (s : Stmt) : bool :=
  match s with SInsertFailure _ _ _ _ _ => true | _ => false end.

Lemma exec_app w ss ss' : exec_stmts w (ss ++ ss') = exec_stmts (exec_stmts w ss) ss'.
Proof. apply foldl_app. Qed.

Lemma db_sound X e w w' x : db X e w = (w', x) → db_step X e w w' x.
Proof.
  destruct e; simpl; intros [= <- <-]; try done; try (by right).
  - split; [done |]. by destruct (next_after after) as [[[??]?]|].
  - split; [done |]. by destruct (accepts s).
Qed.

Lemma run_alone {R} (p : prog PgE R) w :
  rtc (pool_step db_step elsewhere) (w, [p]) ((run db p w).1, [Ret (run db p w).2]).
Proof.
  eapply rtc_subrel; [| apply (pool_run db elsewhere)].
  intros c c'. apply pool_step_mono. intros X e v v' x. apply db_sound.
Qed.

(** ** A batch on a good day *)

(** The failure statement a message that is no event leaves. *)
Definition undecodable (m : message) : Prop := ∀ e, decode_event m.2 ≠ DEvent e.

Definition failure_of (self : ProjectionLoop) (seq : Z) (s : Stmt) : Prop :=
  match s with SInsertFailure nm q _ _ _ => nm = pl_name self ∧ q = u64_as_i64 seq | _ => False end.

Definition accepts_failures : Prop :=
  ∀ subject payload error, accepts_failure subject payload error = true.

Lemma run_prior_of self folded subject w :
  ∃ prior, run db (prior_of self folded subject) w = (w, Ok prior).
Proof.
  unfold prior_of. destruct (document_key_from_subject subject) as [k|]; [| by eexists].
  destruct (folded !! k); by eexists.
Qed.

Lemma run_execute tx s w :
  accepts s = true → run db (execute tx s) w = (w, Ok (tx ++ [s])).
Proof. intros Ha. unfold execute. simpl. by rewrite Ha. Qed.

Lemma run_fold_batch self batch folded tx last_seq w :
  accepts_failures →
  ∃ folded' tx',
    run db (fold_batch self batch folded tx last_seq) w =
      (w, Ok (folded', tx ++ tx', default last_seq (msg_seq <$> last batch))) ∧
    Forall (λ s, failure_stmt s = true) tx' ∧
    ∀ m, m ∈ batch → undecodable m → ∃ s, s ∈ tx' ∧ failure_of self (msg_seq m) s.
Proof.
  intros Hacc. revert folded tx last_seq.
  induction batch as [|m batch IH]; intros folded tx last_seq.
  { exists folded, []. cbn [fold_batch run]. rewrite app_nil_r. split_and!; [done | done | set_solver]. }
  destruct m as [[seq subject] payload]. cbn [fold_batch]. rewrite run_bind.
  destruct (run_prior_of self folded subject w) as [prior ->]. cbn [fst snd].
  assert (default last_seq (msg_seq <$> last ((seq, subject, payload) :: batch))
          = default seq (msg_seq <$> last batch)) as -> by (rewrite last_cons; by destruct (last batch)).
  destruct (project_event prior payload seq) as [s|pl er dv] eqn:Hp.
  - destruct (IH (<[(ds_tenant_id s, ds_document_id s):=s]> folded) tx seq)
      as (folded' & tx' & Hrun & Hf & Hu). exists folded', tx'. split_and!; [done | done |].
    intros m [-> | Hm]%elem_of_cons Hund; [| by apply Hu].
    unfold project_event in Hp. destruct (decode_event payload) as [e| |] eqn:Hd; [by destruct (Hund e) | done..].
  - rewrite run_bind. unfold record_failure.
    rewrite run_execute by apply Hacc. cbn [fst snd].
    destruct (IH folded (tx ++ [SInsertFailure (pl_name self) (u64_as_i64 seq) subject pl er]) seq)
      as (folded' & tx' & Hrun & Hf & Hu).
    exists folded', (SInsertFailure (pl_name self) (u64_as_i64 seq) subject pl er :: tx').
    split_and!; [by rewrite Hrun, <- app_assoc | by constructor |].
    intros m [-> | Hm]%elem_of_cons Hund.
    + eexists. split; [apply elem_of_cons; by left | done].
    + destruct (Hu m Hm Hund) as (s & Hs & ?). exists s. split; [set_solver | done].
Qed.

Lemma run_fold_batch_keeps self batch folded tx last_seq w :
  (run db (fold_batch self batch folded tx last_seq) w).1 = w.
Proof.
  revert folded tx last_seq. induction batch as [|[[seq subject] payload] batch IH];
    intros folded tx last_seq; [done |]. cbn [fold_batch]. rewrite run_bind.
  destruct (run_prior_of self folded subject w) as [prior ->]. cbn [fst snd].
  destruct (project_event prior payload seq) as [s|pl er dv]; [apply IH |].
  rewrite run_bind. unfold record_failure, execute. simpl.
  destruct (accepts_failure subject pl er); [apply IH | done].
Qed.

Lemma run_upsert_all self states tx w :
  (∀ s, s ∈ states → accepts_row (document_to_row s) = true) →
  run db (upsert_all self states tx) w =
    (w, Ok (tx ++ ((λ s, SUpsertDocument (pl_table self) (document_to_row s)) <$> states))).
Proof.
  revert tx. induction states as [|s states IH]; intros tx Hacc; cbn [upsert_all].
  { cbn [run fmap list_fmap]. by rewrite app_nil_r. }
  rewrite run_bind. unfold upsert_document.
  rewrite run_execute by (apply Hacc; set_solver). cbn [fst snd].
  rewrite IH by (intros; apply Hacc; set_solver). by rewrite <- app_assoc.
Qed.

Lemma run_upsert_refused self states tx w s :
  s ∈ states → accepts_row (document_to_row s) = false →
  ∃ e, run db (upsert_all self states tx) w = (w, Err e).
Proof.
  revert tx. induction states as [|s0 states IH]; intros tx Hin Hs; [set_solver |].
  cbn [upsert_all]. rewrite run_bind. unfold upsert_document.
  destruct (accepts_row (document_to_row s0)) eqn:Ha.
  - rewrite run_execute by done. cbn [fst snd]. apply IH; [| done].
    apply elem_of_cons in Hin as [-> |]; congruence.
  - unfold execute. simpl. rewrite Ha. by eexists.
Qed.

Lemma exec_failure_keeps w ss key v :
  Forall (λ s, failure_stmt s = true) ss →
  t_failure w !! key = Some v → t_failure (exec_stmts w ss) !! key = Some v.
Proof.
  intros Hss. revert w. induction Hss as [|s ss Hs _ IH]; intros w Hv; [done |].
  apply IH. destruct s; try done. simpl. case_match eqn:Ho; [done |].
  rewrite lookup_insert_ne; [done | congruence].
Qed.

Lemma exec_failure_inserts w ss self seq s :
  Forall (λ s, failure_stmt s = true) ss → s ∈ ss → failure_of self seq s →
  is_Some (t_failure (exec_stmts w ss) !! (pl_name self, u64_as_i64 seq)).
Proof.
  intros Hss. revert w. induction Hss as [|s0 ss Hs0 Hss IH]; intros w Hin Hs; [set_solver |].
  apply elem_of_cons in Hin as [<- | Hin]; [| by apply IH].
  destruct s; try done. destruct Hs as [-> ->].
  change (exec_stmts w (?s :: ss)) with (exec_stmts (exec_stmt w s) ss).
  destruct (t_failure (exec_stmt w (SInsertFailure (pl_name self) (u64_as_i64 seq) subject payload error))
             !! (pl_name self, u64_as_i64 seq)) as [v|] eqn:Hv.
  - exists v. by apply exec_failure_keeps.
  - simpl in Hv. case_match; [congruence |]. by rewrite lookup_insert_eq in Hv.
Qed.

Lemma exec_rest_failures w self states l :
  t_failure (exec_stmts w (((λ s, SUpsertDocument (pl_table self) (document_to_row s)) <$> states)
    ++ [SUpsertCheckpoint (pl_name self) l])) = t_failure w ∧
  t_checkpoint (exec_stmts w (((λ s, SUpsertDocument (pl_table self) (document_to_row s)) <$> states)
    ++ [SUpsertCheckpoint (pl_name self) l])) !! pl_name self = Some l.
Proof.
  unfold exec_stmts. rewrite !foldl_app. simpl. rewrite lookup_insert_eq. split; [| done].
  revert w. induction states as [|s states IH]; intros w; [done |]. simpl. by rewrite IH.
Qed.


(** Fact: what does stop it is a row Postgres refuses: the batch that folds a
    document into such a row changes nothing, the checkpoint included, however
    often it is tried. *)
Theorem refused_row_stalls self batch w folded tx l k s :
  (run db (fold_batch self batch ∅ [] 0) w).2 = Ok (folded, tx, l) →
  folded !! k = Some s → accepts_row (document_to_row s) = false →
  ∃ e, run db (apply_batch self batch) w = (w, Err e).
Proof.
  intros Hrun Hk Hs. unfold apply_batch. rewrite run_bind. cbn [call run db fst snd].
  rewrite run_bind.
  pose proof (run_fold_batch_keeps self batch ∅ [] 0 w) as Hw.
  destruct (run db (fold_batch self batch ∅ [] 0) w) as [w0 r]. cbn [fst snd] in *. subst w0 r.
  cbn [fst snd]. rewrite run_bind.
  destruct (run_upsert_refused self (into_values folded) tx w s) as [e ->]; [| done | by eexists].
  rewrite into_values_perm. apply list_elem_of_fmap. exists (k, s). split; [done |].
  by apply elem_of_map_to_list.
Qed.

Hypothesis Hlog : good_log log.

(** ** Lemmas *)

Lemma replay_history k o ms s :
  fold_from o (omap (event_of k) ms) = Ok s → replay k o ms = s.
Proof.
  revert o. induction ms as [|m ms IH]; intros o; [by intros [= ->] |].
  rewrite replay_cons. cbn [omap list_omap].
  unfold event_of, mstep. destruct m as [[seq subject] payload]. unfold msg_seq. simpl.
  case_bool_decide; [| apply IH].
  unfold project_event. destruct (decode_event payload) as [e| |]; [| apply IH..].
  cbn [fold_from]. destruct (apply o e seq) as [s'|]; simpl; [apply IH | done].
Qed.

Lemma proj_history k n s : fold_history (history k n) = Ok s → proj k n = s.
Proof. apply replay_history. Qed.

#[local] Instance progress_refl : Reflexive progress.
Proof. intros w Hw. done. Qed.

#[local] Instance progress_trans : Transitive progress.
Proof.
  intros w1 w2 w3 H1 H2 Hw. destruct (H1 Hw) as [Hw2 Hr]. destruct (H2 Hw2) as [Hw3 Hr'].
  split; [done | eauto].
Qed.

Lemma progress_elsewhere w w' : elsewhere w w' → progress w w'.
Proof.
  intros [Hr Hc] [H0 Hck]. unfold read_model, reached in *. rewrite Hr, Hc. done.
Qed.

Lemma stable_read_model : stable progress read_model.
Proof. intros w w' Hw HG. by apply HG. Qed.

Lemma reached_mono k n n' w : (n ≤ n')%Z → reached k n' w → reached k n w.
Proof. intros Hle (m & ? & ? & ?). exists m. split_and!; [done | lia | done]. Qed.

Lemma covers_le l batch lend : covers l batch lend → (l ≤ lend)%Z.
Proof.
  revert l. induction batch as [|m batch IH]; intros l; simpl; [lia |].
  intros [Hn%next_after_in Hc]. specialize (IH _ Hc). lia.
Qed.

Lemma covers_snoc l batch lend m :
  covers l batch lend → next_after lend = Some m → covers l (batch ++ [m]) (msg_seq m).
Proof.
  revert l. induction batch as [|x batch IH]; intros l; simpl; [by intros -> |].
  intros [Hx Hc] Hm. split; [done |]. by apply IH.
Qed.

(** Between a message and the next one nothing happens to a document. *)
Lemma proj_gap k l m p :
  (0 ≤ l)%Z → next_after l = Some m → (l ≤ p < msg_seq m)%Z → proj k p = proj k l.
Proof.
  intros Hl Hm Hp. rewrite (proj_app log Hlog k l p) by lia.
  assert (window l p = []) as ->; [| done].
  destruct (window l p) as [|x xs] eqn:Hw; [done |].
  assert (x ∈ window l p) as [Hx Hr]%window_elem by (rewrite Hw; set_solver).
  assert (x ∈ window l (msg_seq m)) as Hin by (apply window_elem; split; [done | lia]).
  rewrite (next_window log Hlog) in Hin by done. apply list_elem_of_singleton in Hin as ->. lia.
Qed.

Lemma proj_next k l m :
  (0 ≤ l)%Z → next_after l = Some m → proj k (msg_seq m) = mstep k (proj k l) m.
Proof.
  intros Hl Hm. pose proof (next_after_in log _ _ Hm) as [_ ?].
  rewrite (proj_app log Hlog k l) by lia. by rewrite (next_window log Hlog).
Qed.

Lemma message_good m : m ∈ log → good_message m.
Proof. pose proof (gl_good log Hlog) as H. rewrite Forall_forall in H. auto. Qed.

(** ** What [fold_batch] has folded *)

(** A batch that started after [c] and has come to [l]. *)
Definition folded_fact (c l : Z) (folded : gmap key DocumentState) (w : Tables) (k : key) : Prop :=
  match folded !! k with
  | Some s =>
      own k s ∧
      ∃ n c' z, (0 ≤ c' ≤ n)%Z ∧ (c' ≤ l)%Z ∧ reached k n w ∧
        replay k (proj k n) (window c' l) = Some z ∧ same_row s z
  | None => ∀ n, (c ≤ n ≤ l)%Z → proj k n = proj k l
  end.

Definition batch_fact (c l : Z) (folded : gmap key DocumentState) (w : Tables) : Prop :=
  (0 ≤ c ≤ l)%Z ∧ read_model w ∧ (∀ k, reached k c w) ∧ ∀ k, folded_fact c l folded w k.

(** What [prior_of] answers for the document [k]. *)
Definition prior_fact (c l : Z) (folded : gmap key DocumentState) (k : key)
    (prior : option DocumentState) (w : Tables) : Prop :=
  match folded !! k with
  | Some s => prior = Some s
  | None => ∃ n, (c ≤ n)%Z ∧ (l ≤ n)%Z ∧ reached k n w ∧
      option_Forall2 (λ s z, own k s ∧ same_row s z) prior (proj k n)
  end.

Lemma folded_fact_progress c l folded w w' k :
  progress w w' → read_model w → folded_fact c l folded w k → folded_fact c l folded w' k.
Proof.
  intros HG Hw. unfold folded_fact. destruct (folded !! k); [| done].
  intros (Ho & n & c' & z & ? & ? & Hr & ?). split; [done |].
  exists n, c', z. split_and!; try lia; try tauto. by apply HG.
Qed.

Lemma stable_batch c l folded : stable progress (batch_fact c l folded).
Proof.
  intros w w' (Hc & Hw & Hr & Hf) HG. destruct (HG Hw) as [Hw' Hre].
  split_and!; [lia.. | done | eauto |]. intros k. by eapply folded_fact_progress.
Qed.

Lemma stable_prior c l folded k prior :
  stable progress (λ w, batch_fact c l folded w ∧ prior_fact c l folded k prior w).
Proof.
  intros w w' [Hb Hp] HG. split; [by eapply stable_batch |].
  destruct Hb as (_ & Hw & _). destruct (HG Hw) as [_ Hre].
  unfold prior_fact in *. destruct (folded !! k); [done |].
  destruct Hp as (n & ? & ? & ? & ?). exists n. auto.
Qed.

(** The row that is read is as good as one read at [l] or later. *)
Lemma load_prior c l folded k w :
  batch_fact c l folded w → folded !! k = None →
  prior_fact c l folded k (row_to_document <$> rows w table !! k) w.
Proof.
  intros (Hc & _ & Hr & Hf) Hk. unfold prior_fact. rewrite Hk.
  destruct (Hr k) as (n & Hn0 & Hn & Hrow).
  assert (proj k n = proj k (Z.max n l)) as Heq.
  { destruct (Z.le_gt_cases n l).
    - rewrite Z.max_r by lia. specialize (Hf k). unfold folded_fact in Hf. rewrite Hk in Hf.
      apply Hf. lia.
    - by rewrite Z.max_l by lia. }
  exists (Z.max n l). split_and!; [lia | lia | |].
  - exists (Z.max n l). rewrite <- Heq. split_and!; [lia | lia | done].
  - rewrite Hrow, <- Heq. pose proof (proj_mine log Hlog k n) as Hm.
    destruct (proj k n) as [s|]; simpl; constructor. destruct Hm as [Ho Hir].
    split; [| by apply row_roundtrip].
    eapply same_row_own; [symmetry; by apply row_roundtrip | done].
Qed.

Lemma mstep_own k o m s :
  good_message m → match o with Some y => own k y | None => True end →
  mstep k o m = Some s → own k s.
Proof.
  intros Hm Ho Hs. destruct o as [y|].
  - rewrite mstep_some in Hs. simplify_eq. by apply (sstep_overwrites k m Hm).
  - destruct (message_kind k m Hm) as [[Hn _] | [_ [Hn | (x & Hx & _ & ?)]]]; congruence.
Qed.

Lemma failure_inert k s m payload error dv :
  good_message m → own k s → document_key_from_subject m.1.2 = Some k →
  project_event (Some s) m.2 (msg_seq m) = Failure payload error dv → inert k m.
Proof.
  intros Hm Hs Hk Hf. destruct (message_kind k m Hm) as [|[Heff _]]; [done |].
  destruct (mstep_cases k m Hm) as [Hid | (e & -> & _ & _ & Hd & He)].
  { split; [apply Hid |]. intros y _. unfold sstep. by rewrite Hid. }
  unfold project_event in Hf. rewrite Hd in Hf.
  destruct (apply (Some s) e (msg_seq m)) eqn:Ha; [done |].
  pose proof (apply_some_acceptable _ s e (msg_seq m) eq_refl Hs) as Hacc.
  rewrite Ha in Hacc. simpl in Hacc. split.
  - rewrite He. pose proof (apply_none_ok e (msg_seq m)) as Hok.
    destruct (apply None e (msg_seq m)); [| done]. symmetry in Hok.
    by rewrite create_acceptable in Hacc.
  - intros y Hy. unfold sstep. rewrite He.
    pose proof (apply_some_acceptable _ y e (msg_seq m) eq_refl Hy) as Hok.
    rewrite <- Hacc in Hok. by destruct (apply (Some y) e (msg_seq m)).
Qed.

Lemma const_next c l m k :
  (0 ≤ c ≤ l)%Z → next_after l = Some m → proj k (msg_seq m) = proj k l →
  (∀ n, (c ≤ n ≤ l)%Z → proj k n = proj k l) →
  ∀ n, (c ≤ n ≤ msg_seq m)%Z → proj k n = proj k (msg_seq m).
Proof.
  intros Hc Hm Heq Hconst n Hn. rewrite Heq.
  destruct (Z.le_gt_cases n l); [apply Hconst; lia |].
  destruct (Z.eq_dec n (msg_seq m)) as [->|]; [done |].
  apply (proj_gap k l m); [lia | done | lia].
Qed.

(** What a message leaves of the facts of the documents it is not about. *)
Lemma folded_fact_other c l folded folded' w k m :
  (0 ≤ c ≤ l)%Z → next_after l = Some m →
  (∀ o, mstep k o m = o) → folded' !! k = folded !! k →
  folded_fact c l folded w k → folded_fact c (msg_seq m) folded' w k.
Proof.
  intros Hc Hm Hid Hf. unfold folded_fact. rewrite Hf.
  pose proof (next_after_in log _ _ Hm) as [_ Hlt].
  destruct (folded !! k) as [s|].
  - intros (Ho & n & c' & z & ? & ? & Hr & Hz & Hs). split; [done |].
    exists n, c', z. split_and!; try lia; try done.
    rewrite (window_split log Hlog c' l), replay_app, (next_window log Hlog), Hz by (lia || done).
    apply Hid.
  - apply (const_next c l m k); [lia | done |]. by rewrite (proj_next k l m), Hid by (lia || done).
Qed.

(** .. and of the one it is about, when it folds .. *)
Lemma folded_fact_upsert c l folded w k m prior s :
  (0 ≤ c ≤ l)%Z → next_after l = Some m →
  prior_fact c l folded k prior w → mstep k prior m = Some s →
  folded_fact c l folded w k →
  folded_fact c (msg_seq m) (<[k := s]> folded) w k.
Proof.
  intros Hc Hm Hp Hs Hf. unfold folded_fact, prior_fact in *. rewrite lookup_insert_eq.
  pose proof (next_after_in log _ _ Hm) as [Hin Hlt].
  pose proof (message_good m Hin) as Hgood.
  destruct (folded !! k) as [y|] eqn:Hk.
  - subst prior. destruct Hf as (Ho & n & c' & z & ? & ? & Hr & Hz & Hyz).
    rewrite mstep_some in Hs. simplify_eq.
    split; [by apply (sstep_overwrites k m Hgood) |].
    exists n, c', (sstep k z m). split_and!; try lia; try done.
    + rewrite (window_split log Hlog c' l), replay_app, (next_window log Hlog), Hz by (lia || done).
      simpl. apply mstep_some.
    + apply (overwrites_same_row k (λ s, sstep k s m)); [by apply sstep_overwrites | done | | done].
      by eapply same_row_own.
  - destruct Hp as (n & ? & ? & Hr & Hprior).
    remember (proj k n) as o eqn:Ho. destruct Hprior as [p z [Hop Hpz] |].
    + rewrite mstep_some in Hs. simplify_eq.
      split; [by apply (sstep_overwrites k m Hgood) |].
      exists n, l, (sstep k z m). split_and!; try lia; try done.
      * rewrite (next_window log Hlog), <- Ho by done. apply mstep_some.
      * apply (overwrites_same_row k (λ s, sstep k s m)); [by apply sstep_overwrites | done | | done].
        by eapply same_row_own.
    + split; [by eapply (mstep_own k None) |].
      exists n, l, s. split_and!; try lia; try done.
      by rewrite (next_window log Hlog), <- Ho by done.
Qed.

(** .. and when it does not. *)
Lemma folded_fact_failure c l folded w k m prior payload error dv :
  (0 ≤ c ≤ l)%Z → next_after l = Some m → document_key_from_subject m.1.2 = Some k →
  prior_fact c l folded k prior w →
  project_event prior m.2 (msg_seq m) = Failure payload error dv →
  folded_fact c l folded w k → folded_fact c (msg_seq m) folded w k.
Proof.
  intros Hc Hm Hkey Hp Hfail Hf.
  pose proof (next_after_in log _ _ Hm) as [Hin Hlt].
  pose proof (message_good m Hin) as Hgood.
  destruct prior as [p|].
  - assert (own k p) as Hop.
    { unfold prior_fact, folded_fact in *. destruct (folded !! k); [simplify_eq; apply Hf |].
      destruct Hp as (n & _ & _ & _ & Hp). by inversion Hp as [?? [??]|]. }
    destruct (failure_inert k p m _ _ _ Hgood Hop Hkey Hfail) as [Hn Hs].
    unfold folded_fact in *. destruct (folded !! k) as [s|].
    + destruct Hf as (Ho & n & c' & z & ? & ? & Hr & Hz & Hsz). split; [done |].
      exists n, c', z. split_and!; try lia; try done.
      rewrite (window_split log Hlog c' l), replay_app, (next_window log Hlog), Hz by (lia || done).
      simpl. rewrite mstep_some, Hs; [done |]. by eapply same_row_own.
    + assert (proj k (msg_seq m) = proj k l) as Heq.
      { rewrite (proj_next k l m) by (lia || done). pose proof (proj_mine log Hlog k l) as Hmine.
        destruct (proj k l) as [y|]; [| done]. rewrite mstep_some, Hs; [done | apply Hmine]. }
      by apply (const_next c l m k).
  - unfold prior_fact, folded_fact in *. destruct (folded !! k); [done |].
    destruct Hp as (n & ? & ? & _ & Hp). inversion Hp as [|Hn].
    apply (const_next c l m k); [lia | done | | done].
    rewrite (proj_next k l m), (proj_none_mono log Hlog k l n) by (lia || done).
    unfold mstep. destruct m as [[seq subject] payload'].
    rewrite bool_decide_eq_true_2 by done. unfold msg_seq in Hfail. simpl in Hfail.
    by rewrite Hfail.
Qed.
(** ** What a commit does *)

Lemma upsert_rows_lookup (kvs : list (key * DocumentState)) (m : gmap key Row) k :
  NoDup kvs.*1 → (∀ k s, (k, s) ∈ kvs → own k s) →
  foldl upsert_row m (document_to_row <$> kvs.*2) !! k =
    match (list_to_map kvs : gmap key DocumentState) !! k with
    | None => m !! k
    | Some s =>
        Some match m !! k with
             | None => document_to_row s
             | Some old =>
                 if (r_stream_seq old <? r_stream_seq (document_to_row s))%Z
                 then update_row old (document_to_row s) else old
             end
    end.
Proof.
  revert m. induction kvs as [|[k0 s0] kvs IH]; intros m Hnd Hown; [done |].
  apply NoDup_cons in Hnd as [Hk0 Hnd]. cbn [fmap list_fmap foldl snd].
  rewrite IH by (done || intros; apply Hown; set_solver).
  assert ((r_tenant_id (document_to_row s0), r_document_id (document_to_row s0)) = k0) as Hkey.
  { destruct (Hown k0 s0) as [Ht Hd]; [set_solver |]. simpl. rewrite Ht, Hd. by destruct k0. }
  unfold upsert_row. rewrite Hkey, list_to_map_cons.
  destruct (decide (k0 = k)) as [->|Hne].
  - rewrite lookup_insert_eq, (not_elem_of_list_to_map_1 kvs) by done.
    destruct (m !! k) as [old|] eqn:Hold; [| by rewrite lookup_insert_eq].
    destruct (r_stream_seq old <? _)%Z; [by rewrite lookup_insert_eq | done].
  - rewrite lookup_insert_ne by done.
    destruct (m !! k0); [destruct (_ <? _)%Z |]; rewrite ?lookup_insert_ne by done; done.
Qed.

Definition upserts (states : list DocumentState) : list Stmt :=
  (λ s, SUpsertDocument table (document_to_row s)) <$> states.

Lemma exec_failures w ss :
  Forall (λ s, failure_stmt s = true) ss →
  t_document (exec_stmts w ss) = t_document w ∧ t_checkpoint (exec_stmts w ss) = t_checkpoint w.
Proof.
  intros Hss. revert w. induction Hss as [|s ss Hs _ IH]; intros w; [done |].
  cbn [exec_stmts foldl]. destruct (IH (exec_stmt w s)) as [Hd Hc].
  unfold exec_stmts in *. rewrite Hd, Hc. by destruct s.
Qed.

Lemma exec_upserts w states :
  rows (exec_stmts w (upserts states)) table =
    foldl upsert_row (rows w table) (document_to_row <$> states) ∧
  t_checkpoint (exec_stmts w (upserts states)) = t_checkpoint w.
Proof.
  revert w. induction states as [|s states IH]; intros w; [done |].
  unfold upserts, exec_stmts in *. cbn [fmap list_fmap foldl].
  destruct (IH (exec_stmt w (SUpsertDocument table (document_to_row s)))) as [Hr Hc].
  rewrite Hr, Hc. unfold rows at 1. simpl. by rewrite lookup_insert_eq.
Qed.

(** The transaction of a batch. *)
Definition batch_tx (fails : list Stmt) (states : list DocumentState) (l : Z) : list Stmt :=
  fails ++ upserts states ++ [SUpsertCheckpoint name (u64_as_i64 l)].

Lemma exec_batch w fails folded l k :
  Forall (λ s, failure_stmt s = true) fails →
  (∀ k s, folded !! k = Some s → own k s) →
  let w' := exec_stmts w (batch_tx fails (into_values folded) l) in
  t_checkpoint w' = <[name := u64_as_i64 l]> (t_checkpoint w) ∧
  rows w' table !! k =
    match folded !! k with
    | None => rows w table !! k
    | Some s =>
        Some match rows w table !! k with
             | None => document_to_row s
             | Some old =>
                 if (r_stream_seq old <? r_stream_seq (document_to_row s))%Z
                 then update_row old (document_to_row s) else old
             end
    end.
Proof.
  intros Hfails Hown. unfold batch_tx, exec_stmts. rewrite !foldl_app.
  destruct (exec_failures w fails Hfails) as [Hd Hc]. unfold exec_stmts in Hd, Hc.
  destruct (exec_upserts (foldl exec_stmt w fails) (into_values folded)) as [Hr Hc'].
  unfold exec_stmts in Hr, Hc'. cbn [foldl exec_stmt t_checkpoint].
  split; [by rewrite Hc', Hc |].
  unfold rows in Hr |- * at 1. simpl. rewrite Hr, Hd. fold (rows w table).
  destruct (Permutation_map_inv _ _ (into_values_perm folded)) as (kvs & Hkvs & Hperm).
  change (map snd kvs) with (kvs.*2) in Hkvs. rewrite Hkvs.
  assert (NoDup kvs.*1) as Hnd by (rewrite <- Hperm; apply NoDup_fst_map_to_list).
  rewrite upsert_rows_lookup.
  - assert (list_to_map kvs = folded) as ->; [| done].
    rewrite <- (list_to_map_to_list folded). symmetry.
    apply list_to_map_proper; [apply NoDup_fst_map_to_list | done].
  - done.
  - intros k' s'. rewrite <- Hperm, elem_of_map_to_list. apply Hown.
Qed.

(** What a stretch that makes [z] of the state at [n] was before or after. *)
Lemma stretch_cases k n c l z :
  (0 ≤ c ≤ n)%Z → (c ≤ l)%Z → replay k (proj k n) (window c l) = Some z →
  ((n ≤ l)%Z ∧ proj k l = Some z) ∨
  ((l < n)%Z ∧ ∃ y, proj k n = Some y ∧ (ds_stream_seq z ≤ ds_stream_seq y)%Z).
Proof.
  intros Hc Hl Hz. destruct (Z.le_gt_cases n l).
  - left. split; [done |]. by rewrite <- (proj_replay log Hlog k c n l) by lia.
  - right. split; [lia |]. destruct (proj k n) as [y|] eqn:Hy.
    + exists y. split; [done |]. eapply (proj_stale log Hlog k c l n); [lia | lia | done..].
    + rewrite <- (proj_none_mono log Hlog k c n) in Hz by (lia || done).
      rewrite <- (proj_app log Hlog) in Hz by lia.
      by rewrite (proj_none_mono log Hlog k l n) in Hz by (lia || done).
Qed.

(** The guarded upsert of a batch that ends at [l] into a row read at [n] or
    later: the later of the two. *)
Lemma guarded_upsert k n n1 c l z :
  (0 ≤ c ≤ n)%Z → (c ≤ l)%Z → (n ≤ n1)%Z →
  replay k (proj k n) (window c l) = Some z →
  Some match document_to_row <$> proj k n1 with
       | None => document_to_row z
       | Some old =>
           if (r_stream_seq old <? r_stream_seq (document_to_row z))%Z
           then update_row old (document_to_row z) else old
       end = document_to_row <$> proj k (Z.max n1 l).
Proof.
  intros Hc Hl Hn Hz.
  assert (own k z ∧ state_in_range z) as [Hoz Hrz].
  { pose proof (replay_mine k (proj k n) (window c l)) as Hm. rewrite Hz in Hm.
    apply Hm; [apply window_good; done | apply proj_mine; done]. }
  pose proof (proj_mine log Hlog k n1) as Hm1.
  destruct (stretch_cases k n c l z Hc Hl Hz) as [[Hnl Hpl] | [Hnl (y0 & Hy0 & Hle)]].
  - destruct (Z.le_gt_cases l n1).
    + rewrite Z.max_l by lia. destruct (proj k n1) as [y|] eqn:Hy; cbn [fmap option_fmap option_map].
      * destruct Hm1 as [Hoy Hry]. rewrite !row_seq by done.
        destruct (proj_seq_mono log Hlog k l n1 z y) as (_ & Hsq & _); [lia | done..|].
        destruct (_ <? _)%Z eqn:Hlt; destruct_bools; [lia | done].
      * rewrite (proj_none_mono log Hlog k l n1) in Hpl by (lia || done). done.
    + rewrite Z.max_r, Hpl by lia. destruct (proj k n1) as [y|] eqn:Hy; cbn [fmap option_fmap option_map]; [| done].
      destruct Hm1 as [Hoy Hry]. rewrite !row_seq by done.
      destruct (proj_seq_mono log Hlog k n1 l y z) as (_ & Hsq & Heq); [lia | done..|].
      destruct (_ <? _)%Z eqn:Hlt; destruct_bools.
      * rewrite (update_same k); [done.. |]. eapply (proj_created log Hlog k n1 l); [lia | done..].
      * by rewrite Heq by lia.
  - rewrite Z.max_l by lia. destruct (proj k n1) as [y|] eqn:Hy; cbn [fmap option_fmap option_map].
    + destruct Hm1 as [Hoy Hry]. rewrite !row_seq by done.
      destruct (proj_seq_mono log Hlog k n n1 y0 y) as (_ & Hsq & _); [lia | done..|].
      destruct (_ <? _)%Z eqn:Hlt; destruct_bools; [lia | done].
    + rewrite (proj_none_mono log Hlog k n n1) in Hy0 by (lia || done). done.
Qed.

Lemma batch_own c l folded w k s :
  batch_fact c l folded w → folded !! k = Some s → own k s.
Proof.
  intros (_ & _ & _ & Hf) Hs. specialize (Hf k). unfold folded_fact in Hf.
  rewrite Hs in Hf. apply Hf.
Qed.

(** A committed batch brings every row to its end, or leaves it further on. *)
Lemma commit_reached w fails folded c l k n :
  batch_fact c l folded w → Forall (λ s, failure_stmt s = true) fails → reached k n w →
  reached k (Z.max n l) (exec_stmts w (batch_tx fails (into_values folded) l)).
Proof.
  intros Hb Hfails (n1 & Hn0 & Hn & Hrow).
  destruct (exec_batch w fails folded l k Hfails) as [_ Hrow'];
    [intros; by eapply batch_own |].
  destruct Hb as (Hc & _ & Hr & Hf). specialize (Hf k). specialize (Hr k).
  unfold reached. rewrite Hrow'. clear Hrow'.
  unfold folded_fact in Hf. destruct (folded !! k) as [s|].
  - destruct Hf as (_ & m & c' & z & ? & ? & (n2 & ? & ? & Hrow2) & Hz & ->).
    exists (Z.max (Z.max n1 n2) l). split_and!; [lia.. |].
    assert (rows w table !! k = document_to_row <$> proj k (Z.max n1 n2)) as ->.
    { destruct (Z.max_spec n1 n2) as [[_ ->] | [_ ->]]; done. }
    apply (guarded_upsert k m _ c'); [lia.. | done].
  - destruct Hr as (n2 & ? & ? & Hrow2).
    exists (Z.max (Z.max n1 n2) l). split_and!; [lia.. |].
    assert (rows w table !! k = document_to_row <$> proj k (Z.max n1 n2)) as ->.
    { destruct (Z.max_spec n1 n2) as [[_ ->] | [_ ->]]; done. }
    destruct (Z.le_gt_cases (Z.max n1 n2) l); [| by rewrite (Z.max_l _ l) by lia].
    rewrite (Z.max_r _ l) by lia. by rewrite Hf by lia.
Qed.

Lemma commit_progress w fails folded c l :
  (0 < l ≤ i64_max)%Z → batch_fact c l folded w → Forall (λ s, failure_stmt s = true) fails →
  let w' := exec_stmts w (batch_tx fails (into_values folded) l) in
  progress w w' ∧ read_model w' ∧ ∀ k, reached k l w'.
Proof.
  intros Hl Hb Hfails w'. pose proof Hb as (_ & Hw & Hr & _).
  assert (∀ k n, reached k n w → reached k n w') as Hre.
  { intros k n Hk. eapply reached_mono; [| by eapply commit_reached]. lia. }
  assert (∀ k, reached k l w') as Hlk.
  { intros k. eapply reached_mono; [| by eapply (commit_reached w fails folded c l k c)]. lia. }
  assert (read_model w') as Hw'.
  { split; [intros k; by apply (reached_mono k 0 l); [lia |] |].
    intros ck Hck. destruct (exec_batch w fails folded l ("", "") Hfails) as [Hc _];
      [intros; by eapply batch_own |].
    fold w' in Hc. rewrite Hc, lookup_insert_eq in Hck. simplify_eq.
    unfold u64_as_i64. rewrite (proj2 (Z.leb_le l i64_max)) by lia. split; [lia | done]. }
  done.
Qed.
(** ** The programs keep the read model *)

Abbreviation pgrg := (rg db_step progress).

(** The calls that leave the tables alone. *)
Definition reads {A} (e : PgE A) : bool := match e with Commit _ => false | _ => true end.

Lemma db_reads A (e : PgE A) w w' x : reads e = true → db_step A e w w' x → w' = w.
Proof. destruct e; simpl; intros Hr Hs; first [exact Hs | apply Hs | discriminate]. Qed.

Lemma rg_read {A B} (e : PgE A) (f : A → prog PgE B) P Q R :
  reads e = true → (∀ x, stable progress (Q x)) →
  (∀ w x, P w → db_step A e w w x → Q x w) →
  (∀ x, pgrg (f x) (Q x) R) → pgrg (prog_bind (call e) f) P R.
Proof.
  intros He Hst Hq Hf. apply (rg_call _ _ _ _ _ Q); [| done].
  intros w w' x HP Hs. pose proof (db_reads _ e w w' x He Hs) as ->.
  split_and!; [done | done | by apply Hq].
Qed.

Lemma rg_idle {A B} (e : PgE A) (f : A → prog PgE B) P R :
  reads e = true → stable progress P →
  (∀ x, pgrg (f x) P R) → pgrg (prog_bind (call e) f) P R.
Proof. intros He Hst Hf. by apply (rg_read e f P (λ _, P)). Qed.

Lemma rg_ret_db {R} (r : R) (P : Tables → Prop) (Q : R → Tables → Prop) :
  (∀ w, P w → Q r w) → pgrg (Ret r) P Q.
Proof. apply rg_ret. Qed.

Lemma execute_rg tx s P :
  stable progress P →
  pgrg (execute tx s) P (λ r w, P w ∧ ∀ tx', r = Ok tx' → tx' = tx ++ [s]).
Proof.
  intros Hst. unfold execute. apply rg_idle; [done | done |].
  intros [[]|e]; apply rg_ret_db; intros w Hw; (split; [done | congruence]).
Qed.

Lemma prior_of_rg self c l folded subject :
  pl_table self = table →
  pgrg (prior_of self folded subject) (batch_fact c l folded)
    (λ r w, batch_fact c l folded w ∧
       ∀ prior, r = Ok prior →
         match document_key_from_subject subject with
         | Some k => prior_fact c l folded k prior w
         | None => prior = None
         end).
Proof.
  intros Ht. unfold prior_of. destruct (document_key_from_subject subject) as [k|].
  - destruct (folded !! k) as [s|] eqn:Hk.
    + apply rg_ret_db. intros w Hw. split; [done |]. intros prior [= <-].
      unfold prior_fact. by rewrite Hk.
    + unfold load_document. rewrite Ht.
      apply (rg_read _ _ _ (λ x w, batch_fact c l folded w ∧
               match x with
               | Ok row => prior_fact c l folded k (option_map row_to_document row) w
               | Err _ => True
               end)); [done | | |].
      * intros [row|e]; [apply stable_prior |].
        intros w w' [Hb _] HG. split; [by eapply stable_batch | done].
      * intros w x Hb [_ Hx]. split; [done |]. destruct x as [row|]; [| done].
        subst row. rewrite <- surjective_pairing. by apply load_prior.
      * intros [row|e]; apply rg_ret_db; intros w [Hb Hp]; (split; [done |]);
          intros prior Heq; simplify_eq. done.
  - apply rg_ret_db. intros w Hw. split; [done |]. by intros prior [= <-].
Qed.

Lemma prior_own c l folded k prior w :
  batch_fact c l folded w → prior_fact c l folded k prior w →
  match prior with Some s => own k s | None => True end.
Proof.
  intros (_ & _ & _ & Hf) Hp. specialize (Hf k). unfold prior_fact, folded_fact in *.
  destruct (folded !! k) as [s|]; [subst prior; apply Hf |].
  destruct Hp as (n & _ & _ & _ & Hp). by destruct Hp as [?? [??]|].
Qed.

Lemma mstep_upsert k prior m s :
  document_key_from_subject m.1.2 = Some k →
  project_event prior m.2 (msg_seq m) = Upsert s → mstep k prior m = Some s.
Proof.
  intros Hk Hs. unfold mstep. destruct m as [[seq subject] payload].
  rewrite bool_decide_eq_true_2 by done. unfold msg_seq in Hs. simpl in *. by rewrite Hs.
Qed.

Lemma mstep_other k k' o m :
  document_key_from_subject m.1.2 = Some k → k' ≠ k → mstep k' o m = o.
Proof.
  intros Hk Hne. unfold mstep. destruct m as [[seq subject] payload]. simpl in *.
  rewrite bool_decide_eq_false_2; [done | congruence].
Qed.

Lemma batch_upsert c l folded k m prior s w :
  next_after l = Some m → document_key_from_subject m.1.2 = Some k →
  batch_fact c l folded w → prior_fact c l folded k prior w →
  project_event prior m.2 (msg_seq m) = Upsert s →
  batch_fact c (msg_seq m) (<[(ds_tenant_id s, ds_document_id s) := s]> folded) w.
Proof.
  intros Hm Hk Hb Hp Hs. pose proof (next_after_in log _ _ Hm) as [Hin Hlt].
  pose proof (mstep_upsert k prior m s Hk Hs) as Hstep.
  pose proof (mstep_own k prior m s (message_good m Hin) (prior_own _ _ _ _ _ _ Hb Hp) Hstep)
    as [Ht Hd].
  rewrite Ht, Hd, <- surjective_pairing.
  destruct Hb as (Hc & Hw & Hr & Hf). split_and!; [lia.. | done | done |].
  intros k'. destruct (decide (k' = k)) as [->|Hne].
  - by eapply folded_fact_upsert.
  - apply (folded_fact_other c l folded); [lia | done | | | done].
    + intros o. by apply (mstep_other k).
    + by rewrite lookup_insert_ne.
Qed.

Lemma batch_failure c l folded k m prior payload error dv w :
  next_after l = Some m → document_key_from_subject m.1.2 = Some k →
  batch_fact c l folded w → prior_fact c l folded k prior w →
  project_event prior m.2 (msg_seq m) = Failure payload error dv →
  batch_fact c (msg_seq m) folded w.
Proof.
  intros Hm Hk (Hc & Hw & Hr & Hf) Hp Hs. pose proof (next_after_in log _ _ Hm) as [Hin Hlt].
  split_and!; [lia.. | done | done |]. intros k'. destruct (decide (k' = k)) as [->|Hne].
  - by apply (folded_fact_failure c l folded w k m prior payload error dv).
  - apply (folded_fact_other c l folded); [lia | done | | done | done].
    intros o. by apply (mstep_other k).
Qed.

(** A message outside the subject scheme folds into nothing. *)
Lemma batch_no_key c l folded m w :
  next_after l = Some m → document_key_from_subject m.1.2 = None →
  batch_fact c l folded w →
  (∀ s, project_event None m.2 (msg_seq m) ≠ Upsert s) ∧ batch_fact c (msg_seq m) folded w.
Proof.
  intros Hm Hk (Hc & Hw & Hr & Hf). pose proof (next_after_in log _ _ Hm) as [Hin Hlt].
  split.
  - intros s Hs. unfold project_event in Hs. destruct (decode_event m.2) as [e| |] eqn:Hd; [| done..].
    destruct (gm_addressed _ (message_good m Hin) e Hd) as [Ha _]. congruence.
  - split_and!; [lia.. | done | done |]. intros k'.
    apply (folded_fact_other c l folded); [lia | done | | done | done].
    intros o. unfold mstep. destruct m as [[seq subject] payload]. simpl in *.
    rewrite bool_decide_eq_false_2; [done | congruence].
Qed.

Lemma batch_read_model c l folded w : batch_fact c l folded w → read_model w.
Proof. by intros (_ & ? & _). Qed.

Lemma failures_snoc tx nm seq subject payload error :
  Forall (λ s, failure_stmt s = true) tx →
  Forall (λ s, failure_stmt s = true) (tx ++ [SInsertFailure nm seq subject payload error]).
Proof. intros H. apply Forall_app. by split; [| apply Forall_singleton]. Qed.

(** The messages of a batch, folded one by one. *)
Lemma fold_batch_rg self batch c l lend folded tx last_seq :
  pl_table self = table → covers l batch lend →
  Forall (λ s, failure_stmt s = true) tx →
  pgrg (fold_batch self batch folded tx last_seq) (batch_fact c l folded)
    (λ r w, read_model w ∧
       ∀ out, r = Ok out →
         batch_fact c lend out.1.1 w ∧ Forall (λ s, failure_stmt s = true) out.1.2 ∧
         out.2 = match batch with [] => last_seq | _ => lend end).
Proof.
  intros Ht. revert l folded tx last_seq.
  induction batch as [|m batch IH]; intros l folded tx last_seq.
  { intros <- Htx. apply rg_ret_db. intros w Hw.
    split; [by eapply batch_read_model |]. by intros out [= <-]. }
  intros [Hm Hcov] Htx. destruct m as [[seq subject] payload]. cbn [fold_batch].
  pose proof (λ f t, IH _ f t seq Hcov) as IH'. clear IH.
  assert (match batch with [] => seq | _ => lend end = lend) as Hlast.
  { destruct batch; [exact Hcov | done]. }
  rewrite Hlast in IH'. unfold msg_seq in IH'. simpl in IH'.
  eapply rg_bind; [by apply (prior_of_rg self c l folded) |].
  intros [prior|e]; [| apply rg_ret_db; intros w [Hw _]; (split; [by eapply batch_read_model | done])].
  destruct (project_event prior payload seq) as [s|pl er dv] eqn:Hp.
  - eapply rg_weaken; [by apply IH' | | done]. intros w [Hb Hpr].
    specialize (Hpr prior eq_refl). destruct (document_key_from_subject subject) as [k|] eqn:Hk.
    + by apply (batch_upsert c l folded k (seq, subject, payload) prior).
    + subst prior. destruct (batch_no_key c l folded _ w Hm Hk Hb) as [Hn _].
      by destruct (Hn s).
  - apply (rg_bind _ _ _ _ _ (λ r w, batch_fact c seq folded w ∧
      ∀ tx', r = Ok tx' → tx' = tx ++ [SInsertFailure (pl_name self) (u64_as_i64 seq) subject pl er])).
    + eapply rg_weaken; [unfold record_failure; apply execute_rg, (stable_batch c seq folded) | | done].
      intros w [Hb Hpr]. specialize (Hpr prior eq_refl).
      destruct (document_key_from_subject subject) as [k|] eqn:Hk.
      * by apply (batch_failure c l folded k (seq, subject, payload) prior pl er dv).
      * by apply (batch_no_key c l folded (seq, subject, payload) w).
    + intros [tx'|e]; [| apply rg_ret_db; intros w [Hw _]; (split; [by eapply batch_read_model | done])].
      apply (rg_pure _ _ _ _ _ _ (λ w Hw, proj2 Hw tx' eq_refl)). intros ->.
      eapply rg_weaken; [apply IH', failures_snoc, Htx | by intros w [Hw _] | done].
Qed.

Lemma upsert_all_rg self states tx P :
  pl_table self = table → stable progress P →
  pgrg (upsert_all self states tx) P
    (λ r w, P w ∧ ∀ tx', r = Ok tx' → tx' = tx ++ upserts states).
Proof.
  intros Ht Hst. revert tx. induction states as [|s states IH]; intros tx; cbn [upsert_all].
  { apply rg_ret_db. intros w Hw. split; [done |]. intros tx' [= <-].
    by rewrite app_nil_r. }
  eapply rg_bind; [unfold upsert_document; by apply execute_rg |].
  intros [tx1|e]; [| apply rg_ret_db; by intros w [Hw _]].
  apply (rg_pure _ _ _ _ _ _ (λ w Hw, proj2 Hw tx1 eq_refl)). intros ->.
  eapply rg_weaken; [apply IH | by intros w [Hw _] |].
  intros r w [Hw Hr]. split; [done |]. intros tx' ->. rewrite (Hr tx' eq_refl), Ht.
  by rewrite <- app_assoc.
Qed.

(** A projector that stands at [c]: everything up to [c] is in the rows. *)
Definition stands (c : Z) (w : Tables) : Prop := read_model w ∧ ∀ k, reached k c w.

Lemma stable_stands c : stable progress (stands c).
Proof. intros w w' [Hw Hr] HG. destruct (HG Hw) as [Hw' Hre]. split; [done | eauto]. Qed.

Lemma batch_start c w : (0 ≤ c)%Z → stands c w → batch_fact c c ∅ w.
Proof.
  intros Hc [Hw Hr]. split_and!; [lia.. | done | done |].
  intros k. unfold folded_fact. rewrite lookup_empty. intros n Hn. by replace n with c by lia.
Qed.

Lemma covers_last c batch l :
  covers c batch l → batch ≠ [] → ∃ m, m ∈ log ∧ msg_seq m = l.
Proof.
  revert c. induction batch as [|m batch IH]; intros c; [done |].
  intros [Hm Hc] _. destruct batch as [|m' batch]; [| by eapply IH].
  exists m. split; [by apply next_after_in in Hm as [? _] | done].
Qed.

Lemma rg_commit fails folded c l :
  (0 < l ≤ i64_max)%Z → Forall (λ s, failure_stmt s = true) fails →
  pgrg (call (Commit (batch_tx fails (into_values folded) l))) (batch_fact c l folded)
    (λ r w, read_model w ∧ (is_ok r = true → stands l w)).
Proof.
  intros Hl Hfails w w' x Hb [[-> Hx] | ->].
  - split; [done |]. exists read_model. split; [apply stable_read_model | split].
    + by eapply batch_read_model.
    + apply rg_ret_db. intros w0 Hw. split; [done | congruence].
  - destruct (commit_progress w fails folded c l Hl Hb Hfails) as (HG & Hw' & Hr).
    split; [done |]. exists (stands l). split; [apply stable_stands | split; [done |]].
    apply rg_ret_db. intros w0 Hs. split; [apply Hs | done].
Qed.

(** [apply_batch], from [c] to the end of its batch. *)
Lemma apply_batch_rg self batch c l :
  pl_name self = name → pl_table self = table →
  (0 ≤ c)%Z → covers c batch l → batch ≠ [] →
  pgrg (apply_batch self batch) (stands c)
    (λ r w, read_model w ∧ (is_ok r = true → stands l w)).
Proof.
  intros Hn Ht Hc Hcov Hne. unfold apply_batch.
  apply rg_idle; [done | apply stable_stands |].
  assert (∀ r : result unit string, is_ok r = false → ∀ P, (∀ w, P w → read_model w) →
            pgrg (Ret r) P (λ r w, read_model w ∧ (is_ok r = true → stands l w))) as Herr.
  { intros r Hr P HP. apply rg_ret_db. intros w Hw. split; [by apply HP | congruence]. }
  intros [_|e]; [| by apply Herr; [| intros w [??]]].
  eapply rg_bind.
  { eapply rg_weaken; [by apply (fold_batch_rg self batch c c l ∅ [] 0) | | done].
    intros w Hw. by apply batch_start. }
  intros [[[folded fails] last_seq]|e]; [| by apply Herr; [| intros w [??]]].
  set (P := λ w, batch_fact c l folded w).
  apply (rg_pure _ _ (Forall (λ s, failure_stmt s = true) fails ∧ last_seq = l)).
  { intros w [_ Hw]. destruct (Hw _ eq_refl) as (_ & Hf & Hl). simpl in *.
    split; [done |]. by destruct batch. }
  intros [Hfails ->]. cbn [fst snd].
  apply (rg_weaken _ _ _ P _ (λ r w, read_model w ∧ (is_ok r = true → stands l w)));
    [| intros w [_ Hw]; by apply (Hw _ eq_refl) | done].
  assert (stable progress P) as HP by apply stable_batch.
  assert (∀ w, P w → read_model w) as HPr by (intros w; apply batch_read_model).
  eapply rg_bind; [by apply (upsert_all_rg self _ _ P) |].
  intros [tx|e]; [| apply Herr; [done | intros w [? _]; auto]].
  apply (rg_pure _ _ _ _ _ _ (λ w Hw, proj2 Hw tx eq_refl)). intros ->.
  eapply rg_bind.
  { eapply rg_weaken; [by apply (execute_rg _ _ P) | by intros w [? _] | done]. }
  intros [tx|e]; [| apply Herr; [done | intros w [? _]; auto]].
  apply (rg_pure _ _ _ _ _ _ (λ w Hw, proj2 Hw tx eq_refl)). intros ->.
  destruct (covers_last c batch l Hcov Hne) as (m & Hm & Hlm).
  pose proof (gm_seq _ (message_good m Hm)) as Hseq. rewrite Hlm in Hseq.
  rewrite Hn, <- app_assoc.
  eapply rg_weaken; [apply (rg_commit fails folded c l); [done | done] | by intros w [? _] | done].
Qed.

(** What the consumer hands over next belongs to the batch. *)
Lemma next_rg {B} cursor (f : Delivery → prog PgE B) P R :
  stable progress P →
  (∀ d, match d with
        | Delivered at_ info subject payload =>
            next_after cursor = Some (at_, subject, payload) → info = Some at_ →
            pgrg (f d) P R
        | _ => pgrg (f d) P R
        end) →
  pgrg (prog_bind (call (NextMessage cursor)) f) P R.
Proof.
  intros Hst Hf. set (ok := λ d, match d with
        | Delivered at_ info subject payload =>
            next_after cursor = Some (at_, subject, payload) ∧ info = Some at_
        | _ => True
        end).
  apply (rg_read _ _ _ (λ d w, ok d ∧ P w)); [done | | |].
  - intros d w w' [Hd Hw] HG. split; [done | by eapply Hst].
  - intros w d Hw [_ Hd]. by split.
  - intros d. apply (rg_pure _ _ (ok d)); [by intros w [? _] |]. intros Hd.
    eapply rg_weaken; [| by intros w [_ Hw]; exact Hw | done].
    specialize (Hf d). destruct d; try done. destruct Hd. by apply Hf.
Qed.

Lemma drain_rg fuel self batch c cursor P :
  stable progress P → covers c batch cursor → batch ≠ [] →
  pgrg (drain fuel self batch cursor) P
    (λ out w, P w ∧ covers c out.1 out.2 ∧ out.1 ≠ []).
Proof.
  intros Hst. revert batch cursor. induction fuel as [|fuel IH]; intros batch cursor Hc Hne;
    cbn [drain]; [by apply rg_ret_db |].
  case_match; [| by apply rg_ret_db].
  apply next_rg; [done |]. intros [at_ info subject payload| | |]; try (by apply rg_ret_db).
  intros Hm ->. cbn [push_message]. apply IH.
  - by apply (covers_snoc c batch cursor (at_, subject, payload)).
  - by destruct batch.
Qed.

Lemma run_loop_rg fuel self c :
  pl_name self = name → pl_table self = table → (0 ≤ c)%Z →
  pgrg (run_loop fuel self c) (stands c) (λ _, read_model).
Proof.
  intros Hn Ht. revert c. induction fuel as [|fuel IH]; intros c Hc.
  { apply rg_ret_db. by intros w [? _]. }
  cbn [run_loop].
  assert (∀ r : result unit string, pgrg (Ret r) (stands c) (λ _, read_model)) as Hstop
    by (intros r; apply rg_ret_db; by intros w [? _]).
  apply rg_idle; [done | apply stable_stands |]. intros [[]|e]; [| by apply Hstop..].
  cbn [negb]. apply next_rg; [apply stable_stands |].
  intros [at_ info subject payload| | |]; [| by apply IH | by apply Hstop | by apply IH].
  intros Hm ->. cbn [push_message app].
  eapply rg_bind; [apply (drain_rg _ self _ c at_ (stands c)) |].
  { apply stable_stands. }
  { simpl. split; [done | reflexivity]. }
  { done. }
  intros [batch l]. cbn [fst snd].
  apply (rg_pure _ _ (covers c batch l ∧ batch ≠ [])); [by intros w [_ ?] |].
  intros [Hcov Hne].
  apply (rg_weaken _ _ _ (stands c) _ (λ _, read_model)); [| by intros w [Hw _] | done].
  destruct batch as [|m batch]; [done |].
  apply rg_idle; [done | apply stable_stands |]. intros [[]|e]; [| by apply Hstop..].
  cbn [negb]. eapply rg_bind; [by apply (apply_batch_rg self (m :: batch) c l) |].
  intros [u|e]; [| apply rg_ret_db; by intros w [? _]].
  eapply rg_weaken; [apply IH | intros w [_ Hw]; by apply Hw | done].
  apply covers_le in Hcov. lia.
Qed.

Lemma projection_run_rg fuel self :
  pl_name self = name → pl_table self = table →
  pgrg (projection_run fuel self) read_model (λ _, read_model).
Proof.
  intros Hn Ht. unfold projection_run, read_checkpoint. rewrite Hn.
  apply (rg_bind _ _ _ _ _ (λ r w, read_model w ∧
          ∀ c, r = Ok c → (0 ≤ c)%Z ∧ stands c w)).
  - apply (rg_read _ _ _ (λ x w, read_model w ∧
            ∀ v, x = Ok v → stands (Z.max 0 (default 0%Z v)) w)); [done | | |].
    + intros x w w' [Hw Hx] HG. split; [by apply HG |]. intros v ->.
      eapply stable_stands; [by apply Hx | done].
    + intros w x Hw [_ Hx]. split; [done |]. intros v ->. subst v. destruct Hw as [H0 Hck].
      split; [done |]. destruct (t_checkpoint w !! name) as [c|] eqn:Hc; simpl; [| done].
      destruct (Hck c eq_refl) as [? ?]. by rewrite Z.max_r by lia.
    + intros [v|e]; apply rg_ret_db; intros w [Hw Hx]; (split; [done |]); [| done].
      intros c [= <-]. split; [lia | by apply Hx].
  - intros [c|e]; [| apply rg_ret_db; by intros w [? _]].
    apply (rg_pure _ _ (0 ≤ c)%Z); [intros w [_ Hw]; by apply Hw |]. intros Hc.
    apply (rg_weaken _ _ _ (stands c) _ (λ _, read_model));
      [| intros w [_ Hw]; by apply (proj2 (Hw c eq_refl)) | done].
    apply rg_idle; [done | apply stable_stands |].
    intros [u|e]; [by apply run_loop_rg |]. apply rg_ret_db. by intros w [? _].
Qed.

(** ** Properties *)

(** C21: any number of projection loops over one table, each started at any
    time, believing it holds the lease, and stopped at any call, with any call
    failing and any commit's answer lost: every row is at every moment the fold
    of a prefix of the log (its document's events, undecodable and rejected
    ones skipped) that reaches at least the checkpoint, and no row ever goes
    back. *)
Theorem projectors_converge w w' loops ts :
  read_model w →
  (∀ p, p ∈ loops → pl_name p.2 = name ∧ pl_table p.2 = table) →
  rtc (pool_step db_step elsewhere)
    (w, (λ p, projection_run p.1 p.2) <$> loops) (w', ts) →
  (∀ k n, reached k n w → reached k n w') ∧
  ∀ k c, t_checkpoint w' !! name = Some c →
    ∃ n, (c ≤ n)%Z ∧
      rows w' table !! k = document_to_row <$> proj k n ∧
      ∀ s, fold_history (history k n) = Ok s →
        rows w' table !! k = document_to_row <$> s.
Proof.
  intros Hw Hloops Hsteps.
  destruct (pool_steps_rg db_step elsewhere progress (w, (λ p, projection_run p.1 p.2) <$> loops)
             (w', ts) ((λ _ _, read_model) <$> loops)) as [HG _]; [apply progress_elsewhere | done | |].
  - simpl. apply Forall2_fmap, Forall_Forall2_diag, Forall_forall. intros p Hp.
    exists read_model. split; [apply stable_read_model | split; [done |]].
    by apply projection_run_rg; apply Hloops.
  - destruct (HG Hw) as [[H0 Hck] Hre]. simpl in *. split; [done |].
    intros k c Hc. destruct (Hck c Hc) as [_ Hr]. destruct (Hr k) as (n & _ & Hn & Hrow).
    exists n. split_and!; [done | done |]. intros s Hs. by rewrite Hrow, (proj_history k n s Hs).
Qed.

End run.

(** ** Witnesses *)

Module ProjectionDemo.
#[local] Existing Instance Demo.json.

Definition NUL : ascii := Ascii.zero.

Definition poisoned_content : DocumentCreated :=
  mkCreated "u1" (String NUL "report.pdf") "application/pdf" 1024 "sha256:aa" default_patch.

(** A create whose filename is not a Postgres [text], and what it folds to. *)
Definition poisoned : DocumentEvent :=
  mkEvent 1 "e4" "acme" "doc-2" (User "user-1") 1 100 (PDocumentCreated poisoned_content).

Definition poisoned_state : DocumentState := seed poisoned "user-1" poisoned_content 100 2.

(** JSON objects with one member, naming an event of the catalogue or not. *)
Definition obj (s : string) : @Value Demo.json := Some [("event", s)].

#[export] Instance codec : @EventCodec Demo.json := {|
  from_slice b :=
    let s := string_of_bytes b in
    if bool_decide (s ∈ ["create"; "replace"; "delete"; "nul"; "summarised"])
    then Ok (obj s) else Err "expected value at line 1 column 1";
  event_from_value v :=
    if bool_decide (v = obj "create") then Ok FoldDemo.created
    else if bool_decide (v = obj "replace") then Ok FoldDemo.replaced
    else if bool_decide (v = obj "delete") then Ok FoldDemo.deleted
    else if bool_decide (v = obj "nul") then Ok poisoned
    else Err "unknown variant";
  event_to_value e := Ok (obj (ev_event_id e));
|}.

Definition texts (r : @Row Demo.json) : list string :=
  r_owner_user_id r :: omap id [r_filename r; r_content_type r; r_title r; r_description r].

Definition tags_value (tags : list string) : @Value Demo.json :=
  Some ((λ t, ("", t)) <$> tags).
Definition value_tags (v : @Value Demo.json) : option (list string) :=
  match v with Some fs => Some (snd <$> fs) | None => None end.

Lemma tags_value_roundtrip tags : value_tags (tags_value tags) = Some tags.
Proof.
  unfold value_tags, tags_value. f_equal. induction tags as [|t tags IH]; [done |].
  simpl. by f_equal.
Qed.

Definition micros (t : DateTime) : DateTime := (t / 1000 * 1000)%Z.

Lemma micros_idemp t : micros (micros t) = micros t.
Proof. unfold micros. by rewrite Z.div_mul. Qed.

Definition server (accept : Row → bool) : @Postgres Demo.json := {|
  timestamptz := micros;
  timestamptz_idemp := micros_idemp;
  jsonb v := v;
  jsonb_idemp _ := eq_refl;
  value_empty_array := tags_value [];
  tags_to_value tags := Some (tags_value tags);
  tags_from_value := value_tags;
  tags_roundtrip tags := ex_intro _ (tags_value tags) (conj eq_refl (tags_value_roundtrip tags));
  accepts_row := accept;
  accepts_failure _ _ _ := true;
|}.

#[export] Instance postgres : @Postgres Demo.json :=
  server (λ r, forallb (λ s, negb (has_char NUL s)) (texts r)).
Definition lenient : @Postgres Demo.json := server (λ _, true).

#[export] Instance values : @IntoValues Demo.json.
Proof. refine {| into_values m := (map_to_list m).*2 |}. done. Defined.

Definition say (seq : Z) (subject payload : string) : message :=
  (seq, subject, bytes_of_string payload).

Definition log : list message :=
  [say 1 "documents.acme.09.doc-1" "create"; say 2 "documents.acme.09.doc-1" "summarised";
   say 5 "documents.acme.09.doc-1" "replace"; say 7 "documents.acme.03.doc-2" "not json";
   say 9 "documents.acme.09.doc-1" "delete"].

Lemma say_good seq subject payload :
  (0 < seq ≤ i64_max)%Z →
  match decode_event (bytes_of_string payload) with
  | DEvent e =>
      document_key_from_subject subject = Some (ev_tenant_id e, ev_document_id e) ∧
      event_in_range e
  | _ => True
  end → good_message (say seq subject payload).
Proof. intros Hs Hd. split; [done |]. intros e He. cbn [say snd fst] in *. by rewrite He in Hd. Qed.

Lemma good : good_log log.
Proof.
  split.
  - repeat constructor; reflexivity.
  - repeat (apply Forall_cons; split; [apply say_good; [done |] |]); [.. | by apply Forall_nil].
    all: vm_compute; repeat split; discriminate.
Qed.

Definition loop : ProjectionLoop := projection_new 2.
Definition final : Tables := (run (db log) (projection_run 9 loop) no_tables).1.
End ProjectionDemo.

#[local] Existing Instance Demo.json.
Import ProjectionDemo.

Lemma projectors_converge_witness :
  t_checkpoint final !! "document-pg" = Some 9%Z ∧
  ∃ n, (9 ≤ n)%Z ∧
    rows final "document" !! ("acme", "doc-1")
      = document_to_row <$> proj log ("acme", "doc-1") n ∧
    ∀ s, fold_history (history log ("acme", "doc-1") n) = Ok s →
      rows final "document" !! ("acme", "doc-1") = document_to_row <$> s.
Proof.
  split; [vm_compute; reflexivity |].
  apply (projectors_converge log "document-pg" "document" good
           no_tables final [(9%nat, loop)]
           [Ret (run (db log) (projection_run 9 loop) no_tables).2]).
  - split; [intros k; exists 0%Z; split; [done | split; [done |]] | done].
    unfold proj, window. vm_compute. reflexivity.
  - intros p Hp%list_elem_of_singleton. by subst p.
  - apply (run_alone log "document-pg" "document"
             (projection_run 9 loop) no_tables).
  - vm_compute. reflexivity.
Defined.


Lemma refused_row_stalls_witness :
  ∃ e, run (db []) (apply_batch loop
      [say 2 "documents.acme.03.doc-2" "nul"]) no_tables = (no_tables, Err e).
Proof.
  apply (refused_row_stalls [] loop [say 2 "documents.acme.03.doc-2" "nul"] no_tables
    {[("acme", "doc-2") := poisoned_state]} [] 2 ("acme", "doc-2") poisoned_state);
    reflexivity.
Defined.
