(* ===== verification/Lease.v ===== *)
(** * The projector lease

    document-adapters/src/postgres/projection.rs, [ProjectorLease], and the task
    of document-worker/src/main.rs that contends for it.  The lease is an advisory
    lock of Postgres on a connection of its own, and the projection commits on
    that same connection: [lease_step] says what Postgres documents of the two,
    with connections that fail and end at any time.  What the projection does on
    its connection is Projection.v; here it may be any program. *)

From S2P Require Import Prelude Text Events Fold Keys Validation Ports Projection ProjectionRun.

Local Open Scope Z_scope.

(** A connection: the process that opened it and its number. *)
Abbreviation conn := (nat * nat)%type.

Inductive LeaseE {J : SerdeJson} : Type → Type :=
| LConnect (me : nat) : LeaseE (result conn string)
| LTryLock (c : conn) : LeaseE (result bool string)
| LUnlock (c : conn) : LeaseE (result unit string)
| LClose (c : conn) : LeaseE (result unit string)
| LCall (c : conn) {A} (e : PgE A) : LeaseE A.

Section lease.
Context {J : SerdeJson} {PG : Postgres} {EC : EventCodec} {IV : IntoValues}.

(** [ProjectorLease::try_acquire]: [None] when another instance holds the lease. *)
Definition try_acquire (me : nat) : prog LeaseE (result (option conn) string) :=
  let*? c := call (LConnect me) in
  let*? acquired := call (LTryLock c) in
  if negb acquired then
    let* _ := call (LClose c) in Ret (Ok None)
  else Ret (Ok (Some c)).

(** [release] *)
Definition release (c : conn) : prog LeaseE unit :=
  let* _ := call (LUnlock c) in
  let* _ := call (LClose c) in
  Ret tt.

(** The calls of a projection on the connection of its lease. *)
Definition on_lease {A} (c : conn) (p : prog PgE A) : prog LeaseE A := interp (λ X e, call (LCall c e)) p.

(** [run_projection], for a number of elections; the task ends with its process. *)
Fixpoint run_projection (elections fuel : nat) (self : ProjectionLoop) (me : nat) : prog LeaseE unit :=
  match elections with
  | O => Ret tt
  | S elections =>
      let* r := try_acquire me in
      match r with
      | Ok (Some lease) =>
          let* _ := on_lease lease (projection_run fuel self) in
          let* _ := release lease in
          run_projection elections fuel self me
      | _ => run_projection elections fuel self me
      end
  end.

(** ** Postgres *)

(** The holder of the lock, the live connections, those ever opened, and the
    connection of each committed batch, oldest first. *)
Record LeaseWorld : Type := mkLease {
  lw_lock : option conn;
  lw_alive : gset conn;
  lw_used : gset conn;
  lw_commits : list conn;
}.

Definition ended (c : conn) (w : LeaseWorld) : LeaseWorld :=
  mkLease (if bool_decide (lw_lock w = Some c) then None else lw_lock w) (lw_alive w ∖ {[c]})
    (lw_used w) (lw_commits w).

Definition locked (o : option conn) (w : LeaseWorld) : LeaseWorld :=
  mkLease o (lw_alive w) (lw_used w) (lw_commits w).

Definition batch_committed (c : conn) (w : LeaseWorld) : LeaseWorld :=
  mkLease (lw_lock w) (lw_alive w) (lw_used w) (lw_commits w ++ [c]).

Definition opened (c : conn) (w : LeaseWorld) : LeaseWorld :=
  mkLease (lw_lock w) ({[c]} ∪ lw_alive w) ({[c]} ∪ lw_used w) (lw_commits w).

(** A call of the projection: a commit lands on a live connection only, and may
    lose its answer with it; [still_held] tells the truth; the rest is free. *)
Definition pg_step {A} (c : conn) (e : PgE A) (w w' : LeaseWorld) : A → Prop :=
  match e in PgE A return A → Prop with
  | Commit _ => λ x,
      match x with
      | Ok _ => c ∈ lw_alive w ∧ w' = batch_committed c w
      | Err _ => w' = w ∨ w' = ended c w ∨ (c ∈ lw_alive w ∧ w' = ended c (batch_committed c w))
      end
  | StillHeld => λ x,
      match x with
      | Ok held => w' = w ∧ c ∈ lw_alive w ∧ held = bool_decide (lw_lock w = Some c)
      | Err _ => w' = w ∨ w' = ended c w
      end
  | _ => λ _, w' = w ∨ w' = ended c w
  end.

Definition lease_step (X : Type) (e : LeaseE X) (w w' : LeaseWorld) : X → Prop :=
  match e in LeaseE X return X → Prop with
  | LConnect me => λ x,
      match x with Ok c => c.1 = me ∧ c ∉ lw_used w ∧ w' = opened c w | Err _ => w' = w end
  | LTryLock c => λ x,
      match x with
      | Ok true => c ∈ lw_alive w ∧ lw_lock w = None ∧ w' = locked (Some c) w
      | Ok false => w' = w
      | Err _ => w' = w ∨ w' = ended c w ∨ (c ∈ lw_alive w ∧ lw_lock w = None ∧ w' = locked (Some c) w)
      end
  | LUnlock c => λ x,
      w' = w ∨ w' = ended c w ∨ (lw_lock w = Some c ∧ w' = locked None w)
  | LClose c => λ x, w' = w ∨ w' = ended c w
  | LCall c e => pg_step c e w w'
  end.

Inductive lease_env : LeaseWorld → LeaseWorld → Prop := lease_ends c w : lease_env w (ended c w).

(** ** One projector at a time *)

(** No lease commits again once another has. *)
Definition tenures (commits : list conn) : Prop :=
  ∀ i j k c, (i ≤ j ≤ k)%nat → commits !! i = Some c → commits !! k = Some c → commits !! j = Some c.

Record lease_ok (w : LeaseWorld) : Prop := {
  lo_tenures : tenures (lw_commits w);
  lo_holder c : lw_lock w = Some c → c ∈ lw_alive w ∧ (c ∈ lw_commits w → last (lw_commits w) = Some c);
  lo_used c : c ∈ lw_commits w ∨ c ∈ lw_alive w → c ∈ lw_used w;
}.

Definition improves (w w' : LeaseWorld) : Prop :=
  lease_ok w → lease_ok w' ∧ lw_used w ⊆ lw_used w'.

(** What others leave of the connections of [me]. *)
Definition leaves_mine (me : nat) (w w' : LeaseWorld) : Prop :=
  ∀ c, c.1 = me →
    (c ∈ lw_used w' → c ∈ lw_used w) ∧ (c ∈ lw_commits w' → c ∈ lw_commits w) ∧
    (c ∈ lw_alive w' → c ∈ lw_alive w ∧ (lw_lock w = Some c ↔ lw_lock w' = Some c)).

Definition lease_rely (me : nat) (w w' : LeaseWorld) : Prop := improves w w' ∧ leaves_mine me w w'.
Definition lease_own (me : nat) (w w' : LeaseWorld) : Prop :=
  improves w w' ∧ ∀ me', me' ≠ me → leaves_mine me' w w'.

#[local] Instance improves_refl : Reflexive improves.
Proof. by intros w. Qed.
#[local] Instance improves_trans : Transitive improves.
Proof.
  intros w1 w2 w3 H1 H2 Hw. destruct (H1 Hw) as [Hw2 ?]. destruct (H2 Hw2) as [? ?]. split; [done | by etrans].
Qed.

Lemma tenures_snoc commits c :
  tenures commits → (c ∈ commits → last commits = Some c) → tenures (commits ++ [c]).
Proof.
  intros Ht Hlast i j k c' Hijk Hi Hk. destruct (decide (k < length commits)%nat) as [Hlt | Hge].
  - rewrite lookup_app_l in Hk by lia. rewrite lookup_app_l in Hi by lia. rewrite lookup_app_l by lia.
    by apply (Ht i j k).
  - assert (k = length commits) as ->.
    { apply lookup_lt_Some in Hk. rewrite length_app in Hk. cbn in Hk. lia. }
    rewrite list_lookup_middle in Hk by done. simplify_eq.
    destruct (decide (j = length commits)) as [-> | Hj]; [by rewrite list_lookup_middle |].
    rewrite lookup_app_l in Hi by lia. rewrite lookup_app_l by lia.
    assert (last commits = Some c') as Hl by (apply Hlast; by eapply list_elem_of_lookup_2).
    rewrite last_lookup in Hl. apply (Ht i j (pred (length commits))); [lia | done | done].
Qed.

Lemma ended_improves c w : improves w (ended c w).
Proof.
  intros [Ht Hh Hu]. split; [| done]. constructor; cbn.
  - done.
  - intros c'. case_bool_decide as Hc; [done |]. intros Hl. destruct (Hh c' Hl). split; [| done].
    apply elem_of_difference. split; [done |]. intros ->%elem_of_singleton. done.
  - intros c' [Hin | Hin]; apply Hu; [by left | right]. set_solver.
Qed.

Lemma ended_leaves c w me : leaves_mine me w (ended c w).
Proof.
  intros c' _. split_and!; [done | done |]. cbn. intros [Hin Hne]%elem_of_difference. split; [done |].
  case_bool_decide as Hc; [| done]. split; [| done]. intros Hl. rewrite Hl in Hc. set_solver.
Qed.

Lemma ended_own c w me : lease_own me w (ended c w).
Proof. split; [apply ended_improves | intros; apply ended_leaves]. Qed.

Lemma lease_own_refl me w : lease_own me w w.
Proof. split; [reflexivity |]. by intros me' _ c _. Qed.

Lemma own_ended me c w w1 : lease_own me w w1 → lease_own me w (ended c w1).
Proof.
  intros [Hi Hl]. split; [etrans; [exact Hi | apply ended_improves] |].
  intros me' Hne c' Hc'. destruct (Hl me' Hne c' Hc') as (U1 & C1 & A1).
  destruct (ended_leaves c w1 me' c' Hc') as (U2 & C2 & A2). split_and!; [by auto.. |].
  intros Ha. destruct (A2 Ha) as [Ha1 H2]. destruct (A1 Ha1) as [Ha0 H1]. split; [done | by rewrite H1].
Qed.

(** The connection [c] holds the lease unless it has ended. *)
Definition mine (c : conn) (w : LeaseWorld) : Prop :=
  lease_ok w ∧ c ∈ lw_used w ∧ (c ∈ lw_alive w → lw_lock w = Some c).

(** The connection [c] was opened and has committed nothing. *)
Definition unproven (c : conn) (w : LeaseWorld) : Prop :=
  lease_ok w ∧ c ∈ lw_used w ∧ c ∉ lw_commits w.

Lemma ok_stable me : stable (lease_rely me) lease_ok.
Proof. intros w w' Hw [Hi _]. by apply Hi. Qed.

Lemma mine_stable c : stable (lease_rely c.1) (mine c).
Proof.
  intros w w' (Hok & Hu & Hl) [Hi Hm]. destruct (Hi Hok) as [Hok' Hsub]. split_and!; [done | by apply Hsub |].
  intros Ha. destruct (Hm c eq_refl) as (_ & _ & Halive). destruct (Halive Ha) as [Ha' Hiff]. by apply Hiff, Hl.
Qed.

Lemma unproven_stable c : stable (lease_rely c.1) (unproven c).
Proof.
  intros w w' (Hok & Hu & Hc) [Hi Hm]. destruct (Hi Hok) as [Hok' Hsub]. split_and!; [done | by apply Hsub |].
  intros Hin. by apply Hc, (Hm c eq_refl).
Qed.

Abbreviation leaserg me := (owns lease_step (lease_own me) (lease_rely me)).

Lemma mine_ended c w : mine c w → mine c (ended c w).
Proof.
  intros (Hok & Hu & Hl). split_and!; [by apply ended_improves | done |]. cbn. set_solver.
Qed.

Lemma mine_commit c w :
  mine c w → c ∈ lw_alive w → lease_own c.1 w (batch_committed c w) ∧ mine c (batch_committed c w).
Proof.
  intros (Hok & Hu & Hl) Ha. specialize (Hl Ha).
  assert (lease_ok (batch_committed c w)) as Hok'.
  { destruct Hok as [Ht Hh Hused]. constructor; cbn.
    - apply tenures_snoc; [done |]. by apply Hh.
    - intros c' Hc'. rewrite Hl in Hc'. simplify_eq. split; [done |]. by rewrite last_snoc.
    - intros c' [[Hin | ->%list_elem_of_singleton]%elem_of_app | Hin]; [apply Hused; by left | done | apply Hused; by right]. }
  split; [| done]. split; [done |]. intros me' Hne c' Hc'. split_and!; [done | | done].
  cbn. intros [Hin | ->%list_elem_of_singleton]%elem_of_app; [done | congruence].
Qed.

Lemma pg_step_mine {A} c (e : PgE A) w w' x :
  mine c w → pg_step c e w w' x → lease_own c.1 w w' ∧ mine c w'.
Proof.
  intros Hw Hx.
  assert (w' = w ∨ w' = ended c w → lease_own c.1 w w' ∧ mine c w') as Hquiet.
  { intros [-> | ->]; [split; [apply lease_own_refl | done] | split; [apply ended_own | by apply mine_ended]]. }
  destruct e; cbn in Hx; try by apply Hquiet.
  - destruct x as [held|m]; [| by apply Hquiet]. apply Hquiet. by left; apply Hx.
  - destruct x as [u|m].
    + destruct Hx as [Ha ->]. by apply mine_commit.
    + destruct Hx as [-> | [-> | [Ha ->]]]; [by apply Hquiet; left | by apply Hquiet; right |].
      destruct (mine_commit c w Hw Ha) as [Hown Hm]. split; [by apply own_ended | by apply mine_ended].
Qed.

(** Whatever the program, on its connection it keeps the lease. *)
Lemma on_lease_spec {A} c (p : prog PgE A) : leaserg c.1 (on_lease c p) (mine c) (λ _, mine c).
Proof.
  unfold on_lease. induction p as [a | X e k IH]; cbn [interp]; [by intros w Hw |].
  apply (owns_call _ _ _ _ _ _ (λ _, mine c)); [| exact IH].
  intros w w' x Hw Hx. destruct (pg_step_mine c e w w' x Hw Hx) as [Hown Hm].
  split_and!; [done | apply mine_stable | done].
Qed.

(** Giving up: an unlock or a close, whatever it answers. *)
Lemma rg_give_back {B} me c (e : LeaseE (result unit string)) (f : _ → prog LeaseE B) R :
  (∀ w w' x, lease_step _ e w w' x → w' = w ∨ w' = ended c w ∨ (lw_lock w = Some c ∧ w' = locked None w)) →
  c.1 = me → (∀ x, leaserg me (f x) lease_ok R) → leaserg me (prog_bind (call e) f) lease_ok R.
Proof.
  intros He Hme Hf. apply (owns_call _ _ _ _ _ _ (λ _, lease_ok)); [| exact Hf].
  intros w w' x Hw Hx.
  assert (lease_own me w w') as Hown.
  { destruct (He _ _ _ Hx) as [-> | [-> | [Hl ->]]]; [apply lease_own_refl | apply ended_own |]. split.
    - intros [Ht Hh Hu]. split; [| done]. constructor; cbn; [done | done | done].
    - intros me' Hne c' Hc'. split_and!; [done | done |]. cbn. intros Ha. split; [done |].
      split; [| done]. intros Hl'. rewrite Hl in Hl'. simplify_eq. }
  split_and!; [done | apply ok_stable | by apply Hown].
Qed.

Lemma run_projection_spec elections fuel self me :
  leaserg me (run_projection elections fuel self me) lease_ok (λ _, lease_ok).
Proof.
  induction elections as [|n IH]; cbn [run_projection]; [by intros w Hw |].
  unfold try_acquire. cbn [prog_bind call].
  apply (owns_call _ _ _ (LConnect me) _ _ (λ x w, lease_ok w ∧
    match x with Ok c => c.1 = me ∧ unproven c w | Err _ => True end)).
  { intros w w' x Hw Hx. cbn in Hx. destruct x as [c|m].
    2: { subst w'. split_and!; [apply lease_own_refl | | done | done]. intros w1 w2 [H _] HR. by split; [eapply ok_stable |]. }
    destruct Hx as (<- & Hfresh & ->). 
    assert (lease_ok (opened c w)) as Hok.
    { destruct Hw as [Ht Hh Hu]. constructor; cbn; [done | | ].
      - intros c' Hc'. destruct (Hh c' Hc'). split; [set_solver | done].
      - intros c' [Hin | Hin]; [specialize (Hu c' (or_introl Hin)); set_solver |].
        apply elem_of_union in Hin as [? | Hin]; [set_solver |]. specialize (Hu c' (or_intror Hin)). set_solver. }
    assert (c ∉ lw_commits w) as Hnone by (intros Hin; by apply Hfresh, Hw; left).
    split_and!; [split | | done | done | split_and!; [done | cbn; set_solver | done]].
    - intros _. split; [done |]. cbn. set_solver.
    - intros me' Hne c' Hc'. cbn. assert (c' ≠ c) by congruence. split_and!; set_solver.
    - intros w1 w2 (H1 & _ & H2) HR. split_and!; [by eapply ok_stable | done |]. by eapply unproven_stable. }
  intros [c|m]; cbn [prog_bind call].
  2: { eapply owns_weaken; [exact IH | by intros w [? _] | done]. }
  apply (owns_pure _ _ _ (c.1 = me)); [by intros w (_ & ? & _) |]. intros <-.
  eapply owns_pre; [by intros w (_ & _ & H); exact H |].
  apply (owns_call _ _ _ (LTryLock c) _ _ (λ x w, match x with Ok true => mine c w | _ => lease_ok w end)).
  { intros w w' x (Hok & Hu & Hc) Hx. cbn in Hx.
    assert (c ∈ lw_alive w → lw_lock w = None → lease_own c.1 w (locked (Some c) w) ∧ lease_ok (locked (Some c) w)) as Hlock.
    { intros Ha Hn. assert (lease_ok (locked (Some c) w)) as Hok'.
      { destruct Hok as [Ht Hh Hused]. constructor; cbn; [done | | done]. intros c' [= <-]. by split. }
      split; [| done]. split; [by intros _ |]. intros me' Hne c' Hc'. split_and!; [done | done |]. cbn. intros Ha'.
      split; [done |]. rewrite Hn. split; [done |]. congruence. }
    destruct x as [[]|m].
    - destruct Hx as (Ha & Hn & ->). destruct (Hlock Ha Hn). split_and!; [done | apply mine_stable | by split_and!].
    - subst w'. split_and!; [apply lease_own_refl | apply ok_stable | done].
    - destruct Hx as [-> | [-> | (Ha & Hn & ->)]].
      + split_and!; [apply lease_own_refl | apply ok_stable | done].
      + split_and!; [apply ended_own | apply ok_stable | by apply ended_improves].
      + destruct (Hlock Ha Hn). split_and!; [done | apply ok_stable | done]. }
  intros [[]|m]; cbn [prog_bind call negb]; [| | exact IH].
  - eapply owns_bind; [apply on_lease_spec |]. intros r. unfold release. cbn [prog_bind call].
    eapply owns_pre; [by intros w [H _]; exact H |].
    apply (rg_give_back c.1 c); [by intros w w' x Hx | done |]. intros _. cbn [prog_bind call].
    apply (rg_give_back c.1 c); [| done | intros _; exact IH]. intros w w' x [-> | ->]; auto.
  - apply (rg_give_back c.1 c); [| done | intros _; exact IH]. intros w w' x [-> | ->]; auto.
Qed.

(** C35: any number of projection tasks contending for the lease, with
    connections that fail and end at any moment: the batches committed under one
    lease are never interleaved with those of another, and a projector that lost
    its lease commits nothing after its successor has. *)
Theorem one_projector_at_a_time elections fuel self n w w' ts' :
  lease_ok w →
  rtc (pool_step lease_step lease_env) (w, run_projection elections fuel self <$> seq 0 n) (w', ts') →
  lease_ok w' ∧ tenures (lw_commits w').
Proof.
  intros Hok Hsteps.
  destruct (pool_steps_owners lease_step lease_env lease_own lease_rely improves (λ _ _, lease_ok)
    (w, run_projection elections fuel self <$> seq 0 n) (w', ts')) as [HT _].
  - intros i j w1 w2 Hne [Hext Hl]. split; [done | by apply Hl].
  - intros i w1 w2 [c w0]. split; [apply ended_improves | apply ended_leaves].
  - by intros i w1 w2 [? _].
  - intros w1 w2 [c w0]. apply ended_improves.
  - done.
  - intros i p Hi. cbn in *. apply list_lookup_fmap_Some in Hi as (c & -> & Hc).
    apply lookup_seq in Hc as [-> _]. exists lease_ok. split_and!; [apply ok_stable | done |].
    apply run_projection_spec.
  - destruct (HT Hok) as [Hok' _]. split; [done | apply Hok'].
Qed.
End lease.

(** ** A concrete election *)

(** Two batches are waiting; nothing fails that need not. *)
Definition lease_healthy `{J : SerdeJson} : handler LeaseE LeaseWorld := λ X e w,
  match e in LeaseE X return LeaseWorld * X with
  | LConnect me =>
      let c := (me, size (lw_used w)) in
      if bool_decide (c ∈ lw_used w) then (w, Err "too many connections") else (opened c w, Ok c)
  | LTryLock c =>
      if bool_decide (c ∈ lw_alive w ∧ lw_lock w = None) then (locked (Some c) w, Ok true) else (w, Ok false)
  | LUnlock c => (if bool_decide (lw_lock w = Some c) then locked None w else w, Ok tt)
  | LClose c => (ended c w, Ok tt)
  | LCall c e =>
      match e in PgE X return LeaseWorld * X with
      | StillHeld =>
          if bool_decide (c ∈ lw_alive w) then (w, Ok (bool_decide (lw_lock w = Some c)))
          else (w, Err "connection closed")
      | SelectCheckpoint _ => (w, Ok None)
      | CreateConsumer _ => (w, Ok tt)
      | NextMessage after =>
          (w, if (after <? 2)%Z then Delivered (after + 1) (Some (after + 1)%Z) "documents.acme.09.doc-1" [] else StreamEnded)
      | Begin => (w, Ok tt)
      | SelectDocument _ _ _ => (w, Ok None)
      | Execute _ => (w, Ok tt)
      | Commit _ =>
          if bool_decide (c ∈ lw_alive w) then (batch_committed c w, Ok tt) else (w, Err "connection closed")
      end
  end.

Lemma lease_healthy_step `{J : SerdeJson} X (e : LeaseE X) w w' x :
  lease_healthy X e w = (w', x) → lease_step X e w w' x.
Proof.
  destruct e as [me | c | c | c | c A e]; cbn.
  - case_bool_decide; intros Hs; simplify_eq; [done |]. by split_and!.
  - case_bool_decide as Hc; intros Hs; simplify_eq; [| done]. by destruct Hc.
  - case_bool_decide; intros Hs; simplify_eq; auto.
  - intros Hs; simplify_eq. auto.
  - destruct e; cbn; try (intros Hs; simplify_eq; by left); case_bool_decide; intros Hs; simplify_eq; auto.
Qed.

Module LeaseDemo.
#[local] Existing Instances Demo.json ProjectionDemo.postgres ProjectionDemo.codec ProjectionDemo.values.
Definition self : ProjectionLoop := projection_new 1.
Definition empty : LeaseWorld := mkLease None ∅ ∅ [].
Definition task (me : nat) : prog LeaseE unit := run_projection 1 4 self me.
Definition first : LeaseWorld * unit := run lease_healthy (task 0) empty.
Definition second : LeaseWorld * unit := run lease_healthy (task 1) first.1.
End LeaseDemo.

#[local] Existing Instances Demo.json ProjectionDemo.postgres ProjectionDemo.codec ProjectionDemo.values.

Lemma one_projector_at_a_time_witness :
  lw_commits LeaseDemo.second.1 = [(0, 0); (0, 0); (1, 1); (1, 1)]%nat ∧
  tenures (lw_commits LeaseDemo.second.1).
Proof.
  split; [vm_compute; reflexivity |].
  apply (one_projector_at_a_time 1 4 LeaseDemo.self 2 LeaseDemo.empty LeaseDemo.second.1
    [Ret LeaseDemo.first.2; Ret LeaseDemo.second.2]).
  - constructor; cbn; [by intros i j k c _ ? | done |]. intros c [?%not_elem_of_nil | ?]; [done | set_solver].
  - pose proof (pool_run_sub lease_step lease_healthy lease_env (LeaseDemo.task <$> seq 0 2) 0 _ LeaseDemo.empty
      lease_healthy_step eq_refl) as H1.
    pose proof (pool_run_sub lease_step lease_healthy lease_env
      (<[0%nat := Ret LeaseDemo.first.2]> (LeaseDemo.task <$> seq 0 2)) 1 _ LeaseDemo.first.1
      lease_healthy_step eq_refl) as H2.
    etrans; [exact H1 | exact H2].
Defined.
