(* ===== verification/ReadModel.v ===== *)
(** * The read model in Postgres

    crates/document-adapters/src/postgres/read_model.rs, the [DocumentReadModel] of
    production: two statements on the [document] table that the projection keeps.
    The text comparison of the database is that of its collation, which need not
    be the comparison of bytes of the in-memory model; the pages are complete
    under any collation that is a total order. *)

From S2P Require Import Prelude Text Events Fold Keys Ports Memory Service Listing Projection ProjectionRun.

Local Open Scope Z_scope.

(** The collation of the [document_id] column: a deterministic one, which tells
    different texts apart. *)
Class Collation := {
  text_lt : string → string → bool;
  text_lt_irrefl s : text_lt s s = false;
  text_lt_trans s t u : text_lt s t = true → text_lt t u = true → text_lt s u = true;
  text_lt_total s t : text_lt s t = true ∨ s = t ∨ text_lt t s = true;
}.

(** The statements; a row of the answer is a [PgRow], whose columns may not decode. *)
Inductive ReadE {J : SerdeJson} : Type → Type :=
| SelectOne (tenant document_id : string) : ReadE (result (option (result Row string)) string)
| SelectPage (tenant : string) (after_at : option DateTime) (after_id : option string) (limit : Z)
    : ReadE (result (list (result Row string)) string).

Section adapter.
Context {J : SerdeJson} {PG : Postgres}.

(** [read_error] *)
Definition read_error (context error : string) : ReadError := RUnavailable (context +:+ ": " +:+ error).

Definition decode_row (row : result Row string) : result DocumentState ReadError :=
  result_map_err (λ error, RPayload ("decode document row: " +:+ error)) (result_map row_to_document row).

(** [PgDocumentReadModel::get] *)
Definition pg_get (tenant document_id : string) : prog ReadE (result (option DocumentState) ReadError) :=
  let* row := call (SelectOne tenant document_id) in
  Ret (match row with
       | Err error => Err (read_error "get document" error)
       | Ok None => Ok None
       | Ok (Some row) => result_map Some (decode_row row)
       end).

(** [collect::<Result<Vec<_>, _>>] *)
Fixpoint decode_rows (rows : list (result Row string)) : result (list DocumentState) ReadError :=
  match rows with
  | [] => Ok []
  | row :: rows => let? d := decode_row row in let? ds := decode_rows rows in Ok (d :: ds)
  end.

(** [PgDocumentReadModel::list] *)
Definition pg_list (tenant : string) (limit : Z) (after : option DocumentCursor)
  : prog ReadE (result (list DocumentState) ReadError) :=
  let* rows := call (SelectPage tenant (cu_updated_at <$> after) (cu_document_id <$> after) limit) in
  Ret (match rows with
       | Err error => Err (read_error "list documents" error)
       | Ok rows => decode_rows rows
       end).

(** The ports of a process whose read model is this one. *)
Definition read_ports (others : ∀ A, PortE A → prog ReadE A) : ∀ A, PortE A → prog ReadE A := λ A e,
  match e in PortE A return prog ReadE A with
  | RmGet tenant document_id => pg_get tenant document_id
  | RmList tenant limit after => pg_list tenant limit after
  | other => others _ other
  end.
End adapter.

(** ** The table *)

Section table.
Context {J : SerdeJson} {PG : Postgres} {C : Collation}.

Abbreviation table := (gmap (string * string) Row).

Definition pg_key (r : Row) : DateTime * string := (r_updated_at r, r_document_id r).

(** The row comparison [(a, b) < (c, d)] of SQL. *)
Definition pg_lt (a b : DateTime * string) : Prop :=
  a.1 < b.1 ∨ a.1 = b.1 ∧ text_lt a.2 b.2 = true.

#[export] Instance pg_lt_dec a b : Decision (pg_lt a b).
Proof. unfold pg_lt. solve_decision. Defined.

(** The [WHERE] of the page; the instant of the cursor is sent as a [timestamptz]. *)
Definition selected (tenant : string) (after_at : option DateTime) (after_id : option string) (r : Row) : Prop :=
  r_tenant_id r = tenant ∧
  match after_at, after_id with
  | Some t, Some id => pg_lt (pg_key r) (timestamptz t, id)
  | Some t, None => False
  | None, _ => True
  end.

(** [ORDER BY updated_at DESC, document_id DESC] *)
Definition newest : list Row → Prop := StronglySorted (λ r s, pg_lt (pg_key s) (pg_key r)).

(** A row as the driver hands it over. *)
Definition fetched (r : Row) (x : result Row string) : Prop := x = Ok r ∨ ∃ error, x = Err error.

Definition read_step (X : Type) (e : ReadE X) (w w' : table) : X → Prop :=
  match e in ReadE X return X → Prop with
  | SelectOne tenant document_id => λ x,
      w' = w ∧
      match x with
      | Ok None => w !! (tenant, document_id) = None
      | Ok (Some x) => ∃ r, w !! (tenant, document_id) = Some r ∧ fetched r x
      | Err _ => True
      end
  | SelectPage tenant after_at after_id limit => λ x,
      w' = w ∧
      match x with
      | Ok xs => ∃ ordered : list Row,
          (∀ r, r ∈ ordered ↔ (∃ k, w !! k = Some r) ∧ selected tenant after_at after_id r) ∧
          newest ordered ∧ Forall2 fetched (take (Z.to_nat limit) ordered) xs
      | Err _ => True
      end
  end.

(** The rows are under their keys, with instants the column can hold. *)
Definition table_ok (w : table) : Prop :=
  ∀ k r, w !! k = Some r → k = (r_tenant_id r, r_document_id r) ∧ timestamptz (r_updated_at r) = r_updated_at r.

#[export] Instance pg_lt_trans : Transitive pg_lt.
Proof.
  intros a b c [? | [? H1]] [? | [? H2]]; unfold pg_lt; [left; lia.. |]. right.
  split; [lia |]. by eapply text_lt_trans.
Qed.

#[export] Instance pg_lt_irrefl : Irreflexive pg_lt.
Proof. intros a [? | [_ H]]; [lia |]. by rewrite text_lt_irrefl in H. Qed.

Lemma pg_lt_total a b : pg_lt a b ∨ a = b ∨ pg_lt b a.
Proof.
  unfold pg_lt. destruct a as [s i], b as [t j]; cbn.
  destruct (Z.lt_trichotomy s t) as [? | [-> | ?]]; [by left; left | | by right; right; left].
  destruct (text_lt_total i j) as [? | [-> | ?]]; [by left; right | by right; left | by right; right; right].
Qed.

(** What follows a row in the order is what is older. *)
Lemma newest_after pre r post x :
  newest (pre ++ r :: post) → x ∈ pre ++ r :: post → x ∈ post ↔ pg_lt (pg_key x) (pg_key r).
Proof.
  intros Hs Hx. unfold newest in Hs. split.
  - intros Hp. rewrite cons_middle, (assoc_L app) in Hs.
    apply (StronglySorted_app_1_elem_of _ _ _ r x Hs); [set_solver | done].
  - intros Hlt. apply elem_of_app in Hx as [Hx | [-> | Hx]%elem_of_cons]; [| by destruct (irreflexivity pg_lt _ Hlt) | done].
    assert (pg_lt (pg_key r) (pg_key x)) as Hgt
      by (apply (StronglySorted_app_1_elem_of _ _ _ x r Hs Hx); set_solver).
    destruct (irreflexivity pg_lt (pg_key x)). by etrans.
Qed.

Lemma newest_NoDup l : newest l → NoDup l.
Proof.
  induction 1 as [|r l Hs IH Hr]; constructor; [| done]. rewrite Forall_forall in Hr.
  intros Hin. exact (irreflexivity pg_lt _ (Hr _ Hin)).
Qed.

Lemma newest_unique l l' : newest l → newest l' → (∀ r, r ∈ l ↔ r ∈ l') → l = l'.
Proof.
  intros Hl Hl' Hin.
  eapply StronglySorted_unique_strong; [| exact Hl | exact Hl' |].
  - intros r s _ _ H1 H2. destruct (irreflexivity pg_lt (pg_key r)). by trans (pg_key s).
  - apply NoDup_Permutation; auto using newest_NoDup.
Qed.

(** The rows of a tenant, in order, and what is left of them after a cursor. *)
Definition ordered (w : table) (tenant : string) (l : list Row) : Prop :=
  newest l ∧ ∀ r, r ∈ l ↔ (∃ k, w !! k = Some r) ∧ r_tenant_id r = tenant.

Definition row_cursor (r : Row) : DocumentCursor := mkCursor (r_updated_at r) (r_document_id r).

Definition left_after (l : list Row) (after : option DocumentCursor) (rest : list Row) : Prop :=
  match after with
  | None => rest = l
  | Some c => ∃ pre r, l = pre ++ r :: rest ∧ c = row_cursor r
  end.

Lemma row_cursor_of r : mkCursor (ds_updated_at (row_to_document r)) (ds_document_id (row_to_document r)) = row_cursor r.
Proof. done. Qed.

(** What the statement selects after a cursor is the rest. *)
Lemma selected_rest w tenant l after rest :
  table_ok w → ordered w tenant l → left_after l after rest →
  newest rest ∧
  ∀ r, r ∈ rest ↔ (∃ k, w !! k = Some r) ∧ selected tenant (cu_updated_at <$> after) (cu_document_id <$> after) r.
Proof.
  intros Hok [Hs Hin] Hr. destruct after as [c|]; cbn in Hr.
  - destruct Hr as (pre & r & -> & ->). split.
    + unfold newest in *. apply StronglySorted_app_1_r in Hs. by inversion Hs.
    + intros x. unfold selected. cbn.
      assert ((∃ k, w !! k = Some r) ∧ r_tenant_id r = tenant) as [[k Hk] _] by (apply Hin; set_solver).
      destruct (Hok _ _ Hk) as [_ ->]. change (r_updated_at r, r_document_id r) with (pg_key r).
      split.
      * intros Hx. assert (x ∈ pre ++ r :: rest) as Hx' by set_solver.
        destruct (proj1 (Hin x) Hx') as [??]. split_and!; [done.. | by apply (newest_after pre r rest)].
      * intros (Hk' & Ht & Hlt). by apply (newest_after pre r rest x Hs); [apply Hin |].
  - subst rest. split; [done |]. intros r. rewrite Hin. unfold selected. cbn. naive_solver.
Qed.

(** So a page is the head of the rest. *)
Lemma page_rest w w' tenant l after rest limit xs :
  table_ok w → ordered w tenant l → left_after l after rest →
  read_step _ (SelectPage tenant (cu_updated_at <$> after) (cu_document_id <$> after) limit) w w' (Ok xs) →
  Forall2 fetched (take (Z.to_nat limit) rest) xs.
Proof.
  intros Hok Hl Hr [_ (page & Hin & Hs & Hxs)]. destruct (selected_rest _ _ _ _ _ Hok Hl Hr) as [Hs' Hin'].
  assert (page = rest) as <-; [| done]. apply newest_unique; [done.. |]. intros r. by rewrite Hin, Hin'.
Qed.

Lemma decode_fetched rows xs :
  Forall2 fetched rows xs →
  decode_rows xs = Ok (row_to_document <$> rows) ∨ ∃ error, decode_rows xs = Err (RPayload error).
Proof.
  induction 1 as [| r x rows xs [-> | [e ->]] Hf [IH | [e' IH]]]; cbn; [by left | | | by right; eexists..].
  - rewrite IH. by left.
  - rewrite IH. right. by eexists.
Qed.

(** ** Sorting *)

Definition not_older (r s : Row) : Prop := ¬ pg_lt (pg_key r) (pg_key s).

#[export] Instance not_older_dec r s : Decision (not_older r s).
Proof. unfold not_older. apply _. Defined.

#[export] Instance not_older_total : Total not_older.
Proof.
  intros r s. unfold not_older. destruct (decide (pg_lt (pg_key r) (pg_key s))) as [H1|]; [right | by left].
  intros H2. destruct (irreflexivity pg_lt (pg_key r)). by trans (pg_key s).
Qed.

#[export] Instance not_older_trans : Transitive not_older.
Proof.
  unfold not_older. intros a b c H1 H2 H3.
  destruct (pg_lt_total (pg_key a) (pg_key b)) as [? | [Heq | H4]]; [done | by rewrite <- Heq in H2 |].
  apply H2. by trans (pg_key a).
Qed.

Lemma sort_newest l : NoDup (pg_key <$> l) → newest (merge_sort not_older l).
Proof.
  intros Hnd. pose proof (StronglySorted_merge_sort not_older l) as Hs.
  rewrite <- (merge_sort_Permutation not_older l) in Hnd. revert Hnd.
  induction Hs as [|r l' Hs IH Hr]; intros Hnd; constructor.
  - apply IH. by inversion Hnd.
  - rewrite fmap_cons, NoDup_cons in Hnd. destruct Hnd as [Hnot _].
    rewrite Forall_forall in Hr |- *. intros s Hin. specialize (Hr s Hin).
    destruct (pg_lt_total (pg_key r) (pg_key s)) as [? | [Heq | ?]]; [done | | done].
    destruct Hnot. rewrite Heq. by apply list_elem_of_fmap_2.
Qed.

(** The rows of the table that satisfy a condition on one tenant have distinct keys. *)
Definition rows_where (w : table) (P : Row → Prop) `{∀ r, Decision (P r)} : list Row :=
  filter P (map_to_list w).*2.

Lemma elem_of_rows_where w P `{∀ r, Decision (P r)} r :
  r ∈ rows_where w P ↔ (∃ k, w !! k = Some r) ∧ P r.
Proof.
  unfold rows_where. rewrite list_elem_of_filter, list_elem_of_fmap. split.
  - intros (? & [k r'] & -> & Hk%elem_of_map_to_list). eauto.
  - intros ([k Hk] & ?). split; [done |]. exists (k, r). by rewrite elem_of_map_to_list.
Qed.

Lemma rows_where_keys w tenant P `{∀ r, Decision (P r)} :
  table_ok w → (∀ r, P r → r_tenant_id r = tenant) → NoDup (pg_key <$> rows_where w P).
Proof.
  intros Hok Ht. apply NoDup_fmap_2_strong.
  - intros r s [[k Hk] Hr%Ht]%elem_of_rows_where [[k' Hk'] Hs%Ht]%elem_of_rows_where Heq.
    destruct (Hok _ _ Hk) as [-> _], (Hok _ _ Hk') as [-> _]. unfold pg_key in Heq. congruence.
  - apply NoDup_filter, NoDup_fmap_2_strong; [| apply NoDup_map_to_list].
    intros [k r] [k' r'] Hk%elem_of_map_to_list Hk'%elem_of_map_to_list Heq. cbn in Heq. subst r'.
    destruct (Hok _ _ Hk) as [-> _], (Hok _ _ Hk') as [-> _]. done.
Qed.

Lemma sorted_where w tenant P `{∀ r, Decision (P r)} :
  table_ok w → (∀ r, P r → r_tenant_id r = tenant) →
  newest (merge_sort not_older (rows_where w P)) ∧
  ∀ r, r ∈ merge_sort not_older (rows_where w P) ↔ (∃ k, w !! k = Some r) ∧ P r.
Proof.
  intros Hok Ht. split; [by eapply sort_newest, rows_where_keys |].
  intros r. by rewrite merge_sort_Permutation, elem_of_rows_where.
Qed.

Definition tenant_order (w : table) (tenant : string) : list Row :=
  merge_sort not_older (rows_where w (λ r, r_tenant_id r = tenant)).

Lemma tenant_order_ok w tenant : table_ok w → ordered w tenant (tenant_order w tenant).
Proof. intros Hok. by apply (sorted_where w tenant). Qed.

(** ** Following the cursors *)

Context {X : Hex} {S2 : Sha2} (others : ∀ A, PortE A → prog ReadE A).

Abbreviation pgrg := (rg read_step eq).

Lemma stays_stable (P : table → Prop) : stable eq P.
Proof. by intros w w' Hw <-. Qed.

(** The cursor of a page leads to the rows after it. *)
Lemma next_rows l after rest limit :
  left_after l after rest → 1 ≤ limit →
  match next_cursor limit (row_to_document <$> take (Z.to_nat limit) rest) with
  | None => take (Z.to_nat limit) rest = rest
  | Some c => left_after l (Some c) (drop (Z.to_nat limit) rest) ∧ (length (drop (Z.to_nat limit) rest) < length rest)%nat
  end.
Proof.
  intros Hr Hlim. remember (Z.to_nat limit) as n eqn:Hn. unfold next_cursor. rewrite length_fmap.
  destruct (Z.eqb_spec (Z.of_nat (length (take n rest))) limit) as [Hfull | Hshort].
  - rewrite fmap_last. destruct (last (take n rest)) as [r|] eqn:Hlast.
    2: { apply last_None in Hlast. rewrite Hlast in Hfull. cbn in Hfull. lia. }
    cbn [fmap option_fmap option_map]. rewrite row_cursor_of. apply last_Some in Hlast as [pre Hpre].
    assert (rest = pre ++ r :: drop n rest) as Heq by (rewrite <- (take_drop n rest) at 1; by rewrite Hpre, <- (assoc_L app)).
    split; [| rewrite length_drop; rewrite length_take in Hfull; lia].
    destruct after as [c|]; cbn in Hr.
    + destruct Hr as (pre' & r' & -> & _). exists (pre' ++ r' :: pre), r. split; [| done].
      rewrite <- (assoc_L app). cbn. by rewrite <- Heq.
    + rewrite <- Hr. by exists pre, r.
  - rewrite take_ge; [done |]. rewrite length_take in Hshort. lia.
Qed.

Lemma crawl_rows w tenant limit l fuel after rest :
  table_ok w → ordered w tenant l → left_after l after rest → (length rest < fuel)%nat →
  pgrg (interp (read_ports others) (crawl fuel tenant limit after)) (λ v, v = w)
    (λ r v, v = w ∧ match r with
                    | Ok ds => ds = row_to_document <$> rest
                    | Err e => ∃ error, e = from_read_error error
                    end).
Proof.
  intros Hok Hl. revert after rest. induction fuel as [|fuel IH]; intros after rest Hr Hf; [lia |].
  pose proof (clamp_limit_range limit) as [Hlim _]. pose proof (next_rows l after rest _ Hr Hlim) as Hnext.
  set (n := Z.to_nat (clamp_limit limit)) in *.
  cbn [crawl list_documents prog_bind call interp read_ports]. unfold pg_list.
  apply (rg_call _ _ _ _ _ (λ x v, v = w ∧ match x with
    | Ok xs => Forall2 fetched (take n rest) xs
    | Err _ => True end)).
  { intros v v' x -> Hx. assert (v' = w) as -> by apply Hx. split_and!; [done | apply stays_stable | done |].
    destruct x as [xs|]; [| done]. by eapply page_rest. }
  intros [xs|error]; cbn [interp prog_bind].
  2: { intros v [-> _]. split; [done | by eexists]. }
  apply (rg_pure _ _ (Forall2 fetched (take n rest) xs)); [by intros v [_ ?] |]. intros Hxs.
  destruct (decode_fetched _ _ Hxs) as [-> | [error ->]]; cbn [interp prog_bind pg_next pg_items];
    [| intros v [-> _]; split; [done | by eexists]].
  destruct (next_cursor _ _) as [c|].
  - destruct Hnext as [Hr' Hlen]. eapply rg_equiv; [apply interp_bind |].
    eapply rg_bind; [eapply rg_pre; [intros v [Hv _]; exact Hv | apply IH; [exact Hr' | lia]] |].
    intros [ds|e] v [-> Hds]; (split; [done |]); [| exact Hds]. by rewrite Hds, <- fmap_app, take_drop.
  - intros v [-> _]. split; [done |]. by rewrite Hnext.
Qed.

(** C31: on Postgres, under any collation that is a total order, a client that
    follows the cursors with any page size gets every row of its tenant exactly
    once, newest first, decoded, and none of another tenant's; and when a
    statement fails or a row does not decode it is told so, and never gets a part
    of the list for the whole. *)
Theorem postgres_paging_is_complete w w' tenant limit fuel r :
  table_ok w → (length (tenant_order w tenant) < fuel)%nat →
  rtc (pool_step read_step (λ _ _, False))
    (w, [interp (read_ports others) (crawl fuel tenant limit None)]) (w', [Ret r]) →
  match r with
  | Ok ds => ∃ rows, ordered w tenant rows ∧ ds = row_to_document <$> rows
  | Err e => ∃ error, e = from_read_error error
  end.
Proof.
  intros Hok Hf Hsteps. pose proof (tenant_order_ok w tenant Hok) as Hl.
  pose proof (crawl_rows w tenant limit _ fuel None _ Hok Hl eq_refl Hf) as Hp.
  eapply (pool_steps_rg read_step (λ _ _, False) eq _ _ [λ r _, _]) in Hsteps as [_ Hts]; [| done |].
  - inversion Hts as [| ? ? ? ? Ht]; subst. exact (rg_thread_ret read_step eq w' r _ Ht).
  - constructor; [| constructor]. exists (λ v, v = w). split_and!; [apply stays_stable | done |].
    eapply rg_weaken; [exact Hp | done |]. intros [ds|e] v [_ H]; [| exact H].
    exists (tenant_order w tenant). split; [done | exact H].
Qed.

(** [get_document] on Postgres answers the row under the caller's own tenant. *)
Lemma get_document_is_row w w' tenant document_id r :
  rtc (pool_step read_step (λ _ _, False))
    (w, [interp (read_ports others) (get_document tenant document_id)]) (w', [Ret r]) →
  match r with
  | Ok d => ∃ row, w !! (tenant, document_id) = Some row ∧ d = row_to_document row
  | Err e => (e = DNotFound ∧ w !! (tenant, document_id) = None) ∨ ∃ error, e = from_read_error error
  end.
Proof.
  intros Hsteps.
  eapply (pool_steps_rg read_step (λ _ _, False) eq _ _ [λ r _, _]) in Hsteps as [_ Hts]; [| done |].
  - inversion Hts as [| ? ? ? ? Ht]; subst. exact (rg_thread_ret read_step eq w' r _ Ht).
  - constructor; [| constructor]. exists (λ v, v = w). split_and!; [apply stays_stable | done |].
    unfold get_document. cbn [interp call read_ports prog_bind]. unfold pg_get.
    apply (rg_call _ _ _ _ _ (λ x _, match x with
      | Ok None => w !! (tenant, document_id) = None
      | Ok (Some x) => ∃ row, w !! (tenant, document_id) = Some row ∧ fetched row x
      | Err _ => True
      end)).
    + intros v v' x -> Hx. assert (v' = w) as -> by apply Hx. destruct Hx as [_ Hx].
      split_and!; [done | apply stays_stable | exact Hx].
    + intros [[x|]|e]; [| by left | by right; eexists].
      apply (rg_pure _ _ (∃ row, w !! (tenant, document_id) = Some row ∧ fetched row x)); [by intros v |].
      intros (row & Hrow & [-> | [e ->]]) v _; [by exists row | by right; eexists].
Qed.
End table.

(** ** A concrete table *)

Section server.
Context {J : SerdeJson} {PG : Postgres} {C : Collation}.

#[export] Instance selected_dec tenant after_at after_id r : Decision (selected tenant after_at after_id r).
Proof. unfold selected. repeat case_match; apply _. Defined.

Definition read_healthy : handler ReadE (gmap (string * string) Row) := λ X e w,
  match e in ReadE X return _ * X with
  | SelectOne tenant document_id => (w, Ok (Ok <$> w !! (tenant, document_id)))
  | SelectPage tenant after_at after_id limit =>
      (w, Ok (Ok <$> take (Z.to_nat limit) (merge_sort not_older (rows_where w (selected tenant after_at after_id)))))
  end.

Lemma read_healthy_step X (e : ReadE X) w w' x :
  table_ok w → read_healthy X e w = (w', x) → read_step X e w w' x.
Proof.
  intros Hok. destruct e; cbn; intros [= <- <-]; (split; [done |]).
  - destruct (w !! (tenant, document_id)) as [r|] eqn:Hr; cbn; [| done]. exists r. split; [done | by left].
  - destruct (sorted_where w tenant (selected tenant after_at after_id) Hok) as [Hs Hin]; [by intros r [? _] |].
    eexists. split; [exact Hin |]. split; [exact Hs |]. apply Forall2_fmap_r, Forall_Forall2_diag, Forall_forall.
    by left.
Qed.
End server.

Module ReadModelDemo.
#[export] Instance bytewise : Collation.
Proof.
  refine {| text_lt := String.ltb; text_lt_irrefl := string_ltb_irrefl; text_lt_total := string_trichotomy |}.
  intros s t u. rewrite !string_ltb_lt. apply string_compare_lt_trans.
Defined.

#[local] Existing Instances Demo.json ProjectionDemo.postgres.

Definition document (tenant id : string) (at_ : Z) : DocumentState :=
  mkState tenant id "user-1" 1 1 Active Pending None None None None None None None [] None value_empty_object at_ at_.
Definition row (tenant id : string) (at_ : Z) : Row := document_to_row (document tenant id at_).
Definition table : gmap (string * string) Row := list_to_map
  ((λ r, ((r_tenant_id r, r_document_id r), r)) <$>
    [row "acme" "d1" 7000; row "acme" "d2" 7000; row "acme" "d3" 9000; row "other" "d4" 8000]).
End ReadModelDemo.

#[local] Existing Instances Demo.json Demo.hex Demo.sha2 ProjectionDemo.postgres ReadModelDemo.bytewise.

Module ReadModelRun.
Definition others (A : Type) (e : PortE A) : prog ReadE A := Ret (mem A e MemoryDemo.empty).2.
Definition client := interp (read_ports others) (crawl 4 "acme" 1 None).
Definition pages := run read_healthy client ReadModelDemo.table.

Lemma table_ok_demo : table_ok ReadModelDemo.table.
Proof.
  intros k r Hk. apply elem_of_list_to_map_2, list_elem_of_fmap in Hk as (r' & [= -> ->] & Hr).
  split; [done |]. repeat (apply elem_of_cons in Hr as [-> | Hr]; [vm_compute; reflexivity |]).
  by apply not_elem_of_nil in Hr.
Qed.

Lemma client_runs : rtc (pool_step read_step (λ _ _, False)) (ReadModelDemo.table, [client]) (pages.1, [Ret pages.2]).
Proof.
  apply (pool_run_inv table_ok); [| exact table_ok_demo].
  intros X e w1 w2 x Hok Hx. split; [| by apply read_healthy_step].
  destruct e; cbn in Hx; by injection Hx as <- _.
Qed.
End ReadModelRun.

Lemma postgres_paging_is_complete_witness :
  ReadModelRun.pages.2 = Ok [ReadModelDemo.document "acme" "d3" 9000; ReadModelDemo.document "acme" "d2" 7000;
                             ReadModelDemo.document "acme" "d1" 7000] ∧
  ∃ rows, ordered ReadModelDemo.table "acme" rows ∧ r_document_id <$> rows = ["d3"; "d2"; "d1"].
Proof.
  assert (ReadModelRun.pages.2 = Ok [ReadModelDemo.document "acme" "d3" 9000;
    ReadModelDemo.document "acme" "d2" 7000; ReadModelDemo.document "acme" "d1" 7000]) as Heq
    by (vm_compute; reflexivity).
  split; [exact Heq |].
  assert (length (tenant_order ReadModelDemo.table "acme") < 4)%nat as Hlen by (apply Nat.ltb_lt; vm_compute; reflexivity).
  pose proof (postgres_paging_is_complete ReadModelRun.others ReadModelDemo.table ReadModelRun.pages.1 "acme" 1 4
    ReadModelRun.pages.2 ReadModelRun.table_ok_demo Hlen ReadModelRun.client_runs) as Hpages.
  rewrite Heq in Hpages. destruct Hpages as (rows & Ho & Hrows). exists rows. split; [exact Ho |].
  apply (f_equal (fmap ds_document_id)) in Hrows. rewrite <- list_fmap_compose in Hrows. exact (eq_sym Hrows).
Defined.
