(* ===== verification/Verification.v ===== *)
(** * The scanner and the content validator

    crates/document-adapters/src/verification.rs: [PermissiveScanner], which
    streams an object past the EICAR signature and a SHA-256 hasher, and
    [BasicContentValidator], a magic-byte sniff against the declared type.

    The theorems say that what the scanner answers does not depend on how the
    object is cut into reads, and exactly which objects the validator refuses. *)

From S2P Require Import Prelude Text Events Keys Ports Memory.

(** The incremental interface of sha2: absorbing chunks is hashing their
    concatenation. *)
Class Sha256Stream `{Sha2} := {
  Hasher : Type;
  hasher_new : Hasher;
  hasher_update : Hasher → bytes → Hasher;
  hasher_finalize : Hasher → bytes;
  hasher_concat : ∀ chunks,
    hasher_finalize (foldl hasher_update hasher_new chunks) = sha256 (concat chunks);
}.

#[export] Instance byte_eq_dec : EqDecision Byte.byte := Byte.byte_eq_dec.

(** ** PermissiveScanner *)

Definition EICAR : bytes :=
  bytes_of_string "X5O!P%@AP[4\PZX54(P^)7CC)7}$EICAR-STANDARD-ANTIVIRUS-TEST-FILE!$H+H*".

Definition CHUNK_BYTES : Z := 64 * 1024.

(** [slice.windows(n)]: the stretches of length [n], in order. *)
Definition windows (n : nat) (l : bytes) : list bytes :=
  (λ i, take n (drop i l)) <$> seq 0 (length l + 1 - n).

(** [contains] *)
Definition contains (haystack needle : bytes) : bool :=
  existsb (λ window, bool_decide (window = needle)) (windows (length needle) haystack).

(** [blob.read(&mut buffer)]: at most [n] bytes, none at the end. *)
Definition read_into (n : Z) (blob : BoxAsyncRead) : result (bytes * BoxAsyncRead) string :=
  match blob with
  | [] => Ok ([], [])
  | Err e :: _ => Err e
  | Ok b :: blob' =>
      if (Z.of_nat (length b) <=? n)%Z then Ok (b, blob')
      else Ok (take (Z.to_nat n) b, Ok (drop (Z.to_nat n) b) :: blob')
  end.

(** The window kept across chunks. *)
Definition trim_window (window : bytes) : bytes :=
  if (length EICAR <? length window)%nat
  then drop (length window - (length EICAR - 1)) window else window.

Section scan.
Context {X : Hex} {S2 : Sha2} {H : Sha256Stream}.

Fixpoint scan_loop (fuel : nat) (blob : BoxAsyncRead) (hasher : Hasher) (byte_count : Z)
    (window : bytes) (infected : bool) : option (result (Hasher * Z * bool) ScanError) :=
  match fuel with
  | O => None
  | S fuel' =>
      match read_into CHUNK_BYTES blob with
      | Err e => Some (Err (SRead e))
      | Ok ([], _) => Some (Ok (hasher, byte_count, infected))
      | Ok (chunk, blob') =>
          let hasher := hasher_update hasher chunk in
          let byte_count := u64_add byte_count (Z.of_nat (length chunk)) in
          if infected then scan_loop fuel' blob' hasher byte_count window true
          else
            let window := window ++ chunk in
            scan_loop fuel' blob' hasher byte_count (trim_window window)
              (contains window EICAR)
      end
  end.

(** More reads than there can be. *)
Fixpoint read_bound (blob : BoxAsyncRead) : nat :=
  match blob with
  | [] => 1
  | Ok b :: blob' => S (length b) + read_bound blob'
  | Err _ :: _ => 1
  end.

Definition scan (blob : BoxAsyncRead) : option (result ScanOutcome ScanError) :=
  match scan_loop (read_bound blob) blob hasher_new 0 [] false with
  | None => None
  | Some r => Some (
      let? out := r in
      Ok (mkScan (if out.2 then Infected "Eicar-Test-Signature" else Clean)
            (hex_encode (hasher_finalize out.1.1)) out.1.2))
  end.
End scan.

(** ** BasicContentValidator *)

Definition SIGNATURES : list (bytes * string) :=
  [(bytes_of_string "%PDF-", "application/pdf");
   (Byte.x89 :: bytes_of_string "PNG" ++ [Byte.x0d; Byte.x0a; Byte.x1a; Byte.x0a], "image/png");
   ([Byte.xff; Byte.xd8; Byte.xff], "image/jpeg");
   (bytes_of_string "GIF87a", "image/gif");
   (bytes_of_string "GIF89a", "image/gif");
   (bytes_of_string "PK" ++ [Byte.x03; Byte.x04], "application/zip");
   ([Byte.x1f; Byte.x8b], "application/gzip");
   (bytes_of_string "%!PS", "application/postscript")].

(** [prefix.starts_with(magic)] on slices *)
Definition slice_starts_with (l p : bytes) : bool := bool_decide (take (length p) l = p).

(** [sniff] *)
Definition sniff (prefix : bytes) : option string :=
  snd <$> List.find (λ s, slice_starts_with prefix s.1) SIGNATURES.

(** [content_type_matches] *)
Definition content_type_matches (sniffed declared : string) : bool :=
  let declared := to_ascii_lowercase (trim (default "" (head (split ";" declared)))) in
  if is_empty declared || bool_decide (declared = "application/octet-stream") then true
  else if bool_decide (declared = sniffed) then true
  else
    bool_decide (sniffed = "application/zip")
    && (starts_with declared "application/vnd.openxmlformats-officedocument."
        || starts_with declared "application/vnd.oasis.opendocument."
        || bool_decide (declared = "application/epub+zip")
        || bool_decide (declared = "application/java-archive")).

(** [BasicContentValidator::validate] *)
Definition validate (head : BlobHead) (prefix : bytes) (declared : DeclaredContent)
  : result ContentVerdict ValidateError :=
  if bool_decide (bh_byte_size head ≠ de_byte_size declared) then
    Ok (ContentRejected
      ("declared " +:+ show_uint (de_byte_size declared) +:+ " bytes but the object is "
       +:+ show_uint (bh_byte_size head)))
  else
    match sniff prefix with
    | Some sniffed =>
        if negb (content_type_matches sniffed (de_content_type declared)) then
          Ok (ContentRejected
            ("content looks like " +:+ sniffed +:+ " but was declared as "
             +:+ de_content_type declared))
        else Ok ContentOk
    | None => Ok ContentOk
    end.

(** ** Lemmas *)

Lemma contains_bytes_spec l n :
  n ≠ [] → contains l n = true ↔ ∃ a b, l = a ++ n ++ b.
Proof.
  intros Hn. unfold contains, windows. rewrite existsb_exists. split.
  - intros (w & Hw & Heq). destruct_bools. subst w.
    apply list_elem_of_In, list_elem_of_fmap in Hw as (i & Hi & _).
    exists (take i l), (drop (length n) (drop i l)).
    rewrite Hi at 1. rewrite take_drop. by rewrite take_drop.
  - intros (a & b & ->). exists n. split; [| by apply bool_decide_eq_true].
    apply list_elem_of_In, list_elem_of_fmap. exists (length a).
    split.
    + rewrite drop_app_length. by rewrite take_app_length.
    + apply elem_of_seq. rewrite !length_app. lia.
Qed.

(** A match of [l ++ c] that is not one of [l] lies in any suffix [w] of [l]
    that is long enough, followed by [c]. *)
Lemma contains_window l w c n :
  n ≠ [] → (∃ l', l = l' ++ w) → (w = l ∨ length n ≤ S (length w)) →
  contains l n = false →
  contains (w ++ c) n = contains (l ++ c) n.
Proof.
  intros Hn [l' ->] Hw Hno. apply eq_true_iff_eq. rewrite !contains_bytes_spec by done. split.
  - intros (a & b & Heq). exists (l' ++ a), b. rewrite <- !app_assoc. by rewrite Heq.
  - intros (a & b & Heq). rewrite <- app_assoc in Heq.
    destruct Hw as [Hw | Hlen].
    { apply (f_equal length) in Hw as Hl. rewrite length_app in Hl.
      destruct l'; [by exists a, b | simpl in Hl; lia]. }
    destruct (decide (length l' ≤ length a)%nat) as [Hle|Hgt].
    + exists (drop (length l') a), b.
      apply (f_equal (drop (length l'))) in Heq. rewrite drop_app_length in Heq.
      by rewrite Heq, drop_app_le by done.
    + exfalso. assert (contains (l' ++ w) n = true) as Hc; [| congruence].
      apply contains_bytes_spec; [done |].
      exists a, (drop (length a + length n) (l' ++ w)).
      rewrite <- (take_drop (length a + length n) (l' ++ w)) at 1.
      assert (take (length a + length n) (l' ++ w) = a ++ n) as ->; [| by rewrite <- app_assoc].
      apply (f_equal (take (length a + length n))) in Heq.
      rewrite (app_assoc l'), take_app_le in Heq by (rewrite length_app; lia).
      rewrite Heq, app_assoc, take_app_le by (rewrite length_app; lia).
      apply take_ge. rewrite length_app. lia.
Qed.

Lemma trim_window_spec w :
  (∃ w', w = w' ++ trim_window w) ∧
  (trim_window w = w ∨ length EICAR ≤ S (length (trim_window w))).
Proof.
  unfold trim_window. destruct (_ <? _)%nat eqn:Hl.
  - apply Nat.ltb_lt in Hl. split; [eexists; symmetry; apply take_drop |].
    right. rewrite length_drop. lia.
  - split; [by exists [] | by left].
Qed.

Lemma contains_app l c n : n ≠ [] → contains l n = true → contains (l ++ c) n = true.
Proof.
  intros Hn. rewrite !contains_bytes_spec by done. intros (a & b & ->).
  exists a, (b ++ c). by rewrite <- !app_assoc.
Qed.

(** A reader whose reads are not empty before the end. *)
Definition flowing (blob : BoxAsyncRead) : Prop := Forall (λ r, r ≠ Ok []) blob.

(** The bytes a reader delivers, after those already read. *)
Definition rest_of (chunk : bytes) (blob : BoxAsyncRead) : result bytes string :=
  let? rest := read_to_end blob in Ok (chunk ++ rest).

Lemma read_into_spec n blob :
  (0 < n)%Z → flowing blob →
  match read_into n blob with
  | Err e => read_to_end blob = Err e
  | Ok ([], _) => read_to_end blob = Ok []
  | Ok (chunk, blob') =>
      read_to_end blob = rest_of chunk blob' ∧ flowing blob' ∧
      (read_bound blob' < read_bound blob)%nat
  end.
Proof.
  intros Hn Hf. unfold read_into, rest_of. destruct Hf as [|[b|e] blob Hb Hf]; [done | | done].
  destruct (Z.of_nat (length b) <=? n)%Z eqn:Hl.
  - destruct b as [|x b]; [done |]. split_and!; [done | done |]. simpl. lia.
  - destruct_bools. assert (Z.to_nat n < length b)%nat as Hlt by lia.
    assert (0 < Z.to_nat n)%nat as Hpos by lia. set (k := Z.to_nat n) in *. clearbody k.
    destruct (take k b) as [|x xs] eqn:Ht.
    { apply (f_equal length) in Ht. rewrite length_take in Ht. simpl in Ht. lia. }
    rewrite <- Ht. simpl. split_and!.
    + destruct (read_to_end blob) as [rest|]; simpl; [| done].
      by rewrite app_assoc, take_drop.
    + constructor; [| done]. intros [= Hd]. apply (f_equal length) in Hd.
      rewrite length_drop in Hd. simpl in Hd. lia.
    + rewrite length_drop. lia.
Qed.

Section exact.
Context {X : Hex} {S2 : Sha2} {H : Sha256Stream}.

(** What the loop knows of the bytes [l] it has read. *)
Definition scanned (l window : bytes) (infected : bool) : Prop :=
  infected = contains l EICAR ∧
  (infected = false →
     (∃ l', l = l' ++ window) ∧ (window = l ∨ length EICAR ≤ S (length window))).

Lemma scanned_step l window c :
  scanned l window false → scanned (l ++ c) (trim_window (window ++ c)) (contains (window ++ c) EICAR).
Proof.
  intros [Hno Hw]. destruct (Hw eq_refl) as [Hsuf Hlong].
  rewrite (contains_window l window c EICAR) by done.
  split; [done |]. intros _. destruct (trim_window_spec (window ++ c)) as [[w' Hw'] Hlen].
  destruct Hsuf as [l' Hl]. split.
  - exists (l' ++ w'). by rewrite <- app_assoc, <- Hw', app_assoc, <- Hl.
  - destruct Hlen as [Heq | ?]; [| by right]. rewrite Heq.
    destruct Hlong as [<- | Hlong]; [by left |]. right. rewrite length_app. lia.
Qed.

Lemma u64_add_mod a b :
  u64_add (a mod (u64_max + 1)) b = ((a + b) mod (u64_max + 1))%Z.
Proof. unfold u64_add. by rewrite Zplus_mod_idemp_l. Qed.

Lemma scan_loop_spec fuel blob chunks window infected :
  flowing blob → (read_bound blob ≤ fuel)%nat →
  scanned (concat chunks) window infected →
  ∃ r, scan_loop fuel blob (foldl hasher_update hasher_new chunks)
         (Z.of_nat (length (concat chunks)) mod (u64_max + 1)) window infected = Some r ∧
    match rest_of (concat chunks) blob with
    | Ok all => ∃ chunks', concat chunks' = all ∧
        r = Ok (foldl hasher_update hasher_new chunks',
                (Z.of_nat (length all) mod (u64_max + 1))%Z, contains all EICAR)
    | Err e => r = Err (SRead e)
    end.
Proof.
  revert blob chunks window infected.
  induction fuel as [|fuel IH]; intros blob chunks window infected Hf Hfuel Hs.
  { destruct blob as [|[b|e] blob]; simpl in Hfuel; lia. }
  cbn [scan_loop]. pose proof (read_into_spec CHUNK_BYTES blob ltac:(done) Hf) as Hr.
  destruct (read_into CHUNK_BYTES blob) as [[[|x xs] blob']|e].
  - eexists. split; [done |]. unfold rest_of. rewrite Hr. simpl. rewrite app_nil_r.
    exists chunks. split; [done |]. by rewrite <- (proj1 Hs).
  - destruct Hr as (Heq & Hf' & Hb). set (c := x :: xs) in *.
    assert (concat (chunks ++ [c]) = concat chunks ++ c) as Hcat
      by (rewrite concat_app; simpl; by rewrite app_nil_r).
    assert (rest_of (concat chunks) blob = rest_of (concat (chunks ++ [c])) blob') as ->.
    { unfold rest_of in *. rewrite Heq. destruct (read_to_end blob'); simpl; [| done].
      rewrite Hcat, <- app_assoc; reflexivity. }
    rewrite u64_add_mod, <- Nat2Z.inj_add, <- length_app, <- Hcat.
    assert (hasher_update (foldl hasher_update hasher_new chunks) c
            = foldl hasher_update hasher_new (chunks ++ [c])) as -> by (by rewrite foldl_app).
    destruct infected; (apply IH; [done | lia |]).
    + split; [| done]. symmetry. rewrite Hcat. apply contains_app; [done |]. symmetry. apply Hs.
    + rewrite Hcat. by apply scanned_step.
  - eexists. split; [done |]. unfold rest_of. by rewrite Hr.
Qed.

(** C23: the scanner's answer is a function of the object's bytes alone: however
    the object is cut into reads, the scan ends, finds the EICAR signature
    exactly when the object contains it, across reads included, and reports
    the digest and the size of the whole object; a failing read is the only
    error. *)
Theorem scan_exact blob :
  flowing blob →
  scan blob = Some
    match read_to_end blob with
    | Ok b => Ok (mkScan
        (if contains b EICAR then Infected "Eicar-Test-Signature" else Clean)
        (sha256_hex b) (Z.of_nat (length b) mod (u64_max + 1))%Z)
    | Err e => Err (SRead e)
    end.
Proof.
  intros Hf. unfold scan.
  destruct (scan_loop_spec (read_bound blob) blob [] [] false Hf) as (r & Hr & Hspec);
    [lia | split; [done |]; intros _; split; [by exists [] | by left] |].
  change (Z.of_nat (length (concat [])) mod (u64_max + 1))%Z with 0%Z in Hr.
  change (foldl hasher_update hasher_new []) with hasher_new in Hr.
  rewrite Hr. f_equal. unfold rest_of in Hspec.
  destruct (read_to_end blob) as [b|e]; simpl in Hspec; [| by subst r].
  destruct Hspec as (chunks & Hcat & ->). simpl.
  unfold sha256_hex. by rewrite hasher_concat, Hcat.
Qed.
End exact.

(** What a declared type is compared as. *)
Definition media_type (declared : string) : string :=
  to_ascii_lowercase (trim (default "" (head (split ";" declared)))).

(** The containers that are ZIP archives on the wire. *)
Definition zip_based (t : string) : Prop :=
  (∃ s, t = "application/vnd.openxmlformats-officedocument." +:+ s) ∨
  (∃ s, t = "application/vnd.oasis.opendocument." +:+ s) ∨
  t = "application/epub+zip" ∨ t = "application/java-archive".

Lemma starts_with_spec s p : starts_with s p = true ↔ ∃ t, s = p +:+ t.
Proof.
  unfold starts_with. revert s. induction p as [|a p IH]; intros s.
  - simpl. split; [intros _; by exists s | done].
  - destruct s as [|b s]; simpl.
    + split; [done | by intros [t ?]].
    + destruct (Ascii.eqb a b) eqn:Hab.
      * apply Ascii.eqb_eq in Hab as ->. rewrite IH.
        split; intros [t Ht]; exists t; rewrite string_app_cons in *; congruence.
      * apply Ascii.eqb_neq in Hab. split; [done |]. intros [t Ht].
        rewrite string_app_cons in Ht. congruence.
Qed.

Lemma zip_based_spec t :
  starts_with t "application/vnd.openxmlformats-officedocument."
  || starts_with t "application/vnd.oasis.opendocument."
  || bool_decide (t = "application/epub+zip")
  || bool_decide (t = "application/java-archive") = true ↔ zip_based t.
Proof.
  rewrite !orb_true_iff, !starts_with_spec, !bool_decide_eq_true. unfold zip_based. tauto.
Qed.

Lemma content_type_matches_spec sniffed declared :
  content_type_matches sniffed declared = true ↔
  media_type declared = "" ∨ media_type declared = "application/octet-stream" ∨
  media_type declared = sniffed ∨
  (sniffed = "application/zip" ∧ zip_based (media_type declared)).
Proof.
  unfold content_type_matches. fold (media_type declared).
  set (t := media_type declared). clearbody t.
  rewrite <- zip_based_spec.
  set (z := starts_with t _ || _ || _ || _). clearbody z.
  destruct t as [|a t]; simpl; [split; [by left | done] |].
  case_bool_decide; [tauto |]. case_bool_decide; [tauto |].
  rewrite andb_true_iff, bool_decide_eq_true. split; [by eauto |].
  intros [? | [? | [? | ?]]]; done.
Qed.

(** Fact: the validator accepts an object exactly when it has the declared size
    and its first bytes do not contradict the declared type: no known
    signature, an uncommitted declaration, the sniffed type itself whatever
    its parameters and case, or a ZIP-based document for a ZIP archive. *)
Theorem validate_accepts_iff head prefix declared :
  validate head prefix declared = Ok ContentOk ↔
  bh_byte_size head = de_byte_size declared ∧
  let t := media_type (de_content_type declared) in
  ∀ sniffed, sniff prefix = Some sniffed →
    t = "" ∨ t = "application/octet-stream" ∨ t = sniffed ∨
    (sniffed = "application/zip" ∧ zip_based t).
Proof.
  cbv zeta. unfold validate. case_bool_decide as Hsize.
  { split; [done | intros [? _]; congruence]. }
  destruct (sniff prefix) as [sniffed|]; [| by split].
  assert (content_type_matches sniffed (de_content_type declared) = true ↔
          media_type (de_content_type declared) = "" ∨
          media_type (de_content_type declared) = "application/octet-stream" ∨
          media_type (de_content_type declared) = sniffed ∨
          (sniffed = "application/zip" ∧ zip_based (media_type (de_content_type declared)))) as Hm.
  { apply content_type_matches_spec. }
  destruct (content_type_matches sniffed (de_content_type declared)); simpl.
  - split; [| done]. intros _. split; [done |]. intros s [= <-]. by apply Hm.
  - split; [done |]. intros [_ Hs]. specialize (Hs _ eq_refl). apply Hm in Hs. done.
Qed.

(** ** Witnesses *)

Module ScanDemo.
#[export] Instance stream : @Sha256Stream Demo.sha2.
Proof.
  refine (@Build_Sha256Stream Demo.sha2 (list bytes) [] (λ h c, h ++ [c])
            (λ h, @sha256 Demo.sha2 (concat h)) _).
  intros chunks. do 2 f_equal.
  assert (∀ l acc : list bytes, foldl (λ h c, h ++ [c]) acc l = acc ++ l) as H; [| apply (H chunks [])].
  induction l as [|c l IH]; intros acc; simpl; [by rewrite app_nil_r |].
  by rewrite IH, <- app_assoc.
Defined.

(** The signature cut in two by the reads. *)
Definition split_eicar : BoxAsyncRead := [Ok (take 30 EICAR); Ok (drop 30 EICAR)].
End ScanDemo.

Lemma scan_exact_witness :
  @scan Demo.hex Demo.sha2 ScanDemo.stream ScanDemo.split_eicar
    = Some (Ok (mkScan (Infected "Eicar-Test-Signature") (@sha256_hex Demo.hex Demo.sha2 EICAR) 68)).
Proof.
  rewrite (@scan_exact Demo.hex Demo.sha2 ScanDemo.stream ScanDemo.split_eicar).
  - vm_compute. reflexivity.
  - repeat constructor; discriminate.
Defined.
