(* ===== verification/WorkQueue.v ===== *)
(** * The work queue and the worker's hands on it

    crates/document-adapters/src/jetstream/work_queue.rs (one delivery of the
    consumer: what reaches the handler, with which delivery count) and
    [handle_work_item] of services/document-worker/src/main.rs (how the outcome
    of the use case becomes an ack, a nak or a term).

    A delivery runs as a program over [WorkE]: the ports of the use case and the
    three answers JetStream understands.  The loop that pulls deliveries, with its
    semaphore and the heartbeats, is in Consumer.v. *)

From S2P Require Import Prelude Text Events Keys Ports Memory Append Transition System Worker Redelivery.

Local Open Scope Z_scope.

Definition UPLOAD_COMPLETED_SUBJECT : string := "document_work.v1.upload_completed".
Definition DOCUMENT_WORK_CONSUMER : string := "document-worker-upload-completed".

(** [NAK_DELAY], in nanoseconds as every [Duration] here *)
Definition NAK_DELAY : Z := 10 * 1000000000.

Section queue.
Context {J : SerdeJson} {X : Hex} {S2 : Sha2}.

(** serde_json on the command. *)
Class CommandCodec := {
  command_from_slice : bytes → result UploadCompleted string;
}.
Context {CC : CommandCodec}.

Inductive WorkE : Type → Type :=
| Port (A : Type) (e : PortE A) : WorkE A
| AckItem : WorkE (result unit string)
| NakItem (delay : Z) : WorkE (result unit string)
| TermItem : WorkE (result unit string).

Inductive WorkObs : Type := mkWork (A : Type) (e : WorkE A) (x : A).

(** A use case, run by the worker. *)
Fixpoint lift {R} (p : prog PortE R) : prog WorkE R :=
  match p with
  | Ret r => Ret r
  | Vis e k => Vis (Port _ e) (λ x, lift (k x))
  end.

Record WorkItem : Type := mkItem {
  wi_command : UploadCompleted;
  wi_num_delivered : Z;
  wi_is_final_delivery : bool;
}.

(** [WorkItem::ack], [nak], [term]: a failure is logged, the item redelivered. *)
Definition item_ack : prog WorkE unit := let* _ := call AckItem in Ret tt.
Definition item_nak (delay : Z) : prog WorkE unit := let* _ := call (NakItem delay) in Ret tt.
Definition item_term : prog WorkE unit := let* _ := call TermItem in Ret tt.

(** [handle_work_item] *)
Definition handle_work_item (item : WorkItem) : prog WorkE unit :=
  let* outcome := lift (finish (wi_command item) (wi_is_final_delivery item)) in
  match outcome with
  | FAccepted _ _ _ => item_ack
  | FRejected _ => if wi_is_final_delivery item then item_term else item_ack
  | FRetry _ => item_nak NAK_DELAY
  end.

(** A message of the work stream: the [delivered] count of its metadata, an
    [i64], and its payload. *)
Record WorkMessage : Type := mkMessage {
  wm_delivered : result Z string;
  wm_payload : bytes;
}.

(** The body of the loop of [WorkQueueConsumer::run], for one message. *)
Definition consume (max_deliver : Z) (message : WorkMessage) : prog WorkE unit :=
  match wm_delivered message with
  | Err _ => item_term
  | Ok delivered =>
      let num_delivered := i64_as_u64 delivered in
      match command_from_slice (wm_payload message) with
      | Err _ => item_term
      | Ok command =>
          handle_work_item (mkItem command num_delivered (max_deliver <=? num_delivered))
      end
  end.

(** ** Lemmas *)

Definition wport (o : Obs) : WorkObs := match o with mkObs A e x => mkWork A (Port A e) x end.

Lemma lift_exec {R} (p : prog PortE R) tr r :
  exec mkWork (lift p) tr r → ∃ ptr, tr = wport <$> ptr ∧ exec mkObs p ptr r.
Proof.
  revert tr. induction p as [r' | A e k IH]; intros tr; simpl.
  - intros [-> ->]. by exists [].
  - destruct tr as [|o tr]; [done |]. intros (x & -> & Hx).
    destruct (IH x _ Hx) as (ptr & -> & Hp). exists (mkObs A e x :: ptr). split; [done |].
    by exists x.
Qed.

Lemma exec_call_ret {A} (e : WorkE A) tr r :
  exec mkWork (let* _ := call e in Ret tt) tr r → ∃ x, tr = [mkWork A e x].
Proof.
  simpl. destruct tr as [|o tr]; [done |]. intros (x & -> & -> & _). by exists x.
Qed.

(** The answer given to the queue. *)
Inductive Answer : Type := Acked | Naked (delay : Z) | Termed.

Definition answer_of (o : WorkObs) : option Answer :=
  match o with
  | mkWork _ AckItem _ => Some Acked
  | mkWork _ (NakItem d) _ => Some (Naked d)
  | mkWork _ TermItem _ => Some Termed
  | mkWork _ (Port _ _) _ => None
  end.

Lemma consume_exec max_deliver message tr r :
  exec mkWork (consume max_deliver message) tr r →
  ∃ ptr o a, tr = (wport <$> ptr) ++ [o] ∧ answer_of o = Some a ∧
    ((ptr = [] ∧ a = Termed ∧
      (is_ok (wm_delivered message) = false ∨
       is_ok (command_from_slice (wm_payload message)) = false)) ∨
     ∃ command delivered outcome,
       wm_delivered message = Ok delivered ∧
       command_from_slice (wm_payload message) = Ok command ∧
       exec mkObs (finish command (max_deliver <=? i64_as_u64 delivered)) ptr outcome ∧
       a = match outcome with
           | FAccepted _ _ _ => Acked
           | FRejected _ => if max_deliver <=? i64_as_u64 delivered then Termed else Acked
           | FRetry _ => Naked NAK_DELAY
           end).
Proof.
  unfold consume. destruct (wm_delivered message) as [delivered|e] eqn:Hd.
  2:{ intros [x ->]%exec_call_ret. exists [], (mkWork _ TermItem x), Termed.
      split_and!; [done.. |]. left. by auto. }
  destruct (command_from_slice (wm_payload message)) as [command|e] eqn:Hc.
  2:{ intros [x ->]%exec_call_ret. exists [], (mkWork _ TermItem x), Termed.
      split_and!; [done.. |]. left. by auto. }
  unfold handle_work_item. cbn [wi_command wi_is_final_delivery].
  intros (tr1 & tr2 & outcome & -> & (ptr & -> & Hf)%lift_exec & Ha)%exec_bind_inv.
  set (final := max_deliver <=? i64_as_u64 delivered) in *.
  assert (∃ o a, tr2 = [o] ∧ answer_of o = Some a ∧
            a = match outcome with
                | FAccepted _ _ _ => Acked
                | FRejected _ => if final then Termed else Acked
                | FRetry _ => Naked NAK_DELAY
                end) as (o & a & -> & Ho & Heq).
  { destruct outcome; [| destruct final |]; apply exec_call_ret in Ha as [x ->];
      eexists _, _; split_and!; reflexivity. }
  exists ptr, o, a. split_and!; [done.. |]. right. exists command, delivered, outcome. done.
Qed.

(** ** Properties *)

(** C38: one delivery gives the queue exactly one answer, last of all, whatever
    the ports answer. An ack means the event is durable (or was), or that the
    item was refused and cleaned up or had been; a nak means nothing was
    destroyed and another delivery is due; a term means the message is not a work
    item, or the last delivery was refused and cleaned up. The last delivery is
    always settled. *)
Theorem delivery_is_settled max_deliver message tr r :
  exec mkWork (consume max_deliver message) tr r →
  ∃ ptr o a, tr = (wport <$> ptr) ++ [o] ∧ answer_of o = Some a ∧
    ∀ command delivered, wm_delivered message = Ok delivered →
      command_from_slice (wm_payload message) = Ok command →
      match a with
      | Naked delay => delay = NAK_DELAY ∧ i64_as_u64 delivered < max_deliver ∧ kept ptr
      | Acked =>
          (∃ version superseded, kept ptr ∧
             (durable command version ptr ∨ replayed command (Accepted version superseded) ptr)) ∨
          (i64_as_u64 delivered < max_deliver ∧ ∃ reason,
             reclaimed command ptr ∨ (kept ptr ∧ replayed command (Rejected reason) ptr))
      | Termed =>
          max_deliver ≤ i64_as_u64 delivered ∧ ∃ reason,
            reclaimed command ptr ∨ (kept ptr ∧ replayed command (Rejected reason) ptr)
      end.
Proof.
  intros (ptr & o & a & -> & Ho & Hcase)%consume_exec. exists ptr, o, a.
  split_and!; [done.. |]. intros command delivered Hd Hc.
  destruct Hcase as [(_ & _ & Hbad) | (command' & delivered' & outcome & Hd' & Hc' & Hx & ->)].
  { rewrite Hd, Hc in Hbad. by destruct Hbad. }
  rewrite Hd in Hd'. rewrite Hc in Hc'. simplify_eq.
  apply finish_exec in Hx as (_ & Hworth & Hfin).
  destruct outcome as [d version superseded | reason | m]; simpl in Hworth.
  - left. exists version, superseded. destruct Hworth as (_ & ? & ?). done.
  - destruct (max_deliver <=? i64_as_u64 delivered') eqn:Hf; destruct_bools.
    + split; [done |]. by exists reason.
    + right. split; [done |]. by exists reason.
  - destruct (max_deliver <=? i64_as_u64 delivered') eqn:Hf; destruct_bools; [| done].
    by destruct (Hfin eq_refl m).
Qed.
End queue.

(** ** Witnesses *)

Module QueueDemo.
#[local] Existing Instances Demo.json Demo.hex Demo.sha2.

(** One payload is the work item of [WorkerDemo], everything else is not one. *)
#[export] Instance codec : CommandCodec := {|
  command_from_slice b :=
    if bool_decide (string_of_bytes b = "item") then Ok WorkerDemo.command
    else Err "expected value at line 1 column 1";
|}.

(** The in-memory ports behind a queue that takes every answer. *)
Definition answering : handler WorkE World := λ A e w,
  match e in WorkE A return World * A with
  | Port _ e => mem _ e w
  | AckItem | NakItem _ | TermItem => (w, Ok tt)
  end.

Definition first_delivery : WorkMessage := mkMessage (Ok 1) (bytes_of_string "item").
Definition trace : list WorkObs :=
  run_trace mkWork answering (consume 5 first_delivery) WorkerDemo.ready.
End QueueDemo.

Lemma delivery_is_settled_witness :
  ∃ ptr o a, QueueDemo.trace = (wport <$> ptr) ++ [o] ∧ answer_of o = Some a.
Proof.
  destruct (@delivery_is_settled Demo.json Demo.hex Demo.sha2 QueueDemo.codec 5
              QueueDemo.first_delivery QueueDemo.trace tt) as (ptr & o & a & Htr & Ho & _);
    [| by exists ptr, o, a].
  pose proof (run_trace_exec mkWork QueueDemo.answering
    (@consume Demo.json Demo.hex Demo.sha2 QueueDemo.codec 5 QueueDemo.first_delivery)
    WorkerDemo.ready) as H.
  by destruct (run _ _ _).2.
Defined.

(** ** Putting an item on the queue

    [JetStreamWorkQueue]: a command is published under its id, and the stream keeps
    the first message of an id within its window. *)

Inductive PublishE : Type → Type :=
| SendWork (subject message_id : string) (payload : bytes) : PublishE (result unit string)
| AwaitWorkAck (message_id : string) : PublishE (result unit string).

Section publish.
Context {J : SerdeJson} (command_to_vec : UploadCompleted → result bytes string).

Definition publish_upload_completed (cmd : UploadCompleted) : prog PublishE (result unit QueueError) :=
  match command_to_vec cmd with
  | Err error => Ret (Err (QPayload ("encode work item: " +:+ error)))
  | Ok payload =>
      let* r := call (SendWork UPLOAD_COMPLETED_SUBJECT (uc_command_id cmd) payload) in
      match r with
      | Err error => Ret (Err (QUnavailable ("publish work item: " +:+ error)))
      | Ok _ =>
          let* r := call (AwaitWorkAck (uc_command_id cmd)) in
          Ret (result_map_err (λ error, QUnavailable ("await work item ack: " +:+ error)) r)
      end
  end.

(** All messages the stream took, and the ids in its window. *)
Record WorkStream : Type := mkWorkStream {
  ws_taken : list (string * bytes);
  ws_window : list string;
}.

Definition publish_step (A : Type) (e : PublishE A) (w w' : WorkStream) : A → Prop :=
  match e in PublishE A return A → Prop with
  | SendWork _ id payload => λ _,
      w' = w ∨
      (id ∉ ws_window w ∧ w' = mkWorkStream (ws_taken w ++ [(id, payload)]) (id :: ws_window w))
  | AwaitWorkAck id => λ x, w' = w ∧ (is_ok x = true → id ∈ (ws_taken w).*1)
  end.

(** The stream only grows, by items of these commands, and holds no id twice. *)
Record grows_by (cmds : list UploadCompleted) (w w' : WorkStream) : Prop := {
  gb_taken : ws_taken w `prefix_of` ws_taken w';
  gb_items : Forall (λ m, ∃ cmd, cmd ∈ cmds ∧ m.1 = uc_command_id cmd ∧ command_to_vec cmd = Ok m.2) (ws_taken w) →
    Forall (λ m, ∃ cmd, cmd ∈ cmds ∧ m.1 = uc_command_id cmd ∧ command_to_vec cmd = Ok m.2) (ws_taken w');
  gb_window : (ws_taken w).*1 ⊆ ws_window w ∧ NoDup (ws_taken w).*1 →
    (ws_taken w').*1 ⊆ ws_window w' ∧ NoDup (ws_taken w').*1;
}.

#[export] Instance grows_by_refl cmds : Reflexive (grows_by cmds).
Proof. by split. Qed.
#[export] Instance grows_by_trans cmds : Transitive (grows_by cmds).
Proof. intros w1 w2 w3 [] []. split; [by etrans | auto | auto]. Qed.

Lemma publish_grows cmds cmd :
  cmd ∈ cmds →
  rg publish_step (grows_by cmds) (publish_upload_completed cmd) (λ _, True)
    (λ r w, r = Ok tt → uc_command_id cmd ∈ (ws_taken w).*1).
Proof.
  intros Hcmd. unfold publish_upload_completed. destruct (command_to_vec cmd) as [payload|error] eqn:Hp; [| done].
  apply (rg_call _ _ _ _ _ (λ _ _, True)).
  { intros w w' x _ Hx. split; [| done]. cbn in Hx. destruct Hx as [-> | [Hid ->]]; [done |]. split; cbn.
    - by apply prefix_app_r.
    - intros Hall. apply Forall_app. split; [exact Hall |]. apply Forall_singleton. by exists cmd.
    - intros [Hsub Hnd]. rewrite fmap_app. split; [set_solver |].
      apply NoDup_app. split_and!; [exact Hnd | set_solver | apply NoDup_singleton]. }
  intros [[]|error]; [| done].
  apply (rg_call _ _ _ _ _ (λ x w, is_ok x = true → uc_command_id cmd ∈ (ws_taken w).*1)).
  - intros w w' x _ [-> Hx]. split_and!; [done | | exact Hx].
    intros v v' Hv [[more Hpre] _ _] Hok. rewrite Hpre, fmap_app. set_solver.
  - by intros [[]|error] w Hw; [intros _; apply Hw |].
Qed.

(** Fact: while no id leaves the window, a completion that was answered is in the
    queue, and the queue holds one item for each upload: the parts of the first
    completion win. *)
Theorem completions_are_queued_once cmds w' ts' :
  rtc (pool_step publish_step (λ _ _, False)) (mkWorkStream [] [], publish_upload_completed <$> cmds) (w', ts') →
  NoDup (ws_taken w').*1 ∧
  Forall (λ m, ∃ cmd, cmd ∈ cmds ∧ m.1 = uc_command_id cmd ∧ command_to_vec cmd = Ok m.2) (ws_taken w') ∧
  ∀ k cmd, cmds !! k = Some cmd → ts' !! k = Some (Ret (Ok tt)) → uc_command_id cmd ∈ (ws_taken w').*1.
Proof.
  intros Hsteps.
  destruct (pool_steps_rg publish_step (λ _ _, False) (grows_by cmds) _ _
    ((λ cmd r w, r = Ok tt → uc_command_id cmd ∈ (ws_taken w).*1) <$> cmds) (λ _ _ H, False_ind _ H) Hsteps)
    as [[_ Hitems Hwindow] Hts].
  { cbn. rewrite Forall2_fmap. apply Forall_Forall2_diag, Forall_forall. intros cmd Hcmd.
    exists (λ _, True). split_and!; [done | done | by apply publish_grows]. }
  cbn [fst snd ws_taken ws_window] in *. split_and!.
  - apply Hwindow. split; [done | constructor].
  - by apply Hitems.
  - intros k cmd Hk Hret. destruct (Forall2_lookup_l _ _ _ _ _ Hts Hret) as (Q & HQ & Hthread).
    rewrite list_lookup_fmap, Hk in HQ. injection HQ as <-. by apply (rg_thread_ret _ _ _ _ _ Hthread).
Qed.
End publish.
