(* ===== verification/Consumer.v ===== *)
(** * How many work items run at once

    [WorkQueueConsumer::run] of document-adapters/src/jetstream/work_queue.rs: the
    loop that pulls deliveries, keeps each alive with a heartbeat, waits for a
    permit of the semaphore and gives the item to a task of its own.  What a task
    does with its item is [handle_work_item] of WorkQueue.v; here a task is only
    something that runs and ends. *)

From S2P Require Import Prelude Text Events Keys Ports Memory Append Transition System Worker Redelivery WorkQueue.

Local Open Scope Z_scope.

Section consumer.
Context {J : SerdeJson} {X : Hex} {S2 : Sha2} {CC : CommandCodec}.

(** A delivery has a number; the loop's own calls, and those of the semaphore and
    the runtime. *)
Inductive QueueE : Type → Type :=
| OpenWork : QueueE (result unit string)
| NextDelivery : QueueE (option (result (nat * WorkMessage) string))
| TermDelivery (d : nat) : QueueE (result unit string)
| SpawnHeartbeat (d : nat) : QueueE unit
| AcquirePermit : QueueE (result unit string)
| SpawnHandler (d : nat) (item : WorkItem) : QueueE unit.

(** The [while let] of [run], for a number of rounds. *)
Fixpoint consumer_loop (rounds : nat) (max_deliver : Z) : prog QueueE (result unit string) :=
  match rounds with
  | O => Ret (Ok tt)
  | S rounds =>
      let* message := call NextDelivery in
      match message with
      | None => Ret (Ok tt)
      | Some (Err _) => consumer_loop rounds max_deliver
      | Some (Ok (d, message)) =>
          match wm_delivered message with
          | Err _ =>
              let* _ := call (TermDelivery d) in consumer_loop rounds max_deliver
          | Ok delivered =>
              let num_delivered := i64_as_u64 delivered in
              match command_from_slice (wm_payload message) with
              | Err _ =>
                  let* _ := call (TermDelivery d) in consumer_loop rounds max_deliver
              | Ok command =>
                  let item := mkItem command num_delivered (max_deliver <=? num_delivered) in
                  let* _ := call (SpawnHeartbeat d) in
                  let* permit := call AcquirePermit in
                  match permit with
                  | Err _ => Ret (Ok tt)
                  | Ok _ =>
                      let* _ := call (SpawnHandler d item) in consumer_loop rounds max_deliver
                  end
              end
          end
      end
  end.

(** [WorkQueueConsumer::run] *)
Definition consumer_run (rounds : nat) (max_deliver : Z) : prog QueueE (result unit string) :=
  let* r := call OpenWork in
  match r with
  | Err error => Ret (Err ("open work stream: " +:+ error))
  | Ok _ => consumer_loop rounds max_deliver
  end.

(** [concurrency.max(1)] of [connect]. *)
Definition permits_of (concurrency : nat) : nat := Nat.max concurrency 1.

(** The heartbeat of [spawn_heartbeat]: its interval, in nanoseconds. *)
Definition heartbeat_interval (ack_wait : Z) : Z := Z.max (ack_wait / 2) 1000000000.

(** What becomes of a delivery: the item that is handled, or nothing if it is
    termed in place. *)
Definition work_item (max_deliver : Z) (message : WorkMessage) : option WorkItem :=
  match wm_delivered message, command_from_slice (wm_payload message) with
  | Ok delivered, Ok command =>
      Some (mkItem command (i64_as_u64 delivered) (max_deliver <=? i64_as_u64 delivered))
  | _, _ => None
  end.

Lemma consume_item max_deliver message :
  consume max_deliver message =
    match work_item max_deliver message with Some item => handle_work_item item | None => item_term end.
Proof. unfold consume, work_item. by destruct (wm_delivered message), (command_from_slice (wm_payload message)). Qed.

(** ** The process *)

(** The free permits; the deliveries whose task runs, and whose heartbeat does;
    the delivery the loop holds and whether it has a permit for it; all
    deliveries, and what became of them, in order. *)
Record QueueWorld : Type := mkQueue {
  qu_permits : nat;
  qu_running : gset nat;
  qu_heartbeats : gset nat;
  qu_held : option nat;
  qu_taken : bool;
  qu_pulled : list (nat * WorkMessage);
  qu_fates : list (nat * option WorkItem);
}.

Definition idle (permits : nat) : QueueWorld := mkQueue permits ∅ ∅ None false [] [].

Definition queue_step (A : Type) (e : QueueE A) (w w' : QueueWorld) : A → Prop :=
  let '(mkQueue permits running heartbeats held taken pulled fates) := w in
  match e in QueueE A return A → Prop with
  | OpenWork => λ _, w' = w
  | NextDelivery => λ x,
      match x with
      | Some (Ok (d, message)) =>
          d ∉ pulled.*1 ∧ w' = mkQueue permits running heartbeats (Some d) taken (pulled ++ [(d, message)]) fates
      | _ => w' = w
      end
  | TermDelivery d => λ _, w' = mkQueue permits running heartbeats None taken pulled (fates ++ [(d, None)])
  | SpawnHeartbeat d => λ _, w' = mkQueue permits running ({[d]} ∪ heartbeats) held taken pulled fates
  | AcquirePermit => λ x, x = Ok tt ∧ ∃ n, permits = S n ∧ w' = mkQueue n running heartbeats held true pulled fates
  | SpawnHandler d item => λ _,
      w' = mkQueue permits ({[d]} ∪ running) heartbeats None false pulled (fates ++ [(d, Some item)])
  end.

(** A task ends, which ends its heartbeat and frees its permit; a heartbeat that
    fails ends by itself. *)
Inductive queue_env : QueueWorld → QueueWorld → Prop :=
| handler_ends d permits running heartbeats held taken pulled fates :
    d ∈ running →
    queue_env (mkQueue permits running heartbeats held taken pulled fates)
      (mkQueue (S permits) (running ∖ {[d]}) (heartbeats ∖ {[d]}) held taken pulled fates)
| heartbeat_fails d permits running heartbeats held taken pulled fates :
    queue_env (mkQueue permits running heartbeats held taken pulled fates)
      (mkQueue permits running (heartbeats ∖ {[d]}) held taken pulled fates).

(** ** What the loop keeps *)

Section invariant.
Context (concurrency : nat) (max_deliver : Z).

Definition fate (p : nat * WorkMessage) : nat * option WorkItem := (p.1, work_item max_deliver p.2).

(** Every permit is free, or with a task, or with the loop; a heartbeat is that of
    a running task or of the delivery held; and every delivery but the one held met
    its fate, in the order it came. *)
Record bounded (w : QueueWorld) : Prop := {
  bo_permits : (qu_permits w + size (qu_running w) + (if qu_taken w then 1 else 0) = concurrency)%nat;
  bo_heartbeats : qu_heartbeats w ⊆ qu_running w ∪ (match qu_held w with Some d => {[d]} | None => ∅ end);
  bo_pulled : NoDup (qu_pulled w).*1;
  bo_fates : ∃ held, fate <$> qu_pulled w = qu_fates w ++ (fate <$> held) ∧ held.*1 = option_list (qu_held w);
  bo_running d : d ∈ qu_running w → d ∈ (qu_fates w).*1;
}.

Definition keeps_bound (w w' : QueueWorld) : Prop := bounded w → bounded w'.

(** What the end of a task or a heartbeat leaves to the loop. *)
Definition leaves_loop (w w' : QueueWorld) : Prop :=
  keeps_bound w w' ∧ qu_held w' = qu_held w ∧ qu_taken w' = qu_taken w ∧ qu_pulled w' = qu_pulled w ∧
  (qu_heartbeats w ⊆ qu_running w → qu_heartbeats w' ⊆ qu_running w').

(** What the loop holds: a delivery, its heartbeat, a permit. *)
Record loop_at (held : option (nat * WorkMessage)) (beating taken : bool) (w : QueueWorld) : Prop := {
  la_bounded : bounded w;
  la_held : qu_held w = fst <$> held;
  la_beating : beating = false → qu_heartbeats w ⊆ qu_running w;
  la_taken : qu_taken w = taken;
  la_last p : held = Some p → ∃ before, qu_pulled w = before ++ [p];
}.

#[export] Instance keeps_refl : Reflexive keeps_bound.
Proof. intros w Hw. exact Hw. Qed.
#[export] Instance keeps_trans : Transitive keeps_bound.
Proof. intros w1 w2 w3 H1 H2 Hw. exact (H2 (H1 Hw)). Qed.

Lemma loop_at_stable held beating taken : stable leaves_loop (loop_at held beating taken).
Proof.
  intros w w' [Hb Hh Hbeat Ht Hp] (Hk & Hh' & Ht' & Hp' & Hbeat').
  split; [by apply Hk | congruence | auto | congruence |]. by rewrite Hp'.
Qed.

Lemma env_leaves w w' : queue_env w w' → leaves_loop w w'.
Proof.
  intros [d permits running heartbeats held taken pulled fates Hd | d permits running heartbeats held taken pulled fates];
    (split_and!; [| done | done | done | cbn; set_solver]); intros [Hp Hh Hn Hf Hr]; split; cbn in *; try done.
  - rewrite size_difference by set_solver. rewrite size_singleton.
    assert (size running ≠ 0)%nat by (intros ?%size_empty_inv; set_solver). lia.
  - set_solver.
  - set_solver.
  - set_solver.
Qed.

Abbreviation loops := (owns queue_step keeps_bound leaves_loop).

(** The delivery held meets its fate. *)
Lemma held_fate d message beating taken w :
  loop_at (Some (d, message)) beating taken w →
  fate <$> qu_pulled w = qu_fates w ++ [fate (d, message)] ∧ d ∉ (qu_fates w).*1.
Proof.
  intros [[_ _ Hn (held & Hf & Hheld) _] Hh _ _ Hp]. destruct (Hp _ eq_refl) as [before Hb].
  rewrite Hh in Hheld. cbn in Hheld. destruct held as [|[d' m'] [|]]; try done. cbn in Hheld. injection Hheld as ->.
  rewrite Hb, fmap_app in Hf. cbn in Hf. apply app_inj_2 in Hf as [Hf [= Hm]]; [| done]. split.
  - rewrite Hb, fmap_app. cbn. by rewrite Hf.
  - rewrite Hb, fmap_app in Hn. cbn in Hn. apply NoDup_app in Hn as (_ & Hn & _).
    rewrite <- Hf, <- list_fmap_compose. intros Hd. apply (Hn d); [| set_solver].
    apply list_elem_of_fmap in Hd as (p & -> & Hd). by apply list_elem_of_fmap_2.
Qed.

Lemma next_step w w' x :
  loop_at None false false w → queue_step _ NextDelivery w w' x →
  match x with
  | Some (Ok p) => loop_at (Some p) false false w'
  | _ => loop_at None false false w'
  end.
Proof.
  intros Hw Hx. destruct x as [[[d message]|]|]; [| destruct w; cbn in Hx; by subst..].
  destruct Hw as [[Hp Hh Hn (rest & Hf & Hrest) Hr] Hheld Hb Ht _].
  destruct w as [permits running heartbeats held taken pulled fates]. cbn in *. subst held taken.
  destruct Hx as [Hd ->]. split; cbn; [| done | done | done | intros p [= <-]; by exists pulled]. split; cbn.
  - done.
  - set_solver.
  - rewrite fmap_app. apply NoDup_app. split_and!; [done | set_solver | apply NoDup_singleton].
  - exists [(d, message)]. split; [| done]. apply fmap_nil_inv in Hrest as ->. cbn in Hf.
    rewrite fmap_app, Hf. by rewrite app_nil_r.
  - done.
Qed.

Lemma term_step d message w w' x :
  work_item max_deliver message = None →
  loop_at (Some (d, message)) false false w → queue_step _ (TermDelivery d) w w' x → loop_at None false false w'.
Proof.
  intros Hnone Hw Hx. destruct (held_fate _ _ _ _ _ Hw) as [Hf _].
  destruct Hw as [[Hp Hh Hn _ Hr] Hheld Hb Ht _].
  destruct w as [permits running heartbeats held taken pulled fates]; cbn in *; subst.
  split; cbn; [| done | done | done | done]. specialize (Hb eq_refl). split; cbn.
  - done.
  - set_solver.
  - done.
  - exists []. unfold fate in Hf at 2. cbn in Hf. by rewrite Hf, Hnone, app_nil_r.
  - intros d' Hd'. rewrite fmap_app. set_solver.
Qed.

Lemma heartbeat_step d message w w' x :
  loop_at (Some (d, message)) false false w → queue_step _ (SpawnHeartbeat d) w w' x →
  loop_at (Some (d, message)) true false w'.
Proof.
  intros [[Hp Hh Hn Hf Hr] Hheld Hb Ht Hl] Hx.
  destruct w as [permits running heartbeats held taken pulled fates]; cbn in *; subst.
  split; cbn; [| done..]. split; cbn; [done | set_solver | done..].
Qed.

Lemma permit_step p w w' x :
  loop_at (Some p) true false w → queue_step _ AcquirePermit w w' x → loop_at (Some p) true true w'.
Proof.
  intros [[Hp Hh Hn Hf Hr] Hheld Hb Ht Hl] Hx.
  destruct w as [permits running heartbeats held taken pulled fates]; cbn in *; subst.
  destruct Hx as (_ & n & -> & ->). split; cbn; [| done..]. split; cbn; [lia | done..].
Qed.

Lemma handler_step d message item w w' x :
  work_item max_deliver message = Some item →
  loop_at (Some (d, message)) true true w → queue_step _ (SpawnHandler d item) w w' x → loop_at None false false w'.
Proof.
  intros Hitem Hw Hx. destruct (held_fate _ _ _ _ _ Hw) as [Hf Hd].
  destruct Hw as [[Hp Hh Hn _ Hr] Hheld Hb Ht _].
  destruct w as [permits running heartbeats held taken pulled fates]; cbn in *; subst.
  split; cbn; [| done | set_solver | done | done]. split; cbn.
  - assert (d ∉ running) as Hnew by (intros Hd'; by apply Hd, Hr).
    rewrite size_union by set_solver. rewrite size_singleton. lia.
  - set_solver.
  - done.
  - exists []. unfold fate in Hf at 2. cbn in Hf. by rewrite Hf, Hitem, app_nil_r.
  - intros d' Hd'. rewrite fmap_app. set_solver.
Qed.

(** ** The loop *)

Lemma loop_call {A B} (e : QueueE A) (f : A → prog QueueE B) held beating taken held' beating' taken' R :
  (∀ w w' x, loop_at held beating taken w → queue_step A e w w' x → loop_at (held' x) (beating' x) (taken' x) w') →
  (∀ x, loops (f x) (loop_at (held' x) (beating' x) (taken' x)) R) →
  loops (let* x := call e in f x) (loop_at held beating taken) R.
Proof.
  intros Hc Hf. apply (owns_call _ _ _ e f _ (λ x, loop_at (held' x) (beating' x) (taken' x)) R); [| exact Hf].
  intros w w' x Hw Hx. specialize (Hc w w' x Hw Hx). split_and!; [intros _; apply Hc | apply loop_at_stable | done].
Qed.

Lemma consumer_loop_owns rounds :
  loops (consumer_loop rounds max_deliver) (loop_at None false false) (λ _ w, bounded w).
Proof.
  induction rounds as [|rounds IH]; cbn [consumer_loop]; [intros w []; done |].
  apply (loop_call _ _ _ _ _ (λ x, match x with Some (Ok p) => Some p | _ => None end) (λ _, false) (λ _, false)).
  { intros w w' x Hw Hx. pose proof (next_step w w' x Hw Hx). by repeat case_match. }
  intros [[[d message]|error]|]; [| exact IH | intros w []; done].
  assert (∀ k, work_item max_deliver message = None → k = consumer_loop rounds max_deliver →
    loops (let* _ := call (TermDelivery d) in k) (loop_at (Some (d, message)) false false) (λ _ w, bounded w)) as Hterm.
  { intros k Hnone ->. apply (loop_call _ _ _ _ _ (λ _, None) (λ _, false) (λ _, false)); [| intros _; exact IH].
    intros w w' x. by apply term_step. }
  unfold work_item in Hterm. destruct (wm_delivered message) as [delivered|] eqn:Hd; [| by apply Hterm].
  destruct (command_from_slice (wm_payload message)) as [command|] eqn:Hc; [| by apply Hterm].
  apply (loop_call _ _ _ _ _ (λ _, Some (d, message)) (λ _, true) (λ _, false)); [apply heartbeat_step |]. intros _.
  apply (loop_call _ _ _ _ _ (λ _, Some (d, message)) (λ _, true) (λ _, true)); [apply permit_step |].
  intros [[]|error]; [| intros w []; done].
  apply (loop_call _ _ _ _ _ (λ _, None) (λ _, false) (λ _, false)); [| intros _; exact IH].
  intros w w' x. apply handler_step. unfold work_item. by rewrite Hd, Hc.
Qed.
End invariant.

Lemma idle_bounded max_deliver permits : loop_at permits max_deliver None false false (idle permits).
Proof.
  split; cbn; [| done..]. split; cbn; [by rewrite size_empty; lia | set_solver | constructor | by exists [] | set_solver].
Qed.

(** C37: at every moment of the consumer's life at most [concurrency] tasks run,
    and at most one more delivery is kept alive by a heartbeat, the one that was
    pulled while all permits were taken; and every delivery pulled, but at most
    that last one, was termed in place or handed to one task with the count that
    tells whether it is final, in the order of delivery. *)
Theorem work_items_are_bounded concurrency max_deliver rounds w' ts' :
  rtc (pool_step queue_step queue_env)
    (idle (permits_of concurrency), [consumer_run rounds max_deliver]) (w', ts') →
  (size (qu_running w') ≤ permits_of concurrency)%nat ∧
  (size (qu_heartbeats w') ≤ permits_of concurrency + 1)%nat ∧
  ∃ held, (length held ≤ 1)%nat ∧ fate max_deliver <$> qu_pulled w' = qu_fates w' ++ (fate max_deliver <$> held).
Proof.
  intros Hsteps. set (c := permits_of concurrency) in *.
  pose proof (idle_bounded max_deliver c) as Hidle.
  assert (bounded c max_deliver w') as [Hp Hh Hn (held & Hf & Hheld) Hr].
  { apply (pool_steps_owner queue_step queue_env (keeps_bound c max_deliver) (leaves_loop c max_deliver)
      (keeps_bound c max_deliver) _ (loop_at c max_deliver None false false) (λ _ w, bounded c max_deliver w)
      _ _ _ (env_leaves _ _)) in Hsteps; [by apply Hsteps, Hidle | done | | apply loop_at_stable | done |].
    - intros v v' Hv. by apply env_leaves.
    - unfold consumer_run. apply (loop_call _ _ _ _ _ _ _ (λ _, None) (λ _, false) (λ _, false)).
      + intros [] v' x Hv Hx. cbn in Hx. by subst.
      + intros [[]|error]; [apply consumer_loop_owns | by intros v []]. }
  split_and!.
  - lia.
  - apply subseteq_size in Hh. rewrite size_union_alt in Hh.
    assert (∀ Y : gset nat, size (Y ∖ qu_running w') ≤ size Y)%nat as Hle
      by (intros Y; apply subseteq_size; set_solver).
    specialize (Hle (match qu_held w' with Some d => {[d]} | None => ∅ end)).
    assert (size (match qu_held w' with Some d => {[d]} | None => ∅ end : gset nat) ≤ 1)%nat
      by (destruct (qu_held w'); rewrite ?size_singleton, ?size_empty; lia).
    lia.
  - exists held. split; [| done]. apply (f_equal length) in Hheld. rewrite length_fmap in Hheld.
    destruct (qu_held w'); cbn in Hheld; lia.
Qed.
End consumer.

(** ** Witness *)

#[local] Existing Instances Demo.json Demo.hex Demo.sha2 QueueDemo.codec.

(** With one permit taken by a task the loop has pulled a second delivery, and keeps
    it alive while it waits. *)
Lemma work_items_are_bounded_witness :
  ∃ w' ts', rtc (pool_step queue_step queue_env) (idle (permits_of 1), [consumer_run 2 5]) (w', ts') ∧
    (size (qu_running w') = 1)%nat ∧ (size (qu_heartbeats w') = 2)%nat ∧
    (size (qu_running w') ≤ permits_of 1)%nat ∧ (size (qu_heartbeats w') ≤ permits_of 1 + 1)%nat.
Proof.
  eexists _, _. assert (∀ P Q : Prop, P → (P → Q) → P ∧ Q) as Hand by auto. apply Hand; clear Hand.
  - eapply rtc_l; [eapply (pool_call _ _ _ _ _ 0 _ OpenWork _ (Ok tt)); [reflexivity | reflexivity] |].
    eapply rtc_l; [eapply (pool_call _ _ _ _ _ 0 _ NextDelivery _ (Some (Ok (0%nat, QueueDemo.first_delivery))));
      [reflexivity | split; [apply not_elem_of_nil | reflexivity]] |].
    eapply rtc_l; [eapply (pool_call _ _ _ _ _ 0 _ (SpawnHeartbeat 0) _ tt); [reflexivity | reflexivity] |].
    eapply rtc_l; [eapply (pool_call _ _ _ _ _ 0 _ AcquirePermit _ (Ok tt));
      [reflexivity | split; [reflexivity | eexists; split; reflexivity]] |].
    eapply rtc_l; [eapply (pool_call _ _ _ _ _ 0 _ (SpawnHandler 0 _) _ tt); [reflexivity | reflexivity] |].
    eapply rtc_l; [eapply (pool_call _ _ _ _ _ 0 _ NextDelivery _ (Some (Ok (1%nat, QueueDemo.first_delivery))));
      [reflexivity | split; [by intros ?%list_elem_of_singleton | reflexivity]] |].
    eapply rtc_l; [eapply (pool_call _ _ _ _ _ 0 _ (SpawnHeartbeat 1) _ tt); [reflexivity | reflexivity] |].
    apply rtc_refl.
  - intros Hsteps. split; [vm_compute; reflexivity |]. split; [vm_compute; reflexivity |].
    destruct (work_items_are_bounded 1 5 2 _ _ Hsteps) as (Hr & Hh & _). split; [exact Hr | exact Hh].
Defined.
