(* ===== verification/Config.v ===== *)
(** * Configuration

    crates/document-adapters/src/config.rs: every variable required, parsed and
    bounded at startup.  The environment is a function from names to values
    ([None] where [std::env::var] fails); a [Duration] is in nanoseconds.

    The theorems say what a configuration that was accepted guarantees to the
    code that runs on it. *)

From S2P Require Import Prelude Text Events Geometry Ports Service.

Local Open Scope Z_scope.

Inductive ConfigError : Type :=
| CMissing (name : string)
| CInvalid (name expected value : string).

Definition config_error_to_string (e : ConfigError) : string :=
  match e with
  | CMissing name => name +:+ " is required"
  | CInvalid name expected value =>
      name +:+ " must be " +:+ expected +:+ ", got " +:+ value
  end.

Definition from_secs (s : Z) : Z := s * 1000000000.

(** [MAX_PART_URL_TTL] *)
Definition MAX_PART_URL_TTL : Z := from_secs 3600.

Section env.
Variable env : string → option string.

Definition var (name : string) : result string ConfigError := ok_or (env name) (CMissing name).

Definition parse_u64 (name : string) : result Z ConfigError :=
  let? raw := var name in
  ok_or (Text.parse_u64 (trim raw)) (CInvalid name "a non-negative integer" raw).

Definition parse_secs (name : string) : result Z ConfigError :=
  let? s := parse_u64 name in Ok (from_secs s).

(** [as usize], on a 64-bit target *)
Definition parse_usize (name : string) : result Z ConfigError := parse_u64 name.

Definition parse_bool (name : string) : result bool ConfigError :=
  let? raw := var name in
  if bool_decide (trim raw ∈ ["1"; "true"; "yes"]) then Ok true
  else if bool_decide (trim raw ∈ ["0"; "false"; "no"]) then Ok false
  else Err (CInvalid name "a boolean" raw).

Record S3Config : Type := mkS3 {
  s3_endpoint_internal : string;
  s3_endpoint_public : string;
  s3_region : string;
  s3_bucket : string;
  s3_access_key_id : string;
  s3_secret_access_key : string;
  s3_force_path_style : bool;
}.

Definition s3_config : result S3Config ConfigError :=
  let? endpoint_internal := var "DELPHI_DOCUMENT_S3_ENDPOINT_INTERNAL" in
  let? endpoint_public := var "DELPHI_DOCUMENT_S3_ENDPOINT_PUBLIC" in
  let? region := var "DELPHI_DOCUMENT_S3_REGION" in
  let? bucket := var "DELPHI_DOCUMENT_S3_BUCKET" in
  let? access_key_id := var "DELPHI_DOCUMENT_S3_ACCESS_KEY_ID" in
  let? secret_access_key := var "DELPHI_DOCUMENT_S3_SECRET_ACCESS_KEY" in
  let? force_path_style := parse_bool "DELPHI_DOCUMENT_S3_FORCE_PATH_STYLE" in
  Ok (mkS3 endpoint_internal endpoint_public region bucket access_key_id secret_access_key
        force_path_style).

(** [TopologyConfig::from_env]: the one [upload_ttl] *)
Definition topology_config : result Z ConfigError := parse_secs "DELPHI_DOCUMENT_UPLOAD_TTL_SECS".

Record WorkerConfig : Type := mkWorker {
  wc_ack_wait : Z;
  wc_max_deliver : Z;
  wc_max_ack_pending : Z;
  wc_work_concurrency : Z;
  wc_projector_lock_id : Z;
  wc_projector_election_interval : Z;
  wc_projection_batch : Z;
}.

(** [x as u32] *)
Definition as_u32 (x : Z) : Z := x mod (u32_max + 1).

Definition worker_config : result WorkerConfig ConfigError :=
  let? max_deliver := parse_u64 "DELPHI_DOCUMENT_MAX_DELIVER" in
  ensure negb (max_deliver =? 0)
    else CInvalid "DELPHI_DOCUMENT_MAX_DELIVER" "finite and at least 1" "0";
  let? max_ack_pending := parse_usize "DELPHI_DOCUMENT_MAX_ACK_PENDING" in
  let? work_concurrency := parse_usize "DELPHI_DOCUMENT_WORK_CONCURRENCY" in
  ensure negb ((work_concurrency =? 0) || (max_ack_pending <? work_concurrency))
    else CInvalid "DELPHI_DOCUMENT_WORK_CONCURRENCY"
           "between 1 and DELPHI_DOCUMENT_MAX_ACK_PENDING" (show_uint work_concurrency);
  let? ack_wait := parse_secs "DELPHI_DOCUMENT_ACK_WAIT_SECS" in
  let? projector_lock_id := parse_u64 "DELPHI_DOCUMENT_PROJECTOR_LOCK_ID" in
  let? projector_election_interval := parse_secs "DELPHI_DOCUMENT_PROJECTOR_ELECTION_SECS" in
  let? projection_batch := parse_usize "DELPHI_DOCUMENT_PROJECTION_BATCH" in
  Ok (mkWorker ack_wait (as_u32 max_deliver) max_ack_pending work_concurrency
        (u64_as_i64 projector_lock_id) projector_election_interval projection_batch).

Record ApiConfig : Type := mkApi {
  ac_part_url_ttl : Z;
  ac_max_upload_bytes : Z;
  ac_part_size_bytes : Z;
}.

Definition api_config : result ApiConfig ConfigError :=
  let? max_upload_bytes := parse_u64 "DELPHI_DOCUMENT_MAX_UPLOAD_BYTES" in
  ensure negb ((max_upload_bytes =? 0) || (MAX_OBJECT_BYTES <? max_upload_bytes))
    else CInvalid "DELPHI_DOCUMENT_MAX_UPLOAD_BYTES"
           "between 1 and S3's 5 TiB object limit" (show_uint max_upload_bytes);
  let? part_size_bytes := parse_u64 "DELPHI_DOCUMENT_PART_SIZE_BYTES" in
  ensure (MIN_PART_BYTES <=? part_size_bytes) && (part_size_bytes <=? MAX_PART_BYTES)
    else CInvalid "DELPHI_DOCUMENT_PART_SIZE_BYTES"
           "between S3's 5 MiB part floor and its 5 GiB part cap" (show_uint part_size_bytes);
  let? part_url_ttl := parse_secs "DELPHI_DOCUMENT_PART_URL_TTL_SECS" in
  ensure negb (MAX_PART_URL_TTL <? part_url_ttl)
    else CInvalid "DELPHI_DOCUMENT_PART_URL_TTL_SECS" "at most 3600"
           (show_uint (part_url_ttl / 1000000000));
  Ok (mkApi part_url_ttl max_upload_bytes part_size_bytes).
End env.

(** [upload_policy] *)
Definition upload_policy (api : ApiConfig) : UploadPolicy :=
  mkPolicy (ac_part_url_ttl api) (ac_max_upload_bytes api) (ac_part_size_bytes api).

(** ** Lemmas *)

Lemma text_parse_u64_range s n : Text.parse_u64 s = Some n → in_u64 n.
Proof.
  unfold Text.parse_u64, check_range, in_u64. intros H. repeat case_match; simplify_eq; lia.
Qed.

Lemma parse_u64_range env name n : parse_u64 env name = Ok n → in_u64 n.
Proof.
  unfold parse_u64. destruct (var env name) as [raw|]; simpl; [| done].
  destruct (Text.parse_u64 (trim raw)) as [m|] eqn:Hm; simpl; [| done].
  intros [= <-]. by apply text_parse_u64_range in Hm.
Qed.

Ltac read_env H :=
  repeat match type of H with
  | context [result_bind ?r _] =>
      let x := fresh "x" in let Hx := fresh "Hx" in
      destruct r as [x|] eqn:Hx; simpl in H; [| discriminate]
  | context [if ?b then _ else _] =>
      let Hb := fresh "Hb" in destruct b eqn:Hb; simpl in H; [| discriminate]
  end.

(** ** Properties *)

(** Fact: an API configuration that was accepted lets every file up to its own
    cap through the part geometry: the part size is at least the configured one,
    within S3's limits, and at most 10 000 parts are needed; a presigned part
    URL lives at most an hour. *)
Theorem api_config_sound env api :
  api_config env = Ok api →
  let policy := upload_policy api in
  0 ≤ po_part_url_ttl policy ≤ MAX_PART_URL_TTL ∧
  ∀ size, 1 ≤ size ≤ po_max_upload_bytes policy →
    ∃ p n, part_size_bytes size (po_part_size_bytes policy) = Ok p ∧
      part_count size p = Ok n ∧ po_part_size_bytes policy ≤ p ≤ MAX_PART_BYTES ∧
      1 ≤ n ≤ MAX_PARTS.
Proof.
  unfold api_config. intros H. read_env H. simplify_eq/=. destruct_bools.
  unfold parse_secs in *.
  destruct (parse_u64 env "DELPHI_DOCUMENT_PART_URL_TTL_SECS") as [ttl|] eqn:Httl; simplify_eq/=.
  apply parse_u64_range in Httl. unfold in_u64, from_secs in *.
  split; [unfold MAX_PART_URL_TTL, from_secs in *; lia |].
  intros size Hsize.
  assert (part_size_bytes size x0 = Ok (Z.max x0 (div_ceil size MAX_PARTS))) as Hp
    by (apply part_size_bytes_ok; lia).
  assert (in_u64 size) as Hu by (unfold in_u64, MAX_OBJECT_BYTES, u64_max in *; lia).
  pose proof (geometry_fits size x0 _ (proj1 Hu) Hp) as (? & ? & ?).
  eexists _, _. split; [done |]. split; [by apply part_count_ok |].
  pose proof (div_ceil_pos size (Z.max x0 (div_ceil size MAX_PARTS))).
  assert (div_ceil size (Z.max x0 (div_ceil size MAX_PARTS)) ≤ MAX_PARTS)
    by (by apply div_ceil_le).
  assert (div_ceil size MAX_PARTS ≤ MAX_PART_BYTES).
  { apply div_ceil_le; [done |]. unfold MAX_OBJECT_BYTES, MAX_PART_BYTES, MAX_PARTS in *. lia. }
  lia.
Qed.

(** Fact: an accepted worker configuration runs at least one and at most
    [max_ack_pending] items at once; its [max_deliver] is zero, making every
    delivery the final one, exactly when the variable is a multiple of 2^32 —
    the check for zero comes before the truncation to 32 bits. *)
Theorem worker_config_bounds env c :
  worker_config env = Ok c →
  1 ≤ wc_work_concurrency c ≤ wc_max_ack_pending c ∧
  0 ≤ wc_max_deliver c ≤ u32_max ∧
  ∃ n, parse_u64 env "DELPHI_DOCUMENT_MAX_DELIVER" = Ok n ∧ 1 ≤ n ∧
    (n ≤ u32_max → wc_max_deliver c = n) ∧
    (wc_max_deliver c = 0 ↔ ∃ k, 1 ≤ k ∧ n = k * 4294967296).
Proof.
  unfold worker_config. intros H. read_env H. simplify_eq/=. destruct_bools.
  unfold parse_usize in *. repeat match goal with
  | H : parse_u64 env _ = Ok _ |- _ => pose proof (parse_u64_range _ _ _ H); revert H
  end. intros. unfold in_u64, as_u32, u32_max in *.
  change (4294967295 + 1) with 4294967296.
  split; [lia |]. pose proof (Z.mod_pos_bound x 4294967296 ltac:(lia)).
  split; [lia |]. exists x. split_and!; [done | lia | |].
  - intros. apply Z.mod_small. lia.
  - split.
    + intros Hmod. exists (x / 4294967296). pose proof (Z.div_mod x 4294967296 ltac:(lia)). lia.
    + intros (k & ? & ->). by apply Z.mod_mul.
Qed.

(** ** Witnesses *)

Module ConfigDemo.
Definition env (name : string) : option string :=
  snd <$> List.find (λ p, String.eqb p.1 name)
    [("DELPHI_DOCUMENT_MAX_UPLOAD_BYTES", "34359738368");
     ("DELPHI_DOCUMENT_PART_SIZE_BYTES", " 20971520 ");
     ("DELPHI_DOCUMENT_PART_URL_TTL_SECS", "300");
     ("DELPHI_DOCUMENT_MAX_DELIVER", "4294967296");
     ("DELPHI_DOCUMENT_MAX_ACK_PENDING", "16");
     ("DELPHI_DOCUMENT_WORK_CONCURRENCY", "4");
     ("DELPHI_DOCUMENT_ACK_WAIT_SECS", "120");
     ("DELPHI_DOCUMENT_PROJECTOR_LOCK_ID", "7");
     ("DELPHI_DOCUMENT_PROJECTOR_ELECTION_SECS", "5");
     ("DELPHI_DOCUMENT_PROJECTION_BATCH", "256")].

Definition api : ApiConfig := mkApi 300000000000 34359738368 20971520.
Definition worker : WorkerConfig := mkWorker 120000000000 0 16 4 7 5000000000 256.
End ConfigDemo.

Lemma api_config_sound_witness :
  api_config ConfigDemo.env = Ok ConfigDemo.api ∧
  ∃ p n, part_size_bytes 34359738368 20971520 = Ok p ∧ part_count 34359738368 p = Ok n ∧
    20971520 ≤ p ≤ MAX_PART_BYTES ∧ 1 ≤ n ≤ MAX_PARTS.
Proof.
  assert (api_config ConfigDemo.env = Ok ConfigDemo.api) as H by (vm_compute; reflexivity).
  split; [done |].
  apply (proj2 (api_config_sound ConfigDemo.env ConfigDemo.api H)).
  split; [lia | done].
Defined.

Lemma worker_config_bounds_witness :
  worker_config ConfigDemo.env = Ok ConfigDemo.worker ∧ wc_max_deliver ConfigDemo.worker = 0 ∧
  1 ≤ wc_work_concurrency ConfigDemo.worker ≤ wc_max_ack_pending ConfigDemo.worker.
Proof.
  assert (worker_config ConfigDemo.env = Ok ConfigDemo.worker) as H by (vm_compute; reflexivity).
  split; [done |]. split; [reflexivity |].
  apply (proj1 (worker_config_bounds ConfigDemo.env ConfigDemo.worker H)).
Defined.
