(* ===== verification/EventStore.v ===== *)
(** * The event store as an interface

    crates/document-app/src/ports.rs, the [EventStore] trait.  [event_store_laws]
    is what append.rs relies on, stated over an abstract history per document, for
    any number of writers at once.  The two append paths are proved against the
    laws alone; the in-memory store of testing.rs obeys them here, the JetStream
    adapter in JetStream.v. *)

From S2P Require Import Prelude Text Events Fold Keys Ports Memory Append.

Local Open Scope Z_scope.

Section interface.
Context {J : SerdeJson}.

(** The trait, for an implementation whose calls are [E]. *)
Class EventStore (E : Type → Type) := {
  st_append : DocumentEvent → Expect → prog E (result Appended EventStoreError);
  st_last : string → string → prog E (result (option (Z * Z)) EventStoreError);
  st_read_stream : string → string → prog E (result (list (Z * DocumentEvent)) EventStoreError);
  (** An event as its readers get it back: serde_json may round a number of the
      metadata. *)
  st_stored : DocumentEvent → DocumentEvent;
}.

(** ** The contract *)

Abbreviation history_t := (list (Z * DocumentEvent)).

Definition expected (expect : Expect) : Z :=
  match expect with CreateOnly => 0 | Exactly seq => seq end.

(** The answer of [last] on a history. *)
Definition head_of (h : history_t) : option (Z * Z) := (λ p, (ev_version p.2, p.1)) <$> last h.
Definition head_version (h : history_t) : option Z := (λ p, ev_version p.2) <$> last h.

(** Events [new] appended to [h], each one [legal] where it lands. *)
Fixpoint grows (legal : history_t → DocumentEvent → Prop) (h new : history_t) : Prop :=
  match new with
  | [] => True
  | (q, e) :: new => last_seq h < q ∧ legal h e ∧ grows legal (h ++ [(q, e)]) new
  end.

Lemma grows_app legal h new1 new2 :
  grows legal h new1 → grows legal (h ++ new1) new2 → grows legal h (new1 ++ new2).
Proof.
  revert h. induction new1 as [|[q e] new1 IH]; simpl; intros h H1 H2; [by rewrite app_nil_r in H2 |].
  destruct H1 as (? & ? & H1). split_and!; [done.. |]. apply IH; [done |].
  by rewrite <- (assoc_L app).
Qed.

Section laws.
Context {E : Type → Type} {W : Type} {ES : EventStore E}.
Variable step : ∀ X, E X → W → W → X → Prop.
Variable history : W → string → string → history_t.
Variable ok : W → Prop.
Variable admits : string → string → Prop.
Variable legal : history_t → DocumentEvent → Prop.

(** What every step of every writer keeps. *)
Definition grown (w w' : W) : Prop :=
  ok w → ok w' ∧ ∀ t d, admits t d →
    ∃ new, history w' t d = history w t d ++ new ∧ grows legal (history w t d) new.

(** The history once was such that [φ]. *)
Definition was (w : W) (t d : string) (φ : history_t → Prop) : Prop :=
  ∃ h, h `prefix_of` history w t d ∧ φ h.

(** [e] is in the log at [q], right after what was expected. *)
Definition placed (w : W) (e : DocumentEvent) (q : Z) (expect : Expect) : Prop :=
  ∃ h, h ++ [(q, st_stored e)] `prefix_of` history w (ev_tenant_id e) (ev_document_id e) ∧
       last_seq h = expected expect.

(** A precondition the writers keep, under which the store is sound. *)
Definition keeps (P : W → Prop) : Prop := stable grown P ∧ ∀ w, P w → ok w.

Record event_store_laws : Prop := {
  law_stored e :
    ev_tenant_id (st_stored e) = ev_tenant_id e ∧ ev_document_id (st_stored e) = ev_document_id e ∧
    ev_version (st_stored e) = ev_version e;
  law_increasing w t d : ok w → admits t d → increasing 0 (history w t d);
  law_append e expect P :
    keeps P → admits (ev_tenant_id e) (ev_document_id e) →
    (∀ w, P w → last_seq (history w (ev_tenant_id e) (ev_document_id e)) = expected expect →
       legal (history w (ev_tenant_id e) (ev_document_id e)) (st_stored e)) →
    rg step grown (st_append e expect) P (λ r w, P w ∧
      match r with
      | Ok a => ap_duplicate a = false → ap_version a = ev_version e ∧ placed w e (ap_stream_seq a) expect
      | Err _ => True
      end);
  law_last t d P :
    keeps P → admits t d →
    rg step grown (st_last t d) P (λ r w, P w ∧
      match r with Ok o => was w t d (λ h, head_of h = o) | Err _ => True end);
  (** A read may stop short, never skip. *)
  law_read t d P :
    keeps P → admits t d →
    rg step grown (st_read_stream t d) P (λ r w, P w ∧
      match r with Ok h => h `prefix_of` history w t d | Err _ => True end);
}.

#[local] Instance grown_refl : Reflexive grown.
Proof. intros w Hw. split; [done |]. intros t d _. exists []. by rewrite app_nil_r. Qed.

#[local] Instance grown_trans : Transitive grown.
Proof.
  intros w1 w2 w3 H1 H2 Hw. destruct (H1 Hw) as [Hw2 G1]. destruct (H2 Hw2) as [Hw3 G2].
  split; [done |]. intros t d Hd. destruct (G1 t d Hd) as (n1 & E1 & L1).
  destruct (G2 t d Hd) as (n2 & E2 & L2). exists (n1 ++ n2).
  rewrite E2, E1, <- (assoc_L app). split; [done |]. apply grows_app; [done | by rewrite <- E1].
Qed.

Lemma grown_prefix w w' t d : grown w w' → ok w → admits t d → history w t d `prefix_of` history w' t d.
Proof. intros H Hw Hd. destruct (H Hw) as [_ G]. destruct (G t d Hd) as (new & -> & _). by apply prefix_app_r. Qed.

Lemma keeps_ok : keeps ok.
Proof. split; [| done]. intros w w' Hw HG. by apply HG. Qed.

(** A fact that survives growth may join the precondition. *)
Lemma keeps_and (P φ : W → Prop) :
  keeps P → (∀ w w', ok w → φ w → grown w w' → φ w') → keeps (λ w, P w ∧ φ w).
Proof.
  intros [Hst Hok] Hφ. split; [| by intros w [? _]; apply Hok].
  intros w w' [Hw H] HG. split; [by eapply Hst | by eapply Hφ; [apply Hok | |]].
Qed.

Lemma was_grown w w' t d φ : admits t d → ok w → was w t d φ → grown w w' → was w' t d φ.
Proof.
  intros Hd Hw (h & Hh & Hφ) HG. exists h. split; [| done].
  etrans; [done | by apply grown_prefix].
Qed.

Lemma increasing_app_last lo (h : history_t) p rest :
  increasing lo (h ++ p :: rest) → h ≠ [] → last_seq h < last_seq (h ++ p :: rest).
Proof.
  revert lo. induction h as [|[q e] h IH]; intros lo Hinc Hne; [done |].
  destruct Hinc as [_ Hinc]. destruct h as [|p' h].
  - change ([(q, e)] ++ p :: rest) with ((q, e) :: p :: rest). rewrite last_seq_cons.
    by apply increasing_last.
  - change (((q, e) :: p' :: h) ++ p :: rest) with ((q, e) :: p' :: (h ++ p :: rest)).
    rewrite !last_seq_cons. by eapply (IH q).
Qed.

Lemma increasing_prefix lo (h rest : history_t) : increasing lo (h ++ rest) → increasing lo h.
Proof. revert lo. induction h as [|[q e] h IH]; simpl; [done |]. intros lo [? ?]. eauto. Qed.

(** A sequence names one prefix of a history. *)
Lemma same_prefix (h l1 l2 : history_t) :
  increasing 0 h → l1 `prefix_of` h → l2 `prefix_of` h → last_seq l1 = last_seq l2 → l1 = l2.
Proof.
  assert (∀ a b : history_t, increasing 0 b → a `prefix_of` b → last_seq a = last_seq b → a = b) as Hone.
  { intros a b Hinc [[|p rest] ->] Hq; [by rewrite app_nil_r |]. exfalso.
    destruct a as [|p' a].
    - pose proof (increasing_last 0 _ Hinc ltac:(done)) as H. rewrite <- Hq in H. by apply Z.lt_irrefl in H.
    - pose proof (increasing_app_last _ _ _ _ Hinc ltac:(done)). lia. }
  intros Hinc H1 H2 Hq.
  assert (increasing 0 l1 ∧ increasing 0 l2) as [Hi1 Hi2].
  { destruct H1 as [? ->], H2 as [? H2]. split; [by eapply increasing_prefix |].
    rewrite H2 in Hinc. by eapply increasing_prefix. }
  destruct (prefix_weak_total l1 l2 h H1 H2); [by apply Hone | symmetry; by apply Hone].
Qed.

Lemma head_of_seq h v q : head_of h = Some (v, q) → last_seq h = q ∧ head_version h = Some v.
Proof. unfold head_of, last_seq, head_version. destruct (last h) as [[??]|]; naive_solver. Qed.

Lemma head_of_none h : head_of h = None → h = [].
Proof. unfold head_of. destruct h as [|p h] using rev_ind; [done |]. by rewrite last_snoc. Qed.

(** The head that was read is still the head where its sequence is. *)
Lemma head_unmoved w t d v q l :
  event_store_laws → ok w → admits t d →
  was w t d (λ h, head_of h = Some (v, q)) → l `prefix_of` history w t d → last_seq l = q →
  head_version l = Some v.
Proof.
  intros Hlaws Hw Hd (h & Hh & Hv) Hl Hq. apply head_of_seq in Hv as [Hs Hv].
  assert (l = h) as ->; [| done].
  eapply same_prefix; [by apply (law_increasing Hlaws) | done | done | congruence].
Qed.

(** ** The append paths, on any store *)

(** What a caller of append.rs asks for: [append_create] of an event, or
    [append_update] of a document. *)
Inductive Request : Type :=
| Creation (event : DocumentEvent)
| Update (tenant document_id : string) (client_version : option Z) (build_event : Z → DocumentEvent).

Definition appending (request : Request) : prog PortE (result Appended AppendError) :=
  match request with
  | Creation event => append_create event
  | Update t d client build => append_update t d client build
  end.

Definition request_key (request : Request) : string * string :=
  match request with
  | Creation event => (ev_tenant_id event, ev_document_id event)
  | Update t d _ _ => (t, d)
  end.

Definition client_agrees (client : option Z) (v : Z) : Prop := client = None ∨ client = Some v.

(** The only events a request may add: the first of a document, or the one built
    for the version after the head's. *)
Definition entitled (request : Request) (h : history_t) (e : DocumentEvent) : Prop :=
  match request with
  | Creation event => h = [] ∧ e = st_stored event
  | Update _ _ client build =>
      ∃ v, head_version h = Some v ∧ client_agrees client v ∧ e = st_stored (build (u64_add v 1))
  end.

Definition builds_own (request : Request) : Prop :=
  match request with
  | Creation _ => True
  | Update t d _ build =>
      ∀ v, ev_version (build v) = v ∧ ev_tenant_id (build v) = t ∧ ev_document_id (build v) = d
  end.

(** What a request may report. *)
Definition reported (request : Request) (w : W) (r : result Appended AppendError) : Prop :=
  let '(t, d) := request_key request in
  match r with
  | Ok a =>
      if ap_duplicate a then was w t d (λ h, head_of h = Some (ap_version a, ap_stream_seq a))
      else ∃ h e, h ++ [(ap_stream_seq a, e)] `prefix_of` history w t d ∧
             entitled request h e ∧ ap_version a = ev_version e
  | Err (VersionMismatch c v) =>
      ∃ build, request = Update t d (Some c) build ∧ c ≠ v ∧
               was w t d (λ h, head_version h = Some v)
  | Err NoSuchDocument => was w t d (λ h, h = [])
  | Err AlreadyCreated => ∃ event, request = Creation event
  | Err ConflictRetryExhausted => ∃ client build, request = Update t d client build
  | Err (AStore _) => True
  end.

(** The calls of the ports, with this store behind the event log. *)
Definition implements (h : ∀ X, PortE X → prog E X) : Prop :=
  (∀ e expect, h _ (EvAppend e expect) = st_append e expect) ∧
  (∀ t d, h _ (EvLast t d) = st_last t d).

Section requests.
Hypothesis Hlaws : event_store_laws.
Context (h : ∀ X, PortE X → prog E X) (Himp : implements h).

Lemma rg_st_last {B} t d (f : _ → prog E B) P R :
  keeps P → admits t d →
  (∀ o, rg step grown (f (Ok o)) (λ w, P w ∧ was w t d (λ h, head_of h = o)) R) →
  (∀ e, rg step grown (f (Err e)) P R) →
  rg step grown (prog_bind (st_last t d) f) P R.
Proof.
  intros HP Hd Hok Herr. eapply rg_bind; [by apply (law_last Hlaws) |].
  intros [o|e]; [apply Hok |]. eapply rg_pre; [| apply Herr]. by intros w [? _].
Qed.

Lemma keeps_was P t d φ : keeps P → admits t d → keeps (λ w, P w ∧ was w t d φ).
Proof. intros HP Hd. apply keeps_and; [done |]. intros w w' Hw H HG. by eapply was_grown. Qed.

Lemma placed_grown w w' e q expect :
  admits (ev_tenant_id e) (ev_document_id e) → ok w →
  placed w e q expect → grown w w' → placed w' e q expect.
Proof.
  intros Hd Hw (h' & Hh & Hq) HG. exists h'. split; [| done].
  etrans; [exact Hh | by apply grown_prefix].
Qed.

Lemma resolve_duplicate_reported request t d a P :
  keeps P → admits t d → request_key request = (t, d) →
  (ap_duplicate a = false → ∀ w, P w → reported request w (Ok a)) →
  rg step grown (interp h (resolve_duplicate t d a)) P (λ r w, reported request w r).
Proof.
  intros HP Hd Hkey Ha. unfold resolve_duplicate. destruct (ap_duplicate a); simpl.
  2: { intros w Hw. by apply Ha. }
  rewrite (proj2 Himp). apply rg_st_last; [done.. | |].
  - intros [[v q]|]; simpl; intros w [_ Hw]; unfold reported; rewrite Hkey; [done |].
    destruct Hw as (h' & Hh & Hn). exists h'. split; [done |].
    by apply head_of_none.
  - intros e w Hw. unfold reported. by rewrite Hkey.
Qed.

Lemma creation_reported event P :
  keeps P → admits (ev_tenant_id event) (ev_document_id event) → legal [] (st_stored event) →
  rg step grown (interp h (append_create event)) P (λ r w, reported (Creation event) w r).
Proof.
  intros HP Hd Hlegal. unfold append_create. cbn. rewrite (proj1 Himp).
  assert (∀ w, P w → ∀ l, l `prefix_of` history w (ev_tenant_id event) (ev_document_id event) →
            last_seq l = 0 → l = []) as Hnil.
  { intros w Hw l Hl Hq. eapply same_prefix; [| exact Hl | by apply prefix_nil | exact Hq].
    apply (law_increasing Hlaws); [by apply HP | done]. }
  eapply rg_bind.
  - apply (law_append Hlaws); [done.. |]. intros w Hw Hq. by rewrite (Hnil w Hw _ ltac:(reflexivity) Hq).
  - intros [a|[|m|m]]; cbn.
    + apply (resolve_duplicate_reported (Creation event)); [| done.. |].
      * apply (keeps_and P (λ w, ap_duplicate a = false → _)); [done |]. intros w w' Hw H HG Hdup. destruct (H Hdup). split; [done |].
        by eapply placed_grown.
      * intros Hdup w [Hw H]. destruct (H Hdup) as [Hv (l & Hl & Hq)]. cbn. rewrite Hdup.
        exists l, (st_stored event). rewrite (proj2 (proj2 (law_stored Hlaws event))).
        split_and!; [done | | done | done].
        eapply Hnil; [done | | exact Hq]. etrans; [by apply prefix_app_r | exact Hl].
    + intros w _. cbn. eauto.
    + done.
    + done.
Qed.

Lemma version_check_spec client v :
  match version_check client v with
  | Ok _ => client_agrees client v
  | Err e => ∃ c, e = VersionMismatch c v ∧ client = Some c ∧ c ≠ v
  end.
Proof.
  unfold version_check, client_agrees. destruct client as [c|]; [| by left].
  case_bool_decide as Hc; [by exists c |]. right. f_equal. by destruct (decide (c = v)).
Qed.

Lemma update_reported n t d client build P :
  keeps P → admits t d → builds_own (Update t d client build) →
  (∀ l e, entitled (Update t d client build) l e → legal l e) →
  rg step grown (interp h (append_update_loop n t d client build)) P
    (λ r w, reported (Update t d client build) w r).
Proof.
  intros HP Hd Hown Hlegal. induction n as [|n IH]; cbn [append_update_loop interp].
  { intros w _. cbn. eauto. }
  cbn. rewrite (proj2 Himp). apply rg_st_last; [done.. | |].
  2: { intros e w _. done. }
  intros [[v q]|]; cbn.
  2: { intros w [_ Hw]. cbn. destruct Hw as (l & Hl & Hn). exists l. split; [done |].
       by apply head_of_none. }
  pose proof (version_check_spec client v) as Hcheck.
  destruct (version_check client v) as [u|e].
  2: { destruct Hcheck as (c & -> & -> & Hne). intros w [_ (l & Hl & Hq)]. exists build.
       split_and!; [done.. |]. exists l. split; [done |]. unfold head_of, head_version in *.
       by destruct (last l); simplify_eq/=. }
  destruct (Hown (u64_add v 1)) as (Hbv & Hbt & Hbd). cbn. rewrite (proj1 Himp).
  eapply rg_bind.
  - apply (law_append Hlaws); [by apply keeps_was | by rewrite Hbt, Hbd |].
    intros w [Hw Hwas] Hq. rewrite Hbt, Hbd in *. apply Hlegal. exists v.
    split_and!; [| done..].
    eapply head_unmoved; [done | by apply HP | done | exact Hwas | reflexivity | exact Hq].
  - intros [a|[|m|m]]; cbn.
    + apply (resolve_duplicate_reported (Update t d client build)); [| done.. |].
      * apply (keeps_and _ (λ w, ap_duplicate a = false → _)); [by apply keeps_was |]. intros w w' Hw H HG Hdup. destruct (H Hdup).
        split; [done |]. eapply placed_grown; [by rewrite Hbt, Hbd | done..].
      * intros Hdup w [[Hw Hwas] H]. destruct (H Hdup) as [Hv (l & Hl & Hq)]. cbn. rewrite Hdup.
        exists l, (st_stored (build (u64_add v 1))).
        rewrite (proj2 (proj2 (law_stored Hlaws _))), Hbt, Hbd in *. split_and!; [done | | done].
        exists v. split_and!; [| done..].
        eapply (head_unmoved w t d); [done | by apply HP | done | exact Hwas | | exact Hq].
        etrans; [by apply prefix_app_r | exact Hl].
    + eapply rg_pre; [| exact IH]. by intros w [[? _] _].
    + done.
    + done.
Qed.

Lemma appending_reported request :
  builds_own request → admits (request_key request).1 (request_key request).2 →
  (∀ l e, entitled request l e → legal l e) →
  rg step grown (interp h (appending request)) ok (λ r w, reported request w r).
Proof.
  intros Hown Hd Hlegal. destruct request as [event | t d client build]; cbn [appending].
  - apply creation_reported; [apply keeps_ok | done | by apply Hlegal].
  - by apply update_reported; [apply keeps_ok | | |].
Qed.
End requests.
End laws.

Section pool.
Context {E : Type → Type} {W : Type} {ES : EventStore E}.
Variable step : ∀ X, E X → W → W → X → Prop.
Variable history : W → string → string → history_t.
Variable ok : W → Prop.
Variable admits : string → string → Prop.

(** Some caller is entitled to add the event where it lands. *)
Definition asked (requests : list Request) (h : history_t) (e : DocumentEvent) : Prop :=
  ∃ request, request ∈ requests ∧ entitled request h e.

(** C28: any number of creations and updates, interleaved on any store that keeps
    the contract, whatever it fails: every history grows only by events that one
    of the requests built for the head it landed on, a creation on an empty
    history and an update for the version after the head's, which is the one its
    client named; and each request reports a fresh append, a duplicate, a version
    mismatch or a missing document only if the history says so. *)
Theorem appends_on_any_store (h : ∀ X, PortE X → prog E X) env requests w w' ts' :
  (∀ legal, event_store_laws step history ok admits legal) → implements h →
  (∀ w1 w2, env w1 w2 → grown history ok admits (asked requests) w1 w2) →
  (∀ request, request ∈ requests →
     builds_own request ∧ admits (request_key request).1 (request_key request).2) →
  ok w →
  rtc (pool_step step env) (w, (λ request, interp h (appending request)) <$> requests) (w', ts') →
  ok w' ∧
  (∀ t d, admits t d → ∃ new, history w' t d = history w t d ++ new ∧
     grows (asked requests) (history w t d) new) ∧
  ∀ i request r, requests !! i = Some request → ts' !! i = Some (Ret r) →
    reported history request w' r.
Proof.
  intros Hlaws Himp Henv Hreq Hok Hsteps.
  pose proof (grown_refl history ok admits (asked requests)).
  pose proof (grown_trans history ok admits (asked requests)).
  eapply (pool_steps_rg step env (grown history ok admits (asked requests)) _ _
            ((λ request r w, reported history request w r) <$> requests)) in Hsteps as [HG Hts];
    [| done |].
  - split_and!; [by apply HG | by apply HG |]. intros i request r Hi Ht.
    destruct (Forall2_lookup_l _ _ _ _ _ Hts Ht) as (Q & HQ & Hthread).
    rewrite list_lookup_fmap, Hi in HQ. simplify_eq/=.
    by apply (rg_thread_ret step (grown history ok admits (asked requests)) w' r _ Hthread).
  - cbn [fst snd]. apply Forall2_fmap, Forall_Forall2_diag, Forall_forall. intros request Hin.
    destruct (Hreq request Hin) as [Hown Hd].
    exists ok. split_and!; [| done |].
    { apply (keeps_ok history ok admits (asked requests)). }
    apply (appending_reported step history ok admits (asked requests) (Hlaws _) h Himp request); [done.. |].
    intros l e He. by exists request.
Qed.
End pool.
End interface.

(** ** The in-memory store *)

Section memory.
Context {J : SerdeJson} {X : Hex} {S2 : Sha2}.

#[export] Instance memory_store : EventStore PortE := {|
  st_append e expect := call (EvAppend e expect);
  st_last t d := call (EvLast t d);
  st_read_stream t d := call (EvReadStream t d);
  st_stored e := e;
|}.

Definition mem_history (w : World) (t d : string) : list (Z * DocumentEvent) :=
  es_stream (w_events w) t d.
Definition mem_ok (w : World) : Prop := es_inv (w_events w).

Lemma mem_implements : implements (λ X e, call e).
Proof. by split. Qed.

(** The rule for a single call, where the state it leads to is known. *)
Lemma rg_single {E : Type → Type} {W : Type} (step : ∀ X, E X → W → W → X → Prop) G {A} (e : E A)
    (P : W → Prop) (Q : A → W → Prop) :
  (∀ w w' x, P w → step _ e w w' x → G w w' ∧ stable G (Q x) ∧ Q x w') →
  rg step G (call e) P Q.
Proof. intros H w w' x Hw Hs. destruct (H w w' x Hw Hs) as (? & ? & ?). split; [done |].
  exists (Q x). split_and!; [done | done | by apply rg_ret].
Qed.

Section laws.
Variable legal : list (Z * DocumentEvent) → DocumentEvent → Prop.

Abbreviation grown := (grown mem_history mem_ok (λ _ _, True) legal).
Abbreviation keeps := (keeps mem_history mem_ok (λ _ _, True) legal).
Abbreviation memrg := (rg mem_step grown).

(** A call that leaves the world as it is. *)
Lemma mem_read_rg {A} (e : PortE A) (P : World → Prop) (Q : A → World → Prop) :
  keeps P → (∀ w, (mem A e w).1 = w) →
  (∀ x, keeps (λ w, P w ∧ Q x w)) → (∀ w, P w → Q (mem A e w).2 w) →
  memrg (call e) P (λ x w, P w ∧ Q x w).
Proof.
  intros HP He Hk HQ. apply rg_single. intros w w' x Hw Hs. unfold mem_step in Hs.
  pose proof (He w) as Hw'. pose proof (HQ w Hw) as Hx. rewrite Hs in *. simpl in *. subst w'.
  split_and!; [apply grown_refl | apply Hk | done | done].
Qed.

Lemma mem_append_rg event expect P :
  keeps P →
  (∀ w, P w → last_seq (mem_history w (ev_tenant_id event) (ev_document_id event)) = expected expect →
     legal (mem_history w (ev_tenant_id event) (ev_document_id event)) event) →
  memrg (call (EvAppend event expect)) P (λ r w, P w ∧
    match r with
    | Ok a => ap_duplicate a = false → ap_version a = ev_version event ∧
                placed mem_history w event (ap_stream_seq a) expect
    | Err _ => True
    end).
Proof.
  intros HP Hlegal. apply rg_single. intros w w' r Hw Hap. unfold mem_step in Hap. cbn in Hap.
  destruct (mem_append (w_events w) event expect) as [s' r'] eqn:Hm. simplify_eq.
  pose proof (proj2 HP w Hw) as Hok. apply mem_append_outcome in Hm; [| done].
  assert (es_inv s') as Hok' by (by eapply append_inv).
  assert (∀ s, es_streams s = es_streams (w_events w) → es_inv s → grown w (set_events w s)) as Hquiet.
  { intros s Hs Hi _. split; [done |]. intros t d _. exists [].
    unfold mem_history, es_stream. simpl. rewrite Hs. by rewrite app_nil_r. }
  assert (∀ (Q : World → Prop), grown w (set_events w s') → keeps (λ w, P w ∧ Q w) → Q (set_events w s') →
    grown w (set_events w s') ∧ stable grown (λ w, P w ∧ Q w) ∧ P (set_events w s') ∧ Q (set_events w s')) as Hdone.
  { intros Q HG [HQ _] HQw. split_and!; [done.. | by eapply (proj1 HP) | done]. }
  destruct Hm as [m Hu | q e0 Hin Hid | n | s' Hseen Hl Hhead Hseen' Hs].
  - apply Hdone; [by apply Hquiet | by apply (keeps_and _ _ _ _ P (λ _, True)) | done].
  - apply Hdone; [by apply Hquiet | by apply (keeps_and _ _ _ _ P (λ _, _)) | done].
  - apply Hdone; [by apply Hquiet | by apply (keeps_and _ _ _ _ P (λ _, True)) | done].
  - apply Hdone.
    + intros _. split; [done |]. intros t d _. unfold mem_history. simpl. rewrite Hs.
      case_decide as Hd; [| exists []; by rewrite app_nil_r].
      exists [(es_head (w_events w) + 1, event)]. simplify_eq. split; [done |].
      pose proof (inv_head _ Hok (ev_tenant_id event) (ev_document_id event)).
      split_and!; [lia | by apply Hlegal | done].
    + apply (keeps_and _ _ _ _ P (λ w, _ → _)); [done |]. intros w1 w2 Hw1 H HG Hdup.
      destruct (H Hdup) as [? Hp]. split; [done |].
      by eapply (placed_grown mem_history mem_ok (λ _ _, True) legal _ _ _ _ _ I Hw1).
    + intros _. split; [done |]. unfold placed, mem_history. simpl. rewrite Hs, decide_True by done.
      by eexists.
Qed.

(** Fact: the in-memory event store keeps the contract of the trait, for every
    document. *)
Theorem memory_is_event_store : event_store_laws mem_step mem_history mem_ok (λ _ _, True) legal.
Proof.
  split.
  - done.
  - intros w t d Hok _. by apply (inv_increasing _ Hok).
  - intros e expect P HP _. by apply mem_append_rg.
  - intros t d P HP _. apply mem_read_rg; [done.. | |].
    + intros x. apply keeps_and; [done |]. intros w w' Hw H HG. destruct x; [| done].
      by eapply (was_grown mem_history mem_ok (λ _ _, True) legal _ _ _ _ _ I Hw).
    + intros w Hw. cbn. unfold mem_last. destruct (es_unavailable (w_events w)); [done |].
      by exists (mem_history w t d).
  - intros t d P HP _. apply mem_read_rg; [done.. | |].
    + intros x. apply keeps_and; [done |]. intros w w' Hw H HG. destruct x; [| done].
      etrans; [done |].
      by eapply (grown_prefix mem_history mem_ok (λ _ _, True) legal _ _ _ _ HG Hw).
    + intros w Hw. cbn. unfold mem_read_stream. by destruct (es_unavailable (w_events w)).
Qed.
End laws.
End memory.

(** ** Witnesses *)

#[local] Existing Instances Demo.json Demo.hex Demo.sha2.

Module StoreDemo.
(** A metadata change of the document of [MemoryDemo], asked for twice. *)
Definition build (who : string) (v : Z) : DocumentEvent :=
  mkEvent 1 ("e9-" +:+ who) "acme" "doc-1" (User who) v 500
    (PDocumentMetadataChanged (mkPatch (Some "Report") None None None)).

Definition requests : list Request :=
  [Update "acme" "doc-1" (Some 1) (build "user-2"); Update "acme" "doc-1" (Some 1) (build "user-3")].

Definition ports : ∀ X, PortE X → prog PortE X := λ X e, call e.
Definition pool : list (prog PortE (result Appended AppendError)) :=
  (λ request, interp ports (appending request)) <$> requests.

(** The first runs to its end, then the second. *)
Definition after_one : World * result Appended AppendError :=
  run mem (interp ports (appending (Update "acme" "doc-1" (Some 1) (build "user-2")))) MemoryDemo.with_log.
Definition after_two : World * result Appended AppendError :=
  run mem (interp ports (appending (Update "acme" "doc-1" (Some 1) (build "user-3")))) after_one.1.

Lemma two_appends :
  rtc (pool_step mem_step (λ _ _, False)) (MemoryDemo.with_log, pool)
    (after_two.1, [Ret after_one.2; Ret after_two.2]).
Proof.
  pose proof (pool_run_at mem (λ _ _, False) pool 0 _ MemoryDemo.with_log eq_refl) as H1.
  pose proof (pool_run_at mem (λ _ _, False) (<[0%nat := Ret after_one.2]> pool) 1 _ after_one.1 eq_refl) as H2.
  etrans; [exact H1 | exact H2].
Qed.
End StoreDemo.

Lemma appends_on_any_store_witness :
  StoreDemo.after_one.2 = Ok (mkAppended 2 2 false) ∧
  StoreDemo.after_two.2 = Err (VersionMismatch 1 2) ∧
  reported mem_history (Update "acme" "doc-1" (Some 1) (StoreDemo.build "user-3")) StoreDemo.after_two.1
    StoreDemo.after_two.2.
Proof.
  split; [vm_compute; reflexivity |]. split; [vm_compute; reflexivity |].
  pose proof (appends_on_any_store mem_step mem_history mem_ok (λ _ _, True) StoreDemo.ports (λ _ _, False)
    StoreDemo.requests MemoryDemo.with_log StoreDemo.after_two.1
    [Ret StoreDemo.after_one.2; Ret StoreDemo.after_two.2] memory_is_event_store mem_implements) as H.
  destruct H as (_ & _ & H).
  - done.
  - intros request Hin. unfold StoreDemo.requests in Hin. rewrite !elem_of_cons, elem_of_nil in Hin.
    by destruct Hin as [-> | [-> | []]].
  - apply MemoryDemo.log1_inv.
  - apply StoreDemo.two_appends.
  - by apply (H 1%nat).
Defined.
