(* ===== verification/JetStream.v ===== *)
(** * The JetStream event store

    crates/document-adapters/src/jetstream/event_store.rs, with the configuration
    of its stream in jetstream/mod.rs.  [JsE] is the part of the async-nats client
    it calls and [js_step] what NATS documents of it: a publish is deduplicated
    by its message id within the window of the stream, else accepted only at the
    expected sequence of its subject; an acknowledgement may be lost; an ordered
    consumer delivers the messages of its subject in order.  The stream keeps
    everything: [ensure_topology] gives it no limit and refuses new messages
    rather than drop old ones. *)

From S2P Require Import Prelude Text Events Fold Keys Ports Memory Append EventStore.

Local Open Scope Z_scope.

(** [DUPLICATE_WINDOW], in nanoseconds, and [MAX_STREAM_READ] *)
Definition DUPLICATE_WINDOW : Z := 2 * 3600 * 1000000000.
Definition MAX_STREAM_READ : Z := 10000.

Inductive PublishErrorKind : Type := WrongLastSequence | WrongLastMessageId | PublishOther.
Inductive DirectGetErrorKind : Type := DirectGetNotFound | DirectGetOther.

Record PubAck : Type := mkAck {
  pa_sequence : Z;
  pa_duplicate : bool;
}.

(** A publish with its acknowledgement, the direct get, and the ordered consumer:
    its creation answers the number of pending messages, and the next message
    after the last one delivered carries its sequence, when its metadata parse,
    and its payload. *)
Inductive JsE : Type → Type :=
| JsPublish (subject message_id : string) (expected_last_subject_sequence : Z) (payload : bytes)
    : JsE (result PubAck (PublishErrorKind * string))
| DirectGetLast (subject : string) : JsE (result (Z * bytes) (DirectGetErrorKind * string))
| CreateConsumer (filter_subject : string) : JsE (result Z string)
| OpenMessages : JsE (result unit string)
| NextMessage (filter_subject : string) (after : Z) : JsE (option (result (result Z string * bytes) string)).

(** The calls of the process: JetStream's, and those of the other ports. *)
Inductive AdapterE {J : SerdeJson} : Type → Type :=
| Js {A} (e : JsE A) : AdapterE A
| Elsewhere {A} (e : PortE A) : AdapterE A.

Section adapter.
Context {J : SerdeJson} {CR : Crc32}.

(** serde_json on an event.  What is read back is the event itself, but for the
    precision of the numbers in its metadata. *)
Class EventJson := {
  event_to_vec : DocumentEvent → result bytes string;
  event_from_slice : bytes → result DocumentEvent string;
  event_reread : DocumentEvent → DocumentEvent;
  event_json_roundtrip e b : event_to_vec e = Ok b → event_from_slice b = Ok (event_reread e);
  event_reread_keeps e :
    ev_tenant_id (event_reread e) = ev_tenant_id e ∧ ev_document_id (event_reread e) = ev_document_id e ∧
    ev_version (event_reread e) = ev_version e;
}.
Context {EJ : EventJson}.

Definition js {A} (e : JsE A) : prog AdapterE A := call (Js e).

(** [map_publish_error] *)
Definition map_publish_error (error : PublishErrorKind * string) : EventStoreError :=
  match error.1 with
  | WrongLastSequence | WrongLastMessageId => EConflict
  | PublishOther => EUnavailable error.2
  end.

(** [JetStreamEventStore::append] *)
Definition js_append (event : DocumentEvent) (expect : Expect)
  : prog AdapterE (result Appended EventStoreError) :=
  let subject := event_subject (ev_tenant_id event) (ev_document_id event) in
  match event_to_vec event with
  | Err error => Ret (Err (EPayload ("encode event: " +:+ error)))
  | Ok payload =>
      let expected := match expect with CreateOnly => 0 | Exactly sequence => sequence end in
      let* ack := js (JsPublish subject (ev_event_id event) expected payload) in
      Ret (match ack with
           | Err error => Err (map_publish_error error)
           | Ok ack => Ok (mkAppended (pa_sequence ack) (ev_version event) (pa_duplicate ack))
           end)
  end.

(** [JetStreamEventStore::last] *)
Definition js_last (tenant document_id : string)
  : prog AdapterE (result (option (Z * Z)) EventStoreError) :=
  let* r := js (DirectGetLast (event_subject tenant document_id)) in
  Ret (match r with
       | Ok (sequence, payload) =>
           match event_from_slice payload with
           | Err error => Err (EPayload ("decode event: " +:+ error))
           | Ok event => Ok (Some (ev_version event, sequence))
           end
       | Err (DirectGetNotFound, _) => Ok None
       | Err (DirectGetOther, error) => Err (EUnavailable ("direct get last: " +:+ error))
       end).

(** The [while] of [read_stream], [missing] events short of [pending]. *)
Fixpoint read_loop (missing : nat) (subject : string) (events : list (Z * DocumentEvent))
  : prog AdapterE (result (list (Z * DocumentEvent)) EventStoreError) :=
  match missing with
  | O => Ret (Ok events)
  | S missing =>
      let* message := js (NextMessage subject (last_seq events)) in
      match message with
      | None => Ret (Ok events)
      | Some (Err error) => Ret (Err (EUnavailable ("read stream: " +:+ error)))
      | Some (Ok (Err error, _)) => Ret (Err (EPayload ("missing jetstream metadata: " +:+ error)))
      | Some (Ok (Ok sequence, payload)) =>
          match event_from_slice payload with
          | Err error => Ret (Err (EPayload ("decode event: " +:+ error)))
          | Ok event => read_loop missing subject (events ++ [(sequence, event)])
          end
      end
  end.

(** [JetStreamEventStore::read_stream] *)
Definition js_read_stream (tenant document_id : string)
  : prog AdapterE (result (list (Z * DocumentEvent)) EventStoreError) :=
  let subject := event_subject tenant document_id in
  let* consumer := js (CreateConsumer subject) in
  match consumer with
  | Err error => Ret (Err (EUnavailable ("create read consumer: " +:+ error)))
  | Ok num_pending =>
      let pending := Z.min num_pending MAX_STREAM_READ in
      if pending =? 0 then Ret (Ok []) else
      let* messages := js OpenMessages in
      match messages with
      | Err error => Ret (Err (EUnavailable ("read stream: " +:+ error)))
      | Ok _ => read_loop (Z.to_nat pending) subject []
      end
  end.

#[export] Instance jetstream_store : EventStore AdapterE := {|
  st_append := js_append;
  st_last := js_last;
  st_read_stream := js_read_stream;
  st_stored := event_reread;
|}.

(** The ports of a process whose event store is this one. *)
Definition adapter_ports : ∀ A, PortE A → prog AdapterE A := λ A e,
  match e in PortE A return prog AdapterE A with
  | EvAppend event expect => js_append event expect
  | EvLast t d => js_last t d
  | EvReadStream t d => js_read_stream t d
  | other => call (Elsewhere other)
  end.

(** ** The stream *)

Record JsMessage : Type := mkMessage {
  jm_seq : Z;
  jm_time : DateTime;
  jm_subject : string;
  jm_id : string;
  jm_payload : bytes;
}.

(** The messages, oldest first, the ids the server remembers, and its clock. *)
Record JsWorld : Type := mkJsWorld {
  jw_log : list JsMessage;
  jw_window : gmap string Z;
  jw_now : DateTime;
}.

Definition on_subject (subject : string) (m : JsMessage) : Prop := jm_subject m = subject.
#[export] Instance on_subject_dec subject m : Decision (on_subject subject m).
Proof. unfold on_subject. solve_decision. Defined.

Definition subject_log (subject : string) (log : list JsMessage) : list JsMessage :=
  filter (on_subject subject) log.

Definition log_seq (log : list JsMessage) : Z := default 0 (jm_seq <$> last log).

Definition next_message (subject : string) (after : Z) (w : JsWorld) : option JsMessage :=
  List.find (λ m, after <? jm_seq m) (subject_log subject (jw_log w)).

Definition js_landed (q : Z) (subject id : string) (payload : bytes) (w : JsWorld) : JsWorld :=
  mkJsWorld (jw_log w ++ [mkMessage q (jw_now w) subject id payload]) (<[id := q]> (jw_window w)) (jw_now w).

Definition js_call_step (X : Type) (e : JsE X) (w w' : JsWorld) : X → Prop :=
  match e in JsE X return X → Prop with
  | JsPublish subject id expected payload => λ x,
      match jw_window w !! id with
      | Some q => w' = w ∧ (x = Ok (mkAck q true) ∨ ∃ m, x = Err (PublishOther, m))
      | None =>
          if bool_decide (log_seq (subject_log subject (jw_log w)) = expected) then
            ∃ q, log_seq (jw_log w) < q ∧
              ((w' = js_landed q subject id payload w ∧ x = Ok (mkAck q false)) ∨
               ∃ m, x = Err (PublishOther, m) ∧ (w' = w ∨ w' = js_landed q subject id payload w))
          else w' = w ∧ ∃ kind m, x = Err (kind, m)
      end
  | DirectGetLast subject => λ x,
      w' = w ∧
      (x = match last (subject_log subject (jw_log w)) with
           | Some m => Ok (jm_seq m, jm_payload m)
           | None => Err (DirectGetNotFound, "no message found")
           end ∨ ∃ m, x = Err (DirectGetOther, m))
  | CreateConsumer subject => λ x,
      w' = w ∧ (x = Ok (Z.of_nat (length (subject_log subject (jw_log w)))) ∨ ∃ m, x = Err m)
  | OpenMessages => λ _, w' = w
  | NextMessage subject after => λ x,
      w' = w ∧
      match x with
      | Some (Ok (info, payload)) =>
          ∃ m, next_message subject after w = Some m ∧ payload = jm_payload m ∧
               (info = Ok (jm_seq m) ∨ ∃ error, info = Err error)
      | _ => True
      end
  end.

(** The other ports do not touch the stream. *)
Definition js_step (X : Type) (e : AdapterE X) (w w' : JsWorld) : X → Prop :=
  match e in AdapterE X return X → Prop with
  | Js e => js_call_step _ e w w'
  | Elsewhere _ => λ _, w' = w
  end.

(** Time passes, and an id older than the window may be forgotten. *)
Inductive js_env : JsWorld → JsWorld → Prop :=
| js_time_passes log window window' now now' :
    now ≤ now' → window' ⊆ window →
    (∀ id q m, window !! id = Some q → window' !! id = None → m ∈ log → jm_seq m = q →
       jm_time m + DUPLICATE_WINDOW ≤ now') →
    js_env (mkJsWorld log window now) (mkJsWorld log window' now').

(** ** What the stream holds *)

Definition decoded (m : JsMessage) : option (Z * DocumentEvent) :=
  match event_from_slice (jm_payload m) with Ok e => Some (jm_seq m, e) | Err _ => None end.

(** The history of a document, read off its subject. *)
Definition js_history (w : JsWorld) (t d : string) : list (Z * DocumentEvent) :=
  omap decoded (subject_log (event_subject t d) (jw_log w)).

(** The names that make a subject of four tokens. *)
Definition js_admits (t d : string) : Prop := segment t ∧ has_char "." d = false.

Definition sound (m : JsMessage) : Prop :=
  ∃ e, event_from_slice (jm_payload m) = Ok e ∧ js_admits (ev_tenant_id e) (ev_document_id e) ∧
       jm_subject m = event_subject (ev_tenant_id e) (ev_document_id e).

Fixpoint ascending (lo : Z) (log : list JsMessage) : Prop :=
  match log with
  | [] => True
  | m :: log => lo < jm_seq m ∧ ascending (jm_seq m) log
  end.

(** The stream is sound: in order, decodable, and within the window of duplicates
    no id twice. *)
Record js_ok (w : JsWorld) : Prop := {
  jk_ascending : ascending 0 (jw_log w);
  jk_sound : Forall sound (jw_log w);
  jk_past m : m ∈ jw_log w → jm_time m ≤ jw_now w;
  jk_window m :
    m ∈ jw_log w → jw_now w < jm_time m + DUPLICATE_WINDOW → jw_window w !! jm_id m = Some (jm_seq m);
  jk_once i j m1 m2 :
    (i < j)%nat → jw_log w !! i = Some m1 → jw_log w !! j = Some m2 → jm_id m1 = jm_id m2 →
    jm_time m1 + DUPLICATE_WINDOW ≤ jm_time m2;
}.

Lemma subject_inj t d t' d' :
  js_admits t d → js_admits t' d' → event_subject t d = event_subject t' d' → t = t' ∧ d = d'.
Proof.
  intros [Ht Hd] [Ht' Hd'] Heq.
  pose proof (event_subject_roundtrip t d Ht Hd) as H1. pose proof (event_subject_roundtrip t' d' Ht' Hd') as H2.
  rewrite Heq in H1. naive_solver.
Qed.

Lemma ascending_le lo log m : ascending lo log → m ∈ log → lo < jm_seq m ≤ log_seq log.
Proof.
  revert lo m. induction log as [|m' log IH]; intros lo m Hasc Hin; [by apply not_elem_of_nil in Hin |].
  destruct Hasc as [Hlo Hasc]. unfold log_seq. destruct log as [|m2 log].
  - apply list_elem_of_singleton in Hin as ->. simpl. lia.
  - change (last (m' :: m2 :: log)) with (last (m2 :: log)). fold (log_seq (m2 :: log)).
    apply elem_of_cons in Hin as [-> | Hin]; [| destruct (IH _ _ Hasc Hin); lia].
    destruct (IH _ _ Hasc (list_elem_of_here m2 log)). lia.
Qed.

Lemma ascending_snoc lo log m :
  ascending lo log → lo < jm_seq m → (∀ m', m' ∈ log → jm_seq m' < jm_seq m) → ascending lo (log ++ [m]).
Proof.
  revert lo. induction log as [|m' log IH]; simpl; intros lo Hasc Hlo Hall; [done |].
  destruct Hasc as [? Hasc]. split; [done |]. apply IH; [done | apply Hall; left | intros; apply Hall; by right].
Qed.

Lemma increasing_weaken lo lo' (h : list (Z * DocumentEvent)) :
  lo ≤ lo' → increasing lo' h → increasing lo h.
Proof. destruct h as [|[q e] h]; simpl; [done |]. intros ? [? ?]. split; [lia | done]. Qed.

Lemma ascending_increasing lo log subject :
  ascending lo log → increasing lo (omap decoded (subject_log subject log)).
Proof.
  revert lo. induction log as [|m log IH]; intros lo Hasc; [done |]. destruct Hasc as [Hlo Hasc].
  specialize (IH _ Hasc). unfold subject_log in *. rewrite filter_cons. case_decide.
  - cbn [omap list_omap]. unfold decoded at 1. destruct (event_from_slice (jm_payload m)) as [e|].
    + done.
    + eapply increasing_weaken; [| exact IH]. lia.
  - eapply increasing_weaken; [| exact IH]. lia.
Qed.

Lemma subject_sound subject log : Forall sound log → Forall sound (subject_log subject log).
Proof.
  unfold subject_log. rewrite !Forall_forall. intros H m Hm. apply H. by apply list_elem_of_filter in Hm as [_ ?].
Qed.

Lemma decoded_last log :
  Forall sound log → last (omap decoded log) = last log ≫= decoded.
Proof.
  intros Hs. induction log as [|m log _] using rev_ind; [done |].
  rewrite Forall_app, Forall_singleton in Hs. destruct Hs as [_ (e & He & _)].
  rewrite omap_app, last_snoc. cbn. unfold decoded. rewrite He. by rewrite last_snoc.
Qed.

Lemma history_last w t d :
  js_ok w → last (js_history w t d) = last (subject_log (event_subject t d) (jw_log w)) ≫= decoded.
Proof. intros Hok. apply decoded_last, subject_sound, jk_sound, Hok. Qed.

Lemma sound_decoded w subject m :
  js_ok w → last (subject_log subject (jw_log w)) = Some m →
  ∃ e, event_from_slice (jm_payload m) = Ok e ∧ decoded m = Some (jm_seq m, e).
Proof.
  intros Hok Hl. pose proof (subject_sound subject _ (jk_sound _ Hok)) as Hs.
  rewrite Forall_forall in Hs. apply last_Some in Hl as [l' Hl].
  destruct (Hs m) as (e & He & _); [rewrite Hl; set_solver |].
  exists e. unfold decoded. by rewrite He.
Qed.

Lemma subject_seq_le subject log : ascending 0 log → log_seq (subject_log subject log) ≤ log_seq log.
Proof.
  intros Hasc. unfold log_seq at 1. destruct (last (subject_log subject log)) as [m|] eqn:Hl; cbn.
  - assert (m ∈ subject_log subject log) as Hm by (apply last_Some in Hl as [l' ->]; set_solver).
    apply list_elem_of_filter in Hm as [_ Hm]. by apply (ascending_le 0).
  - destruct log as [|m log]; [done |].
    pose proof (ascending_le 0 (m :: log) m Hasc (list_elem_of_here _ _)). lia.
Qed.

Lemma history_seq w t d :
  js_ok w → last_seq (js_history w t d) = log_seq (subject_log (event_subject t d) (jw_log w)).
Proof.
  intros Hok. unfold last_seq, log_seq. rewrite history_last by done.
  destruct (last (subject_log _ _)) as [m|] eqn:Hl; [| done].
  destruct (sound_decoded _ _ _ Hok Hl) as (e & _ & He). cbn. by rewrite He.
Qed.

(** ** The contract *)

Section landing.
Context (event : DocumentEvent) (payload : bytes) (w : JsWorld) (q : Z).
Abbreviation key_t := (ev_tenant_id event).
Abbreviation key_d := (ev_document_id event).
Abbreviation w1 := (js_landed q (event_subject key_t key_d) (ev_event_id event) payload w).
Hypothesis Hok : js_ok w.
Hypothesis Hd : js_admits key_t key_d.
Hypothesis Hpayload : event_to_vec event = Ok payload.
Hypothesis Hq : log_seq (jw_log w) < q.
Hypothesis Hnew : jw_window w !! ev_event_id event = None.

Lemma landed_history t d :
  js_admits t d →
  js_history w1 t d = js_history w t d ++
    (if decide ((key_t, key_d) = (t, d)) then [(q, event_reread event)] else []).
Proof using Hd Hpayload.
  intros Htd. unfold js_history, js_landed, subject_log. cbn [jw_log].
  rewrite filter_app, omap_app. f_equal. rewrite filter_cons, filter_nil.
  case_decide as Hs; unfold on_subject in Hs; cbn [jm_subject] in Hs.
  - apply subject_inj in Hs as [H1 H2]; [| done..]. rewrite decide_True by congruence.
    cbn. unfold decoded. cbn [jm_payload jm_seq]. by rewrite (event_json_roundtrip _ _ Hpayload).
  - rewrite decide_False; [done |]. intros [= <- <-]. by apply Hs.
Qed.

Lemma landed_ok : js_ok w1.
Proof using All.
  assert (∀ m, m ∈ jw_log w → jm_id m = ev_event_id event → jm_time m + DUPLICATE_WINDOW ≤ jw_now w) as Hold.
  { intros m Hm Hid. destruct (decide (jw_now w < jm_time m + DUPLICATE_WINDOW)) as [Hlt | ?]; [| lia].
    apply (jk_window _ Hok _ Hm) in Hlt. congruence. }
  assert (∀ m, m ∈ jw_log w → jm_seq m < q) as Hseq.
  { intros m Hm. pose proof (ascending_le _ _ _ (jk_ascending _ Hok) Hm). lia. }
  constructor; cbn [jw_log jw_window jw_now js_landed].
  - apply ascending_snoc; [apply Hok | | done]. cbn.
    destruct (jw_log w) as [|m log] eqn:Hlog; [done |].
    assert (m ∈ m :: log) as Hm by apply list_elem_of_here.
    pose proof (jk_ascending _ Hok) as Hasc. rewrite Hlog in Hasc.
    pose proof (ascending_le _ _ _ Hasc Hm). specialize (Hseq _ Hm). lia.
  - apply Forall_app. split; [apply Hok |]. apply Forall_singleton. exists (event_reread event).
    destruct (event_reread_keeps event) as (Ht & Hdd & _). rewrite Ht, Hdd. cbn.
    split_and!; [by apply event_json_roundtrip | exact Hd | done].
  - intros m. rewrite elem_of_app, list_elem_of_singleton. intros [Hm | ->]; [by apply Hok | cbn; lia].
  - intros m. rewrite elem_of_app, list_elem_of_singleton. intros [Hm | ->] Hw; cbn in *.
    + rewrite lookup_insert_ne; [by apply Hok |]. intros Heq. symmetry in Heq.
      specialize (Hold _ Hm Heq). lia.
    + by rewrite lookup_insert_eq.
  - intros i j m1 m2 Hij H1 H2 Hid. apply lookup_app_Some in H2 as [H2 | [Hlen H2]].
    + assert (jw_log w !! i = Some m1) as H1'.
      { apply lookup_lt_Some in H2. rewrite lookup_app_l in H1 by lia. done. }
      by apply (jk_once _ Hok i j m1 m2).
    + apply list_lookup_singleton_Some in H2 as [H2 <-]. cbn in *.
      rewrite lookup_app_l in H1 by lia. apply Hold; [by eapply list_elem_of_lookup_2 | done].
Qed.
End landing.

Section laws.
Variable legal : list (Z * DocumentEvent) → DocumentEvent → Prop.

Abbreviation grown := (grown js_history js_ok js_admits legal).
Abbreviation keeps := (keeps js_history js_ok js_admits legal).
Abbreviation jsrg := (rg js_step grown).

Lemma js_env_grown w w' : js_env w w' → grown w w'.
Proof.
  intros H. destruct H as [log window window' now now' Hnow Hsub Hforget]. intros Hok. split.
  - destruct Hok as [Ha Hs Hp Hw Ho]. cbn in *. constructor; cbn; [done | done | | | done].
    + intros m Hm. specialize (Hp m Hm). lia.
    + intros m Hm Hlt. assert (now < jm_time m + DUPLICATE_WINDOW) as Hlt' by lia.
      specialize (Hw m Hm Hlt'). destruct (window' !! jm_id m) as [q|] eqn:Hq.
      * by rewrite (lookup_weaken _ _ _ _ Hq Hsub) in Hw.
      * specialize (Hforget _ _ _ Hw Hq Hm eq_refl). lia.
  - intros t d _. exists []. by rewrite app_nil_r.
Qed.

(** A call that leaves the stream as it is. *)
Lemma js_read_rg {A B} (e : JsE A) (f : A → prog AdapterE B) (P : JsWorld → Prop) (φ : A → JsWorld → Prop) R :
  keeps P →
  (∀ w w' x, P w → js_ok w → js_call_step _ e w w' x → w' = w ∧ φ x w) →
  (∀ x w w', js_ok w → φ x w → grown w w' → φ x w') →
  (∀ x, jsrg (f x) (λ w, P w ∧ φ x w) R) →
  jsrg (prog_bind (js e) f) P R.
Proof.
  intros HP He Hst Hf. eapply (rg_call _ _ _ _ _ (λ x w, P w ∧ φ x w)); [| exact Hf].
  intros w w' x Hw Hx. destruct (He w w' x Hw (proj2 HP w Hw) Hx) as [-> Hφ].
  split_and!; [apply grown_refl | | done | done].
  apply (keeps_and _ _ _ _ P (φ x)); [done |]. apply Hst.
Qed.

Lemma js_append_law event expect P :
  keeps P → js_admits (ev_tenant_id event) (ev_document_id event) →
  (∀ w, P w → last_seq (js_history w (ev_tenant_id event) (ev_document_id event)) = expected expect →
     legal (js_history w (ev_tenant_id event) (ev_document_id event)) (event_reread event)) →
  jsrg (js_append event expect) P (λ r w, P w ∧
    match r with
    | Ok a => ap_duplicate a = false → ap_version a = ev_version event ∧
                placed js_history w event (ap_stream_seq a) expect
    | Err _ => True
    end).
Proof.
  intros HP Hd Hlegal. unfold js_append.
  destruct (event_to_vec event) as [payload|error] eqn:Hpayload; [| by intros w Hw].
  eapply (rg_call _ _ _ _ _ (λ x w, P w ∧
    match x with Ok a => pa_duplicate a = false → placed js_history w event (pa_sequence a) expect | Err _ => True end)).
  2: { intros [a|e] w [Hw Ha]; cbn; [| done]. split; [done |]. intros Hdup. split; [done | by apply Ha]. }
  intros w w' x Hw Hx.
  pose proof (proj2 HP w Hw) as Hok.
  assert (stable grown (λ w, P w ∧
    match x with Ok a => pa_duplicate a = false → placed js_history w event (pa_sequence a) expect | Err _ => True end)) as Hk.
  { apply (keeps_and _ _ _ _ P (λ w, match x with Ok a => _ → placed _ w _ _ _ | Err _ => True end)); [done |].
    intros w1 w2 Hw1 H HG. destruct x; [| done]. intros Hdup.
    eapply (placed_grown js_history js_ok js_admits legal); [done | done | by apply H | done]. }
  cbn in Hx. destruct (jw_window w !! ev_event_id event) as [q|] eqn:Hwin.
  { destruct Hx as [-> Hx]. split_and!; [apply grown_refl | exact Hk | done |].
    by destruct Hx as [-> | [m ->]]. }
  case_bool_decide as Hexp.
  2: { destruct Hx as (-> & kind & m & ->). split_and!; [apply grown_refl | exact Hk | done | done]. }
  destruct Hx as (q & Hq & Hx).
  assert (last_seq (js_history w (ev_tenant_id event) (ev_document_id event)) = expected expect) as Hlast
    by (by rewrite history_seq).
  set (w1 := js_landed q _ _ payload w) in *.
  assert (grown w w1) as HG.
  { intros _. split; [by apply landed_ok |]. intros t d Htd. unfold w1. rewrite landed_history by done.
    eexists. split; [reflexivity |]. case_decide as Hkey; [| done]. simplify_eq.
    split_and!; [| by apply Hlegal | done]. rewrite history_seq by done.
    pose proof (subject_seq_le (event_subject (ev_tenant_id event) (ev_document_id event)) _
      (jk_ascending _ Hok)). lia. }
  destruct Hx as [[-> ->] | (m & -> & [-> | ->])].
  - split_and!; [done | exact Hk | by eapply (proj1 HP) |]. intros _.
    exists (js_history w (ev_tenant_id event) (ev_document_id event)). split; [| done].
    unfold w1. rewrite landed_history, decide_True by done. done.
  - split_and!; [apply grown_refl | exact Hk | done | done].
  - split_and!; [done | exact Hk | by eapply (proj1 HP) | done].
Qed.

Lemma js_last_law t d P :
  keeps P → js_admits t d →
  jsrg (js_last t d) P (λ r w, P w ∧
    match r with Ok o => was js_history w t d (λ h, head_of h = o) | Err _ => True end).
Proof.
  intros HP Hd. unfold js_last.
  apply (js_read_rg _ _ P (λ x w, match x with
    | Ok (seq, payload) => was js_history w t d (λ h, ∃ e, event_from_slice payload = Ok e ∧ head_of h = Some (ev_version e, seq))
    | Err (DirectGetNotFound, _) => was js_history w t d (λ h, head_of h = None)
    | Err (DirectGetOther, _) => True
    end)); [done | | |].
  - intros w w' x _ Hok [-> Hx]. split; [done |]. destruct Hx as [-> | [m ->]]; [| done].
    pose proof (history_last w t d Hok) as Hh.
    destruct (last (subject_log _ _)) as [m|] eqn:Hl.
    + destruct (sound_decoded _ _ _ Hok Hl) as (e & He & Hdec). exists (js_history w t d).
      split; [done |]. exists e. split; [done |]. unfold head_of. rewrite Hh. cbn. by rewrite Hdec.
    + exists (js_history w t d). split; [done |]. unfold head_of. by rewrite Hh.
  - intros [[seq payload]|[[] m]] w w' Hok H HG; [..| done];
      by eapply (was_grown js_history js_ok js_admits legal).
  - intros [[seq payload]|[[] m]]; cbn.
    + destruct (event_from_slice payload) as [e|] eqn:He; intros w [Hw (h & Hh & e' & He' & Hhead)];
        [| done]. split; [done |]. exists h. split; [done | congruence].
    + by intros w [? ?].
    + by intros w [? ?].
Qed.

(** The message after a part of the history that was read is the next one of it. *)
Lemma next_extends w t d h m :
  js_ok w → h `prefix_of` js_history w t d →
  next_message (event_subject t d) (last_seq h) w = Some m →
  ∃ e, event_from_slice (jm_payload m) = Ok e ∧ h ++ [(jm_seq m, e)] `prefix_of` js_history w t d.
Proof.
  intros Hok Hh Hm. unfold next_message in Hm. unfold js_history in *.
  pose proof (subject_sound (event_subject t d) _ (jk_sound _ Hok)) as Hs.
  pose proof (ascending_increasing 0 _ (event_subject t d) (jk_ascending _ Hok)) as Hinc.
  set (log := subject_log _ _) in *. clearbody log. clear Hok w t d.
  destruct Hh as [rest Hrest]. revert h rest Hrest Hm. 
  assert (∀ lo h rest, increasing lo (omap decoded log) → omap decoded log = h ++ rest →
    List.find (λ m, default lo (fst <$> last h) <? jm_seq m) log = Some m →
    ∃ e, event_from_slice (jm_payload m) = Ok e ∧ h ++ [(jm_seq m, e)] `prefix_of` omap decoded log) as Hgen.
  2: { intros h rest Hrest Hm. by eapply (Hgen 0). }
  clear Hinc. induction Hs as [|m0 log (e0 & He0 & _) Hs IH]; intros lo h rest Hinc Hrest Hm; [done |].
  cbn [omap list_omap] in *. assert (decoded m0 = Some (jm_seq m0, e0)) as Hd0 by (unfold decoded; by rewrite He0).
  rewrite Hd0 in *. destruct Hinc as [Hlo Hinc]. destruct h as [|p h].
  - cbn in Hm. destruct (lo <? jm_seq m0) eqn:Hlt; [| lia]. simplify_eq.
    exists e0. split; [done |]. cbn. by apply prefix_cons, prefix_nil.
  - cbn [app] in Hrest. injection Hrest as <- Hrest.
    assert (default lo (fst <$> last ((jm_seq m0, e0) :: h)) = default (jm_seq m0) (fst <$> last h)) as Hdef
      by (rewrite last_cons; by destruct (last h)).
    rewrite Hdef in Hm. cbn [List.find] in Hm.
    destruct (default (jm_seq m0) (fst <$> last h) <? jm_seq m0) eqn:Hlt.
    + exfalso. assert (jm_seq m0 ≤ default (jm_seq m0) (fst <$> last h)); [| lia].
      destruct (last h) as [[q e]|] eqn:Hl; cbn; [| lia]. apply last_in_stream in Hl.
      pose proof (increasing_bounds (jm_seq m0) _ q e Hinc) as Hb. rewrite Hrest in Hb.
      specialize (Hb ltac:(by apply elem_of_app; left)). lia.
    + destruct (IH _ h rest Hinc Hrest Hm) as (e & He & Hpre). exists e. split; [done |].
      cbn. by apply prefix_cons.
Qed.

Lemma read_loop_law missing t d h P :
  keeps P → js_admits t d → (∀ w, P w → h `prefix_of` js_history w t d) →
  jsrg (read_loop missing (event_subject t d) h) P (λ r w, P w ∧
    match r with Ok h => h `prefix_of` js_history w t d | Err _ => True end).
Proof.
  revert h P. induction missing as [|missing IH]; intros h P HP Hd Hh; cbn [read_loop].
  { intros w Hw. split; [done | by apply Hh]. }
  apply (js_read_rg _ _ P (λ x w, match x with
    | Some (Ok (Ok seq, payload)) =>
        ∃ e, event_from_slice payload = Ok e ∧ h ++ [(seq, e)] `prefix_of` js_history w t d
    | _ => True
    end)); [done | | |].
  - intros w w' x Hw Hok [-> Hx]. split; [done |]. destruct x as [[[[seq|] payload]|]|]; try done.
    destruct Hx as (m & Hm & -> & [[= ->] | [? ?]]); [| done]. apply next_extends; [done | by apply Hh | done].
  - intros x w w' Hok H HG. destruct x as [[[[seq|] payload]|]|]; try done.
    destruct H as (e & He & Hpre). exists e. split; [done |]. etrans; [exact Hpre |].
    by eapply (grown_prefix js_history js_ok js_admits legal).
  - intros [[[[seq|] payload]|]|]; [| by intros w [? _]..|].
    + apply (rg_pure _ _ (∃ e, event_from_slice payload = Ok e)); [by intros w [_ (e & He & _)]; exists e |].
      intros [e He]. rewrite He.
      pose proof (IH (h ++ [(seq, e)]) (λ w, P w ∧ h ++ [(seq, e)] `prefix_of` js_history w t d)) as Hnext.
      eapply rg_weaken; [apply Hnext | |].
      * apply keeps_and; [done |]. intros w w' Hok H HG. etrans; [exact H |].
        by eapply (grown_prefix js_history js_ok js_admits legal).
      * done.
      * by intros w [_ ?].
      * intros w [Hw (e' & He' & Hpre)]. split; [done |]. congruence.
      * intros r w [[Hw _] H]. by split.
    + intros w [Hw _]. split; [done | by apply Hh].
Qed.

Lemma js_read_law t d P :
  keeps P → js_admits t d →
  jsrg (js_read_stream t d) P (λ r w, P w ∧
    match r with Ok h => h `prefix_of` js_history w t d | Err _ => True end).
Proof.
  intros HP Hd. unfold js_read_stream.
  apply (js_read_rg _ _ P (λ _ _, True)); [done | | done |].
  { by intros w w' x _ _ [-> _]. }
  intros [n|e]; [| by intros w [? _]].
  destruct (Z.min n MAX_STREAM_READ =? 0); [intros w [? _]; split; [done | apply prefix_nil] |].
  eapply rg_pre; [by intros w [Hw _]; exact Hw |].
  apply (js_read_rg _ _ P (λ _ _, True)); [done | | done |].
  { by intros w w' x _ _ ->. }
  intros [u|e]; [| by intros w [? _]].
  eapply rg_pre; [by intros w [Hw _]; exact Hw |].
  apply read_loop_law; [done | done |]. intros w _. apply prefix_nil.
Qed.

(** C32: the JetStream adapter keeps the contract of the trait for every document
    whose names are subject tokens, whatever the server drops, delays or forgets
    outside the window of duplicates, and whatever the other writers do. *)
Theorem jetstream_is_event_store : event_store_laws js_step js_history js_ok js_admits legal.
Proof.
  split.
  - apply event_reread_keeps.
  - intros w t d Hok _. apply ascending_increasing, Hok.
  - apply js_append_law.
  - apply js_last_law.
  - apply js_read_law.
Qed.
End laws.

(** ** A server that does not fail *)

Definition js_healthy (elsewhere : ∀ X, PortE X → X) : handler AdapterE JsWorld := λ X e w,
  match e in AdapterE X return JsWorld * X with
  | Elsewhere e => (w, elsewhere _ e)
  | Js e =>
      match e in JsE X return JsWorld * X with
      | JsPublish subject id expected payload =>
          match jw_window w !! id with
          | Some q => (w, Ok (mkAck q true))
          | None =>
              if bool_decide (log_seq (subject_log subject (jw_log w)) = expected) then
                let q := log_seq (jw_log w) + 1 in (js_landed q subject id payload w, Ok (mkAck q false))
              else (w, Err (WrongLastSequence, "wrong last sequence"))
          end
      | DirectGetLast subject =>
          (w, match last (subject_log subject (jw_log w)) with
              | Some m => Ok (jm_seq m, jm_payload m)
              | None => Err (DirectGetNotFound, "no message found")
              end)
      | CreateConsumer subject => (w, Ok (Z.of_nat (length (subject_log subject (jw_log w)))))
      | OpenMessages => (w, Ok tt)
      | NextMessage subject after =>
          (w, (λ m, Ok (Ok (jm_seq m), jm_payload m)) <$> next_message subject after w)
      end
  end.

Lemma js_healthy_step elsewhere X (e : AdapterE X) w w' x :
  js_healthy elsewhere X e w = (w', x) → js_step X e w w' x.
Proof.
  destruct e as [A e|A e]; [destruct e|]; simpl; intros H; repeat case_match; simplify_eq; eauto 10.
  - eexists. split; [| left; done]. lia.
  - unfold next_message in *. destruct (List.find _ _) as [m|]; simplify_eq/=. eauto 10.
Qed.

Lemma history_length w t d :
  js_ok w → length (js_history w t d) = length (subject_log (event_subject t d) (jw_log w)).
Proof.
  intros Hok. pose proof (subject_sound (event_subject t d) _ (jk_sound _ Hok)) as Hs.
  unfold js_history. induction Hs as [|m log (e & He & _) Hs IH]; [done |].
  cbn [omap list_omap]. unfold decoded at 1. rewrite He. cbn. by rewrite IH.
Qed.

(** As long as the history goes on, there is a next message. *)
Lemma next_exists w t d h p rest :
  js_ok w → js_history w t d = h ++ p :: rest →
  ∃ m, next_message (event_subject t d) (last_seq h) w = Some m.
Proof.
  intros Hok Hh. pose proof (ascending_increasing 0 _ (event_subject t d) (jk_ascending _ Hok)) as Hinc.
  fold (js_history w t d) in Hinc. rewrite Hh in Hinc.
  assert (last_seq h < p.1) as Hlt.
  { rewrite cons_middle, (assoc_L app) in Hinc. apply increasing_prefix in Hinc.
    destruct p as [q e]. destruct (decide (h = [])) as [-> | Hne]; [by destruct Hinc |].
    pose proof (increasing_app_last 0 h (q, e) [] Hinc Hne). by rewrite last_seq_snoc in *. }
  unfold next_message. destruct (List.find _ _) as [m|] eqn:Hf; [by exists m | exfalso].
  assert (p ∈ js_history w t d) as Hp by (rewrite Hh; set_solver).
  unfold js_history in Hp. apply list_elem_of_omap in Hp as (m & Hm & Hdec).
  apply find_none with (x := m) in Hf; [| by apply list_elem_of_In].
  unfold decoded in Hdec. destruct (event_from_slice (jm_payload m)); simplify_eq/=. lia.
Qed.

Lemma run_read_loop elsewhere w t d n h :
  js_ok w → h `prefix_of` js_history w t d → (length h + n ≤ length (js_history w t d))%nat →
  run (js_healthy elsewhere) (read_loop n (event_subject t d) h) w =
    (w, Ok (take (length h + n) (js_history w t d))).
Proof.
  intros Hok. revert h. induction n as [|n IH]; intros h Hpre Hlen; cbn [read_loop].
  - rewrite Nat.add_0_r. destruct Hpre as [rest ->]. cbn. by rewrite take_app_length.
  - destruct Hpre as [rest Hrest]. destruct rest as [|p rest].
    { rewrite Hrest, app_nil_r in Hlen. lia. }
    destruct (next_exists w t d h p rest Hok Hrest) as [m Hm].
    destruct (next_extends w t d h m Hok ltac:(by eexists) Hm) as (e & He & Hpre).
    unfold js. rewrite run_bind. cbn [call run js_healthy]. rewrite Hm. cbn [fmap option_fmap option_map].
    rewrite He. rewrite IH; [| done | rewrite length_app; cbn; lia].
    rewrite length_app. cbn [length]. by rewrite <- Nat.add_assoc.
Qed.

(** Fact: on a server that does not fail, [read_stream] answers the history of the
    document up to its first ten thousand events: it never skips one, and a
    longer history is cut. *)
Theorem read_stream_is_capped elsewhere w t d :
  js_ok w → js_admits t d →
  run (js_healthy elsewhere) (js_read_stream t d) w =
    (w, Ok (take (Z.to_nat MAX_STREAM_READ) (js_history w t d))).
Proof.
  intros Hok Hd. unfold js_read_stream, js. rewrite run_bind. cbn [call run js_healthy].
  rewrite <- history_length by done. set (h := js_history w t d).
  destruct (Z.min (Z.of_nat (length h)) MAX_STREAM_READ =? 0) eqn:Hz.
  - cbn. destruct h as [|p h0] eqn:Hh; [by rewrite take_nil |].
    apply Z.eqb_eq in Hz. cbn [length] in Hz. unfold MAX_STREAM_READ in Hz. lia.
  - rewrite run_bind. cbn [call run js_healthy].
    rewrite (run_read_loop elsewhere w t d _ [] Hok); [| apply prefix_nil | cbn [length]; fold h; lia].
    do 2 f_equal. cbn [length]. rewrite Nat.add_0_l. fold h.
    destruct (Z.le_gt_cases (Z.of_nat (length h)) MAX_STREAM_READ) as [Hle|Hgt].
    + rewrite !take_ge by lia. done.
    + f_equal. lia.
Qed.
End adapter.

(** ** Witnesses *)

#[local] Existing Instances Demo.json Demo.crc.

Module JetStreamDemo.
Definition build (v : Z) : DocumentEvent :=
  mkEvent 1 "e9" "acme" "doc-1" (User "user-2") v 500
    (PDocumentMetadataChanged (mkPatch (Some "Report") None None None)).

(** A codec of two events. *)
Definition events : list DocumentEvent := [FoldDemo.created; build 2].

Definition to_vec (e : DocumentEvent) : result bytes string :=
  match list_find (λ e', e' = e) events with
  | Some (i, _) => Ok (replicate i Byte.x00)
  | None => Err "not one of the events"
  end.
Definition from_vec (b : bytes) : result DocumentEvent string := ok_or (events !! length b) "not an event".

Lemma event_bytes e b : to_vec e = Ok b → from_vec b = Ok e.
Proof.
  unfold to_vec, from_vec. destruct (list_find _ events) as [[i e']|] eqn:Hf; [| done].
  intros [= <-]. apply list_find_Some in Hf as (Hi & -> & _). by rewrite length_replicate, Hi.
Qed.

#[export] Instance codec : EventJson := {|
  event_to_vec := to_vec;
  event_from_slice := from_vec;
  event_reread e := e;
  event_json_roundtrip := event_bytes;
  event_reread_keeps e := conj eq_refl (conj eq_refl eq_refl);
|}.

Definition empty : JsWorld := mkJsWorld [] ∅ 0.
Definition elsewhere (X : Type) (e : PortE X) : X := (@mem Demo.json Demo.hex Demo.sha2 X e MemoryDemo.empty).2.
Definition server : handler AdapterE JsWorld := js_healthy elsewhere.
Definition request (r : Request) : prog AdapterE (result Appended AppendError) := interp adapter_ports (appending r).
Definition created : JsWorld * result Appended AppendError := run server (request (Creation FoldDemo.created)) empty.
Definition updated : JsWorld * result Appended AppendError :=
  run server (request (Update "acme" "doc-1" (Some 1) build)) created.1.

Lemma admits : js_admits "acme" "doc-1".
Proof. done. Qed.

Lemma empty_ok : js_ok empty.
Proof. constructor; cbn; try done; by intros ? ?%not_elem_of_nil. Qed.

Lemma updated_ok : js_ok updated.1.
Proof.
  assert (created.1 = js_landed 1 (event_subject "acme" "doc-1") (ev_event_id FoldDemo.created) [] empty) as Hc
    by (vm_compute; reflexivity).
  assert (updated.1 = js_landed 2 (event_subject "acme" "doc-1") "e9" [Byte.x00] created.1) as Hu
    by (vm_compute; reflexivity).
  assert (js_ok created.1) as Hok.
  { rewrite Hc. by apply (landed_ok FoldDemo.created [] empty 1 empty_ok admits). }
  rewrite Hu. apply (landed_ok (build 2) [Byte.x00] created.1 2 Hok admits); by vm_compute.
Qed.
End JetStreamDemo.

#[local] Existing Instance JetStreamDemo.codec.

Lemma jetstream_is_event_store_witness :
  JetStreamDemo.created.2 = Ok (mkAppended 1 1 false) ∧
  JetStreamDemo.updated.2 = Ok (mkAppended 2 2 false) ∧
  event_store_laws js_step js_history js_ok js_admits (λ _ _, True) ∧
  increasing 0 (js_history JetStreamDemo.updated.1 "acme" "doc-1").
Proof.
  split; [vm_compute; reflexivity |]. split; [vm_compute; reflexivity |].
  split; [exact (jetstream_is_event_store (λ _ _, True)) |].
  exact (law_increasing _ _ _ _ _ (jetstream_is_event_store (λ _ _, True)) _ _ _
           JetStreamDemo.updated_ok JetStreamDemo.admits).
Defined.

Lemma read_stream_is_capped_witness :
  run JetStreamDemo.server (js_read_stream "acme" "doc-1") JetStreamDemo.updated.1 =
    (JetStreamDemo.updated.1, Ok [(1, FoldDemo.created); (2, JetStreamDemo.build 2)]).
Proof.
  etrans; [exact (read_stream_is_capped JetStreamDemo.elsewhere _ _ _ JetStreamDemo.updated_ok JetStreamDemo.admits) |].
  vm_compute. reflexivity.
Defined.
