(* ===== verification/Migrate.v ===== *)
(** * The migration runner

    crates/document-adapters/src/migrate.rs: every service that starts applies
    the embedded migrations under an advisory lock of Postgres.  [MigE] is what
    the runner asks of its connection and [mig_step] what Postgres documents of
    it: an advisory lock belongs to the session and is lost with it, a transaction
    commits as a whole or not at all, and a failed call may have ended the
    connection.  Connection [c] is the one runner [c] acquired. *)

From S2P Require Import Prelude Text.

Local Open Scope Z_scope.

(** A file of the embedded directory: its path, its name, whether its extension
    is [sql], its text. *)
Record File : Type := mkFile {
  mf_path : string;
  mf_file_name : option string;
  mf_is_sql : bool;
  mf_contents_utf8 : option string;
}.

Inductive MigrateError : Type :=
| Unreadable (file : string)
| Failed (file source : string)
| Database (source : string).

Definition migrate_error_to_string (e : MigrateError) : string :=
  match e with
  | Unreadable file => "could not read embedded migration " +:+ file
  | Failed file source => "migration " +:+ file +:+ " failed: " +:+ source
  | Database source => "database error: " +:+ source
  end.

Inductive MigE : Type → Type :=
| MAcquire : MigE unit
| MLock : MigE unit
| MUnlock : MigE unit
| MCreateTable : MigE unit
| MVersions : MigE (list string)
| MBegin : MigE unit
| MSql (sql : string) : MigE unit
| MInsert (version : string) : MigE unit
| MCommit : MigE unit.

(** A call on connection [c]. *)
Inductive OnConn : Type → Type := On (c : nat) {A} (e : MigE A) : OnConn (result A string).

Section runner.
Context (migrations : list File) (c : nat).

Definition on {A} (e : MigE A) : prog OnConn (result A string) := call (On c e).

(** [?] on a call, with the [From] of [MigrateError]. *)
Definition db {A} (e : MigE A) : prog OnConn (result A MigrateError) :=
  let* r := on e in Ret (result_map_err Database r).

Definition path_le (a b : File) : Prop := String.leb (mf_path a) (mf_path b) = true.
#[export] Instance path_le_dec a b : Decision (path_le a b).
Proof. unfold path_le. solve_decision. Defined.

(** [pending]: the SQL files, sorted by path. *)
Definition pending : list File := merge_sort path_le (List.filter mf_is_sql migrations).

(** One pending file in its transaction. *)
Definition apply_file (version sql : string) : prog OnConn (result unit MigrateError) :=
  let*? _ := db MBegin in
  let* r := on (MSql sql) in
  match r with
  | Err source => Ret (Err (Failed version source))
  | Ok _ =>
      let*? _ := db (MInsert version) in
      db MCommit
  end.

(** The [for] of [apply_all]. *)
Fixpoint apply_files (applied : list string) (files : list File) (count : Z)
  : prog OnConn (result Z MigrateError) :=
  match files with
  | [] => Ret (Ok count)
  | file :: files =>
      match mf_file_name file with
      | None => Ret (Err (Unreadable (mf_path file)))
      | Some version =>
          if bool_decide (version ∈ applied) then apply_files applied files count
          else
            match mf_contents_utf8 file with
            | None => Ret (Err (Unreadable version))
            | Some sql =>
                let*? _ := apply_file version sql in
                apply_files applied files (count + 1)
            end
      end
  end.

Definition apply_all : prog OnConn (result Z MigrateError) :=
  let*? _ := db MCreateTable in
  let*? applied := db MVersions in
  apply_files applied pending 0.

(** [run]; the failure of the unlock is logged. *)
Definition migrate : prog OnConn (result Z MigrateError) :=
  let*? _ := db MAcquire in
  let*? _ := db MLock in
  let* result := apply_all in
  let* _ := on MUnlock in
  Ret result.
End runner.

(** ** Postgres *)

(** An open transaction: the scripts it ran and the versions it inserted. *)
Record Tx : Type := mkTx {
  tx_ran : list string;
  tx_versions : list string;
}.

(** The holder of the lock, the live connections, their transactions, and what
    was committed, in order. *)
Record MigWorld : Type := mkMig {
  mw_lock : option nat;
  mw_alive : gset nat;
  mw_tx : gmap nat Tx;
  mw_ran : list string;
  mw_versions : list string;
}.

(** The end of a connection, and of its lock and transaction with it. *)
Definition dead (c : nat) (w : MigWorld) : MigWorld :=
  mkMig (if bool_decide (mw_lock w = Some c) then None else mw_lock w) (mw_alive w ∖ {[c]})
    (delete c (mw_tx w)) (mw_ran w) (mw_versions w).

Definition set_tx (c : nat) (tx : Tx) (w : MigWorld) : MigWorld :=
  mkMig (mw_lock w) (mw_alive w) (<[c := tx]> (mw_tx w)) (mw_ran w) (mw_versions w).

Definition committed (c : nat) (tx : Tx) (w : MigWorld) : MigWorld :=
  mkMig (mw_lock w) (mw_alive w) (delete c (mw_tx w)) (mw_ran w ++ tx_ran tx) (mw_versions w ++ tx_versions tx).

Definition set_lock (o : option nat) (w : MigWorld) : MigWorld :=
  mkMig o (mw_alive w) (mw_tx w) (mw_ran w) (mw_versions w).

(** A call that Postgres carries out on a live connection. *)
Definition carried {A} (c : nat) (w w' : MigWorld) (e : MigE A) : A → Prop :=
  match e in MigE A return A → Prop with
  | MAcquire => λ _, False
  | MLock => λ _, (mw_lock w = None ∨ mw_lock w = Some c) ∧ w' = set_lock (Some c) w
  | MUnlock => λ _, w' = if bool_decide (mw_lock w = Some c) then set_lock None w else w
  | MCreateTable => λ _, w' = w
  | MVersions => λ x, w' = w ∧ x = mw_versions w
  | MBegin => λ _, w' = set_tx c (mkTx [] []) w
  | MSql sql => λ _, ∃ tx, mw_tx w !! c = Some tx ∧
      w' = set_tx c (mkTx (tx_ran tx ++ [sql]) (tx_versions tx)) w
  | MInsert version => λ _, ∃ tx, mw_tx w !! c = Some tx ∧ version ∉ mw_versions w ∧
      w' = set_tx c (mkTx (tx_ran tx) (tx_versions tx ++ [version])) w
  | MCommit => λ _, ∃ tx, mw_tx w !! c = Some tx ∧ w' = committed c tx w
  end.

Definition is_commit {A} (e : MigE A) : bool := match e with MCommit => true | _ => false end.

(** A failed call changed nothing, or ended the connection; a commit whose answer
    was lost with the connection may have landed. *)
Definition refused {A} (c : nat) (w w' : MigWorld) (e : MigE A) : Prop :=
  w' = w ∨ w' = dead c w ∨
  (is_commit e = true ∧ ∃ tx, mw_tx w !! c = Some tx ∧ w' = dead c (committed c tx w)).

Definition connected {A} (c : nat) (w w' : MigWorld) (e : MigE A) : Prop :=
  match e with
  | MAcquire => w' = mkMig (mw_lock w) ({[c]} ∪ mw_alive w) (mw_tx w) (mw_ran w) (mw_versions w)
  | _ => False
  end.

Definition mig_answer {A} (c : nat) (e : MigE A) (w w' : MigWorld) (x : result A string) : Prop :=
  if bool_decide (c ∈ mw_alive w)
  then match x with Ok a => carried c w w' e a | Err _ => refused c w w' e end
  else match x with Ok _ => connected c w w' e | Err _ => w' = w end.

Definition mig_step (X : Type) (e : OnConn X) (w w' : MigWorld) : X → Prop :=
  match e in OnConn X return X → Prop with On c e => mig_answer c e w w' end.

(** A connection may end at any time. *)
Inductive mig_env : MigWorld → MigWorld → Prop := conn_ends c w : mig_env w (dead c w).

(** ** The schema *)

Section schema.
Context (migrations : list File).

Abbreviation files := (pending migrations).

(** The scripts of the first [k] files were run, each once, in order. *)
Definition schema_at (k : nat) (w : MigWorld) : Prop :=
  (k ≤ length files)%nat ∧
  mf_file_name <$> take k files = Some <$> mw_versions w ∧
  mf_contents_utf8 <$> take k files = Some <$> mw_ran w.

Definition schema_ok (w : MigWorld) : Prop :=
  (∃ k, schema_at k w) ∧ (∀ c, mw_lock w = Some c → c ∈ mw_alive w).

(** What a step of others leaves of connection [c]: unless it ended, its
    transaction and its lock, and with the lock the schema. *)
Definition leaves (c : nat) (w w' : MigWorld) : Prop :=
  c ∈ mw_alive w' →
  c ∈ mw_alive w ∧ mw_tx w' !! c = mw_tx w !! c ∧
  (mw_lock w = Some c → mw_lock w' = Some c ∧ mw_ran w' = mw_ran w ∧ mw_versions w' = mw_versions w).

Definition extends (w w' : MigWorld) : Prop :=
  schema_ok w → schema_ok w' ∧ mw_versions w `prefix_of` mw_versions w' ∧ mw_ran w `prefix_of` mw_ran w'.

Definition mig_rely (c : nat) (w w' : MigWorld) : Prop := extends w w' ∧ leaves c w w'.
Definition mig_own (c : nat) (w w' : MigWorld) : Prop := extends w w' ∧ ∀ c', c' ≠ c → leaves c' w w'.

#[local] Instance extends_refl : Reflexive extends.
Proof. by intros w. Qed.
#[local] Instance extends_trans : Transitive extends.
Proof.
  intros w1 w2 w3 H1 H2 Hw. destruct (H1 Hw) as (Hw2 & ? & ?). destruct (H2 Hw2) as (? & ? & ?).
  split_and!; [done | by etrans..].
Qed.

Lemma leaves_refl c w : leaves c w w.
Proof. intros ?. done. Qed.

Lemma own_refl c w : mig_own c w w.
Proof. split; [reflexivity | intros; apply leaves_refl]. Qed.

Lemma dead_ok c w : schema_ok w → schema_ok (dead c w).
Proof.
  intros [Hk Hl]. split; [exact Hk |]. intros c'. cbn. case_bool_decide as Hc; [done |].
  intros Hl'. specialize (Hl _ Hl'). assert (c' ≠ c) by congruence. set_solver.
Qed.

Lemma dead_leaves c c' w : leaves c' w (dead c w).
Proof.
  unfold leaves, dead. cbn. intros Hc'. apply elem_of_difference in Hc' as [Hin Hne].
  split_and!; [done | rewrite lookup_delete_ne by set_solver; done |].
  intros Hl. rewrite bool_decide_false by (intros Hc; rewrite Hl in Hc; set_solver). done.
Qed.

Lemma dead_extends c w : extends w (dead c w).
Proof. intros Hw. split_and!; [by apply dead_ok | done | done]. Qed.

Lemma dead_own c w : mig_own c w (dead c w).
Proof. split; [apply dead_extends | intros; apply dead_leaves]. Qed.

Lemma schema_at_length k w : schema_at k w → length (mw_versions w) = k.
Proof.
  intros (Hk & Hv & _). apply (f_equal length) in Hv. rewrite !length_fmap, length_take in Hv. lia.
Qed.

(** At least the first [k] files were run. *)
Definition at_least (k : nat) (w : MigWorld) : Prop := ∃ k', (k ≤ k')%nat ∧ schema_at k' w.

Lemma at_least_extends k w w' : schema_ok w → at_least k w → extends w w' → at_least k w'.
Proof.
  intros Hok (k1 & Hle & H1) Hext. destruct (Hext Hok) as ([[k2 H2] _] & Hpre & _).
  exists k2. split; [| done]. apply schema_at_length in H1, H2. apply prefix_length in Hpre. lia.
Qed.

(** Runner [c] holds the lock over a schema of [k] files, unless its connection
    ended, and its transaction is [tx]. *)
Definition holds (c k : nat) (tx : option Tx) (w : MigWorld) : Prop :=
  schema_ok w ∧ at_least k w ∧
  (c ∈ mw_alive w → mw_lock w = Some c ∧ schema_at k w ∧ (tx = None ∨ mw_tx w !! c = tx)).

Lemma holds_stable c k tx : stable (mig_rely c) (holds c k tx).
Proof.
  intros w w' (Hok & Hk & Hc) [Hext Hleave]. split_and!; [by apply Hext | by eapply at_least_extends |].
  intros Halive. destruct (Hleave Halive) as (Ha & Htx & Hl). destruct (Hc Ha) as (Hlock & Hat & Ht).
  destruct (Hl Hlock) as (Hl' & Hr & Hv). split_and!; [done | | by rewrite Htx].
  unfold schema_at in *. by rewrite Hr, Hv.
Qed.

Lemma schema_stable c : stable (mig_rely c) schema_ok.
Proof. intros w w' Hok [Hext _]. by apply Hext. Qed.

Abbreviation connrg c := (owns mig_step (mig_own c) (mig_rely c)).

(** A call on the connection: carried out as the caller expects, or failed. *)
Lemma owns_on {A B} c (e : MigE A) (f : result A string → prog OnConn B) P (Q : A → MigWorld → Prop) R :
  (∀ w, P w → schema_ok w) →
  (∀ w w' x, P w → mig_answer c e w w' (Ok x) → mig_own c w w' ∧ Q x w') →
  (∀ w w', P w → c ∈ mw_alive w → refused c w w' e → mig_own c w w') →
  (∀ x, stable (mig_rely c) (Q x)) →
  (∀ x, connrg c (f (Ok x)) (Q x) R) → (∀ m, connrg c (f (Err m)) schema_ok R) →
  connrg c (prog_bind (on c e) f) P R.
Proof.
  intros HP Hok Hbad HQ Hf Herr.
  apply (owns_call _ _ _ _ _ _ (λ x, match x with Ok x => Q x | Err _ => schema_ok end)).
  2: { intros [x|m]; [apply Hf | apply Herr]. }
  intros w w' x Hw Hx. cbn in Hx. destruct x as [x|m].
  - destruct (Hok w w' x Hw Hx). split_and!; [done | apply HQ | done].
  - assert (mig_own c w w') as Hown.
    { unfold mig_answer in Hx. case_bool_decide; [by eapply Hbad | subst w'; apply own_refl]. }
    split_and!; [done | apply schema_stable |]. apply Hown. by apply HP.
Qed.

Lemma refused_own {A} c (e : MigE A) w w' : is_commit e = false → refused c w w' e → mig_own c w w'.
Proof. intros He [-> | [-> | [Hc _]]]; [apply own_refl | apply dead_own | congruence]. Qed.

Lemma own_then_dead c w w1 : mig_own c w w1 → mig_own c w (dead c w1).
Proof.
  intros [Hext Hl]. split; [etrans; [exact Hext | apply dead_extends] |].
  intros c' Hne Ha. destruct (dead_leaves c c' w1 Ha) as (Ha1 & Htx1 & Hl1).
  destruct (Hl c' Hne Ha1) as (Ha2 & Htx2 & Hl2). split_and!; [done | congruence |].
  intros Hlock. destruct (Hl2 Hlock) as (Hl3 & Hr & Hv). destruct (Hl1 Hl3) as (? & ? & ?).
  split_and!; [done | congruence | congruence].
Qed.

Definition plain {A} (e : MigE A) : bool := match e with MAcquire | MCommit => false | _ => true end.

(** A call under the lock that changes the transaction at most. *)
Lemma owns_held {A B} c k tx tx' (e : MigE A) (f : result A string → prog OnConn B) φ R :
  plain e = true →
  (∀ w w' x, holds c k tx w → c ∈ mw_alive w → carried c w w' e x →
     (w' = w ∧ tx' = tx ∨ ∃ t, w' = set_tx c t w ∧ (tx' = None ∨ tx' = Some t)) ∧ φ x) →
  (∀ x, φ x → connrg c (f (Ok x)) (holds c k tx') R) → (∀ m, connrg c (f (Err m)) schema_ok R) →
  connrg c (prog_bind (on c e) f) (holds c k tx) R.
Proof.
  intros He Hc Hf Herr.
  apply (owns_on _ _ _ _ (λ x w, holds c k tx' w ∧ φ x)).
  - by intros w [? _].
  - intros w w' x Hw Hx. unfold mig_answer in Hx. case_bool_decide as Halive.
    2: { unfold connected in Hx. by destruct e. }
    destruct (Hc w w' x Hw Halive Hx) as [Hw' Hφ].
    destruct Hw as (Hok & Hk & Hh). destruct (Hh Halive) as (Hlock & Hat & Htx).
    destruct Hw' as [[-> ->] | (t & -> & Ht)].
    + split; [apply own_refl | done].
    + split.
      * split; [by intros _; split |]. intros c' Hne Ha. cbn in *. split_and!; [done | | done].
        by rewrite lookup_insert_ne.
      * split; [| done]. split_and!; [done | done |]. intros _. split_and!; [done | done |].
        destruct Ht as [-> | ->]; [by left | right]. cbn. by rewrite lookup_insert_eq.
  - intros w w' _ _. apply refused_own. by destruct e.
  - intros x w w' [Hw Hφ] HR. split; [by eapply holds_stable | done].
  - intros x. apply (owns_pure _ _ _ (φ x)); [by intros w [_ ?] |]. intros Hφ.
    eapply owns_weaken; [by apply Hf | by intros w [? _] | done].
  - done.
Qed.

Definition mig_post (r : result Z MigrateError) (w : MigWorld) : Prop :=
  schema_ok w ∧ match r with Ok _ => at_least (length files) w | Err _ => True end.

Lemma mig_post_err c m : connrg c (Ret (Err m)) schema_ok mig_post.
Proof. by intros w Hw. Qed.

Section loop.
Context (c : nat).
Hypothesis Hnodup : NoDup (mf_file_name <$> files).

Lemma commit_schema k file version sql w tx :
  files !! k = Some file → mf_file_name file = Some version → mf_contents_utf8 file = Some sql →
  schema_ok w → schema_at k w → tx = mkTx [sql] [version] →
  schema_at (S k) (committed c tx w) ∧ schema_ok (committed c tx w).
Proof.
  intros Hf Hn Hs [_ Hl] (Hk & Hv & Hr) ->.
  assert (schema_at (S k) (committed c (mkTx [sql] [version]) w)) as H.
  { unfold schema_at. cbn. apply lookup_lt_Some in Hf as Hlt. rewrite (take_S_r _ _ _ Hf), !fmap_app, Hv, Hr.
    cbn. by rewrite Hn, Hs. }
  split; [done |]. split; [by exists (S k) | exact Hl].
Qed.

Lemma commit_own k file version sql w :
  files !! k = Some file → mf_file_name file = Some version → mf_contents_utf8 file = Some sql →
  schema_ok w → schema_at k w → mw_lock w = Some c →
  mig_own c w (committed c (mkTx [sql] [version]) w).
Proof.
  intros Hf Hn Hs Hok Hk Hlock. split.
  - intros _. split; [by eapply commit_schema |]. cbn. split; by apply prefix_app_r.
  - intros c' Hne Ha. cbn in *. split_and!; [done | by rewrite lookup_delete_ne | congruence].
Qed.

Lemma apply_file_spec {B} k file version sql (f : result unit MigrateError → prog OnConn B) R :
  files !! k = Some file → mf_file_name file = Some version → mf_contents_utf8 file = Some sql →
  connrg c (f (Ok tt)) (holds c (S k) None) R → (∀ e, connrg c (f (Err e)) schema_ok R) →
  connrg c (prog_bind (apply_file c version sql) f) (holds c k None) R.
Proof.
  intros Hf Hn Hs Hok Herr. unfold apply_file, db.
  apply (owns_held c k None (Some (mkTx [] [])) MBegin _ (λ _, True)); [done | | | intros m; apply Herr].
  { intros w w' x _ _ H. cbn in H. subst w'. split; [right | done]. eexists. split; [reflexivity | by right]. }
  intros [] _. cbn [prog_bind result_map_err].
  apply (owns_held c k _ (Some (mkTx [sql] [])) (MSql sql) _ (λ _, True)); [done | | | intros m; apply Herr].
  { intros w w' x (_ & _ & Hh) Ha H. cbn in H. destruct H as (tx & Htx & ->). destruct (Hh Ha) as (_ & _ & [? | Htx']); [done |].
    rewrite Htx in Htx'. simplify_eq. split; [right | done]. eexists. split; [reflexivity | by right]. }
  intros [] _. cbn [prog_bind result_map_err].
  apply (owns_held c k _ (Some (mkTx [sql] [version])) (MInsert version) _ (λ _, True)); [done | | | intros m; apply Herr].
  { intros w w' x (_ & _ & Hh) Ha H. cbn in H. destruct H as (tx & Htx & _ & ->). destruct (Hh Ha) as (_ & _ & [? | Htx']); [done |].
    rewrite Htx in Htx'. simplify_eq. split; [right | done]. eexists. split; [reflexivity | by right]. }
  intros [] _. cbn [prog_bind result_map_err].
  assert (∀ w tx, holds c k (Some (mkTx [sql] [version])) w → c ∈ mw_alive w → mw_tx w !! c = Some tx →
    tx = mkTx [sql] [version] ∧ schema_at k w ∧ mw_lock w = Some c) as Hknown.
  { intros w tx (_ & _ & Hh) Ha Htx. destruct (Hh Ha) as (? & ? & [? | Htx']); [done |]. by simplify_eq. }
  apply (owns_on c MCommit _ _ (λ _, holds c (S k) None)); [by intros w [? _] | | | | |].
  - intros w w' x Hw Hx. unfold mig_answer in Hx. case_bool_decide as Ha; [| done].
    destruct Hx as (tx & Htx & ->). destruct (Hknown w tx Hw Ha Htx) as (-> & Hat & Hlock).
    destruct (commit_schema k file version sql w _ Hf Hn Hs (proj1 Hw) Hat eq_refl) as [H1 H2].
    split; [by eapply commit_own; [.. | apply Hw | |] |].
    split_and!; [done | by exists (S k) |]. intros _. split_and!; [done | done | by left].
  - intros w w' Hw Ha [-> | [-> | (_ & tx & Htx & ->)]]; [apply own_refl | apply dead_own |].
    destruct (Hknown w tx Hw Ha Htx) as (-> & Hat & Hlock).
    apply own_then_dead. by eapply commit_own; [.. | apply Hw | |].
  - intros x. apply holds_stable.
  - intros []. exact Hok.
  - intros m. apply Herr.
Qed.

Lemma apply_files_spec applied k0 j count :
  (k0 ≤ length files)%nat → Some <$> applied = mf_file_name <$> take k0 files →
  connrg c (apply_files c applied (drop j files) count) (holds c (j `max` k0) None) mig_post.
Proof.
  intros Hk0 Happlied. remember (drop j files) as rest eqn:Hrest.
  revert j count Hrest. induction rest as [|file rest IH]; intros j count Hrest; cbn [apply_files].
  { intros w (Hok & (k' & Hle & Hk') & _). split; [done |]. exists k'. split; [| done].
    assert (length files - j = 0)%nat by (by rewrite <- length_drop, <- Hrest). lia. }
  assert (files !! j = Some file) as Hj.
  { rewrite <- (Nat.add_0_r j), <- lookup_drop, <- Hrest. done. }
  assert (rest = drop (S j) files) as Hrest'.
  { rewrite <- Nat.add_1_r, <- drop_drop, <- Hrest. done. }
  destruct (mf_file_name file) as [version|] eqn:Hn; [| by intros w [? _]].
  assert (version ∈ applied ↔ (j < k0)%nat) as Hin.
  { rewrite <- (list_elem_of_fmap_inj Some), Happlied, <- Hn. split.
    - intros Hv. apply list_elem_of_lookup_1 in Hv as [i Hi]. apply list_lookup_fmap_Some in Hi as (file' & Hname & Hi).
      apply lookup_take_Some in Hi as [Hi Hlt].
      assert (i = j) as ->; [| done].
      eapply NoDup_lookup; [exact Hnodup | by rewrite list_lookup_fmap, Hi | rewrite list_lookup_fmap, Hj; cbn; congruence].
    - intros Hlt. apply list_elem_of_fmap. exists file. split; [done |].
      apply list_elem_of_lookup_2 with j. rewrite lookup_take_lt by lia. done. }
  case_bool_decide as Hdec.
  - apply Hin in Hdec. specialize (IH (S j) count Hrest').
    replace (j `max` k0)%nat with (S j `max` k0)%nat by lia. done.
  - assert (k0 ≤ j)%nat by (destruct (decide (j < k0)%nat) as [?%Hin|]; [done | lia]).
    replace (j `max` k0)%nat with j by lia.
    destruct (mf_contents_utf8 file) as [sql|] eqn:Hs; [| by intros w [? _]].
    eapply (apply_file_spec j file); [done.. | |].
    + specialize (IH (S j) (count + 1) Hrest'). replace (S j) with (S j `max` k0)%nat by lia. done.
    + intros e. apply mig_post_err.
Qed.

Lemma apply_all_spec : connrg c (apply_all migrations c) (λ w, ∃ k, holds c k None w) mig_post.
Proof using Hnodup.
  apply (owns_exists _ _ _ _ _ (λ k, holds c k None)); [done |]. intros k.
  unfold apply_all, db.
  apply (owns_held c k None None MCreateTable _ (λ _, True)); [done | | | intros m; apply mig_post_err].
  { intros w w' x _ _ H. cbn in H. subst w'. split; [by left | done]. }
  intros [] _. cbn [prog_bind result_map_err].
  apply (owns_held c k None None MVersions _ (λ applied,
    (k ≤ length files)%nat ∧ Some <$> applied = mf_file_name <$> take k files)); [done | | | intros m; apply mig_post_err].
  { intros w w' x (_ & _ & Hh) Ha H. cbn in H. destruct H as [-> ->]. destruct (Hh Ha) as (_ & (Hk & Hv & _) & _).
    split; [by left | done]. }
  intros applied [Hk Happlied]. cbn [prog_bind result_map_err].
  by apply (apply_files_spec applied k 0 0).
Qed.

Lemma mig_post_stable r : stable (mig_rely c) (mig_post r).
Proof.
  intros w w' [Hok Hr] [Hext _]. split; [by apply Hext |]. destruct r; [| done]. by eapply at_least_extends.
Qed.

Lemma locked_own w :
  schema_ok w → c ∈ mw_alive w → mw_lock w = None ∨ mw_lock w = Some c →
  mig_own c w (set_lock (Some c) w) ∧ ∃ k, holds c k None (set_lock (Some c) w).
Proof.
  intros Hok Ha Hlock. assert (schema_ok (set_lock (Some c) w)) as Hok'.
  { destruct Hok as [Hk _]. split; [exact Hk |]. cbn. intros c' [= <-]. done. }
  split; [split |].
  - by intros _.
  - intros c' Hne Hc. split_and!; [done | done |]. intros Hl. destruct Hlock; congruence.
  - destruct Hok as [[k Hk] _]. exists k. split_and!; [done | by exists k |]. intros _. split_and!; [done | done | by left].
Qed.

Lemma unlocked_own w : schema_ok w → mig_own c w (set_lock None w) ∨ mw_lock w ≠ Some c.
Proof.
  intros Hok. destruct (decide (mw_lock w = Some c)) as [Hl | ?]; [left | by right]. split.
  - intros [Hk _]. split; [| done]. split; [exact Hk |]. done.
  - intros c' Hne Hc. split_and!; [done | done | congruence].
Qed.

Lemma migrate_spec : connrg c (migrate migrations c) schema_ok mig_post.
Proof using Hnodup.
  unfold migrate, db.
  apply (owns_on c MAcquire _ _ (λ _, schema_ok)); [done | | | intros _; apply schema_stable | | intros m; apply mig_post_err].
  { intros w w' x Hw Hx. unfold mig_answer in Hx. case_bool_decide as Ha; [done |]. cbn in Hx. subst w'.
    destruct Hw as [Hk Hl]. split; [split |].
    - intros _. split; [| done]. split; [exact Hk |]. cbn. intros c' Hc'. specialize (Hl _ Hc'). set_solver.
    - intros c' Hne Hc. cbn in *. split_and!; [set_solver | done | done].
    - split; [exact Hk |]. cbn. intros c' Hc'. specialize (Hl _ Hc'). set_solver. }
  { intros w w' _ _. by apply refused_own. }
  intros []. cbn [prog_bind result_map_err].
  apply (owns_on c MLock _ _ (λ _ w, ∃ k, holds c k None w)); [done | | | | | intros m; apply mig_post_err].
  { intros w w' x Hw Hx. unfold mig_answer in Hx. case_bool_decide as Ha; [| done].
    destruct Hx as [Hlock ->]. by apply locked_own. }
  { intros w w' _ _. by apply refused_own. }
  { intros _ w w' [k Hk] HR. exists k. by eapply holds_stable. }
  intros []. cbn [prog_bind result_map_err].
  eapply owns_bind; [apply apply_all_spec |]. intros r.
  apply (owns_call _ _ _ _ _ _ (λ _, mig_post r)); [| by intros x w Hw].
  intros w w' x Hw Hx.
  assert (mig_own c w w') as Hown.
  { cbn in Hx. unfold mig_answer in Hx. case_bool_decide as Ha.
    - destruct x as [[]|m]; [| by eapply (refused_own c MUnlock)].
      cbn in Hx. subst w'. destruct (unlocked_own w (proj1 Hw)) as [H | H].
      + case_bool_decide; [exact H | apply own_refl].
      + rewrite bool_decide_false by done. apply own_refl.
    - destruct x; [done |]. subst w'. apply own_refl. }
  split_and!; [done | apply mig_post_stable |]. destruct Hw as [Hok Hr]. split; [by apply Hown |].
  destruct r; [| done]. eapply at_least_extends; [done | done | by apply Hown].
Qed.
End loop.

(** C36: whatever number of services start at once, and wherever their
    connections fail or end: the scripts committed are at every moment the first
    [k] of the migrations in the order of their paths, each once, with exactly
    their versions recorded; and once a runner has returned without an error they
    are all there. *)
Theorem migrations_run_once n w w' ts' :
  NoDup (mf_file_name <$> List.filter mf_is_sql migrations) → schema_ok w →
  rtc (pool_step mig_step mig_env) (w, migrate migrations <$> seq 0 n) (w', ts') →
  (∃ k, schema_at k w') ∧ mw_ran w `prefix_of` mw_ran w' ∧
  ∀ c count, ts' !! c = Some (Ret (Ok count)) → schema_at (length files) w'.
Proof.
  intros Hnodup Hok Hsteps.
  assert (NoDup (mf_file_name <$> files)) as Hnd.
  { unfold pending. by rewrite merge_sort_Permutation. }
  destruct (pool_steps_owners mig_step mig_env mig_own mig_rely extends (λ _, mig_post)
    (w, migrate migrations <$> seq 0 n) (w', ts')) as [HT Hts].
  - intros i j w1 w2 Hne [Hext Hl]. split; [done | by apply Hl].
  - intros i w1 w2 [c w0]. split; [apply dead_extends | apply dead_leaves].
  - by intros i w1 w2 [? _].
  - intros w1 w2 [c w0]. apply dead_extends.
  - done.
  - intros i p Hi. cbn in *. apply list_lookup_fmap_Some in Hi as (c & -> & Hc).
    apply lookup_seq in Hc as [-> _]. exists schema_ok. split_and!; [apply schema_stable | done |].
    by apply migrate_spec.
  - destruct (HT Hok) as ([Hk _] & _ & Hran). split_and!; [exact Hk | exact Hran |].
    intros c count Hc. destruct (Hts c _ Hc) as (P & _ & HP & Hr). destruct (Hr _ HP) as [_ (k & Hle & Hat)].
    cbn in *. assert (k = length files) as <-; [| done]. destruct Hat as [? _]. lia.
Qed.
End schema.

(** ** A concrete start-up *)

(** A server on which nothing fails that need not. *)
Definition mig_healthy : handler OnConn MigWorld := λ X e w,
  match e in OnConn X return MigWorld * X with
  | On c e =>
      match e in MigE A return MigWorld * result A string with
      | MAcquire =>
          if bool_decide (c ∈ mw_alive w) then (w, Err "in use")
          else (mkMig (mw_lock w) ({[c]} ∪ mw_alive w) (mw_tx w) (mw_ran w) (mw_versions w), Ok tt)
      | e =>
          if bool_decide (c ∈ mw_alive w) then
            match e in MigE A return MigWorld * result A string with
            | MAcquire => (w, Err "in use")
            | MLock =>
                if bool_decide (mw_lock w = None ∨ mw_lock w = Some c) then (set_lock (Some c) w, Ok tt)
                else (w, Err "canceling statement due to lock timeout")
            | MUnlock => (if bool_decide (mw_lock w = Some c) then set_lock None w else w, Ok tt)
            | MCreateTable => (w, Ok tt)
            | MVersions => (w, Ok (mw_versions w))
            | MBegin => (set_tx c (mkTx [] []) w, Ok tt)
            | MSql sql =>
                match mw_tx w !! c with
                | Some tx => (set_tx c (mkTx (tx_ran tx ++ [sql]) (tx_versions tx)) w, Ok tt)
                | None => (w, Err "no transaction")
                end
            | MInsert version =>
                match mw_tx w !! c with
                | Some tx =>
                    if bool_decide (version ∈ mw_versions w) then (w, Err "duplicate key")
                    else (set_tx c (mkTx (tx_ran tx) (tx_versions tx ++ [version])) w, Ok tt)
                | None => (w, Err "no transaction")
                end
            | MCommit =>
                match mw_tx w !! c with
                | Some tx => (committed c tx w, Ok tt)
                | None => (w, Err "no transaction")
                end
            end
          else (w, Err "connection closed")
      end
  end.

Lemma mig_healthy_step X (e : OnConn X) w w' x : mig_healthy X e w = (w', x) → mig_step X e w w' x.
Proof.
  destruct e as [c A e]. cbn. unfold mig_answer. case_bool_decide as Ha.
  - assert (∀ m, refused c w w e ∧ mig_answer c e w w (Err m)) as Hno.
    { intros m. unfold mig_answer. rewrite bool_decide_true by done. by split; left. }
    destruct e; cbn; try destruct (mw_tx w !! c) as [tx|] eqn:Htx; try case_bool_decide; intros Hs; simplify_eq;
      try (by left); try done.
    + by exists tx.
    + by exists tx.
    + by exists tx.
  - destruct e; cbn; intros Hs; simplify_eq; done.
Qed.

Module MigrateDemo.
Definition migrations : list File :=
  [mkFile "0002_titles.sql" (Some "0002_titles.sql") true (Some "ALTER TABLE conversation");
   mkFile "README.md" (Some "README.md") false (Some "# Migrations");
   mkFile "0001_pg_cutover.sql" (Some "0001_pg_cutover.sql") true (Some "CREATE TABLE conversation")].

Definition empty : MigWorld := mkMig None ∅ ∅ [] [].
Definition first : MigWorld * result Z MigrateError := run mig_healthy (migrate migrations 0) empty.
Definition second : MigWorld * result Z MigrateError := run mig_healthy (migrate migrations 1) first.1.

Lemma two_runs :
  rtc (pool_step mig_step mig_env) (empty, migrate migrations <$> seq 0 2)
    (second.1, [Ret first.2; Ret second.2]).
Proof.
  pose proof (pool_run_sub mig_step mig_healthy mig_env (migrate migrations <$> seq 0 2) 0 _ empty
    mig_healthy_step eq_refl) as H1.
  pose proof (pool_run_sub mig_step mig_healthy mig_env (<[0%nat := Ret first.2]> (migrate migrations <$> seq 0 2)) 1 _
    first.1 mig_healthy_step eq_refl) as H2.
  etrans; [exact H1 | exact H2].
Qed.
End MigrateDemo.

Lemma migrations_run_once_witness :
  MigrateDemo.first.2 = Ok 2 ∧ MigrateDemo.second.2 = Ok 0 ∧
  mw_versions MigrateDemo.second.1 = ["0001_pg_cutover.sql"; "0002_titles.sql"] ∧
  schema_at MigrateDemo.migrations 2 MigrateDemo.second.1.
Proof.
  split; [vm_compute; reflexivity |]. split; [vm_compute; reflexivity |]. split; [vm_compute; reflexivity |].
  destruct (migrations_run_once MigrateDemo.migrations 2 MigrateDemo.empty MigrateDemo.second.1
    [Ret MigrateDemo.first.2; Ret MigrateDemo.second.2]) as (_ & _ & H).
  - cbn. apply NoDup_cons. split; [| apply NoDup_singleton]. intros Hin.
    by apply list_elem_of_singleton in Hin.
  - split; [| done]. exists 0%nat. split_and!; [cbn; lia | done | done].
  - apply MigrateDemo.two_runs.
  - assert (MigrateDemo.second.2 = Ok 0) as Hr by (vm_compute; reflexivity).
    apply (H 1%nat 0). by rewrite <- Hr.
Defined.
