(* ===== verification/Contracts.v ===== *)
(** * The messages of the chat side (crates/contracts/src/lib.rs)

    What the API, the chat worker and the realtime service exchange.  Plain
    data: a field keeps its name behind a prefix of its type. *)

From S2P Require Import Prelude Text Events.

Definition CONTRACT_VERSION : Z := 1.

Record AuthUser : Type := mkAuthUser {
  au_user_id : string;
  au_tenant_id : string;
  au_email : option string;
  au_roles : list string;
}.

Record ConversationSummary : Type := mkSummary {
  cs_id : string;
  cs_title : string;
  cs_updated_at : DateTime;
}.

Inductive MessageRole : Type := RoleUser | RoleAssistant | RoleSystem.

Record CitationEntry : Type := mkCitation {
  ci_index : Z;
  ci_label : string;
  ci_url : option string;
}.

Record MessageDto : Type := mkMessageDto {
  md_id : string;
  md_role : MessageRole;
  md_content : string;
  md_parent_message_id : option string;
  md_citations : list CitationEntry;
  md_turn_id : option string;
  md_interrupted : bool;
  md_finish_reason : option string;
  md_created_at : DateTime;
}.

Record ConversationDetail : Type := mkDetail {
  cd_id : string;
  cd_title : string;
  cd_messages : list MessageDto;
  cd_updated_at : DateTime;
}.

Record CreateConversationRequest : Type := mkCreateConversation {
  cc_title : option string;
}.

Record UpdateConversationRequest : Type := mkUpdateConversation {
  uc_title : string;
}.

Record SubmitTurnRequest : Type := mkSubmitTurn {
  sr_user_message_id : string;
  sr_turn_id : string;
  sr_text : string;
  sr_parent_message_id : option string;
}.

Record SubmitChatMessageRequest : Type := mkSubmitMessage {
  sm_text : string;
  sm_parent_message_id : option string;
  sm_user_message_id : option string;
  sm_turn_id : option string;
}.

Inductive ApiErrorCode : Type :=
| CodeUnauthorized | CodeForbidden | CodeNotFound | CodeInvalidRequest | CodeStaleParent
| CodeInFlight | CodeConflict | CodeGone | CodeTooLarge | CodeInternal.

Record TurnAccepted : Type := mkAccepted {
  ta_turn_id : string;
}.

Record ApiErrorBody : Type := mkErrorBody {
  eb_code : ApiErrorCode;
  eb_message : string;
}.

Record TurnRequested : Type := mkTurnRequested {
  tr_v : Z;
  tr_command_id : string;
  tr_tenant_id : string;
  tr_user_id : string;
  tr_conversation_id : string;
  tr_turn_id : string;
  tr_ts : DateTime;
}.

Inductive FinishReason : Type := FinishStop | FinishError.
Inductive InterruptReason : Type := UserInterrupted.
Inductive ClearReason : Type := ClearCancelled | ClearWorkerLost | ClearFailedBeforeCommit.

Inductive ChatEvent : Type :=
| TurnStarted (turn_id : string)
| UserMessage (id : string) (turn_id : option string) (content : string)
| Citations (citations : list CitationEntry)
| TextDelta (delta : string)
| Finish (assistant_message_id : string) (finish_reason : FinishReason)
| Interrupted (assistant_message_id content : string) (finish_reason : InterruptReason)
| Clear (reason : ClearReason)
| ChatError (message : string)
| TitleUpdated (title : string).

Record ChatEventEnvelope : Type := mkEnvelope {
  en_v : Z;
  en_tenant_id : string;
  en_user_id : string;
  en_conversation_id : string;
  en_turn_id : string;
  en_ts : DateTime;
  en_event : ChatEvent;
}.

Inductive ClientWsMessage : Type :=
| SubscribeConversation (conversation_id : string) (last_event_id : option string)
| UnsubscribeConversation (conversation_id : string)
| Ping (nonce : option string).

Inductive ServerWsMessage : Type :=
| Subscribed (conversation_id : string)
| WsEvent (conversation_id event_id : string) (event : ChatEvent)
| ResyncRequired (conversation_id : string)
| WsError (code message : string)
| Pong (nonce : option string).

#[export] Instance MessageRole_eq_dec : EqDecision MessageRole.
Proof. solve_decision. Defined.
#[export] Instance CitationEntry_eq_dec : EqDecision CitationEntry.
Proof. solve_decision. Defined.
#[export] Instance MessageDto_eq_dec : EqDecision MessageDto.
Proof. solve_decision. Defined.
#[export] Instance FinishReason_eq_dec : EqDecision FinishReason.
Proof. solve_decision. Defined.
#[export] Instance InterruptReason_eq_dec : EqDecision InterruptReason.
Proof. solve_decision. Defined.
#[export] Instance ClearReason_eq_dec : EqDecision ClearReason.
Proof. solve_decision. Defined.
#[export] Instance ChatEvent_eq_dec : EqDecision ChatEvent.
Proof. solve_decision. Defined.
#[export] Instance ChatEventEnvelope_eq_dec : EqDecision ChatEventEnvelope.
Proof. solve_decision. Defined.
