(* ===== verification/Auth.v ===== *)
(** * Authentication (crates/auth/src/lib.rs)

    From the authorization header of a request to its [AuthContext]: the keys of
    the JWKS endpoint and their cache, shared by every request of the process;
    the validation of a token; the claims and their roles.  The crates
    jsonwebtoken, reqwest and serde_json are parameters. *)

From S2P Require Import Prelude Text Contracts.

Record AuthContext : Type := mkAuth {
  ax_user_id : string;
  ax_tenant_id : string;
  ax_email : option string;
  ax_roles : list string;
  ax_bearer_subject : string;
}.

(** [has_role] *)
Definition has_role (auth : AuthContext) (role : string) : bool :=
  existsb (λ candidate, bool_decide (candidate = role)) (ax_roles auth).

(** [public_user] *)
Definition public_user (auth : AuthContext) : AuthUser :=
  mkAuthUser (ax_user_id auth) (ax_tenant_id auth) (ax_email auth) (ax_roles auth).

Inductive AuthError : Type :=
| AuthMissing
| AuthInvalid (message : string).

Definition auth_error_to_string (e : AuthError) : string :=
  match e with
  | AuthMissing => "missing bearer token"
  | AuthInvalid message => "invalid bearer token: " +:+ message
  end.

Inductive JwtError : Type :=
| Malformed (message : string)
| JwtRejected (message : string)
| JwksFetch (message : string)
| UnknownKid (kid : string).

(** ** Claims and roles *)

Record RoleAccess : Type := mkRoleAccess {
  ra_roles : option (list string);
}.

(** [resource_access] holds the entries of the map in the order in which it
    yields them, which the code does not fix. *)
Record InboundClaims : Type := mkClaims {
  ic_sub : option string;
  ic_email : option string;
  ic_tenant_id : option string;
  ic_roles : option (list string);
  ic_realm_access : option RoleAccess;
  ic_resource_access : option (list (string * RoleAccess));
}.

(** [extend_roles] *)
Definition push_role (normalized : list string) (role : string) : list string :=
  let role := trim role in
  if negb (is_empty role) && negb (existsb (λ candidate, bool_decide (candidate = role)) normalized)
  then normalized ++ [role] else normalized.

Definition extend_roles (normalized : list string) (roles : option (list string)) : list string :=
  match roles with
  | None => normalized
  | Some roles => foldl push_role normalized roles
  end.

(** [normalize_roles] *)
Definition normalize_roles (flat_roles : option (list string)) (realm_access : option RoleAccess)
    (resource_access : option (list (string * RoleAccess))) : list string :=
  let roles := extend_roles [] flat_roles in
  let roles := match realm_access with
               | Some realm_access => extend_roles roles (ra_roles realm_access)
               | None => roles
               end in
  match resource_access with
  | Some resource_access =>
      foldl (λ roles access, extend_roles roles (ra_roles access)) roles (snd <$> resource_access)
  | None => roles
  end.

(** [bearer_token], from the text of the authorization header *)
Definition bearer_token (header : option string) : option string :=
  value ← header;
  match strip_prefix "Bearer " value with
  | Some token => Some token
  | None => strip_prefix "bearer " value
  end.

(** ** Keys *)

Inductive Algorithm : Type :=
| HS256 | HS384 | HS512 | RS256 | RS384 | RS512 | ES256 | ES384 | PS256 | PS384 | PS512 | EdDSA.

(** The variants of the crate that [asymmetric_alg_to_alg] names, and the rest. *)
Inductive KeyAlgorithm : Type :=
| KaRS256 | KaRS384 | KaRS512 | KaES256 | KaES384 | KaPS256 | KaPS384 | KaPS512 | KaEdDSA
| KaOther (name : string).

Inductive AlgorithmParameters : Type := ApRSA | ApEllipticCurve | ApOctetKeyPair | ApOther.

(** The fields of jsonwebtoken's [Validation] that the code sets. *)
Record Validation : Type := mkValidation {
  va_algorithm : Algorithm;
  va_iss : option string;
  va_aud : option string;
  va_validate_aud : bool;
}.

(** A JWK, with the rest of its parameters. *)
Record Jwk (Rest : Type) : Type := mkJwk {
  jw_key_id : option string;
  jw_key_algorithm : option KeyAlgorithm;
  jw_algorithm : AlgorithmParameters;
  jw_rest : Rest;
}.
Arguments mkJwk {Rest}.
Arguments jw_key_id {Rest}.
Arguments jw_key_algorithm {Rest}.
Arguments jw_algorithm {Rest}.

Class Jwt := {
  JwkRest : Type;
  DecodingKey : Type;
  JwtValue : Type;
  decoding_key_from_jwk : Jwk JwkRest → result DecodingKey string;
  (** the [kid] of the header *)
  decode_header : string → result (option string) string;
  decode : string → DecodingKey → Validation → result JwtValue string;
  claims_from_value : JwtValue → result InboundClaims string;
}.

(** [Validation::new] *)
Definition validation_new (alg : Algorithm) : Validation := mkValidation alg None None true.

(** [apply_iss_aud] *)
Definition apply_iss_aud (validation : Validation) (expected_issuer expected_audience : option string)
  : Validation :=
  let iss := match expected_issuer with Some issuer => Some issuer | None => va_iss validation end in
  match expected_audience with
  | Some audience => mkValidation (va_algorithm validation) iss (Some audience) (va_validate_aud validation)
  | None => mkValidation (va_algorithm validation) iss (va_aud validation) false
  end.

Definition is_asymmetric (parameters : AlgorithmParameters) : bool :=
  match parameters with ApRSA | ApEllipticCurve | ApOctetKeyPair => true | ApOther => false end.

Definition asymmetric_alg_to_alg (algorithm : KeyAlgorithm) : option Algorithm :=
  match algorithm with
  | KaRS256 => Some RS256 | KaRS384 => Some RS384 | KaRS512 => Some RS512
  | KaES256 => Some ES256 | KaES384 => Some ES384
  | KaPS256 => Some PS256 | KaPS384 => Some PS384 | KaPS512 => Some PS512
  | KaEdDSA => Some EdDSA
  | KaOther _ => None
  end.

Definition infer_alg_from_params (parameters : AlgorithmParameters) : option Algorithm :=
  match parameters with
  | ApRSA => Some RS256
  | ApEllipticCurve => Some ES256
  | ApOctetKeyPair => Some EdDSA
  | ApOther => None
  end.

(** ** The validator *)

Section validator.
Context `{Jwt}.

Record CachedKey : Type := mkCachedKey {
  ck_key : DecodingKey;
  ck_alg : Algorithm;
}.

(** One key of the set, as the loop of [refresh] keeps it. *)
Definition keep_jwk (next : gmap string CachedKey) (jwk : Jwk JwkRest) : gmap string CachedKey :=
  match jw_key_id jwk with
  | None => next
  | Some kid =>
      if negb (is_asymmetric (jw_algorithm jwk)) then next
      else
        match (match jw_key_algorithm jwk ≫= asymmetric_alg_to_alg with
               | Some alg => Some alg
               | None => infer_alg_from_params (jw_algorithm jwk)
               end) with
        | None => next
        | Some alg =>
            match decoding_key_from_jwk jwk with
            | Err _ => next
            | Ok key => <[kid := mkCachedKey key alg]> next
            end
        end
  end.

(** What one validation does: the two accesses to the cache under its lock, and
    the request to the endpoint up to the decoded set. *)
Inductive AuthE : Type → Type :=
| CacheGet (kid : string) : AuthE (option CachedKey)
| CacheSet (next : gmap string CachedKey) : AuthE unit
| FetchJwks : AuthE (result (list (Jwk JwkRest)) string).

Context (expected_issuer expected_audience : option string).

(** [refresh] *)
Definition refresh : prog AuthE (result unit JwtError) :=
  let* r := call FetchJwks in
  match r with
  | Err error => Ret (Err (JwksFetch error))
  | Ok keys =>
      let* _ := call (CacheSet (foldl keep_jwk ∅ keys)) in
      Ret (Ok tt)
  end.

(** [try_cached] *)
Definition try_cached (jwt kid : string) : prog AuthE (result (option JwtValue) JwtError) :=
  let* cached := call (CacheGet kid) in
  Ret (match cached with
       | None => Ok None
       | Some cached =>
           let validation := apply_iss_aud (validation_new (ck_alg cached)) expected_issuer expected_audience in
           result_map Some (result_map_err JwtRejected (decode jwt (ck_key cached) validation))
       end).

(** [JwksValidator::validate] *)
Definition validate (jwt : string) : prog AuthE (result JwtValue JwtError) :=
  match decode_header jwt with
  | Err error => Ret (Err (Malformed error))
  | Ok None => Ret (Err (Malformed "JWT header missing kid"))
  | Ok (Some kid) =>
      let*? claims := try_cached jwt kid in
      match claims with
      | Some claims => Ret (Ok claims)
      | None =>
          let*? _ := refresh in
          let*? claims := try_cached jwt kid in
          Ret (ok_or claims (UnknownKid kid))
      end
  end.

(** [{:?}] of a string, which escapes it. *)
Context (show_debug : string → string).

Definition jwt_error_to_string (e : JwtError) : string :=
  match e with
  | Malformed message => "malformed JWT: " +:+ message
  | JwtRejected message => "signature or claim validation failed: " +:+ message
  | JwksFetch message => "JWKS fetch failed: " +:+ message
  | UnknownKid kid => "no JWKS key matches kid " +:+ show_debug kid
  end.

(** [verify_headers] from the claims on *)
Definition auth_context (default_tenant bearer : string) (inbound : InboundClaims)
  : result AuthContext AuthError :=
  let? sub := ok_or (ic_sub inbound) (AuthInvalid "JWT missing required sub claim") in
  let roles := normalize_roles (ic_roles inbound) (ic_realm_access inbound) (ic_resource_access inbound) in
  let tenant_id := default default_tenant (ic_tenant_id inbound) in
  Ok (mkAuth sub tenant_id (ic_email inbound) roles ("Bearer " +:+ bearer)).

(** [verify_headers] *)
Definition verify_headers (default_tenant : string) (header : option string)
  : prog AuthE (result AuthContext AuthError) :=
  match bearer_token header with
  | None => Ret (Err AuthMissing)
  | Some bearer =>
      let* payload := validate bearer in
      Ret (match payload with
           | Err error => Err (AuthInvalid (jwt_error_to_string error))
           | Ok payload =>
               match claims_from_value payload with
               | Err error => Err (AuthInvalid ("decode JWT payload: " +:+ error))
               | Ok inbound => auth_context default_tenant bearer inbound
               end
           end)
  end.
End validator.

(** ** Roles *)

(** The role strings of the claims, in the order they are read. *)
Definition claimed_roles (flat_roles : option (list string)) (realm_access : option RoleAccess)
    (resource_access : option (list (string * RoleAccess))) : list string :=
  default [] flat_roles ++
  default [] (realm_access ≫= ra_roles) ++
  concat ((λ access : string * RoleAccess, default [] (ra_roles access.2)) <$> default [] resource_access).

Lemma extend_roles_default roles o : extend_roles roles o = foldl push_role roles (default [] o).
Proof. by destruct o. Qed.

(** The three sources are read as one list. *)
Lemma normalize_roles_fold flat realm resource :
  normalize_roles flat realm resource = foldl push_role [] (claimed_roles flat realm resource).
Proof.
  unfold normalize_roles, claimed_roles. rewrite !foldl_app, extend_roles_default.
  set (roles := foldl push_role [] _).
  assert (match realm with Some r => extend_roles roles (ra_roles r) | None => roles end =
          foldl push_role roles (default [] (realm ≫= ra_roles))) as ->.
  { destruct realm as [r |]; [| done]. simpl. apply extend_roles_default. }
  generalize (foldl push_role roles (default [] (realm ≫= ra_roles))). clear roles.
  destruct resource as [entries |]; [| done]. simpl.
  induction entries as [|[name access] entries IH]; intros roles; [done |].
  simpl. rewrite foldl_app, <- extend_roles_default. apply IH.
Qed.

Lemma push_role_spec roles raw :
  NoDup roles →
  NoDup (push_role roles raw) ∧
  ∀ r, r ∈ push_role roles raw ↔ r ∈ roles ∨ (r ≠ "" ∧ trim raw = r).
Proof.
  intros Hnd. unfold push_role. cbv zeta.
  destruct (is_empty (trim raw)) eqn:He; simpl.
  { split; [done |]. intros r. split; [by left | intros [Hr | [Hr Heq]]; [done |]].
    destruct (trim raw); [congruence | done]. }
  destruct (existsb _ roles) eqn:Hx; simpl.
  - apply existsb_exists in Hx as (c & Hin%list_elem_of_In & Hc%bool_decide_eq_true). subst c.
    split; [done |]. intros r. split; [by left | intros [Hr | [_ <-]]; done].
  - assert (trim raw ∉ roles) as Hnin.
    { intros Hin. apply list_elem_of_In in Hin.
      assert (existsb (λ candidate, bool_decide (candidate = trim raw)) roles = true); [| congruence].
      apply existsb_exists. exists (trim raw). split; [done | by apply bool_decide_eq_true]. }
    split.
    + apply NoDup_app. split_and!; [done | | apply NoDup_singleton].
      intros r Hr ->%list_elem_of_singleton. done.
    + intros r. rewrite elem_of_app, list_elem_of_singleton. split.
      * intros [Hr | ->]; [by left | right]. split; [| done]. intros Heq. by rewrite Heq in He.
      * intros [Hr | [_ <-]]; [by left | by right].
Qed.

(** Fact: The roles of a request are the non-empty trimmed strings of its three
    claims, each once: nothing is dropped, nothing is added, and since the order
    of the [resource_access] map only permutes them, whether a request has a role
    does not depend on it. *)
Theorem roles_are_the_claimed_ones flat realm resource resource' :
  resource ≡ₚ resource' →
  let roles := normalize_roles flat realm (Some resource) in
  NoDup roles ∧
  (∀ r, r ∈ roles ↔ r ≠ "" ∧ ∃ raw, raw ∈ claimed_roles flat realm (Some resource) ∧ trim raw = r) ∧
  normalize_roles flat realm (Some resource') ≡ₚ roles.
Proof.
  assert (∀ raws roles, NoDup roles →
    NoDup (foldl push_role roles raws) ∧
    ∀ r, r ∈ foldl push_role roles raws ↔ r ∈ roles ∨ (r ≠ "" ∧ ∃ raw, raw ∈ raws ∧ trim raw = r))
    as Hfold.
  { induction raws as [|raw raws IH]; intros roles Hnd; simpl.
    { split; [done |]. intros r. split; [by left |]. intros [Hr | (_ & raw & H & _)]; [done |].
      by apply not_elem_of_nil in H. }
    destruct (push_role_spec roles raw Hnd) as [Hnd' Hin]. destruct (IH _ Hnd') as [Hnd'' Hin'].
    split; [done |]. intros r. rewrite Hin', Hin. setoid_rewrite elem_of_cons. naive_solver. }
  intros Hp roles. unfold roles. rewrite !normalize_roles_fold.
  destruct (Hfold (claimed_roles flat realm (Some resource)) [] NoDup_nil_2) as [Hnd Hin].
  destruct (Hfold (claimed_roles flat realm (Some resource')) [] NoDup_nil_2) as [Hnd' Hin'].
  assert (∀ r, r ∈ foldl push_role [] (claimed_roles flat realm (Some resource)) ↔
    r ≠ "" ∧ ∃ raw, raw ∈ claimed_roles flat realm (Some resource) ∧ trim raw = r) as Hiff.
  { intros r. rewrite Hin. split; [intros [H%not_elem_of_nil | H]; done | by right]. }
  split_and!; [done | done |]. apply NoDup_Permutation; [done.. |]. intros r. rewrite Hiff, Hin'.
  unfold claimed_roles. simpl. setoid_rewrite elem_of_app. setoid_rewrite elem_of_app.
  assert (∀ raw, raw ∈ concat ((λ access : string * RoleAccess, default [] (ra_roles access.2)) <$> resource) ↔
                 raw ∈ concat ((λ access : string * RoleAccess, default [] (ra_roles access.2)) <$> resource')) as Heq.
  { intros raw. by rewrite Hp. }
  setoid_rewrite Heq. rewrite elem_of_nil. tauto.
Qed.

(** ** Which tokens are accepted *)

Definition asymmetric (alg : Algorithm) : bool :=
  match alg with HS256 | HS384 | HS512 => false | _ => true end.

(** The algorithm a JWK is used with. *)
Definition jwk_alg {Rest} (jwk : Jwk Rest) : option Algorithm :=
  match jw_key_algorithm jwk ≫= asymmetric_alg_to_alg with
  | Some alg => Some alg
  | None => infer_alg_from_params (jw_algorithm jwk)
  end.

Lemma jwk_alg_asymmetric {Rest} (jwk : Jwk Rest) alg : jwk_alg jwk = Some alg → asymmetric alg = true.
Proof.
  unfold jwk_alg. destruct (jw_key_algorithm jwk) as [[] |], (jw_algorithm jwk); simpl; by intros [= <-].
Qed.

Section accepted.
Context `{J : Jwt} (expected_issuer expected_audience : option string) (show_debug : string → string)
  (default_tenant : string).

(** The cache of the process, and every set of keys the endpoint has served it. *)
Record AuthWorld : Type := mkAuthWorld {
  aw_cache : gmap string CachedKey;
  aw_served : list (list (Jwk JwkRest));
}.

(** The endpoint serves what it likes, or fails. *)
Definition auth_step (X : Type) (e : AuthE X) (w w' : AuthWorld) : X → Prop :=
  match e in AuthE X return X → Prop with
  | CacheGet kid => λ x, w' = w ∧ x = aw_cache w !! kid
  | CacheSet next => λ _, w' = mkAuthWorld next (aw_served w)
  | FetchJwks => λ r,
      match r with
      | Ok keys => w' = mkAuthWorld (aw_cache w) (keys :: aw_served w)
      | Err _ => w' = w
      end
  end.

(** A key the endpoint served under this id, with its algorithm. *)
Definition served_key (w : AuthWorld) (kid : string) (cached : CachedKey) : Prop :=
  ∃ keys jwk, keys ∈ aw_served w ∧ jwk ∈ keys ∧ jw_key_id jwk = Some kid ∧
    jwk_alg jwk = Some (ck_alg cached) ∧ decoding_key_from_jwk jwk = Ok (ck_key cached).

Definition cache_ok (w : AuthWorld) : Prop := map_Forall (served_key w) (aw_cache w).

Definition auth_guarantee (w w' : AuthWorld) : Prop :=
  aw_served w ⊆ aw_served w' ∧ (cache_ok w → cache_ok w').

#[local] Instance auth_guarantee_refl : Reflexive auth_guarantee.
Proof. by intros w. Qed.
#[local] Instance auth_guarantee_trans : Transitive auth_guarantee.
Proof. intros w1 w2 w3 [H1 H2] [H3 H4]. split; [by etrans | auto]. Qed.

Lemma served_key_mono w w' kid cached :
  aw_served w ⊆ aw_served w' → served_key w kid cached → served_key w' kid cached.
Proof. intros Hs (keys & jwk & Hk & H). exists keys, jwk. split; [by apply Hs | done]. Qed.

Lemma keep_jwk_served keys jwks (next : gmap string CachedKey) :
  (∀ w, keys ∈ aw_served w → map_Forall (served_key w) next) → jwks ⊆ keys →
  ∀ w, keys ∈ aw_served w → map_Forall (served_key w) (foldl keep_jwk next jwks).
Proof.
  revert next. induction jwks as [|jwk jwks IH]; intros next Hnext Hsub; [done |]. simpl.
  apply IH; [| set_solver]. intros w Hw. unfold keep_jwk.
  destruct (jw_key_id jwk) as [kid |] eqn:Hkid; [| by apply Hnext].
  destruct (negb _); [by apply Hnext |].
  fold (jwk_alg jwk). destruct (jwk_alg jwk) as [alg |] eqn:Halg; [| by apply Hnext].
  destruct (decoding_key_from_jwk jwk) as [key |] eqn:Hkey; [| by apply Hnext].
  apply map_Forall_insert_2; [| by apply Hnext].
  exists keys, jwk. split_and!; [done | set_solver | done..].
Qed.

Lemma cache_ok_stable : stable auth_guarantee cache_ok.
Proof. intros w w' Hw [_ H]. by apply H. Qed.

(** A payload that was decoded with a served key. *)
Definition payload_ok (jwt kid : string) (r : result (option JwtValue) JwtError) (w : AuthWorld) : Prop :=
  cache_ok w ∧
  match r with
  | Ok (Some payload) =>
      ∃ cached, served_key w kid cached ∧
        decode jwt (ck_key cached)
          (apply_iss_aud (validation_new (ck_alg cached)) expected_issuer expected_audience) = Ok payload
  | _ => True
  end.

Lemma try_cached_rg jwt kid :
  rg auth_step auth_guarantee (try_cached expected_issuer expected_audience jwt kid) cache_ok
    (payload_ok jwt kid).
Proof.
  unfold try_cached.
  apply rg_call with (Q := λ x w, cache_ok w ∧ ∀ cached, x = Some cached → served_key w kid cached).
  - intros w w' x Hw [-> ->]. split_and!; [done | | done |].
    + intros w1 w2 [H1 H2] [H3 H4]. split; [by apply H4 |]. intros cached Hc.
      eapply served_key_mono; [done | by apply H2].
    + intros cached Hc. by apply Hw.
  - intros [cached |]; apply rg_ret; intros w [Hw Hs]; (split; [done |]); [| done].
    destruct (decode _ _ _) as [payload |] eqn:Hd; [| done]. simpl. exists cached. split; [by apply Hs | done].
Qed.

Lemma refresh_rg : rg auth_step auth_guarantee refresh cache_ok (λ _, cache_ok).
Proof.
  unfold refresh.
  apply rg_call with (Q := λ x w, cache_ok w ∧ ∀ keys, x = Ok keys → keys ∈ aw_served w).
  - intros w w' x Hw Hx. simpl in Hx. assert (aw_served w ⊆ aw_served w' ∧ cache_ok w') as [Hs Hok].
    { destruct x; subst w'; [| done]. split; [set_solver |].
      intros kid cached Hc. eapply served_key_mono; [| by apply Hw]. set_solver. }
    split_and!; [done | | done |].
    + intros w1 w2 [H1 H2] [H3 H4]. split; [by apply H4 |]. intros keys Hk. by apply H3, H2.
    + intros keys ->. subst w'. set_solver.
  - intros [keys | error]; [| apply rg_ret; by intros w []].
    apply rg_call with (Q := λ _, cache_ok); [| intros []; by apply rg_ret].
    intros w w' [] [Hw Hk] Hx. simpl in Hx. subst w'.
    assert (cache_ok (mkAuthWorld (foldl keep_jwk ∅ keys) (aw_served w))) as Hok.
    { apply (keep_jwk_served keys); [done.. | by apply Hk]. }
    split_and!; [done | apply cache_ok_stable | done].
Qed.

(** An accepted request: who it is, and the key that says so. *)
Definition authenticated (header : option string) (r : result AuthContext AuthError) (w : AuthWorld) : Prop :=
  match r with
  | Err _ => True
  | Ok auth =>
      ∃ bearer kid cached payload inbound,
        bearer_token header = Some bearer ∧ decode_header bearer = Ok (Some kid) ∧
        served_key w kid cached ∧ asymmetric (ck_alg cached) = true ∧
        decode bearer (ck_key cached)
          (mkValidation (ck_alg cached) expected_issuer expected_audience
             (bool_decide (is_Some expected_audience))) = Ok payload ∧
        claims_from_value payload = Ok inbound ∧ ic_sub inbound = Some (ax_user_id auth) ∧
        ax_tenant_id auth = default default_tenant (ic_tenant_id inbound)
  end.

Lemma validate_rg jwt kid :
  decode_header jwt = Ok (Some kid) →
  rg auth_step auth_guarantee (validate expected_issuer expected_audience jwt) cache_ok
    (λ r, payload_ok jwt kid (result_map Some r)).
Proof.
  intros Hk. unfold validate. rewrite Hk.
  eapply rg_bind; [apply try_cached_rg |]. intros [[payload |] | e].
  - by apply rg_ret.
  - eapply rg_bind; [eapply rg_pre, refresh_rg; by intros w [] |]. intros [[] | e]; [| by apply rg_ret].
    eapply rg_bind; [apply try_cached_rg |]. intros [[payload |] | e]; by apply rg_ret.
  - apply rg_ret. by intros w [].
Qed.

Lemma verify_headers_rg header :
  rg auth_step auth_guarantee
    (verify_headers expected_issuer expected_audience show_debug default_tenant header)
    cache_ok (authenticated header).
Proof.
  unfold verify_headers. destruct (bearer_token header) as [bearer |] eqn:Hb; [| by apply rg_ret].
  destruct (decode_header bearer) as [[kid |] | e] eqn:Hk.
  2-3: unfold validate; rewrite Hk; cbn [prog_bind]; by apply rg_ret.
  eapply rg_bind; [by apply (validate_rg bearer kid) |]. intros [payload | e]; apply rg_ret; [| done].
  intros w [_ (cached & Hs & Hd)].
  destruct (claims_from_value payload) as [inbound |] eqn:Hc; [| done]. unfold auth_context.
  destruct (ic_sub inbound) as [sub |] eqn:Hsub; [| done]. simpl.
  exists bearer, kid, cached, payload, inbound. split_and!; try done.
  - destruct Hs as (keys & jwk & _ & _ & _ & Ha & _). by eapply jwk_alg_asymmetric.
  - rewrite <- Hd. by destruct expected_issuer, expected_audience.
Qed.

(** C17: A request is let in only with a token that verifies under a key the JWKS
    endpoint has served to this process, under the key id the token names, with
    an asymmetric algorithm that belongs to the key, and with the configured issuer
    and audience; the user is the token's subject and the tenant its tenant claim
    or the default.  This holds however many requests are verified at once, share
    and replace the cached keys, and whatever the endpoint answers each time. *)
Theorem only_served_keys_authenticate headers w ts i header auth :
  rtc (pool_step auth_step (λ _ _, False))
    (mkAuthWorld ∅ [],
     verify_headers expected_issuer expected_audience show_debug default_tenant <$> headers) (w, ts) →
  headers !! i = Some header → ts !! i = Some (Ret (Ok auth)) → authenticated header (Ok auth) w.
Proof.
  intros Hsteps Hh Hi.
  destruct (pool_steps_rg auth_step (λ _ _, False) auth_guarantee _ _ (authenticated <$> headers)
    ltac:(done) Hsteps) as [_ Hts].
  { apply Forall2_fmap, Forall_Forall2_diag, Forall_forall. intros h _. exists cache_ok.
    split_and!; [apply cache_ok_stable | done | apply verify_headers_rg]. }
  destruct (Forall2_lookup_l _ _ _ _ _ Hts Hi) as (Q & HQ & Hth).
  rewrite list_lookup_fmap, Hh in HQ. simplify_eq/=. by apply rg_thread_ret in Hth.
Qed.

(** An endpoint that serves the same keys every time. *)
Definition endpoint (keys : list (Jwk JwkRest)) : handler AuthE AuthWorld := λ X e w,
  match e in AuthE X return AuthWorld * X with
  | CacheGet kid => (w, aw_cache w !! kid)
  | CacheSet next => (mkAuthWorld next (aw_served w), tt)
  | FetchJwks => (mkAuthWorld (aw_cache w) (keys :: aw_served w), Ok keys)
  end.

Lemma endpoint_step keys X (e : AuthE X) w w' x : endpoint keys X e w = (w', x) → auth_step X e w w' x.
Proof. destruct e; simpl; by intros [= <- <-]. Qed.

(** Fact: A token that verifies under a key the endpoint serves now is let in, also
    when the process has never seen that key: it fetches the keys anew, once.  A
    key it has cached is used without asking the endpoint, which may have
    withdrawn it. *)
Theorem served_key_is_accepted keys w header bearer kid cached payload inbound sub :
  bearer_token header = Some bearer → decode_header bearer = Ok (Some kid) →
  aw_cache w !! kid = Some cached ∨
    (aw_cache w !! kid = None ∧ foldl keep_jwk ∅ keys !! kid = Some cached) →
  decode bearer (ck_key cached)
    (apply_iss_aud (validation_new (ck_alg cached)) expected_issuer expected_audience) = Ok payload →
  claims_from_value payload = Ok inbound → ic_sub inbound = Some sub →
  run (endpoint keys) (verify_headers expected_issuer expected_audience show_debug default_tenant header) w =
    (if aw_cache w !! kid then w else mkAuthWorld (foldl keep_jwk ∅ keys) (keys :: aw_served w),
     Ok (mkAuth sub (default default_tenant (ic_tenant_id inbound)) (ic_email inbound)
           (normalize_roles (ic_roles inbound) (ic_realm_access inbound) (ic_resource_access inbound))
           ("Bearer " +:+ bearer))).
Proof.
  intros Hb Hk Hcache Hd Hc Hsub. unfold verify_headers, validate, try_cached, refresh.
  rewrite Hb, Hk. cbn [prog_bind call run endpoint].
  destruct Hcache as [Hcache | [Hnone Hcache]].
  - rewrite Hcache, Hd. cbn [result_map result_map_err prog_bind run]. rewrite Hc. unfold auth_context.
    by rewrite Hsub.
  - rewrite Hnone. cbn [prog_bind call run endpoint aw_cache aw_served]. rewrite Hcache, Hd.
    cbn [result_map result_map_err prog_bind run ok_or]. rewrite Hc. unfold auth_context. by rewrite Hsub.
Qed.
End accepted.

Module AuthDemo.
(** Key material and tokens are plain text; a token is its key id, then a bar,
    then the material of its key. *)
#[export] Instance jwt : Jwt := {|
  JwkRest := string; DecodingKey := string; JwtValue := string;
  decoding_key_from_jwk := λ jwk, Ok (jw_rest _ jwk);
  decode_header := λ token, Ok (fst <$> split_once "|" token);
  decode := λ token key _,
    match split_once "|" token with
    | Some (_, material) => if bool_decide (material = key) then Ok "ann" else Err "InvalidSignature"
    | None => Err "InvalidToken"
    end;
  claims_from_value := λ sub,
    Ok (mkClaims (Some sub) None (Some "acme") (Some ["member"; " member "; ""])
          (Some (mkRoleAccess (Some ["owner"; "ingester"]))) (Some [("delphi", mkRoleAccess (Some ["ingester"; "chat"]))])) |}.

Definition keys : list (Jwk JwkRest) :=
  [mkJwk (Some "k0") (Some (KaOther "HS256")) ApOther ("weak" : JwkRest);
   mkJwk (Some "k1") (Some KaRS256) ApRSA ("rsa" : JwkRest)].

Definition header : option string := Some "Bearer k1|rsa".
Definition verify : prog AuthE (result AuthContext AuthError) := verify_headers (Some "iss") None id "tenant-a" header.
Definition final : AuthWorld * result AuthContext AuthError := run (endpoint keys) verify (mkAuthWorld ∅ []).
Definition cached : CachedKey := mkCachedKey ("rsa" : DecodingKey) RS256.
Definition claims : InboundClaims :=
  mkClaims (Some "ann") None (Some "acme") (Some ["member"; " member "; ""])
    (Some (mkRoleAccess (Some ["owner"; "ingester"])))
    (Some [("delphi", mkRoleAccess (Some ["ingester"; "chat"]))]).
Definition ann : AuthContext :=
  mkAuth "ann" "acme" None ["member"; "owner"; "ingester"; "chat"] "Bearer k1|rsa".
End AuthDemo.

Lemma roles_are_the_claimed_ones_witness :
  normalize_roles (Some ["a"]) None (Some [("x", mkRoleAccess (Some [" b"])); ("y", mkRoleAccess (Some ["a"; "c"]))])
    ≡ₚ normalize_roles (Some ["a"]) None (Some [("y", mkRoleAccess (Some ["a"; "c"])); ("x", mkRoleAccess (Some [" b"]))]).
Proof.
  apply (roles_are_the_claimed_ones (Some ["a"]) None
    [("y", mkRoleAccess (Some ["a"; "c"])); ("x", mkRoleAccess (Some [" b"]))]).
  constructor.
Defined.

Lemma served_key_is_accepted_witness :
  AuthDemo.final = (mkAuthWorld (foldl keep_jwk ∅ AuthDemo.keys) [AuthDemo.keys], Ok AuthDemo.ann).
Proof.
  unfold AuthDemo.final, AuthDemo.verify.
  rewrite (served_key_is_accepted (Some "iss") None id "tenant-a" AuthDemo.keys (mkAuthWorld ∅ [])
    AuthDemo.header "k1|rsa" "k1" AuthDemo.cached "ann" AuthDemo.claims "ann");
    [vm_compute; reflexivity | reflexivity | reflexivity | | reflexivity..].
  right. split; vm_compute; reflexivity.
Defined.

Lemma only_served_keys_authenticate_witness :
  authenticated (Some "iss") None "tenant-a" AuthDemo.header (Ok AuthDemo.ann) AuthDemo.final.1.
Proof.
  assert (AuthDemo.final.2 = Ok AuthDemo.ann) as Hann by (vm_compute; reflexivity).
  apply (only_served_keys_authenticate (Some "iss") None id "tenant-a" [AuthDemo.header] AuthDemo.final.1
    [Ret AuthDemo.final.2] 0 AuthDemo.header AuthDemo.ann); [| reflexivity | by rewrite Hann].
  pose proof (pool_run (endpoint AuthDemo.keys) (λ _ _, False) AuthDemo.verify (mkAuthWorld ∅ [])) as Hrun.
  eapply (rtc_congruence id) in Hrun; [exact Hrun |].
  intros c c'. apply pool_step_mono, endpoint_step.
Defined.
