(* ===== verification/DocumentApi.v ===== *)
(** * The document endpoints (services/api-service/src/documents.rs)

    Every route of the document life cycle, from the authenticated caller to the
    status and body of the answer: the check of the principal and of the write
    role, the call of the use case (Service.v), the shape of its answer and the
    status of its failure.  Extraction of the JSON body and of the path is the
    framework's. *)

From S2P Require Import Prelude Text Events Fold Geometry Validation Keys Ports Memory Contracts Auth.
From S2P Require Import Append Transition System Worker Service.

Local Open Scope Z_scope.

Definition WRITE_ROLE : string := "ingester".
Definition DEFAULT_LIST_LIMIT : Z := 50.

Section api.
Context {J : SerdeJson} {X : Hex} {C : Chrono} (policy : UploadPolicy).

Abbreviation io := (prog PortE).

Record CreateUploadBody : Type := mkCreateUploadBody {
  ub_document_id : option string;
  ub_filename : string;
  ub_size : Z;
  ub_content_type : option string;
}.

Record RenewBody : Type := mkRenewBody {
  rb_from_part : option Z;
  rb_count : option Z;
}.

Record CompleteBody : Type := mkCompleteBody {
  cb_if_match : option Z;
  cb_on_conflict : ConflictPolicy;
  cb_title : option string;
  cb_tags : option (list string);
  cb_description : option string;
  cb_metadata : option Value;
}.

Record ListQuery : Type := mkListQuery {
  lq_limit : option Z;
  lq_cursor : option string;
}.

Record CreateUploadResponse : Type := mkCreateUploadResponse {
  co_upload_id : string;
  co_document_id : string;
  co_key : string;
  co_part_size_bytes : Z;
  co_part_count : Z;
}.

Record UploadStatusBody : Type := mkUploadStatusBody {
  sb_status : UploadStatus;
  sb_document_id : string;
}.

Record DocumentBody : Type := mkDocumentBody {
  db_document_id : string;
  db_version : Z;
  db_state : string;
  db_index_state : string;
  db_filename : option string;
  db_content_type : option string;
  db_byte_size : option Z;
  db_checksum : option string;
  db_title : option string;
  db_tags : list string;
  db_description : option string;
  db_metadata : Value;
  db_created_at : DateTime;
  db_updated_at : DateTime;
}.

(** [to_body] *)
Definition to_body (document : DocumentState) : DocumentBody :=
  mkDocumentBody (ds_document_id document) (ds_version document) (docstate_as_str (ds_state document))
    (indexstate_as_str (ds_index_state document)) (ds_filename document) (ds_content_type document)
    (ds_byte_size document) (ds_checksum document) (ds_title document) (ds_tags document)
    (ds_description document) (ds_metadata document) (ds_created_at document) (ds_updated_at document).

(** ** Authorization *)

(** [authorize_read] *)
Definition authorize_read (auth : AuthContext) : result Principal DocumentError :=
  match principal_new (ax_tenant_id auth) (ax_user_id auth) with
  | Ok principal => Ok principal
  | Err _ => Err DForbidden
  end.

(** [authorize] *)
Definition authorize (auth : AuthContext) : result Principal DocumentError :=
  let? principal := authorize_read auth in
  if negb (has_role auth WRITE_ROLE) then Err DForbidden else Ok principal.

(** ** Errors *)

(** [ApiFailure::into_response]: the status and the body. *)
Definition into_response (e : DocumentError) : Z * ApiErrorBody :=
  match e with
  | DNotFound => (404, mkErrorBody CodeNotFound "not found")
  | DForbidden => (403, mkErrorBody CodeForbidden "forbidden")
  | DGone => (410, mkErrorBody CodeGone "this upload has expired; start a new one")
  | DInvalid message => (400, mkErrorBody CodeInvalidRequest message)
  | DTooLarge message => (413, mkErrorBody CodeTooLarge message)
  | DConflict current_version =>
      (409, mkErrorBody CodeConflict ("document has moved on to version " +:+ show_uint current_version))
  | DDeleted => (409, mkErrorBody CodeConflict "document is deleted")
  | DInternal _ => (500, mkErrorBody CodeInternal "internal error")
  end.

(** ** Handlers *)

Definition create_upload (auth : AuthContext) (body : CreateUploadBody)
  : io (result CreateUploadResponse DocumentError) :=
  match authorize auth with
  | Err e => Ret (Err e)
  | Ok principal =>
      let*? response := preflight policy (pr_tenant_id principal) (pr_user_id principal)
        (mkPreflight (ub_document_id body) (ub_filename body) (ub_size body) (ub_content_type body)) in
      Ret (Ok (mkCreateUploadResponse (pr_upload_id response) (pr_document_id response) (pr_key response)
                 (pr_part_size_bytes response) (pr_part_count response)))
  end.

Definition list_upload_parts (auth : AuthContext) (upload_id : string)
  : io (result UploadedPartsResponse DocumentError) :=
  match authorize auth with
  | Err e => Ret (Err e)
  | Ok principal => uploaded_parts (pr_tenant_id principal) (pr_user_id principal) upload_id
  end.

Definition renew_upload (auth : AuthContext) (upload_id : string) (body : option RenewBody)
  : io (result (list PresignedPart) DocumentError) :=
  match authorize auth with
  | Err e => Ret (Err e)
  | Ok principal =>
      let body := default (mkRenewBody None None) body in
      renew policy (pr_tenant_id principal) (pr_user_id principal) upload_id
        (mkRenew (rb_from_part body) (rb_count body))
  end.

Definition complete_upload (auth : AuthContext) (upload_id : string) (body : CompleteBody)
  : io (result unit DocumentError) :=
  match authorize auth with
  | Err e => Ret (Err e)
  | Ok principal =>
      complete (pr_tenant_id principal) (pr_user_id principal) upload_id
        (mkComplete (cb_if_match body) (cb_on_conflict body)
           (mkPatch (cb_title body) (cb_tags body) (cb_description body) (cb_metadata body)))
  end.

Definition get_upload (auth : AuthContext) (upload_id : string)
  : io (result UploadStatusBody DocumentError) :=
  match authorize_read auth with
  | Err e => Ret (Err e)
  | Ok principal =>
      let*? state := upload_state (pr_tenant_id principal) (pr_user_id principal) upload_id in
      Ret (Ok (mkUploadStatusBody (us_status state) (us_document_id state)))
  end.

(** The body and the version its [ETag] carries. *)
Definition get_document_handler (auth : AuthContext) (document_id : string)
  : io (result (DocumentBody * Z) DocumentError) :=
  match authorize_read auth with
  | Err e => Ret (Err e)
  | Ok principal =>
      let*? document := get_document (pr_tenant_id principal) document_id in
      Ret (Ok (to_body document, ds_version document))
  end.

(** The cursor of the query, decoded: one that was not minted here is refused. *)
Definition query_cursor (query : ListQuery) : result (option DocumentCursor) DocumentError :=
  match lq_cursor query with
  | None => Ok None
  | Some value => result_map Some (ok_or (cursor_decode value) (DInvalid "cursor is not valid"))
  end.

(** [list_documents]: the items and [next]. *)
Definition list_documents_handler (auth : AuthContext) (query : ListQuery)
  : io (result (list DocumentBody * option string) DocumentError) :=
  match (let? principal := authorize_read auth in
         let? cursor := query_cursor query in
         Ok (principal, cursor)) with
  | Err e => Ret (Err e)
  | Ok (principal, cursor) =>
      let*? page := list_documents (pr_tenant_id principal) (default DEFAULT_LIST_LIMIT (lq_limit query)) cursor in
      Ret (Ok (to_body <$> pg_items page, cursor_encode <$> pg_next page))
  end.

(** ** The routes *)

Inductive DocumentRequest : Type :=
| PostUpload (body : CreateUploadBody)
| GetUpload (upload_id : string)
| GetUploadParts (upload_id : string)
| PostRenew (upload_id : string) (body : option RenewBody)
| PostComplete (upload_id : string) (body : CompleteBody)
| GetDocuments (query : ListQuery)
| GetDocument (document_id : string).

Inductive DocumentReply : Type :=
| RepliedUpload (body : CreateUploadResponse)
| RepliedStatus (body : UploadStatusBody)
| RepliedParts (body : UploadedPartsResponse)
| RepliedRenewed (parts : list PresignedPart)
| RepliedScanning
| RepliedDocuments (items : list DocumentBody) (next : option string)
| RepliedDocument (body : DocumentBody) (etag : Z)
| RepliedError (body : ApiErrorBody).

(** A handler's answer with the status of its success. *)
Definition respond {A} (status : Z) (f : A → DocumentReply) (p : io (result A DocumentError))
  : io (Z * DocumentReply) :=
  let* r := p in
  Ret (match r with
       | Ok a => (status, f a)
       | Err e => let '(status, body) := into_response e in (status, RepliedError body)
       end).

(** [routes] *)
Definition serve (auth : AuthContext) (request : DocumentRequest) : io (Z * DocumentReply) :=
  match request with
  | PostUpload body => respond 201 RepliedUpload (create_upload auth body)
  | GetUpload upload_id => respond 200 RepliedStatus (get_upload auth upload_id)
  | GetUploadParts upload_id => respond 200 RepliedParts (list_upload_parts auth upload_id)
  | PostRenew upload_id body => respond 200 RepliedRenewed (renew_upload auth upload_id body)
  | PostComplete upload_id body => respond 202 (λ _, RepliedScanning) (complete_upload auth upload_id body)
  | GetDocuments query => respond 200 (λ page, RepliedDocuments page.1 page.2) (list_documents_handler auth query)
  | GetDocument document_id => respond 200 (λ d, RepliedDocument d.1 d.2) (get_document_handler auth document_id)
  end.

(** The routes that need the write role. *)
Definition is_write (request : DocumentRequest) : bool :=
  match request with
  | PostUpload _ | GetUploadParts _ | PostRenew _ _ | PostComplete _ _ => true
  | GetUpload _ | GetDocuments _ | GetDocument _ => false
  end.
End api.

(** ** What a request may touch *)

(** [safe] with a weaker obligation on the calls. *)
Lemma safe_ok_mono {E : Type → Type} {O} (obs : ∀ X, E X → X → O) (ok ok' : list O → O → Prop) {R} (p : prog E R) Q past :
  (∀ past o, ok past o → ok' past o) → safe obs ok p Q past → safe obs ok' p Q past.
Proof.
  intros Hok. revert past. induction p as [r | A e k IH]; intros past Hp; [done |].
  intros x. destruct (Hp x) as [H1 H2]. split; [by apply Hok | by apply IH].
Qed.

Section confined.
Context {J : SerdeJson} {X : Hex} {C : Chrono} (policy : UploadPolicy) (t u : string).

(** An upload record of the caller, as storage answered it. *)
Definition read_upload (past : list Obs) (stored : StoredUpload) : Prop :=
  ∃ id, mkObs _ (UpGet t u id) (Ok (Some stored)) ∈ past.

(** A call confined to the tenant, the caller's upload records, and the objects
    those name. *)
Definition confined (past : list Obs) (o : Obs) : Prop :=
  match o with
  | mkObs _ e _ =>
      match e with
      | UpCreate s =>
          us_tenant_id s = t ∧ us_owner_user_id s = u ∧ us_storage_key s = object_key t (us_upload_id s)
      | UpGet t' u' _ | UpDelete t' u' _ => t' = t ∧ u' = u
      | UpUpdate s _ =>
          ∃ stored status now, read_upload past stored ∧ s = with_status (su_state stored) status now
      | QPublish cmd => uc_tenant_id cmd = t ∧ uc_owner_user_id cmd = u
      | EvLast t' _ | RmGet t' _ | RmList t' _ _ => t' = t
      | BlBegin key _ | BlAbort key _ => ∃ id, key = object_key t id
      | BlListParts key mp | BlPresign key mp _ _ =>
          ∃ stored, read_upload past stored ∧ us_tenant_id (su_state stored) = t ∧
            us_owner_user_id (su_state stored) = u ∧
            us_storage_key (su_state stored) = key ∧ us_multipart_upload_id (su_state stored) = mp
      | ClNow | IdUlid => True
      | _ => False
      end
  end.

Abbreviation csafe := (safe mkObs confined).
Abbreviation any := (λ _ _, True).

(** The record a use case works on. *)
Definition owned (context : UploadState) (past : list Obs) : Prop :=
  ∃ stored, read_upload past stored ∧ su_state stored = context ∧
    us_tenant_id context = t ∧ us_owner_user_id context = u.

Lemma read_upload_prefix past past' stored :
  past `prefix_of` past' → read_upload past stored → read_upload past' stored.
Proof. intros Hp [id Hin]. exists id. by eapply elem_of_prefix. Qed.

Lemma owned_prefix past past' context : past `prefix_of` past' → owned context past → owned context past'.
Proof. intros Hp (stored & Hr & H). exists stored. split; [by eapply read_upload_prefix | done]. Qed.

Lemma owned_snoc past o context : owned context past → owned context (past ++ [o]).
Proof. apply owned_prefix. by apply prefix_app_r. Qed.

Lemma load_context_confined id past :
  csafe (load_context t u id) (λ past r, match r with Ok context => owned context past | Err _ => True end) past.
Proof.
  unfold load_context, load. apply safe_bind, safe_call. intros x. split; [done |].
  destruct x as [[stored|]|]; [| by repeat apply safe_ret ..].
  destruct (bool_decide _ || bool_decide _) eqn:Hown; [by repeat apply safe_ret |].
  destruct_bools. apply safe_ret, safe_ret. exists stored. split_and!; [| done | by apply dec_stable..].
  exists id. apply elem_of_snoc.
Qed.

Lemma blob_call_confined context past :
  owned context past →
  ∃ stored, read_upload past stored ∧ us_tenant_id (su_state stored) = t ∧
    us_owner_user_id (su_state stored) = u ∧
    us_storage_key (su_state stored) = us_storage_key context ∧
    us_multipart_upload_id (su_state stored) = us_multipart_upload_id context.
Proof. intros (stored & Hr & <- & Ht & Hu). by exists stored. Qed.

Lemma list_or_gone_confined context past : owned context past → csafe (list_or_gone context) any past.
Proof.
  intros Ho. unfold list_or_gone. apply safe_call. intros x. split; [by apply blob_call_confined |].
  by destruct x as [[l|]|]; apply safe_ret.
Qed.

Lemma presign_loop_confined context numbers skip parts past :
  owned context past → csafe (presign_loop policy context numbers skip parts) any past.
Proof.
  revert parts past. induction numbers as [|n numbers IH]; intros parts past Ho; [by apply safe_ret |].
  cbn [presign_loop]. destruct (contains skip n); [by apply IH |].
  apply safe_call. intros x. split; [by apply blob_call_confined |].
  destruct x as [part|]; [| by apply safe_ret]. by apply IH, owned_snoc.
Qed.

Lemma renew_confined id request past : csafe (renew policy t u id request) any past.
Proof.
  unfold renew. eapply safe_bind_spec; [apply load_context_confined |].
  intros past' [context|e] _ Ho; [| by apply safe_ret].
  eapply safe_bind_spec with (P := any).
  { unfold renew_from. destruct (rr_from_part request) as [from|]; [by destruct (_ && _); apply safe_ret |].
    eapply safe_bind_spec; [by apply list_or_gone_confined |]. by intros ? [l|e] _ _; apply safe_ret. }
  intros past'' [w|e] Hp _; [| by apply safe_ret]. apply presign_loop_confined. by eapply owned_prefix.
Qed.

Lemma uploaded_parts_confined id past : csafe (uploaded_parts t u id) any past.
Proof.
  unfold uploaded_parts. eapply safe_bind_spec; [apply load_context_confined |].
  intros past' [context|e] _ Ho; [| by apply safe_ret].
  eapply safe_bind_spec; [by apply list_or_gone_confined |]. by intros ? [l|e] _ _; apply safe_ret.
Qed.

Lemma set_status_confined id status now past : csafe (set_status t u id status now) any past.
Proof.
  unfold set_status. generalize CAS_ATTEMPTS as n. intros n. revert past.
  induction n as [|n IH]; intros past; [by apply safe_ret |].
  cbn [set_status_loop]. apply safe_call. intros x. split; [done |].
  destruct x as [[stored|]|]; [| by apply safe_ret..].
  destruct (is_terminal _); [by apply safe_ret |].
  apply safe_call. intros x. split.
  { exists stored, status, now. split; [exists id; apply elem_of_snoc | done]. }
  destruct x as [rev|[]]; try by apply safe_ret. apply IH.
Qed.

Lemma complete_confined id request past : csafe (complete t u id request) any past.
Proof.
  unfold complete. destruct (validate_metadata_patch _); [| by apply safe_ret].
  eapply safe_bind_spec; [apply load_context_confined |].
  intros past' [context|e] _ Ho; [| by apply safe_ret].
  destruct (_ && _); [by apply safe_ret |].
  apply safe_call. intros ts. split; [done |]. apply safe_call. intros x. split; [done |].
  destruct x as [[]|e]; [| by apply safe_ret]. apply safe_call. intros now. split; [done |].
  eapply safe_bind_spec; [apply set_status_confined |]. by intros ? [x|e] _ _; apply safe_ret.
Qed.

Lemma preflight_confined request past : csafe (preflight policy t u request) any past.
Proof.
  unfold preflight. destruct (preflight_checks _ _) as [[[filename part_size] parts_total]|]; [| by apply safe_ret].
  eapply safe_bind_spec with (P := any).
  { unfold preflight_target. destruct (pf_document_id request) as [document_id|].
    - eapply safe_bind_spec with (P := any); [| by intros ? [x|e] _ _; apply safe_ret].
      unfold resolve_replace_target. apply safe_call. intros x. split; [done |].
      destruct x as [[last|]|]; [| by apply safe_ret..].
      apply safe_call. intros x. split; [done |].
      destruct x as [[document|]|]; [destruct (bool_decide _) | |]; by apply safe_ret.
    - apply safe_call. intros id. by split. }
  intros past' [[document_id mode]|e] _ _; [| by apply safe_ret].
  apply safe_call. intros id. split; [done |]. apply safe_call. intros x. split; [by eexists |].
  destruct x as [mp|]; [| by apply safe_ret]. apply safe_call. intros now. split; [done |].
  apply safe_call. intros x. split; [done |]. destruct x as [[]|e]; [by apply safe_ret |].
  unfold unwind_preflight. repeat (apply safe_call; intros ?; split; [by try eexists |]). by apply safe_ret.
Qed.

Lemma get_document_confined id past : csafe (get_document t id) any past.
Proof. unfold get_document. apply safe_call. intros x. split; [done |]. by destruct x; apply safe_ret. Qed.

Lemma list_documents_confined limit after past : csafe (list_documents t limit after) any past.
Proof. unfold list_documents. apply safe_call. intros x. split; [done |]. by destruct x; apply safe_ret. Qed.
End confined.

Section served.
Context {J : SerdeJson} {X : Hex} {C : Chrono} (policy : UploadPolicy) (auth : AuthContext)
  (request : DocumentRequest).

(** Who may make the request at all. *)
Definition authorized : Prop :=
  (∃ principal, principal_new (ax_tenant_id auth) (ax_user_id auth) = Ok principal) ∧
  (is_write request = true → has_role auth WRITE_ROLE = true).

Definition request_ok (past : list Obs) (o : Obs) : Prop :=
  authorized ∧ confined (ax_tenant_id auth) (ax_user_id auth) past o.

(** Only the authorized are answered; a failure has the status of its error, and
    what is wrong inside is not told. *)
Definition reply_ok (r : Z * DocumentReply) : Prop :=
  (¬ authorized → r = (403, RepliedError (mkErrorBody CodeForbidden "forbidden"))) ∧
  match r.2 with
  | RepliedError body =>
      r.1 ∈ [400; 403; 404; 409; 410; 413; 500] ∧
      (r.1 = 500 → body = mkErrorBody CodeInternal "internal error")
  | _ => r.1 ∈ [200; 201; 202]
  end.

Lemma authorize_read_ok principal :
  authorize_read auth = Ok principal → principal = mkPrincipal (ax_tenant_id auth) (ax_user_id auth) ∧
    ∃ principal, principal_new (ax_tenant_id auth) (ax_user_id auth) = Ok principal.
Proof.
  unfold authorize_read. destruct (principal_new _ _) as [p|] eqn:Hp; [| done]. intros [= <-].
  split; [| by eexists]. unfold principal_new in Hp. by case_matches.
Qed.

(** A handler is its check and then its use case. *)
Lemma handler_safe {A B} (check : result B DocumentError) (body : B → prog PortE (result A DocumentError))
    status f :
  (∀ b, check = Ok b → authorized) → (¬ authorized → check = Err DForbidden) →
  (∀ b, check = Ok b →
     safe mkObs (confined (ax_tenant_id auth) (ax_user_id auth)) (body b) (λ _ _, True) []) →
  status ∈ [200; 201; 202] → (∀ a, match f a with RepliedError _ => False | _ => True end) →
  safe mkObs request_ok (respond status f match check with Ok b => body b | Err e => Ret (Err e) end)
    (λ _ r, reply_ok r) [].
Proof.
  intros Hyes Hno Hbody Hstatus Hf. unfold respond.
  assert (∀ r : result A DocumentError, (¬ authorized → r = Err DForbidden) →
    reply_ok match r with Ok a => (status, f a) | Err e => let '(s, b) := into_response e in (s, RepliedError b) end)
    as Hreply.
  { intros [a|e] Hr; split.
    - intros H. by specialize (Hr H).
    - simpl. specialize (Hf a). by destruct (f a).
    - intros H. specialize (Hr H). by simplify_eq.
    - destruct e; simpl; (split; [set_solver | done]). }
  destruct check as [b|e].
  2: { cbn [prog_bind]. apply safe_ret, (Hreply (Err e)). intros H. specialize (Hno H). by simplify_eq. }
  specialize (Hyes b eq_refl). eapply safe_bind_spec with (P := λ _ _, True).
  - eapply safe_ok_mono; [| by apply Hbody]. intros past o Ho. by split.
  - intros past r _ _. apply safe_ret, (Hreply r). done.
Qed.

Lemma serve_safe : safe mkObs request_ok (serve policy auth request) (λ _ r, reply_ok r) [].
Proof.
  assert (∀ p, authorize_read auth = Ok p → is_write request = false → authorized) as Hread.
  { intros p Hp Hw. apply authorize_read_ok in Hp as [_ Hp]. split; [done |]. by rewrite Hw. }
  assert (is_write request = false → ¬ authorized → authorize_read auth = Err DForbidden) as Hnoread.
  { intros Hw H. unfold authorize_read. destruct (principal_new _ _) as [p|] eqn:Hp; [| done].
    destruct H. split; [by eexists | by rewrite Hw]. }
  assert (∀ p, authorize auth = Ok p → p = mkPrincipal (ax_tenant_id auth) (ax_user_id auth) ∧ authorized) as Hwrite.
  { intros p. unfold authorize. destruct (authorize_read auth) as [p'|] eqn:Hp; [| done]. simpl.
    destruct (has_role auth WRITE_ROLE) eqn:Hr; [| done]. intros [= <-].
    apply authorize_read_ok in Hp as [-> Hp]. split; [done |]. by split. }
  assert (is_write request = true → ¬ authorized → authorize auth = Err DForbidden) as Hnowrite.
  { intros Hw H. unfold authorize, authorize_read. destruct (principal_new _ _) as [p|] eqn:Hp; [| done].
    simpl. destruct (has_role auth WRITE_ROLE) eqn:Hr; [| done]. destruct H. split; [by eexists | done]. }
  destruct request; cbn [serve is_write] in *;
    unfold create_upload, get_upload, list_upload_parts, renew_upload, complete_upload,
      list_documents_handler, get_document_handler;
    (apply handler_safe;
     [| | | set_solver | done]); try (intros H; by apply Hnowrite); try (intros H; by apply Hnoread);
    try (intros p Hp; by apply (Hread p Hp)); try (intros p [_ Hp]%Hwrite; exact Hp).
  - intros p [-> _]%Hwrite. eapply safe_bind_spec; [apply preflight_confined |].
    by intros ? [x|e] _ _; apply safe_ret.
  - intros p [-> _]%authorize_read_ok. eapply safe_bind_spec; [apply load_context_confined |].
    by intros ? [x|e] _ _; apply safe_ret.
  - intros p [-> _]%Hwrite. apply uploaded_parts_confined.
  - intros p [-> _]%Hwrite. apply renew_confined.
  - intros p [-> _]%Hwrite. apply complete_confined.
  - intros [p cursor]. destruct (authorize_read auth) as [p'|] eqn:Hp; [| done]. intros _.
    by apply (Hread p').
  - intros H. by rewrite (Hnoread eq_refl H).
  - intros [p cursor]. destruct (authorize_read auth) as [p'|] eqn:Hp; [| done].
    apply authorize_read_ok in Hp as [-> _]. cbn [result_bind].
    destruct (query_cursor query) as [c|]; [| done]. intros [= <- <-]. cbn beta iota.
    eapply (safe_bind_spec _ _ _ _ (λ _ _, True)); [apply list_documents_confined |]. by intros ? [x|e] _ _; apply safe_ret.
  - intros p [-> _]%authorize_read_ok. eapply safe_bind_spec; [apply get_document_confined |].
    by intros ? [x|e] _ _; apply safe_ret.
Qed.

(** C19: Every document endpoint: no port is called unless the caller's tenant and
    user are safe names and, on the write path, the caller has the write role;
    every call is then confined to the caller's tenant, the caller's own upload
    records, fresh objects of the tenant or objects those records name, and no
    event is appended and no object read or deleted.  Without that authority the
    answer is 403; a failure inside says nothing but that it is one. *)
Theorem document_requests_are_confined tr r :
  exec mkObs (serve policy auth request) tr r →
  (∀ before o after, tr = before ++ o :: after →
     authorized ∧ confined (ax_tenant_id auth) (ax_user_id auth) before o) ∧
  reply_ok r.
Proof.
  intros Hx. destruct (exec_safe mkObs request_ok _ _ [] tr r Hx serve_safe) as [Hall Hr].
  split; [exact Hall | exact Hr].
Qed.
End served.

(** ** Witness *)

#[local] Existing Instances Demo.json Demo.hex Demo.sha2 ChronoDemo.chrono.

Module DocumentApiDemo.
Definition ann (roles : list string) : AuthContext := mkAuth "user-1" "acme" None roles "Bearer x".
Definition body : CreateUploadBody := mkCreateUploadBody None " report.pdf " 52428800 (Some "application/pdf").
Definition request : DocumentRequest := PostUpload body.
Definition trace : list Obs :=
  run_trace mkObs mem (serve ServiceDemo.policy (ann ["ingester"]) request) MemoryDemo.empty.
Definition reply : Z * DocumentReply :=
  (run mem (serve ServiceDemo.policy (ann ["ingester"]) request) MemoryDemo.empty).2.
End DocumentApiDemo.

(** A writer opens an upload; a reader may not, and nothing is called. *)
Example document_api_demo :
  DocumentApiDemo.reply =
    (201, RepliedUpload (mkCreateUploadResponse "id-0002" "id-0001" "tenants/acme/blobs/id-0002/original" 20971520 3)) ∧
  length DocumentApiDemo.trace = 5%nat ∧
  serve ServiceDemo.policy (DocumentApiDemo.ann ["member"]) DocumentApiDemo.request =
    Ret (403, RepliedError (mkErrorBody CodeForbidden "forbidden")).
Proof. split_and!; vm_compute; reflexivity. Qed.

Lemma document_requests_are_confined_witness :
  confined "acme" "user-1" (take 2 DocumentApiDemo.trace)
    (mkObs _ (BlBegin "tenants/acme/blobs/id-0002/original" "application/pdf") (Ok "mp-1")) ∧
  reply_ok (DocumentApiDemo.ann ["ingester"]) DocumentApiDemo.request DocumentApiDemo.reply.
Proof.
  destruct (document_requests_are_confined ServiceDemo.policy (DocumentApiDemo.ann ["ingester"])
    DocumentApiDemo.request DocumentApiDemo.trace DocumentApiDemo.reply) as [Hall Hr].
  { apply run_trace_exec. }
  split; [| exact Hr]. apply (Hall _ _ (drop 3 DocumentApiDemo.trace)). vm_compute. reflexivity.
Defined.
