(* ===== verification/ChatBus.v ===== *)
(** * The chat bus: its data and the in-memory implementation

    crates/nats/src/lib.rs: the lock of a conversation, the replay index, the
    subjects, the durations read from the environment, and [InMemoryChatBus].
    The methods of the lock are functions of the lock table; each reading of the
    clock is a parameter, in the order the code reads it.  ChatLocks.v models the
    same methods over a JetStream key-value bucket. *)

From S2P Require Import Prelude Text Events Contracts.

Local Open Scope Z_scope.

Definition DEFAULT_CHAT_LOCK_TTL_SECONDS : Z := 15 * 60.
Definition DEFAULT_CHAT_EVENTS_MAX_AGE_SECONDS : Z := 30 * 60.
Definition DEFAULT_CHAT_REPLAY_TTL_SECONDS : Z := 25 * 60.
Definition DEFAULT_CHAT_COMMAND_ACK_WAIT_SECONDS : Z := 120.

Inductive ChatBusError : Type :=
| Unavailable
| Payload (message : string)
| InFlight.

Definition chat_bus_error_to_string (e : ChatBusError) : string :=
  match e with
  | Unavailable => "chat bus unavailable"
  | Payload message => "chat bus payload error: " +:+ message
  | InFlight => "chat conversation already has an in-flight turn"
  end.

Inductive ChatLockState : Type :=
| Requested | Running | Committed | LockInterrupted | LockFailed.

#[export] Instance ChatLockState_eq_dec : EqDecision ChatLockState.
Proof. solve_decision. Defined.

Record ChatLock : Type := mkLock {
  lk_tenant_id : string;
  lk_user_id : string;
  lk_conversation_id : string;
  lk_turn_id : string;
  lk_user_message_id : string;
  lk_text : string;
  lk_parent_message_id : option string;
  lk_bearer_subject : string;
  lk_state : ChatLockState;
  lk_worker_id : option string;
  lk_stop_requested : bool;
  lk_stop_requested_by : option string;
  lk_stop_requested_at : option DateTime;
  lk_lease_expires_at : DateTime;
  lk_assistant_message_id : option string;
  lk_terminal_content : option string;
  lk_terminal_error : option string;
  lk_terminal_event_published : bool;
}.

#[export] Instance ChatLock_eq_dec : EqDecision ChatLock.
Proof. solve_decision. Defined.

(** [is_expired], at an instant *)
Definition is_expired (lock : ChatLock) (now : DateTime) : bool :=
  lk_lease_expires_at lock <=? now.

(** [ChatLock::is_terminal] *)
Definition lock_is_terminal (lock : ChatLock) : bool :=
  match lk_state lock with
  | Committed | LockInterrupted | LockFailed => true
  | Requested | Running => false
  end.

Record StopSignal : Type := mkStop {
  sg_tenant_id : string;
  sg_conversation_id : string;
  sg_turn_id : string;
}.

Record ReplayTurn : Type := mkTurn {
  rt_turn_id : string;
  rt_start_seq : Z;
  rt_end_seq : option Z;
}.

Record ReplayIndex : Type := mkIndex {
  ri_previous_turn : option ReplayTurn;
  ri_current_turn : option ReplayTurn;
}.

#[export] Instance ReplayTurn_eq_dec : EqDecision ReplayTurn.
Proof. solve_decision. Defined.
#[export] Instance ReplayIndex_eq_dec : EqDecision ReplayIndex.
Proof. solve_decision. Defined.

Record ChatTerminalUpdate : Type := mkTerminal {
  tu_state : ChatLockState;
  tu_assistant_message_id : option string;
  tu_content : option string;
  tu_error : option string;
}.

Record SequencedChatEvent : Type := mkSequenced {
  se_event_id : string;
  se_envelope : ChatEventEnvelope;
}.

#[export] Instance SequencedChatEvent_eq_dec : EqDecision SequencedChatEvent.
Proof. solve_decision. Defined.

(** ** Subjects and keys *)

Definition command_turn_requested : string := "chat.commands.turn_requested".
Definition subjects_events (tenant_id conversation_id : string) : string :=
  "chat.events." +:+ tenant_id +:+ "." +:+ conversation_id.
Definition subjects_control (worker_id : string) : string :=
  "chat.control.worker." +:+ worker_id +:+ ".stop".
Definition lock_key (tenant_id conversation_id : string) : string :=
  tenant_id +:+ "/" +:+ conversation_id.

(** The lock table, by [lock_key]. *)
Abbreviation Locks := (gmap string ChatLock).

(** ** Durations from the environment, in nanoseconds *)

Section env.
Variable env : string → option string.

Definition env_u64 (name : string) (default_seconds : Z) : Z :=
  default default_seconds
    (value ← env name;
     seconds ← parse_u64 value;
     if 0 <? seconds then Some seconds else None).

Definition duration_from_env (name : string) (default_seconds : Z) : Z :=
  env_u64 name default_seconds * 1000000000.

Definition chat_lock_ttl : Z :=
  duration_from_env "CHAT_LOCK_TTL_SECONDS" DEFAULT_CHAT_LOCK_TTL_SECONDS.
Definition chat_events_max_age : Z :=
  duration_from_env "CHAT_EVENTS_MAX_AGE_SECONDS" DEFAULT_CHAT_EVENTS_MAX_AGE_SECONDS.
Definition chat_replay_ttl : Z :=
  duration_from_env "CHAT_REPLAY_TTL_SECONDS" DEFAULT_CHAT_REPLAY_TTL_SECONDS.
Definition chat_command_ack_wait : Z :=
  duration_from_env "CHAT_COMMAND_ACK_WAIT_SECONDS" DEFAULT_CHAT_COMMAND_ACK_WAIT_SECONDS.

(** [lock_expires_at], at an instant.  The [expect] of the code and the range of
    [DateTime] bind only from a TTL of 260 thousand years on. *)
Definition lock_expires_at (now : DateTime) : DateTime := now + chat_lock_ttl.

(** [ChatLock::requested] *)
Definition requested (now : DateTime)
    (tenant_id user_id conversation_id turn_id user_message_id text : string)
    (parent_message_id : option string) (bearer_subject : string) : ChatLock :=
  mkLock tenant_id user_id conversation_id turn_id user_message_id text parent_message_id
    bearer_subject Requested None false None None (lock_expires_at now) None None None false.

(** ** What the methods write into a lock *)

Definition claimed (lock : ChatLock) (worker_id : string) (now : DateTime) : ChatLock :=
  let 'mkLock t u c i m x p b _ _ sr sb sa _ a tc te pub := lock in
  mkLock t u c i m x p b Running (Some worker_id) sr sb sa (lock_expires_at now) a tc te pub.

Definition terminated (lock : ChatLock) (terminal : ChatTerminalUpdate) (now : DateTime)
  : ChatLock :=
  let 'mkLock t u c i m x p b _ w sr sb sa _ _ _ _ _ := lock in
  mkLock t u c i m x p b (tu_state terminal) w sr sb sa (lock_expires_at now)
    (tu_assistant_message_id terminal) (tu_content terminal) (tu_error terminal) false.

Definition published (lock : ChatLock) : ChatLock :=
  let 'mkLock t u c i m x p b s w sr sb sa e a tc te _ := lock in
  mkLock t u c i m x p b s w sr sb sa e a tc te true.

Definition stopped (lock : ChatLock) (requested_by : string) (now : DateTime) : ChatLock :=
  let 'mkLock t u c i m x p b s w _ _ _ e a tc te pub := lock in
  mkLock t u c i m x p b s w true (Some requested_by) (Some now) e a tc te pub.

Definition renewed (lock : ChatLock) (now : DateTime) : ChatLock :=
  let 'mkLock t u c i m x p b s w sr sb sa _ a tc te pub := lock in
  mkLock t u c i m x p b s w sr sb sa (lock_expires_at now) a tc te pub.

(** ** InMemoryChatBus: the lock methods *)

Definition mem_acquire_lock (now : DateTime) (lock : ChatLock) (locks : Locks)
  : Locks * result unit ChatBusError :=
  let key := lock_key (lk_tenant_id lock) (lk_conversation_id lock) in
  if match locks !! key with
     | Some existing => negb (is_expired existing now)
     | None => false
     end
  then (locks, Err InFlight)
  else (<[key := lock]> locks, Ok tt).

Definition mem_load_lock (tenant_id conversation_id : string) (locks : Locks)
  : Locks * result (option ChatLock) ChatBusError :=
  (locks, Ok (locks !! lock_key tenant_id conversation_id)).

Definition mem_claim_lock (now now' : DateTime)
    (tenant_id conversation_id turn_id worker_id : string) (locks : Locks)
  : Locks * result ChatLock ChatBusError :=
  let key := lock_key tenant_id conversation_id in
  match locks !! key with
  | None => (locks, Err (Payload "chat lock payload missing before worker claim"))
  | Some existing =>
      if bool_decide (lk_turn_id existing = turn_id) then
        if lock_is_terminal existing then (locks, Ok existing)
        else if is_expired existing now
        then (locks, Err (Payload "chat lock payload expired before worker claim"))
        else if bool_decide (lk_state existing = Running)
             && bool_decide (lk_worker_id existing ≠ Some worker_id)
        then (locks, Err InFlight)
        else
          let existing := claimed existing worker_id now' in
          (<[key := existing]> locks, Ok existing)
      else if negb (is_expired existing now) then (locks, Err InFlight)
      else (locks, Err (Payload "chat lock payload missing before worker claim"))
  end.

(** [if let Some(worker_id) = worker_id { if lock.worker_id != Some(worker_id) … }] *)
Definition other_worker (worker_id : option string) (lock : ChatLock) : bool :=
  match worker_id with
  | Some worker_id => bool_decide (lk_worker_id lock ≠ Some worker_id)
  | None => false
  end.

Definition mem_mark_lock_terminal (now : DateTime) (tenant_id conversation_id turn_id : string)
    (worker_id : option string) (terminal : ChatTerminalUpdate) (locks : Locks)
  : Locks * result ChatLock ChatBusError :=
  let key := lock_key tenant_id conversation_id in
  match locks !! key with
  | None => (locks, Err InFlight)
  | Some lock =>
      if bool_decide (lk_turn_id lock ≠ turn_id) then (locks, Err InFlight)
      else if other_worker worker_id lock then (locks, Err InFlight)
      else
        let lock := terminated lock terminal now in
        (<[key := lock]> locks, Ok lock)
  end.

Definition mem_mark_terminal_event_published (tenant_id conversation_id turn_id : string)
    (locks : Locks) : Locks * result unit ChatBusError :=
  let key := lock_key tenant_id conversation_id in
  match locks !! key with
  | None => (locks, Ok tt)
  | Some lock =>
      if bool_decide (lk_turn_id lock = turn_id) && lock_is_terminal lock
      then (<[key := published lock]> locks, Ok tt)
      else (locks, Ok tt)
  end.

Definition mem_request_stop (now now' : DateTime)
    (tenant_id conversation_id requested_by : string) (locks : Locks)
  : Locks * result (option ChatLock) ChatBusError :=
  let key := lock_key tenant_id conversation_id in
  match locks !! key with
  | Some lock =>
      if negb (is_expired lock now) then
        let lock := stopped lock requested_by now' in
        (<[key := lock]> locks, Ok (Some lock))
      else (delete key locks, Ok None)
  | None => (locks, Ok None)
  end.

Definition mem_stop_requested (now : DateTime) (tenant_id conversation_id turn_id : string)
    (locks : Locks) : Locks * result bool ChatBusError :=
  (locks, Ok (match locks !! lock_key tenant_id conversation_id with
              | Some lock =>
                  negb (is_expired lock now) && bool_decide (lk_turn_id lock = turn_id)
                  && lk_stop_requested lock
              | None => false
              end)).

Definition mem_renew_lock (now now' : DateTime)
    (tenant_id conversation_id turn_id worker_id : string) (locks : Locks)
  : Locks * result ChatLock ChatBusError :=
  let key := lock_key tenant_id conversation_id in
  match locks !! key with
  | None => (locks, Err InFlight)
  | Some lock =>
      if bool_decide (lk_turn_id lock ≠ turn_id)
         || bool_decide (lk_worker_id lock ≠ Some worker_id) || is_expired lock now
      then (locks, Err InFlight)
      else
        let lock := renewed lock now' in
        (<[key := lock]> locks, Ok lock)
  end.

Definition mem_release_lock (tenant_id conversation_id turn_id : string) (locks : Locks) : Locks :=
  let key := lock_key tenant_id conversation_id in
  match locks !! key with
  | Some lock => if bool_decide (lk_turn_id lock = turn_id) then delete key locks else locks
  | None => locks
  end.
End env.
