(* ===== verification/Kv.v ===== *)
(** * A JetStream key-value bucket

    The store behind the conversation locks and the replay index
    (crates/nats/src/lib.rs) and behind the upload records
    (document-adapters/src/jetstream/upload_state_store.rs).  [KvE] is the part of
    the async-nats client those files call, with the clock; [kv_step] is what
    its documentation says a bucket may answer: a revision-checked write lands
    or fails, and one that is reported failed may have landed all the same.
    A bucket is a stream, so its state is the list of the writes it accepted,
    newest first; entries older than [max_age] may disappear.

    No code of the repository is modelled here. *)

From S2P Require Import Prelude Text Events.

Local Open Scope Z_scope.

Inductive Operation : Type := Put | OpDelete | Purge.

#[export] Instance Operation_eq_dec : EqDecision Operation.
Proof. solve_decision. Defined.

Record Entry : Type := mkEntry {
  et_value : bytes;
  et_revision : Z;
  et_operation : Operation;
}.

Inductive CreateErrorKind : Type := AlreadyExists | CreateOther.
Inductive UpdateErrorKind : Type := WrongLastRevision | UpdateOther.

Inductive KvE : Type → Type :=
| KvEntry (key : string) : KvE (result (option Entry) string)
| KvCreate (key : string) (payload : bytes) : KvE (result Z (CreateErrorKind * string))
| KvUpdate (key : string) (payload : bytes) (revision : Z)
    : KvE (result Z (UpdateErrorKind * string))
| KvPurge (key : string) (revision : option Z) : KvE (result unit string)
| UtcNow : KvE DateTime.

(** ** The bucket *)

Record KvWrite : Type := mkWrite {
  kv_seq : Z;
  kv_time : DateTime;
  kv_key : string;
  kv_op : Operation;
  kv_value : bytes;
}.

Record KvWorld : Type := mkKv {
  kw_log : list KvWrite;
  kw_floor : Z;
  kw_now : DateTime;
}.

(** The last write to [key], aged out or not. *)
Fixpoint last_write (key : string) (log : list KvWrite) : option KvWrite :=
  match log with
  | [] => None
  | wr :: log => if bool_decide (kv_key wr = key) then Some wr else last_write key log
  end.

Definition current (key : string) (w : KvWorld) : option KvWrite :=
  wr ← last_write key (kw_log w);
  if kw_floor w <? kv_seq wr then Some wr else None.

Definition entry_of (wr : KvWrite) : Entry := mkEntry (kv_value wr) (kv_seq wr) (kv_op wr).

Definition last_revision (key : string) (w : KvWorld) : Z :=
  default 0 (kv_seq <$> current key w).

Definition next_seq (w : KvWorld) : Z := Z.of_nat (length (kw_log w)) + 1.

Definition landed (key : string) (op : Operation) (payload : bytes) (w : KvWorld) : KvWorld :=
  mkKv (mkWrite (next_seq w) (kw_now w) key op payload :: kw_log w) (kw_floor w) (kw_now w).

(** A write that may land: it does and is acknowledged, it does and the answer
    is lost, or it does not. *)
Definition attempt {K} (other : K) (w w1 : KvWorld) (w' : KvWorld) (x : result Z (K * string))
  : Prop :=
  (w' = w1 ∧ x = Ok (next_seq w)) ∨ (∃ m, x = Err (other, m) ∧ (w' = w ∨ w' = w1)).

Definition exists_entry (key : string) (w : KvWorld) : bool :=
  match current key w with Some wr => bool_decide (kv_op wr = Put) | None => false end.

Definition kv_step (X : Type) (e : KvE X) (w w' : KvWorld) : X → Prop :=
  match e in KvE X return X → Prop with
  | UtcNow => λ x, w' = w ∧ x = kw_now w
  | KvEntry key => λ x, w' = w ∧ (x = Ok (entry_of <$> current key w) ∨ ∃ m, x = Err m)
  | KvCreate key payload => λ x,
      if exists_entry key w
      then w' = w ∧ ∃ kind m, x = Err (kind, m)
      else attempt CreateOther w (landed key Put payload w) w' x
  | KvUpdate key payload revision => λ x,
      if bool_decide (last_revision key w = revision)
      then attempt UpdateOther w (landed key Put payload w) w' x
      else w' = w ∧ ∃ kind m, x = Err (kind, m)
  | KvPurge key revision => λ x,
      if match revision with
         | Some revision => bool_decide (last_revision key w = revision)
         | None => true
         end
      then (w' = landed key Purge [] w ∧ x = Ok tt) ∨
           (∃ m, x = Err m ∧ (w' = w ∨ w' = landed key Purge [] w))
      else w' = w ∧ ∃ m, x = Err m
  end.

(** Time passes, and entries of age [max_age] disappear. *)
Inductive kv_env (max_age : Z) : KvWorld → KvWorld → Prop :=
| kv_ages w floor now :
    kw_now w ≤ now → kw_floor w ≤ floor ≤ Z.of_nat (length (kw_log w)) →
    (∀ wr, wr ∈ kw_log w → kv_seq wr ≤ floor → kv_time wr + max_age ≤ now) →
    kv_env max_age w (mkKv (kw_log w) floor now).

(** A bucket that never fails, for concrete runs. *)
Definition kv_healthy : handler KvE KvWorld := λ A e w,
  match e in KvE A return KvWorld * A with
  | UtcNow => (w, kw_now w)
  | KvEntry key => (w, Ok (entry_of <$> current key w))
  | KvCreate key payload =>
      if exists_entry key w then (w, Err (AlreadyExists, "key already exists"))
      else (landed key Put payload w, Ok (next_seq w))
  | KvUpdate key payload revision =>
      if bool_decide (last_revision key w = revision)
      then (landed key Put payload w, Ok (next_seq w))
      else (w, Err (WrongLastRevision, "wrong last revision"))
  | KvPurge key revision =>
      if match revision with
         | Some revision => bool_decide (last_revision key w = revision)
         | None => true
         end
      then (landed key Purge [] w, Ok tt) else (w, Err "wrong last revision")
  end.

Lemma kv_healthy_step A (e : KvE A) w w' x : kv_healthy A e w = (w', x) → kv_step A e w w' x.
Proof.
  destruct e; simpl; intros H; repeat case_match; simplify_eq; unfold attempt; eauto 10.
Qed.

Lemma kv_pool_run {R} env (ts : list (prog KvE R)) i p w :
  ts !! i = Some p →
  rtc (pool_step kv_step env)
    (w, ts) ((run kv_healthy p w).1, <[i := Ret (run kv_healthy p w).2]> ts).
Proof.
  apply (pool_run_sub kv_step). intros A e w1 w2 x. apply kv_healthy_step.
Qed.

(** ** The log of a bucket *)

(** Sequence numbers are positions and times do not decrease. *)
Fixpoint wf_log (now : DateTime) (log : list KvWrite) : Prop :=
  match log with
  | [] => True
  | wr :: log =>
      kv_seq wr = Z.of_nat (length log) + 1 ∧ kv_time wr ≤ now ∧ wf_log (kv_time wr) log
  end.

(** Every write is one its writer was entitled to, given the writes before it. *)
Fixpoint all_writes (ok : list KvWrite → KvWrite → Prop) (log : list KvWrite) : Prop :=
  match log with
  | [] => True
  | wr :: log => ok log wr ∧ all_writes ok log
  end.

Record kv_inv (ok : list KvWrite → KvWrite → Prop) (max_age : Z) (w : KvWorld) : Prop := {
  ki_wf : wf_log (kw_now w) (kw_log w);
  ki_writes : all_writes ok (kw_log w);
  ki_floor wr : wr ∈ kw_log w → kv_seq wr ≤ kw_floor w → kv_time wr + max_age ≤ kw_now w;
  ki_future : kw_floor w ≤ Z.of_nat (length (kw_log w));
}.

(** What every step keeps. *)
Definition kv_guarantee ok max_age (w w' : KvWorld) : Prop :=
  kv_inv ok max_age w →
  kv_inv ok max_age w' ∧ kw_log w `suffix_of` kw_log w' ∧ kw_now w ≤ kw_now w'.

#[export] Instance kv_guarantee_refl ok max_age : Reflexive (kv_guarantee ok max_age).
Proof. intros w Hw. done. Qed.

#[export] Instance kv_guarantee_trans ok max_age : Transitive (kv_guarantee ok max_age).
Proof.
  intros w1 w2 w3 H1 H2 Hw. destruct (H1 Hw) as (Hw2 & ? & ?). destruct (H2 Hw2) as (? & ? & ?).
  split_and!; [done | by etrans | lia].
Qed.

Lemma wf_log_mono now now' log : now ≤ now' → wf_log now log → wf_log now' log.
Proof. destruct log as [|wr log]; simpl; [done |]. intros ? (? & ? & ?). split_and!; [done | lia | done]. Qed.

Lemma wf_log_bounds now log wr :
  wf_log now log → wr ∈ log → 1 ≤ kv_seq wr ≤ Z.of_nat (length log) ∧ kv_time wr ≤ now.
Proof.
  revert now. induction log as [|w log IH]; intros now Hwf Hin; [by apply not_elem_of_nil in Hin |].
  destruct Hwf as (Hs & Ht & Hwf). cbn [length].
  apply elem_of_cons in Hin as [-> | Hin]; [lia |]. destruct (IH _ Hwf Hin). lia.
Qed.

Lemma wf_log_unique now log w1 w2 :
  wf_log now log → w1 ∈ log → w2 ∈ log → kv_seq w1 = kv_seq w2 → w1 = w2.
Proof.
  revert now. induction log as [|w log IH]; intros now Hwf H1 H2 Hs; [by apply not_elem_of_nil in H1 |].
  destruct Hwf as (Hw & _ & Hwf).
  apply elem_of_cons in H1 as [-> | H1]; apply elem_of_cons in H2 as [-> | H2]; try done.
  - pose proof (wf_log_bounds _ _ _ Hwf H2). lia.
  - pose proof (wf_log_bounds _ _ _ Hwf H1). lia.
  - by eapply IH.
Qed.

Lemma last_write_elem key log wr : last_write key log = Some wr → wr ∈ log ∧ kv_key wr = key.
Proof.
  induction log as [|w log IH]; simpl; [done |]. case_bool_decide as Hk.
  - intros [= ->]. split; [by left | done].
  - intros H. destruct (IH H). split; [by right | done].
Qed.

Lemma current_last key w wr : current key w = Some wr → last_write key (kw_log w) = Some wr.
Proof. unfold current. destruct (last_write key (kw_log w)); simpl; [case_match |]; by intros ?; simplify_eq. Qed.

Lemma current_none key w :
  current key w = None →
  last_write key (kw_log w) = None ∨
  ∃ wr, last_write key (kw_log w) = Some wr ∧ kv_seq wr ≤ kw_floor w.
Proof.
  unfold current. destruct (last_write key (kw_log w)) as [wr|]; simpl; [| by left].
  case_match eqn:H; [done |]. intros _. right. exists wr. split; [done |].
  apply Z.ltb_ge in H. lia.
Qed.

Lemma all_writes_suffix ok log log' : log `suffix_of` log' → all_writes ok log' → all_writes ok log.
Proof.
  intros [new ->]. induction new as [|w new IH]; simpl; [done |]. intros [_ H]. by apply IH.
Qed.

Lemma wf_log_suffix now log log' : log `suffix_of` log' → wf_log now log' → wf_log now log.
Proof.
  intros [new ->]. revert now. induction new as [|w new IH]; simpl; intros now; [done |].
  intros (_ & Ht & Hwf). eapply wf_log_mono; [| by apply IH]. done.
Qed.

(** The write at a position of a good log was good where it landed. *)
Lemma all_writes_elem ok log wr :
  all_writes ok log → wr ∈ log → ∃ old, (wr :: old) `suffix_of` log ∧ ok old wr.
Proof.
  induction log as [|w log IH]; intros Hall Hin; [by apply not_elem_of_nil in Hin |].
  destruct Hall as [Hok Hall]. apply elem_of_cons in Hin as [-> | Hin].
  - exists log. done.
  - destruct (IH Hall Hin) as (old & Hsuf & Ho). exists old. split; [by apply suffix_cons_r | done].
Qed.

(** ** Steps *)

(** ** Steps

    Rules for the calls of a program that shares a bucket with others, over a
    precondition [P] that the others keep. *)

Section steps.
Context (ok : list KvWrite → KvWrite → Prop) (max_age : Z).

Abbreviation inv := (kv_inv ok max_age).
Abbreviation guarantee := (kv_guarantee ok max_age).
Abbreviation kvrg := (rg kv_step guarantee).

Lemma kv_env_guarantee w w' : kv_env max_age w w' → guarantee w w'.
Proof.
  intros H. destruct H as [w f now Hn Hf Hage]. intros [Hwf Hall Hfl Hfu].
  split; [| split; [reflexivity | done]]. constructor; simpl.
  - by eapply wf_log_mono.
  - done.
  - done.
  - lia.
Qed.

Lemma kv_inv_stable : stable guarantee inv.
Proof. intros w w' Hw HG. by apply HG. Qed.

Lemma landed_guarantee key op payload w :
  (inv w → ok (kw_log w) (mkWrite (next_seq w) (kw_now w) key op payload)) →
  guarantee w (landed key op payload w).
Proof.
  intros Hok Hw. pose proof Hw as [Hwf Hall Hfl Hfu]. split_and!.
  - constructor; simpl.
    + split_and!; [done | lia | done].
    + split; [by apply Hok | done].
    + intros wr [-> | Hin]%elem_of_cons Hseq; simpl in *; [unfold next_seq in *; lia |].
      by apply Hfl.
    + lia.
  - by eexists [_].
  - simpl. lia.
Qed.

(** A precondition the others keep, and under which the bucket is good. *)
Definition kept (P : KvWorld → Prop) : Prop := stable guarantee P ∧ ∀ w, P w → inv w.

Lemma kept_inv : kept inv.
Proof. split; [apply kv_inv_stable | done]. Qed.

(** Facts about the past. *)
Definition past (φ : list KvWrite → DateTime → Prop) (w : KvWorld) : Prop :=
  ∃ log now, log `suffix_of` kw_log w ∧ now ≤ kw_now w ∧ φ log now.

Lemma kept_past P φ : kept P → kept (λ w, P w ∧ past φ w).
Proof.
  intros [Hst HP]. split; [| by intros w [? _]; apply HP].
  intros w w' [Hw (log & now & Hlog & Hnow & Hφ)] HG.
  split; [by eapply Hst |]. destruct (HG (HP _ Hw)) as (_ & Hsuf & Hle).
  exists log, now. split_and!; [by etrans | lia | done].
Qed.

Lemma kept_pure P (φ : Prop) : kept P → kept (λ w, P w ∧ φ).
Proof.
  intros [Hst HP]. split; [| by intros w [? _]; apply HP].
  intros w w' [Hw Hφ] HG. split; [by eapply Hst | done].
Qed.

Lemma past_now φ (w : KvWorld) : φ (kw_log w) (kw_now w) → past φ w.
Proof. exists (kw_log w), (kw_now w). split_and!; [reflexivity | lia | done]. Qed.

Lemma rg_now {B} (f : DateTime → prog KvE B) P R :
  kept P →
  (∀ n, kvrg (f n) (λ w, P w ∧ past (λ log now, now = n ∧ ∃ w0, P w0 ∧ kw_log w0 = log ∧ kw_now w0 = now) w) R) →
  kvrg (prog_bind (call UtcNow) f) P R.
Proof.
  intros HP Hf. eapply (rg_call _ _ _ _ _ (λ n w, P w ∧ past _ w)); [| exact Hf].
  intros w w' n Hw [-> ->]. split_and!; [reflexivity | by apply kept_past | done |].
  apply past_now. split; [done |]. by exists w.
Qed.

(** The clock, bounded by what the precondition says of the past. *)
Lemma rg_clock {B} t (f : DateTime → prog KvE B) P R :
  kept P → (∀ w, P w → t ≤ kw_now w) →
  (∀ n, t ≤ n → kvrg (f n) (λ w, P w ∧ n ≤ kw_now w) R) →
  kvrg (prog_bind (call UtcNow) f) P R.
Proof.
  intros HP Ht Hf. apply rg_now; [done |]. intros n. apply (rg_pure _ _ (t ≤ n)).
  - intros w (_ & log & now & _ & _ & -> & w0 & Hw0 & _ & <-). by apply Ht.
  - intros Hn. eapply rg_weaken; [by apply Hf | | done].
    intros w (Hw & log & now & _ & Hle & -> & _). done.
Qed.

(** What a read of [key] tells: the entry was the last one, or there was none
    (never, or aged out) at the moment of the read. *)
Definition read_fact (P : KvWorld → Prop) (key : string) (x : result (option Entry) string)
    (log : list KvWrite) (now : DateTime) : Prop :=
  ∃ w0, P w0 ∧ kw_log w0 = log ∧ kw_now w0 = now ∧
  match x with
  | Ok (Some e) => ∃ wr, last_write key log = Some wr ∧ e = entry_of wr
  | Ok None => current key w0 = None
  | Err _ => True
  end.

Lemma rg_entry {B} key (f : _ → prog KvE B) P R :
  kept P →
  (∀ x, kvrg (f x) (λ w, P w ∧ past (read_fact P key x) w) R) →
  kvrg (prog_bind (call (KvEntry key)) f) P R.
Proof.
  intros HP Hf. eapply (rg_call _ _ _ _ _ (λ x w, P w ∧ past _ w)); [| exact Hf].
  intros w w' x Hw [-> Hx]. split_and!; [reflexivity | by apply kept_past | done |].
  apply past_now. exists w. split_and!; [done.. |].
  destruct Hx as [-> | [m ->]]; [| done].
  destruct (current key w) as [wr|] eqn:Hc; simpl; [| done].
  exists wr. split; [by apply current_last | done].
Qed.

(** A write of this program, in the log at the position it landed. *)
Definition wrote (key : string) (op : Operation) (payload : bytes)
    (φ : list KvWrite → DateTime → Prop) (log : list KvWrite) (now : DateTime) : Prop :=
  ∃ old, log = mkWrite (Z.of_nat (length old) + 1) now key op payload :: old ∧ φ old now.

Lemma attempt_rg {K} (other : K) key op payload P φ w w' x :
  kept P → P w →
  ok (kw_log w) (mkWrite (next_seq w) (kw_now w) key op payload) →
  φ (kw_log w) (kw_now w) →
  attempt other w (landed key op payload w) w' x →
  guarantee w w' ∧ P w' ∧ (is_ok x = true → past (wrote key op payload φ) w').
Proof.
  intros [Hst HP] Hw Hok Hφ Hat.
  assert (guarantee w (landed key op payload w)) as HG by (by apply landed_guarantee).
  assert (past (wrote key op payload φ) (landed key op payload w)) as Hpast
    by (apply past_now; by eexists).
  destruct Hat as [[-> ->] | (m & -> & [-> | ->])].
  - split_and!; [done | by eapply Hst | done].
  - done.
  - split_and!; [done | by eapply Hst | done].
Qed.

Lemma kept_wrote P key op payload φ (b : bool) :
  kept P → kept (λ w, P w ∧ (b = true → past (wrote key op payload φ) w)).
Proof.
  intros HP. destruct b.
  - destruct (kept_past P (wrote key op payload φ) HP) as [Hst Hinv]. split.
    + intros w w' [Hw Hp] HG. destruct (Hst w w') as [? ?]; [by split; [| apply Hp] | done | done].
    + by intros w [? _]; apply HP.
  - destruct HP as [Hst Hinv]. split; [| by intros w [? _]; apply Hinv].
    intros w w' [Hw _] HG. split; [by eapply Hst | done].
Qed.

(** A revision that is the last one identifies the last write. *)
Lemma revision_last key wr w :
  inv w → wr ∈ kw_log w → last_revision key w = kv_seq wr →
  last_write key (kw_log w) = Some wr.
Proof.
  intros [Hwf _ _ _] Hin Hrev. unfold last_revision in Hrev.
  destruct (current key w) as [wr'|] eqn:Hc; simpl in Hrev.
  - apply current_last in Hc as Hl. rewrite Hl. f_equal.
    apply last_write_elem in Hl as [Hl _]. by eapply wf_log_unique.
  - pose proof (wf_log_bounds _ _ _ Hwf Hin). lia.
Qed.

(** A compare-and-swap against the entry last read. *)
Lemma rg_kv_update {B} key payload wr (f : _ → prog KvE B) P R :
  kept P → (∀ w, P w → wr ∈ kw_log w ∧ kv_key wr = key) →
  (∀ w, P w → last_write key (kw_log w) = Some wr →
     ok (kw_log w) (mkWrite (next_seq w) (kw_now w) key Put payload)) →
  (∀ x, kvrg (f x) (λ w, P w ∧ (is_ok x = true → past (wrote key Put payload
          (λ old now, last_write key old = Some wr ∧
             ∃ w0, P w0 ∧ kw_log w0 = old ∧ kw_now w0 = now)) w)) R) →
  kvrg (prog_bind (call (KvUpdate key payload (kv_seq wr))) f) P R.
Proof.
  intros HP Hin Hok Hf.
  eapply (rg_call _ _ _ _ _ (λ x w, P w ∧ (is_ok x = true → past _ w))); [| exact Hf].
  intros w w' x Hw Hx. simpl in Hx. case_bool_decide as Hrev.
  - assert (last_write key (kw_log w) = Some wr) as Hlast
      by (by eapply revision_last; [apply HP | apply Hin |]).
    apply (attempt_rg _ _ _ _ P (λ old now, last_write key old = Some wr ∧
             ∃ w0, P w0 ∧ kw_log w0 = old ∧ kw_now w0 = now)) in Hx as (? & ? & ?);
      [| done | done | by apply Hok | split; [done | by exists w]].
    split_and!; [done | by apply kept_wrote | done | done].
  - destruct Hx as (-> & kind & m & ->).
    split_and!; [reflexivity | by apply kept_wrote | done | done].
Qed.

(** A creation: no entry is there, though an old one may have aged out. *)
Lemma rg_create {B} key payload (f : _ → prog KvE B) P R :
  kept P →
  (∀ w, P w → exists_entry key w = false →
     ok (kw_log w) (mkWrite (next_seq w) (kw_now w) key Put payload)) →
  (∀ x, kvrg (f x) (λ w, P w ∧ (is_ok x = true → past (wrote key Put payload
          (λ old now, ∃ w0, P w0 ∧ exists_entry key w0 = false ∧
             kw_log w0 = old ∧ kw_now w0 = now)) w)) R) →
  kvrg (prog_bind (call (KvCreate key payload)) f) P R.
Proof.
  intros HP Hok Hf.
  eapply (rg_call _ _ _ _ _ (λ x w, P w ∧ (is_ok x = true → past _ w))); [| exact Hf].
  intros w w' x Hw Hx. simpl in Hx. destruct (exists_entry key w) eqn:He.
  - destruct Hx as (-> & kind & m & ->).
    split_and!; [reflexivity | by apply kept_wrote | done | done].
  - apply (attempt_rg _ _ _ _ P (λ old now, ∃ w0, P w0 ∧ exists_entry key w0 = false ∧
             kw_log w0 = old ∧ kw_now w0 = now)) in Hx as (? & ? & ?);
      [| done | done | by apply Hok | by exists w].
    split_and!; [done | by apply kept_wrote | done | done].
Qed.

Lemma rg_purge {B} key wr (f : _ → prog KvE B) P R :
  kept P → (∀ w, P w → wr ∈ kw_log w ∧ kv_key wr = key) →
  (∀ w, P w → last_write key (kw_log w) = Some wr →
     ok (kw_log w) (mkWrite (next_seq w) (kw_now w) key Purge [])) →
  (∀ x, kvrg (f x) P R) →
  kvrg (prog_bind (call (KvPurge key (Some (kv_seq wr)))) f) P R.
Proof.
  intros HP Hin Hok Hf. eapply (rg_call _ _ _ _ _ (λ _, P)); [| exact Hf].
  intros w w' x Hw Hx. simpl in Hx. case_bool_decide as Hrev.
  - assert (last_write key (kw_log w) = Some wr) as Hlast
      by (by eapply revision_last; [apply HP | apply Hin |]).
    assert (guarantee w (landed key Purge [] w)) as HG
      by (apply landed_guarantee; intros _; by apply Hok).
    assert (w' = w ∨ w' = landed key Purge [] w) as [-> | ->]
      by (destruct Hx as [[-> _] | (m & _ & H)]; auto).
    + split_and!; [reflexivity | apply HP | done].
    + split_and!; [done | apply HP | by eapply (proj1 HP)].
  - destruct Hx as (-> & m & ->). split_and!; [reflexivity | apply HP | done].
Qed.

(** A purge whatever the entry is. *)
Lemma rg_purge_any {B} key (f : _ → prog KvE B) P R :
  kept P →
  (∀ w, P w → ok (kw_log w) (mkWrite (next_seq w) (kw_now w) key Purge [])) →
  (∀ x, kvrg (f x) P R) →
  kvrg (prog_bind (call (KvPurge key None)) f) P R.
Proof.
  intros HP Hok Hf. eapply (rg_call _ _ _ _ _ (λ _, P)); [| exact Hf].
  intros w w' x Hw Hx. simpl in Hx.
  assert (guarantee w (landed key Purge [] w)) as HG by (apply landed_guarantee; intros _; by apply Hok).
  assert (w' = w ∨ w' = landed key Purge [] w) as [-> | ->]
    by (destruct Hx as [[-> _] | (m & _ & H)]; auto).
  - split_and!; [reflexivity | apply HP | done].
  - split_and!; [done | apply HP | by eapply (proj1 HP)].
Qed.
End steps.

(** ** A codec for concrete runs

    Any countable data has one: its code, a bit per byte. *)

Module Codec.
Section codec.
Context {A : Type} `{Countable A}.

Fixpoint bits (p : positive) : bytes :=
  match p with
  | xH => []
  | xO p => Byte.x00 :: bits p
  | xI p => Byte.x01 :: bits p
  end.

Fixpoint unbits (b : bytes) : positive :=
  match b with
  | [] => xH
  | Byte.x00 :: b => xO (unbits b)
  | _ :: b => xI (unbits b)
  end.

Lemma unbits_bits p : unbits (bits p) = p.
Proof. induction p as [p IH|p IH|]; simpl; [by rewrite IH.. | done]. Qed.

Definition to_vec (x : A) : result bytes string := Ok (bits (encode x)).
Definition from_slice (b : bytes) : result A string := ok_or (decode (unbits b)) "invalid data".

Lemma roundtrip x b : to_vec x = Ok b → from_slice b = Ok x.
Proof.
  intros [= <-]. unfold from_slice. by rewrite unbits_bits, decode_encode.
Qed.
End codec.
End Codec.
