(* ===== verification/UploadKv.v ===== *)
(** * The upload records in their bucket

    crates/document-adapters/src/jetstream/upload_state_store.rs, the
    [UploadStateStore] of production, over the key-value bucket of Kv.v, with the
    status transition of transition.rs on top of it.  The bucket's [max_age] is
    the lifetime of an upload: [ensure_topology] of jetstream/mod.rs sets it and
    nothing else ends a record but a purge. *)

From S2P Require Import Prelude Text Events Keys Ports Memory Transition Kv.

Local Open Scope Z_scope.

(** serde_json on an upload record. *)
Class UploadCodec := {
  upload_to_vec : UploadState → result bytes string;
  upload_from_slice : bytes → result UploadState string;
  upload_codec_roundtrip s b : upload_to_vec s = Ok b → upload_from_slice b = Ok s;
}.

Section store.
Context {UC : UploadCodec}.

(** [KvUploadStateStore::create] *)
Definition kv_create (state : UploadState) : prog KvE (result unit ContextError) :=
  match upload_to_vec state with
  | Err error => Ret (Err (CPayload ("encode upload state: " +:+ error)))
  | Ok payload =>
      let* r := call (KvCreate (own_key state) payload) in
      Ret (match r with
           | Ok _ => Ok tt
           | Err (Kv.AlreadyExists, _) => Err CAlreadyExists
           | Err (CreateOther, error) => Err (CUnavailable ("create upload state: " +:+ error))
           end)
  end.

(** [KvUploadStateStore::get] *)
Definition kv_get (tenant user upload_id : string) : prog KvE (result (option StoredUpload) ContextError) :=
  let key := upload_key tenant user upload_id in
  let* r := call (KvEntry key) in
  Ret (match r with
       | Err error => Err (CUnavailable ("get upload state: " +:+ error))
       | Ok None => Ok None
       | Ok (Some entry) =>
           if bool_decide (et_operation entry ≠ Put) then Ok None
           else
             match upload_from_slice (et_value entry) with
             | Err error => Err (CPayload ("decode upload state: " +:+ error))
             | Ok state => Ok (Some (mkStored state (et_revision entry)))
             end
       end).

(** [KvUploadStateStore::update]: a lost compare-and-swap is read again, to tell
    a conflict from a record that is gone. *)
Definition kv_update (state : UploadState) (revision : Z) : prog KvE (result Z ContextError) :=
  match upload_to_vec state with
  | Err error => Ret (Err (CPayload ("encode upload state: " +:+ error)))
  | Ok payload =>
      let* r := call (KvUpdate (own_key state) payload revision) in
      match r with
      | Ok revision => Ret (Ok revision)
      | Err (WrongLastRevision, _) =>
          let* entry := call (KvEntry (own_key state)) in
          Ret (match entry with
               | Ok (Some entry) => if bool_decide (et_operation entry = Put) then Err CConflict else Err CExpired
               | Ok None => Err CExpired
               | Err error => Err (CUnavailable ("re-read upload state after a lost CAS: " +:+ error))
               end)
      | Err (UpdateOther, error) => Ret (Err (CUnavailable ("update upload state: " +:+ error)))
      end
  end.

(** [KvUploadStateStore::delete] *)
Definition kv_delete (tenant user upload_id : string) : prog KvE (result unit ContextError) :=
  let* r := call (KvPurge (upload_key tenant user upload_id) None) in
  Ret (result_map_err (λ error, CUnavailable ("purge upload state: " +:+ error)) r).

(** The ports of a process whose upload records are in the bucket, whatever the
    other ports are. *)
Definition upload_ports {J : SerdeJson} (others : ∀ X, PortE X → prog KvE X) : ∀ X, PortE X → prog KvE X := λ X e,
  match e in PortE X return prog KvE X with
  | UpCreate state => kv_create state
  | UpGet tenant user upload_id => kv_get tenant user upload_id
  | UpUpdate state revision => kv_update state revision
  | UpDelete tenant user upload_id => kv_delete tenant user upload_id
  | other => others _ other
  end.

(** ** The life of a record *)

Section run.
Context {J : SerdeJson} (others : ∀ X, PortE X → prog KvE X) (max_age : Z).

(** What the use cases do with a record. *)
Inductive UploadOp : Type :=
| OpCreate (state : UploadState)
| OpStatus (tenant user upload_id : string) (status : UploadStatus) (now : DateTime)
| OpGet (tenant user upload_id : string)
| OpDelete (tenant user upload_id : string).

Inductive UploadReply : Type :=
| RCreated (r : result unit ContextError)
| RStatus (r : result Transition DocumentError)
| RGot (r : result (option StoredUpload) ContextError)
| RDeleted (r : result unit ContextError).

Definition reply {A} (f : A → UploadReply) (p : prog PortE A) : prog KvE UploadReply :=
  let* r := interp (upload_ports others) p in Ret (f r).

Definition upload_method (op : UploadOp) : prog KvE UploadReply :=
  match op with
  | OpCreate state => reply RCreated (call (UpCreate state))
  | OpStatus t u i status now => reply RStatus (set_status t u i status now)
  | OpGet t u i => reply RGot (call (UpGet t u i))
  | OpDelete t u i => reply RDeleted (call (UpDelete t u i))
  end.

Definition write_state (wr : KvWrite) : option UploadState :=
  match kv_op wr, upload_from_slice (kv_value wr) with
  | Put, Ok state => Some state
  | _, _ => None
  end.

Definition state_of (key : string) (log : list KvWrite) : option UploadState :=
  wr ← last_write key log; write_state wr.

(** Never there, purged, or past its age. *)
Definition absent (key : string) (log : list KvWrite) (now : DateTime) : Prop :=
  state_of key log = None ∨
  ∃ wr, last_write key log = Some wr ∧ kv_time wr + max_age ≤ now.

(** The record [s] moved from an open one. *)
Definition moved (key : string) (log : list KvWrite) (s : UploadState) : Prop :=
  ∃ s0 status now, state_of key log = Some s0 ∧ is_terminal (us_status s0) = false ∧
    s = with_status s0 status now.

(** What may be written: a record under its own key where there was none, an
    open record with another status, or a purge. *)
Definition upload_write (log : list KvWrite) (wr : KvWrite) : Prop :=
  match write_state wr with
  | Some s =>
      own_key s = kv_key wr ∧
      (absent (kv_key wr) log (kv_time wr) ∨ moved (kv_key wr) log s)
  | None => kv_op wr = Purge
  end.

(** A terminal record is written over only once its age has passed. *)
Definition terminal_is_final (log : list KvWrite) : Prop :=
  ∀ old wr s s', (wr :: old) `suffix_of` log →
    state_of (kv_key wr) old = Some s → is_terminal (us_status s) = true →
    write_state wr = Some s' →
    ∃ wr0, last_write (kv_key wr) old = Some wr0 ∧ kv_time wr0 + max_age ≤ kv_time wr.

Abbreviation inv := (kv_inv upload_write max_age).
Abbreviation guarantee := (kv_guarantee upload_write max_age).
Abbreviation uploadrg := (rg kv_step guarantee).
Abbreviation kept := (kept upload_write max_age).

(** What a method may answer, over the log its answer is given in. *)
Definition answer_ok (op : UploadOp) (r : UploadReply) (w : KvWorld) : Prop :=
  match op, r with
  | OpCreate s, RCreated (Ok _) =>
      past (λ log _, ∃ wr old, log = wr :: old ∧ kv_key wr = own_key s ∧ write_state wr = Some s ∧
              absent (own_key s) old (kv_time wr)) w
  | OpStatus t u i status now, RStatus (Ok (Applied s)) =>
      past (λ log _, ∃ wr old s0, log = wr :: old ∧ kv_key wr = upload_key t u i ∧ write_state wr = Some s ∧
              state_of (upload_key t u i) old = Some s0 ∧ is_terminal (us_status s0) = false ∧
              s = with_status s0 status now) w
  | OpStatus t u i _ _, RStatus (Ok (AlreadyTerminal s)) =>
      is_terminal (us_status s) = true ∧ past (λ log _, state_of (upload_key t u i) log = Some s) w
  | OpStatus t u i _ _, RStatus (Ok Expired) | OpGet t u i, RGot (Ok None) =>
      past (absent (upload_key t u i)) w
  | OpGet t u i, RGot (Ok (Some stored)) =>
      past (λ log _, state_of (upload_key t u i) log = Some (su_state stored)) w
  | _, _ => True
  end.

(** ** The proof *)

Lemma absent_now w key : inv w → exists_entry key w = false → absent key (kw_log w) (kw_now w).
Proof.
  intros Hw He. unfold absent, state_of, exists_entry in *.
  destruct (current key w) as [wr|] eqn:Hc.
  - apply current_last in Hc. rewrite Hc. left. cbn. unfold write_state. by destruct (kv_op wr).
  - apply current_none in Hc as [-> | (wr & Hl & Hfl)]; [by left |]. right. exists wr. split; [done |].
    eapply (ki_floor _ _ _ Hw); [by apply last_write_elem in Hl as [? _] | done].
Qed.

(** Reading an entry: it is gone, it is the last write, or the read failed. *)
Lemma rg_read_upload {B} key (f : result (option Entry) string → prog KvE B) P R :
  kept P →
  (∀ m, uploadrg (f (Err m)) P R) →
  (∀ x, match x with None => True | Some e => et_operation e ≠ Put end →
     uploadrg (f (Ok x)) (λ w, P w ∧ past (absent key) w) R) →
  (∀ wr, kv_op wr = Put → uploadrg (f (Ok (Some (entry_of wr))))
     (λ w, P w ∧ past (λ log _, last_write key log = Some wr) w) R) →
  uploadrg (prog_bind (call (KvEntry key)) f) P R.
Proof.
  intros HP Herr Hgone Hput. apply rg_entry; [done |]. intros [[e|]|m].
  3:{ eapply rg_pre; [| apply Herr]. by intros w [? _]. }
  2:{ eapply rg_pre; [| by apply Hgone].
      intros w (Hw & log & now & Hsuf & Hle & w0 & Hw0 & <- & <- & Hc). split; [done |].
      exists (kw_log w0), (kw_now w0). split_and!; [done.. |].
      apply absent_now; [by apply HP |]. unfold exists_entry. by rewrite Hc. }
  apply (rg_exists _ _ _ _ (λ wr w,
    (P w ∧ past (λ log _, last_write key log = Some wr) w) ∧ e = entry_of wr)).
  { intros w (Hw & log & now & Hsuf & Hle & w0 & _ & <- & _ & wr & Hl & ->).
    exists wr. split; [| done]. split; [done |]. by exists (kw_log w0), now. }
  intros wr. apply (rg_pure _ _ (e = entry_of wr)); [by intros w [_ ?] |]. intros ->.
  eapply rg_pre; [intros w [Hw _]; exact Hw |].
  destruct (decide (kv_op wr = Put)) as [Hop | Hop]; [by apply Hput |].
  eapply rg_pre; [| by apply Hgone].
  intros w [Hw (log & now & Hsuf & Hle & Hl)]. split; [done |].
  exists log, now. split_and!; [done.. |]. left. unfold state_of. rewrite Hl. cbn.
  unfold write_state. by destruct (kv_op wr).
Qed.

Lemma past_mono (φ ψ : list KvWrite → DateTime → Prop) w :
  (∀ log now, φ log now → ψ log now) → past φ w → past ψ w.
Proof. intros H (log & now & ? & ? & ?). exists log, now. split_and!; [done | done | by apply H]. Qed.

Lemma kept_mono (P Q : KvWorld → Prop) : (∀ w, P w ↔ Q w) → kept P → kept Q.
Proof.
  intros HPQ [Hst Hinv]. split; [| intros w ?%HPQ; by apply Hinv].
  intros w w' Hw HG. apply HPQ. eapply Hst; [by apply HPQ | done].
Qed.

Lemma write_state_put key payload s now q :
  upload_from_slice payload = Ok s → write_state (mkWrite q now key Put payload) = Some s.
Proof. intros H. unfold write_state. cbn. by rewrite H. Qed.

(** What [get] tells: the write it decoded, or that there was none. *)
Definition got (key : string) (r : result (option StoredUpload) ContextError) (w : KvWorld) : Prop :=
  match r with
  | Ok (Some stored) =>
      ∃ wr, su_revision stored = kv_seq wr ∧
        past (λ log _, last_write key log = Some wr ∧ write_state wr = Some (su_state stored)) w
  | Ok None => past (absent key) w
  | Err _ => True
  end.

Lemma kv_get_spec t u i P :
  kept P → uploadrg (kv_get t u i) P (λ r w, P w ∧ got (upload_key t u i) r w).
Proof.
  intros HP. unfold kv_get. apply rg_read_upload; [done | by intros m w Hw | |].
  - intros [e|] Hx w [Hw Habs]; cbn; [| done]. by rewrite bool_decide_true.
  - intros wr Hop w [Hw Hpast]. cbn. rewrite Hop, bool_decide_false by (by intros H).
    destruct (upload_from_slice (kv_value wr)) as [s|] eqn:Hs; [| done]. split; [done |].
    exists wr. split; [done |]. eapply past_mono; [| exact Hpast]. intros log now Hl. split; [done |].
    unfold write_state. by rewrite Hop, Hs.
Qed.

Lemma kv_update_spec s wr P :
  kept P → (∀ w, P w → wr ∈ kw_log w ∧ kv_key wr = own_key s) →
  (∀ w payload, P w → last_write (own_key s) (kw_log w) = Some wr → upload_from_slice payload = Ok s →
     upload_write (kw_log w) (mkWrite (next_seq w) (kw_now w) (own_key s) Put payload)) →
  uploadrg (kv_update s (kv_seq wr)) P (λ r w, P w ∧
    match r with
    | Ok _ => past (λ log _, ∃ new old, log = new :: old ∧ kv_key new = own_key s ∧ write_state new = Some s ∧
                last_write (own_key s) old = Some wr) w
    | Err CExpired => past (absent (own_key s)) w
    | Err _ => True
    end).
Proof.
  intros HP Hin Hok. unfold kv_update. destruct (upload_to_vec s) as [payload|] eqn:Hp; [| by intros w Hw].
  apply upload_codec_roundtrip in Hp.
  apply (rg_kv_update upload_write max_age); [done | done | intros; by apply Hok |].
  intros [q|[[] m]].
  - intros w [Hw Hpast]. split; [done |]. eapply past_mono; [| by apply Hpast].
    intros log now (old & -> & Hl & _). exists (mkWrite (Z.of_nat (length old) + 1) now (own_key s) Put payload), old.
    split_and!; [done | done | by apply write_state_put | done].
  - eapply rg_pre; [intros w [Hw _]; exact Hw |]. apply rg_read_upload; [done | by intros m' w Hw | |].
    + intros [e|] Hx w [Hw Habs]; cbn; [| done]. by rewrite bool_decide_false.
    + intros wr' Hop w [Hw Hpast]. cbn. by rewrite Hop, bool_decide_true.
  - by intros w [Hw _].
Qed.

Lemma own_key_with_status s status now : own_key (with_status s status now) = own_key s.
Proof. done. Qed.

(** A record that was read is stored under its own key. *)
Lemma stored_own_key w key wr s :
  inv w → past (λ log _, last_write key log = Some wr ∧ write_state wr = Some s) w →
  wr ∈ kw_log w ∧ kv_key wr = key ∧ own_key s = key.
Proof.
  intros Hw (log & now & Hsuf & _ & Hl & Hs). apply last_write_elem in Hl as [Hin Hk].
  assert (wr ∈ kw_log w) as Hin' by (by eapply elem_of_suffix). split_and!; [done.. |].
  destruct (all_writes_elem _ _ _ (ki_writes _ _ _ Hw) Hin') as (old & _ & Hok).
  unfold upload_write in Hok. rewrite Hs in Hok. destruct Hok as [-> _]. done.
Qed.

Lemma set_status_answer n t u i status now P :
  kept P →
  uploadrg (interp (upload_ports others) (set_status_loop n t u i status now)) P
    (λ r w, answer_ok (OpStatus t u i status now) (RStatus r) w).
Proof.
  intros HP. induction n as [|n IH]; [by intros w Hw |].
  cbn [set_status_loop interp call upload_ports].
  eapply rg_bind; [by apply kv_get_spec |].
  intros [[[s q]|]|e]; [| by intros w [_ ?] | by destruct e; intros w _].
  cbn [su_state su_revision].
  apply (rg_exists _ _ _ _ (λ wr w, (P w ∧ past (λ log _, last_write (upload_key t u i) log = Some wr ∧
    write_state wr = Some s) w) ∧ q = kv_seq wr)).
  { intros w [Hw (wr & Hq & Hpast)]. by exists wr. }
  intros wr. apply (rg_pure _ _ (q = kv_seq wr)); [by intros w [_ ?] |]. intros ->.
  eapply rg_pre; [intros w [Hw _]; exact Hw |].
  destruct (is_terminal (us_status s)) eqn:Hterm.
  { intros w [Hw Hpast]. split; [done |]. eapply past_mono; [| exact Hpast].
    intros log n' [Hl Hs]. unfold state_of. by rewrite Hl. }
  cbn [interp].
  apply (rg_pure _ _ (own_key s = upload_key t u i)).
  { intros w [Hw Hpast]. by eapply stored_own_key; [apply HP | exact Hpast]. }
  intros Hkey. set (next := with_status s status now).
  eapply rg_bind.
  - apply (kv_update_spec next wr); [by apply kept_past | |].
    + intros w [Hw Hpast]. unfold next. rewrite own_key_with_status, Hkey.
      by destruct (stored_own_key w _ _ _ (proj2 HP w Hw) Hpast) as (? & ? & _).
    + intros w payload [Hw Hpast] Hl Hs. unfold upload_write. rewrite (write_state_put _ _ next) by done.
      split; [done |]. right. cbn [kv_key]. exists s, status, now. split_and!; [| done..].
      unfold state_of. rewrite Hl. by destruct Hpast as (_ & _ & _ & _ & _ & ?).
  - intros [q|[]]; cbn [interp].
    + intros w [[_ (_ & _ & _ & _ & _ & Hs0)] Hpast]. eapply past_mono; [| exact Hpast].
      intros log n' (new & old & -> & Hk & Hs & Hl). exists new, old, s.
      change (own_key next) with (own_key s) in *. rewrite Hkey in *. split_and!; [done | done | done | | done..].
      unfold state_of. by rewrite Hl.
    + by intros w _.
    + eapply rg_pre; [| exact IH]. by intros w [[? _] _].
    + intros w [_ Hpast]. change (own_key next) with (own_key s) in Hpast. by rewrite Hkey in Hpast.
    + by intros w _.
    + by intros w _.
Qed.

Lemma upload_method_answer op P :
  kept P → uploadrg (upload_method op) P (answer_ok op).
Proof.
  intros HP. destruct op as [s | t u i status now | t u i | t u i]; unfold upload_method, reply.
  - cbn [interp call upload_ports prog_bind]. unfold kv_create.
    destruct (upload_to_vec s) as [payload|] eqn:Hp; [| by intros w _].
    apply upload_codec_roundtrip in Hp.
    apply (rg_create upload_write max_age); [done | |].
    + intros w Hw He. unfold upload_write. rewrite (write_state_put _ _ s) by done.
      split; [done |]. left. by apply absent_now; [apply HP |].
    + intros [q|[[] m]]; [| by intros w _..]. intros w [_ Hpast]. cbn.
      eapply past_mono; [| by apply Hpast]. intros log now (old & -> & w0 & Hw0 & He & <- & <-).
      eexists _, _. split_and!; [reflexivity | done | by apply write_state_put |].
      by apply absent_now; [apply HP |].
  - eapply rg_bind; [by apply set_status_answer |]. by intros r w Hw.
  - cbn [interp call upload_ports prog_bind]. eapply rg_bind.
    { eapply rg_bind; [by apply kv_get_spec |]. intros r w Hw. exact Hw. }
    intros [[[s q]|]|e] w [_ Hgot]; cbn; [| done | done].
    destruct Hgot as (wr & _ & Hpast). eapply past_mono; [| exact Hpast].
    intros log now [Hl Hs]. unfold state_of. by rewrite Hl.
  - cbn [interp call upload_ports prog_bind]. unfold kv_delete.
    apply (rg_purge_any upload_write max_age); [done | by intros w Hw |]. by intros x w Hw.
Qed.

Lemma writes_final log : all_writes upload_write log → terminal_is_final log.
Proof.
  intros Hall old wr s s' Hsuf Hs Hterm Hs'.
  destruct (all_writes_suffix _ _ _ Hsuf Hall) as [Hok _]. unfold upload_write in Hok.
  rewrite Hs' in Hok. destruct Hok as [_ [[Hn | Hage] | (s0 & status & now & H0 & Hopen & _)]]; [congruence | done | congruence].
Qed.

(** C34: any number of preflights, status changes, reads and purges interleaved
    over the production bucket, with writes and answers lost and records aging
    out: a terminal status is never overwritten while its record lives, every
    record is under its caller's own key, and each use case answers what
    happened: a creation found no live record, [Applied] wrote the open record
    it had read with the new status, [AlreadyTerminal] saw that record, and
    [Expired] or not found means there was none. *)
Theorem upload_status_is_final ops w w' ts' :
  inv w → rtc (pool_step kv_step (kv_env max_age)) (w, upload_method <$> ops) (w', ts') →
  inv w' ∧ kw_log w `suffix_of` kw_log w' ∧ terminal_is_final (kw_log w') ∧
  ∀ i op r, ops !! i = Some op → ts' !! i = Some (Ret r) → answer_ok op r w'.
Proof.
  intros Hw Hsteps.
  eapply (pool_steps_rg kv_step (kv_env max_age) guarantee _ _ (answer_ok <$> ops)) in Hsteps as [HG Hts];
    [| apply kv_env_guarantee |].
  - destruct (HG Hw) as (Hw' & Hsuf & _). split_and!; [done | done | apply writes_final, Hw' |].
    intros i op r Hi Ht. destruct (Forall2_lookup_l _ _ _ _ _ Hts Ht) as (Q & HQ & Hthread).
    rewrite list_lookup_fmap, Hi in HQ. simplify_eq/=.
    by apply (rg_thread_ret kv_step guarantee w' r (answer_ok op) Hthread).
  - cbn [fst snd]. apply Forall2_fmap, Forall_Forall2_diag, Forall_forall. intros op _.
    exists inv. split_and!; [apply kv_inv_stable | done |]. apply upload_method_answer, kept_inv.
Qed.
End run.
End store.

(** ** Witness *)

Module UploadKvDemo.
(** A codec of two records. *)
Definition records : list UploadState :=
  [TransitionDemo.state Uploading; with_status (TransitionDemo.state Uploading) (Rejected "malware") 7].

Definition to_vec (s : UploadState) : result bytes string :=
  match list_find (λ s', s' = s) records with
  | Some (i, _) => Ok (replicate i Byte.x00)
  | None => Err "not one of the records"
  end.
Definition from_vec (b : bytes) : result UploadState string := ok_or (records !! length b) "not a record".

Lemma record_bytes s b : to_vec s = Ok b → from_vec b = Ok s.
Proof.
  unfold to_vec, from_vec. destruct (list_find _ records) as [[i s']|] eqn:Hf; [| done].
  intros [= <-]. apply list_find_Some in Hf as (Hi & -> & _). by rewrite length_replicate, Hi.
Qed.

#[export] Instance codec : UploadCodec := {|
  upload_to_vec := to_vec;
  upload_from_slice := from_vec;
  upload_codec_roundtrip := record_bytes;
|}.

#[local] Existing Instances Demo.json Demo.hex Demo.sha2.
Definition others (X : Type) (e : PortE X) : prog KvE X := Ret (mem X e MemoryDemo.empty).2.

Definition create : UploadOp := OpCreate (TransitionDemo.state Uploading).
Definition refuse : UploadOp := OpStatus "acme" "user-1" "u1" (Rejected "malware") 7.
Definition rescan : UploadOp := OpStatus "acme" "user-1" "u1" Scanning 9.
Definition ops : list UploadOp := [create; refuse; rescan].

Definition empty : KvWorld := mkKv [] 0 5.
Definition go (op : UploadOp) (w : KvWorld) : KvWorld * UploadReply := run kv_healthy (upload_method others op) w.

(** The three one after the other. *)
Definition after1 := go create empty.
Definition after2 := go refuse after1.1.
Definition after3 := go rescan after2.1.
End UploadKvDemo.

#[local] Existing Instances Demo.json UploadKvDemo.codec.

Lemma upload_status_is_final_witness :
  UploadKvDemo.after2.2 = RStatus (Ok (Applied (with_status (TransitionDemo.state Uploading) (Rejected "malware") 7))) ∧
  UploadKvDemo.after3.2 =
    RStatus (Ok (AlreadyTerminal (with_status (TransitionDemo.state Uploading) (Rejected "malware") 7))) ∧
  terminal_is_final 1000 (kw_log UploadKvDemo.after3.1).
Proof.
  split; [vm_compute; reflexivity |]. split; [vm_compute; reflexivity |].
  pose proof (upload_status_is_final UploadKvDemo.others 1000 UploadKvDemo.ops UploadKvDemo.empty
    UploadKvDemo.after3.1 [Ret UploadKvDemo.after1.2; Ret UploadKvDemo.after2.2; Ret UploadKvDemo.after3.2]) as H.
  destruct H as (_ & _ & H & _); [| | exact H].
  - constructor; cbn; [done | done | | done]. by intros ? ?%not_elem_of_nil.
  - pose proof (kv_pool_run (kv_env 1000) (upload_method UploadKvDemo.others <$> UploadKvDemo.ops) 0 _
      UploadKvDemo.empty eq_refl) as H1.
    pose proof (kv_pool_run (kv_env 1000) (<[0%nat := Ret UploadKvDemo.after1.2]>
      (upload_method UploadKvDemo.others <$> UploadKvDemo.ops)) 1 _ UploadKvDemo.after1.1 eq_refl) as H2.
    pose proof (kv_pool_run (kv_env 1000) (<[1%nat := Ret UploadKvDemo.after2.2]> (<[0%nat := Ret UploadKvDemo.after1.2]>
      (upload_method UploadKvDemo.others <$> UploadKvDemo.ops))) 2 _ UploadKvDemo.after2.1 eq_refl) as H3.
    etrans; [exact H1 |]. etrans; [exact H2 | exact H3].
Defined.
