(* ===== verification/S3.v ===== *)
(** * The object store over S3

    crates/document-adapters/src/s3.rs, the [BlobStore] of production, over the
    calls of the AWS SDK.  [s3_step] says what S3 documents of those calls, with
    answers that get lost and any change by others between two calls.  The one
    loop of the file, the paging of [list_parts], is shown to end within the
    number of parts an upload can have. *)

From S2P Require Import Prelude Text Events Keys Ports Memory.

Local Open Scope Z_scope.

(** ** The client of the SDK *)

(** [SdkError]: no answer in time, no connection, an error of the service with its
    code and HTTP status, and the errors of building a request or parsing an
    answer. *)
Inductive SdkErrorKind : Type :=
| TimeoutError
| DispatchFailure
| ServiceError (code : option string) (status : Z)
| ConstructionFailure
| ResponseError.

Record SdkError : Type := mkSdk {
  sdk_kind : SdkErrorKind;
  sdk_text : string;
}.

Record ListedPart : Type := mkListed {
  lp_part_number : option Z;
  lp_e_tag : option string;
  lp_size : option Z;
}.

Record ListPartsOutput : Type := mkListOutput {
  lo_parts : list ListedPart;
  lo_is_truncated : option bool;
  lo_next_part_number_marker : option string;
}.

(** A time is in seconds and nanoseconds. *)
Record HeadObjectOutput : Type := mkHeadOutput {
  ho_content_length : option Z;
  ho_content_type : option string;
  ho_last_modified : option (Z * Z);
}.

Inductive S3E : Type → Type :=
| CreateMultipartUpload (bucket key content_type : string) : S3E (result (option string) SdkError)
| UploadPartPresigned (bucket key upload : string) (part ttl : Z) : S3E (result string SdkError)
| ListParts (bucket key upload : string) (marker : option string) : S3E (result ListPartsOutput SdkError)
| CompleteMultipartUpload (bucket key upload : string) (parts : list (Z * string)) : S3E (result unit SdkError)
| AbortMultipartUpload (bucket key upload : string) : S3E (result unit SdkError)
| HeadObject (bucket key : string) : S3E (result HeadObjectOutput SdkError)
| GetObject (bucket key : string) (range : option string) : S3E (result BoxAsyncRead SdkError)
| DeleteObject (bucket key : string) : S3E (result unit SdkError)
| UtcNow : S3E DateTime.

(** [PresigningConfig::expires_in] of the SDK and [timestamp_opt] of chrono. *)
Class S3Client := {
  expires_in : Z → result unit string;
  timestamp_opt : Z → Z → option DateTime;
  timestamp_opt_exact secs nanos t : timestamp_opt secs nanos = Some t → t = secs * 1000000000 + nanos;
}.

(** [to_chrono] *)
Definition to_chrono `{S3Client} (time : Z * Z) : option DateTime := timestamp_opt time.1 time.2.

(** [chrono::Duration::from_std]: at most [i64::MAX] milliseconds. *)
Definition from_std (ttl : Z) : option Z := if ttl <=? i64_max * 1000000 then Some ttl else None.

(** [classify] *)
Definition classify_code (code : string) (status : Z) : BlobErrorKind :=
  if bool_decide (code = "NoSuchUpload") then NoSuchUpload
  else if bool_decide (code ∈ ["NoSuchKey"; "NotFound"]) then NotFoundBlob
  else if bool_decide (code ∈ ["InvalidPart"; "InvalidPartOrder"; "EntityTooSmall"]) then InvalidParts
  else if bool_decide (code ∈ ["SlowDown"; "RequestTimeout"; "InternalError"; "ServiceUnavailable"])
       then Transient
  else if status =? 404 then NotFoundBlob
  else if (status =? 429) || ((500 <=? status) && (status <? 600)) then Transient
  else Permanent.

Definition classify (error : SdkError) (context : string) : BlobError :=
  let message := context +:+ ": " +:+ sdk_text error in
  match sdk_kind error with
  | TimeoutError | DispatchFailure => mkBlobError Transient message
  | ServiceError code status =>
      let code := default "" code in
      mkBlobError (classify_code code status)
        (message +:+ " (code " +:+ code +:+ ", status " +:+ show_int status +:+ ")")
  | ConstructionFailure | ResponseError => mkBlobError Permanent message
  end.

(** [i32::from_str] *)
Definition parse_i32 (s : string) : option Z :=
  n ← parse_i64 s; if (-2147483648 <=? n) && (n <=? 2147483647) then Some n else None.

(** ** The adapter *)

Section adapter.
Context `{S3Client} (bucket : string).

(** [begin_multipart] *)
Definition begin_multipart (key content_type : string) : prog S3E (result string BlobError) :=
  let* output := call (CreateMultipartUpload bucket key content_type) in
  Ret (match output with
       | Err error => Err (classify error "create multipart upload")
       | Ok (Some upload_id) => Ok upload_id
       | Ok None => Err (mkBlobError Permanent "create_multipart_upload returned no upload id")
       end).

(** [presign_part] *)
Definition presign_part (key upload : string) (part ttl : Z) : prog S3E (result PresignedPart BlobError) :=
  match expires_in ttl with
  | Err error => Ret (Err (mkBlobError Permanent ("presign config: " +:+ error)))
  | Ok _ =>
      let* request := call (UploadPartPresigned bucket key upload part ttl) in
      match request with
      | Err error => Ret (Err (classify error "presign upload part"))
      | Ok uri =>
          let* now := call UtcNow in
          Ret (Ok (mkPresigned part uri (now + default 0 (from_std ttl))))
      end
  end.

(** The parts of one page; [as u16] keeps the low sixteen bits. *)
Definition uploaded_part (part : ListedPart) : UploadedPart :=
  mkPart (Z.max 0 (default 0 (lp_part_number part)) mod (u16_max + 1)) (default "" (lp_e_tag part))
    (i64_as_u64 (default 0 (lp_size part))).

(** The [loop] of [list_parts], at most [rounds] times; [None] when they do not
    suffice. *)
Fixpoint list_pages (rounds : nat) (key upload : string) (parts : list UploadedPart) (marker : option Z)
  : prog S3E (option (result (option (list UploadedPart)) BlobError)) :=
  match rounds with
  | O => Ret None
  | S rounds =>
      let* output := call (ListParts bucket key upload (show_int <$> marker)) in
      match output with
      | Err error =>
          let classified := classify error "list parts" in
          Ret (Some (match be_kind classified with NoSuchUpload => Ok None | _ => Err classified end))
      | Ok output =>
          let parts := parts ++ (uploaded_part <$> lo_parts output) in
          if default false (lo_is_truncated output) then
            match lo_next_part_number_marker output ≫= parse_i32 with
            | None => Ret (Some (Ok (Some parts)))
            | Some marker => list_pages rounds key upload parts (Some marker)
            end
          else Ret (Some (Ok (Some parts)))
      end
  end.

Definition list_parts (rounds : nat) (key upload : string)
  : prog S3E (option (result (option (list UploadedPart)) BlobError)) :=
  list_pages rounds key upload [] None.

(** [complete_multipart] *)
Definition complete_multipart (key upload : string) (parts : list CompletedPart)
  : prog S3E (result unit BlobError) :=
  let completed := (λ part, (cp_part_number part, cp_etag part)) <$> parts in
  let* r := call (CompleteMultipartUpload bucket key upload completed) in
  Ret (result_map_err (λ error, classify error "complete multipart upload") r).

(** [abort_multipart] *)
Definition abort_multipart (key upload : string) : prog S3E (result unit BlobError) :=
  let* r := call (AbortMultipartUpload bucket key upload) in
  Ret (match r with
       | Ok _ => Ok tt
       | Err error =>
           let classified := classify error "abort multipart upload" in
           match be_kind classified with NoSuchUpload => Ok tt | _ => Err classified end
       end).

(** [head]; without a time of its own the object is taken to be of now. *)
Definition head_object (key : string) : prog S3E (result (option BlobHead) BlobError) :=
  let* r := call (HeadObject bucket key) in
  match r with
  | Ok output =>
      let answer time := Ok (Some (mkHead (i64_as_u64 (default 0 (ho_content_length output)))
                                     (ho_content_type output) time)) in
      match ho_last_modified output ≫= to_chrono with
      | Some time => Ret (answer time)
      | None => let* now := call UtcNow in Ret (answer now)
      end
  | Err error =>
      let classified := classify error "head object" in
      Ret (match be_kind classified with NotFoundBlob => Ok None | _ => Err classified end)
  end.

(** [open_read] *)
Definition open_read (key : string) : prog S3E (result BoxAsyncRead BlobError) :=
  let* output := call (GetObject bucket key None) in
  Ret (result_map_err (λ error, classify error "get object") output).

(** [ByteStream::collect]: every chunk, or the first failure. *)
Fixpoint collect_body (body : BoxAsyncRead) : result bytes string :=
  match body with
  | [] => Ok []
  | Err error :: _ => Err error
  | Ok chunk :: body => let? rest := collect_body body in Ok (chunk ++ rest)
  end.

(** [read_prefix] *)
Definition read_prefix (key : string) (len : Z) : prog S3E (result bytes BlobError) :=
  if len =? 0 then Ret (Ok []) else
  let* output := call (GetObject bucket key (Some ("bytes=0-" +:+ show_uint (len - 1)))) in
  Ret (match output with
       | Err error => Err (classify error "get object prefix")
       | Ok body => result_map_err (λ error, mkBlobError Transient ("read object prefix: " +:+ error))
                      (collect_body body)
       end).

(** [delete] *)
Definition delete_object (key : string) : prog S3E (result unit BlobError) :=
  let* r := call (DeleteObject bucket key) in
  Ret (result_map_err (λ error, classify error "delete object") r).

(** The ports of a process whose blob store is this one; [list_parts] has the
    rounds that [list_parts_ends] shows to suffice. *)
Definition LIST_ROUNDS : nat := Z.to_nat 10000.
Definition out_of_rounds : BlobError := mkBlobError Permanent "list parts does not end".

Definition s3_ports {J : SerdeJson} (others : ∀ A, PortE A → prog S3E A) : ∀ A, PortE A → prog S3E A := λ A e,
  match e in PortE A return prog S3E A with
  | BlBegin key content_type => begin_multipart key content_type
  | BlPresign key upload part ttl => presign_part key upload part ttl
  | BlListParts key upload =>
      let* r := list_parts LIST_ROUNDS key upload in Ret (default (Err out_of_rounds) r)
  | BlComplete key upload parts => complete_multipart key upload parts
  | BlAbort key upload => abort_multipart key upload
  | BlHead key => head_object key
  | BlOpenRead key => open_read key
  | BlReadPrefix key len => read_prefix key len
  | BlDelete key => delete_object key
  | other => others _ other
  end.
End adapter.

(** ** What S3 documents *)

Record S3Part : Type := mkS3Part {
  sp_etag : string;
  sp_bytes : bytes;
}.

Record S3Object : Type := mkS3Object {
  so_bytes : bytes;
  so_content_type : option string;
  so_modified : Z * Z;
}.

(** The parts of every multipart upload, by bucket, key and upload id, and the
    objects, by bucket and key. *)
Record S3State : Type := mkS3 {
  s3_uploads : gmap (string * string * string) (gmap Z S3Part);
  s3_objects : gmap (string * string) S3Object;
}.

(** Part numbers are 1 to 10,000, and a part is at most 5 GiB. *)
Definition PART_LIMIT : Z := 10000.

Definition s3_wf (s : S3State) : Prop :=
  ∀ upload stored n part, s3_uploads s !! upload = Some stored → stored !! n = Some part →
    1 ≤ n ≤ PART_LIMIT ∧ Z.of_nat (length (sp_bytes part)) ≤ 5 * 2 ^ 30.

(** The state, and those it went through, newest first. *)
Record S3World : Type := mkS3World {
  sw_now : S3State;
  sw_past : list S3State;
}.

Definition moments (w : S3World) : list S3State := sw_now w :: sw_past w.
Definition goes_to (s : S3State) (w : S3World) : S3World := mkS3World s (moments w).

Definition with_uploads (f : gmap (string * string * string) (gmap Z S3Part) → _) (s : S3State) : S3State :=
  mkS3 (f (s3_uploads s)) (s3_objects s).
Definition with_objects (f : gmap (string * string) S3Object → _) (s : S3State) : S3State :=
  mkS3 (s3_uploads s) (f (s3_objects s)).

(** The parts numbered from [n] on, [count] numbers far, in order. *)
Fixpoint parts_from (count : nat) (n : Z) (stored : gmap Z S3Part) : list (Z * S3Part) :=
  match count with
  | O => []
  | S count =>
      match stored !! n with
      | Some part => (n, part) :: parts_from count (n + 1) stored
      | None => parts_from count (n + 1) stored
      end
  end.

Definition parts_after (marker : Z) (stored : gmap Z S3Part) : list (Z * S3Part) :=
  parts_from (Z.to_nat (PART_LIMIT - marker)) (marker + 1) stored.

Definition listed (p : Z * S3Part) : ListedPart :=
  mkListed (Some p.1) (Some (sp_etag p.2)) (Some (Z.of_nat (length (sp_bytes p.2)))).

(** A page: at most a thousand parts after the marker; while parts are missing it
    is not empty, says so and names its last part. *)
Definition page (marker : option string) (stored : gmap Z S3Part) (output : ListPartsOutput) : Prop :=
  ∃ (k : nat) (from : Z),
    (match marker with None => Some 0 | Some m => parse_i32 m end) = Some from ∧ 0 ≤ from ∧
    let rest := parts_after from stored in
    (k ≤ 1000)%nat ∧ lo_parts output = listed <$> take k rest ∧
    if bool_decide (k < length rest)%nat
    then lo_is_truncated output = Some true ∧
         ∃ q, last (take k rest).*1 = Some q ∧ lo_next_part_number_marker output = Some (show_int q)
    else default false (lo_is_truncated output) = false.

(** The bytes of the named parts, if they are stored with these tags. *)
Fixpoint assembled (stored : gmap Z S3Part) (parts : list (Z * string)) : option bytes :=
  match parts with
  | [] => Some []
  | (n, etag) :: parts =>
      part ← stored !! n;
      if bool_decide (sp_etag part = etag) then app (sp_bytes part) <$> assembled stored parts else None
  end.

(** A body that is read: chunks that make up the bytes, or a failure on the way. *)
Inductive reads : BoxAsyncRead → bytes → Prop :=
| reads_end : reads [] []
| reads_chunk chunk body b : reads body b → reads (Ok chunk :: body) (chunk ++ b)
| reads_fails error body b : reads (Err error :: body) b.

(** The header [Range]: S3 clamps a range to the object, and refuses one on an
    empty object. *)
Definition ranged (range : option string) (b : bytes) : option bytes :=
  match r ← range; last ← strip_prefix "bytes=0-" r; parse_u64 last with
  | Some last => match b with [] => None | _ => Some (take (Z.to_nat (last + 1)) b) end
  | None => Some b
  end.

Definition no_upload (upload : string * string * string) (s : S3State) : Prop := s3_uploads s !! upload = None.
Definition no_object (object : string * string) (s : S3State) : Prop := s3_objects s !! object = None.

(** What an error of the service asserts. *)
Definition denies_upload (error : SdkError) : Prop :=
  ∃ status, sdk_kind error = ServiceError (Some "NoSuchUpload") status.
Definition denies_object (error : SdkError) : Prop :=
  ∃ code status, sdk_kind error = ServiceError code status ∧
    (code = Some "NoSuchKey" ∨ code = Some "NotFound" ∨ status = 404).

(** The state after a successful completion. *)
Definition completes (b k u : string) (parts : list (Z * string)) (s s' : S3State) : Prop :=
  ∃ stored content ct t, s3_uploads s !! (b, k, u) = Some stored ∧ assembled stored parts = Some content ∧
    s' = with_objects <[(b, k) := mkS3Object content ct t]> (with_uploads (delete (b, k, u)) s).

(** A call that acts: its effect, or an error, with the effect or not, and what an
    error of the service asserts is true. *)
Definition acts {A} (effect : S3State → S3State → Prop) (denies : SdkError → Prop) (denied : S3State → Prop)
    (w w' : S3World) (x : result A SdkError) : Prop :=
  match x with
  | Ok _ => ∃ s, effect (sw_now w) s ∧ w' = goes_to s w
  | Err error =>
      (w' = w ∨ ∃ s, effect (sw_now w) s ∧ w' = goes_to s w) ∧ (denies error → denied (sw_now w'))
  end.

(** A call that reads. *)
Definition looks {A} (seen : A → Prop) (denies : SdkError → Prop) (denied : S3State → Prop)
    (w w' : S3World) (x : result A SdkError) : Prop :=
  w' = w ∧ match x with Ok a => seen a | Err error => denies error → denied (sw_now w) end.

Definition s3_step (X : Type) (e : S3E X) (w w' : S3World) : X → Prop :=
  match e in S3E X return X → Prop with
  | CreateMultipartUpload b k _ => λ x,
      acts (λ s s', ∃ id, no_upload (b, k, id) s ∧ s' = with_uploads <[(b, k, id) := ∅]> s ∧
                          ∀ id', x = Ok (Some id') → id' = id)
        (λ _, False) (λ _, False) w w' x
  | UploadPartPresigned _ _ _ _ _ => λ _, w' = w
  | ListParts b k u marker =>
      looks (λ output, ∃ stored, s3_uploads (sw_now w) !! (b, k, u) = Some stored ∧ page marker stored output)
        denies_upload (no_upload (b, k, u)) w w'
  | CompleteMultipartUpload b k u parts =>
      acts (completes b k u parts) denies_upload (no_upload (b, k, u)) w w'
  | AbortMultipartUpload b k u =>
      acts (λ s s', s' = with_uploads (delete (b, k, u)) s) denies_upload (no_upload (b, k, u)) w w'
  | HeadObject b k =>
      looks (λ output, ∃ o, s3_objects (sw_now w) !! (b, k) = Some o ∧
               output = mkHeadOutput (Some (Z.of_nat (length (so_bytes o)))) (so_content_type o) (Some (so_modified o)))
        denies_object (no_object (b, k)) w w'
  | GetObject b k range =>
      looks (λ body, ∃ o content, s3_objects (sw_now w) !! (b, k) = Some o ∧
               ranged range (so_bytes o) = Some content ∧ reads body content)
        denies_object (no_object (b, k)) w w'
  | DeleteObject b k =>
      acts (λ s s', s' = with_objects (delete (b, k)) s) (λ _, False) (λ _, False) w w'
  | UtcNow => λ _, w' = w
  end.

(** Between two calls anything may happen to the bucket. *)
Inductive s3_env : S3World → S3World → Prop := others_act s w : s3_wf s → s3_env w (goes_to s w).

(** ** What the adapter promises *)

(** The bucket at the call and at every later moment up to [w]. *)
Definition later (w0 w : S3World) : Prop := moments w0 `suffix_of` moments w.

Definition witnessed (w0 : S3World) (φ : S3State → Prop) (w : S3World) : Prop :=
  ∃ l, moments w = l ++ moments w0 ∧ ∃ s, s ∈ l ++ [sw_now w0] ∧ φ s.

Definition throughout (w0 : S3World) (φ : S3State → Prop) (w : S3World) : Prop :=
  ∀ l, moments w = l ++ moments w0 → ∀ s, s ∈ l ++ [sw_now w0] → φ s.

Definition holds_part (upload : string * string * string) (p : UploadedPart) (s : S3State) : Prop :=
  ∃ stored part, s3_uploads s !! upload = Some stored ∧ stored !! up_part_number p = Some part ∧
    up_etag p = sp_etag part ∧ up_size p = Z.of_nat (length (sp_bytes part)).

Definition holds_object (object : string * string) (φ : bytes → Prop) (s : S3State) : Prop :=
  ∃ o, s3_objects s !! object = Some o ∧ φ (so_bytes o).

(** A listing of an upload: in order, each part was there at some moment of the
    call, and a part that was there all along is listed. *)
Definition lists (upload : string * string * string) (w0 : S3World) (parts : list UploadedPart) (w : S3World) : Prop :=
  StronglySorted (λ p q, up_part_number p < up_part_number q) parts ∧
  (∀ p, p ∈ parts → witnessed w0 (holds_part upload p) w) ∧
  (∀ p, throughout w0 (holds_part upload p) w → p ∈ parts).

Section promises.
Context {J : SerdeJson} (bucket : string) (w0 : S3World).

(** What an answer of the port says about the bucket. *)
Definition answer_true {A} (e : PortE A) : A → S3World → Prop :=
  match e in PortE A return A → S3World → Prop with
  | BlBegin key _ => λ r w,
      match r with
      | Ok upload => witnessed w0 (λ s, s3_uploads s !! (bucket, key, upload) = Some ∅) w
      | Err _ => True
      end
  | BlPresign _ _ part _ => λ r _, match r with Ok p => pp_part_number p = part | Err _ => True end
  | BlListParts key upload => λ r w,
      match r with
      | Ok (Some parts) => lists (bucket, key, upload) w0 parts w
      | Ok None => witnessed w0 (no_upload (bucket, key, upload)) w
      | Err error => be_kind error ≠ NoSuchUpload
      end
  | BlComplete key upload parts => λ r w,
      match r with
      | Ok _ => ∃ stored content,
          assembled stored ((λ part, (cp_part_number part, cp_etag part)) <$> parts) = Some content ∧
          witnessed w0 (λ s, s3_uploads s !! (bucket, key, upload) = Some stored) w ∧
          witnessed w0 (λ s, no_upload (bucket, key, upload) s ∧ holds_object (bucket, key) (eq content) s) w
      | Err error => be_kind error = NoSuchUpload → witnessed w0 (no_upload (bucket, key, upload)) w
      end
  | BlAbort key upload => λ r w,
      match r with
      | Ok _ => witnessed w0 (no_upload (bucket, key, upload)) w
      | Err error => be_kind error ≠ NoSuchUpload
      end
  | BlHead key => λ r w,
      match r with
      | Ok (Some head) =>
          witnessed w0 (holds_object (bucket, key) (λ b, bh_byte_size head = Z.of_nat (length b))) w
      | Ok None => witnessed w0 (no_object (bucket, key)) w
      | Err error => be_kind error ≠ NotFoundBlob
      end
  | BlOpenRead key => λ r w,
      match r with
      | Ok body => witnessed w0 (holds_object (bucket, key) (reads body)) w
      | Err error => be_kind error = NotFoundBlob → witnessed w0 (no_object (bucket, key)) w
      end
  | BlReadPrefix key len => λ r w,
      match r with
      | Ok prefix => in_u64 len → len = 0 ∧ prefix = [] ∨
          witnessed w0 (holds_object (bucket, key) (λ b, prefix = take (Z.to_nat len) b)) w
      | Err error => be_kind error = NotFoundBlob → witnessed w0 (no_object (bucket, key)) w
      end
  | BlDelete key => λ r w, match r with Ok _ => witnessed w0 (no_object (bucket, key)) w | Err _ => True end
  | _ => λ _ _, True
  end.
End promises.

(** The bucket keeps sound, and what happened stays. *)
Definition s3_moves (w w' : S3World) : Prop := later w w' ∧ (s3_wf (sw_now w) → s3_wf (sw_now w')).

#[export] Instance s3_moves_refl : Reflexive s3_moves.
Proof. intros w. split; [by exists [] | done]. Qed.
#[export] Instance s3_moves_trans : Transitive s3_moves.
Proof. intros w1 w2 w3 [L1 W1] [L2 W2]. split; [unfold later in *; by etrans | eauto]. Qed.

Lemma goes_moves s w : s3_wf s → s3_moves w (goes_to s w).
Proof. intros Hs. split; [by exists [s] | done]. Qed.

Lemma witnessed_later w0 φ w w' : later w w' → witnessed w0 φ w → witnessed w0 φ w'.
Proof.
  intros [l' Hl'] (l & Hl & s & Hs & Hφ). exists (l' ++ l). split; [rewrite Hl', Hl; by rewrite app_assoc |].
  exists s. split; [set_solver | done].
Qed.

Lemma witnessed_now w0 (φ : S3State → Prop) w : later w0 w → φ (sw_now w) → witnessed w0 φ w.
Proof.
  intros [l Hl] Hφ. exists l. split; [done |]. exists (sw_now w). split; [| done].
  destruct l as [|s l]; injection Hl as Hs _; rewrite Hs; set_solver.
Qed.

Lemma witnessed_mono w0 (φ ψ : S3State → Prop) w : (∀ s, φ s → ψ s) → witnessed w0 φ w → witnessed w0 ψ w.
Proof. intros H (l & Hl & s & Hs & Hφ). exists l. eauto. Qed.

Lemma throughout_now w0 (φ : S3State → Prop) w : later w0 w → throughout w0 φ w → φ (sw_now w).
Proof.
  intros [l Hl] Ht. apply (Ht l Hl). destruct l as [|s l]; injection Hl as Hs _; rewrite Hs; set_solver.
Qed.

Lemma throughout_earlier w0 φ w w' : later w0 w → later w w' → throughout w0 φ w' → throughout w0 φ w.
Proof.
  intros _ [l' Hl'] Ht l Hl s Hs. apply (Ht (l' ++ l)); [rewrite Hl', Hl; by rewrite app_assoc | set_solver].
Qed.

(** ** The calls, one by one *)

Section proofs.
Context {J : SerdeJson} `{S3Client} (bucket : string) (w0 : S3World).

Abbreviation s3rg := (rg s3_step s3_moves).

(** Any moment of the call. *)
Definition during (w : S3World) : Prop := later w0 w ∧ s3_wf (sw_now w).

Lemma during_moves w w' : s3_moves w w' → during w → during w'.
Proof. intros [Hl Hs] [Hw Hok]. split; [unfold later in *; by etrans | by apply Hs]. Qed.

Lemma during_stable : stable s3_moves during.
Proof. intros w w' Hw HG. by eapply during_moves. Qed.

(** A fact about the call that holds from now on. *)
Definition lasting (Q : S3World → Prop) : Prop := ∀ w w', during w → s3_moves w w' → Q w → Q w'.

Lemma witnessed_lasting φ : lasting (witnessed w0 φ).
Proof. intros w w' _ [Hl _]. by apply witnessed_later. Qed.

Lemma lists_lasting upload parts : lasting (lists upload w0 parts).
Proof.
  intros w w' [Hw _] [Hl _] (Hs & H1 & H2). split_and!; [done | |].
  - intros p Hp. eapply witnessed_later; eauto.
  - intros p Hp. apply H2. by eapply throughout_earlier.
Qed.

Lemma answer_lasting {A} (e : PortE A) r : lasting (answer_true bucket w0 e r).
Proof.
  intros w w' Hd HG. destruct e; cbn [answer_true]; try done.
  all: repeat case_match; try done; try (intros; by eapply (witnessed_lasting _ w w')).
  - by apply lists_lasting.
  - intros (stored & content & Ha & H1 & H2). exists stored, content.
    split_and!; [done | by eapply witnessed_lasting..].
  - intros H1 H2. by eapply witnessed_lasting, H1.
  - intros H1 H2. by eapply witnessed_lasting, H1.
  - intros H1 [? | H2]%H1; [by left | right]. by eapply witnessed_lasting.
  - intros H1 H2. by eapply witnessed_lasting, H1.
Qed.

(** A method of one call. *)
Lemma one_call {X A} (c : S3E X) (f : X → A) (Q : A → S3World → Prop) :
  (∀ r, lasting (Q r)) →
  (∀ w w' x, during w → s3_step X c w w' x → s3_moves w w' ∧ Q (f x) w') →
  s3rg (let* x := call c in Ret (f x)) during (λ r w, during w ∧ Q r w).
Proof.
  intros HQ Hc. apply (rg_call _ _ _ _ _ (λ x w, during w ∧ Q (f x) w)).
  - intros w w' x Hw Hx. destruct (Hc w w' x Hw Hx) as [HG Hq]. split_and!; [done | | | done].
    + intros v v' [Hv Hqv] HGv. split; [by eapply during_moves | by eapply HQ].
    + by eapply during_moves.
  - by intros x w Hw.
Qed.

Lemma acts_moves {A} effect denies denied w w' (x : result A SdkError) :
  during w → acts effect denies denied w w' x →
  (∀ s, effect (sw_now w) s → s3_wf (sw_now w) → s3_wf s) → s3_moves w w'.
Proof.
  intros [_ Hok] Hx He. assert (∀ s, effect (sw_now w) s → s3_moves w (goes_to s w)) as Hg.
  { intros s Hs. apply goes_moves, He; done. }
  destruct x as [a|e]; cbn in Hx.
  - destruct Hx as (s & Hs & ->). by apply Hg.
  - destruct Hx as [[-> | (s & Hs & ->)] _]; [reflexivity | by apply Hg].
Qed.

Lemma uploads_wf (f : gmap (string * string * string) (gmap Z S3Part) → gmap (string * string * string) (gmap Z S3Part)) s :
  (∀ m u stored, f m !! u = Some stored → stored = ∅ ∨ m !! u = Some stored) →
  s3_wf s → s3_wf (with_uploads f s).
Proof.
  intros Hf Hs u stored n part Hu Hn. cbn in Hu. apply Hf in Hu as [-> | Hu].
  - by rewrite lookup_empty in Hn.
  - by eapply Hs.
Qed.

Lemma insert_empty_wf u s : s3_wf s → s3_wf (with_uploads <[u := ∅]> s).
Proof.
  apply uploads_wf. intros m u' stored. rewrite lookup_insert. case_decide; naive_solver.
Qed.

Lemma delete_upload_wf u s : s3_wf s → s3_wf (with_uploads (delete u) s).
Proof.
  apply uploads_wf. intros m u' stored Hu. right. by apply lookup_delete_Some in Hu as [_ ?].
Qed.

Lemma completes_wf b k u parts s s' : completes b k u parts s s' → s3_wf s → s3_wf s'.
Proof. intros (stored & content & ct & t & _ & _ & ->) Hs. by apply (delete_upload_wf (b, k, u)). Qed.

Lemma classify_code_upload code status :
  classify_code code status = NoSuchUpload → code = "NoSuchUpload".
Proof. unfold classify_code. repeat case_match; try done. by case_bool_decide. Qed.

Lemma classify_code_object code status :
  classify_code code status = NotFoundBlob → code = "NoSuchKey" ∨ code = "NotFound" ∨ status = 404.
Proof.
  unfold classify_code. intros Hc. case_bool_decide; [done |].
  case_bool_decide as Hk; [set_solver |]. repeat case_bool_decide; try done.
  destruct (status =? 404) eqn:Hs; [lia |]. by case_match.
Qed.

Lemma classify_upload error context : be_kind (classify error context) = NoSuchUpload → denies_upload error.
Proof.
  unfold classify, denies_upload. destruct (sdk_kind error) as [| | code status | |]; try done.
  cbn. intros Hc%classify_code_upload. destruct code as [code|]; [| done]. cbn in Hc. subst. by eexists.
Qed.

Lemma classify_object error context : be_kind (classify error context) = NotFoundBlob → denies_object error.
Proof.
  unfold classify, denies_object. destruct (sdk_kind error) as [| | code status | |]; try done.
  cbn. intros Hc%classify_code_object. exists code, status. split; [done |].
  destruct code as [code|]; cbn in Hc; naive_solver.
Qed.

Abbreviation keeps_promise p e := (s3rg p during (λ r w, during w ∧ answer_true bucket w0 e r w)).

Ltac one_call :=
  apply one_call;
  [intros r; exact (answer_lasting _ r) | intros w w' x Hw Hx; cbn [answer_true]].

Lemma later_goes s w : during w → later w0 (goes_to s w).
Proof. intros [[l Hl] _]. exists (s :: l). unfold moments at 1. cbn. by rewrite Hl. Qed.

Lemma begin_ok key ct : keeps_promise (begin_multipart bucket key ct) (BlBegin key ct).
Proof.
  one_call. cbn in Hx. split.
  - eapply acts_moves; [done.. |]. intros s (id & _ & -> & _). apply insert_empty_wf.
  - destruct x as [[id|]|e]; try done. destruct Hx as (s & (id' & Hno & -> & Hid) & ->).
    rewrite (Hid id eq_refl). apply witnessed_now; [by apply later_goes |].
    cbn. by rewrite lookup_insert_eq.
Qed.

Lemma presign_ok key upload part ttl :
  keeps_promise (presign_part bucket key upload part ttl) (BlPresign key upload part ttl).
Proof.
  unfold presign_part. destruct (expires_in ttl); [| intros w Hw; done].
  apply (rg_call _ _ _ _ _ (λ _, during)).
  { intros w w' x Hw ->. split_and!; [reflexivity | apply during_stable | done]. }
  intros [uri|e]; [| intros w Hw; done].
  apply (rg_call _ _ _ _ _ (λ _, during)); [| intros now w Hw; done].
  intros w w' x Hw ->. split_and!; [reflexivity | apply during_stable | done].
Qed.

Lemma complete_ok key upload parts :
  keeps_promise (complete_multipart bucket key upload parts) (BlComplete key upload parts).
Proof.
  one_call. cbn in Hx. split.
  - eapply acts_moves; [done.. |]. intros s. apply completes_wf.
  - destruct x as [[]|e]; cbn [result_map_err].
    + destruct Hx as (s & (stored & content & ct & t & Hst & Ha & ->) & ->).
      exists stored, content. split_and!; [done | |].
      * eapply (witnessed_lasting _ w); [done | | by apply witnessed_now; [apply Hw |]].
        apply goes_moves, (delete_upload_wf _ (sw_now w)), Hw.
      * apply witnessed_now; [by apply later_goes |]. split; [apply lookup_delete_eq |].
        eexists. split; [apply lookup_insert_eq | done].
    + destruct Hx as [Hw' Hd]. intros Hk%classify_upload. apply witnessed_now; [| by apply Hd].
      destruct Hw' as [-> | (s & _ & ->)]; [apply Hw | by apply later_goes].
Qed.

Lemma abort_ok key upload : keeps_promise (abort_multipart bucket key upload) (BlAbort key upload).
Proof.
  one_call. cbn in Hx. split.
  - eapply acts_moves; [done.. |]. intros s ->. apply delete_upload_wf.
  - destruct x as [[]|e].
    + destruct Hx as (s & -> & ->). apply witnessed_now; [by apply later_goes |]. apply lookup_delete_eq.
    + destruct (be_kind (classify e "abort multipart upload")) eqn:Hk; cbn; try (by rewrite Hk).
      destruct Hx as [Hw' Hd]. apply classify_upload in Hk. apply witnessed_now; [| by apply Hd].
      destruct Hw' as [-> | (s & _ & ->)]; [apply Hw | by apply later_goes].
Qed.

Lemma delete_ok key : keeps_promise (delete_object bucket key) (BlDelete key).
Proof.
  one_call. cbn in Hx. split.
  - eapply acts_moves; [done.. |]. by intros s ->.
  - destruct x as [[]|e]; [| done].
    destruct Hx as (s & -> & ->). apply witnessed_now; [by apply later_goes |]. apply lookup_delete_eq.
Qed.

Lemma open_read_ok key : keeps_promise (open_read bucket key) (BlOpenRead key).
Proof.
  one_call. destruct Hx as [-> Hx]. split; [reflexivity |]. destruct x as [body|e]; cbn [result_map_err].
  - destruct Hx as (o & content & Ho & [= <-] & Hr). apply witnessed_now; [apply Hw |]. by exists o.
  - intros Hk%classify_object. apply witnessed_now; [apply Hw | by apply Hx].
Qed.

Lemma head_ok key : keeps_promise (head_object bucket key) (BlHead key).
Proof.
  unfold head_object. apply (rg_call _ _ _ _ _ (λ x w, during w ∧
    match x with
    | Ok output => witnessed w0 (holds_object (bucket, key)
        (λ b, i64_as_u64 (default 0 (ho_content_length output)) = Z.of_nat (length b))) w
    | Err e => denies_object e → witnessed w0 (no_object (bucket, key)) w
    end)).
  - intros w w' x Hw [-> Hx]. split_and!; [reflexivity | | done |].
    + intros v v' [Hv Hq] HG. split; [by eapply during_moves |].
      destruct x as [output|e]; [by eapply witnessed_lasting | intros Hd; eapply witnessed_lasting; eauto].
    + destruct x as [output|e].
      * destruct Hx as (o & Ho & ->). apply witnessed_now; [apply Hw |]. exists o. split; [done |].
        cbn. unfold i64_as_u64. lia.
      * intros Hd. apply witnessed_now; [apply Hw | by apply Hx].
  - intros [output|e].
    + destruct (ho_last_modified output ≫= to_chrono); [by intros w Hw |].
      intros w w' now Hw Hx. cbn in Hx. subst w'. split; [reflexivity |].
      exists (λ w, during w ∧ witnessed w0 (holds_object (bucket, key)
        (λ b, i64_as_u64 (default 0 (ho_content_length output)) = Z.of_nat (length b))) w).
      split; [| split; [exact Hw | by intros v Hv]].
      intros v v' [Hv Hv'] HG. split; [by eapply during_moves | by eapply witnessed_lasting].
    + intros w [Hw Hq]. split; [done |]. cbn [answer_true].
      destruct (be_kind (classify e "head object")) eqn:Hk; cbn; try (by rewrite Hk).
      by apply Hq, classify_object with "head object".
Qed.

Lemma collect_reads body content b : reads body content → collect_body body = Ok b → b = content.
Proof.
  intros Hr. revert b. induction Hr as [| chunk body b' Hr IH | error body b']; cbn; intros b; [by intros [= <-] | | done].
  destruct (collect_body body) as [rest|e] eqn:Hc; cbn; [| done]. intros [= <-]. by rewrite (IH rest eq_refl).
Qed.

Lemma ranged_show n b content :
  in_u64 n → ranged (Some ("bytes=0-" +:+ show_uint n)) b = Some content → content = take (Z.to_nat (n + 1)) b.
Proof.
  intros Hn. unfold ranged. cbn [mbind option_bind]. rewrite strip_prefix_app. cbn [mbind option_bind].
  rewrite parse_u64_show by done.
  destruct b; [done | by intros [= <-]].
Qed.

Lemma read_prefix_ok key len : keeps_promise (read_prefix bucket key len) (BlReadPrefix key len).
Proof.
  unfold read_prefix. destruct (Z.eqb_spec len 0) as [-> | Hlen].
  { intros w Hw. split; [done |]. intros _. by left. }
  one_call. destruct Hx as [-> Hx]. split; [reflexivity |]. destruct x as [body|e].
  - destruct Hx as (o & content & Ho & Hr & Hb).
    destruct (collect_body body) as [b|e] eqn:Hc; cbn; [| done]. intros Hin. right.
    apply witnessed_now; [apply Hw |]. exists o. split; [done |].
    rewrite (collect_reads _ _ _ Hb Hc). apply ranged_show in Hr; [| unfold_ints; lia].
    rewrite Hr. f_equal. lia.
  - intros Hk%classify_object. apply witnessed_now; [apply Hw | by apply Hx].
Qed.

(** ** Paging *)

Abbreviation by_number := (λ p q : Z * S3Part, p.1 < q.1).

Lemma elem_of_parts_from count n stored p :
  p ∈ parts_from count n stored ↔ n ≤ p.1 < n + Z.of_nat count ∧ stored !! p.1 = Some p.2.
Proof.
  revert n. induction count as [|count IH]; intros n; cbn [parts_from].
  - split; [by intros Hp%not_elem_of_nil | lia].
  - specialize (IH (n + 1)). destruct (stored !! n) as [part|] eqn:Hn; rewrite ?elem_of_cons, IH.
    + destruct p as [m q]; cbn. split; [intros [[= -> ->] | [? ?]]; split; [lia | done | lia | done] |].
      intros [? Hm]. destruct (decide (m = n)) as [-> | ?]; [left; congruence | right; split; [lia | done]].
    + destruct p as [m q]; cbn. split; intros [? Hm]; (split; [| done]); [lia |].
      destruct (decide (m = n)) as [-> | ?]; [congruence | lia].
Qed.

Lemma parts_from_sorted count n stored : StronglySorted by_number (parts_from count n stored).
Proof.
  revert n. induction count as [|count IH]; intros n; cbn [parts_from]; [constructor |].
  destruct (stored !! n); [| apply IH]. constructor; [apply IH |].
  apply Forall_forall. intros p [? _]%elem_of_parts_from. cbn. lia.
Qed.

Lemma elem_of_parts_after marker stored p :
  0 ≤ marker ≤ PART_LIMIT →
  p ∈ parts_after marker stored ↔ marker < p.1 ≤ PART_LIMIT ∧ stored !! p.1 = Some p.2.
Proof. intros Hm. unfold parts_after. rewrite elem_of_parts_from. intuition lia. Qed.

(** What a page that starts after [from] gives: the parts up to its last number,
    and whether there are more. *)
Lemma sorted_page (rest : list (Z * S3Part)) k :
  StronglySorted by_number rest →
  match last (take k rest).*1 with
  | Some q => ∀ p, p ∈ rest → p ∈ take k rest ↔ p.1 ≤ q
  | None => take k rest = []
  end ∧ StronglySorted by_number (take k rest).
Proof.
  intros Hs. rewrite <- (take_drop k rest) in Hs. set (l := take k rest) in *.
  assert (StronglySorted by_number l) as Hl by (by eapply StronglySorted_app_1_l).
  split; [| done]. destruct (last l.*1) as [q|] eqn:Hq.
  - rewrite fmap_last in Hq. destruct (last l) as [[q' part]|] eqn:Hl'; [| done]. injection Hq as <-.
    apply last_Some in Hl' as [l' Hl'].
    intros p Hp. split.
    + rewrite Hl' in Hl |- *. intros [Hin | ->%list_elem_of_singleton]%elem_of_app; [| done].
      apply Z.lt_le_incl. apply (StronglySorted_app_1_elem_of _ _ _ p (q', part) Hl Hin). set_solver.
    + intros Hle. rewrite <- (take_drop k rest) in Hp. apply elem_of_app in Hp as [Hp | Hp]; [done |].
      assert ((q', part) ∈ l) as Hin by (rewrite Hl'; set_solver).
      pose proof (StronglySorted_app_1_elem_of _ _ _ _ _ Hs Hin Hp) as Hlt. cbn in *. lia.
  - by rewrite last_None in Hq; apply fmap_nil_inv in Hq.
Qed.

Definition as_uploaded (p : Z * S3Part) : UploadedPart :=
  mkPart p.1 (sp_etag p.2) (Z.of_nat (length (sp_bytes p.2))).

Lemma uploaded_listed p : 0 ≤ p.1 ≤ PART_LIMIT → uploaded_part (listed p) = as_uploaded p.
Proof.
  intros Hp. unfold uploaded_part, listed, as_uploaded, i64_as_u64. cbn [from_option lp_part_number lp_e_tag lp_size id].
  unfold id, PART_LIMIT in *. rewrite Z.mod_small by (unfold_ints; lia). f_equal; lia.
Qed.

(** The listing up to number [m]. *)
Definition listing (upload : string * string * string) (m : Z) (parts : list UploadedPart) (w : S3World) : Prop :=
  StronglySorted (λ p q, up_part_number p < up_part_number q) parts ∧
  (∀ p, p ∈ parts → up_part_number p ≤ m ∧ witnessed w0 (holds_part upload p) w) ∧
  (∀ p, throughout w0 (holds_part upload p) w → up_part_number p ≤ m → p ∈ parts).

Lemma listing_lasting upload m parts : lasting (listing upload m parts).
Proof.
  intros w w' [Hw _] [Hl _] (Hs & H1 & H2). split_and!; [done | |].
  - intros p [? Hp]%H1. split; [done |]. by eapply witnessed_later.
  - intros p Hp. apply H2. by eapply throughout_earlier.
Qed.

Lemma listing_lists upload parts w : during w → listing upload (PART_LIMIT) parts w → lists upload w0 parts w.
Proof.
  intros [Hw Hok] (Hs & H1 & H2). split_and!; [done | by intros p [_ ?]%H1 |].
  intros p Hp. apply H2; [done |]. pose proof (throughout_now _ _ _ Hw Hp) as (stored & part & Hu & Hn & _).
  apply (Hok _ _ _ _ Hu Hn).
Qed.

Lemma as_uploaded_sorted l :
  StronglySorted by_number l → StronglySorted (λ p q, up_part_number p < up_part_number q) (as_uploaded <$> l).
Proof.
  induction 1 as [|x l Hl IH Hall]; cbn; constructor; [done |].
  apply Forall_fmap. eapply Forall_impl; [exact Hall |]. done.
Qed.

(** A page carries the listing from [m] to [q]. *)
Lemma listing_page upload m q parts l stored w :
  during w → listing upload m parts w → s3_uploads (sw_now w) !! upload = Some stored →
  StronglySorted by_number l →
  (∀ p, p ∈ l ↔ (m < p.1 ≤ q ∧ stored !! p.1 = Some p.2)) → m ≤ q →
  listing upload q (parts ++ (as_uploaded <$> l)) w.
Proof.
  intros [Hw Hok] (Hs & H1 & H2) Hu Hl Hin Hmq. split_and!.
  - apply StronglySorted_app. split_and!; [| done |].
    + intros p p' [Hp _]%H1 (x & -> & Hx%Hin)%list_elem_of_fmap. cbn. lia.
    + by apply as_uploaded_sorted.
  - intros p [Hp | (x & -> & Hx%Hin)%list_elem_of_fmap]%elem_of_app.
    + destruct (H1 p Hp). split; [lia | done].
    + split; [cbn; lia |]. apply witnessed_now; [done |]. exists stored, x.2. by destruct Hx.
  - intros p Hp Hpq. apply elem_of_app. destruct (Z.le_gt_cases (up_part_number p) m) as [Hle | Hgt].
    + left. by apply H2.
    + right. pose proof (throughout_now _ _ _ Hw Hp) as (stored' & part & Hu' & Hn & He & Hz).
      assert (stored' = stored) as -> by congruence. apply list_elem_of_fmap. exists (up_part_number p, part).
      split; [destruct p; unfold as_uploaded; cbn in *; congruence |]. apply Hin. cbn. split; [lia | done].
Qed.

Lemma parse_i32_show q : 0 ≤ q ≤ PART_LIMIT → parse_i32 (show_int q) = Some q.
Proof.
  unfold PART_LIMIT. intros Hq. unfold parse_i32. rewrite parse_i64_show by (unfold_ints; lia).
  cbn [mbind option_bind]. replace (_ && _) with true by lia. done.
Qed.

(** The marker of a round, as a number. *)
Definition marker_at (marker : option Z) (m : Z) : Prop := m = default 0 marker ∧ 0 ≤ m < PART_LIMIT.

Lemma page_from marker m stored output :
  marker_at marker m → page (show_int <$> marker) stored output →
  ∃ k, let rest := parts_after m stored in
    lo_parts output = listed <$> take k rest ∧
    if bool_decide (k < length rest)%nat
    then lo_is_truncated output = Some true ∧
         ∃ q, last (take k rest).*1 = Some q ∧ lo_next_part_number_marker output = Some (show_int q)
    else default false (lo_is_truncated output) = false.
Proof.
  intros [Hm Hr] (k & from & Hf & _ & _ & Hp). exists k.
  assert (from = m) as ->; [| done]. destruct marker as [m'|]; cbn in *; [| congruence].
  rewrite parse_i32_show in Hf by lia. congruence.
Qed.

(** One answered page: the paging goes on from a later marker, or all parts are
    listed. *)
Lemma page_step upload marker m parts stored output w :
  during w → marker_at marker m → listing upload m parts w →
  s3_uploads (sw_now w) !! upload = Some stored → page (show_int <$> marker) stored output →
  let parts := parts ++ (uploaded_part <$> lo_parts output) in
  if default false (lo_is_truncated output)
  then ∃ q, lo_next_part_number_marker output ≫= parse_i32 = Some q ∧ m < q < PART_LIMIT ∧ listing upload q parts w
  else listing upload PART_LIMIT parts w.
Proof.
  intros Hw Hm Hl Hu Hp. destruct (page_from _ _ _ _ Hm Hp) as (k & Hout & Hmore). destruct Hm as [_ Hm].
  pose proof (λ p, elem_of_parts_after m stored p ltac:(lia)) as Hin. set (rest := parts_after m stored) in *.
  assert (uploaded_part <$> lo_parts output = as_uploaded <$> take k rest) as Heq.
  { rewrite Hout, <- list_fmap_compose. apply list_fmap_ext. intros i p Hi. apply uploaded_listed.
    enough (p ∈ rest) as [? _]%Hin by lia.
    rewrite <- (take_drop k rest). apply elem_of_app. left. by eapply list_elem_of_lookup_2. }
  cbn zeta. rewrite Heq. destruct (sorted_page rest k (parts_from_sorted _ _ _)) as [Hlast Hsort].
  case_bool_decide as Hk.
  - destruct Hmore as (-> & q & Hq & ->). cbn [default from_option id]. rewrite Hq in Hlast.
    assert (∃ p, p ∈ rest ∧ p.1 = q) as (p & Hp1 & <-).
    { rewrite fmap_last in Hq. destruct (last (take k rest)) as [p|] eqn:Hp1; [| done]. injection Hq as <-.
      exists p. split; [| done]. apply last_Some in Hp1 as [l' Hl']. rewrite <- (take_drop k rest), Hl'. set_solver. }
    assert (∃ p', p' ∈ rest ∧ p.1 < p'.1) as (p' & Hp2 & Hlt).
    { destruct (lookup_lt_is_Some_2 rest k Hk) as [p' Hp']. exists p'.
      split; [by eapply list_elem_of_lookup_2 |].
      apply (StronglySorted_app_1_elem_of by_number (take k rest) (drop k rest)).
      - rewrite take_drop. apply parts_from_sorted.
      - by apply Hlast.
      - apply list_elem_of_lookup. exists 0%nat. by rewrite lookup_drop, Nat.add_0_r. }
    pose proof (proj1 (Hin p) Hp1) as [? ?]. pose proof (proj1 (Hin p') Hp2) as [? ?].
    exists p.1. split_and!; [cbn; apply parse_i32_show; lia | lia | lia |].
    apply (listing_page upload m p.1 parts _ stored); [done.. | | lia]. intros x. split.
    + intros Hx. assert (x ∈ rest) as Hx' by (rewrite <- (take_drop k rest); apply elem_of_app; by left).
      apply Hlast in Hx; [| done]. apply Hin in Hx' as [? ?]. split; [lia | done].
    + intros [? ?]. assert (x ∈ rest) by (apply Hin; split; [lia | done]). apply Hlast; [done | lia].
  - rewrite Hmore. rewrite take_ge by lia.
    apply (listing_page upload m PART_LIMIT parts _ stored); [done.. | apply parts_from_sorted | done | lia].
Qed.

(** The rounds left cover the part numbers left. *)
Lemma list_pages_ok rounds key upload parts marker m :
  marker_at marker m → PART_LIMIT - m ≤ Z.of_nat rounds →
  s3rg (list_pages bucket rounds key upload parts marker)
    (λ w, during w ∧ listing (bucket, key, upload) m parts w)
    (λ r w, during w ∧ ∃ a, r = Some a ∧ answer_true bucket w0 (BlListParts key upload) a w).
Proof.
  revert parts marker m. induction rounds as [|rounds IH]; intros parts marker m Hm Hr.
  { destruct Hm as [_ ?]. lia. }
  cbn [list_pages]. set (u := (bucket, key, upload)).
  apply (rg_call _ _ _ _ _ (λ x w, during w ∧
    match x with
    | Ok output =>
        let parts := parts ++ (uploaded_part <$> lo_parts output) in
        if default false (lo_is_truncated output)
        then ∃ q, lo_next_part_number_marker output ≫= parse_i32 = Some q ∧ m < q < PART_LIMIT ∧ listing u q parts w
        else listing u PART_LIMIT parts w
    | Err error => denies_upload error → witnessed w0 (no_upload u) w
    end)).
  - intros w w' x [Hw Hl] [-> Hx]. split_and!; [reflexivity | | done |].
    + intros v v' [Hv Hq] HG. split; [by eapply during_moves |]. destruct x as [output|e].
      * destruct (default false (lo_is_truncated output)); [| by eapply listing_lasting].
        destruct Hq as (q & ? & ? & ?). exists q.
        split; [done | split; [done | by eapply listing_lasting]].
      * intros Hd. eapply witnessed_lasting; eauto.
    + destruct x as [output|e].
      * destruct Hx as (stored & Hu & Hp). by eapply page_step.
      * intros Hd. apply witnessed_now; [apply Hw | by apply Hx].
  - intros [output|e].
    + destruct (default false (lo_is_truncated output)).
      * apply (rg_exists _ _ _ _ (λ q w, (lo_next_part_number_marker output ≫= parse_i32 = Some q ∧ m < q < PART_LIMIT) ∧
          during w ∧ listing u q (parts ++ (uploaded_part <$> lo_parts output)) w)); [naive_solver |].
        intros q. eapply rg_pure; [intros w [Hq _]; exact Hq |]. intros [Hn Hq]. rewrite Hn.
        eapply rg_pre; [intros w [_ Hw]; exact Hw |].
        destruct Hm as [_ ?]. apply IH; [split; [done | lia] | lia].
      * intros w [Hw Hl]. split; [done |]. eexists. split; [done |]. by apply listing_lists.
    + intros w [Hw Hd]. split; [done |]. eexists. split; [done |]. cbn [answer_true].
      destruct (be_kind (classify e "list parts")) eqn:Hk; try (by rewrite Hk).
      by apply Hd, classify_upload with "list parts".
Qed.

Definition blob_call {A} (e : PortE A) : bool :=
  match e with
  | BlBegin _ _ | BlPresign _ _ _ _ | BlListParts _ _ | BlComplete _ _ _ | BlAbort _ _
  | BlHead _ | BlOpenRead _ | BlReadPrefix _ _ | BlDelete _ => true
  | _ => false
  end.

Lemma list_parts_ok rounds key upload :
  PART_LIMIT ≤ Z.of_nat rounds →
  s3rg (list_parts bucket rounds key upload) during
    (λ r w, during w ∧ ∃ a, r = Some a ∧ answer_true bucket w0 (BlListParts key upload) a w).
Proof.
  intros Hr. eapply rg_pre; [| apply (list_pages_ok rounds key upload [] None 0); [by split | lia]].
  intros w Hw. split; [done |]. split_and!; [constructor | by intros p ?%not_elem_of_nil |].
  intros p Hp Hle. pose proof (throughout_now _ _ _ (proj1 Hw) Hp) as (stored & part & Hu & Hn & _).
  pose proof (proj1 (proj2 Hw _ _ _ _ Hu Hn)). lia.
Qed.

Lemma s3_ports_ok others {A} (e : PortE A) :
  blob_call e = true →
  s3rg (s3_ports bucket others A e) during (λ r w, during w ∧ answer_true bucket w0 e r w).
Proof.
  intros He. destruct e; try discriminate He; cbn [s3_ports].
  3: { eapply rg_bind; [apply list_parts_ok; by vm_compute |].
       intros r w [Hw (a & -> & Ha)]. by split. }
  - apply begin_ok.
  - apply presign_ok.
  - apply complete_ok.
  - apply abort_ok.
  - apply head_ok.
  - apply open_read_ok.
  - apply read_prefix_ok.
  - apply delete_ok.
Qed.
End proofs.

(** One program, whatever others do to the bucket meanwhile. *)
Abbreviation serves w p w' r := (rtc (pool_step s3_step s3_env) (w, [p]) (w', [Ret r])).

Lemma serves_promise {A} (w w' : S3World) (p : prog S3E A) (Q : A → S3World → Prop) r :
  s3_wf (sw_now w) → (rg s3_step s3_moves p (during w) Q) → serves w p w' r → Q r w'.
Proof.
  intros Hok Hp Hsteps.
  eapply (pool_steps_rg s3_step s3_env s3_moves _ _ [Q]) in Hsteps as [_ Hts].
  - inversion Hts as [| ? ? ? ? Ht]; subst. by apply (rg_thread_ret s3_step s3_moves w' r Q Ht).
  - intros v v' [s v0 Hs]. by apply goes_moves.
  - constructor; [| constructor]. exists (during w). split_and!; [apply during_stable | | exact Hp].
    split; [by exists [] | done].
Qed.

Lemma sorted_NoDup l : StronglySorted (λ p q, up_part_number p < up_part_number q) l → NoDup l.
Proof.
  induction 1 as [|x l Hl IH Hx]; constructor; [| done]. rewrite Forall_forall in Hx.
  intros Hin. specialize (Hx _ Hin). lia.
Qed.

Lemma sorted_parts_eq l l' :
  StronglySorted (λ p q, up_part_number p < up_part_number q) l →
  StronglySorted (λ p q, up_part_number p < up_part_number q) l' →
  (∀ p, p ∈ l ↔ p ∈ l') → l = l'.
Proof.
  intros Hl Hl' Hin. eapply StronglySorted_unique_strong; [| exact Hl | exact Hl' |].
  - intros p q _ _ H1 H2. cbn in *. lia.
  - apply NoDup_Permutation; [by apply sorted_NoDup.. | done].
Qed.

(** A listing of an upload nobody touched. *)
Lemma lists_quiet upload stored w w' parts :
  s3_wf (sw_now w) → later w w' → lists upload w parts w' →
  throughout w (λ s, s3_uploads s !! upload = Some stored) w' →
  parts = as_uploaded <$> parts_after 0 stored.
Proof.
  intros Hok [l Hl] (Hs & H1 & H2) Hq.
  assert (∀ s, s ∈ l ++ [sw_now w] → s3_uploads s !! upload = Some stored) as Hall by (intros s; by apply Hq).
  assert (0 ≤ 0 ≤ PART_LIMIT) as H0 by done.
  apply sorted_parts_eq; [done | apply as_uploaded_sorted, parts_from_sorted |]. intros p.
  rewrite list_elem_of_fmap. split.
  - intros (l1 & Hl1 & s & Hin & stored' & part & Hu & Hn & He & Hz)%H1.
    assert (l1 = l) as -> by (eapply app_inv_tail; by rewrite <- Hl, <- Hl1).
    assert (stored' = stored) as -> by (specialize (Hall s Hin); congruence).
    exists (up_part_number p, part). split; [destruct p; unfold as_uploaded; cbn in *; congruence |].
    apply elem_of_parts_after; [done |]. split; [| done].
    assert (s3_uploads (sw_now w) !! upload = Some stored) as Hw by (apply Hall; set_solver).
    pose proof (proj1 (Hok _ _ _ _ Hw Hn)). cbn. lia.
  - intros (x & -> & [_ Hx]%elem_of_parts_after); [| done]. apply H2. intros l1 Hl1 s Hin.
    assert (l1 = l) as -> by (eapply app_inv_tail; by rewrite <- Hl, <- Hl1).
    exists stored, x.2. split_and!; [by apply Hall | done..].
Qed.

Section theorems.
Context {J : SerdeJson} `{S3Client} (bucket : string).

(** C29: the paging of [list_parts] ends within ten thousand rounds, however
    small the pages of the server are and whatever is uploaded, replaced or
    aborted between two of them; the listing it answers is in order, holds only
    parts that were there, and every part that was there all along; and an upload
    nobody touched is listed exactly. *)
Theorem list_parts_ends rounds key upload w w' r :
  s3_wf (sw_now w) → PART_LIMIT ≤ Z.of_nat rounds →
  serves w (list_parts bucket rounds key upload) w' r →
  ∃ answer, r = Some answer ∧
    match answer with
    | Ok (Some parts) =>
        lists (bucket, key, upload) w parts w' ∧
        ∀ stored, throughout w (λ s, s3_uploads s !! (bucket, key, upload) = Some stored) w' →
          parts = as_uploaded <$> parts_after 0 stored
    | Ok None => witnessed w (no_upload (bucket, key, upload)) w'
    | Err error => be_kind error ≠ NoSuchUpload
    end.
Proof.
  intros Hok Hr Hsteps.
  apply (serves_promise _ _ _ (λ r w', during w w' ∧ ∃ a, r = Some a ∧ answer_true bucket w (BlListParts key upload) a w'))
    in Hsteps as [[Hl _] (answer & -> & Ha)]; [| done | by apply list_parts_ok].
  exists answer. split; [done |]. destruct answer as [[parts|]|e]; try done.
  split; [exact Ha |]. intros stored. by apply lists_quiet.
Qed.

(** C30: what the adapter answers was so in the bucket during the call, whatever
    others do meanwhile and whichever answers are lost: a completed upload gave
    an object of exactly the parts named; [Ok] of an abort or a delete, [None] of a
    listing or a head, and the errors for a missing upload or object mean that it
    was gone; and the bytes read are those of the object, cut to the prefix asked
    for. *)
Theorem s3_answers_are_true others {A} (e : PortE A) w w' r :
  s3_wf (sw_now w) → blob_call e = true → serves w (s3_ports bucket others A e) w' r →
  s3_wf (sw_now w') ∧ later w w' ∧ answer_true bucket w e r w'.
Proof.
  intros Hok He Hsteps.
  apply (serves_promise _ _ _ (λ r w', during w w' ∧ answer_true bucket w e r w')) in Hsteps as [[Hl Hok'] Ha];
    [done | done |]. by apply s3_ports_ok.
Qed.
End theorems.

(** ** Witnesses *)

(** A server that does not fail and lists [size] parts a page. *)
Section server.
Context (size : nat) (now : DateTime).

Definition no_such (code : string) : SdkError := mkSdk (ServiceError (Some code) 404) "service error".
Definition failed : SdkError := mkSdk (ServiceError (Some "InternalError") 500) "service error".

Definition s3_page (from : Z) (stored : gmap Z S3Part) : ListPartsOutput :=
  let rest := parts_after from stored in
  let l := take (S size) rest in
  mkListOutput (listed <$> l) (Some (bool_decide (S size < length rest)%nat)) (show_int <$> last l.*1).

Definition s3_healthy : handler S3E S3World := λ X e w,
  let s := sw_now w in
  match e in S3E X return S3World * X with
  | CreateMultipartUpload b k _ =>
      let id := "upload-" +:+ show_uint (Z.of_nat (length (sw_past w))) in
      match s3_uploads s !! (b, k, id) with
      | None => (goes_to (with_uploads <[(b, k, id) := ∅]> s) w, Ok (Some id))
      | Some _ => (w, Err failed)
      end
  | UploadPartPresigned b k u part _ => (w, Ok ("https://" +:+ b +:+ "/" +:+ k +:+ "?partNumber=" +:+ show_uint part))
  | ListParts b k u marker =>
      (w, match s3_uploads s !! (b, k, u), (match marker with None => Some 0 | Some m => parse_i32 m end) with
          | None, _ => Err (no_such "NoSuchUpload")
          | Some stored, Some from => if 0 <=? from then Ok (s3_page from stored) else Err failed
          | Some _, None => Err failed
          end)
  | CompleteMultipartUpload b k u parts =>
      match s3_uploads s !! (b, k, u) ≫= (λ stored, assembled stored parts), s3_uploads s !! (b, k, u) with
      | Some content, _ =>
          (goes_to (with_objects <[(b, k) := mkS3Object content None (now, 0)]> (with_uploads (delete (b, k, u)) s)) w, Ok tt)
      | None, Some _ => (w, Err (mkSdk (ServiceError (Some "InvalidPart") 400) "service error"))
      | None, None => (w, Err (no_such "NoSuchUpload"))
      end
  | AbortMultipartUpload b k u => (goes_to (with_uploads (delete (b, k, u)) s) w, Ok tt)
  | HeadObject b k =>
      (w, match s3_objects s !! (b, k) with
          | Some o => Ok (mkHeadOutput (Some (Z.of_nat (length (so_bytes o)))) (so_content_type o) (Some (so_modified o)))
          | None => Err (no_such "NotFound")
          end)
  | GetObject b k range =>
      (w, match s3_objects s !! (b, k) with
          | Some o => match ranged range (so_bytes o) with
                      | Some content => Ok [Ok content]
                      | None => Err (mkSdk (ServiceError (Some "InvalidRange") 416) "service error")
                      end
          | None => Err (no_such "NoSuchKey")
          end)
  | DeleteObject b k => (goes_to (with_objects (delete (b, k)) s) w, Ok tt)
  | UtcNow => (w, now)
  end.

Lemma s3_page_ok marker from stored :
  (match marker with None => Some 0 | Some m => parse_i32 m end) = Some from → 0 ≤ from → (size < 1000)%nat →
  page marker stored (s3_page from stored).
Proof.
  intros Hm Hf Hs. exists (S size), from. split; [done |]. split; [done |]. cbn zeta.
  split_and!; [lia | done |].
  cbn [s3_page lo_is_truncated lo_next_part_number_marker]. case_bool_decide as Hk; [| done]. split; [done |].
  destruct (last (take (S size) (parts_after from stored)).*1) as [q|] eqn:Hq; [by exists q |].
  apply last_None, fmap_nil_inv in Hq. apply (f_equal length) in Hq. rewrite length_take in Hq. cbn [length] in Hq. lia.
Qed.

Lemma s3_healthy_step X (e : S3E X) w w' x :
  (size < 1000)%nat → s3_healthy X e w = (w', x) → s3_step X e w w' x.
Proof.
  intros Hs. destruct e; cbn [s3_healthy s3_step]; unfold acts, looks, denies_object; intros Hx.
  - case_match eqn:Hu; simplify_eq; [split; [by left | done] |].
    eexists. split; [| done]. eexists. split_and!; [exact Hu | done | by intros ? [= <-]].
  - by simplify_eq.
  - simplify_eq. split; [done |]. destruct (s3_uploads (sw_now w') !! _) as [stored|] eqn:Hu; [| done].
    destruct (match marker with None => Some 0 | Some m => parse_i32 m end) as [from|] eqn:Hm;
      [| by intros [? ?]].
    destruct (Z.leb_spec 0 from); [| by intros [? ?]]. exists stored. split; [done |]. by apply s3_page_ok.
  - destruct (s3_uploads (sw_now w) !! _) as [stored|] eqn:Hu; cbn in Hx.
    + destruct (assembled stored parts) as [content|] eqn:Ha; simplify_eq.
      * eexists. split; [| done]. by exists stored, content, None, (now, 0).
      * split; [by left |]. by intros [? ?].
    + simplify_eq. split; [by left | done].
  - simplify_eq. by eexists.
  - simplify_eq. split; [done |]. destruct (s3_objects (sw_now w') !! _) as [o|] eqn:Ho; [by exists o | done].
  - simplify_eq. split; [done |]. destruct (s3_objects (sw_now w') !! _) as [o|] eqn:Ho; [| done].
    destruct (ranged range (so_bytes o)) as [content|] eqn:Hr.
    + exists o, content. split_and!; [done | done |]. rewrite <- (app_nil_r content) at 2. repeat constructor.
    + intros (code & status & [= <- <-] & [? | [? | ?]]); done.
  - simplify_eq. by eexists.
  - by simplify_eq.
Qed.
End server.

Module S3Demo.
#[export] Instance client : S3Client.
Proof.
  refine {| expires_in := λ _, Ok tt; timestamp_opt := λ secs nanos, Some (secs * 1000000000 + nanos) |}.
  by intros secs nanos t [= <-].
Defined.

Definition part (n : Z) : S3Part := mkS3Part ("etag-" +:+ show_uint n) [Byte.x61; Byte.x62].
Definition stored : gmap Z S3Part := <[1 := part 1]> (<[2 := part 2]> {[7 := part 7]}).
Definition state : S3State := mkS3 {[("docs", "key", "up") := stored]} ∅.
Definition start : S3World := mkS3World state [].
Definition server : handler S3E S3World := s3_healthy 1 0.
#[local] Existing Instances Demo.json Demo.hex Demo.sha2.
Definition others (A : Type) (e : PortE A) : prog S3E A := Ret (mem A e MemoryDemo.empty).2.


Definition listed_all := run server (list_parts "docs" LIST_ROUNDS "key" "up") start.

Lemma start_wf : s3_wf state.
Proof.
  intros u m n p Hu Hn. cbn in Hu. apply lookup_singleton_Some in Hu as [<- <-].
  unfold stored in Hn. rewrite !lookup_insert_Some, lookup_singleton_Some in Hn.
  unfold PART_LIMIT. naive_solver lia.
Qed.

Lemma serves_run {A} (p : prog S3E A) w : serves w p (run server p w).1 (run server p w).2.
Proof.
  apply (pool_run_sub s3_step server s3_env [p] 0 p w); [| done].
  intros X e w1 w2 x. apply s3_healthy_step. lia.
Qed.

(** Parts 1 and 7 are completed. *)
Definition chosen : PortE (result unit BlobError) :=
  BlComplete "key" "up" [mkCompleted 1 "etag-1"; mkCompleted 7 "etag-7"].
Definition completed := run server (s3_ports "docs" others _ chosen) start.
End S3Demo.

#[local] Existing Instances Demo.json S3Demo.client.

Lemma list_parts_ends_witness :
  ∃ parts, S3Demo.listed_all.2 = Some (Ok (Some parts)) ∧ up_part_number <$> parts = [1; 2; 7] ∧
    lists ("docs", "key", "up") S3Demo.start parts S3Demo.listed_all.1.
Proof.
  assert (S3Demo.listed_all.2 = Some (Ok (Some (as_uploaded <$> [(1, S3Demo.part 1); (2, S3Demo.part 2); (7, S3Demo.part 7)]))))
    as Heq by (vm_compute; reflexivity).
  destruct (list_parts_ends "docs" LIST_ROUNDS "key" "up" S3Demo.start S3Demo.listed_all.1 S3Demo.listed_all.2
    S3Demo.start_wf ltac:(vm_compute; discriminate) (S3Demo.serves_run _ _)) as (answer & Ha & Hlists).
  rewrite Heq in Ha. injection Ha as <-. eexists. split; [exact Heq |]. split; [reflexivity | exact (proj1 Hlists)].
Defined.

Lemma s3_answers_are_true_witness :
  S3Demo.completed.2 = Ok tt ∧
  witnessed S3Demo.start (λ s, no_upload ("docs", "key", "up") s ∧
    holds_object ("docs", "key") (eq [Byte.x61; Byte.x62; Byte.x61; Byte.x62]) s) S3Demo.completed.1.
Proof.
  assert (S3Demo.completed.2 = Ok tt) as Heq by (vm_compute; reflexivity). split; [exact Heq |].
  destruct (s3_answers_are_true "docs" S3Demo.others S3Demo.chosen S3Demo.start S3Demo.completed.1 S3Demo.completed.2
    S3Demo.start_wf eq_refl (S3Demo.serves_run _ _)) as (_ & _ & Ha).
  rewrite Heq in Ha. destruct Ha as (stored & content & Hc & (l & Hl & s & Hs & Hst) & Hobj).
  assert (content = [Byte.x61; Byte.x62; Byte.x61; Byte.x62]) as ->; [| exact Hobj].
  assert (l = [S3Demo.completed.1.(sw_now)]) as ->.
  { apply (app_inv_tail (moments S3Demo.start)). rewrite <- Hl. vm_compute. reflexivity. }
  apply elem_of_app in Hs as [Hs | Hs]; apply list_elem_of_singleton in Hs as ->.
  - vm_compute in Hst. discriminate.
  - vm_compute in Hst. injection Hst as <-. vm_compute in Hc. by injection Hc as <-.
Defined.
