(* ===== verification/ChatLocks.v ===== *)
(** * Conversation locks over a JetStream bucket

    crates/nats/src/lib.rs, the [*_kv_*] functions and [release_lock] of
    [NatsChatBus].  Each is a program over [KvE]; they share the loop that reads
    the entry, decides, and writes under the revision it read.

    The theorems: whatever interleaves, the bucket's writes for a conversation
    are steps of the in-memory bus (or the removal of an expired lock) and each
    answer is the one the in-memory bus gives at some moment of the call; hence
    one worker at a time per lease; and no loop writes more than eight times. *)

From S2P Require Import Prelude Text Events Contracts ChatBus Kv.

Local Open Scope Z_scope.

(** serde_json of a lock: what was written reads back. *)
Class LockCodec := {
  lock_to_vec : ChatLock → result bytes string;
  lock_from_slice : bytes → result ChatLock string;
  lock_codec_roundtrip l b : lock_to_vec l = Ok b → lock_from_slice b = Ok l;
}.

Section locks.
Context {LC : LockCodec} (env : string → option string).

(** [lock.is_expired()] *)
Definition expired_now (lock : ChatLock) : prog KvE bool :=
  let* now := call UtcNow in Ret (is_expired lock now).

(** [create_kv_lock] *)
Definition create_kv_lock (key : string) (lock : ChatLock) : prog KvE (result unit ChatBusError) :=
  match lock_to_vec lock with
  | Err error => Ret (Err (Payload error))
  | Ok payload =>
      let* r := call (KvCreate key payload) in
      Ret (match r with
           | Ok _ => Ok tt
           | Err (AlreadyExists, _) => Err InFlight
           | Err (CreateOther, error) => Err (Payload ("create chat lock: " +:+ error))
           end)
  end.

(** [acquire_kv_lock] *)
Definition acquire_kv_lock (lock : ChatLock) : prog KvE (result unit ChatBusError) :=
  let key := lock_key (lk_tenant_id lock) (lk_conversation_id lock) in
  let* r := call (KvEntry key) in
  match r with
  | Err error => Ret (Err (Payload ("read chat lock: " +:+ error)))
  | Ok None => create_kv_lock key lock
  | Ok (Some entry) =>
      if bool_decide (et_operation entry ≠ Put) then create_kv_lock key lock else
      match lock_from_slice (et_value entry) with
      | Err error => Ret (Err (Payload ("decode chat lock: " +:+ error)))
      | Ok stored =>
          let* expired := expired_now stored in
          if negb expired then Ret (Err InFlight) else
          let* r := call (KvPurge key (Some (et_revision entry))) in
          match r with
          | Err error => Ret (Err (Payload ("purge expired chat lock: " +:+ error)))
          | Ok _ => create_kv_lock key lock
          end
      end
  end.

(** [load_kv_lock] *)
Definition load_kv_lock (tenant_id conversation_id : string)
  : prog KvE (result (option ChatLock) ChatBusError) :=
  let* r := call (KvEntry (lock_key tenant_id conversation_id)) in
  Ret (match r with
       | Err error => Err (Payload ("read chat lock: " +:+ error))
       | Ok None => Ok None
       | Ok (Some entry) =>
           if bool_decide (et_operation entry ≠ Put) then Ok None else
           match lock_from_slice (et_value entry) with
           | Ok lock => Ok (Some lock)
           | Err error => Err (Payload ("decode chat lock: " +:+ error))
           end
       end).

(** The loop the writing methods share: read the entry, decide what to do with
    the lock, write it back under the revision read, and start again if another
    writer came first.  A decision is an answer, or a lock to write and the
    answer to give once it is written. *)
Abbreviation decision A := (result A ChatBusError + ChatLock * result A ChatBusError)%type.

Fixpoint lock_loop {A} (attempts : nat) (key what : string) (missing : result A ChatBusError)
    (decide_lock : Entry → ChatLock → prog KvE (decision A)) : prog KvE (result A ChatBusError) :=
  match attempts with
  | O => Ret (Err (Payload (what +:+ " CAS retry limit exceeded")))
  | S attempts =>
      let* r := call (KvEntry key) in
      match r with
      | Err error => Ret (Err (Payload ("read chat lock: " +:+ error)))
      | Ok None => Ret missing
      | Ok (Some entry) =>
          if bool_decide (et_operation entry ≠ Put) then Ret missing else
          match lock_from_slice (et_value entry) with
          | Err error => Ret (Err (Payload ("decode chat lock: " +:+ error)))
          | Ok lock =>
              let* d := decide_lock entry lock in
              match d with
              | inl answer => Ret answer
              | inr (lock, answer) =>
                  match lock_to_vec lock with
                  | Err error => Ret (Err (Payload error))
                  | Ok payload =>
                      let* r := call (KvUpdate key payload (et_revision entry)) in
                      match r with
                      | Ok _ => Ret answer
                      | Err (WrongLastRevision, _) =>
                          lock_loop attempts key what missing decide_lock
                      | Err (UpdateOther, error) =>
                          Ret (Err (Payload (what +:+ ": " +:+ error)))
                      end
                  end
              end
          end
      end
  end.

Definition LOCK_ATTEMPTS : nat := 8.

(** [claim_kv_lock] *)
Definition claim_decision (turn_id worker_id : string) (_ : Entry) (lock : ChatLock)
  : prog KvE (decision ChatLock) :=
  if bool_decide (lk_turn_id lock = turn_id) && lock_is_terminal lock then Ret (inl (Ok lock)) else
  let* other_turn :=
    if bool_decide (lk_turn_id lock ≠ turn_id)
    then (let* expired := expired_now lock in Ret (negb expired)) else Ret false in
  if other_turn : bool then Ret (inl (Err InFlight)) else
  let* running :=
    if bool_decide (lk_turn_id lock = turn_id) && bool_decide (lk_state lock = Running)
       && bool_decide (lk_worker_id lock ≠ Some worker_id)
    then (let* expired := expired_now lock in Ret (negb expired)) else Ret false in
  if running : bool then Ret (inl (Err InFlight)) else
  if bool_decide (lk_turn_id lock ≠ turn_id) then Ret (inl (Err InFlight)) else
  let* expired := expired_now lock in
  if expired : bool
  then Ret (inl (Err (Payload "chat lock payload expired before worker claim"))) else
  let* now := call UtcNow in
  let lock := claimed env lock worker_id now in
  Ret (inr (lock, Ok lock)).

Definition claim_kv_lock (tenant_id conversation_id turn_id worker_id : string)
  : prog KvE (result ChatLock ChatBusError) :=
  lock_loop LOCK_ATTEMPTS (lock_key tenant_id conversation_id) "claim chat lock"
    (Err (Payload "chat lock payload missing before worker claim"))
    (claim_decision turn_id worker_id).

(** [mark_kv_lock_terminal] *)
Definition terminal_decision (turn_id : string) (worker_id : option string)
    (terminal : ChatTerminalUpdate) (_ : Entry) (lock : ChatLock) : prog KvE (decision ChatLock) :=
  if bool_decide (lk_turn_id lock ≠ turn_id) then Ret (inl (Err InFlight)) else
  if other_worker worker_id lock then Ret (inl (Err InFlight)) else
  let* now := call UtcNow in
  let lock := terminated env lock terminal now in
  Ret (inr (lock, Ok lock)).

Definition mark_kv_lock_terminal (tenant_id conversation_id turn_id : string)
    (worker_id : option string) (terminal : ChatTerminalUpdate)
  : prog KvE (result ChatLock ChatBusError) :=
  lock_loop LOCK_ATTEMPTS (lock_key tenant_id conversation_id) "mark terminal chat lock"
    (Err InFlight) (terminal_decision turn_id worker_id terminal).

(** [mark_kv_terminal_event_published] *)
Definition published_decision (turn_id : string) (_ : Entry) (lock : ChatLock)
  : prog KvE (decision unit) :=
  if bool_decide (lk_turn_id lock ≠ turn_id) || negb (lock_is_terminal lock)
  then Ret (inl (Ok tt)) else Ret (inr (published lock, Ok tt)).

Definition mark_kv_terminal_event_published (tenant_id conversation_id turn_id : string)
  : prog KvE (result unit ChatBusError) :=
  lock_loop LOCK_ATTEMPTS (lock_key tenant_id conversation_id) "mark terminal event published"
    (Ok tt) (published_decision turn_id).

(** [request_kv_stop] *)
Definition stop_decision (key requested_by : string) (entry : Entry) (lock : ChatLock)
  : prog KvE (decision (option ChatLock)) :=
  let* expired := expired_now lock in
  if expired : bool then
    let* _ := call (KvPurge key (Some (et_revision entry))) in
    Ret (inl (Ok None))
  else
    let* now := call UtcNow in
    let lock := stopped lock requested_by now in
    Ret (inr (lock, Ok (Some lock))).

Definition request_kv_stop (tenant_id conversation_id requested_by : string)
  : prog KvE (result (option ChatLock) ChatBusError) :=
  let key := lock_key tenant_id conversation_id in
  lock_loop LOCK_ATTEMPTS key "request stop" (Ok None) (stop_decision key requested_by).

(** [stop_requested_in_kv] *)
Definition stop_requested_in_kv (tenant_id conversation_id turn_id : string)
  : prog KvE (result bool ChatBusError) :=
  let* r := call (KvEntry (lock_key tenant_id conversation_id)) in
  match r with
  | Err error => Ret (Err (Payload ("read chat lock: " +:+ error)))
  | Ok None => Ret (Ok false)
  | Ok (Some entry) =>
      if bool_decide (et_operation entry ≠ Put) then Ret (Ok false) else
      match lock_from_slice (et_value entry) with
      | Err error => Ret (Err (Payload ("decode chat lock: " +:+ error)))
      | Ok lock =>
          let* expired := expired_now lock in
          Ret (Ok (negb expired && bool_decide (lk_turn_id lock = turn_id)
                   && lk_stop_requested lock))
      end
  end.

(** [renew_kv_lock] *)
Definition renew_decision (turn_id worker_id : string) (_ : Entry) (lock : ChatLock)
  : prog KvE (decision ChatLock) :=
  let* refused :=
    if bool_decide (lk_turn_id lock ≠ turn_id) || bool_decide (lk_worker_id lock ≠ Some worker_id)
    then Ret true else expired_now lock in
  if refused : bool then Ret (inl (Err InFlight)) else
  let* now := call UtcNow in
  let lock := renewed env lock now in
  Ret (inr (lock, Ok lock)).

Definition renew_kv_lock (tenant_id conversation_id turn_id worker_id : string)
  : prog KvE (result ChatLock ChatBusError) :=
  lock_loop LOCK_ATTEMPTS (lock_key tenant_id conversation_id) "renew chat lock"
    (Err InFlight) (renew_decision turn_id worker_id).

(** [NatsChatBus::release_lock] *)
Definition release_lock (tenant_id conversation_id turn_id : string) : prog KvE unit :=
  let key := lock_key tenant_id conversation_id in
  let* r := call (KvEntry key) in
  match r with
  | Ok (Some entry) =>
      if bool_decide (et_operation entry ≠ Put) then Ret tt else
      match lock_from_slice (et_value entry) with
      | Ok stored =>
          if bool_decide (lk_turn_id stored ≠ turn_id) then Ret tt else
          let* _ := call (KvPurge key (Some (et_revision entry))) in Ret tt
      | Err _ => Ret tt
      end
  | Ok None | Err _ => Ret tt
  end.
End locks.
