(* ===== verification/ChatLockRun.v ===== *)
(** * The locks under interleaving

    Any number of lock methods of crates/nats/src/lib.rs run at once against one
    bucket, with time passing and entries aging out.  The specification is the
    in-memory bus of ChatBus.v: [lock_step] is what one of its methods may do to
    one conversation's lock, and [answers] is what it would have answered. *)

From S2P Require Import Prelude Text Events Contracts ChatBus Kv ChatLocks.

Local Open Scope Z_scope.

Section run.
Context {LC : LockCodec} (env : string → option string).

Abbreviation ttl := (chat_lock_ttl env).

(** ** The methods, and what the in-memory bus does for each *)

Inductive LockOp : Type :=
| OpAcquire (tenant user conversation turn message text : string) (parent : option string)
    (bearer : string)
| OpLoad (tenant conversation : string)
| OpClaim (tenant conversation turn worker : string)
| OpTerminal (tenant conversation turn : string) (worker : option string)
    (terminal : ChatTerminalUpdate)
| OpPublished (tenant conversation turn : string)
| OpStop (tenant conversation by_user : string)
| OpStopRequested (tenant conversation turn : string)
| OpRenew (tenant conversation turn worker : string)
| OpRelease (tenant conversation turn : string).

Inductive Reply : Type :=
| RUnit (r : result unit ChatBusError)
| RLock (r : result ChatLock ChatBusError)
| RMaybe (r : result (option ChatLock) ChatBusError)
| RBool (r : result bool ChatBusError)
| RDone.

Definition op_key (op : LockOp) : string :=
  match op with
  | OpAcquire t _ c _ _ _ _ _ | OpLoad t c | OpClaim t c _ _ | OpTerminal t c _ _ _ | OpPublished t c _
  | OpStop t c _ | OpStopRequested t c _ | OpRenew t c _ _ | OpRelease t c _ => lock_key t c
  end.

Definition kv_method (op : LockOp) : prog KvE Reply :=
  match op with
  | OpAcquire t u c turn m text parent bearer =>
      let* now := call UtcNow in
      let* r := acquire_kv_lock (requested env now t u c turn m text parent bearer) in
      Ret (RUnit r)
  | OpLoad t c => let* r := load_kv_lock t c in Ret (RMaybe r)
  | OpClaim t c turn worker => let* r := claim_kv_lock env t c turn worker in Ret (RLock r)
  | OpTerminal t c turn worker terminal =>
      let* r := mark_kv_lock_terminal env t c turn worker terminal in Ret (RLock r)
  | OpPublished t c turn =>
      let* r := mark_kv_terminal_event_published t c turn in Ret (RUnit r)
  | OpStop t c user => let* r := request_kv_stop t c user in Ret (RMaybe r)
  | OpStopRequested t c turn => let* r := stop_requested_in_kv t c turn in Ret (RBool r)
  | OpRenew t c turn worker => let* r := renew_kv_lock env t c turn worker in Ret (RLock r)
  | OpRelease t c turn => let* _ := release_lock t c turn in Ret RDone
  end.

(** The in-memory method, whose two readings of the clock are [now] and [now']. *)
Definition mem_method (now now' : DateTime) (op : LockOp) (locks : Locks) : Locks * Reply :=
  match op with
  | OpAcquire t u c turn m text parent bearer =>
      prod_map id RUnit
        (mem_acquire_lock now' (requested env now t u c turn m text parent bearer) locks)
  | OpLoad t c => prod_map id RMaybe (mem_load_lock t c locks)
  | OpClaim t c turn worker => prod_map id RLock (mem_claim_lock env now now' t c turn worker locks)
  | OpTerminal t c turn worker terminal =>
      prod_map id RLock (mem_mark_lock_terminal env now' t c turn worker terminal locks)
  | OpPublished t c turn => prod_map id RUnit (mem_mark_terminal_event_published t c turn locks)
  | OpStop t c user => prod_map id RMaybe (mem_request_stop now now' t c user locks)
  | OpStopRequested t c turn => prod_map id RBool (mem_stop_requested now t c turn locks)
  | OpRenew t c turn worker => prod_map id RLock (mem_renew_lock env now now' t c turn worker locks)
  | OpRelease t c turn => (mem_release_lock t c turn locks, RDone)
  end.

(** What a caller may pass: a terminal update that is terminal. *)
Definition op_valid (op : LockOp) : Prop :=
  match op with
  | OpTerminal _ _ _ _ terminal =>
      tu_state terminal = Committed ∨ tu_state terminal = LockInterrupted ∨
      tu_state terminal = LockFailed
  | _ => True
  end.

(** ** The lock of a conversation, in the log of the bucket *)

Definition write_state (wr : KvWrite) : option ChatLock :=
  match kv_op wr, lock_from_slice (kv_value wr) with
  | Put, Ok lock => Some lock
  | _, _ => None
  end.

Definition state_of (key : string) (log : list KvWrite) : option ChatLock :=
  wr ← last_write key log; write_state wr.

(** No earlier than the last write. *)
Definition since (key : string) (log : list KvWrite) (now : DateTime) : Prop :=
  ∀ wr, last_write key log = Some wr → kv_time wr ≤ now.

(** The lock table of one conversation. *)
Definition table (key : string) (o : option ChatLock) : Locks :=
  match o with Some lock => {[key := lock]} | None => ∅ end.

(** One step of the specification, over the locks [log] left and at time [t]: a
    method of the in-memory bus, or the loss of an expired lock. *)
Inductive lock_step (key : string) (log : list KvWrite) (t : DateTime)
  : option ChatLock → option ChatLock → Prop :=
| step_method op now now' o :
    op_key op = key → op_valid op → since key log now' → now ≤ now' ≤ t →
    lock_step key log t o ((mem_method now now' op (table key o)).1 !! key)
| step_expired lock now :
    now ≤ t → is_expired lock now = true →
    lock_step key log t (Some lock) None.

(** What the methods may write. *)
Definition lock_write (log : list KvWrite) (wr : KvWrite) : Prop :=
  lock_step (kv_key wr) log (kv_time wr) (state_of (kv_key wr) log) (write_state wr) ∧
  (kv_op wr = Put → ∃ lock, write_state wr = Some lock ∧
     lk_lease_expires_at lock ≤ kv_time wr + ttl).

(** The in-memory bus answers [r] to [op] at some point of [log]: over the lock
    there, or over none when the lock there has expired; and what it leaves is
    there, was there already, or was written next. *)
Definition answers (op : LockOp) (r : Reply) (log : list KvWrite) : Prop :=
  ∃ before now now' o,
    before `suffix_of` log ∧ now ≤ now' ∧
    (o = state_of (op_key op) before ∨
     o = None ∧ ∃ lock, state_of (op_key op) before = Some lock ∧ is_expired lock now = true) ∧
    (mem_method now now' op (table (op_key op) o)).2 = r ∧
    ((mem_method now now' op (table (op_key op) o)).1 !! op_key op = o ∨
     ∃ wr, (wr :: before) `suffix_of` log ∧ kv_key wr = op_key op ∧
       write_state wr = (mem_method now now' op (table (op_key op) o)).1 !! op_key op).

(** The answers that are kept: every success, and a refusal of a method that
    writes under a lock, for which the in-memory bus refuses too.  A release
    answers nothing, and swallows its failures. *)
Definition answered (op : LockOp) (r : Reply) (log : list KvWrite) : Prop :=
  match r with
  | RUnit (Ok _) | RLock (Ok _) | RMaybe (Ok _) | RBool (Ok _) => answers op r log
  | RLock (Err InFlight) => ∃ e, answers op (RLock (Err e)) log
  | _ => True
  end.

Lemma answers_mono op r log log' : log `suffix_of` log' → answers op r log → answers op r log'.
Proof.
  intros Hsuf (before & now & now' & o & Hb & Hn & Ho & Hr & Hw).
  exists before, now, now', o. split_and!; [by etrans | done.. |].
  destruct Hw as [Hw | (wr & Hwr & Hk & Hw)]; [by left | right].
  exists wr. split_and!; [by etrans | done..].
Qed.

Lemma answered_mono op r log log' : log `suffix_of` log' → answered op r log → answered op r log'.
Proof.
  intros Hsuf H. unfold answered in *. repeat case_match; try done;
    try by eapply answers_mono. destruct H as [err H]. exists err. by eapply answers_mono.
Qed.

(** ** The proof *)

Abbreviation inv := (kv_inv lock_write ttl).
Abbreviation guarantee := (kv_guarantee lock_write ttl).
Abbreviation lockrg := (rg kv_step guarantee).

Lemma kept_answered op (f : KvWorld → Prop) r :
  kept lock_write ttl f → kept lock_write ttl (λ w, f w ∧ answered op r (kw_log w)).
Proof.
  intros [Hst Hinv]. split; [| by intros w [? _]; apply Hinv].
  intros w w' [Hw Ha] HG. destruct (HG (Hinv _ Hw)) as (_ & Hsuf & _).
  split; [by eapply Hst | by eapply answered_mono].
Qed.

(** The lock a write left was leased no further than one TTL from then. *)
Lemma state_leased w lock wr :
  inv w → wr ∈ kw_log w → write_state wr = Some lock →
  lk_lease_expires_at lock ≤ kv_time wr + ttl.
Proof.
  intros [_ Hall _ _] Hin Hs.
  destruct (all_writes_elem _ _ _ Hall Hin) as (old & _ & _ & Hput).
  unfold write_state in *. destruct (kv_op wr); [| done..].
  destruct (Hput eq_refl) as (lock' & Hs' & ?). rewrite Hs in Hs'. by simplify_eq.
Qed.

(** What is not there any more was expired, or not a lock. *)
Lemma absent_state w key :
  inv w → exists_entry key w = false →
  state_of key (kw_log w) = None ∨
  ∃ lock, state_of key (kw_log w) = Some lock ∧ is_expired lock (kw_now w) = true.
Proof.
  intros Hw He. unfold state_of.
  destruct (last_write key (kw_log w)) as [wr|] eqn:Hl; simpl; [| by left].
  destruct (write_state wr) as [lock|] eqn:Hs; [right | by left].
  exists lock. split; [done |]. unfold is_expired. apply Z.leb_le.
  pose proof (state_leased _ _ _ Hw (proj1 (last_write_elem _ _ _ Hl)) Hs).
  unfold exists_entry in He. destruct (current key w) as [wr'|] eqn:Hc.
  - apply current_last in Hc. rewrite Hl in Hc. simplify_eq.
    unfold write_state in Hs. by destruct (kv_op wr').
  - apply current_none in Hc as [Hc | (wr' & Hc & Hfl)]; [congruence |].
    rewrite Hl in Hc. simplify_eq. apply last_write_elem in Hl as [Hin _].
    pose proof (ki_floor _ _ _ Hw _ Hin Hfl). lia.
Qed.

Lemma answers_answered op r log : answers op r log → answered op r log.
Proof. intros H. unfold answered. repeat case_match; try done. by eexists. Qed.

(** A log whose lock for [key] is gone: never there, removed, or expired. *)
Definition gone (key : string) (log : list KvWrite) (now : DateTime) : Prop :=
  state_of key log = None ∨
  ∃ lock, state_of key log = Some lock ∧ is_expired lock now = true.

(** Answers that write nothing. *)
Lemma answers_none op r log now :
  gone (op_key op) log now → (mem_method now now op (table (op_key op) None)) = (∅, r) →
  answers op r log.
Proof.
  intros Hg Hm. exists log, now, now, None. rewrite Hm. simpl.
  split_and!; [done | lia | | done | left; apply lookup_empty].
  destruct Hg as [Hg | (lock & Hg & He)]; [by left | right]. split; [done | by exists lock].
Qed.

Lemma answers_same op r log now lock :
  state_of (op_key op) log = Some lock →
  (mem_method now now op (table (op_key op) (Some lock))) = (table (op_key op) (Some lock), r) →
  answers op r log.
Proof.
  intros Hs Hm. exists log, now, now, (Some lock). rewrite Hm. simpl.
  split_and!; [done | lia | by left | done | left; apply lookup_singleton_eq].
Qed.

(** *** The loop *)

Section loop.
Context (op : LockOp).
Abbreviation key := (op_key op).

(** The write whose entry was read. *)
Definition read_pre (wr : KvWrite) (w : KvWorld) : Prop :=
  inv w ∧ past (λ log _, last_write key log = Some wr) w.

Lemma kept_read_pre wr : kept lock_write ttl (read_pre wr).
Proof. apply kept_past, kept_inv. Qed.

Lemma read_pre_in wr w :
  read_pre wr w → wr ∈ kw_log w ∧ kv_key wr = key ∧ kv_time wr ≤ kw_now w.
Proof.
  intros [Hw (log & now & Hsuf & _ & Hl)]. apply last_write_elem in Hl as [Hin Hk].
  assert (wr ∈ kw_log w) by (by eapply elem_of_suffix).
  split_and!; [done.. |]. by eapply wf_log_bounds; [apply Hw |].
Qed.

(** Reading the entry: it is gone, it is the last write, or the read failed. *)
Lemma rg_read_lock {B} (f : result (option Entry) string → prog KvE B) P R :
  kept lock_write ttl P →
  (∀ m, lockrg (f (Err m)) P R) →
  (∀ x, match x with None => True | Some e => et_operation e ≠ Put end →
     lockrg (f (Ok x)) (λ w, P w ∧ past (gone key) w) R) →
  (∀ wr, kv_op wr = Put → lockrg (f (Ok (Some (entry_of wr))))
     (λ w, P w ∧ past (λ log _, last_write key log = Some wr) w) R) →
  lockrg (prog_bind (call (KvEntry key)) f) P R.
Proof.
  intros HP Herr Hgone Hput. apply rg_entry; [done |]. intros [[e|]|m].
  3:{ eapply rg_pre; [| apply Herr]. by intros w [? _]. }
  2:{ eapply rg_pre; [| by apply Hgone].
      intros w (Hw & log & now & Hsuf & Hle & w0 & Hw0 & <- & <- & Hc). split; [done |].
      exists (kw_log w0), (kw_now w0). split_and!; [done.. |].
      apply absent_state; [by apply HP |]. unfold exists_entry. by rewrite Hc. }
  apply (rg_exists _ _ _ _ (λ wr w,
    (P w ∧ past (λ log _, last_write key log = Some wr) w) ∧ e = entry_of wr)).
  { intros w (Hw & log & now & Hsuf & Hle & w0 & _ & <- & _ & wr & Hl & ->).
    exists wr. split; [| done]. split; [done |]. by exists (kw_log w0), now. }
  intros wr. apply (rg_pure _ _ (e = entry_of wr)); [by intros w [_ ?] |]. intros ->.
  eapply rg_pre; [intros w [Hw _]; exact Hw |].
  destruct (decide (kv_op wr = Put)) as [Hop | Hop]; [by apply Hput |].
  eapply rg_pre; [| by apply Hgone].
  intros w [Hw (log & now & Hsuf & Hle & Hl)]. split; [done |].
  exists log, now. split_and!; [done.. |]. left. unfold state_of. rewrite Hl. simpl.
  unfold write_state. by destruct (kv_op wr).
Qed.

Lemma answers_gone r w :
  (∀ now, mem_method now now op (table key None) = (∅, r)) → past (gone key) w →
  answers op r (kw_log w).
Proof.
  intros Hm (log & now & Hsuf & _ & Hg). eapply answers_mono; [done |].
  by apply (answers_none op r log now).
Qed.

(** The lock [lock'] is what the in-memory method writes over [lock]. *)
Definition writes (wr : KvWrite) (lock lock' : ChatLock) (r : Reply) (w : KvWorld) : Prop :=
  ∃ now now', kv_time wr ≤ now ∧ now ≤ now' ≤ kw_now w ∧ op_valid op ∧
    lk_lease_expires_at lock' ≤ kw_now w + ttl ∧
    mem_method now now' op (table key (Some lock)) = (table key (Some lock'), r).

Definition decided {A} (f : result A ChatBusError → Reply) (wr : KvWrite) (lock : ChatLock)
    (d : result A ChatBusError + ChatLock * result A ChatBusError) (w : KvWorld) : Prop :=
  match d with
  | inl r => answered op (f r) (kw_log w)
  | inr (lock', r) => writes wr lock lock' (f r) w
  end.

Lemma kept_writes P wr lock lock' r :
  kept lock_write ttl P → kept lock_write ttl (λ w, P w ∧ writes wr lock lock' r w).
Proof.
  intros [Hst Hinv]. split; [| by intros w [? _]; apply Hinv].
  intros w w' [Hw (now & now' & ? & ? & ? & ? & ?)] HG.
  destruct (HG (Hinv _ Hw)) as (_ & _ & Hle). split; [by eapply Hst |].
  exists now, now'. split_and!; [done | lia | lia | done | lia | done].
Qed.

(** Such a write is one the specification allows. *)
Lemma method_write now now' wr lock lock' r payload w :
  inv w → last_write key (kw_log w) = Some wr → write_state wr = Some lock →
  kv_time wr ≤ now → now ≤ now' ≤ kw_now w → op_valid op →
  lk_lease_expires_at lock' ≤ kw_now w + ttl →
  mem_method now now' op (table key (Some lock)) = (table key (Some lock'), r) →
  lock_from_slice payload = Ok lock' →
  lock_write (kw_log w) (mkWrite (next_seq w) (kw_now w) key Put payload).
Proof.
  intros Hw Hl Hs Hn Hn' Hv Hle Hm Hp. unfold lock_write, write_state. simpl. rewrite Hp.
  split; [| by eauto]. unfold state_of. rewrite Hl. simpl. rewrite Hs.
  assert (Some lock' = (mem_method now now' op (table key (Some lock))).1 !! key) as ->
    by (by rewrite Hm; simpl; rewrite lookup_singleton_eq).
  apply step_method; [done | done | | done]. intros wr' Hl'. simplify_eq. lia.
Qed.

Lemma lock_loop_rg {A} (f : result A ChatBusError → Reply) n what missing decide_lock :
  (∀ m log, answered op (f (Err (Payload m))) log) →
  (∀ now, mem_method now now op (table key None) = (∅, f missing)) →
  (∀ wr lock, write_state wr = Some lock →
     lockrg (decide_lock (entry_of wr) lock) (read_pre wr)
       (λ d w, read_pre wr w ∧ decided f wr lock d w)) →
  lockrg (lock_loop n key what missing decide_lock) inv
    (λ r w, inv w ∧ answered op (f r) (kw_log w)).
Proof.
  intros Hpayload Hmissing Hdecide. induction n as [|n IH]; cbn [lock_loop].
  { apply rg_ret. by intros. }
  apply rg_read_lock; [apply kept_inv | | |].
  { intros m. apply rg_ret. by intros w ?. }
  { intros x Hx. assert (∀ w, inv w ∧ past (gone key) w → inv w ∧ answered op (f missing) (kw_log w))
      by (intros w [Hw Hg]; split; [done | by apply answers_answered, answers_gone]).
    destruct x as [e|]; [rewrite bool_decide_eq_true_2 by done |]; by apply rg_ret. }
  intros wr Hput. apply (rg_pre _ _ _ (read_pre wr)); [done |].
  cbn [et_operation entry_of et_value et_revision].
  rewrite (bool_decide_eq_false_2 (kv_op wr ≠ Put)) by (intros ?; done).
  destruct (lock_from_slice (kv_value wr)) as [lock|m] eqn:Hlock.
  2:{ apply rg_ret. intros w [Hw _]. by split. }
  assert (write_state wr = Some lock) as Hs.
  { unfold write_state. by rewrite Hlock, Hput. }
  eapply rg_bind; [by apply Hdecide |]. intros [r | [lock' r]].
  { apply rg_ret. intros w [[Hw _] Ha]. by split. }
  destruct (lock_to_vec lock') as [payload|m] eqn:Hvec.
  2:{ apply rg_ret. intros w [[Hw _] _]. by split. }
  apply lock_codec_roundtrip in Hvec.
  apply (rg_kv_update lock_write ttl).
  - apply kept_writes, kept_read_pre.
  - intros w [Hw _]. apply read_pre_in in Hw as (? & ? & _). done.
  - intros w [[Hw _] (now & now' & Hn & Hn' & Hv & Hle & Hm)] Hl.
    by eapply (method_write now now').
  - intros [seq|[kind m]].
    + apply rg_ret. intros w [[[Hw _] _] Hwrote]. split; [done |].
      destruct (Hwrote eq_refl) as (log & now & Hsuf & _ & old & -> & Hl & w0 & [_ Hwr] & <- & <-).
      destruct Hwr as (n1 & n2 & Hn1 & Hn2 & Hv & _ & Hm).
      eapply answered_mono; [done |]. apply answers_answered.
      exists (kw_log w0), n1, n2, (Some lock). rewrite Hm. simpl. split_and!; [| lia | | done |].
      * by apply suffix_cons_r.
      * left. unfold state_of. by rewrite Hl.
      * right. eexists. split_and!; [done | done |]. unfold write_state. simpl.
        by rewrite Hvec, lookup_singleton_eq.
    + destruct kind.
      * eapply rg_weaken; [apply IH | by intros w [[[? _] _] _] | done].
      * apply rg_ret. intros w [[[Hw _] _] _]. by split.
Qed.

(** Reading the clock after the entry. *)
Lemma rg_expired {B} t lock (f : bool → prog KvE B) P R :
  kept lock_write ttl P → (∀ w, P w → t ≤ kw_now w) →
  (∀ n, t ≤ n → lockrg (f (is_expired lock n)) (λ w, P w ∧ n ≤ kw_now w) R) →
  lockrg (prog_bind (expired_now lock) f) P R.
Proof. intros HP Ht Hf. by apply (rg_clock _ _ t (λ n, f (is_expired lock n))). Qed.

Lemma kept_now P n :
  kept lock_write ttl P → kept lock_write ttl (λ w, P w ∧ n ≤ kw_now w).
Proof.
  intros [Hst Hinv]. split; [| by intros w [? _]; apply Hinv].
  intros w w' [Hw Hn] HG. destruct (HG (Hinv _ Hw)) as (_ & _ & Hle).
  split; [by eapply Hst | lia].
Qed.

(** Answering without writing, as the in-memory method would at [now]. *)
Lemma answers_read wr lock now r w :
  read_pre wr w → write_state wr = Some lock →
  mem_method now now op (table key (Some lock)) = (table key (Some lock), r) →
  answers op r (kw_log w).
Proof.
  intros [_ (log & n & Hsuf & _ & Hl)] Hs Hm. eapply answers_mono; [done |].
  eapply (answers_same op r log now lock); [| done]. unfold state_of. by rewrite Hl.
Qed.
End loop.

(** *** The methods *)

Lemma table_lookup key lock : table key (Some lock) !! key = Some lock.
Proof. apply lookup_singleton_eq. Qed.

Lemma table_insert key lock lock' : <[key := lock']> (table key (Some lock)) = table key (Some lock').
Proof. apply insert_singleton_eq. Qed.

(** Read the clock no earlier than the entry. *)
Ltac read_clock n Hn :=
  first
    [ apply (rg_expired _ _ _ _ _ _ (kept_read_pre _ _) (λ w Hw, proj2 (proj2 (read_pre_in _ _ w Hw))))
    | apply (rg_clock _ _ _ _ _ _ (kept_read_pre _ _) (λ w Hw, proj2 (proj2 (read_pre_in _ _ w Hw)))) ];
  intros n Hn.

(** Read it again. *)
Ltac read_clock_again m n Hn :=
  first
    [ apply (rg_expired _ m _ _ _ (kept_now _ m (kept_read_pre _ _)) (λ w Hw, proj2 Hw))
    | apply (rg_clock _ _ m _ _ _ (kept_now _ m (kept_read_pre _ _)) (λ w Hw, proj2 Hw)) ];
  intros n Hn.

(** The lease of a lock just written. *)
Ltac lease :=
  match goal with |- lk_lease_expires_at (?f) ≤ _ => idtac end;
  match goal with l : ChatLock |- _ => destruct l end; cbn [claimed terminated published stopped
    renewed lk_lease_expires_at] in *; unfold lock_expires_at; lia.

(** Evaluate a method of the in-memory bus on the table of one lock. *)
Ltac mem_eval :=
  cbn [mem_method op_key];
  unfold mem_claim_lock, mem_mark_lock_terminal, mem_mark_terminal_event_published,
    mem_request_stop, mem_stop_requested, mem_renew_lock;
  first [rewrite table_lookup | cbn [table]; rewrite lookup_empty];
  repeat match goal with
  | H : ?b = true |- context [?b] => rewrite H
  | H : ?b = false |- context [?b] => rewrite H
  | |- context [bool_decide ?P] =>
      first [rewrite (bool_decide_eq_true_2 P) by congruence
            |rewrite (bool_decide_eq_false_2 P) by congruence]
  end;
  cbn [negb andb orb prod_map id]; unfold prod_map; simpl; rewrite ?insert_singleton_eq; reflexivity.

Section methods.
Context (t c turn worker : string) (wr : KvWrite) (lock : ChatLock).
Hypothesis Hs : write_state wr = Some lock.

(** An answer that writes nothing. *)
Lemma answer_rg {A} op (f : result A ChatBusError → Reply) r (P : KvWorld → Prop) :
  (∀ w, P w → read_pre op wr w ∧ answered op (f r) (kw_log w)) →
  lockrg (Ret (inl r)) P (λ d w, read_pre op wr w ∧ decided op f wr lock d w).
Proof. intros HP. apply rg_ret. intros w Hw. by apply HP. Qed.

Lemma claim_decision_rg :
  lockrg (claim_decision env turn worker (entry_of wr) lock)
    (read_pre (OpClaim t c turn worker) wr)
    (λ d w, read_pre (OpClaim t c turn worker) wr w ∧
            decided (OpClaim t c turn worker) RLock wr lock d w).
Proof.
  unfold claim_decision.
  destruct (decide (lk_turn_id lock = turn)) as [Ht | Ht].
  - rewrite (bool_decide_eq_true_2 _ Ht), (bool_decide_eq_false_2 (lk_turn_id lock ≠ turn))
      by (intros ?; done).
    destruct (lock_is_terminal lock) eqn:Hterm; cbn [andb].
    { apply answer_rg. intros w Hw. split; [done |]. apply answers_answered.
      eapply (answers_read _ wr lock 0); [done | done | mem_eval]. }
    cbn [prog_bind].
    destruct (bool_decide (lk_state lock = Running) && bool_decide (lk_worker_id lock ≠ Some worker))
      eqn:Hrun.
    + read_clock n Hn. destruct (is_expired lock n) eqn:He; cbn [prog_bind negb].
      * read_clock_again n n' Hn'. assert (is_expired lock n' = true) as -> by
          (unfold is_expired in *; destruct_bools; lia).
        apply answer_rg. intros w [[Hw _] _]. done.
      * apply answer_rg. intros w [Hw _]. split; [done |].
        exists InFlight. eapply (answers_read _ wr lock n); [done | done |].
        mem_eval.
    + read_clock n Hn. destruct (is_expired lock n) eqn:He.
      { apply answer_rg. intros w [Hw _]. done. }
      read_clock_again n n' Hn'. apply rg_ret. intros w [[Hw _] Hle]. split; [done |].
      exists n, n'. split_and!; [lia | lia | lia | done | lease | mem_eval].
  - rewrite (bool_decide_eq_false_2 _ Ht), (bool_decide_eq_true_2 (lk_turn_id lock ≠ turn))
      by done.
    cbn [andb]. read_clock n Hn.
    assert (∃ e, mem_method n n (OpClaim t c turn worker)
              (table (op_key (OpClaim t c turn worker)) (Some lock))
            = (table (op_key (OpClaim t c turn worker)) (Some lock), RLock (Err e))) as [e He]
      by (destruct (is_expired lock n) eqn:He; eexists; mem_eval).
    assert (∀ w, read_pre (OpClaim t c turn worker) wr w ∧ n ≤ kw_now w →
              read_pre (OpClaim t c turn worker) wr w ∧
              answered (OpClaim t c turn worker) (RLock (Err InFlight)) (kw_log w)) as Hans.
    { intros w [Hw _]. split; [done |]. exists e. by eapply (answers_read _ wr lock n). }
    by destruct (is_expired lock n); cbn [negb prog_bind]; apply answer_rg.
Qed.

Lemma terminal_decision_rg w0 terminal :
  op_valid (OpTerminal t c turn w0 terminal) →
  lockrg (terminal_decision env turn w0 terminal (entry_of wr) lock)
    (read_pre (OpTerminal t c turn w0 terminal) wr)
    (λ d w, read_pre (OpTerminal t c turn w0 terminal) wr w ∧
            decided (OpTerminal t c turn w0 terminal) RLock wr lock d w).
Proof.
  intros Hv. unfold terminal_decision.
  destruct (decide (lk_turn_id lock = turn)) as [Ht | Ht].
  - rewrite (bool_decide_eq_false_2 (lk_turn_id lock ≠ turn)) by (intros ?; done).
    destruct (other_worker w0 lock) eqn:Ho.
    { apply answer_rg. intros w Hw. split; [done |]. exists InFlight.
      eapply (answers_read _ wr lock 0); [done | done | mem_eval]. }
    read_clock n Hn. apply rg_ret. intros w [Hw Hle]. split; [done |].
    exists n, n. split_and!; [lia | lia | lia | done | lease | mem_eval].
  - rewrite (bool_decide_eq_true_2 (lk_turn_id lock ≠ turn)) by done.
    apply answer_rg. intros w Hw. split; [done |]. exists InFlight.
    eapply (answers_read _ wr lock 0); [done | done | mem_eval].
Qed.

Lemma published_decision_rg :
  lockrg (published_decision turn (entry_of wr) lock)
    (read_pre (OpPublished t c turn) wr)
    (λ d w, read_pre (OpPublished t c turn) wr w ∧
            decided (OpPublished t c turn) RUnit wr lock d w).
Proof.
  unfold published_decision.
  destruct (bool_decide (lk_turn_id lock ≠ turn) || negb (lock_is_terminal lock)) eqn:Hb.
  - apply answer_rg. intros w Hw. split; [done |]. apply answers_answered.
    eapply (answers_read _ wr lock 0); [done | done |].
    destruct (decide (lk_turn_id lock = turn)) as [Ht | Ht]; [| mem_eval].
    rewrite (bool_decide_eq_false_2 (lk_turn_id lock ≠ turn)) in Hb by (intros ?; done).
    apply negb_true_iff in Hb. mem_eval.
  - apply orb_false_iff in Hb as [Ht Hterm]. apply bool_decide_eq_false in Ht.
    apply negb_false_iff in Hterm.
    assert (lk_turn_id lock = turn) by (by destruct (decide (lk_turn_id lock = turn))).
    apply rg_ret. intros w Hw. split; [done |].
    destruct (read_pre_in _ _ _ Hw) as (Hin & _ & Htime).
    pose proof (state_leased _ _ _ (proj1 Hw) Hin Hs).
    exists (kv_time wr), (kv_time wr). split_and!; [lia | lia | lia | done | lease | mem_eval].
Qed.

Lemma renew_decision_rg :
  lockrg (renew_decision env turn worker (entry_of wr) lock)
    (read_pre (OpRenew t c turn worker) wr)
    (λ d w, read_pre (OpRenew t c turn worker) wr w ∧
            decided (OpRenew t c turn worker) RLock wr lock d w).
Proof.
  unfold renew_decision.
  destruct (bool_decide (lk_turn_id lock ≠ turn) || bool_decide (lk_worker_id lock ≠ Some worker))
    eqn:Hb; cbn [prog_bind].
  { apply answer_rg. intros w Hw. split; [done |]. exists InFlight.
    eapply (answers_read _ wr lock 0); [done | done | mem_eval]. }
  read_clock n Hn. destruct (is_expired lock n) eqn:He.
  { apply answer_rg. intros w [Hw _]. split; [done |]. exists InFlight.
    eapply (answers_read _ wr lock n); [done | done | mem_eval]. }
  read_clock_again n n' Hn'. apply rg_ret. intros w [[Hw _] Hle]. split; [done |].
  exists n, n'. split_and!; [lia | lia | lia | done | lease | mem_eval].
Qed.

(** Dropping an expired lock is a step of its own. *)
Lemma purge_write key now w :
  last_write key (kw_log w) = Some wr → is_expired lock now = true → now ≤ kw_now w →
  lock_write (kw_log w) (mkWrite (next_seq w) (kw_now w) key Purge []).
Proof.
  intros Hl He Hle. split; [| done]. simpl. unfold state_of. rewrite Hl. simpl. rewrite Hs.
  by apply (step_expired _ _ _ _ now).
Qed.

Lemma stop_decision_rg user :
  lockrg (stop_decision (lock_key t c) user (entry_of wr) lock)
    (read_pre (OpStop t c user) wr)
    (λ d w, read_pre (OpStop t c user) wr w ∧ decided (OpStop t c user) RMaybe wr lock d w).
Proof.
  unfold stop_decision. read_clock n Hn. destruct (is_expired lock n) eqn:He.
  - apply (rg_purge lock_write ttl).
    + apply kept_now, kept_read_pre.
    + intros w [Hw _]. by destruct (read_pre_in _ _ _ Hw) as (? & ? & _).
    + intros w [_ Hle] Hl. by eapply purge_write.
    + intros x. apply answer_rg. intros w [Hw Hle]. split; [done |]. apply answers_answered.
      destruct Hw as [_ (log & now & Hsuf & _ & Hl)]. eapply answers_mono; [done |].
      eapply (answers_none _ _ log n); [right; exists lock; split; [| done] | mem_eval].
      unfold state_of. by rewrite Hl.
  - read_clock_again n n' Hn'. apply rg_ret. intros w [[Hw _] Hle]. split; [done |].
    destruct (read_pre_in _ _ _ Hw) as (Hin & _ & Htime).
    pose proof (state_leased _ _ _ (proj1 Hw) Hin Hs).
    exists n, n'. split_and!; [lia | lia | lia | done | lease | mem_eval].
Qed.
End methods.

(** *** Acquiring *)

Section acquire.
Context (t u c turn m text : string) (parent : option string) (bearer : string) (n : DateTime).
Abbreviation op := (OpAcquire t u c turn m text parent bearer).
Abbreviation key := (op_key op).
Abbreviation lock := (requested env n t u c turn m text parent bearer).

Definition may_acquire (w : KvWorld) : Prop := inv w ∧ n ≤ kw_now w.

Lemma kept_may_acquire : kept lock_write ttl may_acquire.
Proof. apply kept_now, kept_inv. Qed.

Lemma acquire_over o now :
  o = None ∨ (∃ old, o = Some old ∧ is_expired old now = true) →
  mem_method n now op (table key o) = (<[key := lock]> (table key o), RUnit (Ok tt)).
Proof.
  intros Ho. cbn [mem_method op_key]. unfold mem_acquire_lock.
  cbn [requested lk_tenant_id lk_conversation_id]. destruct Ho as [-> | (old & -> & He)].
  - cbn [table]. by rewrite lookup_empty.
  - rewrite table_lookup, He. done.
Qed.

Lemma create_kv_lock_rg :
  lockrg (create_kv_lock key lock) may_acquire
    (λ r w, inv w ∧ answered op (RUnit r) (kw_log w)).
Proof.
  unfold create_kv_lock. destruct (lock_to_vec lock) as [payload|e] eqn:Hvec.
  2:{ apply rg_ret. by intros w [? _]. }
  apply lock_codec_roundtrip in Hvec.
  apply (rg_create lock_write ttl).
  - apply kept_may_acquire.
  - intros w [Hw Hle] He. unfold lock_write, write_state. cbn [kv_op kv_value kv_key kv_time].
    rewrite Hvec. split.
    2:{ exists lock. split; [done |]. cbn. unfold lock_expires_at. lia. }
    pose proof (acquire_over _ _ (absent_state _ _ Hw He)) as Hm.
    assert (Some lock = (mem_method n (kw_now w) op
              (table key (state_of key (kw_log w)))).1 !! key) as ->
      by (rewrite Hm; simpl; by rewrite lookup_insert_eq).
    apply step_method; [done | done | | lia].
    intros wr Hl. apply last_write_elem in Hl as [Hin _].
    by eapply wf_log_bounds; [apply Hw |].
  - intros x. apply rg_ret. intros w [[Hw _] Hwrote]. split; [done |].
    destruct x as [seq|[[] e]]; [| done..].
    destruct (Hwrote eq_refl) as (log & now & Hsuf & _ & old & -> & w0 & [Hw0 Hle] & He & <- & <-).
    eapply answered_mono; [done |]. apply answers_answered.
    pose proof (acquire_over _ _ (absent_state _ _ Hw0 He)) as Hm.
    exists (kw_log w0), n, (kw_now w0), (state_of key (kw_log w0)).
    rewrite Hm. cbn [fst snd].
    split_and!; [by apply suffix_cons_r | lia | by left | done | right].
    eexists. split_and!; [done | done |]. unfold write_state. cbn [kv_op kv_value].
    by rewrite Hvec, lookup_insert_eq.
Qed.

Lemma acquire_kv_lock_rg :
  lockrg (acquire_kv_lock lock) may_acquire (λ r w, inv w ∧ answered op (RUnit r) (kw_log w)).
Proof.
  unfold acquire_kv_lock. apply (rg_read_lock op); [apply kept_may_acquire | | |].
  - intros e. apply rg_ret. by intros w [? _].
  - intros x Hx. eapply rg_pre; [intros w [Hw _]; exact Hw |].
    destruct x as [e|]; [rewrite bool_decide_eq_true_2 by done |]; apply create_kv_lock_rg.
  - intros wr Hput. cbn [et_operation entry_of et_value et_revision].
    rewrite (bool_decide_eq_false_2 (kv_op wr ≠ Put)) by (intros ?; done).
    destruct (lock_from_slice (kv_value wr)) as [stored|e] eqn:Hlock.
    2:{ apply rg_ret. by intros w [[? _] _]. }
    assert (write_state wr = Some stored) as Hs
      by (unfold write_state; by rewrite Hlock, Hput).
    assert (kept lock_write ttl
      (λ w, may_acquire w ∧ past (λ log _, last_write key log = Some wr) w)) as Hkept
      by apply kept_past, kept_may_acquire.
    apply (rg_expired (kv_time wr)); [done | |].
    { intros w [[Hw _] Hp]. by eapply (read_pre_in op wr w). }
    intros n' Hn. destruct (is_expired stored n') eqn:He; cbn [negb].
    2:{ apply rg_ret. by intros w [[[? _] _] _]. }
    apply (rg_purge lock_write ttl).
    + by apply kept_now.
    + intros w [[[Hw _] Hp] _]. by destruct (read_pre_in op wr w) as (? & ? & _).
    + intros w [_ Hle] Hl. by eapply purge_write.
    + intros [[]|e]; [| apply rg_ret; by intros w [[[? _] _] _]].
      eapply rg_pre; [| apply create_kv_lock_rg]. by intros w [[? _] _].
Qed.
End acquire.

(** *** The methods that only read, and release *)

Section others.
Context (t c turn : string).

Lemma load_kv_lock_rg :
  lockrg (load_kv_lock t c) inv
    (λ r w, inv w ∧ answered (OpLoad t c) (RMaybe r) (kw_log w)).
Proof.
  unfold load_kv_lock. apply (rg_read_lock (OpLoad t c)); [apply kept_inv | | |].
  - intros m. by apply rg_ret.
  - intros x Hx.
    assert (∀ w, inv w ∧ past (gone (op_key (OpLoad t c))) w →
              inv w ∧ answered (OpLoad t c) (RMaybe (Ok None)) (kw_log w)).
    { intros w [Hw Hg]. split; [done |]. apply answers_answered, answers_gone; [| done].
      intros now. cbn [mem_method op_key table]. unfold mem_load_lock. by rewrite lookup_empty. }
    destruct x as [e|]; [rewrite bool_decide_eq_true_2 by done |]; by apply rg_ret.
  - intros wr Hput. cbn [et_operation entry_of et_value].
    rewrite (bool_decide_eq_false_2 (kv_op wr ≠ Put)) by (intros ?; done).
    apply rg_ret. intros w Hw. split; [apply Hw |].
    destruct (lock_from_slice (kv_value wr)) as [lock|m] eqn:Hlock; [| done].
    apply answers_answered, (answers_read (OpLoad t c) wr lock 0); [done | |].
    + unfold write_state. by rewrite Hlock, Hput.
    + cbn [mem_method op_key]. unfold mem_load_lock. by rewrite table_lookup.
Qed.

Lemma stop_requested_in_kv_rg :
  lockrg (stop_requested_in_kv t c turn) inv
    (λ r w, inv w ∧ answered (OpStopRequested t c turn) (RBool r) (kw_log w)).
Proof.
  unfold stop_requested_in_kv.
  apply (rg_read_lock (OpStopRequested t c turn)); [apply kept_inv | | |].
  - intros m. by apply rg_ret.
  - intros x Hx.
    assert (∀ w, inv w ∧ past (gone (op_key (OpStopRequested t c turn))) w →
              inv w ∧ answered (OpStopRequested t c turn) (RBool (Ok false)) (kw_log w)).
    { intros w [Hw Hg]. split; [done |]. apply answers_answered, answers_gone; [| done].
      intros now. cbn [mem_method op_key table]. unfold mem_stop_requested.
      by rewrite lookup_empty. }
    destruct x as [e|]; [rewrite bool_decide_eq_true_2 by done |]; by apply rg_ret.
  - intros wr Hput. cbn [et_operation entry_of et_value].
    rewrite (bool_decide_eq_false_2 (kv_op wr ≠ Put)) by (intros ?; done).
    destruct (lock_from_slice (kv_value wr)) as [lock|m] eqn:Hlock.
    2:{ apply rg_ret. by intros w [? _]. }
    apply (rg_pre _ _ _ (read_pre (OpStopRequested t c turn) wr)); [done |].
    read_clock n Hn. apply rg_ret. intros w [Hw _]. split; [apply Hw |].
    apply answers_answered, (answers_read (OpStopRequested t c turn) wr lock n); [done | |].
    + unfold write_state. by rewrite Hlock, Hput.
    + cbn [mem_method op_key]. unfold mem_stop_requested. by rewrite table_lookup.
Qed.

Lemma release_lock_rg : lockrg (release_lock t c turn) inv (λ _ w, inv w).
Proof.
  unfold release_lock. apply (rg_read_lock (OpRelease t c turn)); [apply kept_inv | | |].
  - intros m. by apply rg_ret.
  - intros x Hx. assert (∀ w, inv w ∧ past (gone (op_key (OpRelease t c turn))) w → inv w)
      by (by intros w [? _]).
    destruct x as [e|]; [rewrite bool_decide_eq_true_2 by done |]; by apply rg_ret.
  - intros wr Hput. cbn [et_operation entry_of et_value et_revision].
    rewrite (bool_decide_eq_false_2 (kv_op wr ≠ Put)) by (intros ?; done).
    destruct (lock_from_slice (kv_value wr)) as [lock|m] eqn:Hlock.
    2:{ apply rg_ret. by intros w [? _]. }
    destruct (decide (lk_turn_id lock = turn)) as [Ht | Ht].
    2:{ rewrite bool_decide_eq_true_2 by done. apply rg_ret. by intros w [? _]. }
    rewrite bool_decide_eq_false_2 by (intros ?; done).
    apply (rg_pre _ _ _ (read_pre (OpRelease t c turn) wr)); [done |].
    apply (rg_purge lock_write ttl).
    + apply kept_read_pre.
    + intros w Hw. by destruct (read_pre_in _ _ _ Hw) as (? & ? & _).
    + intros w Hw Hl. destruct (read_pre_in _ _ _ Hw) as (Hin & _ & Htime).
      split; [| done]. simpl. unfold state_of. rewrite Hl. simpl.
      unfold write_state at 1. rewrite Hput, Hlock.
      assert (write_state (mkWrite (next_seq w) (kw_now w) (lock_key t c) Purge []) =
        (mem_method (kw_now w) (kw_now w) (OpRelease t c turn)
           (table (lock_key t c) (Some lock))).1 !! lock_key t c) as ->.
      { cbn [mem_method fst]. unfold mem_release_lock.
        rewrite table_lookup, bool_decide_eq_true_2 by done. simpl.
        by rewrite lookup_delete_eq. }
      apply step_method; [done | done | | lia]. intros wr' Hl'. by simplify_eq.
    + intros x. apply rg_ret. by intros w [? _].
Qed.
End others.

(** *** Every method *)

Lemma bind_reply_rg {A} (p : prog KvE A) (f : A → Reply) op P :
  lockrg p P (λ r w, inv w ∧ answered op (f r) (kw_log w)) →
  lockrg (prog_bind p (λ r, Ret (f r))) P (λ r w, inv w ∧ answered op r (kw_log w)).
Proof. intros Hp. eapply rg_bind; [exact Hp |]. intros r. by apply rg_ret. Qed.

Lemma kv_method_rg op :
  op_valid op → lockrg (kv_method op) inv (λ r w, inv w ∧ answered op r (kw_log w)).
Proof.
  intros Hv. destruct op as [t u c turn m text parent bearer| | | | | | | |];
    cbn [kv_method]; [| apply bind_reply_rg ..].
  - apply (rg_now lock_write ttl); [apply kept_inv |]. intros n. apply bind_reply_rg.
    eapply rg_pre; [| apply acquire_kv_lock_rg].
    intros w (Hw & log & now & _ & Hle & -> & _). by split.
  - apply load_kv_lock_rg.
  - apply (lock_loop_rg (OpClaim _ _ _ _)); [done | | intros; by apply claim_decision_rg].
    intros now. mem_eval.
  - apply (lock_loop_rg (OpTerminal _ _ _ _ _)); [done | | intros; by apply terminal_decision_rg].
    intros now. mem_eval.
  - apply (lock_loop_rg (OpPublished _ _ _)); [done | | intros; by apply published_decision_rg].
    intros now. mem_eval.
  - apply (lock_loop_rg (OpStop _ _ _)); [done | | intros; by apply stop_decision_rg].
    intros now. mem_eval.
  - apply stop_requested_in_kv_rg.
  - apply (lock_loop_rg (OpRenew _ _ _ _)); [done | | intros; by apply renew_decision_rg].
    intros now. mem_eval.
  - by eapply rg_weaken; [apply release_lock_rg | |].
Qed.

Lemma methods_rg ops w :
  inv w → Forall op_valid ops →
  Forall2 (rg_thread kv_step guarantee w) (kv_method <$> ops)
    ((λ op r w, inv w ∧ answered op r (kw_log w)) <$> ops).
Proof.
  intros Hw. induction 1 as [|op ops Hop _ IH]; csimpl; [done |]. constructor; [| done].
  exists inv. split_and!; [apply kv_inv_stable | done | by apply kv_method_rg].
Qed.

(** ** What the steps of the specification keep *)

(** The turn [worker] runs, as long as its lease lasts. *)
Definition runs (worker : string) (lock : ChatLock) : Prop :=
  lk_state lock = Running ∧ lk_worker_id lock = Some worker.

(** Who asked for what: the half of a lock no method changes. *)
Definition turn_of (lock : ChatLock)
  : string * string * string * string * string * string * option string * string :=
  (lk_tenant_id lock, lk_user_id lock, lk_conversation_id lock, lk_turn_id lock,
   lk_user_message_id lock, lk_text lock, lk_parent_message_id lock, lk_bearer_subject lock).

(** A step within the lease of a running turn ends the turn or leaves it to its
    worker, with a lease no shorter. *)
Lemma step_keeps_owner key log t lock o worker :
  lock_step key log t (Some lock) o → runs worker lock → t < lk_lease_expires_at lock →
  (∀ wr, last_write key log = Some wr → lk_lease_expires_at lock ≤ kv_time wr + ttl) →
  (∃ wr, last_write key log = Some wr) →
  match o with
  | None => True
  | Some lock' =>
      turn_of lock' = turn_of lock ∧ lk_lease_expires_at lock ≤ lk_lease_expires_at lock' ∧
      (lock_is_terminal lock' = true ∨ runs worker lock')
  end.
Proof.
  intros Hstep [Hst Hwk] Ht Hlease [wr Hlast]. inversion Hstep as [op now now' o' Hk Hv Hsince Hn|]; subst; [| done].
  specialize (Hsince _ Hlast). specialize (Hlease _ Hlast).
  assert (is_expired lock now = false) as He by (unfold is_expired; apply Z.leb_gt; lia).
  assert (is_expired lock now' = false) as He' by (unfold is_expired; apply Z.leb_gt; lia).
  assert (lk_lease_expires_at lock ≤ now' + ttl) as Hle by lia.
  assert (∀ k, (table k (Some lock)) !! k = Some lock) as Htab by (intros; apply table_lookup).
  destruct op as [t0 u0 c turn m text parent bearer | | t0 c turn w0 | t0 c turn w0 terminal | t0 c turn | t0 c u | | t0 c turn w0 | ];
    cbn [mem_method op_key]; unfold prod_map; cbn [fst id op_valid] in *;
    unfold mem_acquire_lock, mem_load_lock, mem_claim_lock, mem_mark_lock_terminal,
      mem_mark_terminal_event_published, mem_request_stop, mem_stop_requested, mem_renew_lock,
      mem_release_lock; cbn [fst requested lk_tenant_id lk_conversation_id];
    rewrite ?Htab, ?He, ?He'; cbn [negb fst]; rewrite ?Htab; try done.
  all: repeat match goal with |- context [if ?b then _ else _] => destruct b eqn:? end;
    cbn [fst]; rewrite ?Htab, ?lookup_insert_eq, ?lookup_delete_eq; try done.
  all: destruct_bools; destruct lock; cbn in *; unfold lock_expires_at, runs; cbn; simplify_eq.
  all: try (split_and!; [done | lia | by auto]).
  - split_and!; [done | lia | right].
    destruct Heqb1 as [Hb | Hb]; apply bool_decide_eq_false in Hb; [done |].
    apply dec_stable in Hb. by simplify_eq.
  - split_and!; [done | lia | left]. unfold lock_is_terminal. cbn.
    by destruct Hv as [-> | [-> | ->]].
Qed.

(** What every write of a good log leaves, leased from its own time. *)
Lemma log_leased log wr lock :
  all_writes lock_write log → wr ∈ log → write_state wr = Some lock →
  lk_lease_expires_at lock ≤ kv_time wr + ttl.
Proof.
  intros Hall Hin Hs. destruct (all_writes_elem _ _ _ Hall Hin) as (old & _ & _ & Hput).
  unfold write_state in *. destruct (kv_op wr); [| done..].
  destruct (Hput eq_refl) as (lock' & Hs' & ?). rewrite Hs in Hs'. by simplify_eq.
Qed.

(** The turn of a lock, ended: released, or marked terminal. *)
Definition ends_turn (key : string) (wr : KvWrite) : Prop :=
  kv_key wr = key ∧
  match write_state wr with Some lock => lock_is_terminal lock = true | None => True end.

#[local] Instance ends_turn_dec key wr : Decision (ends_turn key wr).
Proof. unfold ends_turn. destruct (write_state wr); apply _. Defined.

Lemma owner_stays now key worker wr lock mid old :
  wf_log now (mid ++ wr :: old) → all_writes lock_write (mid ++ wr :: old) →
  kv_key wr = key → write_state wr = Some lock → runs worker lock →
  now < lk_lease_expires_at lock → Forall (λ x, ¬ ends_turn key x) mid →
  ∃ lock', state_of key (mid ++ wr :: old) = Some lock' ∧ runs worker lock' ∧
    turn_of lock' = turn_of lock ∧ lk_lease_expires_at lock ≤ lk_lease_expires_at lock'.
Proof.
  intros Hwf Hall Hk Hs Hrun. revert now Hwf. induction mid as [|x mid IH]; intros now Hwf Hnow Hmid.
  { exists lock. unfold state_of. simpl. rewrite bool_decide_eq_true_2 by done. done. }
  destruct Hwf as (_ & Htx & Hwf), Hall as [Hx Hall]. apply Forall_cons in Hmid as [Hnx Hmid].
  destruct (IH Hall (kv_time x) Hwf ltac:(lia) Hmid) as (l & Hl & Hrl & Htl & Hle).
  destruct (decide (kv_key x = key)) as [Hkx | Hkx].
  2:{ exists l. unfold state_of in *. simpl. by rewrite bool_decide_eq_false_2. }
  destruct Hx as [Hstep _]. rewrite Hkx, Hl in Hstep.
  assert (∃ wl, last_write key (mid ++ wr :: old) = Some wl ∧ write_state wl = Some l)
    as (wl & Hwl & Hsl).
  { unfold state_of in Hl. destruct (last_write _ _) as [wl|]; [| done]. by exists wl. }
  eapply step_keeps_owner in Hstep; [| done | lia | | by exists wl].
  2:{ intros wl' Hwl'. rewrite Hwl in Hwl'. simplify_eq.
      eapply log_leased; [done | by eapply last_write_elem | done]. }
  destruct (write_state x) as [l'|] eqn:Hsx.
  - destruct Hstep as (Ht' & Hle' & [Hterm | Hrun']).
    + destruct Hnx. split; [done | by rewrite Hsx].
    + exists l'. unfold state_of. simpl. rewrite bool_decide_eq_true_2 by done. simpl.
      split_and!; [done | done | congruence | lia].
  - destruct Hnx. split; [done | by rewrite Hsx].
Qed.

(** A pool of methods started over a good bucket. *)
Definition started (ops : list LockOp) (w : KvWorld) : Prop :=
  inv w ∧ Forall op_valid ops.

Lemma started_run ops w0 w ts :
  started ops w0 →
  rtc (pool_step kv_step (kv_env ttl)) (w0, kv_method <$> ops) (w, ts) →
  inv w ∧ kw_log w0 `suffix_of` kw_log w ∧
  ∀ i op r, ops !! i = Some op → ts !! i = Some (Ret r) → answered op r (kw_log w).
Proof.
  intros [Hw0 Hops] Hsteps.
  pose proof (methods_rg _ _ Hw0 Hops) as Hts.
  destruct (pool_steps_rg _ _ guarantee _ _ _ (kv_env_guarantee _ _) Hsteps Hts) as [HG Hend].
  simpl in *. destruct (HG Hw0) as (Hw & Hsuf & _). split_and!; [done.. |].
  intros i op r Hop Hr.
  assert (((λ op r w, inv w ∧ answered op r (kw_log w)) <$> ops) !! i =
            Some (λ r w, inv w ∧ answered op r (kw_log w))) as Hq
    by (by rewrite list_lookup_fmap, Hop).
  pose proof (Forall2_lookup_lr _ _ _ i _ _ Hend Hr Hq) as Hthread.
  by apply rg_thread_ret in Hthread as [_ ?].
Qed.

(** ** Properties *)


(** C11: one worker at a time.  If a conversation's lock was written running for
    one worker and later running for another, then in between its turn was ended
    (marked terminal or released), or the first worker's lease had passed. *)
Theorem one_worker_per_lease ops w0 w ts new mid old wr1 wr2 lock1 lock2 worker1 worker2 :
  started ops w0 →
  rtc (pool_step kv_step (kv_env ttl)) (w0, kv_method <$> ops) (w, ts) →
  kw_log w = new ++ wr2 :: mid ++ wr1 :: old → kv_key wr2 = kv_key wr1 →
  write_state wr1 = Some lock1 → runs worker1 lock1 →
  write_state wr2 = Some lock2 → runs worker2 lock2 → worker1 ≠ worker2 →
  lk_lease_expires_at lock1 ≤ kv_time wr2 ∨ Exists (ends_turn (kv_key wr1)) mid.
Proof.
  intros Hst Hsteps Hlog Hk Hs1 Hr1 Hs2 Hr2 Hne.
  destruct (started_run _ _ _ _ Hst Hsteps) as ([Hwf Hall _ _] & _ & _).
  rewrite Hlog in Hwf, Hall.
  apply (wf_log_suffix _ (wr2 :: mid ++ wr1 :: old)) in Hwf; [| by exists new].
  apply (all_writes_suffix _ (wr2 :: mid ++ wr1 :: old)) in Hall; [| by exists new].
  destruct (decide (lk_lease_expires_at lock1 ≤ kv_time wr2)) as [|Hlt]; [by left | right].
  destruct (Exists_dec (ends_turn (kv_key wr1)) mid) as [|Hno]; [done |]. exfalso. apply Hne.
  apply not_Exists_Forall in Hno; [| apply _].
  destruct Hwf as (_ & _ & Hwf), Hall as [[Hstep _] Hall]. rewrite Hk, Hs2 in Hstep.
  destruct (owner_stays _ _ _ _ _ _ _ Hwf Hall eq_refl Hs1 Hr1 ltac:(lia) Hno)
    as (l & Hl & Hrl & Htl & Hle).
  assert (∃ wl, last_write (kv_key wr1) (mid ++ wr1 :: old) = Some wl ∧ write_state wl = Some l)
    as (wl & Hwl & Hsl).
  { unfold state_of in Hl. destruct (last_write _ _) as [wl|]; [| done]. by exists wl. }
  rewrite Hl in Hstep. eapply step_keeps_owner in Hstep; [| done | lia | | by exists wl].
  2:{ intros wl' Hwl'. rewrite Hwl in Hwl'. simplify_eq.
      eapply log_leased; [done | by eapply last_write_elem | done]. }
  destruct Hstep as (_ & _ & [Hterm | [_ Hrun]]), Hr2 as [Hst2 Hw2].
  - unfold lock_is_terminal in Hterm. by rewrite Hst2 in Hterm.
  - rewrite Hw2 in Hrun. by simplify_eq.
Qed.
End run.

(** ** Witnesses *)

Module LockDemo.
#[export] Instance state_countable : Countable ChatLockState.
Proof.
  refine (inj_countable'
    (λ s, match s with Requested => 0%nat | Running => 1%nat | Committed => 2%nat
          | LockInterrupted => 3%nat | LockFailed => 4%nat end)
    (λ n, match n with 0 => Requested | 1 => Running | 2 => Committed
          | 3 => LockInterrupted | _ => LockFailed end)%nat _).
  by intros [].
Defined.

#[export] Instance lock_countable : Countable ChatLock.
Proof.
  refine (inj_countable'
    (λ l, ((lk_tenant_id l, lk_user_id l, lk_conversation_id l, lk_turn_id l),
           (lk_user_message_id l, lk_text l, lk_parent_message_id l, lk_bearer_subject l),
           (lk_state l, lk_worker_id l, lk_stop_requested l, lk_stop_requested_by l),
           (lk_stop_requested_at l, lk_lease_expires_at l, lk_assistant_message_id l),
           (lk_terminal_content l, lk_terminal_error l, lk_terminal_event_published l)))
    (λ p, let '((t, u, c, i), (m, x, pa, b), (s, w, sr, sb), (sa, e, a), (tc, te, pub)) := p in
          mkLock t u c i m x pa b s w sr sb sa e a tc te pub) _).
  by intros [].
Defined.

#[export] Instance codec : LockCodec := {|
  lock_to_vec := Codec.to_vec;
  lock_from_slice := Codec.from_slice;
  lock_codec_roundtrip := Codec.roundtrip;
|}.

(** Leases of one minute. *)
Definition env (name : string) : option string :=
  if bool_decide (name = "CHAT_LOCK_TTL_SECONDS") then Some "60" else None.

Definition request (turn : string) : LockOp :=
  OpAcquire "acme" "ann" "c1" turn "m1" "hello" None "Bearer x".

(** A turn that its worker never finishes, and the next one after its lease. *)
Definition hour : DateTime := 3600000000000.
Definition ops : list LockOp :=
  [request "t1"; OpClaim "acme" "c1" "t1" "w1"; request "t2"; OpClaim "acme" "c1" "t2" "w2"].

Definition w0 : KvWorld := mkKv [] 0 0.
Definition answer (op : LockOp) (w : KvWorld) : KvWorld * Reply :=
  run kv_healthy (kv_method env op) w.

Definition w1 : KvWorld := (answer (request "t1") w0).1.
Definition w2 : KvWorld := (answer (OpClaim "acme" "c1" "t1" "w1") w1).1.
Definition w2' : KvWorld := mkKv (kw_log w2) 0 hour.
Definition w3 : KvWorld := (answer (request "t2") w2').1.
Definition w4 : KvWorld := (answer (OpClaim "acme" "c1" "t2" "w2") w3).1.

(** The pool after each method has run to its end. *)
Definition ts4 : list (prog KvE Reply) :=
  [Ret (answer (request "t1") w0).2; Ret (answer (OpClaim "acme" "c1" "t1" "w1") w1).2;
   Ret (answer (request "t2") w2').2; Ret (answer (OpClaim "acme" "c1" "t2" "w2") w3).2].

Lemma started_w0 : started env ops w0.
Proof.
  split; [constructor; simpl; [done | done | | lia] | repeat constructor].
  intros wr H. by apply not_elem_of_nil in H.
Qed.

Lemma wf_w2 : wf_log 0 (kw_log w2).
Proof. vm_compute. repeat split; by intros [=]. Qed.

Lemma now_w2 : kw_now w2 = 0.
Proof. vm_compute. reflexivity. Qed.

Lemma one_hour : kv_env (chat_lock_ttl env) w2 w2'.
Proof.
  apply (kv_ages _ w2 0 hour).
  - rewrite now_w2. done.
  - vm_compute. by split.
  - intros wr Hin Hseq. destruct (wf_log_bounds 0 _ _ wf_w2 Hin). lia.
Qed.

Abbreviation pool := (pool_step kv_step (kv_env (chat_lock_ttl env))).
Abbreviation done_by op w := (Ret (answer op w).2).

Lemma steps : rtc pool (w0, kv_method env <$> ops) (w4, ts4).
Proof.
  trans (w1, <[0%nat := done_by (request "t1") w0]> (kv_method env <$> ops)).
  { by apply kv_pool_run. }
  trans (w2, <[1%nat := done_by (OpClaim "acme" "c1" "t1" "w1") w1]>
               (<[0%nat := done_by (request "t1") w0]> (kv_method env <$> ops))).
  { by apply kv_pool_run. }
  eapply rtc_l; [apply pool_env, one_hour |].
  etrans.
  { by apply (kv_pool_run _ _ 2 (kv_method env (request "t2"))). }
  etrans.
  { by apply (kv_pool_run _ _ 3 (kv_method env (OpClaim "acme" "c1" "t2" "w2"))). }
  reflexivity.
Qed.

(** What the workers wrote. *)
Definition claim1 : ChatLock :=
  claimed env (requested env 0 "acme" "ann" "c1" "t1" "m1" "hello" None "Bearer x") "w1" 0.
Definition claim2 : ChatLock :=
  claimed env (requested env hour "acme" "ann" "c1" "t2" "m1" "hello" None "Bearer x") "w2" hour.

(** The five writes, newest first. *)
Definition written (i : nat) : KvWrite := nth i (kw_log w4) (mkWrite 0 0 "" OpDelete []).

Lemma log_w4 : kw_log w4 = [] ++ written 0 :: [written 1; written 2] ++ written 3 :: [written 4].
Proof. vm_compute. reflexivity. Qed.

Lemma wrote_claims :
  write_state (written 3) = Some claim1 ∧ write_state (written 0) = Some claim2.
Proof. split; vm_compute; reflexivity. Qed.

Lemma written_key : kv_key (written 0) = kv_key (written 3).
Proof. vm_compute. reflexivity. Qed.
End LockDemo.

#[local] Existing Instance LockDemo.codec.


Lemma one_worker_per_lease_witness :
  write_state (LockDemo.written 3) = Some LockDemo.claim1 ∧
  write_state (LockDemo.written 0) = Some LockDemo.claim2 ∧
  (lk_lease_expires_at LockDemo.claim1 ≤ kv_time (LockDemo.written 0) ∨
   Exists (ends_turn (kv_key (LockDemo.written 3))) [LockDemo.written 1; LockDemo.written 2]).
Proof.
  destruct LockDemo.wrote_claims as [H1 H2]. split; [exact H1 |]. split; [exact H2 |].
  apply (one_worker_per_lease LockDemo.env LockDemo.ops LockDemo.w0 LockDemo.w4 LockDemo.ts4
           [] [LockDemo.written 1; LockDemo.written 2] [LockDemo.written 4] (LockDemo.written 3) (LockDemo.written 0)
           LockDemo.claim1 LockDemo.claim2 "w1" "w2" LockDemo.started_w0 LockDemo.steps
           LockDemo.log_w4 LockDemo.written_key H1);
    [split; reflexivity | exact H2 | split; reflexivity | discriminate].
Defined.
