(* ===== verification/ChatReplay.v ===== *)
(** * Chat events and the replay index

    crates/nats/src/lib.rs: publishing an event, the index of the last two turns
    of a conversation ([apply_replay_event] and its two stores), and reading a
    stretch of the event stream back, over JetStream and in memory.

    The theorems say what the index holds after a log of events, and that the
    JetStream read is the in-memory one. *)

From S2P Require Import Prelude Text Events Contracts ChatBus Kv.

Local Open Scope Z_scope.

(** ** The index *)

(** [is_replay_index_event] *)
Definition is_replay_index_event (event : ChatEvent) : bool :=
  match event with
  | TurnStarted _ | Finish _ _ | Interrupted _ _ _ | Clear _ => true
  | _ => false
  end.

Definition turn_is (turn_id : string) (turn : option ReplayTurn) : bool :=
  match turn with Some turn => bool_decide (rt_turn_id turn = turn_id) | None => false end.

(** [turn.end_seq = Some(sequence)] *)
Definition end_turn (sequence : Z) (turn : option ReplayTurn) : option ReplayTurn :=
  (λ turn, mkTurn (rt_turn_id turn) (rt_start_seq turn) (Some sequence)) <$> turn.

(** [apply_replay_event] *)
Definition apply_replay_event (index : ReplayIndex) (envelope : ChatEventEnvelope) (sequence : Z)
    (event : ChatEvent) : ReplayIndex :=
  match event with
  | TurnStarted _ =>
      if turn_is (en_turn_id envelope) (ri_current_turn index) then index
      else mkIndex (ri_current_turn index) (Some (mkTurn (en_turn_id envelope) sequence None))
  | Finish _ _ | Interrupted _ _ _ | Clear _ =>
      if turn_is (en_turn_id envelope) (ri_current_turn index)
      then mkIndex (ri_previous_turn index) (end_turn sequence (ri_current_turn index))
      else if turn_is (en_turn_id envelope) (ri_previous_turn index)
      then mkIndex (end_turn sequence (ri_previous_turn index)) (ri_current_turn index)
      else index
  | _ => index
  end.

(** [ReplayIndex::default()] *)
Definition index_default : ReplayIndex := mkIndex None None.

(** ** Over JetStream *)

(** serde_json of what the bus stores. *)
Class ChatCodec := {
  index_to_vec : ReplayIndex → result bytes string;
  index_from_slice : bytes → result ReplayIndex string;
  index_codec_roundtrip i b : index_to_vec i = Ok b → index_from_slice b = Ok i;
  event_to_vec : SequencedChatEvent → result bytes string;
  event_from_slice : bytes → result SequencedChatEvent string;
  event_codec_roundtrip e b : event_to_vec e = Ok b → event_from_slice b = Ok e;
}.

(** The event stream, as the bus uses it. *)
Inductive StreamE : Type → Type :=
| OpenStream : StreamE (result unit string)
| SendPublish (subject : string) (payload : bytes) : StreamE (result unit string)
| AwaitAck : StreamE (result Z string)
| GetRawMessage (sequence : Z) : StreamE (result (string * bytes) string)
| StreamInfo : StreamE (result Z string)
| Replay {X} (e : KvE X) : StreamE X.

Definition replay_call {X} (e : KvE X) : prog StreamE X := call (Replay e).

Section stream.
Context {CC : ChatCodec}.

Definition REPLAY_ATTEMPTS : nat := 8.

(** [entry.filter(|entry| entry.operation == Operation::Put)] *)
Definition put_entry (entry : option Entry) : option Entry :=
  entry ← entry;
  if bool_decide (et_operation entry = Put) then Some entry else None.

(** The loop of [update_replay_for_event]. *)
Fixpoint update_replay_loop (attempts : nat) (key : string) (envelope : ChatEventEnvelope)
    (sequence : Z) (event : ChatEvent) : prog StreamE (result unit ChatBusError) :=
  match attempts with
  | O => Ret (Err (Payload "update chat replay index CAS retry limit exceeded"))
  | S attempts =>
      let* r := replay_call (KvEntry key) in
      match r with
      | Err error => Ret (Err (Payload ("read chat replay index: " +:+ error)))
      | Ok entry =>
          let entry := put_entry entry in
          match match entry with
                | Some entry => index_from_slice (et_value entry)
                | None => Ok index_default
                end with
          | Err error => Ret (Err (Payload ("decode chat replay index: " +:+ error)))
          | Ok index =>
              match index_to_vec (apply_replay_event index envelope sequence event) with
              | Err error => Ret (Err (Payload error))
              | Ok payload =>
                  match entry with
                  | Some entry =>
                      let* r := replay_call (KvUpdate key payload (et_revision entry)) in
                      match r with
                      | Ok _ => Ret (Ok tt)
                      | Err (WrongLastRevision, _) =>
                          update_replay_loop attempts key envelope sequence event
                      | Err (UpdateOther, error) =>
                          Ret (Err (Payload ("update chat replay index: " +:+ error)))
                      end
                  | None =>
                      let* r := replay_call (KvCreate key payload) in
                      match r with
                      | Ok _ => Ret (Ok tt)
                      | Err (AlreadyExists, _) =>
                          update_replay_loop attempts key envelope sequence event
                      | Err (CreateOther, error) =>
                          Ret (Err (Payload ("create chat replay index: " +:+ error)))
                      end
                  end
              end
          end
      end
  end.

(** [update_replay_for_event] *)
Definition update_replay_for_event (envelope : ChatEventEnvelope) (sequence : Z)
    (event : ChatEvent) : prog StreamE (result unit ChatBusError) :=
  if negb (is_replay_index_event event) then Ret (Ok tt) else
  let key := lock_key (en_tenant_id envelope) (en_conversation_id envelope) in
  update_replay_loop REPLAY_ATTEMPTS key envelope sequence event.

(** [NatsChatBus::publish_event] *)
Definition publish_event (event : ChatEventEnvelope) : prog StreamE (result string ChatBusError) :=
  let subject := subjects_events (en_tenant_id event) (en_conversation_id event) in
  match event_to_vec (mkSequenced "" event) with
  | Err error => Ret (Err (Payload error))
  | Ok payload =>
      let* r := call (SendPublish subject payload) in
      match r with
      | Err error => Ret (Err (Payload ("publish event: " +:+ error)))
      | Ok _ =>
          let* r := call AwaitAck in
          match r with
          | Err error => Ret (Err (Payload ("ack event publish: " +:+ error)))
          | Ok sequence =>
              let*? _ := update_replay_for_event event sequence (en_event event) in
              Ret (Ok (show_uint sequence))
          end
      end
  end.

(** [load_replay_index_from_kv] *)
Definition load_replay_index_from_kv (tenant_id conversation_id : string)
  : prog StreamE (result (option ReplayIndex) ChatBusError) :=
  let* r := replay_call (KvEntry (lock_key tenant_id conversation_id)) in
  Ret (match r with
       | Err error => Err (Payload ("read chat replay index: " +:+ error))
       | Ok None => Ok None
       | Ok (Some entry) =>
           if bool_decide (et_operation entry ≠ Put) then Ok None else
           match index_from_slice (et_value entry) with
           | Ok index => Ok (Some index)
           | Err error => Err (Payload ("decode chat replay index: " +:+ error))
           end
       end).

(** The body of the loop of [replay_events]: what one sequence contributes. *)
Definition replay_one (tenant_id conversation_id : string) (sequence : Z)
    (message : result (string * bytes) string) : result (list SequencedChatEvent) ChatBusError :=
  match message with
  | Err _ => Ok []
  | Ok (subject, payload) =>
      if bool_decide (subject ≠ subjects_events tenant_id conversation_id) then Ok [] else
      match event_from_slice payload with
      | Err error =>
          Err (Payload ("decode event " +:+ show_uint sequence +:+ ": " +:+ error))
      | Ok event =>
          if bool_decide (en_tenant_id (se_envelope event) ≠ tenant_id)
             || bool_decide (en_conversation_id (se_envelope event) ≠ conversation_id)
          then Ok [] else Ok [mkSequenced (show_uint sequence) (se_envelope event)]
      end
  end.

Fixpoint replay_loop (tenant_id conversation_id : string) (sequences : list Z)
    (events : list SequencedChatEvent)
  : prog StreamE (result (list SequencedChatEvent) ChatBusError) :=
  match sequences with
  | [] => Ret (Ok events)
  | sequence :: sequences =>
      let* message := call (GetRawMessage sequence) in
      match replay_one tenant_id conversation_id sequence message with
      | Err e => Ret (Err e)
      | Ok more => replay_loop tenant_id conversation_id sequences (events ++ more)
      end
  end.

(** [start_seq..=end_seq] *)
Definition sequences (start_seq end_seq : Z) : list Z :=
  (λ i : nat, start_seq + Z.of_nat i) <$> seq 0 (Z.to_nat (end_seq - start_seq + 1)).

(** [NatsChatBus::replay_events] *)
Definition replay_events (tenant_id conversation_id : string) (start_seq end_seq : Z)
  : prog StreamE (result (list SequencedChatEvent) ChatBusError) :=
  if (start_seq =? 0) || (end_seq <? start_seq) then Ret (Ok []) else
  let* r := call OpenStream in
  match r with
  | Err error => Ret (Err (Payload ("open event stream: " +:+ error)))
  | Ok _ => replay_loop tenant_id conversation_id (sequences start_seq end_seq) []
  end.

(** [NatsChatBus::latest_event_sequence] *)
Definition latest_event_sequence : prog StreamE (result Z ChatBusError) :=
  let* r := call OpenStream in
  match r with
  | Err error => Ret (Err (Payload ("open event stream: " +:+ error)))
  | Ok _ =>
      let* r := call StreamInfo in
      Ret (match r with
           | Ok last_sequence => Ok last_sequence
           | Err error => Err (Payload ("read event stream info: " +:+ error))
           end)
  end.
End stream.

(** ** In memory *)

(** The fields of [Inner] that events go through; [me_sent] is what was handed
    to the broadcast channel. *)
Record MemEvents : Type := mkMemEvents {
  me_replay : gmap string ReplayIndex;
  me_event_log : list SequencedChatEvent;
  me_next_event_sequence : Z;
  me_sent : list SequencedChatEvent;
}.

Definition mem_events_default : MemEvents := mkMemEvents ∅ [] 0 [].

(** [update_in_memory_replay] *)
Definition update_in_memory_replay (envelope : ChatEventEnvelope) (sequence : Z)
    (event : ChatEvent) (replay : gmap string ReplayIndex) : gmap string ReplayIndex :=
  if negb (is_replay_index_event event) then replay else
  let key := lock_key (en_tenant_id envelope) (en_conversation_id envelope) in
  <[key := apply_replay_event (default index_default (replay !! key)) envelope sequence event]>
    replay.

(** [InMemoryChatBus::publish_event], one publisher at a time: its four critical
    sections in order. *)
Definition mem_publish_event (event : ChatEventEnvelope) (s : MemEvents)
  : MemEvents * result string ChatBusError :=
  let sequence := u64_add (me_next_event_sequence s) 1 in
  let sequenced := mkSequenced (show_uint sequence) event in
  (mkMemEvents (update_in_memory_replay event sequence (en_event event) (me_replay s))
     (me_event_log s ++ [sequenced]) sequence (me_sent s ++ [sequenced]),
   Ok (show_uint sequence)).

Definition mem_load_replay_index (tenant_id conversation_id : string) (s : MemEvents)
  : option ReplayIndex :=
  me_replay s !! lock_key tenant_id conversation_id.

(** [InMemoryChatBus::replay_events] *)
Definition mem_in_range (tenant_id conversation_id : string) (start_seq end_seq : Z)
    (event : SequencedChatEvent) : bool :=
  match parse_u64 (se_event_id event) with
  | Some sequence => (start_seq <=? sequence) && (sequence <=? end_seq)
  | None => false
  end
  && bool_decide (en_tenant_id (se_envelope event) = tenant_id)
  && bool_decide (en_conversation_id (se_envelope event) = conversation_id).

Definition mem_replay_events (tenant_id conversation_id : string) (start_seq end_seq : Z)
    (s : MemEvents) : list SequencedChatEvent :=
  List.filter (mem_in_range tenant_id conversation_id start_seq end_seq) (me_event_log s).

Definition mem_latest_event_sequence (s : MemEvents) : Z := me_next_event_sequence s.
