(* ===== verification/Realtime.v ===== *)
(** * The realtime service (services/realtime-service/src/main.rs)

    One websocket: the messages of its client, the events of the conversations it
    follows, and the replay of what it missed.  The loop runs over [RtE]: the
    chat bus, the repository, the outbound queue and the next thing the [select!]
    picked.  The hub behind [SubscribeEvents] is in Hubs.v, the tasks that feed the
    socket in Feed.v. *)

From S2P Require Import Prelude Text Events Contracts Auth ChatBus.

Local Open Scope Z_scope.

Definition DEFAULT_WS_OUTBOUND_QUEUE_SIZE : Z := 256.
Definition DEFAULT_WS_EVENT_QUEUE_SIZE : Z := 1024.
Definition DEFAULT_CONVERSATION_EVENT_BUFFER_SIZE : Z := 1024.

(** What the two arms of the [select!] hand over. *)
Inductive SocketInput : Type :=
| InText (text : string)
| InClose
| InNone
| InPing (payload : bytes)
| InOther
| InError
| EventReceived (event : SequencedChatEvent)
| EventsLagged (conversation_id : string) (skipped : Z)
| EventsClosed.

Inductive RtE : Type → Type :=
| NextInput : RtE SocketInput
| SendServer (message : ServerWsMessage) : RtE bool
| SendPong (payload : bytes) : RtE bool
| GetConversation (tenant user conversation : string) : RtE (result ConversationDetail unit)
| SubscribeEvents (tenant conversation : string) : RtE (result unit ChatBusError)
| LoadReplayIndex (tenant conversation : string) : RtE (result (option ReplayIndex) ChatBusError)
| LatestEventSequence : RtE (result Z ChatBusError)
| ReplayEvents (tenant conversation : string) (start_seq end_seq : Z)
    : RtE (result (list SequencedChatEvent) ChatBusError).

(** ** The replay plan *)

Record ReplayPlan : Type := mkPlan {
  rp_events : list SequencedChatEvent;
  rp_last_seen_sequence : Z;
}.

Record ReplayRange : Type := mkRange {
  rr_start_seq : Z;
  rr_end_seq : Z;
  rr_last_seen_sequence : Z;
  rr_required_start_seq : option Z;
  rr_required_end_seq : option Z;
}.

Inductive ReplayDecisionError : Type :=
| DecideResync
| DecideInternal (message : string).

(** [parse_event_id] *)
Definition parse_event_id (value : string) : option Z := parse_u64 value.

(** [turn_contains_sequence] *)
Definition turn_contains_sequence (turn : ReplayTurn) (sequence latest_sequence : Z) : bool :=
  let end_seq := default latest_sequence (rt_end_seq turn) in
  (rt_start_seq turn <=? sequence) && (sequence <=? end_seq).

(** [conversation_has_turn] *)
Definition conversation_has_turn (conversation : ConversationDetail) (turn_id : string) : bool :=
  existsb (λ message, bool_decide (md_turn_id message = Some turn_id)) (cd_messages conversation).

(** [replay_range], after the cursor: from it to the end of the current turn. *)
Definition range_after (last_sequence end_seq : Z) (required_end : option Z)
  : result (option ReplayRange) ReplayDecisionError :=
  if end_seq <=? last_sequence then Ok None
  else Ok (Some (mkRange (last_sequence + 1) end_seq last_sequence None required_end)).

Definition replay_range (index : ReplayIndex) (last_event_id : option string)
    (conversation : ConversationDetail) (latest_sequence : Z)
  : result (option ReplayRange) ReplayDecisionError :=
  match last_event_id with
  | None =>
      match ri_current_turn index with
      | None => Ok None
      | Some current =>
          if bool_decide (is_Some (rt_end_seq current))
             || conversation_has_turn conversation (rt_turn_id current)
          then Ok None
          else
            let end_seq := default latest_sequence (rt_end_seq current) in
            Ok (Some (mkRange (rt_start_seq current) end_seq 0
                        (Some (rt_start_seq current)) (rt_end_seq current)))
      end
  | Some last_event_id =>
      let? last_sequence := ok_or (parse_event_id last_event_id) DecideResync in
      match ri_current_turn index with
      | Some current =>
          if turn_contains_sequence current last_sequence latest_sequence
          then range_after last_sequence (default latest_sequence (rt_end_seq current))
                 (rt_end_seq current)
          else
            match ri_previous_turn index with
            | Some previous =>
                if turn_contains_sequence previous last_sequence latest_sequence
                then range_after last_sequence (default latest_sequence (rt_end_seq current))
                       (rt_end_seq current)
                else Err DecideResync
            | None => Err DecideResync
            end
      | None =>
          match ri_previous_turn index with
          | Some previous =>
              if turn_contains_sequence previous last_sequence latest_sequence
              then range_after last_sequence (default latest_sequence (rt_end_seq previous))
                     (rt_end_seq previous)
              else Err DecideResync
          | None => Err DecideResync
          end
      end
  end.

(** The id of an event, parsed. *)
Definition event_sequence (event : SequencedChatEvent) : option Z :=
  parse_event_id (se_event_id event).

(** [replay_is_incomplete] *)
Definition replay_is_incomplete (events : list SequencedChatEvent) (range : ReplayRange) : bool :=
  if bool_decide (is_Some (rr_required_start_seq range)) && bool_decide (events = []) then true
  else if match rr_required_start_seq range with
          | Some required_start_seq =>
              bool_decide ((head events ≫= event_sequence) ≠ Some required_start_seq)
          | None => false
          end then true
  else match rr_required_end_seq range with
       | Some required_end_seq =>
           bool_decide ((last events ≫= event_sequence) ≠ Some required_end_seq)
       | None => false
       end.

(** [build_replay_plan] *)
Definition build_replay_plan (auth : AuthContext) (conversation_id : string)
    (last_event_id : option string) (conversation : ConversationDetail)
  : prog RtE (result ReplayPlan ReplayDecisionError) :=
  let* r := call (LoadReplayIndex (ax_tenant_id auth) conversation_id) in
  match r with
  | Err error => Ret (Err (DecideInternal (chat_bus_error_to_string error)))
  | Ok index =>
      let* r := call LatestEventSequence in
      match r with
      | Err error => Ret (Err (DecideInternal (chat_bus_error_to_string error)))
      | Ok latest_sequence =>
          match index with
          | None =>
              Ret (if bool_decide (is_Some last_event_id) then Err DecideResync
                   else Ok (mkPlan [] 0))
          | Some index =>
              match replay_range index last_event_id conversation latest_sequence with
              | Err e => Ret (Err e)
              | Ok None => Ret (Ok (mkPlan [] (default 0 (last_event_id ≫= parse_event_id))))
              | Ok (Some range) =>
                  let* r := call (ReplayEvents (ax_tenant_id auth) conversation_id
                                    (rr_start_seq range) (rr_end_seq range)) in
                  Ret (match r with
                       | Err error => Err (DecideInternal (chat_bus_error_to_string error))
                       | Ok events =>
                           if replay_is_incomplete events range then Err DecideResync
                           else Ok (mkPlan events (rr_last_seen_sequence range))
                       end)
              end
          end
      end
  end.

(** ** One socket *)

(** [subscriptions] and [last_sent_sequences]; the forwarding task of a
    subscription is behind [NextInput]. *)
Record Session : Type := mkSession {
  ss_subscriptions : gset string;
  ss_last_sent : gmap string Z;
}.

Definition session_new : Session := mkSession ∅ ∅.

Definition set_last_sent (conversation : string) (sequence : Z) (s : Session) : Session :=
  mkSession (ss_subscriptions s) (<[conversation := sequence]> (ss_last_sent s)).
Definition drop_last_sent (conversation : string) (s : Session) : Session :=
  mkSession (ss_subscriptions s) (delete conversation (ss_last_sent s)).
Definition add_subscription (conversation : string) (s : Session) : Session :=
  mkSession ({[conversation]} ∪ ss_subscriptions s) (ss_last_sent s).
Definition remove_subscription (conversation : string) (s : Session) : Session :=
  mkSession (ss_subscriptions s ∖ {[conversation]}) (ss_last_sent s).

(** [msg_conversation_id] *)
Definition msg_conversation_id (msg : ServerWsMessage) : string :=
  match msg with WsEvent conversation_id _ _ => conversation_id | _ => "" end.

(** [parse_event_id(&event.event_id).unwrap_or(0)] *)
Definition sequence_of (event : SequencedChatEvent) : Z := default 0 (event_sequence event).

Section socket.
(** serde_json of a client message. *)
Context (from_str : string → option ClientWsMessage).

(** [send_server_message(…).is_ok()], as the answer of the handler. *)
Definition reply_with (s : Session) (msg : ServerWsMessage) : prog RtE (Session * bool) :=
  let* sent := call (SendServer msg) in Ret (s, sent).

(** The loop over [replay_plan.events]: the last sequence sent, or nothing when
    the queue refused a message. *)
Fixpoint send_replay (auth : AuthContext) (conversation_id : string)
    (events : list SequencedChatEvent) (last_sent : Z) : prog RtE (option Z) :=
  match events with
  | [] => Ret (Some last_sent)
  | event :: events =>
      if bool_decide (en_user_id (se_envelope event) ≠ ax_user_id auth)
      then send_replay auth conversation_id events last_sent
      else
        let sequence := sequence_of event in
        if sequence <=? last_sent then send_replay auth conversation_id events last_sent
        else
          let* sent := call (SendServer (WsEvent conversation_id (se_event_id event)
                                           (en_event (se_envelope event)))) in
          if sent : bool then send_replay auth conversation_id events sequence else Ret None
  end.

(** The [SubscribeConversation] arm, from the replay plan on. *)
Definition serve_replay (auth : AuthContext) (conversation_id : string)
    (last_event_id : option string) (conversation : ConversationDetail) (s : Session)
  : prog RtE (Session * bool) :=
  let* plan := build_replay_plan auth conversation_id last_event_id conversation in
  match plan with
  | Err DecideResync => reply_with s (ResyncRequired conversation_id)
  | Err (DecideInternal _) =>
      reply_with s (WsError "replay_failed" "failed to prepare websocket replay")
  | Ok plan =>
      let* sent := call (SendServer (Subscribed conversation_id)) in
      if negb sent then Ret (s, false) else
      let* last_sent := send_replay auth conversation_id (rp_events plan)
                          (rp_last_seen_sequence plan) in
      Ret (match last_sent with
           | Some last_sent => (set_last_sent conversation_id last_sent s, true)
           | None => (s, false)
           end)
  end.

(** [handle_client_message] *)
Definition handle_client_message (auth : AuthContext) (text : string) (s : Session)
  : prog RtE (Session * bool) :=
  match from_str text with
  | Some (SubscribeConversation conversation_id last_event_id) =>
      let* r := call (GetConversation (ax_tenant_id auth) (ax_user_id auth) conversation_id) in
      match r with
      | Err _ => reply_with s (WsError "not_found" "conversation not found")
      | Ok conversation =>
          if bool_decide (conversation_id ∈ ss_subscriptions s)
          then serve_replay auth conversation_id last_event_id conversation s
          else
            let* r := call (SubscribeEvents (ax_tenant_id auth) conversation_id) in
            match r with
            | Err _ =>
                reply_with s
                  (WsError "subscribe_failed" "failed to subscribe to conversation events")
            | Ok _ =>
                serve_replay auth conversation_id last_event_id conversation
                  (add_subscription conversation_id s)
            end
      end
  | Some (UnsubscribeConversation conversation_id) =>
      Ret (drop_last_sent conversation_id (remove_subscription conversation_id s), true)
  | Some (Ping nonce) => reply_with s (Pong nonce)
  | None => reply_with s (WsError "invalid_message" "invalid websocket message")
  end.

(** The second arm of the [select!]: an event from a forwarding task. *)
Definition handle_event (auth : AuthContext) (event : SequencedChatEvent) (s : Session)
  : prog RtE (Session * bool) :=
  let envelope := se_envelope event in
  if bool_decide (en_tenant_id envelope ≠ ax_tenant_id auth) then Ret (s, true)
  else if bool_decide (en_conversation_id envelope ∉ ss_subscriptions s) then Ret (s, true)
  else if bool_decide (en_user_id envelope ≠ ax_user_id auth) then Ret (s, true)
  else
    let sequence := sequence_of event in
    let last_sent := default 0 (ss_last_sent s !! en_conversation_id envelope) in
    if sequence <=? last_sent then Ret (s, true)
    else
      let msg := WsEvent (en_conversation_id envelope) (se_event_id event) (en_event envelope) in
      let* sent := call (SendServer msg) in
      Ret (if negb sent then (s, false) else (set_last_sent (msg_conversation_id msg) sequence s, true)).

(** One turn of the loop; [false] leaves it. *)
Definition socket_round (auth : AuthContext) (s : Session) : prog RtE (Session * bool) :=
  let* input := call NextInput in
  match input with
  | InText text => handle_client_message auth text s
  | InClose | InNone | InError | EventsClosed => Ret (s, false)
  | InPing payload => let* sent := call (SendPong payload) in Ret (s, sent)
  | InOther => Ret (s, true)
  | EventReceived event => handle_event auth event s
  | EventsLagged conversation_id _ =>
      let* sent := call (SendServer (ResyncRequired conversation_id)) in
      Ret (if negb sent then (s, false) else (drop_last_sent conversation_id s, true))
  end.

(** [run_socket], for a number of rounds. *)
Fixpoint socket_loop (rounds : nat) (auth : AuthContext) (s : Session) : prog RtE Session :=
  match rounds with
  | O => Ret s
  | S rounds =>
      let* (s, continue) := socket_round auth s in
      if continue : bool then socket_loop rounds auth s else Ret s
  end.

Definition run_socket (rounds : nat) (auth : AuthContext) : prog RtE Session :=
  socket_loop rounds auth session_new.
End socket.

(** ** Queue sizes *)

Definition queue_size (env : string → option string) (name : string) (fallback : Z) : Z :=
  default fallback
    (value ← env name;
     size ← parse_u64 value;
     if 0 <? size then Some size else None).

Definition ws_outbound_queue_size (env : string → option string) : Z :=
  queue_size env "REALTIME_WS_OUTBOUND_QUEUE_SIZE" DEFAULT_WS_OUTBOUND_QUEUE_SIZE.
Definition ws_event_queue_size (env : string → option string) : Z :=
  queue_size env "REALTIME_WS_EVENT_QUEUE_SIZE" DEFAULT_WS_EVENT_QUEUE_SIZE.
Definition conversation_event_buffer_size (env : string → option string) : Z :=
  queue_size env "REALTIME_CONVERSATION_EVENT_BUFFER_SIZE" DEFAULT_CONVERSATION_EVENT_BUFFER_SIZE.
