(* ===== verification/ChatReplayRun.v ===== *)
(** * What the replay index and the event stream hold

    Two readings of crates/nats/src/lib.rs (ChatReplay.v).  The index of a
    conversation is described in terms of the events published so far: its two
    turns are the last two that started, each with the sequence of its start and
    of its last terminal event.  And the JetStream bus, driven one call at a time
    against a bucket and a stream that do not fail, answers what the in-memory
    bus answers, less the events the stream no longer retains. *)

From S2P Require Import Prelude Text Events Contracts ChatBus Kv ChatReplay.

Local Open Scope Z_scope.

(** ** Events by sequence *)

(** The event a stream numbered [n]. *)
Definition event_at (es : list ChatEventEnvelope) (n : Z) (e : ChatEventEnvelope) : Prop :=
  1 ≤ n ∧ es !! Z.to_nat (n - 1) = Some e.

Lemma event_at_length es n e : event_at es n e → 1 ≤ n ≤ Z.of_nat (length es).
Proof. intros [Hn H%lookup_lt_Some]. lia. Qed.

Lemma event_at_snoc es e n x :
  event_at (es ++ [e]) n x ↔ event_at es n x ∨ n = Z.of_nat (length es) + 1 ∧ x = e.
Proof.
  unfold event_at. split.
  - intros [Hn H]. apply lookup_app_Some in H as [H | [Hlen H]]; [by left |].
    right. apply list_lookup_singleton_Some in H as [H <-]. split; [lia | done].
  - intros [[Hn H] | [-> ->]]; (split; [lia |]).
    + by apply lookup_app_l_Some.
    + apply list_lookup_middle. lia.
Qed.

Lemma event_at_fun es n e e' : event_at es n e → event_at es n e' → e = e'.
Proof. intros [_ H] [_ H']. congruence. Qed.

Definition event_key (e : ChatEventEnvelope) : string :=
  lock_key (en_tenant_id e) (en_conversation_id e).

(** [e] starts, or ends, [turn] in the conversation of [key]. *)
Definition starts (key turn : string) (e : ChatEventEnvelope) : Prop :=
  event_key e = key ∧ en_turn_id e = turn ∧ ∃ t, en_event e = TurnStarted t.

Definition terminal_event (event : ChatEvent) : bool :=
  match event with Finish _ _ | Interrupted _ _ _ | Clear _ => true | _ => false end.

Definition ends (key turn : string) (e : ChatEventEnvelope) : Prop :=
  event_key e = key ∧ en_turn_id e = turn ∧ terminal_event (en_event e) = true.

(** ** What an index says of a log *)

Definition turn_ok (es : list ChatEventEnvelope) (key : string) (turn : ReplayTurn) : Prop :=
  (∃ e, event_at es (rt_start_seq turn) e ∧ starts key (rt_turn_id turn) e) ∧
  match rt_end_seq turn with
  | Some n =>
      rt_start_seq turn < n ∧ (∃ e, event_at es n e ∧ ends key (rt_turn_id turn) e) ∧
      ∀ m e, n < m → event_at es m e → ¬ ends key (rt_turn_id turn) e
  | None => ∀ m e, rt_start_seq turn < m → event_at es m e → ¬ ends key (rt_turn_id turn) e
  end.

(** Between two sequences no other turn starts. *)
Definition only_starts (es : list ChatEventEnvelope) (key : string) (from to : Z) (turn : string)
  : Prop :=
  ∀ n e t, from < n < to → event_at es n e → starts key t e → t = turn.

Definition index_ok (es : list ChatEventEnvelope) (key : string) (index : ReplayIndex) : Prop :=
  let next := Z.of_nat (length es) + 1 in
  match ri_current_turn index with
  | None => ri_previous_turn index = None ∧ ∀ n e t, event_at es n e → ¬ starts key t e
  | Some current =>
      turn_ok es key current ∧
      only_starts es key (rt_start_seq current) next (rt_turn_id current) ∧
      match ri_previous_turn index with
      | None => ∀ n e t, n < rt_start_seq current → event_at es n e → ¬ starts key t e
      | Some previous =>
          turn_ok es key previous ∧
          rt_start_seq previous < rt_start_seq current ∧
          rt_turn_id previous ≠ rt_turn_id current ∧
          only_starts es key (rt_start_seq previous) (rt_start_seq current) (rt_turn_id previous)
      end
  end.

(** An event that neither starts nor ends a turn leaves what is known of it. *)
Lemma turn_ok_other es key turn e :
  turn_ok es key turn → ¬ ends key (rt_turn_id turn) e → turn_ok (es ++ [e]) key turn.
Proof.
  intros [(s & Hs & Hst) Hend] He. split; [exists s; by rewrite event_at_snoc; eauto |].
  destruct (rt_end_seq turn) as [n|].
  - destruct Hend as (Hlt & (x & Hx & Hxe) & Hlast). split_and!; [done | exists x; by rewrite event_at_snoc; eauto |].
    intros m y Hm [Hy | [-> ->]]%event_at_snoc; [by eapply Hlast | done].
  - intros m y Hm [Hy | [-> ->]]%event_at_snoc; [by eapply Hend | done].
Qed.

(** A terminal event of the turn becomes its end. *)
Lemma turn_ok_end es key turn e :
  turn_ok es key turn → ends key (rt_turn_id turn) e →
  turn_ok (es ++ [e]) key
    (mkTurn (rt_turn_id turn) (rt_start_seq turn) (Some (Z.of_nat (length es) + 1))).
Proof.
  intros [(s & Hs & Hst) _] He. pose proof (event_at_length _ _ _ Hs).
  split; simpl; [exists s; by rewrite event_at_snoc; eauto |]. split_and!; [lia | |].
  - exists e. rewrite event_at_snoc. eauto.
  - intros m y Hm Hy%event_at_length. rewrite length_app in Hy. simpl in Hy. lia.
Qed.

Lemma turn_ok_start es key e :
  starts key (en_turn_id e) e →
  turn_ok (es ++ [e]) key (mkTurn (en_turn_id e) (Z.of_nat (length es) + 1) None).
Proof.
  intros He. split; simpl; [exists e; by rewrite event_at_snoc; eauto |].
  intros m y Hm Hy%event_at_length. rewrite length_app in Hy. simpl in Hy. lia.
Qed.

Lemma only_starts_snoc es key from to turn e :
  only_starts es key from to turn →
  (Z.of_nat (length es) + 1 < to → ∀ t, starts key t e → t = turn) →
  only_starts (es ++ [e]) key from to turn.
Proof.
  intros H He n x t Hn [Hx | [-> ->]]%event_at_snoc Hs; [by eapply H | apply He; [lia | done]].
Qed.

Lemma only_starts_weaken es key from to to' turn :
  to' ≤ to ∨ Z.of_nat (length es) < to → only_starts es key from to turn →
  only_starts es key from to' turn.
Proof.
  intros Hto H n e t Hn He. apply (H n e t); [| done]. pose proof (event_at_length _ _ _ He). lia.
Qed.

Lemma turn_is_Some turn_id turn :
  turn_is turn_id turn = true ↔ ∃ tn, turn = Some tn ∧ rt_turn_id tn = turn_id.
Proof.
  destruct turn as [tn|]; simpl; [rewrite bool_decide_eq_true; naive_solver | naive_solver].
Qed.

(** What a terminal event does to a turn. *)
Definition close (e : ChatEventEnvelope) (sequence : Z) (turn : ReplayTurn) : ReplayTurn :=
  if bool_decide (rt_turn_id turn = en_turn_id e)
  then mkTurn (rt_turn_id turn) (rt_start_seq turn) (Some sequence) else turn.

Lemma close_start e n turn : rt_start_seq (close e n turn) = rt_start_seq turn.
Proof. unfold close. by case_match. Qed.
Lemma close_id e n turn : rt_turn_id (close e n turn) = rt_turn_id turn.
Proof. unfold close. by case_match. Qed.

Lemma turn_ok_close es key turn e :
  event_key e = key → terminal_event (en_event e) = true →
  turn_ok es key turn →
  turn_ok (es ++ [e]) key (close e (Z.of_nat (length es) + 1) turn).
Proof.
  intros Hk He Ht. unfold close. case_bool_decide as Hid.
  - by apply turn_ok_end.
  - apply turn_ok_other; [done |]. by intros (_ & ? & _).
Qed.

Lemma apply_terminal es key index e n :
  index_ok es key index → terminal_event (en_event e) = true →
  apply_replay_event index e n (en_event e) =
    mkIndex (close e n <$> ri_previous_turn index) (close e n <$> ri_current_turn index).
Proof.
  intros Hok He. destruct index as [prev cur]. unfold index_ok in Hok. simpl in *.
  assert (apply_replay_event (mkIndex prev cur) e n (en_event e) =
    if turn_is (en_turn_id e) cur then mkIndex prev (end_turn n cur)
    else if turn_is (en_turn_id e) prev then mkIndex (end_turn n prev) cur
    else mkIndex prev cur) as -> by (by destruct (en_event e)).
  destruct cur as [cur|]; simpl; [| by destruct Hok as [-> _]].
  destruct Hok as (_ & _ & Hprev). unfold close.
  repeat case_bool_decide; destruct prev as [prev|]; simpl; repeat case_bool_decide;
    try done; destruct Hprev as (_ & _ & ? & _); congruence.
Qed.

(** Nothing about the order of starts changes when [e] starts no turn. *)
Lemma index_ok_starts es key e prev cur prev' cur' :
  (∀ t, ¬ starts key t e) →
  index_ok es key (mkIndex prev cur) →
  option_Forall2 (λ t t', rt_turn_id t = rt_turn_id t' ∧ rt_start_seq t = rt_start_seq t' ∧
                          (turn_ok es key t → turn_ok (es ++ [e]) key t')) prev prev' →
  option_Forall2 (λ t t', rt_turn_id t = rt_turn_id t' ∧ rt_start_seq t = rt_start_seq t' ∧
                          (turn_ok es key t → turn_ok (es ++ [e]) key t')) cur cur' →
  index_ok (es ++ [e]) key (mkIndex prev' cur').
Proof.
  intros He Hok Hp Hc. unfold index_ok in *. simpl in *.
  destruct Hc as [c c' (Hcid & Hcs & Hct) |].
  - destruct Hok as (Hcur & Honly & Hprev). rewrite <- Hcid, <- Hcs.
    split_and!; [by apply Hct | |].
    + apply only_starts_snoc; [| by intros _ t ?%He].
      eapply only_starts_weaken; [right | exact Honly]. lia.
    + destruct Hp as [p p' (Hpid & Hps & Hpt) |].
      * destruct Hprev as (Hpok & Hlt & Hne & Honly'). rewrite <- Hpid, <- Hps.
        split_and!; [by apply Hpt | done | done |].
        apply only_starts_snoc; [done | by intros _ t ?%He].
      * intros n x t Hn [Hx | [-> ->]]%event_at_snoc; [by eapply Hprev | done].
  - destruct Hok as [-> Hnone]. inversion Hp; subst. split; [done |].
    intros n x t [Hx | [-> ->]]%event_at_snoc; [by eapply Hnone | done].
Qed.

Lemma index_ok_frame es key index e :
  (∀ t, ¬ starts key t e) → (∀ t, ¬ ends key t e) →
  index_ok es key index → index_ok (es ++ [e]) key index.
Proof.
  intros Hs He Hok. destruct index as [prev cur].
  apply (index_ok_starts es key e prev cur prev cur Hs Hok).
  all: match goal with |- option_Forall2 _ ?o ?o => destruct o; constructor end.
  all: split_and!; [done | done | intros ?; by apply turn_ok_other].
Qed.

Lemma index_ok_terminal es key index e :
  event_key e = key → terminal_event (en_event e) = true → index_ok es key index →
  index_ok (es ++ [e]) key
    (apply_replay_event index e (Z.of_nat (length es) + 1) (en_event e)).
Proof.
  intros Hk He Hok. rewrite (apply_terminal es key) by done. destruct index as [prev cur].
  apply (index_ok_starts es key e prev cur); [| done | |].
  { intros t (_ & _ & x & Hx). by rewrite Hx in He. }
  all: simpl; match goal with |- option_Forall2 _ ?o _ => destruct o; constructor end.
  all: rewrite close_start, close_id; split_and!; [done | done | intros ?; by apply turn_ok_close].
Qed.

Lemma index_ok_started es key index e t :
  event_key e = key → en_event e = TurnStarted t → index_ok es key index →
  index_ok (es ++ [e]) key
    (apply_replay_event index e (Z.of_nat (length es) + 1) (en_event e)).
Proof.
  intros Hk He Hok. rewrite He.
  assert (starts key (en_turn_id e) e) as Hst by (split_and!; [done.. | by exists t]).
  assert (∀ t, ¬ ends key t e) as Hne.
  { intros t' (_ & _ & H). by rewrite He in H. }
  destruct index as [prev cur]. simpl. destruct (turn_is (en_turn_id e) cur) eqn:Hcur.
  - apply turn_is_Some in Hcur as (c & -> & Hid). unfold index_ok in *. simpl in *.
    destruct Hok as (Hc & Honly & Hprev). rewrite length_app. split_and!.
    + by apply turn_ok_other.
    + apply only_starts_snoc; [| by intros _ t' (_ & <- & _)].
      eapply only_starts_weaken; [right | exact Honly]. lia.
    + destruct Hc as [(s & Hs & _) _]. apply event_at_length in Hs as Hlen.
      destruct prev as [p|].
      * destruct Hprev as (Hp & Hlt & Hpc & Honly').
        split_and!; [by apply turn_ok_other | done | done |].
        apply only_starts_snoc; [done | lia].
      * intros n x t' Hn [Hx | [-> ->]]%event_at_snoc; [by eapply Hprev | lia].
  - assert (∀ c, cur = Some c → rt_turn_id c ≠ en_turn_id e) as Hother.
    { intros c -> Hc. simpl in Hcur. by rewrite bool_decide_eq_false in Hcur. }
    unfold index_ok in *. simpl in *. rewrite length_app. split_and!.
    + by apply turn_ok_start.
    + intros n x t' Hn Hx%event_at_length. rewrite length_app in Hx. simpl in *. lia.
    + destruct cur as [c|].
      * destruct Hok as (Hc & Honly & _). split_and!; [by apply turn_ok_other | | by apply Hother |].
        -- destruct Hc as [(s & Hs & _) _]. apply event_at_length in Hs. lia.
        -- apply only_starts_snoc; [done | lia].
      * destruct Hok as [-> Hnone].
        intros n x t' Hn [Hx | [-> ->]]%event_at_snoc; [by eapply Hnone | lia].
Qed.

Lemma index_ok_step es key index e :
  event_key e = key → index_ok es key index →
  index_ok (es ++ [e]) key
    (apply_replay_event index e (Z.of_nat (length es) + 1) (en_event e)).
Proof.
  intros Hk Hok.
  destruct (terminal_event (en_event e)) eqn:Hte; [by apply index_ok_terminal |].
  destruct (en_event e) as [t| | | | | | | |] eqn:He; try discriminate Hte.
  { rewrite <- He. by eapply index_ok_started. }
  all: simpl; apply index_ok_frame; [by intros ? (_ & _ & ? & ?); congruence | | done].
  all: intros t' (_ & _ & Ht); by rewrite He in Ht.
Qed.

(** ** The in-memory bus *)

(** Publishing [es], one after the other, on a new bus. *)
Definition publish_all (es : list ChatEventEnvelope) : MemEvents :=
  foldl (λ s e, (mem_publish_event e s).1) mem_events_default es.

(** The log after [es]. *)
Definition numbered (es : list ChatEventEnvelope) : list SequencedChatEvent :=
  imap (λ i e, mkSequenced (show_uint (Z.of_nat i + 1)) e) es.

Lemma numbered_snoc es e :
  numbered (es ++ [e]) = numbered es ++ [mkSequenced (show_uint (Z.of_nat (length es) + 1)) e].
Proof.
  unfold numbered. rewrite imap_app. simpl. repeat f_equal. lia.
Qed.

Definition index_after (es : list ChatEventEnvelope) (key : string) : option ReplayIndex :=
  me_replay (publish_all es) !! key.

Lemma publish_all_snoc es e : publish_all (es ++ [e]) = (mem_publish_event e (publish_all es)).1.
Proof. unfold publish_all. by rewrite foldl_app. Qed.

Lemma publish_all_spec es :
  Z.of_nat (length es) ≤ u64_max →
  me_next_event_sequence (publish_all es) = Z.of_nat (length es) ∧
  me_event_log (publish_all es) = numbered es ∧
  me_sent (publish_all es) = numbered es.
Proof.
  induction es as [|e es IH] using rev_ind; intros Hlen; [done |].
  rewrite length_app in Hlen. simpl in Hlen. destruct IH as (Hn & Hl & Hs); [lia |].
  rewrite publish_all_snoc. unfold mem_publish_event.
  cbn [fst me_next_event_sequence me_event_log me_sent].
  assert (u64_add (me_next_event_sequence (publish_all es)) 1 = Z.of_nat (length es) + 1) as ->.
  { rewrite Hn. unfold u64_add. apply Z.mod_small. lia. }
  rewrite numbered_snoc, Hl, Hs, length_app. simpl. split_and!; [lia | done..].
Qed.

Lemma index_after_snoc es e key :
  Z.of_nat (length es) + 1 ≤ u64_max →
  index_after (es ++ [e]) key =
    if is_replay_index_event (en_event e) && bool_decide (event_key e = key)
    then Some (apply_replay_event (default index_default (index_after es key)) e
                 (Z.of_nat (length es) + 1) (en_event e))
    else index_after es key.
Proof.
  intros Hlen. destruct (publish_all_spec es) as (Hn & _); [lia |].
  unfold index_after. rewrite publish_all_snoc. unfold mem_publish_event. cbn [fst me_replay].
  assert (u64_add (me_next_event_sequence (publish_all es)) 1 = Z.of_nat (length es) + 1) as ->.
  { rewrite Hn. unfold u64_add. apply Z.mod_small. lia. }
  unfold update_in_memory_replay. change (lock_key _ _) with (event_key e).
  destruct (is_replay_index_event (en_event e)); simpl; [| done].
  case_bool_decide as Hk; [by rewrite Hk, lookup_insert_eq | by rewrite lookup_insert_ne].
Qed.

(** C14: After any sequence of published events, the replay index of a
    conversation holds the last two turns that started there: each turn's start
    is the sequence of one of its TurnStarted events, its end is the sequence of
    its last terminal event (Finish, Interrupted or Clear) since then, and no
    other turn started between the previous start and the current one, nor after
    the current one. *)
Theorem replay_index_tracks_turns (es : list ChatEventEnvelope) (key : string) :
  Z.of_nat (length es) ≤ u64_max →
  index_ok es key (default index_default (index_after es key)).
Proof.
  induction es as [|e es IH] using rev_ind; intros Hlen.
  { split; [done |]. intros n e t [_ H]. by rewrite lookup_nil in H. }
  rewrite length_app in Hlen. simpl in Hlen. specialize (IH ltac:(lia)).
  rewrite index_after_snoc by lia.
  destruct (is_replay_index_event (en_event e)) eqn:Hi; simpl; [case_bool_decide as Hk; simpl |].
  - by apply index_ok_step.
  - apply index_ok_frame; [| | done]; by intros t (? & _).
  - apply index_ok_frame; [| | done]; intros t (_ & _ & H);
      [destruct H as [x H]; by rewrite H in Hi | by destruct (en_event e)].
Qed.

(** ** The JetStream bus is the in-memory bus *)

Inductive EventOp : Type :=
| OpPublish (event : ChatEventEnvelope)
| OpLoadIndex (tenant_id conversation_id : string)
| OpReplay (tenant_id conversation_id : string) (start_seq end_seq : Z)
| OpLatest.

Inductive EventReply : Type :=
| PublishReply (r : result string ChatBusError)
| IndexReply (r : result (option ReplayIndex) ChatBusError)
| ReplayReply (r : result (list SequencedChatEvent) ChatBusError)
| LatestReply (r : result Z ChatBusError).

(** [impl ChatBus for InMemoryChatBus], the event methods. *)
Definition mem_event_method (op : EventOp) (s : MemEvents) : MemEvents * EventReply :=
  match op with
  | OpPublish event => let '(s', r) := mem_publish_event event s in (s', PublishReply r)
  | OpLoadIndex t c => (s, IndexReply (Ok (mem_load_replay_index t c s)))
  | OpReplay t c a b => (s, ReplayReply (Ok (mem_replay_events t c a b s)))
  | OpLatest => (s, LatestReply (Ok (mem_latest_event_sequence s)))
  end.

(** What a reply keeps when the stream has dropped the events before [cut]. *)
Definition retained (cut : Z) (reply : EventReply) : EventReply :=
  match reply with
  | ReplayReply (Ok events) =>
      ReplayReply (Ok (List.filter (λ e, match parse_u64 (se_event_id e) with
                                        | Some n => cut <=? n
                                        | None => false
                                        end) events))
  | reply => reply
  end.

Definition run_mem (ops : list EventOp) (s : MemEvents) : MemEvents * list EventReply :=
  foldl (λ '(s, rs) op, let '(s', r) := mem_event_method op s in (s', rs ++ [r])) (s, []) ops.

Section jetstream.
Context {CC : ChatCodec} (cut : Z).

(** [impl ChatBus for NatsChatBus], the same methods. *)
Definition nats_event_method (op : EventOp) : prog StreamE EventReply :=
  match op with
  | OpPublish event => let* r := publish_event event in Ret (PublishReply r)
  | OpLoadIndex t c => let* r := load_replay_index_from_kv t c in Ret (IndexReply r)
  | OpReplay t c a b => let* r := replay_events t c a b in Ret (ReplayReply r)
  | OpLatest => let* r := latest_event_sequence in Ret (LatestReply r)
  end.

(** A stream and a bucket that do not fail; the stream has dropped what comes
    before [cut]. *)
Record JsWorld : Type := mkJs {
  js_stream : list (string * bytes);
  js_kv : KvWorld;
}.

Definition js_healthy : handler StreamE JsWorld := λ A e w,
  match e in StreamE A return JsWorld * A with
  | OpenStream => (w, Ok tt)
  | SendPublish subject payload =>
      (mkJs (js_stream w ++ [(subject, payload)]) (js_kv w), Ok tt)
  | AwaitAck => (w, Ok (Z.of_nat (length (js_stream w))))
  | GetRawMessage n =>
      (w, if (1 <=? n) && (cut <=? n)
          then ok_or (js_stream w !! Z.to_nat (n - 1)) "no message found"
          else Err "no message found")
  | StreamInfo => (w, Ok (Z.of_nat (length (js_stream w))))
  | Replay e => let '(kv, x) := kv_healthy _ e (js_kv w) in (mkJs (js_stream w) kv, x)
  end.

Definition run_nats (ops : list EventOp) (w : JsWorld) : JsWorld * list EventReply :=
  foldl (λ '(w, rs) op, let '(w', r) := run js_healthy (nats_event_method op) w in
                        (w', rs ++ [r])) (w, []) ops.

Definition js_new : JsWorld := mkJs [] (mkKv [] 0 0).

(** The message of an event on the stream. *)
Definition message_of (e : ChatEventEnvelope) (m : string * bytes) : Prop :=
  m.1 = subjects_events (en_tenant_id e) (en_conversation_id e) ∧
  event_to_vec (mkSequenced "" e) = Ok m.2.

(** The bucket holds the index of every conversation that has one. *)
Definition stored_index (kv : KvWorld) (key : string) (index : option ReplayIndex) : Prop :=
  match index with
  | Some index =>
      ∃ wr, current key kv = Some wr ∧ kv_op wr = Put ∧ index_from_slice (kv_value wr) = Ok index
  | None => current key kv = None
  end.

Record js_sim (es : list ChatEventEnvelope) (w : JsWorld) : Prop := {
  jm_stream : Forall2 message_of es (js_stream w);
  jm_kv key : stored_index (js_kv w) key (index_after es key);
  jm_floor : kw_floor (js_kv w) = 0;
}.

Lemma js_sim_length es w : js_sim es w → length (js_stream w) = length es.
Proof. intros H. symmetry. eapply Forall2_length, jm_stream, H. Qed.

(** *** Writing the index *)

Lemma current_landed key key' payload kv :
  kw_floor kv = 0 →
  current key' (landed key Put payload kv) =
    if decide (key = key')
    then Some (mkWrite (next_seq kv) (kw_now kv) key Put payload) else current key' kv.
Proof.
  intros Hf. unfold current. cbn [kw_log landed last_write kv_key kw_floor].
  case_bool_decide as Hk; destruct (decide (key = key')) as [Hk' | Hk']; try done.
  simpl. rewrite Hf. rewrite (proj2 (Z.ltb_lt _ _)); [done |]. unfold next_seq. lia.
Qed.

Lemma stored_landed key key' payload kv index i :
  kw_floor kv = 0 → index_from_slice payload = Ok index →
  stored_index kv key' i →
  stored_index (landed key Put payload kv) key' (if decide (key = key') then Some index else i).
Proof.
  intros Hf Hp Hi. unfold stored_index in *. rewrite current_landed by done.
  destruct (decide (key = key')); [by eexists | done].
Qed.

(** The loop writes in its first round when nothing interferes. *)
Lemma update_replay_alone key n e payload w i :
  stored_index (js_kv w) key i →
  index_to_vec (apply_replay_event (default index_default i) e n (en_event e)) = Ok payload →
  run js_healthy (update_replay_loop REPLAY_ATTEMPTS key e n (en_event e)) w =
    (mkJs (js_stream w) (landed key Put payload (js_kv w)), Ok tt).
Proof.
  intros Hi Hp. unfold REPLAY_ATTEMPTS. cbn [update_replay_loop].
  unfold replay_call. cbn [prog_bind call run js_healthy kv_healthy].
  destruct i as [i|]; cbn [stored_index] in Hi.
  - destruct Hi as (wr & Hc & Hop & Hv). rewrite Hc.
    assert (put_entry (entry_of <$> Some wr) = Some (entry_of wr)) as ->.
    { cbn. by rewrite bool_decide_eq_true_2. }
    cbn [entry_of et_value et_revision]. rewrite Hv.
    change (default index_default (Some i)) with i in Hp. rewrite Hp. cbn [prog_bind call run js_healthy kv_healthy js_kv js_stream].
    rewrite bool_decide_eq_true_2; [done |]. unfold last_revision. by rewrite Hc.
  - rewrite Hi. change (default index_default None) with index_default in Hp.
    cbn [put_entry fmap option_fmap option_map option_bind mbind]. rewrite Hp. cbn [prog_bind call run js_healthy kv_healthy js_kv js_stream].
    unfold exists_entry. by rewrite Hi.
Qed.


Context (event_encodes : ∀ x, ∃ b, event_to_vec x = Ok b).
Context (index_encodes : ∀ x, ∃ b, index_to_vec x = Ok b).

Lemma publish_sim es w e :
  js_sim es w → Z.of_nat (length es) + 1 ≤ u64_max →
  ∃ w', run js_healthy (publish_event e) w = (w', Ok (show_uint (Z.of_nat (length es) + 1))) ∧
        js_sim (es ++ [e]) w'.
Proof.
  intros Hw Hlen. pose proof Hw as [Hst Hkv Hf]. pose proof (js_sim_length _ _ Hw) as Hl.
  destruct (event_encodes (mkSequenced "" e)) as [b Hb].
  set (n := Z.of_nat (length es) + 1). set (subject := subjects_events (en_tenant_id e) (en_conversation_id e)).
  set (w1 := mkJs (js_stream w ++ [(subject, b)]) (js_kv w)).
  assert (Forall2 message_of (es ++ [e]) (js_stream w1)) as Hst1.
  { apply Forall2_app; [done |]. by repeat constructor. }
  assert (run js_healthy (publish_event e) w =
          let '(w', r) := run js_healthy (update_replay_for_event e n (en_event e)) w1 in
          run js_healthy (match r with Ok _ => Ret (Ok (show_uint n)) | Err e => Ret (Err e) end) w')
    as ->.
  { unfold publish_event. rewrite Hb. cbn [prog_bind call run js_healthy js_stream]. fold w1.
    rewrite length_app, Hl. cbn [length].
    replace (Z.of_nat (length es + 1)) with n by lia. by rewrite run_bind. }
  unfold update_replay_for_event. change (lock_key _ _) with (event_key e).
  destruct (is_replay_index_event (en_event e)) eqn:Hi; cbn [negb].
  - destruct (index_encodes (apply_replay_event (default index_default (index_after es (event_key e)))
                e n (en_event e))) as [payload Hp].
    rewrite (update_replay_alone (event_key e) n e payload w1 (index_after es (event_key e)));
      [| apply Hkv | exact Hp].
    eexists. split; [done |]. constructor; [done | | done].
    intros key. cbn [js_kv w1]. rewrite index_after_snoc, Hi by done. cbn [andb].
    pose proof (stored_landed (event_key e) key payload (js_kv w) _ _ Hf
                  (index_codec_roundtrip _ _ Hp) (Hkv key)) as Hk.
    case_bool_decide as Hek; destruct (decide (event_key e = key)); try done.
    by subst key.
  - eexists. split; [done |]. constructor; [done | | done].
    intros key. rewrite index_after_snoc, Hi by done. apply Hkv.
Qed.

(** *** Reading a stretch of the stream *)

(** What the event numbered [n] contributes to a replay of the conversation. *)
Definition pick (es : list ChatEventEnvelope) (t c : string) (n : Z) : list SequencedChatEvent :=
  match es !! Z.to_nat (n - 1) with
  | Some e =>
      if bool_decide (en_tenant_id e = t) && bool_decide (en_conversation_id e = c)
      then [mkSequenced (show_uint n) e] else []
  | None => []
  end.

Lemma replay_one_sim es w t c n :
  js_sim es w → 1 ≤ n →
  replay_one t c n (js_healthy _ (GetRawMessage n) w).2 = Ok (if cut <=? n then pick es t c n else []).
Proof.
  intros Hw Hn. pose proof (jm_stream _ _ Hw) as Hst. cbn [js_healthy snd]. unfold pick.
  rewrite (proj2 (Z.leb_le 1 n)) by done. cbn [andb]. destruct (cut <=? n); [| done].
  destruct (es !! Z.to_nat (n - 1)) as [e|] eqn:He.
  - destruct (Forall2_lookup_l _ _ _ _ _ Hst He) as ([s b] & Hm & [Hs Hb]). cbn [fst snd] in *.
    rewrite Hm, Hs. cbn [ok_or replay_one]. rewrite (event_codec_roundtrip _ _ Hb).
    cbn [se_envelope].
    destruct (decide (en_tenant_id e = t)) as [-> | Ht]; [destruct (decide (en_conversation_id e = c)) as [-> | Hc] |].
    + by rewrite !(bool_decide_eq_true_2 (_ = _)), !bool_decide_eq_false_2 by naive_solver.
    + rewrite (bool_decide_eq_false_2 (en_conversation_id e = c)) by done.
      rewrite (bool_decide_eq_true_2 (en_conversation_id e ≠ c)) by done.
      rewrite andb_false_r, orb_true_r. by case_bool_decide.
    + rewrite (bool_decide_eq_false_2 (en_tenant_id e = t)) by done.
      rewrite (bool_decide_eq_true_2 (en_tenant_id e ≠ t)) by done.
      by case_bool_decide.
  - assert (js_stream w !! Z.to_nat (n - 1) = None) as ->; [| done].
    apply lookup_ge_None. rewrite (js_sim_length _ _ Hw). by apply lookup_ge_None.
Qed.

Lemma replay_loop_sim es w t c ns acc :
  js_sim es w → Forall (λ n, 1 ≤ n) ns →
  run js_healthy (replay_loop t c ns acc) w =
    (w, Ok (acc ++ flat_map (λ n, if cut <=? n then pick es t c n else []) ns)).
Proof.
  intros Hw Hns. revert acc. induction Hns as [|n ns Hn _ IH]; intros acc; simpl.
  - by rewrite app_nil_r.
  - pose proof (replay_one_sim es w t c n Hw Hn) as H. simpl in H. rewrite H.
    rewrite IH. by rewrite <- (assoc_L (++)).
Qed.
End jetstream.

(** *** Ranges of sequences *)

Lemma sequences_snoc a b : a ≤ b + 1 → sequences a (b + 1) = sequences a b ++ [b + 1].
Proof.
  intros Hab. unfold sequences.
  replace (Z.to_nat (b + 1 - a + 1)) with (S (Z.to_nat (b - a + 1))) by lia.
  rewrite seq_S, fmap_app. simpl. do 2 f_equal. lia.
Qed.

Lemma sequences_nil a b : b < a → sequences a b = [].
Proof. intros H. unfold sequences. by replace (Z.to_nat (b - a + 1)) with 0%nat by lia. Qed.

Lemma sequences_one n : sequences n n = [n].
Proof. unfold sequences. replace (Z.to_nat (n - n + 1)) with 1%nat by lia. simpl. by rewrite Z.add_0_r. Qed.

Lemma elem_of_sequences a b n : n ∈ sequences a b ↔ a ≤ n ≤ b.
Proof.
  unfold sequences. rewrite list_elem_of_fmap. split.
  - intros (i & -> & H%elem_of_seq). lia.
  - intros H. exists (Z.to_nat (n - a)). rewrite elem_of_seq. lia.
Qed.

Lemma sequences_app a m b :
  a ≤ m + 1 → m ≤ b → sequences a b = sequences a m ++ sequences (m + 1) b.
Proof.
  intros Ham. revert b. apply (Z.right_induction (λ b, sequences a b = sequences a m ++ sequences (m + 1) b)).
  - by intros ? ? ->.
  - by rewrite (sequences_nil (m + 1) m), app_nil_r by lia.
  - intros b Hb IH. change (Z.succ b) with (b + 1).
    rewrite (sequences_snoc a), (sequences_snoc (m + 1)), IH by lia. by rewrite (assoc_L (++)).
Qed.

Lemma flat_map_nil {A B} (f : A → list B) l : (∀ x, x ∈ l → f x = []) → flat_map f l = [].
Proof.
  induction l as [|x l IH]; intros H; simpl; [done |].
  rewrite (H x), IH; [done | | by left]. intros y Hy. apply H. by right.
Qed.

Lemma flat_map_ext_elem {A B} (f g : A → list B) l :
  (∀ x, x ∈ l → f x = g x) → flat_map f l = flat_map g l.
Proof.
  induction l as [|x l IH]; intros H; simpl; [done |].
  rewrite (H x), IH; [done | | by left]. intros y Hy. apply H. by right.
Qed.

Lemma pick_above es t c n : Z.of_nat (length es) < n → pick es t c n = [].
Proof. intros Hn. unfold pick. by rewrite lookup_ge_None_2 by lia. Qed.

Lemma pick_app es es' t c n : n ≤ Z.of_nat (length es) → 1 ≤ n → pick (es ++ es') t c n = pick es t c n.
Proof. intros Hn Hn1. unfold pick. by rewrite lookup_app_l by lia. Qed.

(** The in-memory replay, sequence by sequence. *)
Lemma mem_replay_picks es t c a b :
  Z.of_nat (length es) ≤ u64_max → 1 ≤ a →
  List.filter (mem_in_range t c a b) (numbered es) = flat_map (pick es t c) (sequences a b).
Proof.
  induction es as [|e es IH] using rev_ind; intros Hlen Ha.
  { symmetry. apply flat_map_nil. intros n _. unfold pick. by rewrite lookup_nil. }
  rewrite length_app in Hlen. simpl in Hlen. set (n := Z.of_nat (length es) + 1).
  rewrite numbered_snoc, List.filter_app, IH by lia. fold n.
  assert (pick (es ++ [e]) t c n =
    if bool_decide (en_tenant_id e = t) && bool_decide (en_conversation_id e = c)
    then [mkSequenced (show_uint n) e] else []) as Hn.
  { unfold pick. assert ((es ++ [e]) !! Z.to_nat (n - 1) = Some e) as ->; [| done].
    apply list_lookup_middle. unfold n. lia. }
  assert (List.filter (mem_in_range t c a b) [mkSequenced (show_uint n) e] =
          if (a <=? n) && (n <=? b) then pick (es ++ [e]) t c n else []) as ->.
  { rewrite Hn. cbn [List.filter]. unfold mem_in_range. cbn [se_event_id se_envelope].
    rewrite parse_u64_show by (unfold in_u64; lia). destruct ((a <=? n) && (n <=? b)); cbn [andb]; [by case_match | done]. }
  assert (∀ l, (∀ x, x ∈ l → 1 ≤ x < n) →
    flat_map (pick (es ++ [e]) t c) l = flat_map (pick es t c) l) as Hlow.
  { intros l Hl. apply flat_map_ext_elem. intros x Hx%Hl. apply pick_app; lia. }
  assert (∀ es' l, (∀ x, x ∈ l → Z.of_nat (length es') < x) →
    flat_map (pick es' t c) l = []) as Hhigh.
  { intros es' l Hl. apply flat_map_nil. intros x Hx%Hl. by apply pick_above. }
  destruct (Z_lt_le_dec b n) as [Hb | Hb].
  { rewrite (proj2 (Z.leb_gt n b)), andb_false_r, app_nil_r by done. symmetry. apply Hlow.
    intros x Hx%elem_of_sequences. lia. }
  destruct (Z_lt_le_dec n a) as [Hna | Hna].
  { rewrite (proj2 (Z.leb_gt a n)) by done. cbn [andb]. rewrite app_nil_r.
    rewrite !Hhigh; [done | |]; intros x Hx%elem_of_sequences; rewrite ?length_app; simpl; lia. }
  rewrite (proj2 (Z.leb_le a n)), (proj2 (Z.leb_le n b)) by done. cbn [andb].
  rewrite (sequences_app a (n - 1) b) by lia. replace (n - 1 + 1) with n by lia.
  rewrite (sequences_app n n b), sequences_one, !flat_map_app by lia. cbn [flat_map].
  rewrite Hlow by (intros x Hx%elem_of_sequences; lia).
  assert (∀ es', (length es' ≤ length es + 1)%nat →
    flat_map (pick es' t c) (sequences (n + 1) b) = []) as Htail.
  { intros es' Hl. apply Hhigh. intros x Hx%elem_of_sequences. lia. }
  rewrite !Htail by (rewrite ?length_app; simpl; lia).
  rewrite (pick_above es) by lia. by rewrite !app_nil_r.
Qed.

(** ** One call, and any number of them *)

(** The in-memory bus takes a first sequence of 0 for the first event; over
    JetStream 0 stands for "nothing", so the two are compared from 1 on. *)
Definition replays_from_one (op : EventOp) : Prop :=
  match op with OpReplay _ _ a _ => 1 ≤ a | _ => True end.

Definition op_events (op : EventOp) : list ChatEventEnvelope :=
  match op with OpPublish event => [event] | _ => [] end.

Section refinement.
Context {CC : ChatCodec} (cut : Z).
Context (event_encodes : ∀ x, ∃ b, event_to_vec x = Ok b).
Context (index_encodes : ∀ x, ∃ b, index_to_vec x = Ok b).

Lemma retained_picks es t c l :
  Z.of_nat (length es) ≤ u64_max → Forall (λ n, 1 ≤ n) l →
  flat_map (λ n, if cut <=? n then pick es t c n else []) l =
  List.filter (λ e, match parse_u64 (se_event_id e) with Some n => cut <=? n | None => false end)
    (flat_map (pick es t c) l).
Proof.
  intros Hlen. induction 1 as [|n l Hn _ IH]; [done |]. cbn [flat_map].
  rewrite List.filter_app, <- IH. f_equal. unfold pick.
  destruct (es !! Z.to_nat (n - 1)) as [e|] eqn:He; [| by case_match].
  apply lookup_lt_Some in He. destruct (_ && _); [| by case_match]. cbn [List.filter se_event_id].
  rewrite parse_u64_show by (unfold in_u64; lia). by case_match.
Qed.

Lemma replay_sim es w t c a b :
  js_sim es w → Z.of_nat (length es) ≤ u64_max → 1 ≤ a →
  retained cut (ReplayReply (Ok (List.filter (mem_in_range t c a b) (numbered es)))) =
  ReplayReply (run (js_healthy cut) (replay_events t c a b) w).2 ∧
  (run (js_healthy cut) (replay_events t c a b) w).1 = w.
Proof.
  intros Hw Hlen Ha. unfold replay_events.
  rewrite (proj2 (Z.eqb_neq a 0)) by lia. cbn [orb]. rewrite mem_replay_picks by done.
  destruct (b <? a) eqn:Hb.
  { apply Z.ltb_lt in Hb. by rewrite sequences_nil. }
  assert (Forall (λ n, 1 ≤ n) (sequences a b)) as Hpos.
  { apply Forall_forall. intros n Hn%elem_of_sequences. lia. }
  cbn [prog_bind call run js_healthy]. rewrite (replay_loop_sim cut es) by done.
  cbn [fst snd app retained]. by rewrite retained_picks.
Qed.

Lemma event_method_sim es w s op :
  js_sim es w → s = publish_all es → replays_from_one op →
  Z.of_nat (length es) + 1 ≤ u64_max →
  js_sim (es ++ op_events op) (run (js_healthy cut) (nats_event_method op) w).1 ∧
  (mem_event_method op s).1 = publish_all (es ++ op_events op) ∧
  (run (js_healthy cut) (nats_event_method op) w).2 = retained cut (mem_event_method op s).2.
Proof.
  intros Hw -> Hop Hlen. destruct (publish_all_spec es) as (Hn & Hl & _); [lia |].
  destruct op as [e | t c | t c a b |]; cbn [op_events nats_event_method mem_event_method];
    rewrite ?app_nil_r, run_bind.
  - destruct (publish_sim cut event_encodes index_encodes es w e Hw Hlen) as (w' & Hr & Hw').
    rewrite Hr. rewrite publish_all_snoc. cbn [run fst snd retained]. split_and!; [done | done |].
    unfold mem_publish_event. rewrite Hn. unfold u64_add. by rewrite Z.mod_small by lia.
  - unfold load_replay_index_from_kv, replay_call. cbn [prog_bind call run js_healthy kv_healthy].
    destruct w as [st kv]. pose proof (jm_kv _ _ Hw (lock_key t c)) as Hk. cbn [js_kv] in *.
    split_and!; [done | done |]. cbn [fst snd retained]. f_equal. unfold mem_load_replay_index.
    change (me_replay (publish_all es) !! lock_key t c) with (index_after es (lock_key t c)).
    destruct (index_after es (lock_key t c)) as [i|]; cbn [stored_index] in Hk.
    + destruct Hk as (wr & -> & Hput & Hv). cbn. rewrite bool_decide_eq_false_2 by naive_solver.
      by rewrite Hv.
    + by rewrite Hk.
  - unfold mem_replay_events. rewrite Hl. destruct (replay_sim es w t c a b Hw) as [Hr1 Hr2]; [lia | done |].
    cbn [snd fst]. rewrite Hr1. destruct (run _ (replay_events _ _ _ _) w). cbn [run fst snd] in *.
    by subst.
  - cbn [latest_event_sequence prog_bind call run js_healthy fst snd retained].
    unfold mem_latest_event_sequence. by rewrite Hn, (js_sim_length _ _ Hw).
Qed.

(** C15: Driven one call at a time over a stream and a bucket that do not fail,
    the JetStream bus answers what the in-memory bus answers to the same calls:
    the same event ids, the same replay indexes, the same latest sequence and the
    same stretches of events, less those before the sequence from which the
    stream still retains its messages. *)
Theorem jetstream_bus_is_memory_bus (ops : list EventOp) :
  Forall replays_from_one ops → Z.of_nat (length ops) ≤ u64_max →
  (run_nats cut ops js_new).2 = retained cut <$> (run_mem ops mem_events_default).2.
Proof.
  intros Hops Hlen. unfold run_nats, run_mem.
  enough (∀ es w s rs,
    js_sim es w → s = publish_all es → (Z.of_nat (length es + length ops) ≤ u64_max) →
    (foldl (λ '(w, rs) op, let '(w', r) := run (js_healthy cut) (nats_event_method op) w in
                           (w', rs ++ [r])) (w, retained cut <$> rs) ops).2 =
    retained cut <$> (foldl (λ '(s, rs) op, let '(s', r) := mem_event_method op s in
                                            (s', rs ++ [r])) (s, rs) ops).2) as H.
  { apply (H [] js_new mem_events_default []); [| done | done].
    constructor; [constructor | | done]. intros key. done. }
  clear Hlen. induction Hops as [|op ops Hop _ IH]; intros es w s rs Hw Hs Hlen; [done |].
  cbn [foldl length] in *.
  destruct (event_method_sim es w s op Hw Hs Hop) as (Hw' & Hs' & Hr); [lia |].
  destruct (run _ (nats_event_method op) w) as [w' r]. destruct (mem_event_method op s) as [s' r'].
  cbn [fst snd] in *. subst r.
  replace ((retained cut <$> rs) ++ [retained cut r']) with (retained cut <$> rs ++ [r'])
    by by rewrite fmap_app.
  apply (IH (es ++ op_events op)); [done | done |].
  rewrite length_app. destruct op; simpl; lia.
Qed.
End refinement.

(** ** A codec, and concrete runs *)

Module ReplayDemo.
#[export] Instance citation_countable : Countable CitationEntry.
Proof.
  refine (inj_countable' (λ c, (ci_index c, ci_label c, ci_url c))
            (λ p, let '(i, l, u) := p in mkCitation i l u) _).
  by intros [].
Defined.

#[export] Instance finish_countable : Countable FinishReason.
Proof.
  refine (inj_countable' (λ r, match r with FinishStop => true | FinishError => false end)
            (λ b : bool, if b then FinishStop else FinishError) _).
  by intros [].
Defined.

#[export] Instance clear_countable : Countable ClearReason.
Proof.
  refine (inj_countable'
            (λ r, match r with ClearCancelled => None | ClearWorkerLost => Some true
                             | ClearFailedBeforeCommit => Some false end)
            (λ o, match o with None => ClearCancelled | Some true => ClearWorkerLost
                             | Some false => ClearFailedBeforeCommit end) _).
  by intros [].
Defined.

#[export] Instance event_countable : Countable ChatEvent.
Proof.
  refine (inj_countable'
    (λ e, match e with
          | TurnStarted t => inl (inl (inl t))
          | UserMessage i t c => inl (inl (inr (i, t, c)))
          | Citations cs => inl (inr (inl cs))
          | TextDelta d => inl (inr (inr d))
          | Finish i r => inr (inl (inl (i, r)))
          | Interrupted i c UserInterrupted => inr (inl (inr (i, c)))
          | Clear r => inr (inr (inl r))
          | ChatError m => inr (inr (inr (inl m)))
          | TitleUpdated t => inr (inr (inr (inr t)))
          end)
    (λ x, match x with
          | inl (inl (inl t)) => TurnStarted t
          | inl (inl (inr (i, t, c))) => UserMessage i t c
          | inl (inr (inl cs)) => Citations cs
          | inl (inr (inr d)) => TextDelta d
          | inr (inl (inl (i, r))) => Finish i r
          | inr (inl (inr (i, c))) => Interrupted i c UserInterrupted
          | inr (inr (inl r)) => Clear r
          | inr (inr (inr (inl m))) => ChatError m
          | inr (inr (inr (inr t))) => TitleUpdated t
          end) _).
  by intros [| | | | | ? ? [] | | |].
Defined.

#[export] Instance sequenced_countable : Countable SequencedChatEvent.
Proof.
  refine (inj_countable'
    (λ s, let 'mkSequenced i (mkEnvelope v t u c tn ts e) := s in (i, v, t, u, c, tn, ts, e))
    (λ p, let '(i, v, t, u, c, tn, ts, e) := p in mkSequenced i (mkEnvelope v t u c tn ts e)) _).
  by intros [? []].
Defined.

#[export] Instance turn_countable : Countable ReplayTurn.
Proof.
  refine (inj_countable' (λ t, (rt_turn_id t, rt_start_seq t, rt_end_seq t))
            (λ p, let '(t, s, e) := p in mkTurn t s e) _).
  by intros [].
Defined.

#[export] Instance index_countable : Countable ReplayIndex.
Proof.
  refine (inj_countable' (λ i, (ri_previous_turn i, ri_current_turn i))
            (λ p, let '(a, b) := p in mkIndex a b) _).
  by intros [].
Defined.

#[export] Instance codec : ChatCodec := {|
  index_to_vec := Codec.to_vec;
  index_from_slice := Codec.from_slice;
  index_codec_roundtrip := Codec.roundtrip;
  event_to_vec := Codec.to_vec;
  event_from_slice := Codec.from_slice;
  event_codec_roundtrip := Codec.roundtrip;
|}.

Definition said (conversation turn : string) (event : ChatEvent) : ChatEventEnvelope :=
  mkEnvelope 1 "acme" "ann" conversation turn 0 event.

(** A turn of one conversation, with one event of another in the middle. *)
Definition events : list ChatEventEnvelope :=
  [said "c1" "t1" (TurnStarted "t1"); said "c1" "t1" (TextDelta "Hel");
   said "c2" "t9" (TurnStarted "t9"); said "c1" "t1" (TextDelta "lo");
   said "c1" "t1" (Finish "a1" FinishStop); said "c1" "t2" (TurnStarted "t2");
   said "c1" "t1" (TitleUpdated "Hello")].

Definition ops : list EventOp :=
  (OpPublish <$> events) ++ [OpLoadIndex "acme" "c1"; OpReplay "acme" "c1" 1 4; OpLatest].
End ReplayDemo.

#[local] Existing Instance ReplayDemo.codec.

Example replay_demo_index :
  index_after ReplayDemo.events "acme/c1" =
    Some (mkIndex (Some (mkTurn "t1" 1 (Some 5))) (Some (mkTurn "t2" 6 None))).
Proof. vm_compute. reflexivity. Qed.

Lemma jetstream_bus_is_memory_bus_witness :
  (run_nats 2 ReplayDemo.ops js_new).2 =
    retained 2 <$> (run_mem ReplayDemo.ops mem_events_default).2.
Proof.
  apply (jetstream_bus_is_memory_bus 2).
  - intros x. by eexists.
  - intros x. by eexists.
  - repeat constructor; done.
  - vm_compute. discriminate.
Defined.

Lemma replay_index_tracks_turns_witness :
  index_ok ReplayDemo.events "acme/c1" (default index_default (index_after ReplayDemo.events "acme/c1")).
Proof. apply replay_index_tracks_turns. vm_compute. discriminate. Defined.
