(* ===== verification/RealtimeRun.v ===== *)
(** * What a websocket is sent

    services/realtime-service/src/main.rs (Realtime.v).  [socket_delivers] reads a
    socket from outside: from the calls it has made one computes which
    conversations it follows and how far its client has got, and every event it
    sends is checked against that.  [resume_serves_what_is_retained] computes the
    replay plan over a bus that answers from a given log. *)

From S2P Require Import Prelude Text Events Contracts Auth ChatBus ChatReplay ChatReplayRun Realtime.

Local Open Scope Z_scope.

(** ** A socket, seen from its calls *)

Inductive RtObs : Type :=
| ObInput (input : SocketInput)
| ObSend (message : ServerWsMessage) (sent : bool)
| ObPong (payload : bytes) (sent : bool)
| ObConversation (tenant user conversation : string) (r : result ConversationDetail unit)
| ObSubscribe (tenant conversation : string) (r : result unit ChatBusError)
| ObIndex (tenant conversation : string) (r : result (option ReplayIndex) ChatBusError)
| ObLatest (r : result Z ChatBusError)
| ObReplay (tenant conversation : string) (start_seq end_seq : Z)
    (r : result (list SequencedChatEvent) ChatBusError).

Definition rt_obs (X : Type) (e : RtE X) : X → RtObs :=
  match e in RtE X return X → RtObs with
  | NextInput => ObInput
  | SendServer message => ObSend message
  | SendPong payload => ObPong payload
  | GetConversation t u c => ObConversation t u c
  | SubscribeEvents t c => ObSubscribe t c
  | LoadReplayIndex t c => ObIndex t c
  | LatestEventSequence => ObLatest
  | ReplayEvents t c a b => ObReplay t c a b
  end.

(** What an onlooker knows: the conversations followed, how far the client has
    got in each, and the cursor of the message being answered. *)
Record View : Type := mkView {
  vw_followed : gset string;
  vw_cursor : gmap string Z;
  vw_asked : Z;
}.

Section socket.
Context (from_str : string → option ClientWsMessage) (auth : AuthContext).

(** The cursor a client names in a subscription. *)
Definition asked_cursor (last_event_id : option string) : Z :=
  default 0 (last_event_id ≫= parse_event_id).

Definition view_step (v : View) (o : RtObs) : View :=
  let 'mkView followed cursor asked := v in
  match o with
  | ObInput (InText text) =>
      match from_str text with
      | Some (SubscribeConversation _ last_event_id) =>
          mkView followed cursor (asked_cursor last_event_id)
      | Some (UnsubscribeConversation c) => mkView (followed ∖ {[c]}) (delete c cursor) asked
      | _ => v
      end
  | ObSubscribe _ c (Ok _) => mkView ({[c]} ∪ followed) cursor asked
  | ObSend (Subscribed c) true => mkView followed (<[c := asked]> cursor) asked
  | ObSend (ResyncRequired c) true => mkView followed (delete c cursor) asked
  | ObSend (WsEvent c id _) true =>
      mkView followed (<[c := default 0 (parse_event_id id)]> cursor) asked
  | _ => v
  end.

Definition view (past : list RtObs) : View := foldl view_step (mkView ∅ ∅ 0) past.

Lemma view_snoc past o : view (past ++ [o]) = view_step (view past) o.
Proof. unfold view. by rewrite foldl_app. Qed.

Definition cursor_of (v : View) (c : string) : Z := default 0 (vw_cursor v !! c).

(** The repository has shown the conversation to this user. *)
Definition shown (past : list RtObs) (c : string) : Prop :=
  ∃ d, ObConversation (ax_tenant_id auth) (ax_user_id auth) c (Ok d) ∈ past.

(** The bus has handed the event over, for this conversation of this tenant. *)
Definition handed (past : list RtObs) (c : string) (e : SequencedChatEvent) : Prop :=
  ObInput (EventReceived e) ∈ past ∧ en_tenant_id (se_envelope e) = ax_tenant_id auth ∧
    en_conversation_id (se_envelope e) = c ∨
  ∃ a b es, ObReplay (ax_tenant_id auth) c a b (Ok es) ∈ past ∧ e ∈ es.

(** What a socket may do next. *)
Definition delivers (past : list RtObs) (o : RtObs) : Prop :=
  match o with
  | ObSend (WsEvent c id event) _ =>
      c ∈ vw_followed (view past) ∧ shown past c ∧
      cursor_of (view past) c < default 0 (parse_event_id id) ∧
      ∃ e, handed past c e ∧ en_user_id (se_envelope e) = ax_user_id auth ∧
           se_event_id e = id ∧ en_event (se_envelope e) = event
  | ObSend (Subscribed c) _ => c ∈ vw_followed (view past) ∧ shown past c
  | ObConversation t u _ _ => t = ax_tenant_id auth ∧ u = ax_user_id auth
  | ObSubscribe t c _ => t = ax_tenant_id auth ∧ shown past c
  | ObIndex t c _ => t = ax_tenant_id auth ∧ shown past c
  | ObReplay t c _ _ _ => t = ax_tenant_id auth ∧ shown past c
  | _ => True
  end.

Abbreviation rt_safe := (safe rt_obs delivers).

(** What a session knows agrees with what was seen of it. *)
Record session_ok (past : list RtObs) (s : Session) : Prop := {
  so_followed : vw_followed (view past) = ss_subscriptions s;
  so_shown c : c ∈ ss_subscriptions s → shown past c;
  so_cursor c : cursor_of (view past) c ≤ default 0 (ss_last_sent s !! c);
  so_positive c : 0 ≤ default 0 (ss_last_sent s !! c);
}.

Lemma shown_snoc past o c : shown past c → shown (past ++ [o]) c.
Proof. intros [d H]. exists d. apply elem_of_app. by left. Qed.

Lemma handed_mono past past' c e : past `prefix_of` past' → handed past c e → handed past' c e.
Proof.
  intros [more ->] [(H & ? & ?) | (a & b & es & H & He)].
  - left. split_and!; [apply elem_of_app; by left | done..].
  - right. exists a, b, es. split; [apply elem_of_app; by left | done].
Qed.

(** A call that changes nothing in the view. *)
Definition silent (o : RtObs) : Prop := ∀ v, view_step v o = v.

Lemma session_ok_silent past s o : silent o → session_ok past s → session_ok (past ++ [o]) s.
Proof.
  intros Ho [Hf Hs Hc Hp]. constructor; rewrite ?view_snoc, ?Ho; [done | | done | done].
  intros c Hc'. by apply shown_snoc, Hs.
Qed.

(** Answering with one message that is no event and no subscription. *)
Definition plain (msg : ServerWsMessage) : Prop :=
  match msg with WsError _ _ | Pong _ | ResyncRequired _ => True | _ => False end.

Definition keeps (past : list RtObs) (r : Session * bool) : Prop := r.2 = true → session_ok past r.1.

Lemma session_ok_plain past s msg sent :
  plain msg → session_ok past s → session_ok (past ++ [ObSend msg sent]) s.
Proof.
  intros Hm Hs. destruct msg as [| | c | |]; try done; try (by apply session_ok_silent; [intros [] |]).
  destruct sent; [| by apply session_ok_silent; [intros [] |]].
  destruct Hs as [Hf Hsh Hc Hp].
  constructor; rewrite ?view_snoc; destruct (view past) as [f cu a]; simpl in *; [done | | | done].
  - intros c' Hc'. by apply shown_snoc, Hsh.
  - intros c'. unfold cursor_of in *. simpl. destruct (decide (c = c')) as [-> |].
    + rewrite lookup_delete_eq. apply Hp.
    + rewrite lookup_delete_ne by done. apply Hc.
Qed.

Lemma reply_with_safe past s msg :
  plain msg → session_ok past s → rt_safe (reply_with s msg) keeps past.
Proof.
  intros Hm Hs. apply safe_call. intros sent. split; [by destruct msg |].
  apply safe_ret. intros _. by apply session_ok_plain.
Qed.

Lemma parse_positive id : 0 ≤ default 0 (parse_event_id id).
Proof.
  unfold parse_event_id, parse_u64, check_range.
  repeat case_match; simpl; try done; destruct_bools; lia.
Qed.

Lemma asked_positive id : 0 ≤ asked_cursor id.
Proof. destruct id; [apply parse_positive | done]. Qed.

(** ** The replay plan *)

Lemma range_after_seen last_sequence end_seq required_end range :
  range_after last_sequence end_seq required_end = Ok (Some range) →
  rr_last_seen_sequence range = last_sequence.
Proof. unfold range_after. case_match; [done |]. by intros [= <-]. Qed.

(** A range starts behind the client's cursor. *)
Lemma replay_range_seen index id conversation latest range :
  replay_range index id conversation latest = Ok (Some range) →
  rr_last_seen_sequence range = asked_cursor id.
Proof.
  unfold replay_range, asked_cursor. destruct id as [id|].
  - simpl. destruct (parse_event_id id) as [n|]; simpl; [| done].
    repeat case_match; try done; apply range_after_seen.
  - repeat case_match; try done. by intros [= <-].
Qed.

(** The plan starts at the client's cursor, and its events were handed over. *)
Definition plan_ok (c : string) (id : option string) (past0 past : list RtObs)
    (r : result ReplayPlan ReplayDecisionError) : Prop :=
  view past = view past0 ∧
  match r with
  | Ok plan =>
      rp_last_seen_sequence plan = asked_cursor id ∧
      ∀ e, e ∈ rp_events plan → handed past c e
  | Err _ => True
  end.

Lemma build_replay_plan_safe past c id conversation :
  shown past c →
  rt_safe (build_replay_plan auth c id conversation) (plan_ok c id past) past.
Proof.
  intros Hc. unfold build_replay_plan.
  assert (∀ e, e ∈ @nil SequencedChatEvent → False) as Hnil.
  { intros e. apply not_elem_of_nil. }
  apply safe_call. intros index. split; [done |]. set (past1 := past ++ [_]).
  assert (view past1 = view past) as Hv1.
  { unfold past1. rewrite view_snoc. by destruct (view past). }
  assert (shown past1 c) as Hc1 by by apply shown_snoc.
  destruct index as [index | error]; [| by apply safe_ret].
  apply safe_call. intros latest. split; [done |].
  set (past2 := past1 ++ [_]).
  assert (view past2 = view past) as Hv2.
  { unfold past2. rewrite view_snoc, Hv1. by destruct (view past). }
  assert (shown past2 c) as Hc2 by by apply shown_snoc.
  destruct latest as [latest | error]; [| by apply safe_ret].
  destruct index as [index|].
  2: { apply safe_ret. split; [done |]. case_bool_decide as Hid; [done |].
       split; [| by intros e ?%Hnil]. by destruct id; [exfalso; apply Hid; eexists |]. }
  destruct (replay_range index id conversation latest) as [[range|] | err] eqn:Hr.
  - apply safe_call. intros events. split; [done |]. apply safe_ret.
    split; [rewrite view_snoc, Hv2; by destruct (view past) |].
    destruct events as [events | error]; [| done]. simpl. destruct (replay_is_incomplete events range); [done |].
    split; [by eapply replay_range_seen |]. intros e He. right.
    exists (rr_start_seq range), (rr_end_seq range), events.
    split; [apply elem_of_app; right; apply list_elem_of_singleton; done | done].
  - apply safe_ret. split; [done |]. simpl. split; [done |]. by intros e ?%Hnil.
  - apply safe_ret. by split.
Qed.
(** ** Sending *)

Lemma cursor_of_sent past c id event :
  cursor_of (view (past ++ [ObSend (WsEvent c id event) true])) c = default 0 (parse_event_id id).
Proof.
  rewrite view_snoc. destruct (view past). unfold cursor_of. simpl. by rewrite lookup_insert_eq.
Qed.

Lemma followed_sent past c id event sent :
  vw_followed (view (past ++ [ObSend (WsEvent c id event) sent])) = vw_followed (view past).
Proof. rewrite view_snoc. destruct (view past). by destruct sent. Qed.

Lemma cursor_of_other past msg c c' :
  c ≠ c' →
  match msg with WsEvent x _ _ | Subscribed x => x = c | _ => False end →
  cursor_of (view (past ++ [ObSend msg true])) c' = cursor_of (view past) c'.
Proof.
  intros Hc Hm. rewrite view_snoc. destruct (view past). unfold cursor_of.
  destruct msg; try done; subst; simpl; by rewrite lookup_insert_ne.
Qed.

(** After a send that moved the cursor of [c] to what the session remembers. *)
Lemma session_ok_moved past s msg c n :
  match msg with WsEvent x _ _ | Subscribed x => x = c | _ => False end →
  vw_followed (view (past ++ [ObSend msg true])) = ss_subscriptions s →
  (∀ c', c' ∈ ss_subscriptions s → shown past c') →
  (∀ c', c' ≠ c → cursor_of (view past) c' ≤ default 0 (ss_last_sent s !! c')) →
  (∀ c', 0 ≤ default 0 (ss_last_sent s !! c')) →
  cursor_of (view (past ++ [ObSend msg true])) c ≤ n → 0 ≤ n →
  session_ok (past ++ [ObSend msg true]) (set_last_sent c n s).
Proof.
  intros Hm Hf Hs Hc Hp Hn Hn0. constructor; simpl.
  - done.
  - intros c' Hc'. by apply shown_snoc, Hs.
  - intros c'. destruct (decide (c = c')) as [<- |].
    + by rewrite lookup_insert_eq.
    + rewrite lookup_insert_ne, (cursor_of_other _ _ c) by done. by apply Hc.
  - intros c'. destruct (decide (c = c')) as [<- |].
    + by rewrite lookup_insert_eq.
    + by rewrite lookup_insert_ne.
Qed.

(** The session while a replay is being sent: the cursor of [c] is [n], which the
    session does not know yet. *)
Record sending (past : list RtObs) (s : Session) (c : string) (n : Z) : Prop := {
  sd_followed : vw_followed (view past) = ss_subscriptions s;
  sd_in : c ∈ ss_subscriptions s;
  sd_shown c' : c' ∈ ss_subscriptions s → shown past c';
  sd_cursor : cursor_of (view past) c = n;
  sd_other c' : c' ≠ c → cursor_of (view past) c' ≤ default 0 (ss_last_sent s !! c');
  sd_positive c' : 0 ≤ default 0 (ss_last_sent s !! c');
  sd_zero : 0 ≤ n;
}.

Lemma sending_done past s c n : sending past s c n → session_ok past (set_last_sent c n s).
Proof.
  intros [Hf _ Hs Hc Ho Hp Hz]. constructor; simpl; [done | done | |]; intros c';
    (destruct (decide (c = c')) as [<- |]; [rewrite lookup_insert_eq; simpl; lia | rewrite lookup_insert_ne by done]).
  - by apply Ho.
  - apply Hp.
Qed.

Lemma send_replay_safe past s c n events :
  sending past s c n → (∀ e, e ∈ events → handed past c e) →
  rt_safe (send_replay auth c events n)
    (λ past' r, match r with Some n' => sending past' s c n' | None => True end) past.
Proof.
  revert past n. induction events as [|e events IH]; intros past n Hs He; [done |].
  cbn [send_replay].
  assert (∀ e, e ∈ events → handed past c e) as He' by (intros e' ?; apply He; by right).
  case_bool_decide as Hu; [by apply IH |].
  destruct (sequence_of e <=? n) eqn:Hn; [by apply IH |]. apply Z.leb_gt in Hn.
  apply safe_call. intros sent. split.
  - destruct Hs as [Hf Hin Hsh Hc _ _ _]. simpl. rewrite Hf, Hc. split_and!; [done | by apply Hsh | done |].
    exists e. split_and!; [apply He; by left | done..].
  - cbn [rt_obs]. destruct sent; [| done]. apply IH.
    + destruct Hs as [Hf Hin Hsh Hc Ho Hp Hz]. constructor.
      * etrans; [apply followed_sent | done].
      * done.
      * intros c' Hc'. by apply shown_snoc, Hsh.
      * apply cursor_of_sent.
      * intros c' Hc'. erewrite cursor_of_other by done. by apply Ho.
      * done.
      * lia.
    + intros e' H. eapply handed_mono; [by apply prefix_app_r | by apply He'].
Qed.

Lemma session_ok_view past past' s :
  view past' = view past → past `prefix_of` past' → session_ok past s → session_ok past' s.
Proof.
  intros Hv [more ->] [Hf Hs Hc Hp]. constructor; rewrite ?Hv; [done | | done | done].
  intros c [d Hd]%Hs. exists d. apply elem_of_app. by left.
Qed.

Lemma serve_replay_safe past s c id conversation :
  session_ok past s → c ∈ ss_subscriptions s → vw_asked (view past) = asked_cursor id →
  rt_safe (serve_replay auth c id conversation s) keeps past.
Proof.
  intros Hs Hc Ha. unfold serve_replay.
  eapply safe_bind_spec; [apply build_replay_plan_safe; by apply (so_shown _ _ Hs) |].
  intros past1 r Hpre [Hv Hr]. pose proof (session_ok_view _ _ _ Hv Hpre Hs) as Hs1.
  destruct r as [plan | [| m]]; [| by apply reply_with_safe..].
  destruct Hr as [Hseen Hev].
  apply safe_call. intros sent. split.
  { split; [by rewrite (so_followed _ _ Hs1) | by apply (so_shown _ _ Hs1)]. }
  destruct sent; cbn [negb rt_obs]; [| by apply safe_ret].
  eapply safe_bind_spec; [apply send_replay_safe |].
  - destruct Hs1 as [Hf Hsh Hcu Hp]. constructor; [| done | | | | done |].
    + rewrite <- Hf, view_snoc. by destruct (view past1).
    + intros c' Hc'. by apply shown_snoc, Hsh.
    + rewrite Hseen, <- Ha, <- Hv, view_snoc. destruct (view past1). unfold cursor_of. simpl.
      by rewrite lookup_insert_eq.
    + intros c' Hc'. erewrite cursor_of_other by done. apply Hcu.
    + rewrite Hseen. apply asked_positive.
  - intros e He. apply (handed_mono past1); [by apply prefix_app_r | by apply Hev].
  - intros past2 [n|] _ H; apply safe_ret; intros Hr; [by apply sending_done | done].
Qed.

(** ** The loop *)

(** A message is read: the view records what was asked, and forgets what is no
    longer followed. *)
Lemma view_text past text :
  view (past ++ [ObInput (InText text)]) =
    match from_str text with
    | Some (SubscribeConversation _ id) =>
        mkView (vw_followed (view past)) (vw_cursor (view past)) (asked_cursor id)
    | Some (UnsubscribeConversation c) =>
        mkView (vw_followed (view past) ∖ {[c]}) (delete c (vw_cursor (view past)))
          (vw_asked (view past))
    | _ => view past
    end.
Proof. rewrite view_snoc. destruct (view past). simpl. by repeat case_match. Qed.

Lemma session_ok_same past past' s :
  vw_followed (view past') = vw_followed (view past) →
  vw_cursor (view past') = vw_cursor (view past) →
  past `prefix_of` past' → session_ok past s → session_ok past' s.
Proof.
  intros Hf Hc [more ->] [Hf' Hs Hcu Hp]. constructor; unfold cursor_of; rewrite ?Hf, ?Hc; [done | | done | done].
  intros c [d Hd]%Hs. exists d. apply elem_of_app. by left.
Qed.

Lemma subscribed_ok past s c r :
  session_ok past s → shown past c →
  session_ok (past ++ [ObSubscribe (ax_tenant_id auth) c (Ok r)]) (add_subscription c s).
Proof.
  intros [Hf Hs Hc Hp] Hsh. constructor; rewrite ?view_snoc; destruct (view past) as [f cu a]; simpl in *.
  - by subst.
  - intros c' [->%elem_of_singleton | Hc']%elem_of_union; apply shown_snoc; [done | by apply Hs].
  - done.
  - done.
Qed.

Lemma unsubscribed_ok past past' s c :
  view past' = mkView (vw_followed (view past) ∖ {[c]}) (delete c (vw_cursor (view past)))
                 (vw_asked (view past)) →
  past `prefix_of` past' → session_ok past s →
  session_ok past' (drop_last_sent c (remove_subscription c s)).
Proof.
  intros Hv [more ->] [Hf Hs Hc Hp]. constructor; rewrite ?Hv; simpl.
  - by rewrite Hf.
  - intros c' [Hc' _]%elem_of_difference. destruct (Hs _ Hc') as [d Hd].
    exists d. apply elem_of_app. by left.
  - intros c'. unfold cursor_of in *. simpl.
    destruct (decide (c = c')) as [<- |]; [by rewrite !lookup_delete_eq | by rewrite !lookup_delete_ne].
  - intros c'. destruct (decide (c = c')) as [<- |]; [by rewrite lookup_delete_eq | by rewrite lookup_delete_ne].
Qed.

Lemma handle_client_message_safe past text s :
  session_ok past s →
  rt_safe (handle_client_message from_str auth text s) keeps (past ++ [ObInput (InText text)]).
Proof.
  intros Hs. unfold handle_client_message. pose proof (view_text past text) as Hv.
  set (past1 := past ++ [ObInput (InText text)]) in *.
  assert (past `prefix_of` past1) as Hpre by by apply prefix_app_r.
  destruct (from_str text) as [[c id | c | nonce]|].
  - assert (session_ok past1 s) as Hs1 by (by apply (session_ok_same past); rewrite ?Hv).
    apply safe_call. intros r. split; [done |]. set (past2 := past1 ++ [_]).
    assert (view past2 = view past1) as Hv2.
    { unfold past2. rewrite view_snoc. by destruct (view past1). }
    assert (session_ok past2 s) as Hs2.
    { eapply session_ok_view; [exact Hv2 | by apply prefix_app_r | done]. }
    destruct r as [d | e]; [| by apply reply_with_safe].
    assert (shown past2 c) as Hsh.
    { exists d. apply elem_of_app. right. by apply list_elem_of_singleton. }
    assert (vw_asked (view past2) = asked_cursor id) as Ha by by rewrite Hv2, Hv.
    case_bool_decide as Hin; [by apply serve_replay_safe |].
    apply safe_call. intros [[] | e]; (split; [done |]).
    + apply serve_replay_safe; [by apply subscribed_ok | set_solver |].
      rewrite view_snoc. destruct (view past2). done.
    + apply reply_with_safe; [done |]. apply session_ok_silent; [by intros [] | done].
  - apply safe_ret. intros _. by eapply unsubscribed_ok.
  - apply reply_with_safe; [done |]. by apply (session_ok_same past); rewrite ?Hv.
  - apply reply_with_safe; [done |]. by apply (session_ok_same past); rewrite ?Hv.
Qed.

Lemma handle_event_safe past e s :
  session_ok past s →
  rt_safe (handle_event auth e s) keeps (past ++ [ObInput (EventReceived e)]).
Proof.
  intros Hs. set (past1 := past ++ [_]).
  assert (session_ok past1 s) as Hs1 by (apply session_ok_silent; [by intros [] | done]).
  unfold handle_event. set (c := en_conversation_id (se_envelope e)).
  case_bool_decide; [by apply safe_ret; intros _ |].
  case_bool_decide as Hin; [by apply safe_ret; intros _ |].
  case_bool_decide; [by apply safe_ret; intros _ |].
  destruct (_ <=? _) eqn:Hn; [by apply safe_ret; intros _ |]. apply Z.leb_gt in Hn.
  pose proof Hs1 as [Hf Hsh Hc Hp].
  apply safe_call. intros sent. split.
  - simpl. rewrite Hf. split_and!; [done | by apply Hsh | |].
    + eapply Z.le_lt_trans; [apply Hc | done].
    + exists e. split_and!; [| done..]. left. split_and!; [| done..].
      apply elem_of_app. right. by apply list_elem_of_singleton.
  - apply safe_ret. intros Ht. destruct sent; simpl in *; [| done].
    apply session_ok_moved; [done | | done | by intros ? _ | done | | ].
    + rewrite followed_sent. done.
    + by rewrite cursor_of_sent.
    + apply parse_positive.
Qed.

Lemma socket_round_safe past s :
  session_ok past s → rt_safe (socket_round from_str auth s) keeps past.
Proof.
  intros Hs. unfold socket_round. apply safe_call. intros input. split; [by destruct input |].
  destruct input as [text | | | payload | | | e | c skipped |].
  - by apply handle_client_message_safe.
  - by apply safe_ret.
  - by apply safe_ret.
  - apply safe_call. intros sent. split; [done |]. apply safe_ret. intros _. simpl.
    do 2 (apply session_ok_silent; [by intros [] |]). done.
  - apply safe_ret. intros _. apply session_ok_silent; [by intros [] | done].
  - by apply safe_ret.
  - by apply handle_event_safe.
  - set (past1 := past ++ [_]).
    assert (session_ok past1 s) as Hs1 by (apply session_ok_silent; [by intros [] | done]).
    apply safe_call. intros sent. split; [done |]. apply safe_ret. intros Ht.
    destruct sent; simpl in *; [| done]. destruct Hs1 as [Hf Hsh Hc Hp].
    constructor; rewrite ?view_snoc; destruct (view past1) as [f cu a]; simpl in *; [done | | |].
    + intros c' Hc'. by apply shown_snoc, Hsh.
    + intros c'. unfold cursor_of in *. simpl in *.
      destruct (decide (c = c')) as [<- |]; [by rewrite !lookup_delete_eq | rewrite !lookup_delete_ne by done; apply Hc].
    + intros c'. destruct (decide (c = c')) as [<- |]; [by rewrite lookup_delete_eq | by rewrite lookup_delete_ne].
  - by apply safe_ret.
Qed.

(** C12: Whatever a client sends and whatever the bus, the repository and the
    outbound queue answer, a socket is sent an event only of a conversation it
    follows and the repository has shown to this user of this tenant; the event
    is one the bus handed over for that conversation, addressed to this user, with
    its own id; and its sequence is greater than every one sent since the client
    last subscribed or was told to resync, and greater than the cursor the client
    subscribed with. *)
Theorem socket_delivers (rounds : nat) tr s :
  exec rt_obs (run_socket from_str rounds auth) tr s →
  ∀ before o after, tr = before ++ o :: after → delivers before o.
Proof.
  intros Hx. eapply (exec_safe rt_obs delivers _ (λ _ _, True) [] tr s Hx).
  unfold run_socket.
  assert (session_ok [] session_new) as Hs.
  { constructor; [done | set_solver | done | done]. }
  clear Hx. revert Hs. generalize session_new, (@nil RtObs).
  induction rounds as [|rounds IH]; intros s0 past Hs; [done |]. cbn [socket_loop].
  eapply safe_bind_spec; [by apply socket_round_safe |].
  intros past1 [s1 []] _ Hr; [by apply IH, Hr | done].
Qed.
End socket.

(** ** Replaying from a bus that holds a given log *)

Section replay.
Context (es : list ChatEventEnvelope) (cut : Z) (auth : AuthContext) (c : string)
  (conversation : ConversationDetail).

Abbreviation tenant := (ax_tenant_id auth).
Abbreviation latest := (Z.of_nat (length es)).

(** The answers of the bus after [es] were published, when the stream retains
    the events from [cut] on; [jetstream_bus_is_memory_bus] is why. *)
Definition log_bus : handler RtE unit := λ A e u,
  match e in RtE A return unit * A with
  | LoadReplayIndex t c => (u, Ok (mem_load_replay_index t c (publish_all es)))
  | LatestEventSequence => (u, Ok (mem_latest_event_sequence (publish_all es)))
  | ReplayEvents t c a b =>
      (u, match retained cut (ReplayReply (Ok (mem_replay_events t c a b (publish_all es)))) with
          | ReplayReply r => r
          | _ => Ok []
          end)
  | NextInput => (u, InNone)
  | SendServer _ | SendPong _ => (u, true)
  | GetConversation _ _ _ => (u, Ok conversation)
  | SubscribeEvents _ _ => (u, Ok tt)
  end.

(** The events of the conversation numbered from [a] to [b]. *)
Definition stretch (a b : Z) : list SequencedChatEvent := flat_map (pick es tenant c) (sequences a b).

Definition index : ReplayIndex := default index_default (index_after es (lock_key tenant c)).

(** The end of the current turn, or the end of the log. *)
Definition replay_end : Z :=
  default latest (ri_current_turn index ≫= rt_end_seq).

Definition turn_ended : bool := bool_decide (is_Some (ri_current_turn index ≫= rt_end_seq)).

(** The cursor lies in one of the two turns of the index. *)
Definition covered (n : Z) : bool :=
  match ri_current_turn index with
  | Some turn => turn_contains_sequence turn n latest
  | None => false
  end ||
  match ri_previous_turn index with
  | Some turn => turn_contains_sequence turn n latest
  | None => false
  end.

Context (Hlen : latest ≤ u64_max).
(** No other tenant and conversation share the key of this one. *)
Context (Hkey : ∀ e, e ∈ es → event_key e = lock_key tenant c →
                     en_tenant_id e = tenant ∧ en_conversation_id e = c).

Lemma index_facts : index_ok es (lock_key tenant c) index.
Proof using Hlen. by apply replay_index_tracks_turns. Qed.

Lemma pick_here n e :
  event_at es n e → event_key e = lock_key tenant c →
  pick es tenant c n = [mkSequenced (show_uint n) e].
Proof using Hkey.
  intros [Hn He] Hk. unfold pick. rewrite He.
  destruct (Hkey e) as [-> ->]; [by eapply list_elem_of_lookup_2 | done |].
  by rewrite !bool_decide_eq_true_2.
Qed.

Lemma stretch_cut a b :
  flat_map (λ n, if cut <=? n then pick es tenant c n else []) (sequences a b) =
  stretch (Z.max a cut) b.
Proof.
  unfold stretch. destruct (Z_le_gt_dec cut a) as [Hc | Hc].
  - rewrite Z.max_l by lia. apply flat_map_ext_elem. intros n Hn%elem_of_sequences.
    by rewrite (proj2 (Z.leb_le cut n)) by lia.
  - rewrite Z.max_r by lia. destruct (Z_le_gt_dec cut (b + 1)) as [Hb | Hb].
    + rewrite (sequences_app a (cut - 1) b), flat_map_app by lia.
      replace (cut - 1 + 1) with cut by lia. rewrite flat_map_nil.
      * apply flat_map_ext_elem. intros n Hn%elem_of_sequences.
        by rewrite (proj2 (Z.leb_le cut n)) by lia.
      * intros n Hn%elem_of_sequences. by rewrite (proj2 (Z.leb_gt cut n)) by lia.
    + rewrite (sequences_nil cut b) by lia. apply flat_map_nil.
      intros n Hn%elem_of_sequences. by rewrite (proj2 (Z.leb_gt cut n)) by lia.
Qed.

Lemma log_bus_replay a b u :
  1 ≤ a → log_bus _ (ReplayEvents tenant c a b) u = (u, Ok (stretch (Z.max a cut) b)).
Proof using Hlen.
  intros Ha. cbn [log_bus retained]. unfold mem_replay_events.
  destruct (publish_all_spec es Hlen) as (_ & -> & _).
  rewrite mem_replay_picks, <- stretch_cut by done.
  rewrite (retained_picks cut es) by (try done; apply Forall_forall; intros n Hn%elem_of_sequences; lia).
  done.
Qed.

Lemma last_stretch a n e :
  a ≤ n → event_at es n e → event_key e = lock_key tenant c →
  last (stretch a n) ≫= event_sequence = Some n.
Proof using Hkey Hlen.
  intros Ha He Hk. apply event_at_length in He as Hn.
  unfold stretch. replace n with (n - 1 + 1) at 1 by lia.
  rewrite sequences_snoc, flat_map_app by lia. replace (n - 1 + 1) with n by lia.
  cbn [flat_map]. rewrite app_nil_r, (pick_here n e) by done. rewrite last_snoc. simpl.
  unfold event_sequence, parse_event_id. simpl. apply parse_u64_show. unfold in_u64. lia.
Qed.

Lemma head_stretch n b e :
  n ≤ b → event_at es n e → event_key e = lock_key tenant c →
  head (stretch n b) ≫= event_sequence = Some n ∧ stretch n b ≠ [].
Proof using Hkey Hlen.
  intros Hb He Hk. apply event_at_length in He as Hn.
  unfold stretch. rewrite (sequences_app n n b), sequences_one by lia. cbn [app flat_map].
  rewrite (pick_here n e) by done. simpl. split; [| done].
  unfold event_sequence, parse_event_id. simpl. apply parse_u64_show. unfold in_u64. lia.
Qed.

Lemma head_stretch_from a b n :
  1 ≤ a → b ≤ latest → head (stretch a b) ≫= event_sequence = Some n → a ≤ n.
Proof using Hlen.
  intros Ha Hb. unfold stretch. assert (Forall (λ m, a ≤ m ≤ b) (sequences a b)) as Hall.
  { apply Forall_forall. intros m Hm. by apply elem_of_sequences. }
  induction Hall as [|m l Hm _ IH]; [done |]. cbn [flat_map].
  destruct (pick es tenant c m) as [|x picked] eqn:Hp; [done |]. simpl.
  unfold pick in Hp. destruct (es !! _); [| done]. destruct (_ && _); [| done].
  simplify_eq/=. unfold event_sequence, parse_event_id. simpl.
  rewrite parse_u64_show by (unfold in_u64; lia). intros [= <-]. lia.
Qed.

Lemma stretch_nil a b : b < a → stretch a b = [].
Proof. intros H. unfold stretch. by rewrite sequences_nil. Qed.

(** Planning a replay against the log. *)
Definition plan_for (id : option string) : result ReplayPlan ReplayDecisionError :=
  (run log_bus (build_replay_plan auth c id conversation) tt).2.

(** The plan once the range is known. *)
Lemma plan_for_range id range :
  is_Some (index_after es (lock_key tenant c)) →
  replay_range index id conversation latest = Ok (Some range) → 1 ≤ rr_start_seq range →
  plan_for id =
    let events := stretch (Z.max (rr_start_seq range) cut) (rr_end_seq range) in
    if replay_is_incomplete events range then Err DecideResync
    else Ok (mkPlan events (rr_last_seen_sequence range)).
Proof using Hlen.
  unfold plan_for, build_replay_plan. intros [i Hi] Hr Hs. unfold index in Hr.
  assert (log_bus _ (LoadReplayIndex tenant c) tt = (tt, Ok (Some i))) as H1.
  { cbn [log_bus]. by rewrite <- Hi. }
  assert (log_bus _ LatestEventSequence tt = (tt, Ok latest)) as H2.
  { cbn [log_bus]. unfold mem_latest_event_sequence. by destruct (publish_all_spec es Hlen) as (-> & _). }
  rewrite Hi in Hr. change (default index_default (Some i)) with i in Hr.
  cbn [prog_bind call run]. rewrite H1. cbn [prog_bind call run]. rewrite H2, Hr.
  cbn [prog_bind call run]. rewrite log_bus_replay by done. cbn [run].
  by destruct (replay_is_incomplete _ _).
Qed.

(** No range: the plan is empty, or there is no plan. *)
Lemma plan_for_none id r :
  is_Some (index_after es (lock_key tenant c)) →
  replay_range index id conversation latest = r →
  (∀ range, r ≠ Ok (Some range)) →
  plan_for id = match r with Err e => Err e | Ok _ => Ok (mkPlan [] (asked_cursor id)) end.
Proof using Hlen.
  unfold plan_for, build_replay_plan. intros [i Hi] Hr Hn. unfold index in Hr.
  assert (log_bus _ (LoadReplayIndex tenant c) tt = (tt, Ok (Some i))) as H1.
  { cbn [log_bus]. by rewrite <- Hi. }
  assert (log_bus _ LatestEventSequence tt = (tt, Ok latest)) as H2.
  { cbn [log_bus]. unfold mem_latest_event_sequence. by destruct (publish_all_spec es Hlen) as (-> & _). }
  rewrite Hi in Hr. change (default index_default (Some i)) with i in Hr.
  cbn [prog_bind call run]. rewrite H1. cbn [prog_bind call run]. rewrite H2, Hr.
  destruct r as [[range|]|]; [by destruct (Hn range) | done..].
Qed.

Lemma plan_for_no_index id :
  index_after es (lock_key tenant c) = None →
  plan_for id = if bool_decide (is_Some id) then Err DecideResync else Ok (mkPlan [] 0).
Proof using Hlen.
  unfold plan_for, build_replay_plan. intros Hi.
  assert (log_bus _ (LoadReplayIndex tenant c) tt = (tt, Ok None)) as H1.
  { cbn [log_bus]. by rewrite <- Hi. }
  cbn [prog_bind call run]. by rewrite H1.
Qed.

(** The range of a cursor inside the index. *)
Lemma replay_range_cursor id n :
  parse_event_id id = Some n →
  replay_range index (Some id) conversation latest =
    if covered n
    then range_after n replay_end (ri_current_turn index ≫= rt_end_seq)
    else Err DecideResync.
Proof using Hlen.
  intros Hid. pose proof index_facts as Hok. unfold index_ok in Hok.
  unfold replay_range, covered, replay_end. rewrite Hid. cbn [ok_or].
  destruct (ri_current_turn index) as [cur|]; simpl.
  - destruct (turn_contains_sequence cur n latest); simpl; [done |].
    destruct (ri_previous_turn index) as [prev|]; [by case_match | done].
  - by destruct Hok as [-> _].
Qed.


(** Fact: A client that joins without a cursor is sent the whole of the turn that
    runs, from its TurnStarted event to the end of the log, or is told to resync
    when that first event is no longer retained; it is sent nothing when no turn
    runs, or when the turn's messages are already in the history it has read. *)
Theorem fresh_join_is_complete :
  plan_for None =
    match ri_current_turn index with
    | Some current =>
        if bool_decide (is_Some (rt_end_seq current))
           || conversation_has_turn conversation (rt_turn_id current)
        then Ok (mkPlan [] 0)
        else if cut <=? rt_start_seq current
        then Ok (mkPlan (stretch (rt_start_seq current) latest) 0)
        else Err DecideResync
    | None => Ok (mkPlan [] 0)
    end ∧
  ∀ current, ri_current_turn index = Some current →
    ∃ e, event_at es (rt_start_seq current) e ∧ starts (lock_key tenant c) (rt_turn_id current) e.
Proof using Hlen Hkey.
  pose proof index_facts as Hok. unfold index_ok in Hok. split.
  2: { intros current Hc. rewrite Hc in Hok. by destruct Hok as ([? _] & _). }
  destruct (index_after es (lock_key tenant c)) as [i|] eqn:Hi.
  2: { rewrite plan_for_no_index by done. unfold index. by rewrite Hi. }
  assert (is_Some (index_after es (lock_key tenant c))) as Hsome by by rewrite Hi.
  destruct (ri_current_turn index) as [cur|] eqn:Hcur.
  2: { rewrite (plan_for_none _ (Ok None)); [done | done | | done]. unfold replay_range. by rewrite Hcur. }
  destruct (_ || _) eqn:Hdone.
  { rewrite (plan_for_none _ (Ok None)); [done | done | | done].
    unfold replay_range. by rewrite Hcur, Hdone. }
  apply orb_false_iff in Hdone as [Hend Hhas]. apply bool_decide_eq_false in Hend.
  destruct (rt_end_seq cur) as [m|] eqn:Hm; [by destruct Hend |].
  destruct Hok as ([(e & He & Hst) _] & _). apply event_at_length in He as Hs.
  rewrite (plan_for_range _ (mkRange (rt_start_seq cur) latest 0 (Some (rt_start_seq cur)) None)); 
    [| done | | simpl; lia].
  2: { unfold replay_range. by rewrite Hcur, Hm, Hhas. }
  cbn [rr_start_seq rr_end_seq rr_last_seen_sequence]. unfold replay_is_incomplete.
  cbn [rr_required_start_seq rr_required_end_seq].
  rewrite (bool_decide_eq_true_2 (is_Some (Some _))) by by eexists. cbn [andb].
  destruct (cut <=? rt_start_seq cur) eqn:Hcut.
  - apply Z.leb_le in Hcut. rewrite Z.max_l by lia.
    destruct (head_stretch (rt_start_seq cur) latest e) as [Hh Hne]; [lia | done | apply Hst |].
    rewrite Hh. by rewrite !bool_decide_eq_false_2 by naive_solver.
  - apply Z.leb_gt in Hcut. rewrite Z.max_r by lia.
    case_bool_decide; [done |]. rewrite bool_decide_eq_true_2; [done |].
    intros Hh. apply head_stretch_from in Hh; lia.
Qed.
End replay.

(** ** Concrete sockets *)

Module SocketDemo.
Import ReplayDemo.

Definition ann : AuthContext := mkAuth "ann" "acme" None [] "Bearer x".
Definition history : ConversationDetail := mkDetail "c1" "Hello" [] 0.

(** Client messages, without JSON. *)
Definition from_str (text : string) : option ClientWsMessage :=
  if bool_decide (text = "follow") then Some (SubscribeConversation "c1" (Some "1"))
  else if bool_decide (text = "leave") then Some (UnsubscribeConversation "c1") else None.

(** A bus over the first four events, and a client that follows [c1] and then is
    handed the fifth. *)
Definition log : list ChatEventEnvelope := take 4 events.
Definition inputs : list SocketInput :=
  [InText "follow"; EventReceived (mkSequenced "4" (said "c1" "t1" (TextDelta "lo")));
   EventReceived (mkSequenced "5" (said "c1" "t1" (Finish "a1" FinishStop))); InClose].

Definition bus : handler RtE (list SocketInput) := λ A e w,
  match e in RtE A return list SocketInput * A with
  | NextInput => (tail w, default InNone (head w))
  | SendServer m => (w, true)
  | SendPong b => (w, true)
  | e => (w, (log_bus log 0 history _ e tt).2)
  end.

Definition trace : list RtObs := run_trace rt_obs bus (run_socket from_str 4 ann) inputs.
Definition final : Session := (run bus (run_socket from_str 4 ann) inputs).2.
End SocketDemo.

(** What the client is sent. *)
Example socket_demo_sends :
  omap (λ o, match o with ObSend m true => Some m | _ => None end) SocketDemo.trace =
    [Subscribed "c1"; WsEvent "c1" "2" (TextDelta "Hel"); WsEvent "c1" "4" (TextDelta "lo");
     WsEvent "c1" "5" (Finish "a1" FinishStop)].
Proof. vm_compute. reflexivity. Qed.

Lemma socket_delivers_witness :
  delivers SocketDemo.from_str SocketDemo.ann (take 11 SocketDemo.trace)
    (ObSend (WsEvent "c1" "5" (Finish "a1" FinishStop)) true).
Proof.
  apply (socket_delivers _ _ 4 SocketDemo.trace SocketDemo.final
    (run_trace_exec _ _ _ _) _ _ (drop 12 SocketDemo.trace)).
  vm_compute. reflexivity.
Defined.

Lemma demo_keys e :
  e ∈ ReplayDemo.events → event_key e = lock_key "acme" "c1" →
  en_tenant_id e = "acme" ∧ en_conversation_id e = "c1".
Proof.
  intros He Hk. unfold ReplayDemo.events in He.
  repeat (apply elem_of_cons in He as [-> | He]; [by vm_compute in Hk |- * |]).
  by apply not_elem_of_nil in He.
Qed.


Lemma fresh_join_is_complete_witness :
  plan_for ReplayDemo.events 6 SocketDemo.ann "c1" SocketDemo.history None =
    Ok (mkPlan [mkSequenced "6" (ReplayDemo.said "c1" "t2" (TurnStarted "t2"));
                mkSequenced "7" (ReplayDemo.said "c1" "t1" (TitleUpdated "Hello"))] 0).
Proof.
  destruct (fresh_join_is_complete ReplayDemo.events 6 SocketDemo.ann "c1" SocketDemo.history)
    as [-> _].
  - vm_compute. discriminate.
  - intros e. apply demo_keys.
  - vm_compute. reflexivity.
Defined.
