(* ===== verification/Hubs.v ===== *)
(** * Shared subscriptions (services/realtime-service/src/main.rs)

    [ConversationEventRegistry]: the sockets of a process that follow the same
    conversation share one hub, which reads the bus once and fans out.  The
    registry keeps weak pointers; a hub lives as long as a subscription holds it.
    Here: how [subscribe] finds or makes the hub, with any number of sockets
    subscribing and leaving at once. *)

From S2P Require Import Prelude Text Contracts ChatBus.

Record ConversationKey : Type := mkKey {
  ck_tenant_id : string;
  ck_conversation_id : string;
}.

#[export] Instance ConversationKey_eq_dec : EqDecision ConversationKey.
Proof. solve_decision. Defined.
#[export] Instance ConversationKey_countable : Countable ConversationKey.
Proof.
  apply (inj_countable' (λ k, (ck_tenant_id k, ck_conversation_id k)) (λ p, mkKey p.1 p.2)). by intros [].
Defined.

(** [ConversationEventHub]: how many [Arc]s hold it, and whether the task that
    reads the bus is still running. *)
Record ConversationEventHub : Type := mkHub {
  hb_arcs : nat;
  hb_feeding : bool;
}.

(** [hubs], whose weak pointers are names of hubs, and every hub ever made. *)
Record HubWorld : Type := mkHubWorld {
  hw_hubs : gmap ConversationKey nat;
  hw_store : gmap nat ConversationEventHub;
}.

(** A call of [subscribe]: an access to [hubs] under its lock, the subscription to
    the bus, the making of a hub with its task, and the end of an [Arc].  The two
    accesses answer with the [Arc] that [Weak::upgrade] gave. *)
Inductive HubE : Type → Type :=
| ExistingHub (key : ConversationKey) : HubE (option nat)
| SubscribeSource (tenant_id conversation_id : string) : HubE (result unit ChatBusError)
| NewHub : HubE nat
| InsertHub (key : ConversationKey) (hub : nat) : HubE (option nat)
| DropArc (hub : nat) : HubE unit.

(** [ConversationEventRegistry::subscribe]: the hub of the subscription. *)
Definition subscribe (tenant_id conversation_id : string) : prog HubE (result nat ChatBusError) :=
  let key := mkKey tenant_id conversation_id in
  let* existing := call (ExistingHub key) in
  match existing with
  | Some hub => Ret (Ok hub)
  | None =>
      let*? _ := call (SubscribeSource tenant_id conversation_id) in
      let* hub := call NewHub in
      let* existing := call (InsertHub key hub) in
      match existing with
      | Some existing =>
          let* _ := call (DropArc hub) in
          Ret (Ok existing)
      | None => Ret (Ok hub)
      end
  end.

(** ** The registry of a process *)

Definition arcs (w : HubWorld) (hub : nat) : nat := default 0 (hb_arcs <$> hw_store w !! hub).

Definition set_hub (hub : nat) (h : ConversationEventHub) (w : HubWorld) : HubWorld :=
  mkHubWorld (hw_hubs w) (<[hub := h]> (hw_store w)).

(** [hubs.get(&key).and_then(Weak::upgrade)]: one more [Arc]. *)
Definition upgrade (key : ConversationKey) (w : HubWorld) : HubWorld * option nat :=
  match hw_hubs w !! key with
  | None => (w, None)
  | Some hub =>
      match hw_store w !! hub with
      | Some h =>
          if bool_decide (hb_arcs h = 0) then (w, None)
          else (set_hub hub (mkHub (S (hb_arcs h)) (hb_feeding h)) w, Some hub)
      | None => (w, None)
      end
  end.

(** The end of an [Arc]; the last one ends the task. *)
Definition drop_arc (hub : nat) (w : HubWorld) : HubWorld :=
  match hw_store w !! hub with
  | Some h =>
      let n := pred (hb_arcs h) in
      set_hub hub (mkHub n (hb_feeding h && bool_decide (n ≠ 0))) w
  | None => w
  end.

Definition hub_step (X : Type) (e : HubE X) (w w' : HubWorld) : X → Prop :=
  match e in HubE X return X → Prop with
  | ExistingHub key => λ r, upgrade key w = (w', r)
  | SubscribeSource _ _ => λ _, w' = w
  | NewHub => λ hub, hw_store w !! hub = None ∧ w' = set_hub hub (mkHub 1 true) w
  | InsertHub key hub => λ r,
      match upgrade key w with
      | (w1, Some existing) => w' = w1 ∧ r = Some existing
      | (_, None) => w' = mkHubWorld (<[key := hub]> (hw_hubs w)) (hw_store w) ∧ r = None
      end
  | DropArc hub => λ _, w' = drop_arc hub w
  end.

(** A socket leaves, or the source of a hub ends. *)
Inductive hub_env : HubWorld → HubWorld → Prop :=
| socket_leaves w hub : hub_env w (drop_arc hub w)
| source_ends w hub h :
    hw_store w !! hub = Some h → hub_env w (set_hub hub (mkHub (hb_arcs h) false) w).

(** ** One hub per conversation *)

(** A hub that nothing holds stays so, and a hub that is held keeps its place. *)
Definition hub_guarantee (w w' : HubWorld) : Prop :=
  (∀ hub, is_Some (hw_store w !! hub) → is_Some (hw_store w' !! hub)) ∧
  (∀ hub, is_Some (hw_store w !! hub) → arcs w hub = 0 → arcs w' hub = 0) ∧
  (∀ key hub, is_Some (hw_store w !! hub) → hw_hubs w !! key = Some hub → arcs w' hub ≠ 0 →
     hw_hubs w' !! key = Some hub).

#[local] Instance hub_guarantee_refl : Reflexive hub_guarantee.
Proof. by intros w. Qed.
#[local] Instance hub_guarantee_trans : Transitive hub_guarantee.
Proof.
  intros w1 w2 w3 (A1 & A2 & A3) (B1 & B2 & B3). split_and!; [by eauto.. |].
  intros key hub Hs Hk Ha. apply B3; [by apply A1 | | done]. apply A3; [done.. |].
  intros H0. by apply Ha, B2; [apply A1 |].
Qed.

Lemma arcs_set hub h w hub' :
  arcs (set_hub hub h w) hub' = if decide (hub' = hub) then hb_arcs h else arcs w hub'.
Proof.
  unfold arcs, set_hub. cbn [hw_store]. case_decide as Hd; [subst | ].
  - by rewrite lookup_insert_eq.
  - by rewrite lookup_insert_ne.
Qed.

(** A step that writes one known hub. *)
Lemma set_hub_guarantee hub h h' w :
  hw_store w !! hub = Some h → (hb_arcs h = 0 → hb_arcs h' = 0) → hub_guarantee w (set_hub hub h' w).
Proof.
  intros Hh H0.
  assert (∀ i, is_Some (hw_store w !! i) → is_Some (hw_store (set_hub hub h' w) !! i)) as Hdom.
  { intros i Hi. cbn. by apply lookup_insert_is_Some'; right. }
  split_and!; [done | | done].
  intros i Hi Hz. rewrite arcs_set. case_decide; [subst | done].
  apply H0. unfold arcs in Hz. by rewrite Hh in Hz.
Qed.

Lemma drop_arc_guarantee hub w : hub_guarantee w (drop_arc hub w).
Proof.
  unfold drop_arc. destruct (hw_store w !! hub) as [h|] eqn:Hh; [| done].
  eapply set_hub_guarantee; [done |]. cbn. by intros ->.
Qed.

Lemma upgrade_guarantee key w w' r :
  upgrade key w = (w', r) →
  hub_guarantee w w' ∧
  match r with
  | Some hub => hw_hubs w' !! key = Some hub ∧ is_Some (hw_store w' !! hub)
  | None => w' = w ∧ ∀ hub, hw_hubs w !! key = Some hub → arcs w hub = 0
  end.
Proof.
  unfold upgrade. destruct (hw_hubs w !! key) as [hub|] eqn:Hk; [| by intros [= <- <-]].
  destruct (hw_store w !! hub) as [h|] eqn:Hh.
  2: { intros [= <- <-]. split; [done |]. split; [done |]. intros i [= <-]. unfold arcs. by rewrite Hh. }
  case_bool_decide as H0; intros [= <- <-].
  - split; [done |]. split; [done |]. intros i [= <-]. unfold arcs. by rewrite Hh.
  - split; [by eapply set_hub_guarantee |]. split; [done |]. cbn. rewrite lookup_insert_eq. by eexists.
Qed.

Lemma hub_env_guarantee w w' : hub_env w w' → hub_guarantee w w'.
Proof. intros [? ? | ? hub h Hh]; [apply drop_arc_guarantee | by eapply set_hub_guarantee]. Qed.

(** A hub is the one of its conversation as long as it is held. *)
Definition hub_of (key : ConversationKey) (hub : nat) (w : HubWorld) : Prop :=
  is_Some (hw_store w !! hub) ∧ (arcs w hub ≠ 0 → hw_hubs w !! key = Some hub).

Lemma hub_of_stable key hub : stable hub_guarantee (hub_of key hub).
Proof.
  intros w w' [Hs Hk] (G1 & G2 & G3). split; [by apply G1 |].
  intros Ha. apply G3; [done | | done]. apply Hk. intros H0. by apply Ha, G2.
Qed.

(** A hub in the making: nobody else's. *)
Definition made (hub : nat) (w : HubWorld) : Prop := is_Some (hw_store w !! hub).

Lemma made_stable hub : stable hub_guarantee (made hub).
Proof. intros w w' H (G1 & _). by apply G1. Qed.

Lemma subscribe_rg t c :
  rg hub_step hub_guarantee (subscribe t c) (λ _, True)
    (λ r w, match r with Ok hub => hub_of (mkKey t c) hub w | Err _ => True end).
Proof.
  unfold subscribe.
  apply rg_call with (Q := λ r w, match r with Some hub => hub_of (mkKey t c) hub w | None => True end).
  { intros w w' r _ [HG Hr]%upgrade_guarantee. split; [done |].
    destruct r as [hub|]; [| done]. destruct Hr as [Hk Hs]. split; [apply hub_of_stable | by split]. }
  intros [hub|]; [by apply rg_ret |].
  apply rg_call with (Q := λ _ _, True); [by intros w w' x _ -> |].
  intros [[]|e]; [| by apply rg_ret].
  apply rg_call with (Q := made).
  { intros w w' hub _ [Hnone ->].
    split_and!; [| apply made_stable | unfold made; cbn; rewrite lookup_insert_eq; by eexists].
    split_and!; [| | done].
    - intros i Hi. cbn. by apply lookup_insert_is_Some'; right.
    - intros i [h Hi] Hz. rewrite arcs_set. case_decide; [congruence | done]. }
  intros hub.
  apply rg_call with (Q := λ r w, match r with
    | Some existing => hub_of (mkKey t c) existing w
    | None => hub_of (mkKey t c) hub w end).
  { intros w w' r Hm Hr. simpl in Hr. destruct (upgrade (mkKey t c) w) as [w1 [existing|]] eqn:Hup.
    - destruct Hr as [-> ->]. apply upgrade_guarantee in Hup as (HG & Hk & Hs).
      split_and!; [done | apply hub_of_stable | by split].
    - destruct Hr as [-> ->]. apply upgrade_guarantee in Hup as (_ & _ & Hdead).
      split_and!; [| apply hub_of_stable |].
      + split_and!; [done | done |]. intros key i Hi Hk Ha. cbn.
        destruct (decide (key = mkKey t c)) as [->|Hne]; [| by rewrite lookup_insert_ne].
        apply Hdead in Hk. unfold arcs in *. cbn in Ha. congruence.
      + split; [done |]. intros _. cbn. by rewrite lookup_insert_eq. }
  intros [existing|]; [| by apply rg_ret].
  apply rg_call with (Q := λ _ w, hub_of (mkKey t c) existing w); [| intros _; by apply rg_ret].
  intros w w' [] Hw ->. split_and!; [apply drop_arc_guarantee | apply hub_of_stable |].
  by eapply hub_of_stable, drop_arc_guarantee.
Qed.

(** C20: However many sockets of a process subscribe and leave at once, and
    whatever the bus answers, the subscriptions to a conversation that are still
    held share one hub, and with it one subscription to the bus. *)
Theorem subscribers_share_a_hub keys w w' ts i j key hub hub' :
  rtc (pool_step hub_step hub_env)
    (w, (λ k, subscribe (ck_tenant_id k) (ck_conversation_id k)) <$> keys) (w', ts) →
  keys !! i = Some key → keys !! j = Some key →
  ts !! i = Some (Ret (Ok hub)) → ts !! j = Some (Ret (Ok hub')) →
  arcs w' hub ≠ 0 → arcs w' hub' ≠ 0 → hub = hub'.
Proof.
  intros Hsteps Hi Hj Hri Hrj Ha Ha'.
  destruct (pool_steps_rg hub_step hub_env hub_guarantee _ _
    ((λ k r w, match r with Ok hub => hub_of k hub w | Err _ => True end) <$> keys)
    hub_env_guarantee Hsteps) as [_ Hts].
  { apply Forall2_fmap, Forall_Forall2_diag, Forall_forall. intros [t c] _. exists (λ _, True).
    split_and!; [done | done | apply subscribe_rg]. }
  assert (∀ n h, keys !! n = Some key → ts !! n = Some (Ret (Ok h)) → hub_of key h w') as Hof.
  { intros n h Hn Hr. destruct (Forall2_lookup_l _ _ _ _ _ Hts Hr) as (Q & HQ & Hth).
    rewrite list_lookup_fmap, Hn in HQ. simplify_eq/=. by apply rg_thread_ret in Hth. }
  destruct (Hof i hub) as [_ H1]; [done.. |]. destruct (Hof j hub') as [_ H2]; [done.. |].
  specialize (H1 Ha). specialize (H2 Ha'). congruence.
Qed.

(** ** A process whose bus never fails *)

Definition registry : handler HubE HubWorld := λ X e w,
  match e in HubE X return HubWorld * X with
  | ExistingHub key => upgrade key w
  | SubscribeSource _ _ => (w, Ok tt)
  | NewHub => let hub := fresh (dom (hw_store w)) in (set_hub hub (mkHub 1 true) w, hub)
  | InsertHub key hub =>
      match upgrade key w with
      | (w, Some existing) => (w, Some existing)
      | (_, None) => (mkHubWorld (<[key := hub]> (hw_hubs w)) (hw_store w), None)
      end
  | DropArc hub => (drop_arc hub w, tt)
  end.

Lemma registry_step X (e : HubE X) w w' x : registry X e w = (w', x) → hub_step X e w w' x.
Proof.
  destruct e; simpl; try (by intros [= <- <-]); try done.
  - intros [= <- <-]. split; [| done]. apply not_elem_of_dom, is_fresh.
  - destruct (upgrade key w) as [w1 [existing|]]; by intros [= <- <-].
Qed.

(** A hub whose source has ended is still handed out, for as long as one
    subscription holds it: those that join it are sent nothing. *)
Lemma ended_hub_is_shared t c hub n w :
  hw_hubs w !! mkKey t c = Some hub → hw_store w !! hub = Some (mkHub (S n) false) →
  run registry (subscribe t c) w = (set_hub hub (mkHub (S (S n)) false) w, Ok hub).
Proof.
  intros Hk Hs. unfold subscribe. cbn [prog_bind call run registry]. unfold upgrade. by rewrite Hk, Hs.
Qed.

Module HubDemo.
Definition key : ConversationKey := mkKey "acme" "c1".
Definition empty : HubWorld := mkHubWorld ∅ ∅.
Definition join : prog HubE (result nat ChatBusError) := subscribe "acme" "c1".
Definition one : HubWorld * result nat ChatBusError := run registry join empty.
Definition two : HubWorld * result nat ChatBusError := run registry join one.1.
End HubDemo.

Lemma subscribers_share_a_hub_witness :
  HubDemo.one.2 = Ok 0 ∧ HubDemo.two.2 = Ok 0 ∧ arcs HubDemo.two.1 0 = 2 ∧ 0 = 0.
Proof.
  split; [vm_compute; reflexivity |]. split; [vm_compute; reflexivity |]. split; [vm_compute; reflexivity |].
  apply (subscribers_share_a_hub [HubDemo.key; HubDemo.key] HubDemo.empty HubDemo.two.1
    [Ret HubDemo.one.2; Ret HubDemo.two.2] 0 1 HubDemo.key);
    [| reflexivity | reflexivity | vm_compute; reflexivity | vm_compute; reflexivity
     | vm_compute; discriminate | vm_compute; discriminate].
  pose proof (pool_run_at registry hub_env [HubDemo.join; HubDemo.join] 0 _ HubDemo.empty eq_refl) as H1.
  pose proof (pool_run_at registry hub_env [Ret HubDemo.one.2; HubDemo.join] 1 _ HubDemo.one.1 eq_refl) as H2.
  eapply (rtc_congruence id) in H1; [| intros c c'; apply pool_step_mono, registry_step].
  eapply (rtc_congruence id) in H2; [| intros c c'; apply pool_step_mono, registry_step].
  etrans; [exact H1 | exact H2].
Defined.
