(* ===== verification/Feed.v ===== *)
(** * From the event log to the sockets

    The tasks that carry the events of a conversation: the one of
    [subscribe_conversation_events] (crates/nats/src/lib.rs) from its JetStream
    consumer into a channel, the one of a hub (realtime-service/src/main.rs,
    [ConversationEventRegistry::subscribe]) from that channel into a broadcast,
    and one per socket ([subscribe_socket_to_conversation]) from the broadcast into
    the queue of the socket's loop.  They are threads of one pool; the channels,
    tokio's, are the world between them. *)

From S2P Require Import Prelude Text Events Contracts ChatBus ChatReplay Realtime.

Local Open Scope Z_scope.

(** What [recv] of a broadcast receiver answers. *)
Inductive Received : Type :=
| Fresh (event : SequencedChatEvent)
| Lagged (skipped : Z)
| Closed.

(** A message of the consumer: its stream sequence, if it has one, and its payload. *)
Definition Delivery : Type := result Z string * bytes.

Inductive FeedE : Type → Type :=
| NextMessage : FeedE (option (result Delivery string))
| SendSource (event : SequencedChatEvent) : FeedE bool
| RecvSource : FeedE (option SequencedChatEvent)
| SendFanout (event : SequencedChatEvent) : FeedE unit
| HubSubscribe (i : nat) : FeedE unit
| RecvFanout (i : nat) : FeedE Received
| SendSocket (i : nat) (input : SocketInput) : FeedE bool.

Section tasks.
Context {CC : ChatCodec} (tenant_id conversation_id : string).

(** The body of the task of [subscribe_conversation_events]: the event a message
    carries, if it is one of the conversation. *)
Definition deliver (message : Delivery) : option SequencedChatEvent :=
  match message.1 with
  | Err _ => None
  | Ok sequence =>
      match event_from_slice message.2 with
      | Err _ => None
      | Ok event =>
          if bool_decide (en_tenant_id (se_envelope event) ≠ tenant_id) ||
             bool_decide (en_conversation_id (se_envelope event) ≠ conversation_id)
          then None
          else Some (mkSequenced (show_uint sequence) (se_envelope event))
      end
  end.

(** Its loop, for a number of rounds. *)
Fixpoint forward_events (rounds : nat) : prog FeedE unit :=
  match rounds with
  | O => Ret tt
  | S rounds =>
      let* message := call NextMessage in
      match message with
      | None => Ret tt
      | Some (Err _) => forward_events rounds
      | Some (Ok message) =>
          match deliver message with
          | None => forward_events rounds
          | Some event =>
              let* sent := call (SendSource event) in
              if sent : bool then forward_events rounds else Ret tt
          end
      end
  end.

(** The task of a hub; a broadcast without receivers is ignored. *)
Fixpoint fan_out (rounds : nat) : prog FeedE unit :=
  match rounds with
  | O => Ret tt
  | S rounds =>
      let* event := call RecvSource in
      match event with
      | None => Ret tt
      | Some event => let* _ := call (SendFanout event) in fan_out rounds
      end
  end.

(** The task of a socket. *)
Fixpoint feed_socket (rounds i : nat) : prog FeedE unit :=
  match rounds with
  | O => Ret tt
  | S rounds =>
      let* received := call (RecvFanout i) in
      match received with
      | Fresh event =>
          let* sent := call (SendSocket i (EventReceived event)) in
          if sent : bool then feed_socket rounds i else Ret tt
      | Lagged skipped =>
          let* sent := call (SendSocket i (EventsLagged conversation_id skipped)) in
          if sent : bool then feed_socket rounds i else Ret tt
      | Closed => Ret tt
      end
  end.

(** [subscribe_socket_to_conversation], on a hub at hand. *)
Definition subscribe_socket (rounds i : nat) : prog FeedE unit :=
  let* _ := call (HubSubscribe i) in feed_socket rounds i.

(** ** The channels *)

(** A receiver of the broadcast: how many events had been sent when it subscribed
    and how many it has seen or skipped; what its task has in hand, and what it
    gave to the socket. *)
Record Receiver : Type := mkReceiver {
  rc_start : nat;
  rc_pos : nat;
  rc_held : option SocketInput;
  rc_out : list SocketInput;
}.

(** The messages the server hands to the consumer, and how many were taken; the
    event in hand, the channel, the event in hand of the hub, all events broadcast
    so far, and the receivers. *)
Record FeedWorld : Type := mkFeed {
  fe_log : list Delivery;
  fe_taken : nat;
  fe_forwarding : option SequencedChatEvent;
  fe_source : list SequencedChatEvent;
  fe_fanning : option SequencedChatEvent;
  fe_sent : list SequencedChatEvent;
  fe_receivers : gmap nat Receiver;
}.

(** The capacity of the broadcast: a receiver further behind loses the oldest. *)
Context (capacity : nat).

Definition set_receiver (i : nat) (r : Receiver) (w : FeedWorld) : FeedWorld :=
  mkFeed (fe_log w) (fe_taken w) (fe_forwarding w) (fe_source w) (fe_fanning w) (fe_sent w)
    (<[i := r]> (fe_receivers w)).

Definition feed_step (A : Type) (e : FeedE A) (w w' : FeedWorld) : A → Prop :=
  match e in FeedE A return A → Prop with
  | NextMessage => λ x,
      match x with
      | Some (Ok message) =>
          fe_log w !! fe_taken w = Some message ∧
          w' = mkFeed (fe_log w) (S (fe_taken w)) (deliver message) (fe_source w) (fe_fanning w)
                 (fe_sent w) (fe_receivers w)
      | _ => w' = w
      end
  | SendSource event => λ sent,
      if sent : bool
      then w' = mkFeed (fe_log w) (fe_taken w) None (fe_source w ++ [event]) (fe_fanning w) (fe_sent w)
                  (fe_receivers w)
      else w' = w
  | RecvSource => λ x,
      match x with
      | Some event => ∃ rest, fe_source w = event :: rest ∧
          w' = mkFeed (fe_log w) (fe_taken w) (fe_forwarding w) rest (Some event) (fe_sent w) (fe_receivers w)
      | None => w' = w
      end
  | SendFanout event => λ _,
      w' = mkFeed (fe_log w) (fe_taken w) (fe_forwarding w) (fe_source w) None (fe_sent w ++ [event])
             (fe_receivers w)
  | HubSubscribe i => λ _,
      w' = set_receiver i (mkReceiver (length (fe_sent w)) (length (fe_sent w)) None []) w
  | RecvFanout i => λ x,
      let oldest := (length (fe_sent w) - capacity)%nat in
      match x with
      | Fresh event => ∃ r, fe_receivers w !! i = Some r ∧
          (oldest ≤ rc_pos r)%nat ∧ fe_sent w !! rc_pos r = Some event ∧
          w' = set_receiver i (mkReceiver (rc_start r) (S (rc_pos r)) (Some (EventReceived event)) (rc_out r)) w
      | Lagged skipped => ∃ r, fe_receivers w !! i = Some r ∧
          (rc_pos r < oldest)%nat ∧ skipped = Z.of_nat (oldest - rc_pos r) ∧
          w' = set_receiver i (mkReceiver (rc_start r) oldest (Some (EventsLagged conversation_id skipped)) (rc_out r)) w
      | Closed => w' = w
      end
  | SendSocket i input => λ sent,
      if sent : bool
      then ∃ r, fe_receivers w !! i = Some r ∧
             w' = set_receiver i (mkReceiver (rc_start r) (rc_pos r) None (rc_out r ++ [input])) w
      else w' = w
  end.

(** The server hands over further messages. *)
Inductive feed_env : FeedWorld → FeedWorld → Prop :=
| more_messages messages w :
    feed_env w (mkFeed (fe_log w ++ messages) (fe_taken w) (fe_forwarding w) (fe_source w) (fe_fanning w)
                  (fe_sent w) (fe_receivers w)).

Definition feed_start (log : list Delivery) : FeedWorld := mkFeed log 0 None [] None [] ∅.
End tasks.

(** ** What the channels keep *)

Section feed.
Context {CC : ChatCodec} (tenant_id conversation_id : string) (capacity : nat).

Abbreviation deliver := (deliver tenant_id conversation_id).
Abbreviation feed_step := (feed_step tenant_id conversation_id capacity).

(** What a socket is given tells of every event: the event itself, or that so many
    were skipped. *)
Inductive heard : list SocketInput → list SequencedChatEvent → Prop :=
| heard_nothing : heard [] []
| heard_event inputs events event :
    heard inputs events → heard (inputs ++ [EventReceived event]) (events ++ [event])
| heard_lag inputs events missed :
    heard inputs events →
    heard (inputs ++ [EventsLagged conversation_id (Z.of_nat (length missed))]) (events ++ missed).

Definition receiver_ok (sent : list SequencedChatEvent) (r : Receiver) : Prop :=
  (rc_start r ≤ rc_pos r ≤ length sent)%nat ∧
  heard (rc_out r ++ option_list (rc_held r)) (drop (rc_start r) (take (rc_pos r) sent)).

Record feed_ok (w : FeedWorld) : Prop := {
  fo_taken : (fe_taken w ≤ length (fe_log w))%nat;
  fo_flow : omap deliver (take (fe_taken w) (fe_log w)) =
    fe_sent w ++ option_list (fe_fanning w) ++ fe_source w ++ option_list (fe_forwarding w);
  fo_receivers i r : fe_receivers w !! i = Some r → receiver_ok (fe_sent w) r;
}.

(** What thread [k] has in hand: the forwarding task is 0, the hub 1, and socket
    [i] is [2 + i]. *)
Definition in_hand (k : nat) (w : FeedWorld) : option SequencedChatEvent * option Receiver :=
  match k with
  | 0%nat => (fe_forwarding w, None)
  | 1%nat => (fe_fanning w, None)
  | S (S i) => (None, fe_receivers w !! i)
  end.

Definition keeps_feed (w w' : FeedWorld) : Prop := feed_ok w → feed_ok w'.
Definition feed_own (k : nat) (w w' : FeedWorld) : Prop :=
  keeps_feed w w' ∧ ∀ j, j ≠ k → in_hand j w' = in_hand j w.
Definition feed_rely (k : nat) (w w' : FeedWorld) : Prop := keeps_feed w w' ∧ in_hand k w' = in_hand k w.

#[export] Instance keeps_feed_refl : Reflexive keeps_feed.
Proof. intros w Hw. exact Hw. Qed.
#[export] Instance keeps_feed_trans : Transitive keeps_feed.
Proof. intros w1 w2 w3 H1 H2 Hw. exact (H2 (H1 Hw)). Qed.

Lemma feed_env_ok w w' : feed_env w w' → keeps_feed w w' ∧ ∀ k, in_hand k w' = in_hand k w.
Proof.
  intros [messages v]. split; [| by intros [|[]]]. intros [Ht Hf Hr]. split; cbn.
  - rewrite length_app. lia.
  - by rewrite take_app_le.
  - exact Hr.
Qed.

(** Thread [k] has [h] in hand. *)
Definition hand (k : nat) (h : option SequencedChatEvent * option Receiver) (w : FeedWorld) : Prop :=
  feed_ok w ∧ in_hand k w = h.

Lemma hand_stable k h : stable (feed_rely k) (hand k h).
Proof. intros w w' [Hok Hh] [Hk Heq]. split; [by apply Hk | by rewrite Heq]. Qed.

(** A step of thread [k] that leaves the hands of the others alone. *)
Lemma own_step k h h' w w' :
  hand k h w → feed_ok w' → (∀ j, j ≠ k → in_hand j w' = in_hand j w) → in_hand k w' = h' →
  feed_own k w w' ∧ stable (feed_rely k) (hand k h') ∧ hand k h' w'.
Proof.
  intros _ Hok Hj Hh. split; [split; [intros _; exact Hok | exact Hj] |].
  split; [apply hand_stable | split; [exact Hok | exact Hh]].
Qed.

Lemma same_step k h w : hand k h w → feed_own k w w ∧ stable (feed_rely k) (hand k h) ∧ hand k h w.
Proof. intros Hh. apply (own_step k h); [exact Hh | apply Hh | done | apply Hh]. Qed.

Lemma next_message_step w w' x :
  hand 0 (None, None) w → feed_step _ NextMessage w w' x →
  let h := (match x with Some (Ok message) => deliver message | _ => None end, None) in
  feed_own 0 w w' ∧ stable (feed_rely 0) (hand 0 h) ∧ hand 0 h w'.
Proof.
  intros Hw Hx. destruct x as [[message|]|]; cbn in Hx; [| subst; by apply same_step..].
  destruct Hx as [Hm ->]. apply (own_step _ (None, None)); [done | | by intros [|[]] | done].
  destruct Hw as [[Ht Hf Hr] [= Hnone]]. split; cbn; [| | exact Hr].
  - by apply lookup_lt_Some in Hm.
  - rewrite (take_S_r _ _ _ Hm), omap_app, Hf, Hnone. cbn. rewrite app_nil_r, <- !(assoc_L app). done.
Qed.

Lemma source_step event w w' x :
  hand 0 (Some event, None) w → feed_step _ (SendSource event) w w' x →
  let h := (if x then None else Some event, None) in
  feed_own 0 w w' ∧ stable (feed_rely 0) (hand 0 h) ∧ hand 0 h w'.
Proof.
  intros Hw Hx. destruct x; cbn in Hx; subst; [| by apply same_step].
  apply (own_step _ (Some event, None)); [done | | by intros [|[]] | done].
  destruct Hw as [[Ht Hf Hr] [= Hsome]]. split; cbn; [done | | exact Hr].
  rewrite Hf, Hsome. cbn. by rewrite app_nil_r.
Qed.

Lemma recv_source_step w w' x :
  hand 1 (None, None) w → feed_step _ RecvSource w w' x →
  feed_own 1 w w' ∧ stable (feed_rely 1) (hand 1 (x, None)) ∧ hand 1 (x, None) w'.
Proof.
  intros Hw Hx. destruct x as [event|]; cbn in Hx; [| subst; by apply same_step].
  destruct Hx as (rest & Hs & ->). apply (own_step _ (None, None)); [done | | by intros [|[]] | done].
  destruct Hw as [[Ht Hf Hr] [= Hnone]]. split; cbn; [done | | exact Hr]. by rewrite Hf, Hnone, Hs.
Qed.

Lemma receiver_ok_sent sent more r : receiver_ok sent r → receiver_ok (sent ++ more) r.
Proof. intros [Hp Hh]. split; [rewrite length_app; lia |]. by rewrite take_app_le by lia. Qed.

Lemma fanout_step event w w' x :
  hand 1 (Some event, None) w → feed_step _ (SendFanout event) w w' x →
  feed_own 1 w w' ∧ stable (feed_rely 1) (hand 1 (None, None)) ∧ hand 1 (None, None) w'.
Proof.
  intros Hw Hx. cbn in Hx. subst. apply (own_step _ (Some event, None)); [done | | by intros [|[]] | done].
  destruct Hw as [[Ht Hf Hr] [= Hsome]]. split; cbn; [done | |].
  - rewrite Hf, Hsome. cbn. by rewrite <- (assoc_L app).
  - intros i r Hi. by apply receiver_ok_sent, (Hr i).
Qed.

(** The hands of the others when receiver [i] changes. *)
Lemma other_hands i r w j : j ≠ S (S i) → in_hand j (set_receiver i r w) = in_hand j w.
Proof. destruct j as [|[|j]]; intros Hj; [done.. |]. cbn. by rewrite lookup_insert_ne by lia. Qed.

Lemma set_receiver_ok i r w : feed_ok w → receiver_ok (fe_sent w) r → feed_ok (set_receiver i r w).
Proof.
  intros [Ht Hf Hr] Hok. split; [done.. |]. intros j r'. cbn. rewrite lookup_insert_Some.
  intros [[_ <-] | [_ Hj]]; [done | by apply (Hr j)].
Qed.

Lemma receiver_step i r r' w :
  hand (S (S i)) (None, r) w → receiver_ok (fe_sent w) r' →
  feed_own (S (S i)) w (set_receiver i r' w) ∧ stable (feed_rely (S (S i))) (hand (S (S i)) (None, Some r')) ∧
  hand (S (S i)) (None, Some r') (set_receiver i r' w).
Proof.
  intros Hw Hok. apply (own_step _ (None, r)); [done | by apply set_receiver_ok; [apply Hw |] | |].
  - intros j. apply other_hands.
  - cbn. by rewrite lookup_insert_eq.
Qed.

Lemma subscribe_step i w w' x :
  hand (S (S i)) (None, None) w → feed_step _ (HubSubscribe i) w w' x →
  let r := mkReceiver (length (fe_sent w)) (length (fe_sent w)) None [] in
  feed_own (S (S i)) w w' ∧ hand (S (S i)) (None, Some r) w'.
Proof.
  intros Hw ->. edestruct (receiver_step i None) as (H1 & _ & H2); [exact Hw | | by split].
  split; [cbn; lia |]. cbn. rewrite drop_ge; [constructor | rewrite length_take; lia].
Qed.

Lemma drop_take_app {A} (l more : list A) (a b c : nat) :
  (a ≤ b)%nat → (b ≤ length l)%nat → take c l = take b l ++ more → drop a (take c l) = drop a (take b l) ++ more.
Proof. intros Ha Hb ->. apply drop_app_le. rewrite length_take. lia. Qed.

(** What the receiver becomes when its task has [input] from position [pos] on. *)
Definition received (r : Receiver) (pos : nat) (input : SocketInput) : Receiver :=
  mkReceiver (rc_start r) pos (Some input) (rc_out r).

Lemma recv_step i r w w' x :
  hand (S (S i)) (None, Some r) w → rc_held r = None → feed_step _ (RecvFanout i) w w' x →
  ∃ r', feed_own (S (S i)) w w' ∧ stable (feed_rely (S (S i))) (hand (S (S i)) (None, Some r')) ∧
    hand (S (S i)) (None, Some r') w' ∧
    rc_held r' = match x with
                 | Fresh event => Some (EventReceived event)
                 | Lagged skipped => Some (EventsLagged conversation_id skipped)
                 | Closed => None
                 end.
Proof.
  intros Hw Hheld Hx. pose proof Hw as [[_ _ Hr] Hh]. cbn in Hh. injection Hh as Hr0.
  destruct (Hr _ _ Hr0) as [Hpos Hheard]. rewrite Hheld in Hheard. cbn in Hheard. rewrite app_nil_r in Hheard.
  destruct x as [event | skipped |]; cbn in Hx.
  - destruct Hx as (r0 & Hr1 & _ & He & ->). assert (r0 = r) as -> by congruence.
    exists (received r (S (rc_pos r)) (EventReceived event)).
    edestruct (receiver_step i (Some r)) as (H1 & H2 & H3); [exact Hw | | by split_and!].
    split; cbn; [apply lookup_lt_Some in He; lia |].
    rewrite (drop_take_app _ [event] _ (rc_pos r)) by (try apply take_S_r; done || lia). by constructor.
  - destruct Hx as (r0 & Hr1 & Hlt & -> & ->). assert (r0 = r) as -> by congruence. set (oldest := (length (fe_sent w) - capacity)%nat) in *.
    exists (received r oldest (EventsLagged conversation_id (Z.of_nat (oldest - rc_pos r)))).
    edestruct (receiver_step i (Some r)) as (H1 & H2 & H3); [exact Hw | | by split_and!].
    set (missed := take (oldest - rc_pos r) (drop (rc_pos r) (fe_sent w))).
    assert (length missed = oldest - rc_pos r)%nat as Hlen by (unfold missed; rewrite length_take, length_drop; lia).
    split; cbn; [lia |].
    rewrite (drop_take_app _ missed _ (rc_pos r)); [| lia.. |].
    + rewrite <- Hlen. by constructor.
    + unfold missed. rewrite take_take_drop. f_equal. lia.
  - subst w'. exists r. destruct (same_step _ _ _ Hw) as (? & ? & ?). by split_and!.
Qed.

Lemma send_step i r input w w' x :
  hand (S (S i)) (None, Some r) w → rc_held r = Some input → feed_step _ (SendSocket i input) w w' x →
  ∃ r', feed_own (S (S i)) w w' ∧ stable (feed_rely (S (S i))) (hand (S (S i)) (None, Some r')) ∧
    hand (S (S i)) (None, Some r') w' ∧ (x = true → rc_held r' = None).
Proof.
  intros Hw Hheld Hx. destruct x; cbn in Hx.
  - destruct Hx as (r0 & Hr0 & ->). pose proof Hw as [[_ _ Hr] Hh]. cbn in Hh. rewrite Hr0 in Hh. injection Hh as ->.
    destruct (Hr _ _ Hr0) as [Hpos Hheard]. rewrite Hheld in Hheard.
    eexists. edestruct (receiver_step i (Some r)) as (H1 & H2 & H3); [exact Hw | | by split_and!].
    split; cbn; [done |]. by rewrite app_nil_r.
  - subst w'. exists r. destruct (same_step _ _ _ Hw) as (? & ? & ?). by split_and!.
Qed.

(** ** The tasks *)

Abbreviation owned k := (owns feed_step (feed_own k) (feed_rely k)).

Lemma forward_events_owns rounds :
  owned 0 (forward_events tenant_id conversation_id rounds) (hand 0 (None, None)) (λ _ _, True).
Proof.
  induction rounds as [|rounds IH]; cbn [forward_events]; [done |].
  eapply owns_call; [intros w w' x Hw Hx; exact (next_message_step w w' x Hw Hx) |].
  intros [[message|]|]; [| exact IH | done]. cbn zeta. destruct (deliver message) as [event|]; [| exact IH].
  eapply owns_call; [intros w w' x Hw Hx; exact (source_step event w w' x Hw Hx) |].
  by intros [].
Qed.

Lemma fan_out_owns rounds : owned 1 (fan_out rounds) (hand 1 (None, None)) (λ _ _, True).
Proof.
  induction rounds as [|rounds IH]; cbn [fan_out]; [done |].
  eapply owns_call; [exact recv_source_step |]. intros [event|]; [| done].
  eapply owns_call; [intros w w' x Hw Hx; exact (fanout_step event w w' x Hw Hx) |].
  intros []. exact IH.
Qed.

(** The receiver of socket [i], its task empty-handed. *)
Definition feeding (i : nat) (held : option SocketInput) (w : FeedWorld) : Prop :=
  ∃ r, hand (S (S i)) (None, Some r) w ∧ rc_held r = held.

Lemma feeding_stable i held : stable (feed_rely (S (S i))) (feeding i held).
Proof. intros w w' (r & Hr & Hh) HG. exists r. split; [by eapply hand_stable | done]. Qed.

Lemma feed_socket_owns rounds i :
  owned (S (S i)) (feed_socket conversation_id rounds i) (feeding i None) (λ _ _, True).
Proof.
  induction rounds as [|rounds IH]; cbn [feed_socket]; [done |].
  eapply (owns_call _ _ _ _ _ _ (λ x, feeding i (match x with
    | Fresh event => Some (EventReceived event)
    | Lagged skipped => Some (EventsLagged conversation_id skipped)
    | Closed => None end))).
  { intros w w' x (r & Hw & Hheld) Hx. destruct (recv_step _ _ _ _ _ Hw Hheld Hx) as (r' & ? & _ & ? & ?).
    split_and!; [done | apply feeding_stable | by exists r']. }
  assert (∀ input, owned (S (S i))
    (let* sent := call (SendSocket i input) in if sent : bool then feed_socket conversation_id rounds i else Ret tt)
    (feeding i (Some input)) (λ _ _, True)) as Hsend.
  { intros input. eapply (owns_call _ _ _ _ _ _ (λ x w, if x : bool then feeding i None w else True)).
    - intros w w' x (r & Hw & Hheld) Hx. destruct (send_step _ _ _ _ _ _ Hw Hheld Hx) as (r' & ? & _ & ? & Hx').
      split_and!; [done | destruct x; [apply feeding_stable | done] | destruct x; [| done]]. exists r'. auto.
    - intros []; [exact IH | done]. }
  intros [event | skipped |]; [apply Hsend.. | done].
Qed.

Lemma subscribe_socket_owns rounds i :
  owned (S (S i)) (subscribe_socket conversation_id rounds i) (hand (S (S i)) (None, None)) (λ _ _, True).
Proof.
  eapply (owns_call _ _ _ _ _ _ (λ _, feeding i None)); [| intros _; apply feed_socket_owns].
  intros w w' x Hw Hx. destruct (subscribe_step i w w' x Hw Hx) as [? ?].
  split_and!; [done | apply feeding_stable | by eexists].
Qed.

Lemma heard_snoc inputs input events :
  heard (inputs ++ [input]) events → ∃ before, heard inputs before ∧ before `prefix_of` events.
Proof.
  intros Hh. inversion Hh as [Heq | l evs e Hl Heq | l evs missed Hl Heq].
  - by destruct inputs.
  - apply app_inj_2 in Heq as [-> _]; [| done]. exists evs. split; [done | by eexists].
  - apply app_inj_2 in Heq as [-> _]; [| done]. exists evs. split; [done | by eexists].
Qed.

Lemma heard_out inputs held events :
  heard (inputs ++ option_list held) events → ∃ before, heard inputs before ∧ before `prefix_of` events.
Proof.
  destruct held as [input|]; cbn; [apply heard_snoc |]. rewrite app_nil_r. intros Hh. by exists events.
Qed.

(** The threads: the forwarding task, the hub's, and those of [n] sockets. *)
Definition tasks (rounds n : nat) : list (prog FeedE unit) :=
  forward_events tenant_id conversation_id rounds :: fan_out rounds ::
  (subscribe_socket conversation_id rounds <$> seq 0 n).

Lemma feed_start_ok log : feed_ok (feed_start log).
Proof. split; cbn; [lia | done |]. intros i r. by rewrite lookup_empty. Qed.

Lemma feed_kept rounds n log w' ts' :
  rtc (pool_step feed_step feed_env) (feed_start log, tasks rounds n) (w', ts') → feed_ok w'.
Proof.
  intros Hsteps.
  destruct (pool_steps_owners feed_step feed_env feed_own feed_rely keeps_feed (λ _ _ _, True)
    (feed_start log, tasks rounds n) (w', ts')) as [HT _]; [| | | | done | | apply HT, feed_start_ok].
  - intros i j w1 w2 Hne [Hk Hj]. split; [done | by apply Hj].
  - intros i w1 w2 [Hk Hj]%feed_env_ok. by split.
  - by intros i w1 w2 [? _].
  - by intros w1 w2 [? _]%feed_env_ok.
  - intros k p Hp. cbn in Hp. pose proof (feed_start_ok log) as Hok. destruct k as [|[|i]]; cbn in Hp.
    + injection Hp as <-. exists (hand 0 (None, None)).
      split_and!; [apply hand_stable | by split | apply forward_events_owns].
    + injection Hp as <-. exists (hand 1 (None, None)).
      split_and!; [apply hand_stable | by split | apply fan_out_owns].
    + apply list_lookup_fmap_Some in Hp as (j & -> & [-> _]%lookup_seq). exists (hand (S (S i)) (None, None)).
      split_and!; [apply hand_stable | split; [done | cbn; by rewrite lookup_empty] | apply subscribe_socket_owns].
Qed.

End feed.

(** ** A concrete feed *)

Section runtime.
Context {CC : ChatCodec} (tenant_id conversation_id : string) (capacity : nat).

(** A runtime that hands over what there is, and closes when there is nothing. *)
Definition feed_healthy : handler FeedE FeedWorld := λ A e w,
  match e in FeedE A return FeedWorld * A with
  | NextMessage =>
      match fe_log w !! fe_taken w with
      | Some message =>
          (mkFeed (fe_log w) (S (fe_taken w)) (deliver tenant_id conversation_id message) (fe_source w)
             (fe_fanning w) (fe_sent w) (fe_receivers w), Some (Ok message))
      | None => (w, None)
      end
  | SendSource event =>
      (mkFeed (fe_log w) (fe_taken w) None (fe_source w ++ [event]) (fe_fanning w) (fe_sent w) (fe_receivers w), true)
  | RecvSource =>
      match fe_source w with
      | event :: rest =>
          (mkFeed (fe_log w) (fe_taken w) (fe_forwarding w) rest (Some event) (fe_sent w) (fe_receivers w), Some event)
      | [] => (w, None)
      end
  | SendFanout event =>
      (mkFeed (fe_log w) (fe_taken w) (fe_forwarding w) (fe_source w) None (fe_sent w ++ [event])
         (fe_receivers w), tt)
  | HubSubscribe i => (set_receiver i (mkReceiver (length (fe_sent w)) (length (fe_sent w)) None []) w, tt)
  | RecvFanout i =>
      match fe_receivers w !! i with
      | None => (w, Closed)
      | Some r =>
          let oldest := (length (fe_sent w) - capacity)%nat in
          if (rc_pos r <? oldest)%nat then
            let skipped := Z.of_nat (oldest - rc_pos r) in
            (set_receiver i (received r oldest (EventsLagged conversation_id skipped)) w, Lagged skipped)
          else match fe_sent w !! rc_pos r with
               | Some event => (set_receiver i (received r (S (rc_pos r)) (EventReceived event)) w, Fresh event)
               | None => (w, Closed)
               end
      end
  | SendSocket i input =>
      match fe_receivers w !! i with
      | None => (w, false)
      | Some r => (set_receiver i (mkReceiver (rc_start r) (rc_pos r) None (rc_out r ++ [input])) w, true)
      end
  end.

Lemma feed_healthy_step A (e : FeedE A) w w' x :
  feed_healthy A e w = (w', x) → feed_step tenant_id conversation_id capacity A e w w' x.
Proof.
  destruct e; cbn; intros Hx.
  - case_match; by simplify_eq.
  - by simplify_eq.
  - case_match; simplify_eq; [done |]. by eexists.
  - by simplify_eq.
  - by simplify_eq.
  - destruct (fe_receivers w !! i) as [r|] eqn:Hr; [| by simplify_eq].
    case_match eqn:Hlt; simplify_eq.
    + apply Nat.ltb_lt in Hlt. by exists r.
    + apply Nat.ltb_ge in Hlt. case_match eqn:He; simplify_eq; [by exists r | done].
  - case_match; simplify_eq; [| done]. by eexists.
Qed.
End runtime.

Module FeedDemo.
Definition said (conversation text : string) : SequencedChatEvent :=
  mkSequenced "" (mkEnvelope 1 "acme" "ann" conversation "t1" 0 (TextDelta text)).
Definition published : list SequencedChatEvent := [said "c1" "a"; said "c2" "x"; said "c1" "b"; said "c1" "c"].

Definition to_vec (e : SequencedChatEvent) : result bytes string :=
  match list_find (λ e', e' = e) published with
  | Some (i, _) => Ok (replicate i Byte.x00)
  | None => Err "not one of the events"
  end.
Definition from_vec (b : bytes) : result SequencedChatEvent string := ok_or (published !! length b) "not an event".

Lemma event_from_bytes e b : to_vec e = Ok b → from_vec b = Ok e.
Proof.
  unfold to_vec, from_vec. destruct (list_find _ published) as [[i e']|] eqn:Hf; [| done].
  intros [= <-]. apply list_find_Some in Hf as (Hi & -> & _). by rewrite length_replicate, Hi.
Qed.

#[export] Instance codec : ChatCodec.
Proof.
  refine {| index_to_vec := λ _, Err "no index"; index_from_slice := λ _, Err "no index";
            event_to_vec := to_vec; event_from_slice := from_vec; event_codec_roundtrip := event_from_bytes |}.
  done.
Defined.

(** The payloads of the four events, and one that is no event. *)
Definition log : list Delivery :=
  [(Ok 11, []); (Ok 12, [Byte.x00]); (Ok 13, replicate 9 Byte.x00); (Ok 14, replicate 2 Byte.x00);
   (Ok 15, replicate 3 Byte.x00)].

Definition server : handler FeedE FeedWorld := feed_healthy "acme" "c1" 2.
Definition start : FeedWorld := feed_start log.

(** One socket subscribes, and its task runs when all is broadcast. *)
Definition subscribed : FeedWorld := (server _ (HubSubscribe 0) start).1.
Definition forwarded : FeedWorld := (run server (forward_events "acme" "c1" 9) subscribed).1.
Definition broadcast : FeedWorld := (run server (fan_out 9) forwarded).1.
Definition finished : FeedWorld := (run server (feed_socket "c1" 9 0) broadcast).1.

Lemma run_task w ts i p :
  ts !! i = Some p →
  rtc (pool_step (feed_step "acme" "c1" 2) feed_env) (w, ts) ((run server p w).1, <[i := Ret tt]> ts).
Proof.
  intros Hi. pose proof (pool_run_sub (feed_step "acme" "c1" 2) server feed_env ts i p w) as H.
  destruct (run server p w) as [w' []]. apply H; [| done]. intros A e w1 w2 x. apply feed_healthy_step.
Qed.

Lemma feed_runs :
  ∃ ts', rtc (pool_step (feed_step "acme" "c1" 2) feed_env) (start, tasks "acme" "c1" 9 1) (finished, ts').
Proof.
  unfold finished, broadcast, forwarded. eexists. eapply rtc_l.
  { apply (pool_call _ _ _ subscribed _ 2 unit (HubSubscribe 0) (λ _, feed_socket "c1" 9 0) tt); [reflexivity | reflexivity]. }
  etrans; [apply (run_task subscribed _ 0 (forward_events "acme" "c1" 9)); reflexivity |].
  etrans; [apply (run_task _ _ 1 (fan_out 9)); reflexivity |].
  apply (run_task _ _ 2 (feed_socket "c1" 9 0)); reflexivity.
Qed.
End FeedDemo.

#[local] Existing Instance FeedDemo.codec.

