(* ===== verification/Commands.v ===== *)
(** * The queue of commands

    crates/nats/src/lib.rs: [publish_turn_requested], the task that forwards the
    messages of the work queue to the worker, [ack_turn_requested] and
    [progress_turn_requested] with the map of pending acknowledgements between
    them, and the tasks that forward stops and the events of all conversations;
    chat-worker/src/main.rs: the loop of [main].  What a task of the worker does
    with its command is [run_turn] of ChatWorker.v; here it is the calls it makes
    of this part of the bus. *)

From S2P Require Import Prelude Text Events Contracts ChatBus ChatReplay Feed.

Local Open Scope Z_scope.

(** serde_json on the two payloads. *)
Class TurnCodec := {
  turn_to_vec : TurnRequested → result bytes string;
  turn_from_slice : bytes → result TurnRequested string;
  turn_codec_roundtrip c b : turn_to_vec c = Ok b → turn_from_slice b = Ok c;
  stop_to_vec : StopSignal → result bytes string;
  stop_from_slice : bytes → result StopSignal string;
  stop_codec_roundtrip s b : stop_to_vec s = Ok b → stop_from_slice b = Ok s;
}.

(** A message is named by its sequence in the stream.  [StartTurn j] is the start
    of the task spawned as number [j]. *)
Inductive CmdE : Type → Type :=
| SendCommand (message_id : string) (payload : bytes) : CmdE (result unit string)
| AwaitCommandAck (message_id : string) : CmdE (result unit string)
| StartMessages : CmdE (result unit string)
| NextCommand : CmdE (option (result (nat * bytes) string))
| PendingInsert (turn_id : string) (message : nat) : CmdE unit
| PendingRemove (turn_id : string) : CmdE (option nat)
| PendingLock : CmdE unit
| PendingGet (turn_id : string) : CmdE (option nat)
| PendingUnlock : CmdE unit
| SendCommands (command : TurnRequested) : CmdE unit
| AckMessage (message : nat) : CmdE (result unit string)
| AckProgress (message : nat) : CmdE (result unit string)
| SubscribeCommands : CmdE unit
| RecvCommand : CmdE (result TurnRequested string)
| SpawnTurn (command : TurnRequested) : CmdE unit
| StartTurn (j : nat) : CmdE TurnRequested.

Section queue.
Context {TC : TurnCodec}.

Definition publish_turn_requested (command : TurnRequested) : prog CmdE (result unit ChatBusError) :=
  match turn_to_vec command with
  | Err error => Ret (Err (Payload error))
  | Ok payload =>
      let* r := call (SendCommand (tr_turn_id command) payload) in
      match r with
      | Err error => Ret (Err (Payload ("publish command: " +:+ error)))
      | Ok _ =>
          let* r := call (AwaitCommandAck (tr_turn_id command)) in
          Ret (result_map_err (λ error, Payload ("ack command publish: " +:+ error)) r)
      end
  end.

(** The loop of the task that forwards commands, for a number of rounds. *)
Fixpoint forward_commands (rounds : nat) : prog CmdE unit :=
  match rounds with
  | O => Ret tt
  | S rounds =>
      let* message := call NextCommand in
      match message with
      | None => Ret tt
      | Some (Err _) => forward_commands rounds
      | Some (Ok (message, payload)) =>
          match turn_from_slice payload with
          | Ok command =>
              let* _ := call (PendingInsert (tr_turn_id command) message) in
              let* _ := call (SendCommands command) in
              forward_commands rounds
          | Err _ =>
              let* _ := call (AckMessage message) in
              forward_commands rounds
          end
      end
  end.

Definition command_task (rounds : nat) : prog CmdE unit :=
  let* r := call StartMessages in
  match r with
  | Err _ => Ret tt
  | Ok _ => forward_commands rounds
  end.

(** The guard of the map lives until the message is taken out of it. *)
Definition ack_turn_requested (turn_id : string) : prog CmdE (result unit ChatBusError) :=
  let* message := call (PendingRemove turn_id) in
  match message with
  | Some message =>
      let* r := call (AckMessage message) in
      Ret (result_map_err (λ error, Payload ("ack command: " +:+ error)) r)
  | None => Ret (Ok tt)
  end.

(** Here the guard is held while the server is told. *)
Definition progress_turn_requested (turn_id : string) : prog CmdE (result unit ChatBusError) :=
  let* _ := call PendingLock in
  let* message := call (PendingGet turn_id) in
  match message with
  | Some message =>
      let* r := call (AckProgress message) in
      let* _ := call PendingUnlock in
      Ret (result_map_err (λ error, Payload ("progress ack command: " +:+ error)) r)
  | None => let* _ := call PendingUnlock in Ret (Ok tt)
  end.

(** The loop of [main]: an error of [recv] ends the worker. *)
Fixpoint take_commands (rounds : nat) : prog CmdE (result unit string) :=
  match rounds with
  | O => Ret (Ok tt)
  | S rounds =>
      let* r := call RecvCommand in
      match r with
      | Err error => Ret (Err error)
      | Ok command => let* _ := call (SpawnTurn command) in take_commands rounds
      end
  end.

Definition main_loop (rounds : nat) : prog CmdE (result unit string) :=
  let* _ := call SubscribeCommands in take_commands rounds.

(** A task of the worker as this part of the bus sees it: [true] is an
    acknowledgement, [false] a sign of progress, whatever they answer. *)
Fixpoint turn_calls (turn_id : string) (script : list bool) : prog CmdE unit :=
  match script with
  | [] => Ret tt
  | true :: script => let* _ := ack_turn_requested turn_id in turn_calls turn_id script
  | false :: script => let* _ := progress_turn_requested turn_id in turn_calls turn_id script
  end.

Definition turn_task (j : nat) (script : list bool) : prog CmdE unit :=
  let* command := call (StartTurn j) in turn_calls (tr_turn_id command) script.

(** ** The server, the map and the channel *)

(** Every message the stream took, under its message id, and those still in it;
    the ids in its window of duplicates; those another worker settled.  The map
    with its guard, the turns whose acknowledgement was asked for, the commands
    broadcast, the receiver of [main] with what it has in hand, and the commands
    given to tasks. *)
Record CmdWorld : Type := mkCmd {
  cm_log : list (string * bytes);
  cm_live : gset nat;
  cm_window : list string;
  cm_elsewhere : gset nat;
  cm_pending : gmap string nat;
  cm_guard : bool;
  cm_asked : list string;
  cm_sent : list TurnRequested;
  cm_start : nat;
  cm_pos : nat;
  cm_held : option TurnRequested;
  cm_spawned : list TurnRequested;
}.

(** [broadcast::channel(256)] *)
Definition COMMANDS_CAPACITY : nat := 256.

Definition with_live (live : gset nat) (w : CmdWorld) : CmdWorld :=
  mkCmd (cm_log w) live (cm_window w) (cm_elsewhere w) (cm_pending w) (cm_guard w) (cm_asked w)
    (cm_sent w) (cm_start w) (cm_pos w) (cm_held w) (cm_spawned w).
Definition with_pending (pending : gmap string nat) (asked : list string) (w : CmdWorld) : CmdWorld :=
  mkCmd (cm_log w) (cm_live w) (cm_window w) (cm_elsewhere w) pending (cm_guard w) asked
    (cm_sent w) (cm_start w) (cm_pos w) (cm_held w) (cm_spawned w).
Definition with_guard (guard : bool) (w : CmdWorld) : CmdWorld :=
  mkCmd (cm_log w) (cm_live w) (cm_window w) (cm_elsewhere w) (cm_pending w) guard (cm_asked w)
    (cm_sent w) (cm_start w) (cm_pos w) (cm_held w) (cm_spawned w).
Definition with_sent (sent : list TurnRequested) (w : CmdWorld) : CmdWorld :=
  mkCmd (cm_log w) (cm_live w) (cm_window w) (cm_elsewhere w) (cm_pending w) (cm_guard w) (cm_asked w)
    sent (cm_start w) (cm_pos w) (cm_held w) (cm_spawned w).
Definition with_main (start pos : nat) (held : option TurnRequested) (spawned : list TurnRequested)
    (w : CmdWorld) : CmdWorld :=
  mkCmd (cm_log w) (cm_live w) (cm_window w) (cm_elsewhere w) (cm_pending w) (cm_guard w) (cm_asked w)
    (cm_sent w) start pos held spawned.

(** The stream takes a message. *)
Definition take_message (id : string) (payload : bytes) (w : CmdWorld) : CmdWorld :=
  mkCmd (cm_log w ++ [(id, payload)]) ({[length (cm_log w)]} ∪ cm_live w) (id :: cm_window w)
    (cm_elsewhere w) (cm_pending w) (cm_guard w) (cm_asked w) (cm_sent w) (cm_start w) (cm_pos w)
    (cm_held w) (cm_spawned w).

(** A publish is stored, is a duplicate, or is lost; its acknowledgement says that
    the stream took a message of that id.  Any message of the queue may be handed
    out at any time, and again.  An acknowledgement is itself not acknowledged: it
    arrives or not. *)
Definition cmd_step (A : Type) (e : CmdE A) (w w' : CmdWorld) : A → Prop :=
  match e in CmdE A return A → Prop with
  | SendCommand id payload => λ _, w' = w ∨ (id ∉ cm_window w ∧ w' = take_message id payload w)
  | AwaitCommandAck id => λ x,
      w' = w ∧ match x with Ok _ => id ∈ (cm_log w).*1 | Err _ => True end
  | StartMessages => λ _, w' = w
  | NextCommand => λ x,
      w' = w ∧
      match x with
      | Some (Ok (message, payload)) =>
          message ∈ cm_live w ∧ snd <$> cm_log w !! message = Some payload
      | _ => True
      end
  | PendingInsert i message => λ _,
      cm_guard w = false ∧ w' = with_pending (<[i := message]> (cm_pending w)) (cm_asked w) w
  | PendingRemove i => λ x,
      cm_guard w = false ∧ x = cm_pending w !! i ∧
      w' = with_pending (delete i (cm_pending w)) (cm_asked w ++ [i]) w
  | PendingLock => λ _, cm_guard w = false ∧ w' = with_guard true w
  | PendingGet i => λ x, w' = w ∧ x = cm_pending w !! i
  | PendingUnlock => λ _, w' = with_guard false w
  | SendCommands command => λ _, w' = with_sent (cm_sent w ++ [command]) w
  | AckMessage message => λ _, w' = w ∨ w' = with_live (cm_live w ∖ {[message]}) w
  | AckProgress _ => λ _, w' = w
  | SubscribeCommands => λ _,
      w' = with_main (length (cm_sent w)) (length (cm_sent w)) (cm_held w) (cm_spawned w) w
  | RecvCommand => λ x,
      let oldest := (length (cm_sent w) - COMMANDS_CAPACITY)%nat in
      match x with
      | Ok command =>
          (oldest ≤ cm_pos w)%nat ∧ cm_sent w !! cm_pos w = Some command ∧
          w' = with_main (cm_start w) (S (cm_pos w)) (Some command) (cm_spawned w) w
      | Err error =>
          w' = w ∧ ((cm_pos w < oldest)%nat ∧
                    error = "channel lagged by " +:+ show_uint (Z.of_nat (oldest - cm_pos w)) ∨
                    error = "channel closed")
      end
  | SpawnTurn command => λ _,
      w' = with_main (cm_start w) (cm_pos w) None (cm_spawned w ++ [command]) w
  | StartTurn j => λ command, w' = w ∧ cm_spawned w !! j = Some command
  end.

(** Someone else publishes to the queue; an id leaves the window of duplicates;
    another worker settles a message. *)
Inductive cmd_env : CmdWorld → CmdWorld → Prop :=
| foreign_publish id payload w : cmd_env w (take_message id payload w)
| window_passes window w :
    window ⊆ cm_window w →
    cmd_env w (mkCmd (cm_log w) (cm_live w) window (cm_elsewhere w) (cm_pending w) (cm_guard w) (cm_asked w)
                 (cm_sent w) (cm_start w) (cm_pos w) (cm_held w) (cm_spawned w))
| settled_elsewhere message w :
    cmd_env w (mkCmd (cm_log w) (cm_live w ∖ {[message]}) (cm_window w) ({[message]} ∪ cm_elsewhere w)
                 (cm_pending w) (cm_guard w) (cm_asked w) (cm_sent w) (cm_start w) (cm_pos w) (cm_held w)
                 (cm_spawned w)).

Definition no_commands : CmdWorld := mkCmd [] ∅ [] ∅ ∅ false [] [] 0 0 None [].

(** ** What the queue keeps *)

(** Message [m] is a command of turn [i]; it is none at all. *)
Definition names (w : CmdWorld) (m : nat) (i : string) : Prop :=
  ∃ id payload command, cm_log w !! m = Some (id, payload) ∧ turn_from_slice payload = Ok command ∧
    tr_turn_id command = i.
Definition undecodable (w : CmdWorld) (m : nat) : Prop :=
  ∃ id payload error, cm_log w !! m = Some (id, payload) ∧ turn_from_slice payload = Err error.

(** What lets the worker take a message out of the queue. *)
Definition settled (w : CmdWorld) (m : nat) : Prop :=
  undecodable w m ∨ ∃ i, names w m i ∧ i ∈ cm_asked w.

Record queue_ok (w : CmdWorld) : Prop := {
  qo_pending i m : cm_pending w !! i = Some m → names w m i;
  qo_settled m : (m < length (cm_log w))%nat → m ∈ cm_live w ∨ m ∈ cm_elsewhere w ∨ settled w m;
  qo_asked i : i ∈ cm_asked w → ∃ command, command ∈ cm_spawned w ∧ tr_turn_id command = i;
  qo_sent command : command ∈ cm_sent w →
    ∃ m id payload, cm_log w !! m = Some (id, payload) ∧ turn_from_slice payload = Ok command;
  qo_main : (cm_start w ≤ cm_pos w ≤ length (cm_sent w))%nat ∧
    cm_spawned w ++ option_list (cm_held w) = drop (cm_start w) (take (cm_pos w) (cm_sent w));
}.

Record growth (w w' : CmdWorld) : Prop := {
  gr_log : cm_log w `prefix_of` cm_log w';
  gr_sent : cm_sent w `prefix_of` cm_sent w';
  gr_asked : cm_asked w `prefix_of` cm_asked w';
  gr_spawned : cm_spawned w `prefix_of` cm_spawned w';
}.

Definition main_hand (w : CmdWorld) : nat * nat * option TurnRequested * list TurnRequested :=
  (cm_start w, cm_pos w, cm_held w, cm_spawned w).

Definition evolves (w w' : CmdWorld) : Prop := (queue_ok w → queue_ok w') ∧ growth w w'.
(** Thread 1 is [main]. *)
Definition cmd_own (k : nat) (w w' : CmdWorld) : Prop :=
  evolves w w' ∧ (k ≠ 1%nat → main_hand w' = main_hand w).
Definition cmd_rely (k : nat) (w w' : CmdWorld) : Prop :=
  evolves w w' ∧ (k = 1%nat → main_hand w' = main_hand w).

#[export] Instance growth_refl : Reflexive growth.
Proof. by split. Qed.
#[export] Instance growth_trans : Transitive growth.
Proof. intros w1 w2 w3 [] []. split; by etrans. Qed.
#[export] Instance evolves_refl : Reflexive evolves.
Proof. by split. Qed.
#[export] Instance evolves_trans : Transitive evolves.
Proof. intros w1 w2 w3 [H1 ?] [H2 ?]. split; [auto | by etrans]. Qed.

(** What only grows true. *)
Definition grows (φ : CmdWorld → Prop) : Prop := ∀ w w', growth w w' → φ w → φ w'.

Lemma log_grows m entry : grows (λ w, cm_log w !! m = Some entry).
Proof. intros w w' [Hl _ _ _] Hm. by eapply prefix_lookup_Some. Qed.

Lemma names_grows m i : grows (λ w, names w m i).
Proof.
  intros w w' Hg (id & payload & command & Hm & Hc & Hi). exists id, payload, command.
  split_and!; [by eapply log_grows | done..].
Qed.

Lemma undecodable_grows m : grows (λ w, undecodable w m).
Proof.
  intros w w' Hg (id & payload & error & Hm & Hc). exists id, payload, error.
  split; [by eapply log_grows | done].
Qed.

Lemma elem_prefix {A} (x : A) l l' : l `prefix_of` l' → x ∈ l → x ∈ l'.
Proof. intros [k ->]. set_solver. Qed.

Lemma settled_grows m : grows (λ w, settled w m).
Proof.
  intros w w' Hg [Hu | (i & Hn & Hi)]; [left; by eapply undecodable_grows |].
  right. exists i. split; [by eapply names_grows | by eapply elem_prefix; [apply Hg |]].
Qed.

Lemma sent_grows command :
  grows (λ w, ∃ m id payload, cm_log w !! m = Some (id, payload) ∧ turn_from_slice payload = Ok command).
Proof.
  intros w w' Hg (m & id & payload & Hm & Hc). exists m, id, payload. split; [by eapply log_grows | done].
Qed.

(** A step that keeps all but what its message, its map entry or its queue says. *)
Lemma queue_ok_grow w w' :
  growth w w' → cm_log w' = cm_log w → cm_sent w' = cm_sent w → main_hand w' = main_hand w →
  (∀ i m, cm_pending w' !! i = Some m → names w m i) →
  (∀ m, m ∈ cm_live w → m ∈ cm_live w' ∨ m ∈ cm_elsewhere w' ∨ settled w m) →
  cm_elsewhere w ⊆ cm_elsewhere w' →
  (∀ i, i ∈ cm_asked w' → i ∈ cm_asked w ∨ ∃ command, command ∈ cm_spawned w ∧ tr_turn_id command = i) →
  queue_ok w → queue_ok w'.
Proof.
  intros Hg Hl Hsent [= Hst Hpos Hheld Hsp] Hp Hlive Helse Hasked [Hp0 Hs0 Ha0 Hc0 Hm0]. split.
  - intros i m Hi. eapply names_grows, Hp; [exact Hg | exact Hi].
  - intros m. rewrite Hl. intros Hm.
    assert (∀ m, settled w m → settled w' m) as Hset by (intros; by eapply settled_grows).
    destruct (Hs0 m Hm) as [Hm' | [Hm' | Hm']]; [| set_solver | auto].
    destruct (Hlive m Hm') as [? | [? | ?]]; auto.
  - rewrite Hsp. intros i [Hi | Hi]%Hasked; [by apply Ha0 | done].
  - rewrite Hsent. intros command Hc. eapply sent_grows; [exact Hg | by apply Hc0].
  - by rewrite Hst, Hpos, Hheld, Hsp, Hsent.
Qed.

Lemma take_message_evolves id payload w : evolves w (take_message id payload w).
Proof.
  assert (growth w (take_message id payload w)) as Hg by (split; cbn; [by apply prefix_app_r | done..]).
  split; [| exact Hg]. intros [Hp Hs Ha Hc Hm]. split; cbn.
  - intros i m Hi. by eapply names_grows, Hp.
  - intros m. rewrite length_app. cbn. intros Hlt.
    destruct (decide (m = length (cm_log w))) as [-> | Hne]; [left; set_solver |].
    destruct (Hs m) as [? | [? | ?]]; [lia | left; set_solver | right; by left |].
    right; right. by eapply settled_grows.
  - exact Ha.
  - intros command Hin. exact (sent_grows command _ _ Hg (Hc _ Hin)).
  - exact Hm.
Qed.

Lemma cmd_env_evolves w w' : cmd_env w w' → evolves w w' ∧ main_hand w' = main_hand w.
Proof.
  intros [id payload v | window v Hw | m v]; (split; [| done]); [apply take_message_evolves | |];
    (split; [| by split]); intros Hok; eapply queue_ok_grow; try exact Hok; try done; cbn; try set_solver; try apply Hok.
  intros m' Hm'. destruct (decide (m' = m)) as [-> | Hne]; set_solver.
Qed.

Lemma with_sent_evolves command w :
  (∃ m id payload, cm_log w !! m = Some (id, payload) ∧ turn_from_slice payload = Ok command) →
  evolves w (with_sent (cm_sent w ++ [command]) w).
Proof.
  intros Hcommand.
  assert (growth w (with_sent (cm_sent w ++ [command]) w)) as Hg by (split; cbn; [done | by apply prefix_app_r | done..]).
  split; [| exact Hg]. intros [Hp Hs Ha Hc Hm]. split; cbn.
  - exact Hp.
  - exact Hs.
  - exact Ha.
  - intros c [Hin | ->%list_elem_of_singleton]%elem_of_app; [exact (Hc _ Hin) | exact Hcommand].
  - destruct Hm as [Hb Heq]. rewrite length_app. split; [lia |]. by rewrite take_app_le by lia.
Qed.

(** ** The tasks *)

(** Knowing [φ], which only grows true. *)
Definition knows (φ : CmdWorld → Prop) (w : CmdWorld) : Prop := queue_ok w ∧ φ w.

Lemma knows_stable k φ : grows φ → stable (cmd_rely k) (knows φ).
Proof. intros Hφ w w' [Hok H] [[Hk Hg] _]. split; [by apply Hk | by eapply Hφ]. Qed.

Abbreviation works k := (owns cmd_step (cmd_own k) (cmd_rely k)).

(** A call of a task other than [main]. *)
Lemma task_call k {A B} (e : CmdE A) (f : A → prog CmdE B) φ (ψ : A → CmdWorld → Prop) Q :
  k ≠ 1%nat → (∀ x, grows (ψ x)) →
  (∀ w w' x, queue_ok w → φ w → cmd_step _ e w w' x → evolves w w' ∧ main_hand w' = main_hand w ∧ ψ x w') →
  (∀ x, works k (f x) (knows (ψ x)) Q) → works k (let* x := call e in f x) (knows φ) Q.
Proof.
  intros Hk Hψ He Hf. apply (owns_call _ _ _ e f _ (λ x, knows (ψ x)) Q); [| exact Hf].
  intros w w' x [Hok H] Hx. destruct (He w w' x Hok H Hx) as (Hev & Hhand & Hψx). split_and!.
  - by split.
  - by apply knows_stable.
  - split; [by apply Hev | exact Hψx].
Qed.

(** One that changes nothing and teaches nothing. *)
Lemma idle_call k {A B} (e : CmdE A) (f : A → prog CmdE B) φ Q :
  k ≠ 1%nat → grows φ → (∀ w w' x, cmd_step _ e w w' x → w' = w) →
  (∀ x, works k (f x) (knows φ) Q) → works k (let* x := call e in f x) (knows φ) Q.
Proof.
  intros Hk Hφ He Hf. apply (task_call _ _ _ _ (λ _, φ)); [done | done | | exact Hf].
  intros w w' x _ Hw Hx. by rewrite (He _ _ _ Hx).
Qed.

Lemma with_guard_evolves guard w : evolves w (with_guard guard w).
Proof. split; [by intros [] | by split]. Qed.

Lemma insert_evolves i m w :
  names w m i → evolves w (with_pending (<[i := m]> (cm_pending w)) (cm_asked w) w).
Proof.
  intros Hn. split; [| by split]. intros Hok. eapply queue_ok_grow; try exact Hok; try done.
  - cbn. intros j m'. rewrite lookup_insert_Some. intros [[<- <-] | [_ Hj]]; [exact Hn | by apply Hok].
  - cbn. auto.
  - cbn. auto.
Qed.

Lemma remove_evolves i command w :
  command ∈ cm_spawned w → tr_turn_id command = i →
  evolves w (with_pending (delete i (cm_pending w)) (cm_asked w ++ [i]) w).
Proof.
  intros Hc Hi.
  assert (growth w (with_pending (delete i (cm_pending w)) (cm_asked w ++ [i]) w)) as Hg
    by (split; cbn; [done | done | by apply prefix_app_r | done]).
  split; [| exact Hg]. intros Hok. eapply queue_ok_grow; try exact Hok; try done.
  - cbn. intros j m'. rewrite lookup_delete_Some. intros [_ Hj]. by apply Hok.
  - cbn. auto.
  - cbn. intros j [Hj | ->%list_elem_of_singleton]%elem_of_app; [by left | right; by exists command].
Qed.

Lemma ack_evolves m w : settled w m → evolves w (with_live (cm_live w ∖ {[m]}) w).
Proof.
  intros Hset. split; [| by split]. intros Hok. eapply queue_ok_grow; try exact Hok; try done; cbn.
  - apply Hok.
  - intros m' Hm'. destruct (decide (m' = m)) as [-> | Hne]; [by right; right | left; set_solver].
  - auto.
Qed.

(** An acknowledgement of a message that is settled. *)
Lemma ack_call k m {B} (f : result unit string → prog CmdE B) φ Q :
  k ≠ 1%nat → grows φ → (∀ w, φ w → settled w m) →
  (∀ x, works k (f x) (knows φ) Q) → works k (let* x := call (AckMessage m) in f x) (knows φ) Q.
Proof.
  intros Hk Hφ Hset Hf. apply (task_call _ _ _ _ (λ _, φ)); [done | done | | exact Hf].
  intros w w' x _ Hw [-> | ->]; [done |]. pose proof (ack_evolves m w (Hset w Hw)) as Hev.
  split_and!; [exact Hev | done |]. eapply Hφ; [apply Hev | exact Hw].
Qed.

Lemma forward_commands_works rounds Q :
  (∀ w, queue_ok w → Q tt w) → works 0 (forward_commands rounds) (knows (λ _, True)) Q.
Proof.
  intros HQ. assert (∀ w, knows (λ _, True) w → Q tt w) as HQ' by (intros w []; auto).
  induction rounds as [|rounds IH]; cbn [forward_commands]; [exact HQ' |].
  apply (task_call _ _ _ _ (λ x w, match x with
    | Some (Ok (m, payload)) => snd <$> cm_log w !! m = Some payload | _ => True end)); [done | | |].
  - intros [[[m payload]|]|] w w' Hg; [| done..]. intros Hm.
    destruct (cm_log w !! m) as [entry|] eqn:He; [| done]. by rewrite (log_grows _ _ _ _ Hg He).
  - intros w w' x _ _ [-> Hx]. split_and!; [done | done |]. repeat case_match; naive_solver.
  - intros [[[m payload]|]|]; [| exact (owns_pre _ _ _ _ _ _ _ (λ w, id) IH) | exact HQ'].
    destruct (turn_from_slice payload) as [command|error] eqn:Hp.
    + assert (∀ w, snd <$> cm_log w !! m = Some payload → names w m (tr_turn_id command) ∧
        ∃ m id payload, cm_log w !! m = Some (id, payload) ∧ turn_from_slice payload = Ok command) as Hn.
      { intros w. destruct (cm_log w !! m) as [[id p]|] eqn:Hm; [| done]. intros [= ->].
        split; [by exists id, payload, command | by exists m, id, payload]. }
      apply (task_call _ _ _ _ (λ _ w,
        ∃ m id payload, cm_log w !! m = Some (id, payload) ∧ turn_from_slice payload = Ok command));
        [done | intros _; apply sent_grows | |].
      { intros w w' x _ Hw [_ ->]. destruct (Hn w Hw) as [Hnames Hsent]. split_and!; [| done | exact Hsent].
        by apply insert_evolves. }
      intros _. apply (task_call _ _ _ _ (λ _ _, True)); [done | done | | intros _; exact IH].
      intros w w' x _ Hw ->. split_and!; [| done | done]. by apply with_sent_evolves.
    + assert (∀ w, snd <$> cm_log w !! m = Some payload → undecodable w m) as Hu.
      { intros w. destruct (cm_log w !! m) as [[id p]|] eqn:Hm; [| done]. intros [= ->]. by exists id, payload, error. }
      apply (owns_pre _ _ _ _ (knows (λ w, undecodable w m))); [intros w [Hok Hw]; split; [exact Hok | by apply Hu] |].
      apply ack_call; [done | apply undecodable_grows | by left |].
      intros _. eapply owns_pre; [| exact IH]. intros w []. by split.
Qed.

(** What [main] knows: what it has in hand. *)
Definition main_at (start pos : nat) (held : option TurnRequested) (spawned : list TurnRequested)
    (w : CmdWorld) : Prop :=
  queue_ok w ∧ main_hand w = (start, pos, held, spawned).

Lemma main_at_stable start pos held spawned : stable (cmd_rely 1) (main_at start pos held spawned).
Proof. intros w w' [Hok Hh] [[Hk _] Hsame]. split; [by apply Hk | by rewrite Hsame]. Qed.

Lemma with_main_evolves start pos held spawned w :
  cm_spawned w `prefix_of` spawned → (start ≤ pos ≤ length (cm_sent w))%nat →
  spawned ++ option_list held = drop start (take pos (cm_sent w)) →
  evolves w (with_main start pos held spawned w).
Proof.
  intros Hpre Hb Heq. split; [| by split]. intros [Hp Hs Ha Hc Hm]. split; cbn; [done | done | | done | done].
  intros i (command & Hin & Hi)%Ha. exists command. split; [by eapply elem_prefix | done].
Qed.

Lemma main_step start pos held spawned w :
  queue_ok w → evolves w (with_main start pos held spawned w) →
  cmd_own 1 w (with_main start pos held spawned w) ∧ stable (cmd_rely 1) (main_at start pos held spawned) ∧
  main_at start pos held spawned (with_main start pos held spawned w).
Proof.
  intros Hok Hev. split_and!; [by split | apply main_at_stable | split; [by apply Hev | done]].
Qed.

Lemma take_commands_works rounds start pos spawned Q :
  (∀ r w, queue_ok w → Q r w) → works 1 (take_commands rounds) (main_at start pos None spawned) Q.
Proof.
  intros HQ. assert (∀ r s p h l w, main_at s p h l w → Q r w) as HQ' by (intros r s p h l w []; auto).
  revert pos spawned. induction rounds as [|rounds IH]; intros pos spawned; cbn [take_commands]; [by intros w; apply HQ' |].
  apply (owns_call _ _ _ _ _ _ (λ x, match x with
    | Ok command => main_at start (S pos) (Some command) spawned
    | Err _ => main_at start pos None spawned end)).
  - intros w w' x [Hok Hh] Hx. pose proof Hh as [= Hst Hpos Hheld Hsp]. destruct x as [command|error].
    + destruct Hx as (_ & Hc & ->). rewrite Hst, Hpos, Hsp. rewrite Hpos in Hc. apply main_step; [exact Hok |].
      pose proof (qo_main w Hok) as [Hb Heq]. rewrite Hst, Hpos, Hheld, Hsp in Heq. rewrite Hst, Hpos in Hb.
      apply with_main_evolves; [by rewrite Hsp | split; [lia | by apply lookup_lt_Some in Hc] |].
      rewrite app_nil_r in Heq. rewrite (take_S_r _ _ _ Hc), drop_app_le, <- Heq; [done |].
      rewrite length_take. lia.
    + destruct Hx as [-> _]. split_and!; [by split | apply main_at_stable | by split].
  - intros [command|error]; [| intros w; apply HQ'].
    apply (owns_call _ _ _ _ _ _ (λ _, main_at start (S pos) None (spawned ++ [command]))); [| intros _; apply IH].
    intros w w' x [Hok Hh] ->. injection Hh as Hst Hpos Hheld Hsp. rewrite Hst, Hpos, Hsp.
    apply main_step; [exact Hok |]. pose proof (qo_main w Hok) as [Hb Heq].
    rewrite Hst, Hpos in Hb. rewrite Hst, Hpos, Hheld, Hsp in Heq.
    apply with_main_evolves; [rewrite Hsp; by apply prefix_app_r | exact Hb |]. rewrite <- Heq. by rewrite app_nil_r.
Qed.

Lemma main_loop_works rounds Q :
  (∀ r w, queue_ok w → Q r w) → works 1 (main_loop rounds) (main_at 0 0 None []) Q.
Proof.
  intros HQ. unfold main_loop.
  intros w w' x [Hok Hh] Hx. cbn in Hx. subst w'. injection Hh as Hst Hpos Hheld Hsp. rewrite Hheld, Hsp.
  destruct (main_step (length (cm_sent w)) (length (cm_sent w)) None [] w) as (Hown & Hstable & Hat); [exact Hok | |].
  - apply with_main_evolves; [by rewrite Hsp | lia |]. cbn. rewrite drop_ge; [done |]. rewrite length_take. lia.
  - split; [exact Hown |]. eexists. split_and!; [exact Hstable | exact Hat |]. by apply take_commands_works.
Qed.

Lemma turn_calls_works k turn_id script Q :
  k ≠ 1%nat → (∀ w, queue_ok w → Q tt w) →
  works k (turn_calls turn_id script)
    (knows (λ w, ∃ command, command ∈ cm_spawned w ∧ tr_turn_id command = turn_id)) Q.
Proof.
  intros Hk HQ. set (φ := λ w, ∃ command, command ∈ cm_spawned w ∧ tr_turn_id command = turn_id).
  assert (grows φ) as Hφ.
  { intros w w' Hg (command & Hin & Hi). exists command. split; [by eapply elem_prefix; [apply Hg |] | done]. }
  induction script as [|[] script IH]; cbn [turn_calls]; [by intros w []; auto | |].
  - unfold ack_turn_requested.
    apply (task_call _ _ _ _ (λ x w, φ w ∧ match x with Some m => settled w m | None => True end)); [done | | |].
    + intros [m|] w w' Hg [H Hset]; (split; [by eapply Hφ |]); [by eapply settled_grows | done].
    + intros w w' x Hok Hw (_ & Hx & ->). destruct Hw as (command & Hin & Hi).
      pose proof (remove_evolves _ _ _ Hin Hi) as Hev. split; [exact Hev | split; [done |]].
      split; [eapply Hφ; [apply Hev | by exists command] |]. destruct x as [m|]; [| done].
      right. exists turn_id. split; [| cbn; set_solver]. eapply names_grows; [apply Hev |]. by apply Hok.
    + intros [m|]; [apply ack_call; [done | | by intros w [] |] |].
      * intros w w' Hg [H Hset]. split; [by eapply Hφ | by eapply settled_grows].
      * intros x. eapply owns_pre; [| exact IH]. intros w [Hok [Hw _]]. by split.
      * cbn [prog_bind]. eapply owns_pre; [| exact IH]. intros w [Hok [Hw _]]. by split.
  - unfold progress_turn_requested.
    apply (task_call _ _ _ _ (λ _, φ)); [done | done | |].
    { intros w w' x _ Hw [_ ->]. split_and!; [apply with_guard_evolves | done | exact Hw]. }
    intros _. apply idle_call; [done | done | by intros w w' x [] |].
    intros [m|].
    + apply idle_call; [done | done | by intros w w' x Hx |]. intros r.
      apply (task_call _ _ _ _ (λ _, φ)); [done | done | | intros _; exact IH].
      intros w w' x _ Hw ->. split_and!; [apply with_guard_evolves | done | exact Hw].
    + apply (task_call _ _ _ _ (λ _, φ)); [done | done | | intros _; exact IH].
      intros w w' x _ Hw ->. split_and!; [apply with_guard_evolves | done | exact Hw].
Qed.

Lemma publish_works k command (Q : result unit ChatBusError → CmdWorld → Prop) :
  k ≠ 1%nat →
  (∀ r w, queue_ok w → (r = Ok tt → tr_turn_id command ∈ (cm_log w).*1) → Q r w) →
  works k (publish_turn_requested command) (knows (λ _, True)) Q.
Proof.
  intros Hk HQ. unfold publish_turn_requested.
  destruct (turn_to_vec command) as [payload|error]; [| by intros w [Hok _]; apply HQ].
  apply (task_call _ _ _ _ (λ _ _, True)); [done | done | |].
  { intros w w' x _ _ [-> | [_ ->]]; [done |]. split_and!; [apply take_message_evolves | done | done]. }
  intros [[]|error]; [| by intros w [Hok _]; apply HQ].
  apply (task_call _ _ _ _ (λ x w, x = Ok tt → tr_turn_id command ∈ (cm_log w).*1)); [done | | |].
  - intros x w w' [Hl _ _ _] H Hx. apply (elem_prefix _ (cm_log w).*1); [| by apply H].
    destruct Hl as [more ->]. rewrite fmap_app. by apply prefix_app_r.
  - intros w w' x _ _ [-> Hx]. split_and!; [done | done |]. by intros ->.
  - intros [[]|error] w [Hok Hw]; (apply HQ; [exact Hok |]); [intros _; by apply Hw | done].
Qed.

Lemma command_task_works rounds Q :
  (∀ w, queue_ok w → Q tt w) → works 0 (command_task rounds) (knows (λ _, True)) Q.
Proof.
  intros HQ. apply idle_call; [done | done | by intros w w' x Hx |].
  intros [[]|error]; [by apply forward_commands_works | intros w []; auto].
Qed.

Lemma turn_task_works k j script Q :
  k ≠ 1%nat → (∀ w, queue_ok w → Q tt w) → works k (turn_task j script) (knows (λ _, True)) Q.
Proof.
  intros Hk HQ. apply (task_call _ _ _ _ (λ command w, command ∈ cm_spawned w)); [done | | |].
  - intros command w w' Hg H. by eapply elem_prefix; [apply Hg |].
  - intros w w' command _ _ [-> Hx]. split_and!; [done | done |]. by eapply list_elem_of_lookup_2.
  - intros command. eapply owns_pre; [| by apply turn_calls_works]. intros w [Hok Hw]. split; [exact Hok | by exists command].
Qed.

(** ** The whole process *)

Definition spawned {A} (p : prog CmdE A) : prog CmdE (result unit ChatBusError) := let* _ := p in Ret (Ok tt).

(** The forwarding task, [main], the publishers of [commands], and a task of the
    worker for each script. *)
Definition cmd_threads (rounds : nat) (commands : list TurnRequested) (scripts : list (list bool))
    : list (prog CmdE (result unit ChatBusError)) :=
  spawned (command_task rounds) :: spawned (main_loop rounds) ::
  (publish_turn_requested <$> commands) ++ imap (λ j script, spawned (turn_task j script)) scripts.

(** What thread [k] promises when it returns. *)
Definition promises (commands : list TurnRequested) (k : nat) (r : result unit ChatBusError) (w : CmdWorld) : Prop :=
  ∀ j command, k = (2 + j)%nat → commands !! j = Some command → r = Ok tt →
    tr_turn_id command ∈ (cm_log w).*1.

Lemma spawned_works k {A} (p : prog CmdE A) P commands :
  works k p P (λ _, queue_ok) → (∀ j, k = (2 + j)%nat → commands !! j = None) →
  works k (spawned p) P (promises commands k).
Proof.
  intros Hp Hk. apply (owns_bind _ _ _ _ _ _ (λ _, queue_ok)); [exact Hp |].
  intros _ w _ j command -> Hj. by rewrite Hk in Hj.
Qed.

Lemma no_commands_ok : queue_ok no_commands.
Proof. split; cbn; [done | lia | set_solver | set_solver | done]. Qed.

Lemma cmd_threads_own rounds commands scripts :
  owners cmd_step cmd_own cmd_rely (promises commands) (no_commands, cmd_threads rounds commands scripts).
Proof.
  pose proof no_commands_ok as Hok. intros [|[|k]] p Hp; cbn [snd lookup list_lookup cmd_threads] in Hp.
  - injection Hp as <-. exists (knows (λ _, True)). split_and!; [by apply knows_stable | done |].
    apply spawned_works; [by apply command_task_works | done].
  - injection Hp as <-. exists (main_at 0 0 None []). split_and!; [apply main_at_stable | done |].
    apply spawned_works; [by apply main_loop_works | done].
  - exists (knows (λ _, True)). split_and!; [by apply knows_stable | done |].
    apply lookup_app_Some in Hp as [Hp | [Hlen Hp]].
    + apply list_lookup_fmap_Some in Hp as (command & -> & Hc). apply publish_works; [done |].
      intros r w _ Hr j c [= <-] Hj Heq. rewrite Hc in Hj. injection Hj as <-. by apply Hr.
    + rewrite length_fmap in Hlen. apply list_lookup_imap_Some in Hp as (script & Hs & ->).
      apply spawned_works; [by apply turn_task_works |]. intros j [= <-]. by apply lookup_ge_None.
Qed.

End queue.

(** ** Stops, and the events of all conversations

    Neither is kept for a receiver that is not there: the tasks relay what they are
    handed. *)

Inductive RelayE : Type → Type :=
| PublishStop (subject : string) (payload : bytes) : RelayE (result unit string)
| NextStop : RelayE (option bytes)
| SendStop (signal : StopSignal) : RelayE unit
| NextEvent : RelayE (option (result Delivery string))
| SendEvent (event : SequencedChatEvent) : RelayE unit.

Inductive RelayObs : Type := mkRelayObs (A : Type) (e : RelayE A) (x : A).

Section relays.
Context {TC : TurnCodec} {CC : ChatCodec}.

Definition publish_stop (worker_id t c turn : string) : prog RelayE (result unit ChatBusError) :=
  match stop_to_vec (mkStop t c turn) with
  | Err error => Ret (Err (Payload error))
  | Ok payload =>
      let* r := call (PublishStop (subjects_control worker_id) payload) in
      Ret (result_map_err (λ error, Payload ("publish stop: " +:+ error)) r)
  end.

Fixpoint forward_stops (rounds : nat) : prog RelayE unit :=
  match rounds with
  | O => Ret tt
  | S rounds =>
      let* payload := call NextStop in
      match payload with
      | None => Ret tt
      | Some payload =>
          match stop_from_slice payload with
          | Ok signal => let* _ := call (SendStop signal) in forward_stops rounds
          | Err _ => forward_stops rounds
          end
      end
  end.

Fixpoint forward_all_events (rounds : nat) : prog RelayE unit :=
  match rounds with
  | O => Ret tt
  | S rounds =>
      let* message := call NextEvent in
      match message with
      | None => Ret tt
      | Some (Err _) => forward_all_events rounds
      | Some (Ok message) =>
          match message.1 with
          | Err _ => forward_all_events rounds
          | Ok sequence =>
              match event_from_slice message.2 with
              | Ok event =>
                  let* _ := call (SendEvent (mkSequenced (show_uint sequence) (se_envelope event))) in
                  forward_all_events rounds
              | Err _ => forward_all_events rounds
              end
          end
      end
  end.

(** What the source handed over, decoded, and what the task sent on. *)
Definition stop_received (o : RelayObs) : option StopSignal :=
  match o with
  | mkRelayObs _ NextStop (Some payload) => match stop_from_slice payload with Ok s => Some s | Err _ => None end
  | _ => None
  end.
Definition stop_sent (o : RelayObs) : option StopSignal :=
  match o with mkRelayObs _ (SendStop signal) _ => Some signal | _ => None end.

Definition event_received (o : RelayObs) : option SequencedChatEvent :=
  match o with
  | mkRelayObs _ NextEvent (Some (Ok (Ok sequence, payload))) =>
      match event_from_slice payload with
      | Ok event => Some (mkSequenced (show_uint sequence) (se_envelope event))
      | Err _ => None
      end
  | _ => None
  end.
Definition event_sent (o : RelayObs) : option SequencedChatEvent :=
  match o with mkRelayObs _ (SendEvent event) _ => Some event | _ => None end.

(** Fact: the stops a worker is told of are those published to its subject that
    decode, in order, each once. *)
Theorem stops_are_relayed rounds tr :
  exec mkRelayObs (forward_stops rounds) tr tt → omap stop_sent tr = omap stop_received tr.
Proof.
  revert tr. induction rounds as [|rounds IH]; intros tr; cbn [forward_stops]; [by intros [-> _] |].
  destruct tr as [|o tr]; [done |]. intros ([payload|] & -> & Hx); cbn in Hx |- *; [| by destruct Hx as [-> _]].
  destruct (stop_from_slice payload) as [signal|error]; cbn in Hx |- *; [| by apply IH].
  destruct tr as [|o tr]; [done |]. destruct Hx as ([] & -> & Hx). cbn. by rewrite (IH _ Hx).
Qed.

(** Fact: the same for the events of all conversations, each under its sequence in
    the stream. *)
Theorem all_events_are_relayed rounds tr :
  exec mkRelayObs (forward_all_events rounds) tr tt → omap event_sent tr = omap event_received tr.
Proof.
  revert tr. induction rounds as [|rounds IH]; intros tr; cbn [forward_all_events]; [by intros [-> _] |].
  destruct tr as [|o tr]; [done |]. intros ([[[[sequence|] payload]|]|] & -> & Hx); cbn in Hx |- *;
    [| by apply IH | by apply IH | by destruct Hx as [-> _]].
  destruct (event_from_slice payload) as [event|error]; cbn in Hx |- *; [| by apply IH].
  destruct tr as [|o tr]; [done |]. destruct Hx as ([] & -> & Hx). cbn. by rewrite (IH _ Hx).
Qed.

(** Fact: a stop is published under the control subject of its worker, in a payload
    that its task decodes to it. *)
Theorem stop_reaches_its_task worker_id t c turn tr r :
  exec mkRelayObs (publish_stop worker_id t c turn) tr r → r = Ok tt →
  ∃ payload, tr = [mkRelayObs _ (PublishStop (subjects_control worker_id) payload) (Ok tt)] ∧
    stop_received (mkRelayObs _ NextStop (Some payload)) = Some (mkStop t c turn).
Proof.
  unfold publish_stop. destruct (stop_to_vec (mkStop t c turn)) as [payload|] eqn:Hs;
    [| intros [_ <-]; discriminate].
  cbn. destruct tr as [|o tr]; [done |]. intros ([[]|] & -> & -> & <-) Hr; [| discriminate].
  exists payload. split; [done |]. by rewrite (stop_codec_roundtrip _ _ Hs).
Qed.
End relays.

(** ** Witnesses *)

Module CommandDemo.
Definition command (turn : string) : TurnRequested := mkTurnRequested CONTRACT_VERSION turn "acme" "u1" "c1" turn 0.

#[export] Instance TurnRequested_eq_dec : EqDecision TurnRequested.
Proof. solve_decision. Defined.
#[export] Instance StopSignal_eq_dec : EqDecision StopSignal.
Proof. solve_decision. Defined.

(** A codec for the commands and stops of the example. *)
Definition turn_vec (c : TurnRequested) : result bytes string :=
  let i := tr_turn_id c in
  if is_empty i then Err "empty" else if decide (c = command i) then Ok (bytes_of_string i) else Err "other".
Definition turn_slice (b : bytes) : result TurnRequested string :=
  match b with [] => Err "empty" | _ => Ok (command (string_of_bytes b)) end.
Definition stop_vec (s : StopSignal) : result bytes string :=
  let i := sg_turn_id s in
  if decide (s = mkStop "acme" "c1" i) then Ok (bytes_of_string i) else Err "other".
Definition stop_slice (b : bytes) : result StopSignal string := Ok (mkStop "acme" "c1" (string_of_bytes b)).

Definition codec : TurnCodec.
Proof.
  refine {| turn_to_vec := turn_vec; turn_from_slice := turn_slice; stop_to_vec := stop_vec;
            stop_from_slice := stop_slice |}.
  - intros c b. unfold turn_vec, turn_slice. destruct (tr_turn_id c) as [|a i] eqn:Hi; [done |].
    cbn [is_empty]. destruct (decide _) as [-> |]; [| done]. intros [= <-].
    change (Ok (command (string_of_bytes (bytes_of_string (String a i)))) = Ok (command (String a i)) :> result TurnRequested string).
    by rewrite string_of_bytes_of_string.
  - intros s b. unfold stop_vec, stop_slice. destruct (decide _) as [-> |]; [| done]. intros [= <-].
    cbn [sg_turn_id]. by rewrite string_of_bytes_of_string.
Defined.

#[local] Existing Instance codec.

(** One publisher, and one task that shows progress and then acknowledges. *)
Definition threads : list (prog CmdE (result unit ChatBusError)) := cmd_threads 2 [command "t1"] [[false; true]].

Definition payload : bytes := bytes_of_string "t1".

(** What is left when the queue has been worked off: a foreign message that was no
    command, and the command. *)
Definition finished : CmdWorld :=
  mkCmd [("x", []); ("t1", payload)] (({[1%nat]} ∪ ({[0%nat]} ∪ ∅)) ∖ {[0%nat]} ∖ {[1%nat]}) ["t1"; "x"] ∅
    (delete "t1" (<["t1" := 1%nat]> ∅)) false ["t1"] [command "t1"] 0 1 None [command "t1"].

Ltac task k x := eapply rtc_l; [eapply (pool_call _ _ _ _ _ k _ _ _ x); [reflexivity |] |].

Lemma commands_run :
  ∃ ts', rtc (pool_step cmd_step cmd_env) (no_commands, threads) (finished, ts') ∧ ts' !! 2%nat = Some (Ret (Ok tt)).
Proof.
  eexists. split.
  - eapply rtc_l; [apply pool_env, (foreign_publish "x" []) |].
    task 2%nat (@Ok unit string tt); [right; split; [cbn; set_solver | reflexivity] |].
    task 2%nat (@Ok unit string tt); [split; [reflexivity | cbn; set_solver] |].
    task 1%nat tt; [reflexivity |].
    task 0%nat (@Ok unit string tt); [reflexivity |].
    task 0%nat (Some (@Ok (nat * bytes) string (0%nat, []))); [split; [reflexivity | split; [cbn; set_solver | reflexivity]] |].
    task 0%nat (@Ok unit string tt); [right; reflexivity |].
    task 0%nat (Some (@Ok (nat * bytes) string (1%nat, payload))); [split; [reflexivity | split; [cbn; set_solver | reflexivity]] |].
    task 0%nat tt; [split; reflexivity |].
    task 0%nat tt; [reflexivity |].
    task 1%nat (@Ok TurnRequested string (command "t1")); [split; [cbn; lia | split; reflexivity] |].
    task 1%nat tt; [reflexivity |].
    task 3%nat (command "t1"); [split; reflexivity |].
    task 3%nat tt; [split; reflexivity |].
    task 3%nat (Some 1%nat); [split; reflexivity |].
    task 3%nat (@Ok unit string tt); [reflexivity |].
    task 3%nat tt; [reflexivity |].
    task 3%nat (Some 1%nat); [split; [reflexivity | split; reflexivity] |].
    task 3%nat (@Ok unit string tt); [right; reflexivity |].
    apply rtc_refl.
  - reflexivity.
Qed.
End CommandDemo.

#[local] Existing Instance CommandDemo.codec.

