(* ===== verification/ChatStore.v ===== *)
(** * The chat repository (crates/storage/src/lib.rs)

    Conversations, their messages and the record of their turns, twice: the
    in-memory repository, and the Postgres one as functions on the tables of
    migrations/0001_pg_cutover.sql.  Each operation takes the instant and the id
    the code reads from the clock and from [Ulid::new].  A Postgres operation is
    one statement or one transaction; an operation that fails leaves the tables as
    they were.  Failures of the connection itself are not modelled here: to the
    caller they are [StInternal], which ChatWorker.v lets every call answer. *)

From S2P Require Import Prelude Text Events Contracts.

Local Open Scope Z_scope.

Inductive StorageError : Type :=
| StNotFound
| StForbidden
| StStaleParent
| StInternal (message : string).

Definition storage_error_to_string (e : StorageError) : string :=
  match e with
  | StNotFound => "not found"
  | StForbidden => "forbidden"
  | StStaleParent => "stale parent"
  | StInternal message => "storage error: " +:+ message
  end.

(** What one commit writes, as the two implementations take it. *)
Record TurnCommit : Type := mkCommit {
  tc_turn_id : string;
  tc_user_message_id : string;
  tc_user_text : string;
  tc_parent_message_id : option string;
  tc_assistant_message_id : string;
  tc_assistant_text : string;
  tc_citations : list CitationEntry;
}.

Definition DEFAULT_TITLE : string := "New chat".
Definition USER_INTERRUPTED : string := "user_interrupted".

(** The rows of the listing, the most recently updated first; the order of equal
    instants is not fixed by the code. *)
Definition newest_first (x y : ConversationSummary) : Prop := cs_updated_at y ≤ cs_updated_at x.

#[export] Instance newest_first_dec x y : Decision (newest_first x y).
Proof. unfold newest_first. apply _. Defined.

(** ** In memory *)

Record StoredConversation : Type := mkStored {
  sc_id : string;
  sc_tenant_id : string;
  sc_user_id : string;
  sc_title : string;
  sc_updated_at : DateTime;
  sc_deleted_at : option DateTime;
  sc_next_message_ordinal : Z;
  sc_messages : list MessageDto;
}.

Abbreviation Repo := (gmap string StoredConversation).

Definition visible_to (row : StoredConversation) (tenant_id user_id : string) : bool :=
  bool_decide (sc_deleted_at row = None) && bool_decide (sc_tenant_id row = tenant_id)
  && bool_decide (sc_user_id row = user_id).

Definition ensure_visible (row : StoredConversation) (tenant_id user_id : string)
  : result unit StorageError :=
  if visible_to row tenant_id user_id then Ok tt
  else if bool_decide (sc_tenant_id row = tenant_id) then Err StForbidden
  else Err StNotFound.

Definition to_detail (row : StoredConversation) : ConversationDetail :=
  mkDetail (sc_id row) (sc_title row) (sc_messages row) (sc_updated_at row).

Definition set_title (title : string) (now : DateTime) (row : StoredConversation)
  : StoredConversation :=
  mkStored (sc_id row) (sc_tenant_id row) (sc_user_id row) title now (sc_deleted_at row)
    (sc_next_message_ordinal row) (sc_messages row).

Definition set_deleted (now : DateTime) (row : StoredConversation) : StoredConversation :=
  mkStored (sc_id row) (sc_tenant_id row) (sc_user_id row) (sc_title row) (sc_updated_at row)
    (Some now) (sc_next_message_ordinal row) (sc_messages row).

Section memory.
Context (tenant_id user_id : string).

(** [.get(conversation_id).ok_or(NotFound)?] and [ensure_visible(…)?] *)
Definition visible_row (repo : Repo) (conversation_id : string)
  : result StoredConversation StorageError :=
  let? row := ok_or (repo !! conversation_id) StNotFound in
  let? _ := ensure_visible row tenant_id user_id in
  Ok row.

Definition repo_list_conversations (repo : Repo) : list ConversationSummary :=
  merge_sort newest_first
    ((λ row, mkSummary (sc_id row) (sc_title row) (sc_updated_at row)) <$>
     List.filter (λ row, visible_to row tenant_id user_id) (snd <$> map_to_list repo)).

Definition repo_create_conversation (now : DateTime) (id : string) (title : option string)
    (repo : Repo) : Repo * result ConversationDetail StorageError :=
  let row := mkStored id tenant_id user_id (default DEFAULT_TITLE title) now None 1 [] in
  (<[id := row]> repo, Ok (to_detail row)).

Definition repo_get_conversation (conversation_id : string) (repo : Repo)
  : result ConversationDetail StorageError :=
  let? row := visible_row repo conversation_id in Ok (to_detail row).

Definition repo_rename_conversation (now : DateTime) (conversation_id title : string) (repo : Repo)
  : Repo * result ConversationDetail StorageError :=
  match visible_row repo conversation_id with
  | Err e => (repo, Err e)
  | Ok row =>
      let row := set_title title now row in
      (<[conversation_id := row]> repo, Ok (to_detail row))
  end.

Definition repo_rename_conversation_if_default (now : DateTime) (conversation_id title : string)
    (repo : Repo) : Repo * result (option ConversationDetail) StorageError :=
  match visible_row repo conversation_id with
  | Err e => (repo, Err e)
  | Ok row =>
      if bool_decide (sc_title row ≠ DEFAULT_TITLE) then (repo, Ok None)
      else
        let row := set_title title now row in
        (<[conversation_id := row]> repo, Ok (Some (to_detail row)))
  end.

Definition repo_delete_conversation (now : DateTime) (conversation_id : string) (repo : Repo)
  : Repo * result unit StorageError :=
  match visible_row repo conversation_id with
  | Err e => (repo, Err e)
  | Ok row => (<[conversation_id := set_deleted now row]> repo, Ok tt)
  end.

Definition repo_assert_parent_tail (conversation_id : string) (parent_message_id : option string)
    (repo : Repo) : result unit StorageError :=
  let? row := visible_row repo conversation_id in
  let tail := md_id <$> last (sc_messages row) in
  if bool_decide (tail = parent_message_id) then Ok tt else Err StStaleParent.

Definition repo_record_turn_failed (conversation_id : string) (repo : Repo)
  : result unit StorageError :=
  let? _ := visible_row repo conversation_id in Ok tt.

(** [.iter().position(|message| message.id == parent_id)] *)
Definition position_of (id : string) (messages : list MessageDto) : option nat :=
  fst <$> list_find (λ message, md_id message = id) messages.

(** The two messages of a turn. *)
Definition user_message (commit : TurnCommit) (now : DateTime) : MessageDto :=
  mkMessageDto (tc_user_message_id commit) RoleUser (tc_user_text commit)
    (tc_parent_message_id commit) [] (Some (tc_turn_id commit)) false None now.

Definition assistant_message (commit : TurnCommit) (interrupted : bool) (created : DateTime)
  : MessageDto :=
  mkMessageDto (tc_assistant_message_id commit) RoleAssistant (tc_assistant_text commit)
    (Some (tc_user_message_id commit)) (tc_citations commit) (Some (tc_turn_id commit)) interrupted
    (if interrupted then Some USER_INTERRUPTED else None) created.

Definition retain_len (parent : option string) (messages : list MessageDto) : option nat :=
  match parent with
  | Some parent => S <$> position_of parent messages
  | None => Some 0%nat
  end.

(** [commit_turn_with_metadata] *)
Definition commit_turn_with_metadata (now : DateTime) (interrupted : bool) (conversation_id : string)
    (commit : TurnCommit) (repo : Repo) : Repo * result ConversationDetail StorageError :=
  match visible_row repo conversation_id with
  | Err e => (repo, Err e)
  | Ok row =>
      match retain_len (tc_parent_message_id commit) (sc_messages row) with
      | None => (repo, Err StStaleParent)
      | Some retain_len =>
          let messages := take retain_len (sc_messages row) ++
            [user_message commit now; assistant_message commit interrupted now] in
          let row := mkStored (sc_id row) (sc_tenant_id row) (sc_user_id row) (sc_title row) now
                       (sc_deleted_at row) (Z.of_nat (length messages) + 1) messages in
          (<[conversation_id := row]> repo, Ok (to_detail row))
      end
  end.

Definition repo_commit_turn now := commit_turn_with_metadata now false.
Definition repo_commit_interrupted_turn now := commit_turn_with_metadata now true.
End memory.

(** ** In Postgres *)

Record ConversationRow : Type := mkConvRow {
  cr_user_id : string;
  cr_title : string;
  cr_next_message_ordinal : Z;
  cr_updated_at : DateTime;
  cr_deleted_at : option DateTime;
}.

(** serde_json of the citations column. *)
Class CitationJson := {
  json_value : Type;
  citations_to_value : list CitationEntry → result json_value string;
  citations_from_value : json_value → result (list CitationEntry) string;
  citations_roundtrip cs v : citations_to_value cs = Ok v → citations_from_value v = Ok cs;
  (** the literal ['[]'] of the user message *)
  empty_array : json_value;
  empty_array_reads : citations_from_value empty_array = Ok [];
}.

Record MessageRow {CJ : CitationJson} : Type := mkMessageRow {
  mr_user_id : string;
  mr_conversation_id : string;
  mr_role : string;
  mr_content : string;
  mr_parent_message_id : option string;
  mr_citations : json_value;
  mr_turn_id : option string;
  mr_interrupted : bool;
  mr_finish_reason : option string;
  mr_ordinal : Z;
  mr_created_at : DateTime;
}.

Record TurnRow : Type := mkTurnRow {
  tn_user_id : string;
  tn_conversation_id : string;
  tn_user_message_id : option string;
  tn_assistant_message_id : option string;
  tn_parent_message_id : option string;
  tn_status : string;
  tn_error : option string;
  tn_updated_at : DateTime;
}.

(** The tables, by primary key. *)
Record Tables {CJ : CitationJson} : Type := mkTables {
  tb_tenant : gset string;
  tb_app_user : gmap (string * string) DateTime;
  tb_conversation : gmap (string * string) ConversationRow;
  tb_message : gmap (string * string) MessageRow;
  tb_turn : gmap (string * string) TurnRow;
}.

Arguments mkMessageRow {CJ}.
Arguments mkTables {CJ}.

Section postgres.
Context {CJ : CitationJson} (tenant_id user_id : string).

Definition set_conversations (rows : gmap (string * string) ConversationRow) (db : Tables) : Tables :=
  mkTables (tb_tenant db) (tb_app_user db) rows (tb_message db) (tb_turn db).
Definition set_messages (rows : gmap (string * string) MessageRow) (db : Tables) : Tables :=
  mkTables (tb_tenant db) (tb_app_user db) (tb_conversation db) rows (tb_turn db).
Definition set_turns (rows : gmap (string * string) TurnRow) (db : Tables) : Tables :=
  mkTables (tb_tenant db) (tb_app_user db) (tb_conversation db) (tb_message db) rows.

(** [ensure_principal] *)
Definition ensure_principal (now : DateTime) (db : Tables) : Tables :=
  mkTables ({[tenant_id]} ∪ tb_tenant db) (<[(tenant_id, user_id) := now]> (tb_app_user db))
    (tb_conversation db) (tb_message db) (tb_turn db).

(** [WHERE tenant_id = … AND user_id = … AND conversation_id = … AND deleted_at IS NULL] *)
Definition live_row (conversation_id : string) (db : Tables) : option ConversationRow :=
  row ← tb_conversation db !! (tenant_id, conversation_id);
  if bool_decide (cr_user_id row = user_id) && bool_decide (cr_deleted_at row = None)
  then Some row else None.

(** [visible_conversation] *)
Definition visible_conversation (now : DateTime) (conversation_id : string) (db : Tables)
  : Tables * result ConversationRow StorageError :=
  let db := ensure_principal now db in
  (db, ok_or (live_row conversation_id db) StNotFound).

(** The rows of a conversation, [ORDER BY ordinal ASC]. *)
Definition in_conversation (conversation_id : string) (kr : (string * string) * MessageRow) : bool :=
  bool_decide (kr.1.1 = tenant_id) && bool_decide (mr_user_id kr.2 = user_id)
  && bool_decide (mr_conversation_id kr.2 = conversation_id).

Definition ordinal_le (x y : (string * string) * MessageRow) : Prop :=
  mr_ordinal x.2 ≤ mr_ordinal y.2.

#[export] Instance ordinal_le_dec x y : Decision (ordinal_le x y).
Proof. unfold ordinal_le. apply _. Defined.

Definition message_rows (conversation_id : string) (db : Tables)
  : list ((string * string) * MessageRow) :=
  merge_sort ordinal_le
    (List.filter (in_conversation conversation_id) (map_to_list (tb_message db))).

(** [pg_message_to_dto] *)
Definition pg_role (role : string) : MessageRole :=
  if bool_decide (role = "assistant") then RoleAssistant
  else if bool_decide (role = "system") then RoleSystem else RoleUser.

Definition pg_message_to_dto (kr : (string * string) * MessageRow) : result MessageDto StorageError :=
  let '((_, message_id), row) := kr in
  match citations_from_value (mr_citations row) with
  | Err error => Err (StInternal ("decode citations: " +:+ error))
  | Ok citations =>
      Ok (mkMessageDto message_id (pg_role (mr_role row)) (mr_content row)
            (mr_parent_message_id row) citations (mr_turn_id row) (mr_interrupted row)
            (mr_finish_reason row) (mr_created_at row))
  end.

(** [rows.into_iter().map(…).collect()] stops at the first error. *)
Fixpoint collect_rows {A B E} (f : A → result B E) (l : list A) : result (list B) E :=
  match l with
  | [] => Ok []
  | x :: l => let? y := f x in let? ys := collect_rows f l in Ok (y :: ys)
  end.

Definition list_pg_messages (conversation_id : string) (db : Tables)
  : result (list MessageDto) StorageError :=
  collect_rows pg_message_to_dto (message_rows conversation_id db).

Definition pg_conversation_detail (conversation_id : string) (row : ConversationRow) (db : Tables)
  : result ConversationDetail StorageError :=
  let? messages := list_pg_messages conversation_id db in
  Ok (mkDetail conversation_id (cr_title row) messages (cr_updated_at row)).

Definition pg_list_conversations (now : DateTime) (db : Tables)
  : Tables * list ConversationSummary :=
  let db := ensure_principal now db in
  (db, merge_sort newest_first
         ((λ kr : (string * string) * ConversationRow,
             mkSummary kr.1.2 (cr_title kr.2) (cr_updated_at kr.2)) <$>
          List.filter (λ kr, bool_decide (kr.1.1 = tenant_id) && bool_decide (cr_user_id kr.2 = user_id)
                             && bool_decide (cr_deleted_at kr.2 = None))
            (map_to_list (tb_conversation db)))).

Definition pg_create_conversation (now : DateTime) (id : string) (title : option string) (db : Tables)
  : Tables * result ConversationDetail StorageError :=
  let db := ensure_principal now db in
  match tb_conversation db !! (tenant_id, id) with
  | Some _ => (db, Err (StInternal "duplicate key value violates unique constraint"))
  | None =>
      let row := mkConvRow user_id (default DEFAULT_TITLE title) 1 now None in
      (set_conversations (<[(tenant_id, id) := row]> (tb_conversation db)) db,
       Ok (mkDetail id (cr_title row) [] (cr_updated_at row)))
  end.

Definition pg_get_conversation (now : DateTime) (conversation_id : string) (db : Tables)
  : Tables * result ConversationDetail StorageError :=
  let '(db, r) := visible_conversation now conversation_id db in
  (db, let? row := r in pg_conversation_detail conversation_id row db).

Definition with_title (title : string) (now : DateTime) (row : ConversationRow) : ConversationRow :=
  mkConvRow (cr_user_id row) title (cr_next_message_ordinal row) now (cr_deleted_at row).

Definition update_conversation (conversation_id : string) (row : ConversationRow) (db : Tables)
  : Tables :=
  set_conversations (<[(tenant_id, conversation_id) := row]> (tb_conversation db)) db.

Definition pg_rename_conversation (now : DateTime) (conversation_id title : string) (db : Tables)
  : Tables * result ConversationDetail StorageError :=
  match live_row conversation_id db with
  | None => (db, Err StNotFound)
  | Some row =>
      let row := with_title title now row in
      let db := update_conversation conversation_id row db in
      (db, pg_conversation_detail conversation_id row db)
  end.

Definition pg_rename_conversation_if_default (now : DateTime) (conversation_id title : string)
    (db : Tables) : Tables * result (option ConversationDetail) StorageError :=
  match live_row conversation_id db with
  | Some row =>
      if bool_decide (cr_title row = DEFAULT_TITLE) then
        let row := with_title title now row in
        let db := update_conversation conversation_id row db in
        (db, let? detail := pg_conversation_detail conversation_id row db in Ok (Some detail))
      else
        let '(db, r) := visible_conversation now conversation_id db in
        (db, let? _ := r in Ok None)
  | None =>
      let '(db, r) := visible_conversation now conversation_id db in
      (db, let? _ := r in Ok None)
  end.

Definition pg_delete_conversation (now : DateTime) (conversation_id : string) (db : Tables)
  : Tables * result unit StorageError :=
  match live_row conversation_id db with
  | None => (db, Err StNotFound)
  | Some row =>
      (update_conversation conversation_id
         (mkConvRow (cr_user_id row) (cr_title row) (cr_next_message_ordinal row) now (Some now)) db,
       Ok tt)
  end.

Definition pg_assert_parent_tail (now : DateTime) (conversation_id : string)
    (parent_message_id : option string) (db : Tables) : Tables * result unit StorageError :=
  let '(db, r) := visible_conversation now conversation_id db in
  (db,
   let? _ := r in
   let tail := (λ kr : (string * string) * MessageRow, kr.1.2) <$> last (message_rows conversation_id db) in
   if bool_decide (tail = parent_message_id) then Ok tt else Err StStaleParent).

Definition pg_record_turn_failed (now : DateTime) (conversation_id turn_id error : string)
    (db : Tables) : Tables * result unit StorageError :=
  let '(db, r) := visible_conversation now conversation_id db in
  match r with
  | Err e => (db, Err e)
  | Ok _ =>
      let row :=
        match tb_turn db !! (tenant_id, turn_id) with
        | Some old =>
            mkTurnRow (tn_user_id old) (tn_conversation_id old) (tn_user_message_id old)
              (tn_assistant_message_id old) (tn_parent_message_id old) "failed" (Some error) now
        | None => mkTurnRow user_id conversation_id None None None "failed" (Some error) now
        end in
      (set_turns (<[(tenant_id, turn_id) := row]> (tb_turn db)) db, Ok tt)
  end.

(** ** The commit of a turn *)

(** [UNIQUE (tenant_id, conversation_id, ordinal)], for a row about to be stored. *)
Definition ordinal_taken (message_id : string) (row : MessageRow)
    (rows : gmap (string * string) MessageRow) : bool :=
  existsb (λ kr : (string * string) * MessageRow,
             bool_decide (kr.1.1 = tenant_id) && bool_decide (kr.1.2 ≠ message_id)
             && bool_decide (mr_conversation_id kr.2 = mr_conversation_id row)
             && bool_decide (mr_ordinal kr.2 = mr_ordinal row))
    (map_to_list rows).

(** [INSERT … ON CONFLICT (tenant_id, message_id) DO UPDATE SET …]: a row with
    that key keeps its user, its conversation and its role. *)
Definition upsert_message (message_id : string) (row : MessageRow) (keep : MessageRow → MessageRow)
    (rows : gmap (string * string) MessageRow)
  : result (gmap (string * string) MessageRow) StorageError :=
  let row := match rows !! (tenant_id, message_id) with
             | Some old => keep old
             | None => row
             end in
  if ordinal_taken message_id row rows
  then Err (StInternal "duplicate key value violates unique constraint")
  else Ok (<[(tenant_id, message_id) := row]> rows).

(** The [DO UPDATE SET] of the user message … *)
Definition keep_user (row old : MessageRow) : MessageRow :=
  mkMessageRow (mr_user_id old) (mr_conversation_id old) (mr_role old) (mr_content row)
    (mr_parent_message_id row) (mr_citations old) (mr_turn_id row) (mr_interrupted old)
    (mr_finish_reason old) (mr_ordinal row) (mr_created_at row).

(** … and of the assistant message. *)
Definition keep_assistant (row old : MessageRow) : MessageRow :=
  mkMessageRow (mr_user_id old) (mr_conversation_id old) (mr_role old) (mr_content row)
    (mr_parent_message_id row) (mr_citations row) (mr_turn_id row) (mr_interrupted row)
    (mr_finish_reason row) (mr_ordinal row) (mr_created_at row).

Definition user_row (conversation_id : string) (commit : TurnCommit) (ordinal : Z) (now : DateTime)
  : MessageRow :=
  mkMessageRow user_id conversation_id "user" (tc_user_text commit) (tc_parent_message_id commit)
    empty_array (Some (tc_turn_id commit)) false None ordinal now.

Definition assistant_row (conversation_id : string) (commit : TurnCommit) (citations : json_value)
    (interrupted : bool) (finish_reason : option string) (ordinal : Z) (created : DateTime)
  : MessageRow :=
  mkMessageRow user_id conversation_id "assistant" (tc_assistant_text commit)
    (Some (tc_user_message_id commit)) citations (Some (tc_turn_id commit)) interrupted
    finish_reason ordinal created.

(** [DELETE FROM chat_message WHERE … AND ordinal > parent_ordinal] *)
Definition delete_after (conversation_id : string) (parent_ordinal : Z)
    (rows : gmap (string * string) MessageRow) : gmap (string * string) MessageRow :=
  filter (λ kr, negb (in_conversation conversation_id kr && (parent_ordinal <? mr_ordinal kr.2)) = true)
    rows.

Definition parent_ordinal (conversation_id : string) (parent : option string) (db : Tables)
  : result Z StorageError :=
  match parent with
  | Some parent =>
      ok_or (row ← tb_message db !! (tenant_id, parent);
             if bool_decide (mr_user_id row = user_id)
                && bool_decide (mr_conversation_id row = conversation_id)
             then Some (mr_ordinal row) else None) StStaleParent
  | None => Ok 0
  end.

Definition millisecond : Z := 1000000.

(** [commit_pg_turn] up to [tx.commit()]: the tables it leaves. *)
Definition commit_tx (now : DateTime) (conversation_id : string) (commit : TurnCommit)
    (interrupted : bool) (finish_reason : option string) (db : Tables)
  : result Tables StorageError :=
  let? conversation := ok_or (live_row conversation_id db) StNotFound in
  let? parent := parent_ordinal conversation_id (tc_parent_message_id commit) db in
  let user_ordinal := parent + 1 in
  let assistant_ordinal := parent + 2 in
  match citations_to_value (tc_citations commit) with
  | Err error => Err (StInternal ("serialize citations: " +:+ error))
  | Ok citations =>
      let user := user_row conversation_id commit user_ordinal now in
      let assistant := assistant_row conversation_id commit citations interrupted finish_reason
                         assistant_ordinal (now + millisecond) in
      let? rows := upsert_message (tc_user_message_id commit) user (keep_user user)
                     (delete_after conversation_id parent (tb_message db)) in
      let? rows := upsert_message (tc_assistant_message_id commit) assistant
                     (keep_assistant assistant) rows in
      let turn := mkTurnRow user_id conversation_id (Some (tc_user_message_id commit))
                    (Some (tc_assistant_message_id commit)) (tc_parent_message_id commit)
                    (if interrupted then "interrupted" else "committed") None now in
      let row := mkConvRow (cr_user_id conversation) (cr_title conversation) (assistant_ordinal + 1)
                   now (cr_deleted_at conversation) in
      Ok (update_conversation conversation_id row
            (set_turns (<[(tenant_id, tc_turn_id commit) := turn]> (tb_turn db))
               (set_messages rows db)))
  end.

Definition commit_pg_turn (now : DateTime) (conversation_id : string) (commit : TurnCommit)
    (interrupted : bool) (finish_reason : option string) (db : Tables)
  : Tables * result ConversationDetail StorageError :=
  match commit_tx now conversation_id commit interrupted finish_reason db with
  | Err e => (db, Err e)
  | Ok db => pg_get_conversation now conversation_id db
  end.

Definition pg_commit_turn (now : DateTime) (conversation_id : string) (commit : TurnCommit) :=
  commit_pg_turn now conversation_id commit false None.
Definition pg_commit_interrupted_turn (now : DateTime) (conversation_id : string)
    (commit : TurnCommit) :=
  commit_pg_turn now conversation_id commit true (Some USER_INTERRUPTED).
End postgres.
