(* ===== verification/ChatStoreRun.v ===== *)
(** * The two chat repositories agree

    crates/storage/src/lib.rs (ChatStore.v).  [sim] relates the in-memory
    repository to the Postgres tables, and [postgres_refines_memory] drives both
    with the same requests.  The answers differ in three ways the code has: the
    Postgres repository does not tell a foreign conversation of the same tenant
    from a missing one, dates the assistant's message one millisecond later, and
    orders equal instants of a listing in its own way. *)

From S2P Require Import Prelude Text Events Contracts ChatStore.

Local Open Scope Z_scope.

(** ** Lists by index *)

Lemma build_list {A B} (P : nat → A → B → Prop) (l : list A) :
  (∀ i x, l !! i = Some x → ∃ y, P i x y) →
  ∃ k, length k = length l ∧ ∀ i x y, l !! i = Some x → k !! i = Some y → P i x y.
Proof.
  induction l as [|x l IH] using rev_ind; intros H.
  { exists []. split; [done |]. intros i x y Hl. by rewrite lookup_nil in Hl. }
  destruct IH as (k & Hk & HP).
  { intros i z Hz. apply H. by apply lookup_app_l_Some. }
  destruct (H (length l) x) as [y Hy]; [by apply list_lookup_middle |].
  exists (k ++ [y]). split; [rewrite !length_app; simpl; lia |].
  intros i z w Hz Hw. apply lookup_app_Some in Hz as [Hz | [Hlen Hz]].
  - apply (HP i z w Hz). rewrite lookup_app_l in Hw; [done |]. apply lookup_lt_Some in Hz. lia.
  - apply list_lookup_singleton_Some in Hz as [Hi <-].
    rewrite lookup_app_r in Hw by lia. replace (i - length k)%nat with 0%nat in Hw by lia.
    injection Hw as <-. by replace i with (length l) by lia.
Qed.

Lemma sorted_by_index {A} (R : A → A → Prop) (l : list A) :
  (∀ i j x y, (i < j)%nat → l !! i = Some x → l !! j = Some y → R x y) → StronglySorted R l.
Proof.
  induction l as [|x l IH]; intros H; constructor.
  - apply IH. intros i j y z Hij. apply (H (S i) (S j)). lia.
  - apply Forall_lookup. intros i y Hy. apply (H 0%nat (S i)); [lia | done..].
Qed.

Lemma NoDup_by_index {A B} (f : A → B) (l : list A) :
  (∀ i j x y, l !! i = Some x → l !! j = Some y → f x = f y → i = j) → NoDup l.
Proof.
  intros H. apply NoDup_alt. intros i j x Hi Hj. by eapply H.
Qed.

Lemma list_filter_bool_elem {A} (f : A → bool) l x : x ∈ List.filter f l ↔ f x = true ∧ x ∈ l.
Proof. rewrite !list_elem_of_In, List.filter_In. naive_solver. Qed.

Lemma NoDup_filter_bool {A} (f : A → bool) (l : list A) : NoDup l → NoDup (List.filter f l).
Proof. rewrite !NoDup_ListNoDup. apply List.NoDup_filter. Qed.

(** ** The relation *)

(** A message without the instant of its creation. *)
Definition erase_message (m : MessageDto) : MessageDto :=
  mkMessageDto (md_id m) (md_role m) (md_content m) (md_parent_message_id m) (md_citations m)
    (md_turn_id m) (md_interrupted m) (md_finish_reason m) 0.

Definition erase_detail (d : ConversationDetail) : ConversationDetail :=
  mkDetail (cd_id d) (cd_title d) (erase_message <$> cd_messages d) (cd_updated_at d).

Definition blur (e : StorageError) : StorageError :=
  match e with StForbidden => StNotFound | e => e end.

Section sim.
Context {CJ : CitationJson}.

Definition conversation_sim (row : StoredConversation) (cr : ConversationRow) : Prop :=
  cr_user_id cr = sc_user_id row ∧ cr_title cr = sc_title row ∧
  cr_next_message_ordinal cr = sc_next_message_ordinal row ∧
  (cr_deleted_at cr = None ↔ sc_deleted_at row = None) ∧
  (sc_deleted_at row = None → cr_updated_at cr = sc_updated_at row).

(** A row stores the message at index [i] of the conversation. *)
Definition message_sim (user c : string) (i : nat) (m : MessageDto) (mr : MessageRow) : Prop :=
  mr_user_id mr = user ∧ mr_conversation_id mr = c ∧ mr_ordinal mr = Z.of_nat i + 1 ∧
  pg_role (mr_role mr) = md_role m ∧ mr_content mr = md_content m ∧
  mr_parent_message_id mr = md_parent_message_id m ∧
  citations_from_value (mr_citations mr) = Ok (md_citations m) ∧ mr_turn_id mr = md_turn_id m ∧
  mr_interrupted mr = md_interrupted m ∧ mr_finish_reason mr = md_finish_reason m.

Record sim (repo : Repo) (db : Tables) : Prop := {
  sm_conversation c row :
    repo !! c = Some row →
    sc_id row = c ∧
    ∃ cr, tb_conversation db !! (sc_tenant_id row, c) = Some cr ∧ conversation_sim row cr;
  sm_conversation_back t c cr :
    tb_conversation db !! (t, c) = Some cr → ∃ row, repo !! c = Some row ∧ sc_tenant_id row = t;
  sm_message c row i m :
    repo !! c = Some row → sc_messages row !! i = Some m →
    ∃ mr, tb_message db !! (sc_tenant_id row, md_id m) = Some mr ∧
          message_sim (sc_user_id row) c i m mr;
  sm_message_back t id mr :
    tb_message db !! (t, id) = Some mr →
    ∃ row i m, repo !! mr_conversation_id mr = Some row ∧ sc_tenant_id row = t ∧
               sc_messages row !! i = Some m ∧ md_id m = id;
}.

Lemma sim_same_id repo db c row i j m m' :
  sim repo db → repo !! c = Some row → sc_messages row !! i = Some m →
  sc_messages row !! j = Some m' → md_id m = md_id m' → i = j.
Proof.
  intros Hs Hc Hi Hj Hid.
  destruct (sm_message _ _ Hs _ _ _ _ Hc Hi) as (mr & Hmr & _ & _ & Ho & _).
  destruct (sm_message _ _ Hs _ _ _ _ Hc Hj) as (mr' & Hmr' & _ & _ & Ho' & _).
  rewrite Hid in Hmr. simplify_eq. lia.
Qed.

(** The row of a message knows where the message is. *)
Lemma sim_back repo db t id mr :
  sim repo db → tb_message db !! (t, id) = Some mr →
  ∃ row i m, repo !! mr_conversation_id mr = Some row ∧ sc_tenant_id row = t ∧
             sc_messages row !! i = Some m ∧ md_id m = id ∧
             message_sim (sc_user_id row) (mr_conversation_id mr) i m mr.
Proof.
  intros Hs Hmr. destruct (sm_message_back _ _ Hs _ _ _ Hmr) as (row & i & m & Hc & <- & Hi & <-).
  exists row, i, m. destruct (sm_message _ _ Hs _ _ _ _ Hc Hi) as (mr' & Hmr' & Hm).
  by simplify_eq.
Qed.

(** ** Reading *)

Lemma sim_ensure_principal repo db t u now :
  sim repo db → sim repo (ensure_principal t u now db).
Proof. intros [? ? ? ?]. by constructor. Qed.

Lemma visible_sim repo db t u c :
  sim repo db →
  match visible_row t u repo c with
  | Ok row =>
      repo !! c = Some row ∧ sc_tenant_id row = t ∧ sc_user_id row = u ∧ sc_deleted_at row = None ∧
      ∃ cr, live_row t u c db = Some cr ∧ conversation_sim row cr
  | Err e => blur e = StNotFound ∧ live_row t u c db = None
  end.
Proof.
  intros Hs. unfold visible_row, live_row. destruct (repo !! c) as [row|] eqn:Hc; simpl.
  - destruct (sm_conversation _ _ Hs _ _ Hc) as (_ & cr & Hcr & Hsim).
    unfold ensure_visible, visible_to. pose proof Hsim as (Hu & _ & _ & Hd & _).
    destruct (decide (sc_tenant_id row = t)) as [Ht | Ht].
    + rewrite Ht in Hcr. rewrite Hcr. simpl. rewrite !(bool_decide_eq_true_2 (sc_tenant_id row = t)) by done.
      rewrite Hu. rewrite (bool_decide_ext _ _ Hd).
      destruct (decide (sc_deleted_at row = None)) as [Hn | Hn].
      * rewrite (bool_decide_eq_true_2 (_ = None)) by done. simpl.
        case_bool_decide; simpl; [|done]. split_and!; [done.. | by exists cr].
      * rewrite (bool_decide_eq_false_2 (_ = None)) by done. simpl. by rewrite andb_false_r.
    + rewrite (bool_decide_eq_false_2 (sc_tenant_id row = t)) by done.
      rewrite andb_false_r. simpl. split; [done |].
      destruct (tb_conversation db !! (t, c)) as [cr'|] eqn:Hcr'; [| done].
      destruct (sm_conversation_back _ _ Hs _ _ _ Hcr') as (row' & Hc' & Ht'). naive_solver.
  - split; [done |]. destruct (tb_conversation db !! (t, c)) as [cr|] eqn:Hcr; [| done].
    destruct (sm_conversation_back _ _ Hs _ _ _ Hcr) as (row' & Hc' & _). naive_solver.
Qed.

(** The rows of a conversation, in order, are its messages. *)
Lemma message_rows_sim repo db c row :
  sim repo db → repo !! c = Some row →
  let rows := message_rows (sc_tenant_id row) (sc_user_id row) c db in
  length rows = length (sc_messages row) ∧
  ∀ i m kr, sc_messages row !! i = Some m → rows !! i = Some kr →
    kr.1 = (sc_tenant_id row, md_id m) ∧ message_sim (sc_user_id row) c i m kr.2.
Proof.
  intros Hs Hc rows. set (t := sc_tenant_id row) in *. set (u := sc_user_id row) in *.
  destruct (build_list (λ i m (kr : (string * string) * MessageRow),
    kr.1 = (t, md_id m) ∧ tb_message db !! kr.1 = Some kr.2 ∧ message_sim u c i m kr.2)
    (sc_messages row)) as (L & Hlen & HL).
  { intros i m Hm. destruct (sm_message _ _ Hs _ _ _ _ Hc Hm) as (mr & Hmr & Hsim).
    by exists ((t, md_id m), mr). }
  assert (∀ i kr, L !! i = Some kr → ∃ m, sc_messages row !! i = Some m) as Hidx.
  { intros i kr Hi. apply lookup_lt_Some in Hi. apply lookup_lt_is_Some_2. lia. }
  enough (rows = L) as -> by (split; [done |]; intros i m kr Hm Hkr; by destruct (HL _ _ _ Hm Hkr) as (? & _ & ?)).
  apply (StronglySorted_unique_strong ordinal_le).
  - intros x y Hx Hy Hxy Hyx. unfold rows, message_rows in Hx.
    rewrite merge_sort_Permutation in Hx. apply list_filter_bool_elem in Hx as [Hf Hx].
    destruct x as [[t' id] mr]. apply elem_of_map_to_list in Hx.
    unfold in_conversation in Hf. simpl in Hf. destruct_bools. subst.
    apply list_elem_of_lookup in Hy as [j Hj]. destruct (Hidx _ _ Hj) as [m' Hm'].
    destruct (HL _ _ _ Hm' Hj) as (Hk & _ & _ & _ & Ho' & _).
    destruct (sim_back _ _ _ _ _ Hs Hx) as (row' & i & m & Hc' & _ & Hi & Hid & _ & _ & Ho & _).
    unfold ordinal_le in *. simpl in *. assert (i = j) as -> by lia.
    rewrite Hc in Hc'. simplify_eq. destruct (HL _ _ _ Hm' Hj) as (Hk' & Hl & _).
    destruct y as [k mr']. simpl in *. rewrite Hk' in Hl. by simplify_eq.
  - apply StronglySorted_merge_sort; [intros ???; unfold ordinal_le; lia | intros x y; unfold ordinal_le; lia].
  - apply sorted_by_index. intros i j x y Hij Hx Hy.
    destruct (Hidx _ _ Hx) as [m Hm], (Hidx _ _ Hy) as [m' Hm'].
    destruct (HL _ _ _ Hm Hx) as (_ & _ & _ & _ & Ho & _), (HL _ _ _ Hm' Hy) as (_ & _ & _ & _ & Ho' & _).
    unfold ordinal_le. lia.
  - unfold rows, message_rows. rewrite merge_sort_Permutation. apply NoDup_Permutation.
    + apply NoDup_filter_bool, NoDup_map_to_list.
    + apply (NoDup_by_index fst). intros i j x y Hx Hy Hxy.
      destruct (Hidx _ _ Hx) as [m Hm], (Hidx _ _ Hy) as [m' Hm'].
      destruct (HL _ _ _ Hm Hx) as (Hk & _), (HL _ _ _ Hm' Hy) as (Hk' & _).
      eapply sim_same_id; [done.. |]. congruence.
    + intros [[t' id] mr]. rewrite list_filter_bool_elem, elem_of_map_to_list. split.
      * unfold in_conversation. simpl. intros [Hf Hmr]. destruct_bools. subst t'.
        destruct (sim_back _ _ _ _ _ Hs Hmr) as (row' & i & m & Hc' & _ & Hi & Hid & _).
        assert (row' = row) as -> by congruence.
        assert (is_Some (L !! i)) as [kr Hkr].
        { apply lookup_lt_is_Some_2. apply lookup_lt_Some in Hi. lia. }
        destruct (HL _ _ _ Hi Hkr) as (Hk & Hl & _). destruct kr as [k mr']. simpl in *.
        apply list_elem_of_lookup. exists i. rewrite Hkr. congruence.
      * intros [i Hi]%list_elem_of_lookup. destruct (Hidx _ _ Hi) as [m Hm].
        destruct (HL _ _ _ Hm Hi) as (Hk & Hl & Hu & Hcv & _). simpl in *. split; [| done].
        unfold in_conversation. simpl. injection Hk as Ht' Hid'. rewrite Ht', Hu, Hcv.
        by rewrite !bool_decide_eq_true_2.
Qed.

Lemma dto_sim t u c i m kr :
  kr.1 = (t, md_id m) → message_sim u c i m kr.2 →
  ∃ dto, pg_message_to_dto kr = Ok dto ∧ erase_message dto = erase_message m.
Proof.
  destruct kr as [k mr]. simpl. intros -> (_ & _ & _ & Hr & Hc & Hp & Hci & Ht & Hi & Hf).
  unfold pg_message_to_dto. rewrite Hci. eexists. split; [done |].
  unfold erase_message. simpl. by rewrite Hr, Hc, Hp, Ht, Hi, Hf.
Qed.

Lemma list_messages_sim repo db c row :
  sim repo db → repo !! c = Some row →
  ∃ ms, list_pg_messages (sc_tenant_id row) (sc_user_id row) c db = Ok ms ∧
        erase_message <$> ms = erase_message <$> sc_messages row.
Proof.
  intros Hs Hc. destruct (message_rows_sim _ _ _ _ Hs Hc) as [Hlen Hrows].
  unfold list_pg_messages. set (rows := message_rows _ _ _ _) in *.
  assert (Forall2 (λ m kr, ∃ dto, pg_message_to_dto kr = Ok dto ∧ erase_message dto = erase_message m)
            (sc_messages row) rows) as Hall.
  { apply Forall2_same_length_lookup_2; [done |]. intros i m kr Hm Hkr.
    destruct (Hrows _ _ _ Hm Hkr). by eapply dto_sim. }
  clear Hlen Hrows. revert Hall. generalize (sc_messages row), rows.
  induction 1 as [|m kr ms krs (dto & Hd & He) _ (ms' & Hms & IH)]; simpl; [by exists [] |].
  rewrite Hd, Hms. simpl. exists (dto :: ms'). split; [done |]. by rewrite !fmap_cons, He, IH.
Qed.

Lemma detail_sim repo db c row cr :
  sim repo db → repo !! c = Some row → sc_deleted_at row = None → conversation_sim row cr →
  ∃ d, pg_conversation_detail (sc_tenant_id row) (sc_user_id row) c cr db = Ok d ∧
       erase_detail d = erase_detail (to_detail row).
Proof.
  intros Hs Hc Hd (_ & Ht & _ & _ & Hu). destruct (list_messages_sim _ _ _ _ Hs Hc) as (ms & Hms & He).
  unfold pg_conversation_detail. rewrite Hms. simpl. eexists. split; [done |].
  unfold erase_detail, to_detail. simpl. rewrite He, Ht, Hu by done.
  by destruct (sm_conversation _ _ Hs _ _ Hc) as [-> _].
Qed.

(** ** Writing a conversation row *)

Definition same_conversation (row row' : StoredConversation) : Prop :=
  sc_id row' = sc_id row ∧ sc_tenant_id row' = sc_tenant_id row ∧
  sc_user_id row' = sc_user_id row ∧ sc_messages row' = sc_messages row.

Lemma sim_update repo db c row row' cr' :
  sim repo db → repo !! c = Some row → same_conversation row row' → conversation_sim row' cr' →
  sim (<[c := row']> repo) (update_conversation (sc_tenant_id row) c cr' db).
Proof.
  intros Hs Hc (Hid & Ht & Hu & Hm) Hcr. pose proof Hs as [H1 H2 H3 H4]. constructor.
  - intros c0 row0 H. destruct (decide (c = c0)) as [<- |].
    + rewrite lookup_insert_eq in H. simplify_eq. destruct (H1 _ _ Hc) as [Hrid _].
      split; [congruence |]. exists cr'. rewrite Ht. split; [apply lookup_insert_eq | done].
    + rewrite lookup_insert_ne in H by done. destruct (H1 _ _ H) as (Hrid & cr0 & Hcr0 & Hsim).
      split; [done |]. exists cr0. split; [| done]. simpl. by rewrite lookup_insert_ne by congruence.
  - intros t0 c0 cr0 H. simpl in H. destruct (decide ((sc_tenant_id row, c) = (t0, c0))) as [Heq | Hne].
    + simplify_eq. exists row'. by rewrite lookup_insert_eq.
    + rewrite lookup_insert_ne in H by done. destruct (H2 _ _ _ H) as (row0 & Hr0 & <-).
      destruct (decide (c = c0)) as [<- |]; [congruence |].
      exists row0. by rewrite lookup_insert_ne.
  - intros c0 row0 i m H Hi. destruct (decide (c = c0)) as [<- |].
    + rewrite lookup_insert_eq in H. simplify_eq. rewrite Hm in Hi. rewrite Ht, Hu. by eapply H3.
    + rewrite lookup_insert_ne in H by done. by eapply H3.
  - intros t0 id mr H. destruct (H4 _ _ _ H) as (row0 & i & m & Hr0 & Ht0 & Hi & Hmid).
    destruct (decide (c = mr_conversation_id mr)) as [Heq |].
    + exists row', i, m. rewrite <- Heq, lookup_insert_eq.
      assert (row0 = row) as -> by congruence. rewrite Hm, Ht. done.
    + exists row0, i, m. by rewrite lookup_insert_ne.
Qed.

Lemma sim_create repo db t u id title now :
  sim repo db → repo !! id = None →
  sim (repo_create_conversation t u now id title repo).1
      (pg_create_conversation t u now id title db).1 ∧
  ∃ d, (pg_create_conversation t u now id title db).2 = Ok d ∧
       (repo_create_conversation t u now id title repo).2 = Ok d.
Proof.
  intros Hs Hid. pose proof (sim_ensure_principal _ _ t u now Hs) as Hs'.
  unfold pg_create_conversation, repo_create_conversation. set (db' := ensure_principal t u now db) in *.
  destruct (tb_conversation db' !! (t, id)) as [cr|] eqn:Hcr.
  { destruct (sm_conversation_back _ _ Hs' _ _ _ Hcr) as (row & Hr & _). congruence. }
  split; [| by eexists]. pose proof Hs' as [H1 H2 H3 H4]. simpl. constructor.
  - intros c row H. destruct (decide (id = c)) as [<- |].
    + rewrite lookup_insert_eq in H. simplify_eq/=. split; [done |]. eexists.
      split; [apply lookup_insert_eq | done].
    + rewrite lookup_insert_ne in H by done. destruct (H1 _ _ H) as (Hrid & cr & Hc & Hsim).
      split; [done |]. exists cr. split; [| done]. simpl. by rewrite lookup_insert_ne by congruence.
  - intros t0 c cr0 H. simpl in H. destruct (decide ((t, id) = (t0, c))) as [Heq | Hne].
    + simplify_eq. eexists. by rewrite lookup_insert_eq.
    + rewrite lookup_insert_ne in H by done. destruct (H2 _ _ _ H) as (row0 & Hr0 & Ht0).
      exists row0. rewrite lookup_insert_ne; [done |]. congruence.
  - intros c row i m H Hi. destruct (decide (id = c)) as [<- |].
    + rewrite lookup_insert_eq in H. by simplify_eq/=.
    + rewrite lookup_insert_ne in H by done. by eapply H3.
  - intros t0 mid mr H. destruct (H4 _ _ _ H) as (row0 & i & m & Hr0 & Ht0 & Hi & Hmid).
    exists row0, i, m. rewrite lookup_insert_ne; [done |]. congruence.
Qed.

(** ** The commit of a turn *)

Lemma parent_sim repo db c row parent :
  sim repo db → repo !! c = Some row →
  parent_ordinal (sc_tenant_id row) (sc_user_id row) c parent db =
    match retain_len parent (sc_messages row) with
    | Some k => Ok (Z.of_nat k)
    | None => Err StStaleParent
    end.
Proof.
  intros Hs Hc. destruct parent as [id|]; [| done]. simpl. unfold position_of.
  destruct (list_find (λ m, md_id m = id) (sc_messages row)) as [[i m]|] eqn:Hf; simpl.
  - apply list_find_Some in Hf as (Hi & <- & _).
    destruct (sm_message _ _ Hs _ _ _ _ Hc Hi) as (mr & Hmr & Hu & Hcv & Ho & _).
    rewrite Hmr. simpl. rewrite !bool_decide_eq_true_2 by done. simpl. f_equal. lia.
  - apply list_find_None in Hf.
    destruct (tb_message db !! (sc_tenant_id row, id)) as [mr|] eqn:Hmr; [| done]. simpl.
    destruct (_ && _) eqn:Hb; [| done]. destruct_bools. exfalso.
    destruct (sim_back _ _ _ _ _ Hs Hmr) as (row' & i & m & Hc' & _ & Hi & Hid & _).
    assert (row' = row) as -> by congruence.
    rewrite Forall_lookup in Hf. by apply (Hf _ _ Hi).
Qed.

Lemma retain_len_le parent messages k : retain_len parent messages = Some k → (k ≤ length messages)%nat.
Proof.
  destruct parent as [id|]; simpl; [| intros [= <-]; lia]. unfold position_of.
  destruct (list_find _ messages) as [[i m]|] eqn:Hf; simpl; [| done]. intros [= <-].
  apply list_find_Some in Hf as (Hi & _). apply lookup_lt_Some in Hi. lia.
Qed.

Lemma delete_after_Some t u c p rows k mr :
  delete_after t u c p rows !! k = Some mr ↔
  rows !! k = Some mr ∧ (in_conversation t u c (k, mr) = true → mr_ordinal mr ≤ p).
Proof.
  unfold delete_after. rewrite map_lookup_filter_Some. simpl.
  destruct (in_conversation t u c (k, mr)); simpl; destruct (p <? mr_ordinal mr) eqn:H;
    destruct_bools; naive_solver lia.
Qed.

(** No message of the tenant has the id. *)
Definition fresh_message (repo : Repo) (t id : string) : Prop :=
  ∀ c row m, repo !! c = Some row → sc_tenant_id row = t → m ∈ sc_messages row → md_id m ≠ id.

Lemma fresh_lookup repo db t id :
  sim repo db → fresh_message repo t id → tb_message db !! (t, id) = None.
Proof.
  intros Hs Hf. destruct (tb_message db !! (t, id)) as [mr|] eqn:Hmr; [| done].
  destruct (sm_message_back _ _ Hs _ _ _ Hmr) as (row & i & m & Hc & Ht & Hi & Hid).
  exfalso. apply (Hf _ _ m Hc Ht); [by eapply list_elem_of_lookup_2 | done].
Qed.

(** A row whose ordinal lies above those of its conversation goes in. *)
Lemma upsert_fresh t id (row : MessageRow) keep rows :
  rows !! (t, id) = None →
  (∀ id' mr, rows !! (t, id') = Some mr → mr_conversation_id mr = mr_conversation_id row →
     mr_ordinal mr < mr_ordinal row) →
  upsert_message t id row keep rows = Ok (<[(t, id) := row]> rows).
Proof.
  intros Hn Hlt. unfold upsert_message. rewrite Hn.
  destruct (ordinal_taken t id row rows) eqn:Ho; [| done]. exfalso.
  unfold ordinal_taken in Ho. apply existsb_exists in Ho as ([[t' id'] mr] & Hin & Hb).
  apply list_elem_of_In, elem_of_map_to_list in Hin. simpl in Hb. destruct_bools. subst t'.
  specialize (Hlt _ _ Hin ltac:(done)). lia.
Qed.

(** The conversation after a commit that keeps [k] messages. *)
Definition committed (row : StoredConversation) (k : nat) (commit : TurnCommit) (interrupted : bool)
    (now : DateTime) : StoredConversation :=
  let messages := take k (sc_messages row) ++
                    [user_message commit now; assistant_message commit interrupted now] in
  mkStored (sc_id row) (sc_tenant_id row) (sc_user_id row) (sc_title row) now (sc_deleted_at row)
    (Z.of_nat (length messages) + 1) messages.

Lemma commit_messages_lookup row k commit interrupted now i m :
  (k ≤ length (sc_messages row))%nat →
  sc_messages (committed row k commit interrupted now) !! i = Some m ↔
  (i < k)%nat ∧ sc_messages row !! i = Some m ∨
  i = k ∧ m = user_message commit now ∨ i = S k ∧ m = assistant_message commit interrupted now.
Proof.
  intros Hk. unfold committed. cbn [sc_messages].
  destruct (decide (i < k)%nat) as [Hi | Hi].
  - rewrite lookup_app_l by (rewrite length_take; lia). rewrite lookup_take_lt by done.
    split; [intros H; by left |]. intros [[_ H] | [[? _] | [? _]]]; [done | lia | lia].
  - rewrite lookup_app_r by (rewrite length_take; lia). rewrite length_take, Nat.min_l by done.
    destruct (i - k)%nat as [|[|n]] eqn:Hn; simpl; split.
    + intros [= <-]. right. left. split; [lia | done].
    + intros [[? _] | [[_ ->] | [? _]]]; [lia | done | lia].
    + intros [= <-]. right. right. split; [lia | done].
    + intros [[? _] | [[? _] | [_ ->]]]; [lia | lia | done].
    + done.
    + intros [[? _] | [[? _] | [? _]]]; lia.
Qed.

(** The message table after the commit. *)
Section commit.
Context (repo : Repo) (db : Tables) (c : string) (row : StoredConversation) (k : nat).
Context (commit : TurnCommit) (interrupted : bool) (now : DateTime) (citations : json_value).
Context (Hsim : sim repo db) (Hrow : repo !! c = Some row) (Hk : (k ≤ length (sc_messages row))%nat).
Context (Hcit : citations_to_value (tc_citations commit) = Ok citations).

Abbreviation t := (sc_tenant_id row).
Abbreviation u := (sc_user_id row).
Abbreviation uid := (tc_user_message_id commit).
Abbreviation aid := (tc_assistant_message_id commit).

Context (Hu : fresh_message repo t uid) (Ha : fresh_message repo t aid) (Hne : uid ≠ aid).

Definition new_user : MessageRow := user_row u c commit (Z.of_nat k + 1) now.
Definition new_assistant : MessageRow :=
  assistant_row u c commit citations interrupted (if interrupted then Some USER_INTERRUPTED else None)
    (Z.of_nat k + 2) (now + millisecond).

Definition kept_rows : gmap (string * string) MessageRow :=
  delete_after t u c (Z.of_nat k) (tb_message db).
Definition new_rows : gmap (string * string) MessageRow :=
  <[(t, aid) := new_assistant]> (<[(t, uid) := new_user]> kept_rows).

Lemma kept_ordinal id mr :
  kept_rows !! (t, id) = Some mr → mr_conversation_id mr = c → mr_ordinal mr ≤ Z.of_nat k.
Proof.
  intros [Hmr Hord]%delete_after_Some Hc. apply Hord.
  destruct (sim_back _ _ _ _ _ Hsim Hmr) as (row' & i & m & Hc' & Ht & _ & _ & Hmu & _).
  rewrite Hc, Hrow in Hc'. injection Hc' as <-. unfold in_conversation. simpl.
  by rewrite Hmu, Hc, !bool_decide_eq_true_2.
Qed.

Lemma kept_fresh id : fresh_message repo t id → kept_rows !! (t, id) = None.
Proof.
  intros Hf. destruct (kept_rows !! (t, id)) as [mr|] eqn:Hmr; [| done].
  apply delete_after_Some in Hmr as [Hmr _]. pose proof (fresh_lookup _ _ _ _ Hsim Hf). congruence.
Qed.

Lemma upsert_user :
  upsert_message t uid new_user (keep_user new_user) kept_rows = Ok (<[(t, uid) := new_user]> kept_rows).
Proof.
  apply upsert_fresh; [by apply kept_fresh |]. intros id mr Hmr Hc.
  pose proof (kept_ordinal _ _ Hmr Hc). simpl. lia.
Qed.

Lemma upsert_assistant :
  upsert_message t aid new_assistant (keep_assistant new_assistant)
    (<[(t, uid) := new_user]> kept_rows) = Ok new_rows.
Proof.
  apply upsert_fresh.
  - rewrite lookup_insert_ne by congruence. by apply kept_fresh.
  - intros id mr Hmr Hc. simpl. apply lookup_insert_Some in Hmr as [[_ <-] | [_ Hmr]]; simpl; [lia |].
    pose proof (kept_ordinal _ _ Hmr Hc). lia.
Qed.

(** A row of the table that survives. *)
Lemma new_rows_old t' id mr :
  (t', id) ≠ (t, uid) → (t', id) ≠ (t, aid) →
  new_rows !! (t', id) = Some mr ↔ kept_rows !! (t', id) = Some mr.
Proof. intros H1 H2. unfold new_rows. by rewrite !lookup_insert_ne by congruence. Qed.

Lemma old_id_fresh c0 row0 m :
  repo !! c0 = Some row0 → m ∈ sc_messages row0 →
  (sc_tenant_id row0, md_id m) ≠ (t, uid) ∧ (sc_tenant_id row0, md_id m) ≠ (t, aid).
Proof.
  intros Hc Hm. split; intros [= Ht Hid]; [by apply (Hu _ _ _ Hc Ht Hm) | by apply (Ha _ _ _ Hc Ht Hm)].
Qed.

Lemma new_user_sim : message_sim u c k (user_message commit now) new_user.
Proof. unfold message_sim. simpl. rewrite empty_array_reads. split_and!; done. Qed.

Lemma new_assistant_sim :
  message_sim u c (S k) (assistant_message commit interrupted now) new_assistant.
Proof.
  unfold message_sim. simpl. rewrite (citations_roundtrip _ _ Hcit). split_and!; [done.. | lia | done | done | done | done | done | done | done].
Qed.

(** Every message of the new state has its row. *)
Lemma committed_forth c0 row0 i m :
  <[c := committed row k commit interrupted now]> repo !! c0 = Some row0 →
  sc_messages row0 !! i = Some m →
  ∃ mr, new_rows !! (sc_tenant_id row0, md_id m) = Some mr ∧ message_sim (sc_user_id row0) c0 i m mr.
Proof.
  intros H Hi. destruct (decide (c = c0)) as [<- | Hc].
  - rewrite lookup_insert_eq in H. injection H as <-.
    apply commit_messages_lookup in Hi as [[Hlt Hi] | [[-> ->] | [-> ->]]]; [| | | done].
    + destruct (sm_message _ _ Hsim _ _ _ _ Hrow Hi) as (mr & Hmr & Hms). exists mr. split; [| done].
      destruct (old_id_fresh _ _ m Hrow) as [H1 H2]; [by eapply list_elem_of_lookup_2 |].
      apply new_rows_old; [done.. |]. apply delete_after_Some. split; [done |].
      intros _. destruct Hms as (_ & _ & -> & _). lia.
    + exists new_user. split; [| apply new_user_sim]. unfold new_rows. simpl.
      rewrite lookup_insert_ne by congruence. by rewrite lookup_insert_eq.
    + exists new_assistant. split; [apply lookup_insert_eq | apply new_assistant_sim].
  - rewrite lookup_insert_ne in H by done.
    destruct (sm_message _ _ Hsim _ _ _ _ H Hi) as (mr & Hmr & Hms). exists mr. split; [| done].
    destruct (old_id_fresh _ _ m H) as [H1 H2]; [by eapply list_elem_of_lookup_2 |].
    apply new_rows_old; [done.. |]. apply delete_after_Some. split; [done |].
    unfold in_conversation. simpl. destruct Hms as (_ & -> & _).
    rewrite (bool_decide_eq_false_2 (c0 = c)) by congruence. by rewrite andb_false_r.
Qed.

(** Every row of the new table belongs to a message. *)
Lemma committed_back t0 id mr :
  new_rows !! (t0, id) = Some mr →
  ∃ row0 i m, <[c := committed row k commit interrupted now]> repo !! mr_conversation_id mr = Some row0 ∧
              sc_tenant_id row0 = t0 ∧ sc_messages row0 !! i = Some m ∧ md_id m = id.
Proof.
  intros H. unfold new_rows in H. apply lookup_insert_Some in H as [[[= <- <-] <-] | [Hka H]].
  { exists (committed row k commit interrupted now), (S k), (assistant_message commit interrupted now).
    simpl mr_conversation_id. rewrite lookup_insert_eq. split_and!; [done | done | | done].
    apply commit_messages_lookup; [done |]. by right; right. }
  apply lookup_insert_Some in H as [[[= <- <-] <-] | [Hku H]].
  { exists (committed row k commit interrupted now), k, (user_message commit now).
    simpl mr_conversation_id. rewrite lookup_insert_eq. split_and!; [done | done | | done].
    apply commit_messages_lookup; [done |]. by right; left. }
  pose proof H as Hkept. apply delete_after_Some in H as [Hmr _].
  destruct (sim_back _ _ _ _ _ Hsim Hmr) as (row0 & i & m & Hc0 & <- & Hi & Hid & _ & _ & Ho & _).
  destruct (decide (c = mr_conversation_id mr)) as [Heq | Hc].
  - rewrite <- Heq in *. assert (row0 = row) as -> by congruence.
    exists (committed row k commit interrupted now), i, m. rewrite lookup_insert_eq.
    split_and!; [done | done | | done]. apply commit_messages_lookup; [done |]. left.
    pose proof (kept_ordinal _ _ Hkept (eq_sym Heq)). split; [lia | done].
  - exists row0, i, m. by rewrite lookup_insert_ne.
Qed.
End commit.
End sim.

(** ** Requests *)

Inductive ChatOp : Type :=
| OpList
| OpCreate (title : option string)
| OpGet (c : string)
| OpRename (c title : string)
| OpRenameIfDefault (c title : string)
| OpDelete (c : string)
| OpAssertTail (c : string) (parent : option string)
| OpTurnFailed (c turn_id error : string)
| OpCommit (interrupted : bool) (c : string) (commit : TurnCommit).

(** A call of the repository, with the instant and the fresh id it reads. *)
Record Request : Type := mkRequest {
  rq_tenant : string;
  rq_user : string;
  rq_now : DateTime;
  rq_ulid : string;
  rq_op : ChatOp;
}.

Inductive StoreReply : Type :=
| SummariesReply (l : list ConversationSummary)
| DetailReply (r : result ConversationDetail StorageError)
| MaybeReply (r : result (option ConversationDetail) StorageError)
| UnitReply (r : result unit StorageError).

(** [impl ChatRepository for MemoryChatRepository] *)
Definition repo_method (rq : Request) (repo : Repo) : Repo * StoreReply :=
  let 'mkRequest t u now id op := rq in
  match op with
  | OpList => (repo, SummariesReply (repo_list_conversations t u repo))
  | OpCreate title => let '(s, r) := repo_create_conversation t u now id title repo in (s, DetailReply r)
  | OpGet c => (repo, DetailReply (repo_get_conversation t u c repo))
  | OpRename c title => let '(s, r) := repo_rename_conversation t u now c title repo in (s, DetailReply r)
  | OpRenameIfDefault c title =>
      let '(s, r) := repo_rename_conversation_if_default t u now c title repo in (s, MaybeReply r)
  | OpDelete c => let '(s, r) := repo_delete_conversation t u now c repo in (s, UnitReply r)
  | OpAssertTail c parent => (repo, UnitReply (repo_assert_parent_tail t u c parent repo))
  | OpTurnFailed c _ _ => (repo, UnitReply (repo_record_turn_failed t u c repo))
  | OpCommit interrupted c commit =>
      let '(s, r) := (if interrupted then repo_commit_interrupted_turn else repo_commit_turn)
                       t u now c commit repo in (s, DetailReply r)
  end.

Section requests.
Context {CJ : CitationJson}.

(** [impl ChatRepository for PgRepository] *)
Definition pg_method (rq : Request) (db : Tables) : Tables * StoreReply :=
  let 'mkRequest t u now id op := rq in
  match op with
  | OpList => let '(s, r) := pg_list_conversations t u now db in (s, SummariesReply r)
  | OpCreate title => let '(s, r) := pg_create_conversation t u now id title db in (s, DetailReply r)
  | OpGet c => let '(s, r) := pg_get_conversation t u now c db in (s, DetailReply r)
  | OpRename c title => let '(s, r) := pg_rename_conversation t u now c title db in (s, DetailReply r)
  | OpRenameIfDefault c title =>
      let '(s, r) := pg_rename_conversation_if_default t u now c title db in (s, MaybeReply r)
  | OpDelete c => let '(s, r) := pg_delete_conversation t u now c db in (s, UnitReply r)
  | OpAssertTail c parent =>
      let '(s, r) := pg_assert_parent_tail t u now c parent db in (s, UnitReply r)
  | OpTurnFailed c turn error =>
      let '(s, r) := pg_record_turn_failed t u now c turn error db in (s, UnitReply r)
  | OpCommit interrupted c commit =>
      let '(s, r) := (if interrupted then pg_commit_interrupted_turn else pg_commit_turn)
                       t u now c commit db in (s, DetailReply r)
  end.

(** The ids a request brings are new to its tenant. *)
Definition fresh_request (repo : Repo) (rq : Request) : Prop :=
  match rq_op rq with
  | OpCreate _ => repo !! rq_ulid rq = None
  | OpCommit _ _ commit =>
      fresh_message repo (rq_tenant rq) (tc_user_message_id commit) ∧
      fresh_message repo (rq_tenant rq) (tc_assistant_message_id commit) ∧
      tc_user_message_id commit ≠ tc_assistant_message_id commit
  | _ => True
  end.

Definition result_sim {A} (R : A → A → Prop) (r r' : result A StorageError) : Prop :=
  match r, r' with
  | Ok x, Ok y => R x y
  | Err e, Err e' => blur e = blur e'
  | _, _ => False
  end.

Definition detail_eq (d d' : ConversationDetail) : Prop := erase_detail d = erase_detail d'.

(** The same answer, up to what the two implementations say differently. *)
Definition reply_sim (r r' : StoreReply) : Prop :=
  match r, r' with
  | SummariesReply l, SummariesReply l' => l ≡ₚ l' ∧ StronglySorted newest_first l ∧ StronglySorted newest_first l'
  | DetailReply r, DetailReply r' => result_sim detail_eq r r'
  | MaybeReply r, MaybeReply r' => result_sim (option_Forall2 detail_eq) r r'
  | UnitReply r, UnitReply r' => result_sim eq r r'
  | _, _ => False
  end.

Lemma get_sim repo db t u now c :
  sim repo db →
  sim repo (pg_get_conversation t u now c db).1 ∧
  result_sim detail_eq (repo_get_conversation t u c repo) (pg_get_conversation t u now c db).2.
Proof.
  intros Hs. pose proof (sim_ensure_principal _ _ t u now Hs) as Hs'. split; [done |].
  unfold pg_get_conversation, visible_conversation, repo_get_conversation. cbn [snd].
  pose proof (visible_sim _ _ t u c Hs') as Hv.
  destruct (visible_row t u repo c) as [row | e]; simpl.
  - destruct Hv as (Hc & <- & <- & Hd & cr & Hl & Hcr). rewrite Hl. simpl.
    destruct (detail_sim _ _ _ _ _ Hs' Hc Hd Hcr) as (d & -> & He). simpl. done.
  - destruct Hv as [He Hl]. by rewrite Hl.
Qed.

Lemma rename_sim repo db t u now c title :
  sim repo db →
  sim (repo_rename_conversation t u now c title repo).1 (pg_rename_conversation t u now c title db).1 ∧
  result_sim detail_eq (repo_rename_conversation t u now c title repo).2
    (pg_rename_conversation t u now c title db).2.
Proof.
  intros Hs. unfold repo_rename_conversation, pg_rename_conversation.
  pose proof (visible_sim _ _ t u c Hs) as Hv.
  destruct (visible_row t u repo c) as [row | e]; simpl.
  - destruct Hv as (Hc & <- & <- & Hd & cr & -> & Hcr). simpl.
    assert (conversation_sim (set_title title now row) (with_title title now cr)) as Hcr'.
    { destruct Hcr as (? & ? & ? & ? & ?). by split_and!. }
    assert (sim (<[c := set_title title now row]> repo)
              (update_conversation (sc_tenant_id row) c (with_title title now cr) db)) as Hs'
      by by eapply sim_update.
    split; [done |].
    destruct (detail_sim _ _ c (set_title title now row) _ Hs' (lookup_insert_eq _ _ _) Hd Hcr')
      as (d & Hdet & He). simpl in Hdet. by rewrite Hdet.
  - destruct Hv as [He ->]. done.
Qed.

Lemma rename_default_sim repo db t u now c title :
  sim repo db →
  sim (repo_rename_conversation_if_default t u now c title repo).1
      (pg_rename_conversation_if_default t u now c title db).1 ∧
  result_sim (option_Forall2 detail_eq) (repo_rename_conversation_if_default t u now c title repo).2
    (pg_rename_conversation_if_default t u now c title db).2.
Proof.
  intros Hs. pose proof (rename_sim repo db t u now c title Hs) as Hren.
  unfold repo_rename_conversation in Hren. unfold pg_rename_conversation in Hren.
  unfold repo_rename_conversation_if_default, pg_rename_conversation_if_default, visible_conversation.
  pose proof (visible_sim _ _ t u c Hs) as Hv.
  pose proof (visible_sim _ _ t u c (sim_ensure_principal _ _ t u now Hs)) as Hv'.
  destruct (visible_row t u repo c) as [row | e]; simpl in *.
  - destruct Hv as (_ & _ & _ & _ & cr & Hl & Hcr). rewrite Hl in *.
    destruct Hv' as (_ & _ & _ & _ & cr' & Hl' & _). pose proof Hcr as (_ & -> & _).
    case_bool_decide as Ht; rewrite ?(bool_decide_eq_true_2 (sc_title row = _)),
      ?(bool_decide_eq_false_2 (sc_title row = _)) by done; simpl.
    + rewrite Hl'. simpl. split; [by apply sim_ensure_principal | constructor].
    + destruct Hren as [Hs' Hr]. split; [done |].
      destruct (pg_conversation_detail _ _ _ _ _); simpl in *; [by constructor | done].
  - destruct Hv as [He Hl], Hv' as [_ Hl']. rewrite Hl, Hl'. simpl.
    split; [by apply sim_ensure_principal | done].
Qed.

Lemma delete_sim repo db t u now c :
  sim repo db →
  sim (repo_delete_conversation t u now c repo).1 (pg_delete_conversation t u now c db).1 ∧
  result_sim eq (repo_delete_conversation t u now c repo).2 (pg_delete_conversation t u now c db).2.
Proof.
  intros Hs. unfold repo_delete_conversation, pg_delete_conversation.
  pose proof (visible_sim _ _ t u c Hs) as Hv.
  destruct (visible_row t u repo c) as [row | e]; simpl.
  - destruct Hv as (Hc & <- & <- & Hd & cr & -> & Hcr). simpl. split; [| done].
    eapply sim_update; [done | done | done |].
    destruct Hcr as (? & ? & ? & ? & ?). by split_and!.
  - by destruct Hv as [He ->].
Qed.

Lemma tail_sim repo db t u now c parent :
  sim repo db →
  sim repo (pg_assert_parent_tail t u now c parent db).1 ∧
  result_sim eq (repo_assert_parent_tail t u c parent repo) (pg_assert_parent_tail t u now c parent db).2.
Proof.
  intros Hs. pose proof (sim_ensure_principal _ _ t u now Hs) as Hs'. split; [done |].
  unfold pg_assert_parent_tail, visible_conversation, repo_assert_parent_tail. cbn [snd].
  pose proof (visible_sim _ _ t u c Hs') as Hv.
  destruct (visible_row t u repo c) as [row | e]; simpl.
  2: { destruct Hv as [He Hl]. by rewrite Hl. }
  destruct Hv as (Hc & <- & <- & Hd & cr & Hl & Hcr). rewrite Hl. simpl.
  destruct (message_rows_sim _ _ _ _ Hs' Hc) as [Hlen Hrows].
  set (rows := message_rows _ _ _ _) in *.
  assert ((λ kr : (string * string) * MessageRow, kr.1.2) <$> last rows = md_id <$> last (sc_messages row)) as ->.
  { rewrite !last_lookup, Hlen.
    destruct (sc_messages row !! pred (length (sc_messages row))) as [m|] eqn:Hm.
    - destruct (rows !! pred (length (sc_messages row))) as [kr|] eqn:Hkr.
      + simpl. by destruct (Hrows _ _ _ Hm Hkr) as [-> _].
      + apply lookup_lt_Some in Hm. apply lookup_ge_None in Hkr. lia.
    - destruct (rows !! _) as [kr|] eqn:Hkr; [| done].
      apply lookup_lt_Some in Hkr. apply lookup_ge_None in Hm. lia. }
  by case_bool_decide.
Qed.

Lemma sim_turns repo db rows : sim repo db → sim repo (set_turns rows db).
Proof. intros [? ? ? ?]. by constructor. Qed.

Lemma turn_failed_sim repo db t u now c turn error :
  sim repo db →
  sim repo (pg_record_turn_failed t u now c turn error db).1 ∧
  result_sim eq (repo_record_turn_failed t u c repo) (pg_record_turn_failed t u now c turn error db).2.
Proof.
  intros Hs. pose proof (sim_ensure_principal _ _ t u now Hs) as Hs'.
  unfold pg_record_turn_failed, visible_conversation, repo_record_turn_failed.
  pose proof (visible_sim _ _ t u c Hs') as Hv.
  destruct (visible_row t u repo c) as [row | e]; simpl.
  - destruct Hv as (_ & _ & _ & _ & cr & Hl & _). rewrite Hl. simpl.
    split; [by apply sim_turns | done].
  - destruct Hv as [He Hl]. by rewrite Hl.
Qed.

Lemma list_sim repo db t u now :
  sim repo db →
  sim repo (pg_list_conversations t u now db).1 ∧
  reply_sim (SummariesReply (repo_list_conversations t u repo))
    (SummariesReply (pg_list_conversations t u now db).2).
Proof.
  intros Hs. split; [by apply sim_ensure_principal |].
  assert (∀ l, StronglySorted newest_first (merge_sort newest_first l)) as Hsort.
  { intros l. apply StronglySorted_merge_sort; [intros ???; unfold newest_first; lia | intros x y; unfold newest_first; lia]. }
  split_and!; [| apply Hsort..]. unfold pg_list_conversations, repo_list_conversations. cbn [snd].
  rewrite !merge_sort_Permutation. apply NoDup_Permutation.
  - apply NoDup_fmap_2_strong.
    + intros x y Hx Hy. rewrite !list_filter_bool_elem, !list_elem_of_fmap in Hx, Hy.
      destruct Hx as (_ & [c1 r1] & -> & H1%elem_of_map_to_list), Hy as (_ & [c2 r2] & -> & H2%elem_of_map_to_list).
      destruct (sm_conversation _ _ Hs _ _ H1) as [<- _], (sm_conversation _ _ Hs _ _ H2) as [<- _].
      simpl in *. intros [= Hid _ _]. rewrite Hid in H1. congruence.
    + apply NoDup_filter_bool, NoDup_fmap_2_strong; [| apply NoDup_map_to_list].
      intros [c1 r1] [c2 r2] H1%elem_of_map_to_list H2%elem_of_map_to_list. simpl. intros ->.
      destruct (sm_conversation _ _ Hs _ _ H1) as [<- _], (sm_conversation _ _ Hs _ _ H2) as [<- _]. done.
  - apply NoDup_fmap_2_strong; [| apply NoDup_filter_bool, NoDup_map_to_list].
    intros [[t1 c1] r1] [[t2 c2] r2] Hx Hy. rewrite list_filter_bool_elem in Hx, Hy.
    destruct Hx as [Hx H1%elem_of_map_to_list], Hy as [Hy H2%elem_of_map_to_list]. simpl in *.
    destruct_bools. subst. intros [= -> _ _]. congruence.
  - intros x. rewrite !list_elem_of_fmap. split.
    + intros (row & -> & Hr). apply list_filter_bool_elem in Hr as [Hv Hr].
      apply list_elem_of_fmap in Hr as ([c row'] & -> & Hc%elem_of_map_to_list). simpl in *.
      destruct (sm_conversation _ _ Hs _ _ Hc) as (<- & cr & Hcr & Hu & Htl & _ & Hd & Hup).
      unfold visible_to in Hv. destruct_bools. exists ((t, sc_id row'), cr). simpl.
      split; [by rewrite Htl, Hup |]. apply list_filter_bool_elem. simpl. subst t.
      split; [| by apply elem_of_map_to_list]. rewrite !bool_decide_eq_true_2; [done | by apply Hd | congruence | done].
    + intros ([[t' c] cr] & -> & Hr). apply list_filter_bool_elem in Hr as [Hv Hr]. simpl in *.
      apply elem_of_map_to_list in Hr. destruct_bools. subst t'.
      destruct (sm_conversation_back _ _ Hs _ _ _ Hr) as (row & Hc & Ht).
      destruct (sm_conversation _ _ Hs _ _ Hc) as (Hid & cr' & Hcr' & Hu & Htl & _ & Hd & Hup).
      rewrite Ht in Hcr'. assert (cr' = cr) as -> by congruence.
      exists row. split; [rewrite Hid, Htl, Hup; [done | by apply Hd] |].
      apply list_filter_bool_elem. split.
      * unfold visible_to. rewrite !bool_decide_eq_true_2; [done | congruence | done | by apply Hd].
      * apply list_elem_of_fmap. exists (c, row). split; [done | by apply elem_of_map_to_list].
Qed.

Context (citations_encode : ∀ cs, ∃ v, citations_to_value cs = Ok v).

Lemma commit_tx_sim repo db c row cr k commit interrupted now :
  sim repo db → repo !! c = Some row → sc_deleted_at row = None →
  live_row (sc_tenant_id row) (sc_user_id row) c db = Some cr → conversation_sim row cr →
  retain_len (tc_parent_message_id commit) (sc_messages row) = Some k →
  fresh_message repo (sc_tenant_id row) (tc_user_message_id commit) →
  fresh_message repo (sc_tenant_id row) (tc_assistant_message_id commit) →
  tc_user_message_id commit ≠ tc_assistant_message_id commit →
  ∃ db', commit_tx (sc_tenant_id row) (sc_user_id row) now c commit interrupted
           (if interrupted then Some USER_INTERRUPTED else None) db = Ok db' ∧
         sim (<[c := committed row k commit interrupted now]> repo) db'.
Proof.
  intros Hs Hc Hd Hl Hcr Hk Hu Ha Hne. unfold commit_tx.
  destruct (citations_encode (tc_citations commit)) as [v Hv].
  pose proof (retain_len_le _ _ _ Hk) as Hle.
  rewrite Hl. cbn [ok_or]. rewrite (parent_sim _ _ _ _ _ Hs Hc), Hk, Hv.
  pose proof (upsert_user repo db c row k commit now Hs Hc Hle Hu) as H1.
  pose proof (upsert_assistant repo db c row k commit interrupted now v Hs Hc Hle Ha Hne) as H2.
  unfold new_user, new_assistant, kept_rows in H1, H2.
  cbn [result_bind]. rewrite H1. cbn [result_bind]. rewrite H2. cbn [result_bind].
  eexists. split; [done |].
  destruct Hcr as (Hcu & Hct & Hcn & Hcd & Hcup).
  assert (conversation_sim (committed row k commit interrupted now)
    (mkConvRow (cr_user_id cr) (cr_title cr) (Z.of_nat k + 2 + 1) now (cr_deleted_at cr))) as Hcr'.
  { split_and!; [done | done | | done | done]. unfold committed. cbn [sc_next_message_ordinal cr_next_message_ordinal].
    rewrite length_app, length_take, Nat.min_l by done. simpl. lia. }
  pose proof Hs as [S1 S2 S3 S4]. constructor.
  - intros c0 row0 H. destruct (decide (c = c0)) as [<- |].
    + rewrite lookup_insert_eq in H. injection H as <-. split; [by apply (S1 _ _ Hc) |].
      eexists. split; [apply lookup_insert_eq | done].
    + rewrite lookup_insert_ne in H by done. destruct (S1 _ _ H) as (Hid & cr0 & Hcr0 & Hsim0).
      split; [done |]. exists cr0. split; [| done]. simpl. by rewrite lookup_insert_ne by congruence.
  - intros t0 c0 cr0 H. simpl in H. destruct (decide ((sc_tenant_id row, c) = (t0, c0))) as [Heq | Hk0].
    + injection Heq as <- <-. eexists. split; [apply lookup_insert_eq | done].
    + rewrite lookup_insert_ne in H by done. destruct (S2 _ _ _ H) as (row0 & Hr0 & <-).
      destruct (decide (c = c0)) as [<- |]; [congruence |].
      exists row0. by rewrite lookup_insert_ne.
  - intros c0 row0 i m H Hi. by eapply (committed_forth repo db).
  - intros t0 id mr H. by apply (committed_back repo db c row k commit interrupted now v).
Qed.

Lemma commit_sim repo db t u now c commit interrupted :
  sim repo db →
  fresh_message repo t (tc_user_message_id commit) →
  fresh_message repo t (tc_assistant_message_id commit) →
  tc_user_message_id commit ≠ tc_assistant_message_id commit →
  let '(repo', r) := commit_turn_with_metadata t u now interrupted c commit repo in
  let '(db', r') := commit_pg_turn t u now c commit interrupted
                      (if interrupted then Some USER_INTERRUPTED else None) db in
  sim repo' db' ∧ result_sim detail_eq r r'.
Proof.
  intros Hs Hu Ha Hne. unfold commit_turn_with_metadata, commit_pg_turn.
  pose proof (visible_sim _ _ t u c Hs) as Hv.
  destruct (visible_row t u repo c) as [row | e].
  2: { destruct Hv as [He Hl]. unfold commit_tx. by rewrite Hl. }
  destruct Hv as (Hc & <- & <- & Hd & cr & Hl & Hcr).
  destruct (retain_len (tc_parent_message_id commit) (sc_messages row)) as [k|] eqn:Hk.
  2: { unfold commit_tx. rewrite Hl. cbn [ok_or]. by rewrite (parent_sim _ _ _ _ _ Hs Hc), Hk. }
  destruct (commit_tx_sim repo db c row cr k commit interrupted now) as (db' & -> & Hs'); [done.. |].
  pose proof (get_sim _ _ (sc_tenant_id row) (sc_user_id row) now c Hs') as [Hg Hr].
  destruct (pg_get_conversation _ _ _ _ db') as [db'' r']. cbn [fst snd] in *. split; [done |].
  assert (visible_row (sc_tenant_id row) (sc_user_id row)
            (<[c := committed row k commit interrupted now]> repo) c =
          Ok (committed row k commit interrupted now)) as Hvis.
  { unfold visible_row. rewrite lookup_insert_eq. simpl. unfold ensure_visible, visible_to. simpl.
    by rewrite !bool_decide_eq_true_2. }
  unfold repo_get_conversation in Hr. rewrite Hvis in Hr. exact Hr.
Qed.

Lemma create_sim repo db t u now id title :
  sim repo db → repo !! id = None →
  let '(repo', r) := repo_create_conversation t u now id title repo in
  let '(db', r') := pg_create_conversation t u now id title db in
  sim repo' db' ∧ result_sim detail_eq r r'.
Proof.
  intros Hs Hid. destruct (sim_create repo db t u id title now Hs Hid) as (Hs' & d & Hd & Hd').
  destruct (pg_create_conversation _ _ _ _ _ _), (repo_create_conversation _ _ _ _ _ _).
  simpl in *. by subst.
Qed.

Lemma method_sim repo db rq :
  sim repo db → fresh_request repo rq →
  sim (repo_method rq repo).1 (pg_method rq db).1 ∧
  reply_sim (repo_method rq repo).2 (pg_method rq db).2.
Proof.
  intros Hs Hf. destruct rq as [t u now id op]. unfold fresh_request in Hf. simpl in Hf.
  destruct op as [| title | c | c title | c title | c | c parent | c turn error | interrupted c commit];
    cbn [repo_method pg_method].
  - pose proof (list_sim _ _ t u now Hs) as H. by destruct (pg_list_conversations _ _ _ _).
  - pose proof (create_sim _ _ t u now id title Hs Hf) as H.
    by destruct (repo_create_conversation _ _ _ _ _ _), (pg_create_conversation _ _ _ _ _ _).
  - pose proof (get_sim _ _ t u now c Hs) as H. by destruct (pg_get_conversation _ _ _ _ _).
  - pose proof (rename_sim _ _ t u now c title Hs) as H.
    by destruct (repo_rename_conversation _ _ _ _ _ _), (pg_rename_conversation _ _ _ _ _ _).
  - pose proof (rename_default_sim _ _ t u now c title Hs) as H.
    by destruct (repo_rename_conversation_if_default _ _ _ _ _ _),
      (pg_rename_conversation_if_default _ _ _ _ _ _).
  - pose proof (delete_sim _ _ t u now c Hs) as H.
    by destruct (repo_delete_conversation _ _ _ _ _), (pg_delete_conversation _ _ _ _ _).
  - pose proof (tail_sim _ _ t u now c parent Hs) as H. by destruct (pg_assert_parent_tail _ _ _ _ _ _).
  - pose proof (turn_failed_sim _ _ t u now c turn error Hs) as H.
    by destruct (pg_record_turn_failed _ _ _ _ _ _ _).
  - destruct Hf as (Hu & Ha & Hne).
    pose proof (commit_sim _ _ t u now c commit interrupted Hs Hu Ha Hne) as H.
    destruct interrupted; unfold repo_commit_interrupted_turn, repo_commit_turn,
      pg_commit_interrupted_turn, pg_commit_turn in *;
    by destruct (commit_turn_with_metadata _ _ _ _ _ _ _), (commit_pg_turn _ _ _ _ _ _ _ _).
Qed.

Definition empty_tables : Tables := mkTables ∅ ∅ ∅ ∅ ∅.

(** Every request of the sequence brings new ids. *)
Fixpoint fresh_requests (repo : Repo) (rqs : list Request) : Prop :=
  match rqs with
  | [] => True
  | rq :: rqs => fresh_request repo rq ∧ fresh_requests (repo_method rq repo).1 rqs
  end.

Fixpoint repo_run (repo : Repo) (rqs : list Request) : list StoreReply :=
  match rqs with
  | [] => []
  | rq :: rqs => let '(repo, r) := repo_method rq repo in r :: repo_run repo rqs
  end.

Fixpoint pg_run (db : Tables) (rqs : list Request) : list StoreReply :=
  match rqs with
  | [] => []
  | rq :: rqs => let '(db, r) := pg_method rq db in r :: pg_run db rqs
  end.


(** ** A reused message id *)

Lemma kept_foreign (db : Tables) t u c p id mr :
  tb_message db !! (t, id) = Some mr → mr_conversation_id mr ≠ c →
  delete_after t u c p (tb_message db) !! (t, id) = Some mr.
Proof.
  intros Hmr Hc. apply delete_after_Some. split; [done |].
  unfold in_conversation. simpl. by rewrite (bool_decide_eq_false_2 (_ = c)), andb_false_r.
Qed.

(** Fact: The id of the user's message is the client's.  A turn committed without
    a parent under the id of the first message of another conversation of the
    tenant, whoever owns it, is accepted: that message's text and turn become the
    caller's, in the other conversation, and the caller's own conversation gets no
    user message. *)
Theorem commit_rewrites_foreign_message repo db t u c c' row' m now commit :
  sim repo db →
  (∃ row, visible_row t u repo c = Ok row) →
  repo !! c' = Some row' → sc_tenant_id row' = t → c' ≠ c →
  sc_messages row' !! 0%nat = Some m → tc_user_message_id commit = md_id m →
  fresh_message repo t (tc_assistant_message_id commit) → tc_parent_message_id commit = None →
  ∃ db' mr, commit_tx t u now c commit false None db = Ok db' ∧
    tb_message db' !! (t, md_id m) = Some mr ∧
    mr_user_id mr = sc_user_id row' ∧ mr_conversation_id mr = c' ∧
    mr_content mr = tc_user_text commit ∧ mr_turn_id mr = Some (tc_turn_id commit) ∧
    ∀ id mr', tb_message db' !! (t, id) = Some mr' → mr_conversation_id mr' = c →
      id = tc_assistant_message_id commit.
Proof.
  intros Hs Hv Hc' Ht Hcc Hm Hid Hfresh Hp. pose proof (visible_sim _ _ t u c Hs) as Hvis.
  destruct (visible_row t u repo c) as [row | e]; [| by destruct Hv].
  destruct Hvis as (Hc & Htr & Hur & Hd & cr & Hl & _). clear Hv. subst u.
  destruct (citations_encode (tc_citations commit)) as [v Hcit].
  destruct (sm_message _ _ Hs _ _ _ _ Hc' Hm) as (old & Hold & Hou & Hoc & Hoo & _). rewrite Ht in Hold.
  set (rows0 := delete_after t (sc_user_id row) c 0 (tb_message db)).
  assert (rows0 !! (t, md_id m) = Some old) as H0 by (apply kept_foreign; congruence).
  assert (∀ id mr, rows0 !! (t, id) = Some mr → mr_conversation_id mr = c → False) as Hgone.
  { intros id mr Hmr Hmc. rewrite <- Htr in Hmr.
    pose proof (kept_ordinal repo db c row 0 Hs Hc) as Hko. unfold kept_rows in Hko. rewrite Htr in *.
    pose proof (Hko id mr Hmr Hmc) as Hle. apply delete_after_Some in Hmr as [Hmr _].
    destruct (sim_back _ _ _ _ _ Hs Hmr) as (? & i & ? & _ & _ & _ & _ & _ & _ & Ho & _). lia. }
  assert (tc_assistant_message_id commit ≠ md_id m) as Hne.
  { intros Heq. by apply (Hfresh _ _ m Hc' Ht); [eapply list_elem_of_lookup_2 |]. }
  unfold commit_tx. rewrite Hl, Hp, Hcit. cbn [ok_or result_bind parent_ordinal].
  change (delete_after t (sc_user_id row) c 0 (tb_message db)) with rows0.
  rewrite Hid. set (user := user_row _ _ _ _ _). set (assistant := assistant_row _ _ _ _ _ _ _ _).
  set (rows1 := <[(t, md_id m) := keep_user user old]> rows0).
  assert (upsert_message t (md_id m) user (keep_user user) rows0 = Ok rows1) as ->.
  { unfold upsert_message. rewrite H0. destruct (ordinal_taken _ _ _ _) eqn:Ho; [| done]. exfalso.
    unfold ordinal_taken in Ho. apply existsb_exists in Ho as ([[t' id'] mr] & Hin & Hb).
    apply list_elem_of_In, elem_of_map_to_list in Hin. simpl in Hb. destruct_bools. subst t'.
    apply delete_after_Some in Hin as [Hin _].
    destruct (sim_back _ _ _ _ _ Hs Hin) as (row2 & i & m2 & Hc2 & _ & Hi & Hid2 & _ & _ & Ho2 & _).
    assert (row2 = row') as -> by congruence. assert (i = 0%nat) as -> by lia. congruence. }
  cbn [result_bind].
  assert (upsert_message t (tc_assistant_message_id commit) assistant (keep_assistant assistant) rows1 =
          Ok (<[(t, tc_assistant_message_id commit) := assistant]> rows1)) as ->.
  { apply upsert_fresh.
    - unfold rows1. rewrite lookup_insert_ne by congruence.
      destruct (rows0 !! (t, tc_assistant_message_id commit)) as [mr|] eqn:Hmr; [| done]. apply delete_after_Some in Hmr as [Hmr _].
      pose proof (fresh_lookup _ _ _ _ Hs Hfresh). congruence.
    - intros id' mr Hmr Hmc. exfalso. apply lookup_insert_Some in Hmr as [[_ <-] | [_ Hmr]].
      + simpl in Hmc. congruence.
      + by eapply Hgone. }
  cbn [result_bind]. exists (update_conversation t c (mkConvRow (cr_user_id cr) (cr_title cr) (0 + 2 + 1) now (cr_deleted_at cr))
    (set_turns (<[(t, tc_turn_id commit) := mkTurnRow (sc_user_id row) c (Some (md_id m))
       (Some (tc_assistant_message_id commit)) None "committed" None now]> (tb_turn db))
       (set_messages (<[(t, tc_assistant_message_id commit) := assistant]> rows1) db))), (keep_user user old).
  split; [done |]. split.
  { simpl. rewrite lookup_insert_ne by congruence. apply lookup_insert_eq. }
  split_and!; [done | done | done | done |].
  intros id mr Hmr Hmc. simpl in Hmr. apply lookup_insert_Some in Hmr as [[[= <-] _] | [_ Hmr]]; [done |].
  apply lookup_insert_Some in Hmr as [[_ <-] | [_ Hmr]]; [simpl in Hmc; congruence |].
  exfalso. by eapply Hgone.
Qed.

(** The states after a sequence of requests are related. *)
Lemma run_sim rqs repo db :
  sim repo db → fresh_requests repo rqs →
  sim (foldl (λ s rq, (repo_method rq s).1) repo rqs) (foldl (λ s rq, (pg_method rq s).1) db rqs).
Proof.
  revert repo db. induction rqs as [|rq rqs IH]; intros repo db Hs Hf; [done |].
  destruct Hf as [Hrq Hf]. destruct (method_sim _ _ _ Hs Hrq) as [Hs' _]. simpl. by apply IH.
Qed.
End requests.

(** ** A concrete tenant *)

Module StoreDemo.
#[export] Instance json : CitationJson := {|
  json_value := list CitationEntry;
  citations_to_value := Ok;
  citations_from_value := Ok;
  citations_roundtrip cs v := λ H, eq_sym H;
  empty_array := [];
  empty_array_reads := eq_refl;
|}.

Definition turn (id user_message assistant text : string) (parent : option string) : TurnCommit :=
  mkCommit id user_message text parent assistant ("re: " +:+ text) [].

Definition ann (now : DateTime) (ulid : string) (op : ChatOp) : Request := mkRequest "acme" "ann" now ulid op.
Definition ben (now : DateTime) (ulid : string) (op : ChatOp) : Request := mkRequest "acme" "ben" now ulid op.

(** Ann asks twice in [c1]; Ben, of the same tenant, has [c2]. *)
Definition requests : list Request :=
  [ann 1 "c1" (OpCreate None); ben 2 "c2" (OpCreate (Some "Mine"));
   ann 3 "" (OpCommit false "c1" (turn "t1" "m1" "a1" "one" None));
   ann 4 "" (OpCommit true "c1" (turn "t2" "m2" "a2" "two" (Some "a1")));
   ben 5 "" (OpGet "c1"); ann 6 "" OpList; ann 7 "" (OpAssertTail "c1" (Some "a2"))].

Definition repo : Repo := foldl (λ s rq, (repo_method rq s).1) ∅ requests.
Definition tables : Tables := foldl (λ s rq, (pg_method rq s).1) empty_tables requests.

(** Ben's turn reuses the id of Ann's first message. *)
Definition reuse : TurnCommit := turn "t9" "m1" "a9" "not what I said" None.
End StoreDemo.

#[local] Existing Instance StoreDemo.json.

#[local] Instance fresh_message_dec repo t id : Decision (fresh_message repo t id).
Proof.
  refine (cast_if (decide (map_Forall (λ _ row, sc_tenant_id row = t →
    Forall (λ m, md_id m ≠ id) (sc_messages row)) repo))).
  - intros c row x Hc Ht Hx. pose proof (m c row Hc Ht) as Hall.
    rewrite Forall_forall in Hall. by apply Hall.
  - intros Hf. apply n. intros c row Hc Ht. apply Forall_forall. intros x Hx. by eapply Hf.
Defined.

#[local] Instance fresh_request_dec repo rq : Decision (fresh_request repo rq).
Proof. unfold fresh_request. destruct (rq_op rq); apply _. Defined.

#[local] Instance fresh_requests_dec repo rqs : Decision (fresh_requests repo rqs).
Proof. revert repo. induction rqs as [|rq rqs IH]; intros repo; simpl; apply _. Defined.

Lemma store_demo_encodes cs : ∃ v, citations_to_value cs = Ok v.
Proof. by exists cs. Qed.

Lemma store_demo_fresh : fresh_requests ∅ StoreDemo.requests.
Proof. apply (bool_decide_unpack _). vm_compute. exact I. Qed.

(** What Ann is listed, and what Ben is told of her conversation. *)
Example store_demo_replies :
  omap (λ r, match r with DetailReply (Err e) => Some e | _ => None end)
    (pg_run empty_tables StoreDemo.requests) = [StNotFound] ∧
  omap (λ r, match r with DetailReply (Err e) => Some e | _ => None end)
    (repo_run ∅ StoreDemo.requests) = [StForbidden].
Proof. vm_compute. done. Qed.


Lemma store_demo_sim : sim StoreDemo.repo StoreDemo.tables.
Proof.
  apply run_sim; [apply store_demo_encodes | by constructor | apply store_demo_fresh].
Qed.

Lemma store_demo_first :
  ∃ row m, StoreDemo.repo !! "c1" = Some row ∧ sc_tenant_id row = "acme" ∧
           sc_user_id row = "ann" ∧ sc_messages row !! 0%nat = Some m ∧ md_id m = "m1".
Proof. eexists _, _. vm_compute. split_and!; reflexivity. Qed.

Lemma store_demo_ben : ∃ row, visible_row "acme" "ben" StoreDemo.repo "c2" = Ok row.
Proof. eexists. vm_compute. reflexivity. Qed.

Lemma commit_rewrites_foreign_message_witness :
  ∃ db' mr, commit_tx "acme" "ben" 8 "c2" StoreDemo.reuse false None StoreDemo.tables = Ok db' ∧
    tb_message db' !! ("acme", "m1") = Some mr ∧ mr_user_id mr = "ann" ∧
    mr_conversation_id mr = "c1" ∧ mr_content mr = "not what I said".
Proof.
  destruct store_demo_first as (row & m & Hrow & Ht & Hu & Hm & Hid).
  destruct (commit_rewrites_foreign_message store_demo_encodes StoreDemo.repo StoreDemo.tables
    "acme" "ben" "c2" "c1" row m 8 StoreDemo.reuse) as (db' & mr & H1 & H2 & H3 & H4 & H5 & _).
  - apply store_demo_sim.
  - apply store_demo_ben.
  - done.
  - done.
  - done.
  - done.
  - by rewrite Hid.
  - apply (bool_decide_unpack _). vm_compute. exact I.
  - done.
  - rewrite Hid in H2. rewrite Hu in H3. exists db', mr.
    split; [exact H1 |]. split; [exact H2 |]. split; [exact H3 |]. split; [exact H4 | exact H5].
Defined.
