(* ===== verification/ChatWorker.v ===== *)
(** * The chat worker (services/chat-worker/src/main.rs)

    One turn, from the command that requests it to its acknowledgement.  The
    program runs over [WkE]: the methods of the chat bus and of the repository it
    calls, the model, the clock, fresh ids, and what its [select!] woke for.  The
    tasks it spawns are programs of their own ([maintenance], [title_task]); the
    spawn is a call.

    [split_history] of crates/llm is here too: it is what the messages of a turn
    become at the provider.  The loop of [main] is in Commands.v, and what it reads
    from the environment in Llm.v. *)

From S2P Require Import Prelude Text Events Contracts ChatBus ChatStore.

Local Open Scope Z_scope.

Definition DEFAULT_CHAT_COMMAND_ACK_PROGRESS_SECONDS : Z := 30.
Definition DEFAULT_CHAT_STOP_POLL_SECONDS : Z := 1.

(** ** The model's side (crates/llm/src/lib.rs) *)

Inductive Role : Type := LlmSystem | LlmUser | LlmAssistant.

#[export] Instance Role_eq_dec : EqDecision Role.
Proof. solve_decision. Defined.

Record LlmMessage : Type := mkLlm {
  lm_role : Role;
  lm_content : string;
}.

Inductive LlmDelta : Type := LlmText (chunk : string).

Section provider.
(** The three constructors of rig's [Message]. *)
Context {Message : Type} (message_user message_system message_assistant : string → Message).

(** [history.push(Message::user(previous))] for a deferred user message *)
Definition flush_user (last_user : option string) (history : list Message) : list Message :=
  match last_user with Some previous => history ++ [message_user previous] | None => history end.

Fixpoint split_loop (messages : list LlmMessage) (history : list Message) (last_user : option string)
  : list Message * option string :=
  match messages with
  | [] => (history, last_user)
  | message :: messages =>
      match lm_role message with
      | LlmSystem =>
          split_loop messages (flush_user last_user history ++ [message_system (lm_content message)]) None
      | LlmUser => split_loop messages (flush_user last_user history) (Some (lm_content message))
      | LlmAssistant =>
          split_loop messages (flush_user last_user history ++ [message_assistant (lm_content message)])
            None
      end
  end.

Definition split_history (messages : list LlmMessage) : result (string * list Message) string :=
  let '(history, last_user) := split_loop messages [] None in
  match last_user with
  | Some prompt => Ok (prompt, history)
  | None => Err "chat request had no trailing user message"
  end.
End provider.

(** ** The prompt of a turn *)

Definition llm_role (role : MessageRole) : Role :=
  match role with RoleUser => LlmUser | RoleAssistant => LlmAssistant | RoleSystem => LlmSystem end.

Definition INTERRUPTED_NOTE : string :=
  "The previous assistant response was interrupted by the user and may be incomplete. Treat it as partial context, not as a finished answer.".

(** [llm_messages] *)
Definition llm_messages (history : list MessageDto) (user_text : string) : list LlmMessage :=
  let last_history_message_id := md_id <$> last history in
  flat_map (λ message,
    mkLlm (llm_role (md_role message)) (md_content message) ::
    (if bool_decide (Some (md_id message) = last_history_message_id) && md_interrupted message
     then [mkLlm LlmSystem INTERRUPTED_NOTE] else [])) history
  ++ [mkLlm LlmUser user_text].

(** ** Titles *)

Definition TITLE_INSTRUCTION : string :=
  "You produce concise chat titles. Respond with ONLY the title (no quotes, no preamble), 60 characters or less, summarising the user's question.".

Definition newline : string := String (Ascii.ascii_of_nat 10) EmptyString.

Definition title_prompt (user_msg assistant_msg : string) : list LlmMessage :=
  [mkLlm LlmSystem TITLE_INSTRUCTION;
   mkLlm LlmUser ("User: " +:+ user_msg +:+ newline +:+ newline +:+ "Assistant: " +:+ assistant_msg
                  +:+ newline +:+ newline +:+ "Title:")].

(** The two straight quotes and the four curly ones. *)
Definition quotes : list Z := [34; 39; 8220; 8221; 8216; 8217].

(** [clean_title] *)
Definition strip_quotes (title : string) : string :=
  let cs := chars title in
  if (2 <=? length cs)%nat then
    match head cs, last cs with
    | Some first, Some last =>
        if bool_decide (first ∈ quotes) && bool_decide (last ∈ quotes)
        then trim (collect (take (length cs - 2) (drop 1 cs)))
        else title
    | _, _ => title
    end
  else title.

Definition clean_title (raw : string) : string :=
  let title := strip_quotes (trim raw) in
  if (60 <? length (chars title))%nat then collect (take 60 (chars title)) else title.

(** ** The calls of a turn *)

(** What a [broadcast::Receiver] answers to [try_recv]. *)
Inductive TryRecv (A : Type) : Type :=
| Received (x : A) | TryEmpty | TryLagged | TryClosed.
Arguments Received {A} _.
Arguments TryEmpty {A}.
Arguments TryLagged {A}.
Arguments TryClosed {A}.

(** The branch the [select!] of [drive_turn] took. *)
Inductive Woken : Type :=
| MaintenanceChanged (value : option string)
| MaintenanceGone
| StopTick
| StopSignalled (signal : StopSignal)
| StopMissed
| StreamDelta (delta : option (result LlmDelta string)).

(** The branch the [select!] of the maintenance task took. *)
Inductive MaintenanceWoken : Type := ShutdownChanged (stop : bool) | MaintenanceTick.

Inductive WkE : Type → Type :=
| Now : WkE DateTime
| NewUlid : WkE string
(** ChatBus *)
| LoadLock (t c : string) : WkE (result (option ChatLock) ChatBusError)
| ClaimLock (t c turn worker : string) : WkE (result ChatLock ChatBusError)
| MarkLockTerminal (t c turn : string) (worker : option string) (terminal : ChatTerminalUpdate)
    : WkE (result ChatLock ChatBusError)
| MarkTerminalEventPublished (t c turn : string) : WkE (result unit ChatBusError)
| StopRequested (t c turn : string) : WkE (result bool ChatBusError)
| RenewLock (t c turn worker : string) : WkE (result ChatLock ChatBusError)
| ReleaseLock (t c turn : string) : WkE unit
| ProgressTurnRequested (turn : string) : WkE (result unit ChatBusError)
| AckTurnRequested (turn : string) : WkE (result unit ChatBusError)
| PublishEvent (event : ChatEventEnvelope) : WkE (result string ChatBusError)
| TryRecvStop : WkE (TryRecv StopSignal)
(** ChatRepository *)
| RepoGetConversation (t u c : string) : WkE (result ConversationDetail StorageError)
| RecordTurnFailed (t u c turn error : string) : WkE (result unit StorageError)
| CommitTurn (interrupted : bool) (t u c : string) (commit : TurnCommit)
    : WkE (result ConversationDetail StorageError)
| RenameIfDefault (t u c title : string) : WkE (result (option ConversationDetail) StorageError)
(** LlmClient *)
| StreamChat (messages : list LlmMessage) : WkE (result unit string)
| TitleStreamChat (messages : list LlmMessage) : WkE (result unit string)
| TitleNext : WkE (option (result LlmDelta string))
(** tokio *)
| Select : WkE Woken
| MaintenanceSelect : WkE MaintenanceWoken
| SendMaintenanceError (message : string) : WkE unit
| SpawnMaintenance : WkE unit
| ShutdownMaintenance : WkE unit
| SpawnTitle (lock : ChatLock) (assistant_text : string) : WkE unit.

(** [?] on a call of the bus inside an [anyhow] function. *)
Definition bus {A} (e : WkE (result A ChatBusError)) : prog WkE (result A string) :=
  let* r := call e in Ret (result_map_err chat_bus_error_to_string r).

Section worker.
Context (worker_id : string) (command : TurnRequested).

Abbreviation tenant := (tr_tenant_id command).
Abbreviation conversation := (tr_conversation_id command).
Abbreviation turn := (tr_turn_id command).

(** [publish_event] *)
Definition publish_event (event : ChatEvent) : prog WkE (result string string) :=
  let* ts := call Now in
  bus (PublishEvent (mkEnvelope CONTRACT_VERSION tenant (tr_user_id command) conversation turn ts event)).

(** [is_stop_for_turn] *)
Definition is_stop_for_turn (signal : StopSignal) : bool :=
  bool_decide (sg_tenant_id signal = tenant) && bool_decide (sg_conversation_id signal = conversation)
  && bool_decide (sg_turn_id signal = turn).

(** [received_stop], for a number of messages. *)
Fixpoint received_stop (rounds : nat) : prog WkE (option bool) :=
  match rounds with
  | O => Ret None
  | S rounds =>
      let* r := call TryRecvStop in
      match r with
      | Received signal => if is_stop_for_turn signal then Ret (Some true) else received_stop rounds
      | TryEmpty => Ret (Some false)
      | TryLagged => received_stop rounds
      | TryClosed => Ret (Some false)
      end
  end.

(** [lock_stop_requested] *)
Definition lock_stop_requested : prog WkE (result bool string) := bus (StopRequested tenant conversation turn).

(** [stop_requested] *)
Definition stop_requested (rounds : nat) : prog WkE (option (result bool string)) :=
  let* received := received_stop rounds in
  match received with
  | None => Ret None
  | Some true => Ret (Some (Ok true))
  | Some false => let* r := lock_stop_requested in Ret (Some r)
  end.

Definition FAILED_MESSAGE : string := "The assistant failed before the turn could be saved.".

(** [publish_failed_turn] *)
Definition publish_failed_turn (user_id message : string) : prog WkE (result unit string) :=
  let* _ := call (RecordTurnFailed tenant user_id conversation turn message) in
  let*? _ := publish_event (ChatError FAILED_MESSAGE) in
  let*? _ := publish_event (Clear ClearFailedBeforeCommit) in
  Ret (Ok tt).

(** [mark_terminal_event_published] *)
Definition mark_published (t c i : string) : prog WkE (result unit string) :=
  bus (MarkTerminalEventPublished t c i).

(** [fail_owned_turn] *)
Definition fail_owned_turn (lock : ChatLock) (message : string) : prog WkE (result unit string) :=
  let*? failed := bus (MarkLockTerminal tenant conversation turn (Some worker_id)
                         (mkTerminal LockFailed None None (Some message))) in
  let*? _ := publish_failed_turn (lk_user_id lock) message in
  mark_published (lk_tenant_id failed) (lk_conversation_id failed) (lk_turn_id failed).

(** What both commits of a turn write. *)
Definition turn_commit (lock : ChatLock) (assistant_message_id assistant_text : string) : TurnCommit :=
  mkCommit turn (lk_user_message_id lock) (lk_text lock) (lk_parent_message_id lock)
    assistant_message_id assistant_text [].

(** [commit_interrupted_turn] *)
Definition commit_interrupted_turn (lock : ChatLock) (assistant_text : string)
  : prog WkE (result unit string) :=
  let* assistant_message_id := call NewUlid in
  let* r := call (CommitTurn true tenant (lk_user_id lock) conversation
                    (turn_commit lock assistant_message_id assistant_text)) in
  match r with
  | Err error =>
      let* _ := fail_owned_turn lock
                  ("failed to commit interrupted chat turn: " +:+ storage_error_to_string error) in
      Ret (Ok tt)
  | Ok _ =>
      let*? terminal_lock := bus (MarkLockTerminal tenant conversation turn (Some worker_id)
        (mkTerminal LockInterrupted (Some assistant_message_id) (Some assistant_text) None)) in
      let*? _ := publish_event (Interrupted assistant_message_id assistant_text UserInterrupted) in
      mark_published (lk_tenant_id terminal_lock) (lk_conversation_id terminal_lock)
        (lk_turn_id terminal_lock)
  end.

(** The end of [drive_turn], once the stream has ended. *)
Definition commit_completed_turn (lock : ChatLock) (should_generate_title : bool)
    (assistant_text : string) : prog WkE (result unit string) :=
  let* assistant_message_id := call NewUlid in
  let* r := call (CommitTurn false tenant (lk_user_id lock) conversation
                    (turn_commit lock assistant_message_id assistant_text)) in
  match r with
  | Err error =>
      let* _ := fail_owned_turn lock
                  ("failed to commit completed chat turn: " +:+ storage_error_to_string error) in
      Ret (Ok tt)
  | Ok _ =>
      let*? terminal_lock := bus (MarkLockTerminal tenant conversation turn (Some worker_id)
        (mkTerminal Committed (Some assistant_message_id) None None)) in
      let*? _ := publish_event (Finish assistant_message_id FinishStop) in
      let*? _ := mark_published (lk_tenant_id terminal_lock) (lk_conversation_id terminal_lock)
                   (lk_turn_id terminal_lock) in
      if should_generate_title && negb (bool_decide (trim assistant_text = ""))
      then (let* _ := call (SpawnTitle lock assistant_text) in Ret (Ok tt))
      else Ret (Ok tt)
  end.

(** The loop of [drive_turn], for a number of rounds, and what follows it. *)
Fixpoint stream_loop (rounds : nat) (lock : ChatLock) (should_generate_title : bool)
    (assistant_text : string) : prog WkE (option (result unit string)) :=
  let stay := λ rounds, stream_loop rounds lock should_generate_title assistant_text in
  match rounds with
  | O => Ret None
  | S rounds =>
      let* woken := call Select in
      match woken with
      | MaintenanceChanged (Some message) =>
          let* r := fail_owned_turn lock message in Ret (Some r)
      | MaintenanceChanged None | MaintenanceGone => stay rounds
      | StopTick =>
          let* stop := lock_stop_requested in
          match stop with
          | Err e => Ret (Some (Err e))
          | Ok true => let* r := commit_interrupted_turn lock assistant_text in Ret (Some r)
          | Ok false => stay rounds
          end
      | StopSignalled signal =>
          if is_stop_for_turn signal
          then (let* r := commit_interrupted_turn lock assistant_text in Ret (Some r))
          else stay rounds
      | StopMissed => stay rounds
      | StreamDelta (Some (Ok (LlmText chunk))) =>
          let* r := publish_event (TextDelta chunk) in
          match r with
          | Err e => Ret (Some (Err e))
          | Ok _ => stream_loop rounds lock should_generate_title (assistant_text +:+ chunk)
          end
      | StreamDelta (Some (Err error)) =>
          let* r := fail_owned_turn lock ("LLM stream failed: " +:+ error) in Ret (Some r)
      | StreamDelta None =>
          let* r := commit_completed_turn lock should_generate_title assistant_text in Ret (Some r)
      end
  end.

(** [stream_chat] and the loop *)
Definition answer_turn (rounds : nat) (lock : ChatLock) (detail : ConversationDetail)
  : prog WkE (option (result unit string)) :=
  let* r := call (StreamChat (llm_messages (cd_messages detail) (lk_text lock))) in
  match r with
  | Err error =>
      let* r := fail_owned_turn lock ("LLM request failed: " +:+ error) in Ret (Some r)
  | Ok _ =>
      stream_loop rounds lock
        (bool_decide (cd_title detail = DEFAULT_TITLE) && bool_decide (cd_messages detail = [])) ""
  end.

(** [drive_turn]; [rounds] bounds the waiting messages it reads and the turns of
    its loop. *)
Definition drive_turn (rounds : nat) (lock : ChatLock) : prog WkE (option (result unit string)) :=
  let* r := call (RepoGetConversation tenant (lk_user_id lock) conversation) in
  match r with
  | Err e => Ret (Some (Err (storage_error_to_string e)))
  | Ok detail =>
      let* r := publish_event (TurnStarted turn) in
      match r with
      | Err e => Ret (Some (Err e))
      | Ok _ =>
          let* r := publish_event (UserMessage (lk_user_message_id lock) (Some turn) (lk_text lock)) in
          match r with
          | Err e => Ret (Some (Err e))
          | Ok _ =>
              let* stop := if lk_stop_requested lock then Ret (Some (Ok true)) else stop_requested rounds in
              match stop with
              | None => Ret None
              | Some (Err e) => Ret (Some (Err e))
              | Some (Ok true) => let* r := commit_interrupted_turn lock "" in Ret (Some r)
              | Some (Ok false) => answer_turn rounds lock detail
              end
          end
      end
  end.

(** [publish_missing_terminal_event] *)
Definition publish_missing_terminal_event (lock : ChatLock) : prog WkE (result unit string) :=
  if lk_terminal_event_published lock then Ret (Ok tt) else
  match lk_state lock with
  | Committed =>
      match lk_assistant_message_id lock with
      | None => Ret (Err "committed turn missing assistant message id")
      | Some assistant_message_id =>
          let*? _ := publish_event (Finish assistant_message_id FinishStop) in
          mark_published tenant conversation turn
      end
  | LockInterrupted =>
      match lk_assistant_message_id lock with
      | None => Ret (Err "interrupted turn missing assistant message id")
      | Some assistant_message_id =>
          let*? _ := publish_event (Interrupted assistant_message_id (default "" (lk_terminal_content lock))
                                      UserInterrupted) in
          mark_published tenant conversation turn
      end
  | LockFailed =>
      let*? _ := publish_event (ChatError FAILED_MESSAGE) in
      let*? _ := publish_event (Clear ClearFailedBeforeCommit) in
      mark_published tenant conversation turn
  | Requested | Running => Ret (Ok tt)
  end.

(** [ack_turn_requested(…).await?] and [release_lock(…).await] *)
Definition ack_and_release : prog WkE (result unit string) :=
  let*? _ := bus (AckTurnRequested turn) in
  let* _ := call (ReleaseLock tenant conversation turn) in
  Ret (Ok tt).

Definition LEASE_EXPIRED : string := "chat worker lease expired before completion".

(** The arms of [run_turn]: no lock, … *)
Definition abandoned_turn : prog WkE (result unit string) :=
  let*? _ := publish_failed_turn (tr_user_id command) "chat turn payload missing before worker claim" in
  bus (AckTurnRequested turn).

(** … a terminal lock, … *)
Definition settled_turn (existing : ChatLock) : prog WkE (result unit string) :=
  let*? _ := publish_missing_terminal_event existing in
  ack_and_release.

(** … a running lock whose lease has expired, … *)
Definition lost_turn : prog WkE (result unit string) :=
  let*? failed := bus (MarkLockTerminal tenant conversation turn None
                         (mkTerminal LockFailed None None (Some LEASE_EXPIRED))) in
  let* r := call (RecordTurnFailed tenant (lk_user_id failed) conversation turn LEASE_EXPIRED) in
  match r with
  | Err e => Ret (Err (storage_error_to_string e))
  | Ok _ =>
      let*? _ := publish_missing_terminal_event failed in
      ack_and_release
  end.

(** … and a requested one. *)
Definition claimed_turn (rounds : nat) : prog WkE (option (result unit string)) :=
  let* r := bus (ClaimLock tenant conversation turn worker_id) in
  match r with
  | Err e => Ret (Some (Err e))
  | Ok lock =>
      let* _ := call SpawnMaintenance in
      let* r := drive_turn rounds lock in
      match r with
      | None => Ret None
      | Some result =>
          let* _ := call ShutdownMaintenance in
          match result with
          | Err e => Ret (Some (Err e))
          | Ok _ => let* r := ack_and_release in Ret (Some r)
          end
      end
  end.

(** [run_turn]; [None] is a turn that is still running after [rounds]. *)
Definition run_turn (rounds : nat) : prog WkE (option (result unit string)) :=
  let* r := bus (LoadLock tenant conversation) in
  match r with
  | Err e => Ret (Some (Err e))
  | Ok None => let* r := abandoned_turn in Ret (Some r)
  | Ok (Some existing) =>
      if bool_decide (lk_turn_id existing ≠ turn)
      then Ret (Some (Err "conversation is owned by a different turn"))
      else if lock_is_terminal existing then (let* r := settled_turn existing in Ret (Some r))
      else if bool_decide (lk_state existing = Running) then
        let* now := call Now in
        if negb (is_expired existing now)
        then Ret (Some (Err "chat turn is already running with a fresh lease"))
        else (let* r := lost_turn in Ret (Some r))
      else claimed_turn rounds
  end.

(** ** The tasks of a turn *)

(** The loop of [start_turn_maintenance], for a number of rounds. *)
Fixpoint maintenance (rounds : nat) : prog WkE unit :=
  match rounds with
  | O => Ret tt
  | S rounds =>
      let* woken := call MaintenanceSelect in
      match woken with
      | ShutdownChanged stop => if stop : bool then Ret tt else maintenance rounds
      | MaintenanceTick =>
          let* _ := call (ProgressTurnRequested turn) in
          let* r := call (RenewLock tenant conversation turn worker_id) in
          match r with
          | Ok _ => maintenance rounds
          | Err error =>
              call (SendMaintenanceError ("chat turn lock renewal failed: " +:+ chat_bus_error_to_string error))
          end
      end
  end.

(** The loop of [generate_title] *)
Fixpoint title_output (rounds : nat) (output : string) : prog WkE (option (result string unit)) :=
  match rounds with
  | O => Ret None
  | S rounds =>
      let* item := call TitleNext in
      match item with
      | None => Ret (Some (Ok output))
      | Some (Ok (LlmText text)) => title_output rounds (output +:+ text)
      | Some (Err _) => Ret (Some (Err tt))
      end
  end.

(** [generate_title] *)
Definition generate_title (rounds : nat) (user_msg assistant_msg : string)
  : prog WkE (option string) :=
  let* r := call (TitleStreamChat (title_prompt user_msg assistant_msg)) in
  match r with
  | Err _ => Ret None
  | Ok _ =>
      let* output := title_output rounds "" in
      Ret (match output with
           | Some (Ok output) =>
               let title := clean_title output in
               if bool_decide (title = "") then None else Some title
           | _ => None
           end)
  end.

(** [spawn_title_generation] *)
Definition title_task (rounds : nat) (lock : ChatLock) (assistant_text : string) : prog WkE unit :=
  let* title := generate_title rounds (lk_text lock) assistant_text in
  match title with
  | None => Ret tt
  | Some title =>
      let* r := call (RenameIfDefault tenant (lk_user_id lock) conversation title) in
      match r with
      | Ok (Some _) => let* _ := publish_event (TitleUpdated title) in Ret tt
      | Ok None | Err _ => Ret tt
      end
  end.
End worker.

(** ** Intervals *)

Definition ack_progress_interval (env : string → option string) : Z :=
  duration_from_env env "CHAT_COMMAND_ACK_PROGRESS_SECONDS" DEFAULT_CHAT_COMMAND_ACK_PROGRESS_SECONDS.
Definition stop_poll_interval (env : string → option string) : Z :=
  duration_from_env env "CHAT_STOP_POLL_SECONDS" DEFAULT_CHAT_STOP_POLL_SECONDS.
