(* ===== verification/Llm.v ===== *)
(** * The model clients

    crates/llm/src/lib.rs: which provider a chat worker talks to, which one names
    its conversations, and which items of a provider's stream become text.  The
    clients themselves are the crate rig's, and [str::to_lowercase] is a table of
    Unicode: both are parameters.  [split_history] is in ChatWorker.v. *)

From S2P Require Import Prelude Text ServiceConfig ChatWorker.

Local Open Scope Z_scope.

(** ** The environment *)

Section env.
Variable env : string → option string.

(** A variable that is unset, or blank, is missing. *)
Definition env_value (key : string) : option string :=
  value ← env key;
  let value := trim value in
  if negb (is_empty value) then Some value else None.

Definition require_env (key : string) : result string string :=
  ok_or (env_value key) ("missing required env var " +:+ key).

Definition env_or (key default_value : string) : string := default default_value (env_value key).

Definition env_flag (key : string) (default_value : bool) : bool :=
  default default_value
    (value ← env key;
     let value := to_ascii_lowercase (trim value) in
     if negb (is_empty value)
     then Some (negb (bool_decide (value ∈ ["0"; "false"; "no"; "off"])))
     else None).

(** ** The providers *)

(** rig: a client is built from a key, for an OpenAI-compatible one also from a
    base URL, and becomes an agent of a model. *)
Class Providers (Agent : Type) := {
  anthropic_client (api_key model preamble : string) : result Agent string;
  openai_client (api_key model preamble : string) : result Agent string;
  gemini_client (api_key model preamble : string) : result Agent string;
  completions_client (api_key base_url model preamble : string) : result Agent string;
}.

Section providers.
Context {Agent : Type} `{!Providers Agent} (to_lowercase : string → string).

Definition PREAMBLE : string := "You are delphi, a research assistant.".

Definition anthropic_from_env (model : string) : result Agent string :=
  let? api_key := require_env "DELPHI_PROVIDER_ANTHROPIC_API_KEY" in
  result_map_err (λ error, "anthropic client: " +:+ error) (anthropic_client api_key model PREAMBLE).

Definition openai_from_env (model : string) : result Agent string :=
  let? api_key := require_env "DELPHI_PROVIDER_OPENAI_API_KEY" in
  result_map_err (λ error, "openai client: " +:+ error) (openai_client api_key model PREAMBLE).

Definition openai_compat_new (model api_key base_url : string) : result Agent string :=
  result_map_err (λ error, "openai-compatible client: " +:+ error)
    (completions_client api_key base_url model PREAMBLE).

Definition minimax_from_env (model : string) : result Agent string :=
  let? api_key := require_env "DELPHI_PROVIDER_MINIMAX_API_KEY" in
  let base_url := env_or "DELPHI_PROVIDER_MINIMAX_BASE_URL" "https://api.minimax.io/v1" in
  openai_compat_new model api_key base_url.

Definition gemini_from_env (model : string) : result Agent string :=
  let? api_key := require_env "DELPHI_PROVIDER_GOOGLE_API_KEY" in
  result_map_err (λ error, "gemini client: " +:+ error) (gemini_client api_key model PREAMBLE).

Definition llm_from_env : result Agent string :=
  let? provider := require_env "DELPHI_PROVIDER" in
  let provider := to_lowercase provider in
  let? model := require_env "DELPHI_PROVIDER_MODEL" in
  if bool_decide (provider = "anthropic") then anthropic_from_env model
  else if bool_decide (provider = "openai") then openai_from_env model
  else if bool_decide (provider = "minimax") then minimax_from_env model
  else if bool_decide (provider ∈ ["gemini"; "google"]) then gemini_from_env model
  else Err ("unknown DELPHI_PROVIDER=" +:+ provider).

Definition title_llm_from_env (chat_llm : Agent) : result Agent string :=
  if negb (env_flag "DELPHI_TITLE_ENABLED" true) then Ok chat_llm
  else
    let provider := to_lowercase (env_or "DELPHI_TITLE_PROVIDER" "openai") in
    if bool_decide (provider ∈ ["openai"; "openai-compatible"]) then
      let base_url := env_or "DELPHI_TITLE_BASE_URL" "http://title-llm:80/v1" in
      let model := env_or "DELPHI_TITLE_MODEL" "Qwen2.5-0.5B-Instruct" in
      let api_key := env_or "DELPHI_TITLE_API_KEY" "sk-noauth" in
      openai_compat_new model api_key base_url
    else Err ("unknown DELPHI_TITLE_PROVIDER=" +:+ provider).

(** What [main] of the chat worker reads before it connects to anything: its
    configuration, its name and both clients, or no worker.  [uuid] is a fresh one. *)
Definition worker_settings (uuid : string) : result (ServiceConfig * string * Agent * Agent) string :=
  let? config := from_env env 3003 in
  let worker_id :=
    default ("chat-worker-" +:+ uuid)
      (value ← env "CHAT_WORKER_ID"; if negb (is_empty (trim value)) then Some value else None) in
  let? llm := llm_from_env in
  let? title_llm := title_llm_from_env llm in
  Ok (config, worker_id, llm, title_llm).
End providers.
End env.

(** ** The stream of an answer *)

(** rig's items, less what the code does not look at. *)
Inductive StreamedAssistantContent : Type :=
| StreamedText (text : string)
| ToolCall | ToolCallDelta | Reasoning | ReasoningDelta | Final.

Inductive MultiTurnStreamItem : Type :=
| StreamAssistantItem (content : StreamedAssistantContent)
| StreamUserItem | FinalResponse | OtherItem.

Definition map_assistant (content : StreamedAssistantContent) : option LlmDelta :=
  match content with
  | StreamedText text => Some (LlmText text)
  | ToolCall | ToolCallDelta => None
  | Reasoning | ReasoningDelta | Final => None
  end.

Definition map_multi_turn (item : MultiTurnStreamItem) : option LlmDelta :=
  match item with
  | StreamAssistantItem content => map_assistant content
  | StreamUserItem | FinalResponse => None
  | OtherItem => None
  end.

(** [filter_map] of the provider's stream, as the list of what it yields. *)
Definition map_provider_stream (stream : list (result MultiTurnStreamItem string)) : list (result LlmDelta string) :=
  omap (λ chunk,
    match chunk with
    | Ok item => Ok <$> map_multi_turn item
    | Err error => Some (Err ("llm stream: " +:+ error))
    end) stream.

(** [stream_chat], the same for every client: [agent_stream] is that of its agent. *)
Definition stream_chat {Message : Type} (message_user message_system message_assistant : string → Message)
    (agent_stream : string → list Message → list (result MultiTurnStreamItem string))
    (messages : list LlmMessage) : result (list (result LlmDelta string)) string :=
  let? (prompt, history) := split_history message_user message_system message_assistant messages in
  Ok (map_provider_stream (agent_stream prompt history)).

(** ** Which variables count *)

Section selection.
Context {Agent : Type} `{!Providers Agent} (to_lowercase : string → string).

(** The variables of the provider that is named. *)
Definition provider_vars (env : string → option string) : list string :=
  match env_value env "DELPHI_PROVIDER" with
  | None => []
  | Some provider =>
      let provider := to_lowercase provider in
      if bool_decide (provider = "anthropic") then ["DELPHI_PROVIDER_ANTHROPIC_API_KEY"]
      else if bool_decide (provider = "openai") then ["DELPHI_PROVIDER_OPENAI_API_KEY"]
      else if bool_decide (provider = "minimax")
      then ["DELPHI_PROVIDER_MINIMAX_API_KEY"; "DELPHI_PROVIDER_MINIMAX_BASE_URL"]
      else if bool_decide (provider ∈ ["gemini"; "google"]) then ["DELPHI_PROVIDER_GOOGLE_API_KEY"]
      else []
  end.

(** Fact: the client of the conversations depends on the provider, the model and the
    variables of that provider: the key of another provider is never used. *)
Theorem only_own_key env env' :
  (∀ key, key ∈ ["DELPHI_PROVIDER"; "DELPHI_PROVIDER_MODEL"] ++ provider_vars env → env' key = env key) →
  llm_from_env env' to_lowercase = llm_from_env env to_lowercase.
Proof.
  intros Hkeys.
  assert (∀ key, key ∈ ["DELPHI_PROVIDER"; "DELPHI_PROVIDER_MODEL"] ++ provider_vars env →
    env_value env' key = env_value env key) as Hv by (intros key Hk; unfold env_value; by rewrite (Hkeys key Hk)).
  unfold llm_from_env, require_env.
  rewrite (Hv "DELPHI_PROVIDER") by set_solver. rewrite (Hv "DELPHI_PROVIDER_MODEL") by set_solver.
  unfold provider_vars in Hv. destruct (env_value env "DELPHI_PROVIDER") as [provider|]; [| done]. cbn [ok_or result_bind].
  destruct (env_value env "DELPHI_PROVIDER_MODEL") as [model|]; [| done]. cbn [ok_or result_bind].
  unfold anthropic_from_env, openai_from_env, minimax_from_env, gemini_from_env, require_env, env_or.
  repeat case_bool_decide; rewrite ?Hv by set_solver; done.
Qed.

(** Fact: with nothing in the environment but the provider of the conversations,
    titles come from the local endpoint, under its own model; a blank variable is
    an unset one. *)
Theorem titles_are_local env chat_llm :
  to_lowercase "openai" = "openai" →
  (∀ key, key ∈ ["DELPHI_TITLE_ENABLED"; "DELPHI_TITLE_PROVIDER"; "DELPHI_TITLE_BASE_URL"; "DELPHI_TITLE_MODEL";
                 "DELPHI_TITLE_API_KEY"] → default "" (env key) = "") →
  title_llm_from_env env to_lowercase chat_llm =
    openai_compat_new "Qwen2.5-0.5B-Instruct" "sk-noauth" "http://title-llm:80/v1".
Proof.
  intros Hlower Hblank.
  assert (∀ key, default "" (env key) = "" → env_value env key = None) as Hv.
  { intros key. unfold env_value. destruct (env key) as [value|]; [| done]. simpl. by intros ->. }
  assert (env_flag env "DELPHI_TITLE_ENABLED" true = true) as Hflag.
  { specialize (Hblank "DELPHI_TITLE_ENABLED" ltac:(set_solver)). unfold env_flag.
    destruct (env "DELPHI_TITLE_ENABLED") as [value|]; [| done]. cbn in Hblank. by subst. }
  unfold title_llm_from_env, env_or. rewrite Hflag.
  rewrite !Hv by (apply Hblank; set_solver). cbn [negb default]. by rewrite Hlower.
Qed.
End selection.

(** ** What becomes of a stream *)

Definition delta_text (d : LlmDelta) : string := match d with LlmText text => text end.
Definition item_text (item : MultiTurnStreamItem) : string :=
  match item with StreamAssistantItem (StreamedText text) => text | _ => "" end.

Definition texts (l : list string) : string := foldr String.append "" l.

(** Fact: up to its first error a stream yields exactly the text of its items, in
    order, and then the error. *)
Theorem stream_is_its_text items error rest :
  ∃ deltas,
    map_provider_stream ((Ok <$> items) ++ Err error :: rest) =
      (Ok <$> deltas) ++ Err ("llm stream: " +:+ error) :: map_provider_stream rest ∧
    texts (delta_text <$> deltas) = texts (item_text <$> items).
Proof.
  induction items as [|item items (deltas & Hs & Ht)]; [by exists [] |].
  unfold map_provider_stream in *. cbn [fmap list_fmap app omap list_omap].
  destruct item as [[text| | | | |]| | |]; cbn [map_multi_turn map_assistant fmap option_fmap option_map item_text];
    [exists (LlmText text :: deltas) | exists deltas; split; [exact Hs | exact Ht] ..].
  split; [by rewrite Hs |]. cbn. f_equal. exact Ht.
Qed.
