(* ===== verification/Startup.v ===== *)
(** * How the services start, and what they declare

    The wiring of the four services up to the point where they serve: [main] of
    each, [DocumentInfra] (crates/document-adapters/src/lib.rs), the topology
    (jetstream/mod.rs, [WorkQueueConsumer::connect] of work_queue.rs) and
    [NatsChatBus::connect] (crates/nats/src/lib.rs).  Streams, buckets and durable
    consumers are the state of the JetStream server they share; one service is the
    author of the document topology, the others bind to it. *)

From S2P Require Import Prelude Text Events Keys Ports WorkQueue Config ServiceConfig JetStream Migrate.
From S2P Require Import Contracts ChatBus ChatWorker Llm.

Local Open Scope Z_scope.

(** ** Configurations, as the code writes them *)

Inductive Retention : Type := RetainLimits | RetainWorkQueue.

#[export] Instance Retention_eq_dec : EqDecision Retention.
Proof. solve_decision. Defined.

Record StreamConfig : Type := mkStream {
  st_name : string;
  st_subjects : list string;
  st_retention : Retention;
  st_max_age : Z;
  st_discard_new : bool;
  st_allow_direct : bool;
  st_duplicate_window : Z;
}.

#[export] Instance StreamConfig_eq_dec : EqDecision StreamConfig.
Proof. solve_decision. Defined.

Record BucketConfig : Type := mkBucket {
  bk_bucket : string;
  bk_history : Z;
  bk_max_age : Z;
}.

(** A durable pull consumer with explicit acknowledgements; [None] is the
    server's own limit. *)
Record ConsumerConfig : Type := mkConsumer {
  cf_durable_name : string;
  cf_filter_subject : string;
  cf_ack_wait : Z;
  cf_max_deliver : option Z;
  cf_max_ack_pending : Z;
}.

Definition DOCUMENT_EVENTS_STREAM : string := "DOCUMENT_EVENTS".
Definition DOCUMENT_WORK_STREAM : string := "DOCUMENT_WORK".
Definition UPLOAD_STATE_BUCKET : string := "UPLOAD_STATE".
Definition CHAT_COMMANDS_STREAM : string := "CHAT_COMMANDS".
Definition CHAT_EVENTS_STREAM : string := "CHAT_EVENTS".
Definition CHAT_LOCKS_BUCKET : string := "CHAT_LOCKS".
Definition CHAT_REPLAY_BUCKET : string := "CHAT_REPLAY".
Definition CHAT_WORKER_CONSUMER : string := "chat-worker-turns".

Definition document_events_config : StreamConfig :=
  mkStream DOCUMENT_EVENTS_STREAM ["documents.>"] RetainLimits 0 true true DUPLICATE_WINDOW.
Definition document_work_config : StreamConfig :=
  mkStream DOCUMENT_WORK_STREAM ["document_work.>"] RetainWorkQueue 0 false false DUPLICATE_WINDOW.
Definition upload_state_config (upload_ttl : Z) : BucketConfig := mkBucket UPLOAD_STATE_BUCKET 1 upload_ttl.

(** ** The calls of a start *)

Inductive StartE : Type → Type :=
| ConnectNats (url : string) : StartE (result unit string)
| CreateStream (config : StreamConfig) : StartE (result unit string)
| GetOrCreateStream (config : StreamConfig) : StartE (result unit string)
| GetStream (name : string) : StartE (result unit string)
| CreateBucket (config : BucketConfig) : StartE (result unit string)
| GetBucket (name : string) : StartE (result unit string)
| CreateConsumer (stream : string) (config : ConsumerConfig) : StartE (result unit string)
| GetOrCreateConsumer (stream : string) (config : ConsumerConfig) : StartE (result unit string)
| CreatePush (stream filter_subject : string) : StartE (result unit string)
| OpenMessages : StartE (result unit string)
| SubscribeSubject (subject : string) : StartE (result unit string)
| ConnectPg (url : string) (max_connections : Z) : StartE (result unit string)
| RunMigrations : StartE (result Z MigrateError)
| BindTcp (addr : SocketAddr) : StartE (result unit string).

(** [error.rs] *)
Inductive AdapterError : Type :=
| AeConnect (message : string)
| AeTopology (message : string)
| AeDatabase (message : string)
| AeMigrate (error : MigrateError)
| AeConfig (error : ConfigError).

Definition adapter_error_to_string (e : AdapterError) : string :=
  match e with
  | AeConnect message => "NATS connection failed: " +:+ message
  | AeTopology message => "NATS topology setup failed: " +:+ message
  | AeDatabase message => "Postgres error: " +:+ message
  | AeMigrate error => migrate_error_to_string error
  | AeConfig error => config_error_to_string error
  end.

(** [call(…).await.map_err(f)?] *)
Definition start {A E F} (e : StartE (result A E)) (f : E → F) : prog StartE (result A F) :=
  let* r := call e in Ret (result_map_err f r).

Definition topology (what : string) (error : string) : AdapterError := AeTopology (what +:+ ": " +:+ error).

(** ** crates/document-adapters *)

Definition ensure_topology (upload_ttl : Z) : prog StartE (result unit AdapterError) :=
  let*? _ := start (CreateStream document_events_config) (topology ("create " +:+ DOCUMENT_EVENTS_STREAM)) in
  let*? _ := start (CreateStream document_work_config) (topology ("create " +:+ DOCUMENT_WORK_STREAM)) in
  start (CreateBucket (upload_state_config upload_ttl)) (topology ("create " +:+ UPLOAD_STATE_BUCKET)).

Definition bind_upload_state : prog StartE (result unit AdapterError) :=
  start (GetBucket UPLOAD_STATE_BUCKET)
    (λ error, AeTopology ("open " +:+ UPLOAD_STATE_BUCKET +:+ ": " +:+ error +:+
       ". api-service declares the document topology and must start first; everything else binds to it and never declares it.")).

Definition connect_jetstream_as_author (nats_url : string) (upload_ttl : Z) : prog StartE (result unit AdapterError) :=
  let*? _ := start (ConnectNats nats_url) AeConnect in
  ensure_topology upload_ttl.

Definition connect_jetstream (nats_url : string) : prog StartE (result unit AdapterError) :=
  let*? _ := start (ConnectNats nats_url) AeConnect in
  bind_upload_state.

Definition connect_postgres (database_url : string) (max_connections : Z) : prog StartE (result unit AdapterError) :=
  let*? _ := start (ConnectPg database_url max_connections) AeDatabase in
  let*? _ := start RunMigrations AeMigrate in
  Ret (Ok tt).

(** [JetStreamEventStore::new] *)
Definition event_store_new : prog StartE (result unit AdapterError) :=
  start (GetStream DOCUMENT_EVENTS_STREAM) (topology ("open " +:+ DOCUMENT_EVENTS_STREAM)).

Section services.
Variable env : string → option string.

(** [DocumentInfra::assemble] *)
Definition infra_assemble (database_url : string) (pg_max_connections : Z) : prog StartE (result unit AdapterError) :=
  match s3_config env with
  | Err error => Ret (Err (AeConfig error))
  | Ok _ =>
      let*? _ := connect_postgres database_url pg_max_connections in
      event_store_new
  end.

Definition connect_as_author (database_url : string) (pg_max_connections : Z) (nats_url : string) (upload_ttl : Z)
    : prog StartE (result unit AdapterError) :=
  let*? _ := connect_jetstream_as_author nats_url upload_ttl in
  infra_assemble database_url pg_max_connections.

(** [DocumentInfra::connect] *)
Definition infra_connect (database_url : string) (pg_max_connections : Z) (nats_url : string)
    : prog StartE (result unit AdapterError) :=
  let*? _ := connect_jetstream nats_url in
  infra_assemble database_url pg_max_connections.

(** [WorkQueueConsumer::connect] *)
Definition work_consumer_config (c : WorkerConfig) : ConsumerConfig :=
  mkConsumer DOCUMENT_WORK_CONSUMER UPLOAD_COMPLETED_SUBJECT (wc_ack_wait c) (Some (wc_max_deliver c))
    (u64_as_i64 (wc_max_ack_pending c)).

Definition work_consumer_connect (c : WorkerConfig) : prog StartE (result unit AdapterError) :=
  let*? _ := start (GetStream DOCUMENT_WORK_STREAM) (topology ("open " +:+ DOCUMENT_WORK_STREAM)) in
  start (CreateConsumer DOCUMENT_WORK_STREAM (work_consumer_config c)) (topology ("create " +:+ DOCUMENT_WORK_CONSUMER)).

(** ** crates/nats *)

Definition event_stream_config : StreamConfig :=
  mkStream CHAT_EVENTS_STREAM ["chat.events.*.*"] RetainLimits (chat_events_max_age env) false false 0.
Definition command_stream_config : StreamConfig :=
  mkStream CHAT_COMMANDS_STREAM [command_turn_requested] RetainWorkQueue 0 false false (from_secs (10 * 60)).
Definition locks_config : BucketConfig := mkBucket CHAT_LOCKS_BUCKET 1 (chat_lock_ttl env).
Definition replay_config : BucketConfig := mkBucket CHAT_REPLAY_BUCKET 1 (chat_replay_ttl env).
Definition command_consumer_config : ConsumerConfig :=
  mkConsumer CHAT_WORKER_CONSUMER command_turn_requested (chat_command_ack_wait env) None 64.

Definition payload_error (what : string) (error : string) : ChatBusError := Payload (what +:+ ": " +:+ error).

Definition configure_jetstream : prog StartE (result unit ChatBusError) :=
  let*? _ := start (CreateStream command_stream_config) (payload_error "create command stream") in
  start (CreateStream event_stream_config) (payload_error "create event stream").

Record NatsChatBusOptions : Type := mkOptions {
  op_subscribe_commands : bool;
  op_subscribe_events : bool;
  op_stop_worker_id : option string;
}.

Definition default_options : NatsChatBusOptions := mkOptions false false None.

(** [if condition { … }] *)
Definition when {E} (condition : bool) (p : prog StartE (result unit E)) : prog StartE (result unit E) :=
  if condition then p else Ret (Ok tt).

(** The tasks that are spawned are in Commands.v. *)
Definition start_subscribers (options : NatsChatBusOptions) : prog StartE (result unit ChatBusError) :=
  let*? _ := when (op_subscribe_commands options)
    (let*? _ := start (GetOrCreateStream command_stream_config) (payload_error "open command stream") in
     start (GetOrCreateConsumer CHAT_COMMANDS_STREAM command_consumer_config) (payload_error "create command consumer")) in
  let*? _ := when (op_subscribe_events options)
    (let*? _ := start (GetOrCreateStream event_stream_config) (payload_error "open event stream") in
     let*? _ := start (CreatePush CHAT_EVENTS_STREAM "chat.events.>") (payload_error "create event consumer") in
     start OpenMessages (payload_error "subscribe events")) in
  match op_stop_worker_id options with
  | Some worker_id => start (SubscribeSubject (subjects_control worker_id)) (payload_error "subscribe stops")
  | None => Ret (Ok tt)
  end.

(** [NatsChatBus::connect] *)
Definition nats_connect (url : string) (options : NatsChatBusOptions) : prog StartE (result unit ChatBusError) :=
  let*? _ := start (ConnectNats url) (payload_error "connect to NATS") in
  let*? _ := configure_jetstream in
  let*? _ := start (CreateBucket locks_config) (payload_error "create chat lock bucket") in
  let*? _ := start (CreateBucket replay_config) (payload_error "create chat replay bucket") in
  start_subscribers options.

(** ** The services *)

(** [PgRepository::connect] of crates/storage *)
Definition pg_repository_connect (database_url : string) (max_connections : Z) : prog StartE (result unit string) :=
  start (ConnectPg database_url (Z.max max_connections 1))
    (λ error, "storage error: connect to Postgres: " +:+ error).

(** [AuthVerifier::from_env]: the endpoint, the issuer and the audience it
    expects, and the tenant of a token without one. *)
Definition verifier_from_env : result (string * option string * option string * string) string :=
  let? jwks_url := ok_or (env "AUTH_JWKS_URL") "AUTH_JWKS_URL is required" in
  Ok (jwks_url, env "AUTH_EXPECTED_ISSUER", env "AUTH_EXPECTED_AUDIENCE",
      default "tenant-a" (env "AUTH_DEFAULT_TENANT")).

(** [?] on a value, and on a program, in [main]. *)
Definition value {A E} (r : result A E) (f : E → string) : prog StartE (result A string) :=
  Ret (result_map_err f r).
Definition within_main {A E} (p : prog StartE (result A E)) (f : E → string) : prog StartE (result A string) :=
  let* r := p in Ret (result_map_err f r).

Definition bind_tcp (c : ServiceConfig) : prog StartE (result unit string) := start (BindTcp (sc_bind_addr c)) id.

Definition api_service : prog StartE (result unit string) :=
  let*? config := value (from_env env 3001) id in
  let*? _ := value verifier_from_env id in
  let*? upload_ttl := value (topology_config env) config_error_to_string in
  let*? _ := within_main (connect_as_author (sc_database_url config) (sc_pg_max_connections config)
                            (sc_nats_url config) upload_ttl) adapter_error_to_string in
  let*? _ := value (api_config env) config_error_to_string in
  let*? _ := pg_repository_connect (sc_database_url config) (sc_pg_max_connections config) in
  let*? _ := within_main (nats_connect (sc_nats_url config) default_options) chat_bus_error_to_string in
  bind_tcp config.

Definition document_worker : prog StartE (result unit string) :=
  let*? config := value (from_env env 3004) id in
  let*? _ := value (worker_config env) config_error_to_string in
  let*? _ := within_main (infra_connect (sc_database_url config) (sc_pg_max_connections config) (sc_nats_url config))
               adapter_error_to_string in
  bind_tcp config.

Definition realtime_service : prog StartE (result unit string) :=
  let*? config := value (from_env env 3002) id in
  let*? _ := value verifier_from_env id in
  let*? _ := within_main (nats_connect (sc_nats_url config) default_options) chat_bus_error_to_string in
  let*? _ := pg_repository_connect (sc_database_url config) (sc_pg_max_connections config) in
  bind_tcp config.

Section chat_worker.
Context {Agent : Type} `{!Providers Agent} (to_lowercase : string → string) (uuid : string).

Definition chat_worker : prog StartE (result unit string) :=
  let*? settings := value (worker_settings env to_lowercase uuid) id in
  let '(config, worker_id, _, _) := settings in
  let*? _ := pg_repository_connect (sc_database_url config) (sc_pg_max_connections config) in
  let*? _ := within_main (nats_connect (sc_nats_url config) (mkOptions true false (Some worker_id)))
               chat_bus_error_to_string in
  bind_tcp config.
End chat_worker.
End services.

(** [run_work_queue] of the document worker, for a number of rounds: an ended or
    failed consumer is connected anew.  [run_consumer] is its [run], of
    Consumer.v, and [sleep] waits. *)
Section work_task.
Context {E : Type → Type} (connect : prog E (result unit AdapterError)) (run_consumer : prog E (result unit string))
  (sleep : Z → prog E unit).

Fixpoint run_work_queue (rounds : nat) : prog E unit :=
  match rounds with
  | O => Ret tt
  | S rounds =>
      let* consumer := connect in
      match consumer with
      | Err _ => let* _ := sleep (from_secs 5) in run_work_queue rounds
      | Ok _ =>
          let* _ := run_consumer in
          let* _ := sleep (from_secs 1) in
          run_work_queue rounds
      end
  end.
End work_task.

(** ** The server *)

(** A subject against the pattern of a stream: [*] stands for a token, a final [>]
    for all that follow. *)
Fixpoint tokens_match (pattern subject : list string) : bool :=
  match pattern, subject with
  | [], [] => true
  | p :: pattern, s :: subject =>
      (bool_decide (p = ">") && bool_decide (pattern = [])) ||
      (bool_decide (p = "*") || bool_decide (p = s)) && tokens_match pattern subject
  | _, _ => false
  end.

Definition captures (config : StreamConfig) (subject : string) : bool :=
  existsb (λ pattern, tokens_match (split "." pattern) (split "." subject)) (st_subjects config).

(** Do two patterns have a subject in common?  (JetStream error 10065.) *)
Fixpoint tokens_overlap (p q : list string) : bool :=
  match p, q with
  | [], [] => true
  | a :: p, b :: q =>
      (bool_decide (a = ">") && bool_decide (p = [])) || (bool_decide (b = ">") && bool_decide (q = [])) ||
      (bool_decide (a = "*") || bool_decide (b = "*") || bool_decide (a = b)) && tokens_overlap p q
  | _, _ => false
  end.

Definition overlap (c c' : StreamConfig) : bool :=
  existsb (λ p, existsb (λ q, tokens_overlap (split "." p) (split "." q)) (st_subjects c')) (st_subjects c).

Record Server : Type := mkServer {
  sv_streams : gmap string StreamConfig;
  sv_buckets : gmap string BucketConfig;
  sv_consumers : gmap (string * string) ConsumerConfig;
}.

(** No other stream has a subject of [config], and the retention of a stream cannot
    change. *)
Definition accepts (w : Server) (config : StreamConfig) : Prop :=
  map_Forall (λ name other, name ≠ st_name config → overlap config other = false) (sv_streams w) ∧
  (∀ old, sv_streams w !! st_name config = Some old → st_retention old = st_retention config).

Definition put_stream (config : StreamConfig) (w : Server) : Server :=
  mkServer (<[st_name config := config]> (sv_streams w)) (sv_buckets w) (sv_consumers w).
Definition put_bucket (config : BucketConfig) (w : Server) : Server :=
  mkServer (sv_streams w) (<[bk_bucket config := config]> (sv_buckets w)) (sv_consumers w).
Definition put_consumer (stream : string) (config : ConsumerConfig) (w : Server) : Server :=
  mkServer (sv_streams w) (sv_buckets w) (<[(stream, cf_durable_name config) := config]> (sv_consumers w)).

(** [done_or_lost x w w1 w']: the call succeeded and left [w1], or its answer, an
    error, says nothing of whether it did. *)
Definition done_or_lost {A} (x : result A string) (w w1 w' : Server) : Prop :=
  match x with Ok _ => w' = w1 | Err _ => w' = w ∨ w' = w1 end.

Definition start_step (A : Type) (e : StartE A) (w w' : Server) : A → Prop :=
  match e in StartE A return A → Prop with
  | CreateStream config => λ x,
      (is_ok x = false ∧ w' = w) ∨ (accepts w config ∧ done_or_lost x w (put_stream config w) w')
  | GetOrCreateStream config => λ x,
      match sv_streams w !! st_name config with
      | Some _ => w' = w
      | None => (is_ok x = false ∧ w' = w) ∨ (accepts w config ∧ done_or_lost x w (put_stream config w) w')
      end
  | GetStream name => λ x, w' = w ∧ (is_ok x = true → is_Some (sv_streams w !! name))
  | CreateBucket config => λ x, done_or_lost x w (put_bucket config w) w'
  | GetBucket name => λ x, w' = w ∧ (is_ok x = true → is_Some (sv_buckets w !! name))
  | CreateConsumer stream config => λ x, done_or_lost x w (put_consumer stream config w) w'
  | GetOrCreateConsumer stream config => λ x,
      match sv_consumers w !! (stream, cf_durable_name config) with
      | Some _ => w' = w
      | None => done_or_lost x w (put_consumer stream config w) w'
      end
  | _ => λ _, w' = w
  end.

Lemma overlap_complete c c' subject : captures c subject = true → captures c' subject = true → overlap c c' = true.
Proof.
  assert (∀ s p q, tokens_match p s = true → tokens_match q s = true → tokens_overlap p q = true) as Htokens.
  { induction s as [|s subject' IH]; intros [|a p] [|b q]; cbn; try done.
    intros Hp Hq. apply orb_true_iff in Hp as [Hp | Hp]; [by rewrite Hp |].
    apply orb_true_iff in Hq as [Hq | Hq]; [by rewrite Hq, orb_true_r |].
    apply andb_true_iff in Hp as [Ha Hp]. apply andb_true_iff in Hq as [Hb Hq].
    rewrite (IH p q Hp Hq), andb_true_r. apply orb_true_iff. right.
    apply orb_true_iff in Ha as [-> | Ha]; [done |]. apply orb_true_iff in Hb as [-> | Hb]; [by rewrite orb_true_r |].
    apply bool_decide_eq_true in Ha, Hb. subst. by rewrite (bool_decide_eq_true_2 (s = s)), orb_true_r. }
  unfold captures, overlap. intros (p & Hp & Hps)%existsb_exists (q & Hq & Hqs)%existsb_exists.
  apply existsb_exists. exists p. split; [done |]. apply existsb_exists. exists q.
  split; [done | by eapply Htokens].
Qed.

Lemma overlap_sym c c' : overlap c c' = false → overlap c' c = false.
Proof.
  assert (∀ p q, tokens_overlap p q = tokens_overlap q p) as Htokens.
  { induction p as [|a p IH]; intros [|b q]; cbn; [done.. |]. rewrite (IH q).
    rewrite (bool_decide_ext (a = b) (b = a)) by done.
    destruct (bool_decide (a = ">")), (bool_decide (b = ">")), (bool_decide (a = "*")), (bool_decide (b = "*")),
      (bool_decide (p = [])), (bool_decide (q = [])); done. }
  intros H. apply not_true_iff_false in H. apply not_true_iff_false. intros H'. apply H.
  unfold overlap in *. apply existsb_exists in H' as (q & Hq & Hpq). apply existsb_exists in Hpq as (p & Hp & Ho).
  apply existsb_exists. exists p. split; [done |]. apply existsb_exists. exists q. split; [done | by rewrite Htokens].
Qed.

(** ** Which service declares what *)

Inductive Service : Type :=
| ApiService
| DocumentWorker
| RealtimeService
| ChatWorkerService (uuid : string)
| WorkQueueTask (config : WorkerConfig).

Section declared.
Variable env : string → option string.

Definition chat_streams : list StreamConfig := [command_stream_config; event_stream_config env].
Definition chat_buckets : list BucketConfig := [locks_config env; replay_config env].
Definition document_streams : list StreamConfig := [document_events_config; document_work_config].
Definition document_buckets : list BucketConfig :=
  match topology_config env with Ok ttl => [upload_state_config ttl] | Err _ => [] end.

Definition declares_streams (s : Service) : list StreamConfig :=
  match s with
  | ApiService => document_streams ++ chat_streams
  | RealtimeService | ChatWorkerService _ => chat_streams
  | DocumentWorker | WorkQueueTask _ => []
  end.
Definition declares_buckets (s : Service) : list BucketConfig :=
  match s with
  | ApiService => document_buckets ++ chat_buckets
  | RealtimeService | ChatWorkerService _ => chat_buckets
  | DocumentWorker | WorkQueueTask _ => []
  end.

Context {Agent : Type} `{!Providers Agent} (to_lowercase : string → string).

Definition start_of (s : Service) : prog StartE (result unit string) :=
  match s with
  | ApiService => api_service env
  | DocumentWorker => document_worker env
  | RealtimeService => realtime_service env
  | ChatWorkerService uuid => chat_worker env to_lowercase uuid
  | WorkQueueTask config => within_main (work_consumer_connect config) adapter_error_to_string
  end.
End declared.

(** Every subject has at most one stream. *)
Definition one_home (w : Server) : Prop :=
  ∀ n n' c c', sv_streams w !! n = Some c → sv_streams w !! n' = Some c' → n ≠ n' → overlap c c' = false.

Lemma declared_cases env c :
  c ∈ document_streams ++ chat_streams env →
  c = document_events_config ∨ c = document_work_config ∨ c = command_stream_config ∨ c = event_stream_config env.
Proof. unfold document_streams, chat_streams. cbn [app]. set_solver. Qed.

(** The streams the code declares never collide, whatever the environment says. *)
Lemma declared_disjoint env c c' :
  c ∈ document_streams ++ chat_streams env → c' ∈ document_streams ++ chat_streams env →
  st_name c ≠ st_name c' → overlap c c' = false.
Proof.
  intros [-> | [-> | [-> | ->]]]%declared_cases [-> | [-> | [-> | ->]]]%declared_cases Hne;
    first [by destruct Hne | reflexivity].
Qed.

(** ** What every start keeps *)

Section kept.
Context (env : string → option string) (services : list Service).

Definition all_streams : list StreamConfig := services ≫= declares_streams env.
Definition all_buckets : list BucketConfig := services ≫= declares_buckets env.

(** The consumer of the commands: it is found, or created once. *)
Definition command_consumer : string * string := (CHAT_COMMANDS_STREAM, CHAT_WORKER_CONSUMER).

(** Every entry is as it was, or as one of the services declares it; and the
    consumer of the commands, once there, stays as it is. *)
Record keeps (w w' : Server) : Prop := {
  kp_streams n : sv_streams w' !! n = sv_streams w !! n ∨
    ∃ c, c ∈ all_streams ∧ st_name c = n ∧ sv_streams w' !! n = Some c;
  kp_buckets n : sv_buckets w' !! n = sv_buckets w !! n ∨
    ∃ c, c ∈ all_buckets ∧ bk_bucket c = n ∧ sv_buckets w' !! n = Some c;
  kp_consumer c : sv_consumers w !! command_consumer = Some c → sv_consumers w' !! command_consumer = Some c;
  kp_home : one_home w → one_home w';
}.

#[export] Instance keeps_server_refl : Reflexive keeps.
Proof. intros w. split; auto. Qed.
#[export] Instance keeps_server_trans : Transitive keeps.
Proof.
  intros w1 w2 w3 [Hs1 Hb1 Hc1 Hh1] [Hs2 Hb2 Hc2 Hh2]. split; [| | auto | auto].
  - intros n. destruct (Hs2 n) as [-> | H]; [apply Hs1 | by right].
  - intros n. destruct (Hb2 n) as [-> | H]; [apply Hb1 | by right].
Qed.

Lemma all_streams_declared c : c ∈ all_streams → c ∈ document_streams ++ chat_streams env.
Proof.
  unfold all_streams. intros (s & Hc & _)%list_elem_of_bind. destruct s; cbn [declares_streams] in Hc; set_solver.
Qed.

Lemma all_buckets_declared c : c ∈ all_buckets → c ∈ document_buckets env ++ chat_buckets env.
Proof.
  unfold all_buckets. intros (s & Hc & _)%list_elem_of_bind. destruct s; cbn [declares_buckets] in Hc; set_solver.
Qed.

(** What a service may know of the server, for good. *)
Inductive Known : Type :=
| HasStream (c : StreamConfig)
| HasBucket (c : BucketConfig)
| SomeStream (name : string)
| SomeBucket (name : string).

Definition holds (w : Server) (k : Known) : Prop :=
  match k with
  | HasStream c => c ∈ document_streams ++ chat_streams env ∧ sv_streams w !! st_name c = Some c
  | HasBucket c => c ∈ document_buckets env ++ chat_buckets env ∧ sv_buckets w !! bk_bucket c = Some c
  | SomeStream name => is_Some (sv_streams w !! name)
  | SomeBucket name => is_Some (sv_buckets w !! name)
  end.

Definition known (l : list Known) (w : Server) : Prop := Forall (holds w) l.

Lemma stream_named c c' :
  c ∈ document_streams ++ chat_streams env → c' ∈ document_streams ++ chat_streams env → st_name c = st_name c' → c = c'.
Proof. by intros [-> | [-> | [-> | ->]]]%declared_cases [-> | [-> | [-> | ->]]]%declared_cases. Qed.

Lemma bucket_cases c :
  c ∈ document_buckets env ++ chat_buckets env →
  (∃ ttl, topology_config env = Ok ttl ∧ c = upload_state_config ttl) ∨ c = locks_config env ∨ c = replay_config env.
Proof.
  unfold document_buckets, chat_buckets. destruct (topology_config env) as [ttl|]; cbn [app]; set_solver.
Qed.

Lemma bucket_named c c' :
  c ∈ document_buckets env ++ chat_buckets env → c' ∈ document_buckets env ++ chat_buckets env →
  bk_bucket c = bk_bucket c' → c = c'.
Proof.
  intros [(ttl & Ht & ->) | [-> | ->]]%bucket_cases [(ttl' & Ht' & ->) | [-> | ->]]%bucket_cases; try done.
  rewrite Ht in Ht'. by injection Ht' as ->.
Qed.

Lemma known_stable l : stable keeps (known l).
Proof.
  intros w w' Hl [Hs Hb _ _]. eapply Forall_impl; [exact Hl |]. intros [c | c | n | n]; cbn.
  - intros [Hc Hw]. split; [done |]. destruct (Hs (st_name c)) as [-> | (c' & Hin & Hn & ->)]; [done |].
    f_equal. apply stream_named; [by apply all_streams_declared | done..].
  - intros [Hc Hw]. split; [done |]. destruct (Hb (bk_bucket c)) as [-> | (c' & Hin & Hn & ->)]; [done |].
    f_equal. apply bucket_named; [by apply all_buckets_declared | done..].
  - intros Hw. destruct (Hs n) as [-> | (c' & _ & _ & ->)]; [done | by eexists].
  - intros Hw. destruct (Hb n) as [-> | (c' & _ & _ & ->)]; [done | by eexists].
Qed.

(** ** The calls *)

Lemma put_stream_keeps c w : c ∈ all_streams → accepts w c → keeps w (put_stream c w).
Proof.
  intros Hc [Hacc _]. split; cbn; [| by left | done |].
  - intros n. destruct (decide (st_name c = n)) as [<- | Hne].
    + right. exists c. by rewrite lookup_insert_eq.
    + left. by rewrite lookup_insert_ne.
  - assert (∀ c1 c2, overlap c1 c2 = false → overlap c2 c1 = false) as Hsym by apply overlap_sym.
    intros Hw n n' c1 c2. cbn. rewrite !lookup_insert_Some.
    intros [[<- <-] | [Hn H1]] [[<- <-] | [Hn' H2]] Hne; [done | by apply (Hacc n') | apply Hsym; by apply (Hacc n) | by apply (Hw n n')].
Qed.

Lemma put_bucket_keeps c w : c ∈ all_buckets → keeps w (put_bucket c w).
Proof.
  intros Hc. split; cbn; [by left | | done | done].
  intros n. destruct (decide (bk_bucket c = n)) as [<- | Hne].
  - right. exists c. by rewrite lookup_insert_eq.
  - left. by rewrite lookup_insert_ne.
Qed.

Lemma put_consumer_keeps stream c w :
  (stream, cf_durable_name c) ≠ command_consumer ∨ sv_consumers w !! (stream, cf_durable_name c) = None →
  keeps w (put_consumer stream c w).
Proof.
  intros Hne. split; cbn; [by left | by left | | done].
  intros c' Hc'. destruct (decide ((stream, cf_durable_name c) = command_consumer)) as [Heq | Hneq].
  - destruct Hne as [? | Hnone]; [done |]. rewrite Heq in Hnone. congruence.
  - by rewrite lookup_insert_ne.
Qed.

(** [p] learns [l'] on success, knowing [l]. *)
Definition learns {A E} (p : prog StartE (result A E)) (l l' : list Known) : Prop :=
  rg start_step keeps p (known l) (λ r w, match r with Ok _ => known l' w | Err _ => True end).

Lemma learns_bind {A B E} (p : prog StartE (result A E)) (f : A → prog StartE (result B E)) l l' l'' :
  learns p l l' → (∀ a, learns (f a) l' l'') → learns (let*? a := p in f a) l l''.
Proof. intros Hp Hf. eapply rg_bind; [exact Hp |]. intros [a|e]; [apply Hf | done]. Qed.

Lemma learns_ret {A E} (r : result A E) l : learns (Ret r) l l.
Proof. intros w Hw. by destruct r. Qed.

Lemma learns_map {A E F} (f : E → F) (p : prog StartE (result A E)) l l' :
  learns p l l' → learns (let* r := p in Ret (result_map_err f r)) l l'.
Proof. intros Hp. eapply rg_bind; [exact Hp |]. intros [a|e] w; done. Qed.

Lemma learns_call {A E F} (e : StartE (result A E)) (f : E → F) l l' :
  (∀ w w' x, known l w → start_step _ e w w' x → keeps w w' ∧ (is_ok x = true → known l' w')) →
  learns (start e f) l l'.
Proof.
  intros He. eapply (rg_call _ _ _ _ _ (λ x w, is_ok x = true → known l' w)); [| by intros [a|err] w Hw; [apply Hw |]].
  intros w w' x Hw Hx. destruct (He w w' x Hw Hx) as [Hk Hl]. split_and!; [exact Hk | | exact Hl].
  intros v v' Hv Hkv Hok. eapply known_stable; [by apply Hv | exact Hkv].
Qed.

(** A call that changes nothing. *)
Lemma learns_quiet {A E F} (e : StartE (result A E)) (f : E → F) l :
  (∀ w w' x, start_step _ e w w' x → w' = w) → learns (start e f) l l.
Proof. intros He. apply learns_call. intros w w' x Hw Hx. by rewrite (He w w' x Hx). Qed.

Lemma known_cons k l w : holds w k → known l w → known (k :: l) w.
Proof. by constructor. Qed.

Lemma learns_create_stream {F} c (f : string → F) l :
  c ∈ all_streams → learns (start (CreateStream c) f) l (HasStream c :: l).
Proof.
  intros Hc. apply learns_call. intros w w' x Hw [[Hx ->] | [Hacc Hd]]; [by rewrite Hx |].
  pose proof (put_stream_keeps c w Hc Hacc) as Hk.
  destruct x as [a|e]; cbn in Hd; [subst | by destruct Hd as [-> | ->]].
  split; [exact Hk |]. intros _. apply known_cons; [| by eapply known_stable].
  split; [by apply all_streams_declared |]. cbn. by rewrite lookup_insert_eq.
Qed.

Lemma learns_find_stream {F} c (f : string → F) l :
  c ∈ all_streams → learns (start (GetOrCreateStream c) f) l l.
Proof.
  intros Hc. apply learns_call. cbn. intros w w' x Hw Hx.
  destruct (sv_streams w !! st_name c) as [old|]; [by subst |].
  destruct Hx as [[Hx ->] | [Hacc Hd]]; [by rewrite Hx |].
  pose proof (put_stream_keeps c w Hc Hacc) as Hk.
  destruct x as [a|e]; cbn in Hd; [subst | by destruct Hd as [-> | ->]].
  split; [exact Hk |]. intros _. by eapply known_stable.
Qed.

Lemma learns_create_bucket {F} c (f : string → F) l :
  c ∈ all_buckets → learns (start (CreateBucket c) f) l (HasBucket c :: l).
Proof.
  intros Hc. apply learns_call. intros w w' x Hw Hd.
  pose proof (put_bucket_keeps c w Hc) as Hk.
  destruct x as [a|e]; cbn in Hd; [subst | by destruct Hd as [-> | ->]].
  split; [exact Hk |]. intros _. apply known_cons; [| by eapply known_stable].
  split; [by apply all_buckets_declared |]. cbn. by rewrite lookup_insert_eq.
Qed.

Lemma learns_get_stream {F} name (f : string → F) l : learns (start (GetStream name) f) l (SomeStream name :: l).
Proof.
  apply learns_call. intros w w' x Hw [-> Hx]. split; [done |]. intros Hok. by apply known_cons; [apply Hx |].
Qed.

Lemma learns_get_bucket {F} name (f : string → F) l : learns (start (GetBucket name) f) l (SomeBucket name :: l).
Proof.
  apply learns_call. intros w w' x Hw [-> Hx]. split; [done |]. intros Hok. by apply known_cons; [apply Hx |].
Qed.

Lemma learns_consumer {F} stream c (f : string → F) l :
  (stream, cf_durable_name c) ≠ command_consumer → learns (start (CreateConsumer stream c) f) l l.
Proof.
  intros Hne. apply learns_call. intros w w' x Hw Hd.
  pose proof (put_consumer_keeps stream c w (or_introl Hne)) as Hk.
  destruct x as [a|e]; cbn in Hd; [subst | by destruct Hd as [-> | ->]].
  split; [exact Hk |]. intros _. by eapply known_stable.
Qed.

Lemma learns_find_consumer {F} stream c (f : string → F) l :
  learns (start (GetOrCreateConsumer stream c) f) l l.
Proof.
  apply learns_call. cbn. intros w w' x Hw Hx.
  destruct (sv_consumers w !! (stream, cf_durable_name c)) as [old|] eqn:Hold; [by subst |].
  pose proof (put_consumer_keeps stream c w (or_intror Hold)) as Hk.
  destruct x as [a|e]; cbn in Hx; [subst | by destruct Hx as [-> | ->]].
  split; [exact Hk |]. intros _. by eapply known_stable.
Qed.

(** ** The starts *)

Ltac learn_call :=
  first
    [ by apply learns_ret
    | apply learns_quiet; by intros w w' x Hx
    | apply learns_create_stream | apply learns_find_stream | apply learns_create_bucket
    | apply learns_get_stream | apply learns_get_bucket | apply learns_find_consumer ].
Ltac learn := repeat (eapply learns_bind; [learn_call | intros ?]); try learn_call.

Definition document_facts (ttl : Z) : list Known :=
  [HasBucket (upload_state_config ttl); HasStream document_work_config; HasStream document_events_config].
Definition chat_facts : list Known :=
  [HasBucket (replay_config env); HasBucket (locks_config env); HasStream (event_stream_config env);
   HasStream command_stream_config].

Lemma declares_in s c : s ∈ services → c ∈ declares_streams env s → c ∈ all_streams.
Proof. intros Hs Hc. apply list_elem_of_bind. by exists s. Qed.
Lemma declares_bucket_in s c : s ∈ services → c ∈ declares_buckets env s → c ∈ all_buckets.
Proof. intros Hs Hc. apply list_elem_of_bind. by exists s. Qed.

Lemma ensure_topology_learns ttl l :
  ApiService ∈ services → topology_config env = Ok ttl → learns (ensure_topology ttl) l (document_facts ttl ++ l).
Proof.
  intros Hs Ht. unfold ensure_topology. learn; (eapply declares_in || eapply declares_bucket_in); try exact Hs.
  - cbn. set_solver.
  - cbn. set_solver.
  - cbn [declares_buckets]. unfold document_buckets. rewrite Ht. set_solver.
Qed.

Lemma infra_assemble_learns url n l : learns (infra_assemble env url n) l (SomeStream DOCUMENT_EVENTS_STREAM :: l).
Proof.
  unfold infra_assemble. destruct (s3_config env) as [?|error]; [| by intros w Hw].
  eapply learns_bind; [unfold connect_postgres; learn | intros ?]. apply learns_get_stream.
Qed.

(** A service that declares the chat topology. *)
Definition chats (s : Service) : Prop :=
  s ∈ services ∧ chat_streams env ⊆ declares_streams env s ∧ chat_buckets env ⊆ declares_buckets env s.

Lemma start_subscribers_learns options l : (∃ s, chats s) → learns (start_subscribers env options) l l.
Proof.
  intros (s & Hs & Hstreams & _).
  assert (∀ c, c ∈ chat_streams env → c ∈ all_streams) as Hc by (intros c Hc; by eapply declares_in, Hstreams).
  unfold start_subscribers. eapply learns_bind; [| intros ?; eapply learns_bind; [| intros ?]].
  - unfold when. destruct (op_subscribe_commands options); [| apply learns_ret]. learn. apply Hc. set_solver.
  - unfold when. destruct (op_subscribe_events options); [| apply learns_ret]. learn. apply Hc. set_solver.
  - destruct (op_stop_worker_id options); learn.
Qed.

Lemma nats_connect_learns url options l : (∃ s, chats s) → learns (nats_connect env url options) l (chat_facts ++ l).
Proof.
  intros (s & Hs & Hstreams & Hbuckets).
  assert (∀ c, c ∈ chat_streams env → c ∈ all_streams) as Hc by (intros c Hc; by eapply declares_in, Hstreams).
  assert (∀ c, c ∈ chat_buckets env → c ∈ all_buckets) as Hb by (intros c Hb; by eapply declares_bucket_in, Hbuckets).
  unfold nats_connect. eapply learns_bind; [learn | intros ?].
  eapply learns_bind; [unfold configure_jetstream; learn; apply Hc; set_solver | intros ?].
  eapply learns_bind; [learn_call; apply Hb; set_solver | intros ?].
  eapply learns_bind; [learn_call; apply Hb; set_solver | intros ?].
  apply start_subscribers_learns. by exists s.
Qed.

Context {Agent : Type} `{!Providers Agent} (to_lowercase : string → string).

(** What a service that has started was told of the server. *)
Definition told (s : Service) : list Known :=
  match s with
  | ApiService =>
      chat_facts ++ SomeStream DOCUMENT_EVENTS_STREAM ::
      match topology_config env with Ok ttl => document_facts ttl | Err _ => [] end
  | DocumentWorker => [SomeStream DOCUMENT_EVENTS_STREAM; SomeBucket UPLOAD_STATE_BUCKET]
  | RealtimeService | ChatWorkerService _ => chat_facts
  | WorkQueueTask _ => [SomeStream DOCUMENT_WORK_STREAM]
  end.

(** [value] on what is known. *)
Lemma learns_value {A B E} (a : A) (f : E → string) (k : A → prog StartE (result B string)) l l' :
  learns (k a) l l' → learns (let*? a := value (Ok a) f in k a) l l'.
Proof. done. Qed.

Lemma pg_repository_learns url n l : learns (pg_repository_connect url n) l l.
Proof. unfold pg_repository_connect. learn. Qed.

Lemma bind_tcp_learns c l : learns (bind_tcp c) l l.
Proof. unfold bind_tcp. learn. Qed.

Lemma api_service_learns : ApiService ∈ services → learns (api_service env) [] (told ApiService).
Proof.
  intros Hs. unfold api_service, told.
  eapply learns_bind; [apply learns_ret | intros config].
  eapply learns_bind; [apply learns_ret | intros ?].
  destruct (topology_config env) as [ttl|error] eqn:Ht; [apply learns_value | by intros w Hw].
  eapply learns_bind; [apply learns_map | intros ?].
  { unfold connect_as_author, connect_jetstream_as_author.
    eapply learns_bind; [| intros ?; apply infra_assemble_learns].
    eapply learns_bind; [learn_call | intros ?]. by apply ensure_topology_learns. }
  eapply learns_bind; [apply learns_ret | intros ?].
  eapply learns_bind; [apply pg_repository_learns | intros ?].
  eapply learns_bind; [apply learns_map, nats_connect_learns | intros ?].
  { exists ApiService. split; [done |]. cbn. set_solver. }
  rewrite app_nil_r. apply bind_tcp_learns.
Qed.

Lemma document_worker_learns : learns (document_worker env) [] (told DocumentWorker).
Proof.
  unfold document_worker, told.
  eapply learns_bind; [apply learns_ret | intros config].
  eapply learns_bind; [apply learns_ret | intros ?].
  eapply learns_bind; [apply learns_map | intros ?; apply bind_tcp_learns].
  unfold infra_connect, connect_jetstream, bind_upload_state.
  eapply learns_bind; [| intros ?; apply infra_assemble_learns]. learn.
Qed.

Lemma realtime_service_learns : RealtimeService ∈ services → learns (realtime_service env) [] chat_facts.
Proof.
  intros Hs. unfold realtime_service.
  eapply learns_bind; [apply learns_ret | intros config].
  eapply learns_bind; [apply learns_ret | intros ?].
  eapply learns_bind; [apply learns_map, nats_connect_learns | intros ?].
  { exists RealtimeService. split; [done |]. cbn. set_solver. }
  eapply learns_bind; [apply pg_repository_learns | intros ?]. apply bind_tcp_learns.
Qed.

Lemma chat_worker_learns uuid :
  ChatWorkerService uuid ∈ services → learns (chat_worker env to_lowercase uuid) [] chat_facts.
Proof.
  intros Hs. unfold chat_worker.
  eapply learns_bind; [apply learns_ret | intros [[[config worker_id] llm] title_llm]].
  eapply learns_bind; [apply pg_repository_learns | intros ?].
  eapply learns_bind; [apply learns_map, nats_connect_learns | intros ?; apply bind_tcp_learns].
  exists (ChatWorkerService uuid). split; [done |]. cbn. set_solver.
Qed.

Lemma start_learns s : s ∈ services → learns (start_of env to_lowercase s) [] (told s).
Proof.
  intros Hs. destruct s as [| | | uuid | config]; cbn [start_of].
  - by apply api_service_learns.
  - apply document_worker_learns.
  - by apply realtime_service_learns.
  - by apply chat_worker_learns.
  - apply learns_map. unfold work_consumer_connect.
    eapply learns_bind; [learn_call | intros ?]. by apply learns_consumer.
Qed.
End kept.

(** C33: Whatever services start together, and however often: every stream and
    every bucket of the server is as it was or exactly as one of these services
    declares it, so the document topology changes only where an API service starts; a
    service that started finds what it relies on, the API and the chat services
    with the settings of the environment; no two streams come to share a subject;
    and the consumer of the chat commands, once created, keeps the settings it was
    created with. *)
Theorem topology_is_declared {Agent : Type} `{!Providers Agent} env to_lowercase services w w' ts' :
  rtc (pool_step start_step (λ _ _, False)) (w, start_of env to_lowercase <$> services) (w', ts') →
  (∀ n, sv_streams w' !! n = sv_streams w !! n ∨
    ∃ s c, s ∈ services ∧ c ∈ declares_streams env s ∧ st_name c = n ∧ sv_streams w' !! n = Some c) ∧
  (∀ n, sv_buckets w' !! n = sv_buckets w !! n ∨
    ∃ s c, s ∈ services ∧ c ∈ declares_buckets env s ∧ bk_bucket c = n ∧ sv_buckets w' !! n = Some c) ∧
  (∀ k s, services !! k = Some s → ts' !! k = Some (Ret (Ok tt)) → known env (told env s) w') ∧
  (one_home w → one_home w') ∧
  (∀ c, sv_consumers w !! command_consumer = Some c → sv_consumers w' !! command_consumer = Some c).
Proof.
  intros Hsteps.
  set (Q := λ s (r : result unit string) w, match r with Ok _ => known env (told env s) w | Err _ => True end).
  destruct (pool_steps_rg start_step (λ _ _, False) (keeps env services) _ _ (Q <$> services) (λ _ _ H, False_ind _ H)
    Hsteps) as [[Hs Hb Hc Hh] Hts].
  { cbn. rewrite Forall2_fmap. apply Forall_Forall2_diag, Forall_forall. intros s Hs.
    exists (known env []). split_and!; [apply known_stable | constructor | by apply start_learns]. }
  cbn [fst snd] in *.
  split_and!; [| | | exact Hh | exact Hc].
  - intros n. destruct (Hs n) as [-> | (c & (s & Hc' & Hin)%list_elem_of_bind & Hn & Hw)]; [by left |].
    right. by exists s, c.
  - intros n. destruct (Hb n) as [-> | (c & (s & Hc' & Hin)%list_elem_of_bind & Hn & Hw)]; [by left |].
    right. by exists s, c.
  - intros k s Hk Hret. destruct (Forall2_lookup_l _ _ _ _ _ Hts Hret) as (Q' & HQ' & Hthread).
    rewrite list_lookup_fmap, Hk in HQ'. injection HQ' as <-. exact (rg_thread_ret _ _ _ _ _ Hthread).
Qed.

(** ** Subjects *)

(** Fact: an event is published under a subject of the event stream and of no other
    the code declares, whatever the tenant and the document. *)
Theorem events_have_one_home `{Crc32} env tenant document_id c :
  segment tenant → c ∈ document_streams ++ chat_streams env →
  captures c (event_subject tenant document_id) = bool_decide (c = document_events_config).
Proof.
  intros Ht Hc.
  assert (∃ rest, split "." (event_subject tenant document_id) = "documents" :: tenant :: rest) as [rest Hsplit].
  { unfold event_subject. change "documents." with ("documents" +:+ "."). rewrite string_app_assoc. expose_sep "."%char.
    rewrite (split_app "." "documents") by done. rewrite split_app by (by apply segment_has_char). by eexists. }
  unfold captures. rewrite Hsplit.
  destruct (declared_cases env c Hc) as [-> | [-> | [-> | ->]]]; cbn; try reflexivity;
    by rewrite bool_decide_eq_false_2.
Qed.

(** Fact: so is a work item, under the one of the work stream. *)
Theorem work_items_have_one_home env c :
  c ∈ document_streams ++ chat_streams env →
  captures c UPLOAD_COMPLETED_SUBJECT = bool_decide (c = document_work_config).
Proof.
  intros [-> | [-> | [-> | ->]]]%declared_cases; cbn; try reflexivity; by rewrite bool_decide_eq_false_2.
Qed.

Lemma split_has_char a s : (1 ≤ length (split a s))%nat ∧ (has_char a s = true → (2 ≤ length (split a s))%nat).
Proof.
  induction s as [|b s [IH1 IH2]]; cbn; [by split; [lia |] |].
  destruct (Ascii.eqb b a); cbn; [split; lia |]. destruct (split a s) as [|x l]; cbn in *; [lia |]. auto.
Qed.

Lemma split_length a s t : length (split a (s +:+ String a t)) = (length (split a s) + length (split a t))%nat.
Proof.
  induction s as [|b s IH]; [rewrite string_app_nil; cbn; by rewrite Ascii.eqb_refl |].
  rewrite string_app_cons. cbn. destruct (Ascii.eqb b a); [cbn; by rewrite IH |].
  pose proof (proj1 (split_has_char a s)).
  destruct (split a (s +:+ String a t)) as [|x l] eqn:Hl; destruct (split a s) as [|y l'] eqn:Hl'; cbn in *; lia.
Qed.

Lemma tokens_match_length pattern subject :
  ">" ∉ pattern → tokens_match pattern subject = true → length pattern = length subject.
Proof.
  revert subject. induction pattern as [|p pattern IH]; intros [|s subject]; cbn; try done.
  intros Hp. rewrite bool_decide_eq_false_2 by set_solver. cbn. intros [_ Hm]%andb_true_iff.
  f_equal. apply IH; [set_solver | done].
Qed.

(** Fact: the chat takes a tenant from its token as it is.  The events of a tenant
    and a conversation without a dot are those of the event stream; with a dot in
    either the subject is one of no stream, and nothing can be published. *)
Theorem chat_events_need_plain_names env tenant conversation :
  captures (event_stream_config env) (subjects_events tenant conversation) =
    negb (has_char "." tenant || has_char "." conversation).
Proof.
  assert (split "." (subjects_events tenant conversation) =
    "chat" :: "events" :: split "." (tenant +:+ String "." conversation)) as Hsplit.
  { unfold subjects_events. change ("chat.events." +:+ tenant +:+ "." +:+ conversation)
      with ("chat" +:+ String "." ("events" +:+ String "." (tenant +:+ String "." conversation))).
    by rewrite (split_app "." "chat"), (split_app "." "events") by done. }
  unfold captures. cbn [st_subjects event_stream_config existsb]. rewrite orb_false_r, Hsplit.
  change (split "." "chat.events.*.*") with ["chat"; "events"; "*"; "*"].
  destruct (has_char "." tenant || has_char "." conversation) eqn:Hdot; cbn [negb].
  - apply not_true_iff_false. intros Hm%tokens_match_length; [| set_solver]. cbn in Hm. rewrite split_length in Hm.
    pose proof (split_has_char "." tenant) as [H1 H2]. pose proof (split_has_char "." conversation) as [H3 H4].
    apply orb_true_iff in Hdot as [Hd | Hd]; [apply H2 in Hd | apply H4 in Hd]; lia.
  - apply orb_false_iff in Hdot as [Ht Hc]. rewrite split_app, split_none by done. reflexivity.
Qed.

(** Fact: the window of duplicates has to exceed the span of the deliveries of an
    item; the configuration of a worker does not see to it. *)
Example window_is_not_checked :
  let env name := if String.eqb name "DELPHI_DOCUMENT_ACK_WAIT_SECS" then Some "7200" else Some "5" in
  ∃ c, worker_config env = Ok c ∧ DUPLICATE_WINDOW < wc_max_deliver c * wc_ack_wait c.
Proof. eexists. split; [vm_compute; reflexivity | vm_compute; reflexivity]. Qed.

(** ** Witnesses *)

#[export] Instance accepts_dec w config : Decision (accepts w config).
Proof.
  unfold accepts. apply and_dec; [apply _ |].
  destruct (sv_streams w !! st_name config) as [old|].
  - destruct (decide (st_retention old = st_retention config)) as [Heq | Hne].
    + left. by intros old' [= <-].
    + right. intros H. by apply Hne, H.
  - left. by intros old'.
Defined.

(** A server at which nothing fails. *)
Definition healthy : handler StartE Server := λ A e w,
  let found {A} (o : option A) : result unit string := if o then Ok tt else Err "not found" in
  match e in StartE A return Server * A with
  | CreateStream config => if decide (accepts w config) then (put_stream config w, Ok tt) else (w, Err "overlap")
  | GetOrCreateStream config =>
      match sv_streams w !! st_name config with
      | Some _ => (w, Ok tt)
      | None => if decide (accepts w config) then (put_stream config w, Ok tt) else (w, Err "overlap")
      end
  | GetStream name => (w, found (sv_streams w !! name))
  | CreateBucket config => (put_bucket config w, Ok tt)
  | GetBucket name => (w, found (sv_buckets w !! name))
  | CreateConsumer stream config => (put_consumer stream config w, Ok tt)
  | GetOrCreateConsumer stream config =>
      match sv_consumers w !! (stream, cf_durable_name config) with
      | Some _ => (w, Ok tt)
      | None => (put_consumer stream config w, Ok tt)
      end
  | RunMigrations => (w, Ok 0)
  | ConnectNats _ | CreatePush _ _ | OpenMessages | SubscribeSubject _ | ConnectPg _ _ | BindTcp _ => (w, Ok tt)
  end.

Lemma healthy_step A (e : StartE A) w w' x : healthy A e w = (w', x) → start_step A e w w' x.
Proof.
  destruct e; cbn; intros H; repeat case_match; simplify_eq; cbn; try done; try (by right); try (by left);
    split; try done; intros _; by eexists.
Qed.

Module StartupDemo.
#[export] Instance providers : Providers string := {|
  anthropic_client key model preamble := Ok ("anthropic " +:+ model);
  openai_client key model preamble := Ok ("openai " +:+ model);
  gemini_client key model preamble := Ok ("gemini " +:+ model);
  completions_client key url model preamble := Ok (url +:+ " " +:+ model);
|}.

Definition env (name : string) : option string :=
  snd <$> List.find (λ p, String.eqb p.1 name)
    [("AUTH_JWKS_URL", "https://issuer/jwks"); ("DELPHI_DOCUMENT_UPLOAD_TTL_SECS", "86400");
     ("DELPHI_DOCUMENT_S3_ENDPOINT_INTERNAL", "http://s3:9000"); ("DELPHI_DOCUMENT_S3_ENDPOINT_PUBLIC", "http://s3");
     ("DELPHI_DOCUMENT_S3_REGION", "eu"); ("DELPHI_DOCUMENT_S3_BUCKET", "documents");
     ("DELPHI_DOCUMENT_S3_ACCESS_KEY_ID", "id"); ("DELPHI_DOCUMENT_S3_SECRET_ACCESS_KEY", "secret");
     ("DELPHI_DOCUMENT_S3_FORCE_PATH_STYLE", "true");
     ("DELPHI_DOCUMENT_MAX_UPLOAD_BYTES", "34359738368"); ("DELPHI_DOCUMENT_PART_SIZE_BYTES", "20971520");
     ("DELPHI_DOCUMENT_PART_URL_TTL_SECS", "300"); ("DELPHI_DOCUMENT_MAX_DELIVER", "5");
     ("DELPHI_DOCUMENT_MAX_ACK_PENDING", "16"); ("DELPHI_DOCUMENT_WORK_CONCURRENCY", "4");
     ("DELPHI_DOCUMENT_ACK_WAIT_SECS", "120"); ("DELPHI_DOCUMENT_PROJECTOR_LOCK_ID", "7");
     ("DELPHI_DOCUMENT_PROJECTOR_ELECTION_SECS", "5"); ("DELPHI_DOCUMENT_PROJECTION_BATCH", "256");
     ("DELPHI_PROVIDER", "Gemini"); ("DELPHI_PROVIDER_MODEL", "flash"); ("DELPHI_PROVIDER_GOOGLE_API_KEY", "key");
     ("CHAT_COMMAND_ACK_WAIT_SECONDS", "60")].

Definition services : list Service := [ApiService; DocumentWorker; ChatWorkerService "u"].
Definition starts : list (prog StartE (result unit string)) := start_of env to_ascii_lowercase <$> services.

(** The consumer of the commands was created by an earlier version. *)
Definition old_consumer : ConsumerConfig := mkConsumer CHAT_WORKER_CONSUMER command_turn_requested 1 None 64.
Definition before : Server := mkServer ∅ ∅ {[command_consumer := old_consumer]}.

Definition api_started : Server := (run healthy (api_service env) before).1.
Definition worker_started : Server := (run healthy (document_worker env) api_started).1.
Definition all_started : Server := (run healthy (chat_worker env to_ascii_lowercase "u") worker_started).1.

Lemma services_start :
  rtc (pool_step start_step (λ _ _, False)) (before, starts) (all_started, [Ret (Ok tt); Ret (Ok tt); Ret (Ok tt)]).
Proof.
  assert ((run healthy (api_service env) before).2 = Ok tt) as H1 by (vm_compute; reflexivity).
  assert ((run healthy (document_worker env) api_started).2 = Ok tt) as H2 by (vm_compute; reflexivity).
  assert ((run healthy (chat_worker env to_ascii_lowercase "u") worker_started).2 = Ok tt) as H3 by (vm_compute; reflexivity).
  etrans; [apply (pool_run_sub start_step healthy _ starts 0 (api_service env)); [apply healthy_step | reflexivity] |].
  rewrite H1. fold api_started.
  etrans; [apply (pool_run_sub start_step healthy _ _ 1 (document_worker env)); [apply healthy_step | reflexivity] |].
  rewrite H2. fold worker_started.
  etrans; [apply (pool_run_sub start_step healthy _ _ 2 (chat_worker env to_ascii_lowercase "u")); [apply healthy_step | reflexivity] |].
  rewrite H3. fold all_started. reflexivity.
Qed.
End StartupDemo.

Lemma topology_is_declared_witness :
  sv_streams StartupDemo.all_started !! "DOCUMENT_WORK" = Some document_work_config ∧
  sv_buckets StartupDemo.all_started !! "UPLOAD_STATE" = Some (upload_state_config 86400000000000) ∧
  one_home StartupDemo.all_started ∧
  cf_ack_wait <$> sv_consumers StartupDemo.all_started !! command_consumer = Some 1.
Proof.
  destruct (topology_is_declared StartupDemo.env to_ascii_lowercase StartupDemo.services StartupDemo.before
    StartupDemo.all_started _ StartupDemo.services_start) as (_ & _ & Htold & Hhome & Hconsumer).
  pose proof (Htold 0%nat ApiService eq_refl eq_refl) as Hk.
  unfold known in Hk. rewrite Forall_forall in Hk.
  split_and!.
  - refine (proj2 (Hk (HasStream document_work_config) _)). by apply (list_elem_of_lookup_2 _ 6).
  - refine (proj2 (Hk (HasBucket (upload_state_config 86400000000000)) _)). by apply (list_elem_of_lookup_2 _ 5).
  - apply Hhome. intros n n' c c' Hn. cbn in Hn. by apply lookup_empty_Some in Hn.
  - by rewrite (Hconsumer StartupDemo.old_consumer).
Defined.
