(* ===== verification/ChatWorkerRun.v ===== *)
(** * What the chat worker does with a turn

    services/chat-worker/src/main.rs (ChatWorker.v).  [turn_discipline] holds for
    every answer of the bus, the repository and the model, in any order: it is
    the ordering section of docs/architecture/chat-failure-analysis.md, as far as
    the code keeps it. *)

From S2P Require Import Prelude Text Events Contracts ChatBus ChatStore ChatWorker.

Local Open Scope Z_scope.

(** ** A turn, seen from its calls *)

Inductive WkObs : Type :=
| ObNow (now : DateTime)
| ObLoad (t c : string) (r : result (option ChatLock) ChatBusError)
| ObClaim (t c i worker : string) (r : result ChatLock ChatBusError)
| ObMark (t c i : string) (worker : option string) (terminal : ChatTerminalUpdate)
    (r : result ChatLock ChatBusError)
| ObRelease (t c i : string)
| ObAck (i : string) (r : result unit ChatBusError)
| ObPublish (event : ChatEventEnvelope) (r : result string ChatBusError)
| ObCommit (interrupted : bool) (t u c : string) (commit : TurnCommit)
    (r : result ConversationDetail StorageError)
| ObStream (messages : list LlmMessage)
| ObOther.

Definition wk_obs (X : Type) (e : WkE X) : X → WkObs :=
  match e in WkE X return X → WkObs with
  | Now => ObNow
  | LoadLock t c => ObLoad t c
  | ClaimLock t c i w => ObClaim t c i w
  | MarkLockTerminal t c i w terminal => ObMark t c i w terminal
  | ReleaseLock t c i => λ _, ObRelease t c i
  | AckTurnRequested i => ObAck i
  | PublishEvent event => ObPublish event
  | CommitTurn interrupted t u c commit => ObCommit interrupted t u c commit
  | StreamChat messages => λ _, ObStream messages
  | _ => λ _, ObOther
  end.

(** What the calls of a turn amount to so far. *)
Record TurnView : Type := mkTurnView {
  vw_now : option DateTime;                     (** the clock, last read *)
  vw_loaded : option (option ChatLock);         (** the lock found on delivery *)
  vw_claimed : option ChatLock;                 (** the lock claimed by this worker *)
  vw_asked : bool;                              (** the model was called *)
  vw_streamed : string;                         (** the text published as deltas *)
  vw_commit : option (bool * TurnCommit);       (** the commit that succeeded *)
  vw_refused : bool;                            (** a commit was refused *)
  vw_terminal : bool;                           (** a terminal event was published *)
  vw_trusted : bool;                            (** the bus returned the locks it was told to write *)
  vw_acked : bool;                              (** the command was acknowledged *)
}.

Definition terminal_kind (event : ChatEvent) : bool :=
  match event with Finish _ _ | Interrupted _ _ _ | Clear _ => true | _ => false end.

(** The lock written by [mark_lock_terminal] comes back as it was written;
    [locks_refine_memory] is why. *)
Definition honest_mark (terminal : ChatTerminalUpdate) (lock : ChatLock) : bool :=
  bool_decide (lk_state lock = tu_state terminal) && negb (lk_terminal_event_published lock).

Definition view_step (v : TurnView) (o : WkObs) : TurnView :=
  let 'mkTurnView now loaded claimed asked streamed commit refused terminal trusted acked := v in
  match o with
  | ObNow n => mkTurnView (Some n) loaded claimed asked streamed commit refused terminal trusted acked
  | ObLoad _ _ (Ok l) => mkTurnView now (Some l) claimed asked streamed commit refused terminal trusted acked
  | ObClaim _ _ _ _ (Ok l) => mkTurnView now loaded (Some l) asked streamed commit refused terminal trusted acked
  | ObMark _ _ _ _ t (Ok l) =>
      mkTurnView now loaded claimed asked streamed commit refused terminal (trusted && honest_mark t l) acked
  | ObAck _ (Ok _) => mkTurnView now loaded claimed asked streamed commit refused terminal trusted true
  | ObPublish e (Ok _) =>
      mkTurnView now loaded claimed asked
        (match en_event e with TextDelta chunk => streamed +:+ chunk | _ => streamed end)
        commit refused (terminal || terminal_kind (en_event e)) trusted acked
  | ObCommit i _ _ _ c (Ok _) =>
      mkTurnView now loaded claimed asked streamed (Some (i, c)) refused terminal trusted acked
  | ObCommit _ _ _ _ _ (Err _) =>
      mkTurnView now loaded claimed asked streamed commit true terminal trusted acked
  | ObStream _ => mkTurnView now loaded claimed true streamed commit refused terminal trusted acked
  | _ => v
  end.

Definition view_new : TurnView := mkTurnView None None None false "" None false false true false.
Definition turn_view (past : list WkObs) : TurnView := foldl view_step view_new past.

Lemma turn_view_snoc past o : turn_view (past ++ [o]) = view_step (turn_view past) o.
Proof. unfold turn_view. by rewrite foldl_app. Qed.

Section turn.
Context (worker_id : string) (command : TurnRequested).

Abbreviation tenant := (tr_tenant_id command).
Abbreviation conversation := (tr_conversation_id command).
Abbreviation turn := (tr_turn_id command).

(** The lock found on delivery is terminal, with this outcome. *)
Definition found (v : TurnView) (state : ChatLockState) (aid : option string) (content : string) : Prop :=
  ∃ lock, vw_loaded v = Some (Some lock) ∧ lk_turn_id lock = turn ∧ lk_state lock = state ∧
          lk_assistant_message_id lock = aid ∧ default "" (lk_terminal_content lock) = content.

(** What may be published, and when. *)
Definition may_publish (v : TurnView) (event : ChatEvent) : Prop :=
  match event with
  | TurnStarted i => is_Some (vw_claimed v) ∧ i = turn
  | UserMessage id i content =>
      ∃ lock, vw_claimed v = Some lock ∧ id = lk_user_message_id lock ∧ i = Some turn ∧
              content = lk_text lock
  | TextDelta _ => vw_asked v = true ∧ vw_commit v = None
  | Finish aid _ =>
      (∃ commit, vw_commit v = Some (false, commit) ∧ tc_assistant_message_id commit = aid) ∨
      ∃ content, found v Committed (Some aid) content
  | Interrupted aid content _ =>
      (∃ commit, vw_commit v = Some (true, commit) ∧ tc_assistant_message_id commit = aid ∧
                 tc_assistant_text commit = content) ∨
      found v LockInterrupted (Some aid) content
  | Clear _ | ChatError _ => vw_commit v = None
  | Citations _ | TitleUpdated _ => False
  end.

(** What a turn may do next, given what it has done. *)
Definition turn_spec (v : TurnView) (o : WkObs) : Prop :=
  match o with
  | ObLoad t c _ => t = tenant ∧ c = conversation
  | ObClaim t c i w _ =>
      (t = tenant ∧ c = conversation ∧ i = turn ∧ w = worker_id) ∧
      ∃ lock, vw_loaded v = Some (Some lock) ∧ lk_turn_id lock = turn ∧ lk_state lock = Requested
  | ObMark t c i w terminal _ =>
      (t = tenant ∧ c = conversation ∧ i = turn) ∧
      match w with
      | Some w => w = worker_id ∧ is_Some (vw_claimed v)
      | None => ∃ lock now, vw_loaded v = Some (Some lock) ∧ vw_now v = Some now ∧
                            lk_turn_id lock = turn ∧ lk_state lock = Running ∧
                            is_expired lock now = true ∧ tu_state terminal = LockFailed
      end ∧
      match tu_state terminal with
      | Committed => ∃ commit, vw_commit v = Some (false, commit) ∧
                               tu_assistant_message_id terminal = Some (tc_assistant_message_id commit)
      | LockInterrupted => ∃ commit, vw_commit v = Some (true, commit) ∧
                                     tu_assistant_message_id terminal = Some (tc_assistant_message_id commit)
      | LockFailed => vw_commit v = None
      | Requested | Running => False
      end
  | ObStream messages =>
      vw_asked v = false ∧
      ∃ lock history, vw_claimed v = Some lock ∧ messages = llm_messages history (lk_text lock)
  | ObCommit interrupted t u c commit _ =>
      vw_commit v = None ∧ vw_refused v = false ∧ (interrupted = false → vw_asked v = true) ∧
      ∃ lock aid, vw_claimed v = Some lock ∧ t = tenant ∧ u = lk_user_id lock ∧ c = conversation ∧
                  commit = turn_commit command lock aid (vw_streamed v)
  | ObPublish e _ =>
      (en_tenant_id e = tenant ∧ en_conversation_id e = conversation ∧ en_turn_id e = turn ∧
       en_user_id e = tr_user_id command) ∧
      may_publish v (en_event e)
  | ObAck i _ =>
      i = turn ∧ vw_acked v = false ∧
      (vw_terminal v = true ∨ vw_refused v = true ∨
       ∃ lock, vw_loaded v = Some (Some lock) ∧ lk_turn_id lock = turn ∧
               lock_is_terminal lock = true ∧ lk_terminal_event_published lock = true)
  | ObRelease t c i => (t = tenant ∧ c = conversation ∧ i = turn) ∧ vw_acked v = true
  | ObNow _ | ObOther => True
  end.

Definition turn_ok (past : list WkObs) (o : WkObs) : Prop :=
  vw_trusted (turn_view past) = true → turn_spec (turn_view past) o.

Abbreviation wk_safe := (safe wk_obs turn_ok).

(** ** Steps *)

(** A predicate of a program in terms of views: from view [v], it returns in a
    view and with a result that [Q] relates to [v]. *)
Definition wk_triple {B} (v : TurnView) (p : prog WkE B) (Q : TurnView → B → Prop) : Prop :=
  ∀ past, turn_view past = v → wk_safe p (λ past' r, Q (turn_view past') r) past.

Lemma wk_ret {B} v (r : B) (Q : TurnView → B → Prop) : Q v r → wk_triple v (Ret r) Q.
Proof. intros H past <-. by apply safe_ret. Qed.

Lemma wk_step {A B} v (e : WkE A) (f : A → prog WkE B) Q :
  (∀ x, (vw_trusted v = true → turn_spec v (wk_obs A e x)) ∧
        wk_triple (view_step v (wk_obs A e x)) (f x) Q) →
  wk_triple v (prog_bind (call e) f) Q.
Proof.
  intros H past Hv. apply safe_call. intros x. destruct (H x) as [Hok Hk].
  split; [unfold turn_ok; by rewrite Hv |]. apply Hk. by rewrite turn_view_snoc, Hv.
Qed.

Lemma wk_bus_step {A B} v (e : WkE (result A ChatBusError)) (f : result A string → prog WkE B) Q :
  (∀ x, (vw_trusted v = true → turn_spec v (wk_obs _ e x)) ∧
        wk_triple (view_step v (wk_obs _ e x)) (f (result_map_err chat_bus_error_to_string x)) Q) →
  wk_triple v (prog_bind (bus e) f) Q.
Proof. intros H. unfold bus. by apply (wk_step v e). Qed.

Lemma wk_bind {A B} v (p : prog WkE A) (f : A → prog WkE B) P Q :
  wk_triple v p P → (∀ v' a, P v' a → wk_triple v' (f a) Q) → wk_triple v (prog_bind p f) Q.
Proof.
  intros Hp Hf past Hv. eapply safe_bind_spec; [by apply Hp |].
  intros past' a _ HP. by apply (Hf _ _ HP).
Qed.

Lemma wk_post {B} v (p : prog WkE B) (P Q : TurnView → B → Prop) :
  wk_triple v p P → (∀ v' r, P v' r → Q v' r) → wk_triple v p Q.
Proof. intros Hp HQ past Hv. eapply safe_mono; [by apply Hp |]. intros past' r _. apply HQ. Qed.

(** ** Publishing *)

(** After publishing, or failing to publish, [event] at [n]. *)
Definition said (v : TurnView) (n : DateTime) (event : ChatEvent) (ok : bool) : TurnView :=
  mkTurnView (Some n) (vw_loaded v) (vw_claimed v) (vw_asked v)
    (match event with TextDelta chunk => if ok then vw_streamed v +:+ chunk else vw_streamed v
                    | _ => vw_streamed v end)
    (vw_commit v) (vw_refused v) (vw_terminal v || ok && terminal_kind event) (vw_trusted v) (vw_acked v).

Lemma wk_publish {B} v event (f : result string string → prog WkE B) Q :
  (vw_trusted v = true → may_publish v event) →
  (∀ n x, wk_triple (said v n event (is_ok x)) (f x) Q) →
  wk_triple v (prog_bind (publish_event command event) f) Q.
Proof.
  intros Hv Hf. destruct v as [now loaded claimed asked streamed commit refused terminal trusted acked].
  unfold publish_event. cbn [prog_bind call]. apply (wk_step _ Now). intros n. split; [done |].
  apply (wk_bus_step _ (PublishEvent _)). intros x. split.
  - intros Ht. split; [done |]. specialize (Hv Ht). cbn [en_event]. by destruct event.
  - specialize (Hf n (result_map_err chat_bus_error_to_string x)). unfold said in Hf. simpl in Hf.
    destruct x as [id | e]; simpl in *; [exact Hf |].
    rewrite orb_false_r in Hf. by destruct event.
Qed.

(** ** Failing a turn *)

(** What a cleanup leaves alone. *)
Record kept (v v' : TurnView) : Prop := {
  kp_loaded : vw_loaded v' = vw_loaded v;
  kp_claimed : vw_claimed v' = vw_claimed v;
  kp_asked : vw_asked v' = vw_asked v;
  kp_streamed : vw_streamed v' = vw_streamed v;
  kp_commit : vw_commit v' = vw_commit v;
  kp_refused : vw_refused v' = vw_refused v;
  kp_acked : vw_acked v' = vw_acked v;
}.

Lemma kept_refl v : kept v v.
Proof. by constructor. Qed.

Lemma kept_trans v1 v2 v3 : kept v1 v2 → kept v2 v3 → kept v1 v3.
Proof. intros [] []. constructor; congruence. Qed.

(** Cleaning up: the rest of the turn is untouched, and success means that a
    terminal event was published. *)
Definition cleaned (v : TurnView) (v' : TurnView) (r : result unit string) : Prop :=
  kept v v' ∧ (r = Ok tt → vw_terminal v' = true).

Lemma kept_said v n event ok :
  match event with TextDelta _ => False | _ => True end → kept v (said v n event ok).
Proof. intros He. constructor; try done. by destruct event. Qed.

Lemma publish_failed_turn_spec v user_id message :
  vw_commit v = None → wk_triple v (publish_failed_turn command user_id message) (cleaned v).
Proof.
  intros Hc. unfold publish_failed_turn. apply (wk_step _ (RecordTurnFailed _ _ _ _ _)).
  intros x. split; [done |]. replace (view_step v _) with v by (by destruct v).
  apply wk_publish; [done |]. intros n [id | e]; cbn [is_ok].
  - apply wk_publish; [done |]. intros n' [id' | e']; apply wk_ret; (split; [| intros ?]).
    + eapply kept_trans; by apply kept_said.
    + simpl. by rewrite orb_true_r.
    + eapply kept_trans; by apply kept_said.
    + done.
  - apply wk_ret. split; [by apply kept_said | done].
Qed.

(** The mark of a terminal lock. *)
Definition marked (v : TurnView) (terminal : ChatTerminalUpdate) (r : result ChatLock ChatBusError)
  : TurnView := view_step v (ObMark tenant conversation turn None terminal r).

Lemma kept_marked v t c i w terminal r : kept v (view_step v (ObMark t c i w terminal r)).
Proof. destruct v, r; by constructor. Qed.

Lemma fail_owned_turn_spec v lock message :
  is_Some (vw_claimed v) → vw_commit v = None →
  wk_triple v (fail_owned_turn worker_id command lock message) (cleaned v).
Proof.
  intros Hcl Hc. unfold fail_owned_turn. apply wk_bus_step. intros x. split; [intros _; simpl; by split_and! |].
  set (v1 := view_step v _). assert (kept v v1) as H1 by apply kept_marked.
  destruct x as [failed | e]; [| by apply wk_ret].
  cbn [result_map_err]. eapply wk_bind; [apply publish_failed_turn_spec |].
  { by rewrite (kp_commit _ _ H1). }
  intros v2 [[] | e] [H2 Ht]; [| apply wk_ret; split; [by eapply kept_trans | done]].
  unfold mark_published, bus. apply wk_step. intros r. split; [done |].
  replace (view_step v2 _) with v2 by (by destruct v2). apply wk_ret.
  split; [by eapply kept_trans |]. intros _. by apply Ht.
Qed.

(** ** Committing a turn *)

(** What the command may be acknowledged after. *)
Definition handled (v : TurnView) (r : result unit string) : Prop :=
  vw_acked v = false ∧ (r = Ok tt → vw_terminal v = true ∨ vw_refused v = true).

(** A turn being driven by this worker: nothing is committed yet, and [text] is
    what the client has been sent. *)
Record driving (v : TurnView) (lock : ChatLock) (text : string) : Prop := {
  dr_claimed : vw_claimed v = Some lock;
  dr_streamed : vw_streamed v = text;
  dr_commit : vw_commit v = None;
  dr_refused : vw_refused v = false;
  dr_acked : vw_acked v = false;
}.

(** The cleanup after a refused commit: whatever becomes of it, the turn is
    answered as done. *)
Lemma refused_spec v lock message :
  is_Some (vw_claimed v) → vw_commit v = None → vw_refused v = true → vw_acked v = false →
  wk_triple v (let* _ := fail_owned_turn worker_id command lock message in Ret (Ok tt)) handled.
Proof.
  intros Hcl Hc Hr Ha. eapply wk_bind; [by apply fail_owned_turn_spec |].
  intros v' r [Hk _]. apply wk_ret. split; [by rewrite (kp_acked _ _ Hk) |].
  intros _. right. by rewrite (kp_refused _ _ Hk).
Qed.

Lemma commit_interrupted_turn_spec v lock text :
  driving v lock text →
  wk_triple v (commit_interrupted_turn worker_id command lock text) handled.
Proof.
  intros [Hcl Hst Hc Hr Ha]. unfold commit_interrupted_turn.
  destruct v as [now loaded claimed asked streamed commit refused terminal trusted acked].
  cbn [vw_claimed vw_streamed vw_commit vw_refused vw_acked vw_asked] in *. subst. apply wk_step. intros aid. split; [done |].
  apply (wk_step _ (CommitTurn _ _ _ _ _)). intros x. split.
  { intros _. simpl. split_and!; [done | done | done |]. by exists lock, aid. }
  destruct x as [d | e]; cbn [wk_obs view_step].
  2: { by apply refused_spec. }
  apply wk_bus_step. intros y. split.
  { intros _. simpl. split_and!; [done | done | done | done | by eexists | by eexists]. }
  destruct y as [terminal_lock | e]; cbn [wk_obs view_step result_map_err]; [| by apply wk_ret].
  apply wk_publish; [intros _; left; by eexists |]. intros n [id | e]; cbn [is_ok said].
  - unfold mark_published, bus. apply wk_step. intros z. split; [done |]. cbn [wk_obs view_step]. apply wk_ret.
    split; [done |]. intros _. left. simpl. by rewrite orb_true_r.
  - by apply wk_ret.
Qed.

Lemma commit_completed_turn_spec v lock title text :
  driving v lock text → vw_asked v = true →
  wk_triple v (commit_completed_turn worker_id command lock title text) handled.
Proof.
  intros [Hcl Hst Hc Hr Ha] Has. unfold commit_completed_turn.
  destruct v as [now loaded claimed asked streamed commit refused terminal trusted acked].
  cbn [vw_claimed vw_streamed vw_commit vw_refused vw_acked vw_asked] in *. subst. apply wk_step. intros aid. split; [done |].
  apply (wk_step _ (CommitTurn _ _ _ _ _)). intros x. split.
  { intros _. simpl. split_and!; [done | done | done |]. by exists lock, aid. }
  destruct x as [d | e]; cbn [wk_obs view_step].
  2: { by apply refused_spec. }
  apply wk_bus_step. intros y. split.
  { intros _. simpl. split_and!; [done | done | done | done | by eexists | by eexists]. }
  destruct y as [terminal_lock | e]; cbn [wk_obs view_step result_map_err]; [| by apply wk_ret].
  apply wk_publish; [intros _; left; by eexists |]. intros n [id | e]; cbn [is_ok said]; [| by apply wk_ret].
  unfold mark_published. apply wk_bus_step. intros z. split; [done |].
  assert (∀ (v' : TurnView), vw_acked v' = false → vw_terminal v' = true → handled v' (Ok tt)) as Hdone.
  { intros v' ? ?. split; [done | by left]. }
  destruct z as [[] | e]; cbn [wk_obs view_step result_map_err]; [| by apply wk_ret].
  destruct (title && _).
  - apply wk_step. intros []. split; [done |]. apply wk_ret, Hdone; [done |]. simpl. by rewrite orb_true_r.
  - apply wk_ret, Hdone; [done |]. simpl. by rewrite orb_true_r.
Qed.

(** ** Driving a turn *)

(** A turn that still runs after its rounds, or failed on a call, leaves the
    command alone. *)
Definition driven (v : TurnView) (r : option (result unit string)) : Prop :=
  match r with Some r => handled v r | None => vw_acked v = false end.

Lemma driven_some v (p : prog WkE (result unit string)) :
  wk_triple v p handled → wk_triple v (let* r := p in Ret (Some r)) driven.
Proof. intros Hp. eapply wk_bind; [exact Hp |]. intros v' r Hr. by apply wk_ret. Qed.

Lemma cleaned_driven v lock text message :
  driving v lock text →
  wk_triple v (let* r := fail_owned_turn worker_id command lock message in Ret (Some r)) driven.
Proof.
  intros [Hcl Hst Hc Hr Ha]. apply driven_some. eapply wk_post; [apply fail_owned_turn_spec |].
  - by eexists.
  - done.
  - intros v' r [Hk Ht]. split; [by rewrite (kp_acked _ _ Hk) |]. intros ->. left. by apply Ht.
Qed.

(** A call that the view does not see. *)
Lemma wk_silent {A B} v (e : WkE A) (f : A → prog WkE B) Q :
  (∀ x, wk_obs A e x = ObOther) → (∀ x, wk_triple v (f x) Q) → wk_triple v (prog_bind (call e) f) Q.
Proof.
  intros He Hf. apply wk_step. intros x. rewrite He. split; [done |].
  replace (view_step v ObOther) with v by (by destruct v). apply Hf.
Qed.

Lemma stream_loop_spec rounds v lock title text :
  driving v lock text → vw_asked v = true →
  wk_triple v (stream_loop worker_id command rounds lock title text) driven.
Proof.
  revert v text. induction rounds as [|rounds IH]; intros v text Hd Ha.
  { apply wk_ret. apply (dr_acked _ _ _ Hd). }
  cbn [stream_loop]. apply wk_silent; [done |]. intros woken.
  destruct woken as [[message|] | | | signal | | [[[chunk] | error]|]].
  - by eapply cleaned_driven.
  - by apply IH.
  - by apply IH.
  - unfold lock_stop_requested, bus. cbn [prog_bind call]. apply (wk_silent _ (StopRequested _ _ _)); [done |].
    intros [[|] | e]; cbn [result_map_err].
    + by apply driven_some, commit_interrupted_turn_spec.
    + by apply IH.
    + apply wk_ret. split; [apply (dr_acked _ _ _ Hd) | done].
  - destruct (is_stop_for_turn command signal); [by apply driven_some, commit_interrupted_turn_spec | by apply IH].
  - by apply IH.
  - apply wk_publish; [intros _; split; [done | apply (dr_commit _ _ _ Hd)] |].
    intros n [id | e]; cbn [is_ok].
    + apply IH; [| done]. destruct Hd as [Hcl Hst Hc Hr Hk]. constructor; try done. simpl. by rewrite Hst.
    + apply wk_ret. split; [apply (dr_acked _ _ _ Hd) | done].
  - by eapply cleaned_driven.
  - by apply driven_some, commit_completed_turn_spec.
Qed.

Lemma received_stop_spec rounds v :
  wk_triple v (received_stop command rounds) (λ v' _, v' = v).
Proof.
  induction rounds as [|rounds IH]; [by apply wk_ret |]. cbn [received_stop].
  apply wk_silent; [done |]. intros [signal | | |]; [| by apply wk_ret | done | by apply wk_ret].
  destruct (is_stop_for_turn command signal); [by apply wk_ret | done].
Qed.

Lemma stop_requested_spec rounds v :
  wk_triple v (stop_requested command rounds) (λ v' _, v' = v).
Proof.
  unfold stop_requested. eapply wk_bind; [apply received_stop_spec |].
  intros v' [[|]|] ->; [by apply wk_ret | | by apply wk_ret].
  unfold lock_stop_requested, bus. cbn [prog_bind call].
  apply (wk_silent _ (StopRequested _ _ _)); [done |]. intros x. by apply wk_ret.
Qed.

(** A message that is no delta moves nothing that matters here. *)
Lemma driving_said v lock text n event ok :
  match event with TextDelta _ => False | _ => True end →
  driving v lock text → driving (said v n event ok) lock text.
Proof. intros He [Hcl Hst Hc Hr Ha]. constructor; try done. simpl. by destruct event. Qed.

Lemma answer_turn_spec rounds v lock detail :
  driving v lock "" → vw_asked v = false →
  wk_triple v (answer_turn worker_id command rounds lock detail) driven.
Proof.
  intros Hd Ha. unfold answer_turn. apply wk_step. intros r. split.
  { intros _. split; [done |]. exists lock, (cd_messages detail). split; [apply (dr_claimed _ _ _ Hd) | done]. }
  set (v1 := view_step v _).
  assert (driving v1 lock "") as Hd1 by (destruct v, Hd; by constructor).
  destruct r as [[] | error]; [| by eapply cleaned_driven].
  apply stream_loop_spec; [done |]. by destruct v.
Qed.

Lemma drive_turn_spec rounds v lock :
  driving v lock "" → vw_asked v = false →
  wk_triple v (drive_turn worker_id command rounds lock) driven.
Proof.
  intros Hd Ha. pose proof (dr_acked _ _ _ Hd) as Hk. unfold drive_turn.
  apply wk_silent; [done |]. intros [detail | e]; [| by apply wk_ret].
  apply wk_publish; [intros _; split; [| done]; eexists; apply (dr_claimed _ _ _ Hd) |].
  intros n [id | e]; [| by apply wk_ret]. cbn [is_ok].
  set (v1 := said v n _ _).
  assert (driving v1 lock "") as Hd1 by by apply driving_said.
  apply wk_publish; [intros _; exists lock; split_and!; [apply (dr_claimed _ _ _ Hd1) | done..] |].
  intros n' [id' | e']; [| by apply wk_ret]. cbn [is_ok].
  set (v2 := said v1 n' _ _).
  assert (driving v2 lock "") as Hd2 by by apply driving_said.
  eapply (wk_bind _ _ _ (λ v' _, v' = v2)).
  { destruct (lk_stop_requested lock); [by apply wk_ret | apply stop_requested_spec]. }
  intros v' [[[|] | e]|] ->.
  - by apply driven_some, commit_interrupted_turn_spec.
  - by apply answer_turn_spec.
  - by apply wk_ret.
  - by apply wk_ret.
Qed.

(** ** One delivery *)

(** The command is acknowledged exactly when the delivery succeeds. *)
Definition delivered (v : TurnView) (r : option (result unit string)) : Prop :=
  match r with
  | Some (Ok _) => vw_acked v = true
  | Some (Err _) | None => vw_acked v = false
  end.

Definition settled (v : TurnView) (r : result unit string) : Prop := delivered v (Some r).

Lemma delivered_some v (p : prog WkE (result unit string)) :
  wk_triple v p settled → wk_triple v (let* r := p in Ret (Some r)) delivered.
Proof. intros Hp. eapply wk_bind; [exact Hp |]. intros v' r Hr. by apply wk_ret. Qed.

(** The terminal lock found on delivery has had its event published before. *)
Definition published_before (v : TurnView) : Prop :=
  ∃ lock, vw_loaded v = Some (Some lock) ∧ lk_turn_id lock = turn ∧
          lock_is_terminal lock = true ∧ lk_terminal_event_published lock = true.

Lemma ack_and_release_spec v :
  vw_acked v = false →
  (vw_trusted v = true → vw_terminal v = true ∨ vw_refused v = true ∨ published_before v) →
  wk_triple v (ack_and_release command) settled.
Proof.
  intros Ha Hh. unfold ack_and_release. apply wk_bus_step. intros r. split.
  { intros Ht. by split_and!; [| | by apply Hh]. }
  destruct v. cbn [vw_acked] in Ha. subst.
  destruct r as [[] | e]; cbn [wk_obs view_step result_map_err]; [| by apply wk_ret].
  apply wk_step. intros []. split; [by intros _ |]. by apply wk_ret.
Qed.

(** The missing event of a terminal lock: published now, unless it was before. *)
Definition caught_up (v : TurnView) (lock : ChatLock) (v' : TurnView) (r : result unit string) : Prop :=
  kept v v' ∧ vw_trusted v' = vw_trusted v ∧
  (r = Ok tt → lock_is_terminal lock = true → vw_terminal v' = true ∨ lk_terminal_event_published lock = true).

Lemma mark_published_spec v0 v lock t c i :
  kept v0 v → vw_trusted v = vw_trusted v0 → vw_terminal v = true →
  wk_triple v (mark_published t c i) (caught_up v0 lock).
Proof.
  intros Hk Ht Hv. unfold mark_published, bus. cbn [prog_bind call].
  apply (wk_silent _ (MarkTerminalEventPublished _ _ _)); [done |]. intros r. apply wk_ret.
  split_and!; [done | done |]. intros _ _. by left.
Qed.

Lemma publish_missing_spec v lock :
  vw_commit v = None →
  (vw_trusted v = true →
   lk_state lock = LockFailed ∨ vw_loaded v = Some (Some lock) ∧ lk_turn_id lock = turn) →
  wk_triple v (publish_missing_terminal_event command lock) (caught_up v lock).
Proof.
  intros Hc Hl. unfold publish_missing_terminal_event.
  destruct (lk_terminal_event_published lock) eqn:Hp.
  { apply wk_ret. split_and!; [apply kept_refl | done |]. by right. }
  assert (∀ v' e, kept v v' → vw_trusted v' = vw_trusted v → caught_up v lock v' (Err e)) as Herr by (intros ????; by split_and!).
  assert (∀ n event, terminal_kind event = true → vw_terminal (said v n event true) = true) as Hterm.
  { intros n event He. simpl. by rewrite He, orb_true_r. }
  destruct (lk_state lock) eqn:Hs.
  - apply wk_ret. split_and!; [apply kept_refl | done |]. unfold lock_is_terminal. by rewrite Hs.
  - apply wk_ret. split_and!; [apply kept_refl | done |]. unfold lock_is_terminal. by rewrite Hs.
  - destruct (lk_assistant_message_id lock) as [aid|] eqn:Ha; [| by apply wk_ret, Herr; [apply kept_refl |]].
    apply wk_publish.
    + intros Ht. right. destruct (Hl Ht) as [? | [Hv Hi]]; [congruence |].
      exists (default "" (lk_terminal_content lock)), lock. by split_and!.
    + intros n [id | e]; cbn [is_ok]; [| by apply wk_ret, Herr; [apply kept_said |]].
      apply mark_published_spec; [by apply kept_said | done | by apply Hterm].
  - destruct (lk_assistant_message_id lock) as [aid|] eqn:Ha; [| by apply wk_ret, Herr; [apply kept_refl |]].
    apply wk_publish.
    + intros Ht. right. destruct (Hl Ht) as [? | [Hv Hi]]; [congruence |]. exists lock. by split_and!.
    + intros n [id | e]; cbn [is_ok]; [| by apply wk_ret, Herr; [apply kept_said |]].
      apply mark_published_spec; [by apply kept_said | done | by apply Hterm].
  - apply wk_publish; [done |]. intros n [id | e]; cbn [is_ok]; [| by apply wk_ret, Herr; [apply kept_said |]].
    apply wk_publish; [done |]. intros n' [id' | e']; cbn [is_ok].
    + apply mark_published_spec; [| done | simpl; by rewrite orb_true_r].
      eapply kept_trans; by apply kept_said.
    + apply wk_ret, Herr; [| done]. eapply kept_trans; by apply kept_said.
Qed.

Lemma settled_err v v' e : kept v v' → vw_acked v = false → settled v' (Err e).
Proof. intros Hk Ha. unfold settled. simpl. by rewrite (kp_acked _ _ Hk). Qed.

Lemma settled_turn_spec v lock :
  vw_commit v = None → vw_acked v = false → vw_loaded v = Some (Some lock) → lk_turn_id lock = turn →
  lock_is_terminal lock = true →
  wk_triple v (settled_turn command lock) settled.
Proof.
  intros Hc Ha Hl Hi Ht. unfold settled_turn. eapply wk_bind; [apply publish_missing_spec; [done | by right] |].
  intros v' [[] | e] (Hk & Htr & Hdone); [| by apply wk_ret, (settled_err v)].
  apply ack_and_release_spec; [by rewrite (kp_acked _ _ Hk) |]. intros _.
  destruct (Hdone eq_refl Ht) as [? | Hp]; [by left |]. right. right.
  exists lock. by rewrite (kp_loaded _ _ Hk).
Qed.

Lemma lost_turn_spec v lock now :
  vw_commit v = None → vw_acked v = false → vw_loaded v = Some (Some lock) → vw_now v = Some now →
  lk_turn_id lock = turn → lk_state lock = Running → is_expired lock now = true →
  wk_triple v (lost_turn command) settled.
Proof.
  intros Hc Ha Hl Hn Hi Hs Hx. unfold lost_turn. apply wk_bus_step. intros r. split.
  { intros _. simpl. split_and!; [done.. | by exists lock, now | done]. }
  set (v1 := view_step v _). assert (kept v v1) as Hk by apply kept_marked.
  destruct r as [failed | e]; cbn [result_map_err]; [| by apply wk_ret, (settled_err v)].
  assert (vw_trusted v1 = true → lk_state failed = LockFailed ∧ lk_terminal_event_published failed = false) as Hf.
  { unfold v1. destruct v. simpl. intros Hh. unfold honest_mark in Hh. destruct_bools. done. }
  apply wk_silent; [done |]. intros [[] | e]; [| by apply wk_ret, (settled_err v)].
  eapply wk_bind; [apply publish_missing_spec |].
  - by rewrite (kp_commit _ _ Hk).
  - intros Ht. left. by apply Hf.
  - intros v' [[] | e] (Hk' & Htr & Hdone).
    2: { apply wk_ret, (settled_err v); [by eapply kept_trans | done]. }
    pose proof (kept_trans _ _ _ Hk Hk') as Hkk.
    apply ack_and_release_spec; [by rewrite (kp_acked _ _ Hkk) |]. rewrite Htr. intros Ht.
    destruct (Hf Ht) as [Hst Hp]. destruct (Hdone eq_refl) as [? | ?]; [| by left | congruence].
    unfold lock_is_terminal. by rewrite Hst.
Qed.

Lemma claimed_turn_spec rounds v lock :
  vw_loaded v = Some (Some lock) → lk_turn_id lock = turn → lk_state lock = Requested →
  vw_asked v = false → vw_streamed v = "" → vw_commit v = None → vw_refused v = false →
  vw_acked v = false →
  wk_triple v (claimed_turn worker_id command rounds) delivered.
Proof.
  intros Hl Hi Hs Has Hst Hc Hr Ha. unfold claimed_turn. apply wk_bus_step. intros r. split.
  { intros _. split; [done |]. by exists lock. }
  set (v1 := view_step v _). assert (vw_acked v1 = false) as Ha1 by (destruct v, r; done).
  destruct r as [claimed | e]; cbn [result_map_err]; [| by apply wk_ret].
  apply wk_silent; [done |]. intros []. eapply wk_bind; [apply drive_turn_spec |].
  - unfold v1. destruct v. simpl in *. by constructor.
  - unfold v1. by destruct v.
  - intros v' [r|] Hd; [| by apply wk_ret]. apply wk_silent; [done |]. intros [].
    destruct Hd as [Hk Hd]. destruct r as [[] | e]; [| by apply wk_ret].
    apply delivered_some, ack_and_release_spec; [done |]. intros _. destruct (Hd eq_refl); auto.
Qed.

Lemma abandoned_turn_spec v :
  vw_commit v = None → vw_acked v = false → wk_triple v (abandoned_turn command) settled.
Proof.
  intros Hc Ha. unfold abandoned_turn. eapply wk_bind; [by apply publish_failed_turn_spec |].
  intros v' [[] | e] [Hk Ht]; [| by apply wk_ret, (settled_err v)].
  unfold bus. apply wk_step. intros r. split.
  { intros _. split_and!; [done | by rewrite (kp_acked _ _ Hk) | by left; apply Ht]. }
  apply wk_ret. destruct r as [[] | e]; [by destruct v' |].
  apply (settled_err v); [| done]. by destruct v'.
Qed.

Lemma run_turn_spec rounds : wk_triple view_new (run_turn worker_id command rounds) delivered.
Proof.
  unfold run_turn. apply wk_bus_step. intros r. split; [done |].
  destruct r as [[existing|] | e]; cbn [result_map_err wk_obs view_step view_new]; [| | by apply wk_ret].
  - case_bool_decide as Hi; [by apply wk_ret |].
    destruct (lock_is_terminal existing) eqn:Ht; [by apply delivered_some, settled_turn_spec |].
    case_bool_decide as Hs.
    + apply wk_step. intros now. split; [done |]. cbn [wk_obs view_step].
      destruct (is_expired existing now) eqn:Hx; cbn [negb]; [| by apply wk_ret].
      by apply delivered_some, (lost_turn_spec _ existing now).
    + apply (claimed_turn_spec _ _ existing); try done.
      unfold lock_is_terminal in Ht. destruct (lk_state existing); congruence.
  - by apply delivered_some, abandoned_turn_spec.
Qed.

End turn.

(** ** A refused commit *)

Section refused.
Context (worker_id : string) (command : TurnRequested).

(** A stopped turn whose commit the database refuses and whose cleanup the lock
    bucket refuses. *)
Definition refused_trace (existing claimed : ChatLock) (detail : ConversationDetail) (aid : string)
    (message : string) : list WkObs :=
  let t := tr_tenant_id command in let c := tr_conversation_id command in
  let i := tr_turn_id command in
  let said event := ObPublish (mkEnvelope CONTRACT_VERSION t (tr_user_id command) c i 0 event) (Ok "1") in
  [ObLoad t c (Ok (Some existing)); ObClaim t c i worker_id (Ok claimed); ObOther; ObOther;
   ObNow 0; said (TurnStarted i);
   ObNow 0; said (UserMessage (lk_user_message_id claimed) (Some i) (lk_text claimed)); ObOther;
   ObCommit true t (lk_user_id claimed) c (turn_commit command claimed aid "") (Err (StInternal message));
   ObMark t c i (Some worker_id)
     (mkTerminal LockFailed None None
        (Some ("failed to commit interrupted chat turn: " +:+ storage_error_to_string (StInternal message))))
     (Err Unavailable);
   ObOther; ObAck i (Ok tt); ObRelease t c i].

(** Fact: A commit that is refused and whose cleanup fails too is still answered
    as done: the command is acknowledged and the lock released although nothing
    was committed and no terminal event was published, so the client of the turn
    is never told how it ended. *)
Theorem refused_commit_ends_silently existing claimed detail aid message rounds :
  lk_turn_id existing = tr_turn_id command → lk_state existing = Requested →
  lk_stop_requested claimed = true →
  let tr := refused_trace existing claimed detail aid message in
  exec wk_obs (run_turn worker_id command rounds) tr (Some (Ok tt)) ∧
  vw_acked (turn_view tr) = true ∧ vw_commit (turn_view tr) = None ∧
  vw_terminal (turn_view tr) = false.
Proof.
  intros Hi Hs Hstop tr. split; [| done]. unfold tr, refused_trace, run_turn.
  unfold bus at 1. cbn [prog_bind call exec]. exists (Ok (Some existing)). split; [done |].
  cbn [result_map_err]. rewrite bool_decide_eq_false_2 by naive_solver.
  unfold lock_is_terminal. rewrite Hs. rewrite bool_decide_eq_false_2 by done.
  exists (Ok claimed). split; [done |]. cbn [result_map_err]. exists tt. split; [done |].
  exists (Ok detail). split; [done |]. exists 0. split; [done |]. exists (Ok "1"). split; [done |].
  exists 0. split; [done |]. exists (Ok "1"). split; [done |]. cbn [result_map_err].
  rewrite Hstop. cbn [prog_bind]. exists aid. split; [done |].
  exists (Err (StInternal message)). split; [done |]. exists (Err Unavailable). split; [done |].
  exists tt. split; [done |]. exists (Ok tt). split; [done |]. exists tt. split; [done |]. done.
Qed.
End refused.

(** ** A concrete delivery *)

Module WorkerDemo.
Definition command : TurnRequested := mkTurnRequested 1 "cmd" "acme" "ann" "c1" "t1" 0.
Definition lock (state : ChatLockState) (worker : option string) : ChatLock :=
  mkLock "acme" "ann" "c1" "t1" "m1" "hello" None "Bearer x" state worker false None None 100
    None None None false.

Definition terminal_lock (terminal : ChatTerminalUpdate) : ChatLock :=
  mkLock "acme" "ann" "c1" "t1" "m1" "hello" None "Bearer x" (tu_state terminal) (Some "w1") false
    None None 100 (tu_assistant_message_id terminal) (tu_content terminal) (tu_error terminal) false.

Definition detail : ConversationDetail := mkDetail "c1" DEFAULT_TITLE [] 0.

(** A healthy world, with what the [select!] wakes for. *)
Definition world : handler WkE (list Woken) := λ A e w,
  match e in WkE A return list Woken * A with
  | Now => (w, 0)
  | NewUlid => (w, "a1")
  | LoadLock _ _ => (w, Ok (Some (lock Requested None)))
  | ClaimLock _ _ _ _ => (w, Ok (lock Running (Some "w1")))
  | MarkLockTerminal _ _ _ _ terminal => (w, Ok (terminal_lock terminal))
  | MarkTerminalEventPublished _ _ _ => (w, Ok tt)
  | StopRequested _ _ _ => (w, Ok false)
  | RenewLock _ _ _ _ => (w, Ok (lock Running (Some "w1")))
  | ReleaseLock _ _ _ => (w, tt)
  | ProgressTurnRequested _ => (w, Ok tt)
  | AckTurnRequested _ => (w, Ok tt)
  | PublishEvent _ => (w, Ok "1")
  | TryRecvStop => (w, TryEmpty)
  | RepoGetConversation _ _ _ => (w, Ok detail)
  | RecordTurnFailed _ _ _ _ _ => (w, Ok tt)
  | CommitTurn _ _ _ _ _ => (w, Ok detail)
  | RenameIfDefault _ _ _ _ => (w, Ok None)
  | StreamChat _ => (w, Ok tt)
  | TitleStreamChat _ => (w, Ok tt)
  | TitleNext => (w, None)
  | Select => (tail w, default (StreamDelta None) (head w))
  | MaintenanceSelect => (w, ShutdownChanged true)
  | SendMaintenanceError _ => (w, tt)
  | SpawnMaintenance => (w, tt)
  | ShutdownMaintenance => (w, tt)
  | SpawnTitle _ _ => (w, tt)
  end.

Definition wakes : list Woken :=
  [StreamDelta (Some (Ok (LlmText "Hel"))); StopTick; StreamDelta (Some (Ok (LlmText "lo")))].

Definition trace : list WkObs := run_trace wk_obs world (run_turn "w1" command 10) wakes.
End WorkerDemo.

(** What is committed, and how the delivery ends. *)
Example worker_demo_commits :
  omap (λ o, match o with ObCommit _ _ _ _ c _ => Some (tc_assistant_text c) | _ => None end)
    WorkerDemo.trace = ["Hello"] ∧
  (run WorkerDemo.world (run_turn "w1" WorkerDemo.command 10) WorkerDemo.wakes).2 = Some (Ok tt).
Proof. vm_compute. done. Qed.


Definition stopped_lock : ChatLock :=
  let 'mkLock t u c i m x p b s w _ _ _ e a tc te pub := WorkerDemo.lock Running (Some "w1") in
  mkLock t u c i m x p b s w true (Some "ann") (Some 0) e a tc te pub.

Lemma refused_commit_ends_silently_witness :
  exec wk_obs (run_turn "w1" WorkerDemo.command 10)
    (refused_trace "w1" WorkerDemo.command (WorkerDemo.lock Requested None) stopped_lock
       WorkerDemo.detail "a1" "disk full") (Some (Ok tt)).
Proof.
  apply (refused_commit_ends_silently "w1" WorkerDemo.command (WorkerDemo.lock Requested None)
    stopped_lock WorkerDemo.detail "a1" "disk full" 10); reflexivity.
Defined.
