(* ===== verification/ChatTurnRun.v ===== *)
(** * A whole turn

    The chat worker run against the in-memory bus and the in-memory repository
    (crates/nats/src/lib.rs, crates/storage/src/lib.rs) and a model that streams a
    given answer: what becomes of the conversation, of the event log, of the lock
    and of the command. *)

From S2P Require Import Prelude Text Events Contracts ChatBus ChatReplay ChatStore ChatStoreRun ChatWorker.

Local Open Scope Z_scope.

Record ChatWorld : Type := mkWorld {
  cw_locks : Locks;
  cw_events : MemEvents;
  cw_repo : Repo;
  cw_acked : list string;
  cw_ulids : nat;
  cw_deltas : list string;
}.

Definition with_locks (locks : Locks) (w : ChatWorld) : ChatWorld :=
  mkWorld locks (cw_events w) (cw_repo w) (cw_acked w) (cw_ulids w) (cw_deltas w).
Definition with_events (events : MemEvents) (w : ChatWorld) : ChatWorld :=
  mkWorld (cw_locks w) events (cw_repo w) (cw_acked w) (cw_ulids w) (cw_deltas w).
Definition with_repo (repo : Repo) (w : ChatWorld) : ChatWorld :=
  mkWorld (cw_locks w) (cw_events w) repo (cw_acked w) (cw_ulids w) (cw_deltas w).

(** A method of the lock table, as a step of the world. *)
Definition on_locks {A} (m : Locks → Locks * A) (w : ChatWorld) : ChatWorld * A :=
  let '(locks, x) := m (cw_locks w) in (with_locks locks w, x).

Section world.
Context (env : string → option string) (now : DateTime) (ulid : nat → string).

(** The in-memory implementations, one clock reading throughout, a provider that
    streams [cw_deltas] and ends, and nobody who asks to stop. *)
Definition chat_world : handler WkE ChatWorld := λ A e w,
  match e in WkE A return ChatWorld * A with
  | Now => (w, now)
  | NewUlid =>
      (mkWorld (cw_locks w) (cw_events w) (cw_repo w) (cw_acked w) (S (cw_ulids w)) (cw_deltas w),
       ulid (cw_ulids w))
  | LoadLock t c => on_locks (mem_load_lock t c) w
  | ClaimLock t c i worker => on_locks (mem_claim_lock env now now t c i worker) w
  | MarkLockTerminal t c i worker terminal =>
      on_locks (mem_mark_lock_terminal env now t c i worker terminal) w
  | MarkTerminalEventPublished t c i => on_locks (mem_mark_terminal_event_published t c i) w
  | StopRequested t c i => on_locks (mem_stop_requested now t c i) w
  | RenewLock t c i worker => on_locks (mem_renew_lock env now now t c i worker) w
  | ReleaseLock t c i => (with_locks (mem_release_lock t c i (cw_locks w)) w, tt)
  | ProgressTurnRequested _ => (w, Ok tt)
  | AckTurnRequested i =>
      (mkWorld (cw_locks w) (cw_events w) (cw_repo w) (cw_acked w ++ [i]) (cw_ulids w) (cw_deltas w), Ok tt)
  | PublishEvent event =>
      let '(events, r) := mem_publish_event event (cw_events w) in (with_events events w, r)
  | TryRecvStop => (w, TryEmpty)
  | RepoGetConversation t u c => (w, repo_get_conversation t u c (cw_repo w))
  | RecordTurnFailed t u c _ _ => (w, repo_record_turn_failed t u c (cw_repo w))
  | CommitTurn interrupted t u c commit =>
      let '(repo, r) := commit_turn_with_metadata t u now interrupted c commit (cw_repo w) in
      (with_repo repo w, r)
  | RenameIfDefault t u c title =>
      let '(repo, r) := repo_rename_conversation_if_default t u now c title (cw_repo w) in
      (with_repo repo w, r)
  | StreamChat _ => (w, Ok tt)
  | TitleStreamChat _ => (w, Ok tt)
  | TitleNext => (w, None)
  | Select =>
      (mkWorld (cw_locks w) (cw_events w) (cw_repo w) (cw_acked w) (cw_ulids w) (tail (cw_deltas w)),
       StreamDelta ((λ chunk, Ok (LlmText chunk)) <$> head (cw_deltas w)))
  | MaintenanceSelect => (w, ShutdownChanged true)
  | SendMaintenanceError _ => (w, tt)
  | SpawnMaintenance => (w, tt)
  | ShutdownMaintenance => (w, tt)
  | SpawnTitle _ _ => (w, tt)
  end.

Section turn.
Context (worker_id : string) (command : TurnRequested).

Abbreviation tenant := (tr_tenant_id command).
Abbreviation conversation := (tr_conversation_id command).
Abbreviation turn := (tr_turn_id command).
Abbreviation key := (lock_key tenant conversation).

Definition envelope (event : ChatEvent) : ChatEventEnvelope :=
  mkEnvelope CONTRACT_VERSION tenant (tr_user_id command) conversation turn now event.

(** Publishing a list of events of the turn. *)
Definition publish_list (events : list ChatEvent) (s : MemEvents) : MemEvents :=
  foldl (λ s event, (mem_publish_event (envelope event) s).1) s events.

Lemma run_publish event w :
  ∃ id, run chat_world (publish_event command event) w =
        (with_events (publish_list [event] (cw_events w)) w, Ok id).
Proof. eexists. reflexivity. Qed.

Lemma publish_list_app es es' s : publish_list (es ++ es') s = publish_list es' (publish_list es s).
Proof. apply foldl_app. Qed.

(** The text of a list of deltas. *)
Definition text_of (chunks : list string) : string := foldr String.append "" chunks.

Lemma append_nil (a : string) : a +:+ "" = a.
Proof. induction a as [|x a IH]; [done |]. by rewrite string_app_cons, IH. Qed.

(** The loop publishes every delta and ends with their text. *)
Lemma run_stream rounds lock title text w :
  (length (cw_deltas w) < rounds)%nat →
  run chat_world (stream_loop worker_id command rounds lock title text) w =
    let w' := mkWorld (cw_locks w) (publish_list (TextDelta <$> cw_deltas w) (cw_events w)) (cw_repo w)
                (cw_acked w) (cw_ulids w) [] in
    let '(w'', r) := run chat_world (commit_completed_turn worker_id command lock title
                                       (text +:+ text_of (cw_deltas w))) w' in
    (w'', Some r).
Proof.
  destruct w as [locks events repo acked ulids deltas]. cbn [cw_deltas cw_locks cw_events cw_repo cw_acked cw_ulids].
  revert rounds text events. induction deltas as [|chunk deltas IH]; intros rounds text events Hr;
    (destruct rounds as [|rounds]; [cbn in Hr; lia |]); cbn [stream_loop].
  - cbn [prog_bind call run chat_world head tail fmap option_fmap option_map cw_deltas].
    rewrite run_bind. cbn [text_of foldr fmap list_fmap publish_list foldl cw_locks cw_events cw_repo cw_acked cw_ulids].
    rewrite append_nil. by destruct (run chat_world (commit_completed_turn _ _ _ _ _) _).
  - cbn [prog_bind call run chat_world head tail fmap option_fmap option_map cw_deltas].
    rewrite run_bind.
    destruct (run_publish (TextDelta chunk) (mkWorld locks events repo acked ulids deltas)) as [id Hid].
    cbn [cw_locks cw_events cw_repo cw_acked cw_ulids]. rewrite Hid.
    unfold with_events. cbn [cw_locks cw_events cw_repo cw_acked cw_ulids cw_deltas].
    rewrite IH by (cbn in Hr; lia). cbn [text_of foldr]. by rewrite string_app_assoc.
Qed.

(** The lock of the turn, held by this worker. *)
Definition holds (lock : ChatLock) : Prop :=
  lk_turn_id lock = turn ∧ lk_worker_id lock = Some worker_id ∧ lk_tenant_id lock = tenant ∧
  lk_conversation_id lock = conversation.

Definition commit_of (lock : ChatLock) (aid text : string) : TurnCommit := turn_commit command lock aid text.

(** The worker that holds the lock marks it terminal … *)
Lemma run_mark_terminal held terminal w :
  cw_locks w !! key = Some held → holds held →
  run chat_world (bus (MarkLockTerminal tenant conversation turn (Some worker_id) terminal)) w =
    (with_locks (<[key := terminated env held terminal now]> (cw_locks w)) w, Ok (terminated env held terminal now)).
Proof.
  intros Hheld (Hi & Hw & Ht & Hc). unfold bus. cbn [prog_bind call run chat_world].
  unfold on_locks, mem_mark_lock_terminal. cbv zeta. rewrite Hheld.
  rewrite (bool_decide_eq_false_2 (lk_turn_id held ≠ turn)) by naive_solver.
  unfold other_worker. by rewrite bool_decide_eq_false_2 by naive_solver.
Qed.

(** … and then its event published. *)
Lemma run_mark_published final w :
  cw_locks w !! key = Some final → lk_turn_id final = turn → lock_is_terminal final = true →
  run chat_world (mark_published tenant conversation turn) w =
    (with_locks (<[key := published final]> (cw_locks w)) w, Ok tt).
Proof.
  intros Hl Hi Ht. unfold mark_published, bus. cbn [prog_bind call run chat_world].
  unfold on_locks, mem_mark_terminal_event_published. cbv zeta. rewrite Hl.
  by rewrite bool_decide_eq_true_2, Ht by done.
Qed.

Lemma terminated_fields held terminal :
  holds held → tu_state terminal ∈ [Committed; LockInterrupted; LockFailed] →
  let final := terminated env held terminal now in
  lk_tenant_id final = tenant ∧ lk_conversation_id final = conversation ∧ lk_turn_id final = turn ∧
  lock_is_terminal final = true.
Proof.
  intros (Hi & Hw & Ht & Hc) Hs final. unfold final. destruct held. simpl in *. split_and!; try done.
  unfold lock_is_terminal. simpl. by destruct (tu_state terminal); [set_solver.. | | |].
Qed.

(** Committing a completed turn: the messages, the terminal lock, the event. *)
Lemma run_commit_completed lock held title text row k w :
  cw_locks w !! key = Some held → holds held →
  visible_row tenant (lk_user_id lock) (cw_repo w) conversation = Ok row →
  retain_len (lk_parent_message_id lock) (sc_messages row) = Some k →
  let aid := ulid (cw_ulids w) in
  ∃ final, lk_turn_id final = turn ∧
    run chat_world (commit_completed_turn worker_id command lock title text) w =
      (mkWorld (<[key := final]> (cw_locks w)) (publish_list [Finish aid FinishStop] (cw_events w))
         (<[conversation := committed row k (commit_of lock aid text) false now]> (cw_repo w))
         (cw_acked w) (S (cw_ulids w)) (cw_deltas w), Ok tt).
Proof.
  intros Hheld Hholds Hrow Hk aid. destruct w as [locks events repo acked ulids deltas].
  cbn [cw_locks cw_repo cw_ulids cw_events cw_acked cw_deltas] in *.
  destruct (terminated_fields held (mkTerminal Committed (Some aid) None None) Hholds) as (H1 & H2 & H3 & H4);
    [set_solver |].
  eexists (published (terminated env held (mkTerminal Committed (Some aid) None None) now)).
  split; [by destruct held |].
  unfold commit_completed_turn. cbn [prog_bind call run chat_world cw_ulids cw_repo]. fold aid.
  unfold commit_turn_with_metadata. cbn [cw_repo]. rewrite Hrow. cbn [turn_commit tc_parent_message_id].
  rewrite Hk. cbn [with_repo cw_locks cw_events cw_acked cw_ulids cw_deltas].
  rewrite run_bind, (run_mark_terminal held) by done. rewrite run_bind, H1, H2, H3.
  match goal with |- context [run chat_world (publish_event command (Finish aid FinishStop)) ?w'] =>
    destruct (run_publish (Finish aid FinishStop) w') as [id ->] end.
  rewrite run_bind.
  rewrite (run_mark_published (terminated env held (mkTerminal Committed (Some aid) None None) now));
    [| apply lookup_insert_eq | done..].
  unfold with_locks, with_events. cbn [cw_locks cw_events cw_repo cw_acked cw_ulids cw_deltas].
  rewrite insert_insert_eq. by destruct (title && _).
Qed.

(** Committing an interrupted turn. *)
Lemma run_commit_interrupted lock held text row k w :
  cw_locks w !! key = Some held → holds held →
  visible_row tenant (lk_user_id lock) (cw_repo w) conversation = Ok row →
  retain_len (lk_parent_message_id lock) (sc_messages row) = Some k →
  let aid := ulid (cw_ulids w) in
  ∃ final, lk_turn_id final = turn ∧
    run chat_world (commit_interrupted_turn worker_id command lock text) w =
      (mkWorld (<[key := final]> (cw_locks w)) (publish_list [Interrupted aid text UserInterrupted] (cw_events w))
         (<[conversation := committed row k (commit_of lock aid text) true now]> (cw_repo w))
         (cw_acked w) (S (cw_ulids w)) (cw_deltas w), Ok tt).
Proof.
  intros Hheld Hholds Hrow Hk aid. destruct w as [locks events repo acked ulids deltas].
  cbn [cw_locks cw_repo cw_ulids cw_events cw_acked cw_deltas] in *.
  destruct (terminated_fields held (mkTerminal LockInterrupted (Some aid) (Some text) None) Hholds)
    as (H1 & H2 & H3 & H4); [set_solver |].
  eexists (published (terminated env held (mkTerminal LockInterrupted (Some aid) (Some text) None) now)).
  split; [by destruct held |].
  unfold commit_interrupted_turn. cbn [prog_bind call run chat_world cw_ulids cw_repo]. fold aid.
  unfold commit_turn_with_metadata. cbn [cw_repo]. rewrite Hrow. cbn [turn_commit tc_parent_message_id].
  rewrite Hk. cbn [with_repo cw_locks cw_events cw_acked cw_ulids cw_deltas].
  rewrite run_bind, (run_mark_terminal held) by done. rewrite run_bind, H1, H2, H3.
  match goal with |- context [run chat_world (publish_event command (Interrupted aid text UserInterrupted)) ?w'] =>
    destruct (run_publish (Interrupted aid text UserInterrupted) w') as [id ->] end.
  rewrite (run_mark_published (terminated env held (mkTerminal LockInterrupted (Some aid) (Some text) None) now));
    [| apply lookup_insert_eq | done..].
  unfold with_locks, with_events. cbn [cw_locks cw_events cw_repo cw_acked cw_ulids cw_deltas].
  by rewrite insert_insert_eq.
Qed.

(** The events of a turn that ends well. *)
Definition turn_events (lock : ChatLock) (chunks : list string) (aid : string) : list ChatEvent :=
  [TurnStarted turn; UserMessage (lk_user_message_id lock) (Some turn) (lk_text lock)] ++
  (TextDelta <$> chunks) ++ [Finish aid FinishStop].

(** Driving the turn once it is claimed. *)
Lemma run_drive rounds lock row k w :
  cw_locks w !! key = Some lock → holds lock → lk_stop_requested lock = false →
  visible_row tenant (lk_user_id lock) (cw_repo w) conversation = Ok row →
  retain_len (lk_parent_message_id lock) (sc_messages row) = Some k →
  (length (cw_deltas w) < rounds)%nat →
  let aid := ulid (cw_ulids w) in
  ∃ final, lk_turn_id final = turn ∧
    run chat_world (drive_turn worker_id command rounds lock) w =
      (mkWorld (<[key := final]> (cw_locks w))
         (publish_list (turn_events lock (cw_deltas w) aid) (cw_events w))
         (<[conversation := committed row k (commit_of lock aid (text_of (cw_deltas w))) false now]> (cw_repo w))
         (cw_acked w) (S (cw_ulids w)) [], Some (Ok tt)).
Proof.
  intros Hheld Hholds Hstop Hrow Hk Hr aid. destruct w as [locks events repo acked ulids deltas].
  cbn [cw_locks cw_repo cw_ulids cw_events cw_acked cw_deltas] in *.
  destruct rounds as [|rounds]; [lia |].
  set (title := bool_decide (cd_title (to_detail row) = DEFAULT_TITLE)
                && bool_decide (cd_messages (to_detail row) = [])).
  set (before := publish_list [UserMessage (lk_user_message_id lock) (Some turn) (lk_text lock)]
                   (publish_list [TurnStarted turn] events)).
  destruct (run_commit_completed lock lock title ("" +:+ text_of deltas) row k
    (mkWorld locks (publish_list (TextDelta <$> deltas) before) repo acked ulids []))
    as (final & Hfinal & Hrun); [done.. |].
  exists final. split; [done |]. unfold drive_turn.
  cbn [prog_bind call run chat_world cw_repo]. unfold repo_get_conversation. rewrite Hrow. cbn [result_bind].
  rewrite run_bind.
  destruct (run_publish (TurnStarted turn) (mkWorld locks events repo acked ulids deltas)) as [id ->].
  cbn [with_events cw_locks cw_repo cw_ulids cw_events cw_acked cw_deltas]. rewrite run_bind.
  match goal with |- context [run chat_world (publish_event command (UserMessage ?a ?b ?c)) ?w'] =>
    destruct (run_publish (UserMessage a b c) w') as [id' ->] end.
  cbn [with_events cw_locks cw_repo cw_ulids cw_events cw_acked cw_deltas]. fold before.
  rewrite Hstop, run_bind. unfold stop_requested, received_stop.
  cbn [prog_bind call run chat_world].
  unfold lock_stop_requested, bus, on_locks, mem_stop_requested.
  cbn [prog_bind call run chat_world on_locks cw_locks]. unfold on_locks, mem_stop_requested.
  cbn [cw_locks with_events]. rewrite Hheld, Hstop, andb_false_r.
  cbn [with_locks with_events cw_locks cw_repo cw_ulids cw_events cw_acked cw_deltas result_map_err run].
  unfold answer_turn. cbn [prog_bind call run chat_world]. rewrite run_stream by done. cbv zeta.
  cbn [with_locks with_events cw_locks cw_repo cw_ulids cw_events cw_acked cw_deltas]. fold title. rewrite Hrun.
  cbn [cw_locks cw_repo cw_ulids cw_events cw_acked cw_deltas]. unfold turn_events.
  rewrite !publish_list_app. done.
Qed.

(** Driving a turn that was stopped before it was claimed. *)
Lemma run_drive_stopped rounds lock row k w :
  cw_locks w !! key = Some lock → holds lock → lk_stop_requested lock = true →
  visible_row tenant (lk_user_id lock) (cw_repo w) conversation = Ok row →
  retain_len (lk_parent_message_id lock) (sc_messages row) = Some k →
  let aid := ulid (cw_ulids w) in
  ∃ final, lk_turn_id final = turn ∧
    run chat_world (drive_turn worker_id command rounds lock) w =
      (mkWorld (<[key := final]> (cw_locks w))
         (publish_list [TurnStarted turn; UserMessage (lk_user_message_id lock) (Some turn) (lk_text lock);
                        Interrupted aid "" UserInterrupted] (cw_events w))
         (<[conversation := committed row k (commit_of lock aid "") true now]> (cw_repo w))
         (cw_acked w) (S (cw_ulids w)) (cw_deltas w), Some (Ok tt)).
Proof.
  intros Hheld Hholds Hstop Hrow Hk aid.
  set (w1 := with_events (publish_list [TurnStarted turn] (cw_events w)) w).
  set (w2 := with_events (publish_list [UserMessage (lk_user_message_id lock) (Some turn) (lk_text lock)]
                            (cw_events w1)) w1).
  destruct (run_commit_interrupted lock lock "" row k w2) as (final & Hfinal & Hrun); [done.. |].
  exists final. split; [done |]. unfold drive_turn.
  cbn [prog_bind call run chat_world]. unfold repo_get_conversation. rewrite Hrow. cbn [result_bind].
  rewrite run_bind. destruct (run_publish (TurnStarted turn) w) as [id ->]. fold w1.
  rewrite run_bind.
  destruct (run_publish (UserMessage (lk_user_message_id lock) (Some turn) (lk_text lock)) w1) as [id' ->].
  fold w2. rewrite Hstop, run_bind. cbn [run]. by rewrite run_bind, Hrun.
Qed.

(** Claiming the turn before, acknowledging and releasing it after. *)
Lemma run_requested_turn rounds lock w w' final :
  cw_locks w !! key = Some lock → lk_turn_id lock = turn →
  lk_state lock = Requested → is_expired lock now = false →
  let held := claimed env lock worker_id now in
  run chat_world (drive_turn worker_id command rounds held) (with_locks (<[key := held]> (cw_locks w)) w)
    = (w', Some (Ok tt)) →
  cw_locks w' !! key = Some final → lk_turn_id final = turn →
  run chat_world (run_turn worker_id command rounds) w =
    (mkWorld (delete key (cw_locks w')) (cw_events w') (cw_repo w') (cw_acked w' ++ [turn]) (cw_ulids w')
       (cw_deltas w'), Some (Ok tt)).
Proof.
  intros Hl Hi Hs Hx held Hrun Hl' Hfinal.
  unfold run_turn, bus. cbn [prog_bind call run chat_world]. unfold on_locks, mem_load_lock.
  rewrite Hl. cbn [result_map_err].
  rewrite bool_decide_eq_false_2 by naive_solver. unfold lock_is_terminal. rewrite Hs.
  rewrite bool_decide_eq_false_2 by done. unfold claimed_turn, bus.
  cbn [prog_bind call run chat_world]. unfold on_locks, mem_claim_lock. cbv zeta.
  cbn [cw_locks with_locks]. rewrite Hl. rewrite bool_decide_eq_true_2 by done. unfold lock_is_terminal.
  rewrite Hs, Hx. rewrite (bool_decide_eq_false_2 (Requested = Running)) by done. cbn [andb].
  fold held. cbn [result_map_err run chat_world]. rewrite run_bind. unfold with_locks in *.
  cbn [cw_locks cw_repo cw_ulids cw_events cw_acked cw_deltas] in *.
  rewrite Hrun. cbn [prog_bind call run chat_world].
  unfold ack_and_release, bus. cbn [prog_bind call run chat_world result_map_err].
  cbn [cw_locks with_locks cw_repo cw_ulids cw_events cw_acked cw_deltas].
  unfold mem_release_lock. cbv zeta. by rewrite Hl', bool_decide_eq_true_2 by done.
Qed.

(** The fields of a lock that its claim keeps. *)
Lemma claimed_holds lock :
  lk_turn_id lock = turn → lk_tenant_id lock = tenant → lk_conversation_id lock = conversation →
  let held := claimed env lock worker_id now in
  holds held ∧ lk_user_id held = lk_user_id lock ∧ lk_parent_message_id held = lk_parent_message_id lock ∧
  lk_stop_requested held = lk_stop_requested lock ∧ lk_user_message_id held = lk_user_message_id lock ∧
  lk_text held = lk_text lock.
Proof. intros Hi Ht Hc held. unfold held, holds. destruct lock; by simpl in *. Qed.

(** A requested turn, delivered to a worker while its lease lasts, against
    healthy in-memory services and a model that streams some chunks, succeeds: the
    conversation keeps its messages up to the parent and gains the user's message
    and the streamed text; the log gains the start of the turn, the user's message,
    each chunk and Finish, in this order; the lock is released and the command
    acknowledged, once. *)
Lemma healthy_turn_commits rounds lock row k w :
  cw_locks w !! key = Some lock →
  lk_turn_id lock = turn → lk_tenant_id lock = tenant → lk_conversation_id lock = conversation →
  lk_state lock = Requested → lk_stop_requested lock = false → is_expired lock now = false →
  visible_row tenant (lk_user_id lock) (cw_repo w) conversation = Ok row →
  retain_len (lk_parent_message_id lock) (sc_messages row) = Some k →
  (length (cw_deltas w) < rounds)%nat →
  let aid := ulid (cw_ulids w) in
  run chat_world (run_turn worker_id command rounds) w =
    (mkWorld (delete key (cw_locks w))
       (publish_list (turn_events lock (cw_deltas w) aid) (cw_events w))
       (<[conversation := committed row k (commit_of lock aid (text_of (cw_deltas w))) false now]> (cw_repo w))
       (cw_acked w ++ [turn]) (S (cw_ulids w)) [], Some (Ok tt)).
Proof.
  intros Hl Hi Ht Hc Hs Hstop Hx Hrow Hk Hr aid.
  destruct (claimed_holds lock Hi Ht Hc) as (Hholds & Hu & Hp & Hst & Hm & Htx).
  set (held := claimed env lock worker_id now) in *.
  destruct (run_drive rounds held row k (with_locks (<[key := held]> (cw_locks w)) w))
    as (final & Hfinal & Hrun); [apply lookup_insert_eq | done | by rewrite Hst | by rewrite Hu | by rewrite Hp | done |].
  rewrite (run_requested_turn rounds lock w _ final Hl Hi Hs Hx Hrun); [| apply lookup_insert_eq | done].
  cbn [with_locks cw_locks cw_repo cw_ulids cw_events cw_acked cw_deltas].
  rewrite insert_insert_eq, delete_insert_eq.
  unfold turn_events, commit_of, turn_commit. by rewrite Hm, Hp, Htx.
Qed.

(** A turn stopped before a worker claimed it: nothing is generated. *)
Lemma stopped_turn_commits rounds lock row k w :
  cw_locks w !! key = Some lock →
  lk_turn_id lock = turn → lk_tenant_id lock = tenant → lk_conversation_id lock = conversation →
  lk_state lock = Requested → lk_stop_requested lock = true → is_expired lock now = false →
  visible_row tenant (lk_user_id lock) (cw_repo w) conversation = Ok row →
  retain_len (lk_parent_message_id lock) (sc_messages row) = Some k →
  let aid := ulid (cw_ulids w) in
  run chat_world (run_turn worker_id command rounds) w =
    (mkWorld (delete key (cw_locks w))
       (publish_list [TurnStarted turn; UserMessage (lk_user_message_id lock) (Some turn) (lk_text lock);
                      Interrupted aid "" UserInterrupted] (cw_events w))
       (<[conversation := committed row k (commit_of lock aid "") true now]> (cw_repo w))
       (cw_acked w ++ [turn]) (S (cw_ulids w)) (cw_deltas w), Some (Ok tt)).
Proof.
  intros Hl Hi Ht Hc Hs Hstop Hx Hrow Hk aid.
  destruct (claimed_holds lock Hi Ht Hc) as (Hholds & Hu & Hp & Hst & Hm & Htx).
  set (held := claimed env lock worker_id now) in *.
  destruct (run_drive_stopped rounds held row k (with_locks (<[key := held]> (cw_locks w)) w))
    as (final & Hfinal & Hrun); [apply lookup_insert_eq | done | by rewrite Hst | by rewrite Hu | by rewrite Hp |].
  rewrite (run_requested_turn rounds lock w _ final Hl Hi Hs Hx Hrun); [| apply lookup_insert_eq | done].
  cbn [with_locks cw_locks cw_repo cw_ulids cw_events cw_acked cw_deltas].
  rewrite insert_insert_eq, delete_insert_eq.
  unfold commit_of, turn_commit. by rewrite Hm, Hp, Htx.
Qed.
End turn.
End world.

(** ** The prompt *)

Section prompt.
Context {Message : Type} (message_user message_system message_assistant : string → Message).

Definition provider_message (m : LlmMessage) : Message :=
  match lm_role m with
  | LlmSystem => message_system (lm_content m)
  | LlmUser => message_user (lm_content m)
  | LlmAssistant => message_assistant (lm_content m)
  end.

(** A deferred user message is flushed where it stood. *)
Lemma split_loop_order messages history last_user :
  let '(history', last') := split_loop message_user message_system message_assistant
                              messages history last_user in
  flush_user message_user last' history' =
    flush_user message_user last_user history ++ (provider_message <$> messages).
Proof.
  revert history last_user. induction messages as [|m messages IH]; intros history last_user; simpl.
  - by rewrite app_nil_r.
  - unfold provider_message at 1. destruct (lm_role m);
      match goal with |- context [split_loop _ _ _ messages ?h ?l] => specialize (IH h l) end;
      destruct (split_loop _ _ _ messages _ _) as [h' l']; rewrite IH; simpl;
      by rewrite <- (assoc_L (++)).
Qed.

Lemma split_loop_app l l' history last_user :
  split_loop message_user message_system message_assistant (l ++ l') history last_user =
    let '(h, u) := split_loop message_user message_system message_assistant l history last_user in
    split_loop message_user message_system message_assistant l' h u.
Proof.
  revert history last_user. induction l as [|m l IH]; intros history last_user; simpl; [done |].
  by destruct (lm_role m).
Qed.

(** The messages before the prompt: the history, and a note after an interrupted
    last answer. *)
Definition context_messages (history : list MessageDto) : list LlmMessage :=
  flat_map (λ m, [mkLlm (llm_role (md_role m)) (md_content m)]) history ++
  match last history with
  | Some m => if md_interrupted m then [mkLlm LlmSystem INTERRUPTED_NOTE] else []
  | None => []
  end.

Lemma llm_messages_context history text :
  NoDup (md_id <$> history) → llm_messages history text = context_messages history ++ [mkLlm LlmUser text].
Proof.
  intros Hnd. unfold llm_messages. f_equal. unfold context_messages.
  destruct history as [|m history _] using rev_ind; [done |].
  rewrite last_snoc. cbn [fmap option_fmap option_map].
  rewrite fmap_app in Hnd. apply NoDup_app in Hnd as (_ & Hnd & _).
  rewrite !flat_map_app, <- (assoc_L (++)). f_equal.
  - assert (∀ x, x ∈ history → md_id x ≠ md_id m) as Hne.
    { intros x Hx Heq. apply (Hnd (md_id x)); [by apply list_elem_of_fmap_2 |].
      rewrite Heq. by apply list_elem_of_singleton. }
    clear Hnd. induction history as [|x history IH]; [done |]. cbn [flat_map].
    rewrite bool_decide_eq_false_2; [| intros [= H]; by apply (Hne x); [left |]].
    cbn [andb app]. f_equal. apply IH. intros y Hy. apply Hne. by right.
  - cbn [flat_map]. rewrite bool_decide_eq_true_2 by done. cbn [andb]. rewrite app_nil_r. by case_match.
Qed.

(** Fact: What the provider is asked: the prompt is the user's text, and before it
    come all the messages of the conversation in their order, each in its role,
    followed by a note when the last answer was interrupted.  The request is never
    refused for want of a prompt. *)
Theorem prompt_is_the_conversation history text :
  NoDup (md_id <$> history) →
  split_history message_user message_system message_assistant (llm_messages history text) =
    Ok (text, provider_message <$> context_messages history).
Proof.
  intros Hnd. rewrite (llm_messages_context _ _ Hnd). unfold split_history. rewrite split_loop_app.
  pose proof (split_loop_order (context_messages history) [] None) as H.
  destruct (split_loop _ _ _ (context_messages history) [] None) as [h u]. simpl in *. by rewrite H.
Qed.
End prompt.

(** ** A concrete turn *)

Module TurnDemo.
Definition env (_ : string) : option string := None.
Definition ulid (n : nat) : string := "a" +:+ show_uint (Z.of_nat n).

Definition message (id : string) (role : MessageRole) (content : string) (interrupted : bool) : MessageDto :=
  mkMessageDto id role content None [] None interrupted None 0.

(** A conversation whose last answer was interrupted. *)
Definition history : list MessageDto :=
  [message "m1" RoleUser "summarize this" false; message "a0" RoleAssistant "The summary" true].

Definition row : StoredConversation := mkStored "c1" "acme" "ann" "Chat" 0 None 3 history.

Definition command : TurnRequested := mkTurnRequested 1 "cmd" "acme" "ann" "c1" "t1" 0.
Definition lock : ChatLock :=
  requested env 0 "acme" "ann" "c1" "t1" "m2" "continue" (Some "a0") "Bearer x".

Definition world : ChatWorld :=
  mkWorld {[lock_key "acme" "c1" := lock]} mem_events_default {["c1" := row]} [] 1 ["Hel"; "lo"].

Definition final : ChatWorld := (run (chat_world env 1 ulid) (run_turn "w1" command 5) world).1.
End TurnDemo.

Example turn_demo_final :
  cw_locks TurnDemo.final = ∅ ∧ cw_acked TurnDemo.final = ["t1"] ∧
  (md_content <$> default [] (sc_messages <$> cw_repo TurnDemo.final !! "c1")) =
    ["summarize this"; "The summary"; "continue"; "Hello"].
Proof. vm_compute. done. Qed.

Lemma healthy_turn_commits_witness :
  cw_events TurnDemo.final =
    publish_list 1 TurnDemo.command
      [TurnStarted "t1"; UserMessage "m2" (Some "t1") "continue"; TextDelta "Hel"; TextDelta "lo";
       Finish "a1" FinishStop] mem_events_default.
Proof.
  unfold TurnDemo.final.
  rewrite (healthy_turn_commits TurnDemo.env 1 TurnDemo.ulid "w1" TurnDemo.command 5 TurnDemo.lock
    TurnDemo.row 2 TurnDemo.world); first [reflexivity | vm_compute; lia].
Defined.

Lemma prompt_is_the_conversation_witness :
  split_history (pair "user") (pair "system") (pair "assistant") (llm_messages TurnDemo.history "continue") =
    Ok ("continue", [("user", "summarize this"); ("assistant", "The summary"); ("system", INTERRUPTED_NOTE)]).
Proof.
  rewrite (prompt_is_the_conversation (pair "user") (pair "system") (pair "assistant")).
  - vm_compute. reflexivity.
  - apply (bool_decide_unpack _). vm_compute. exact I.
Defined.
