(* ===== verification/ChatApi.v ===== *)
(** * The chat endpoints (services/api-service/src/main.rs)

    From the authenticated caller to the status and body of the answer: the
    conversations, the submission of a turn and the request to stop one, over the
    repository and the bus.  A ULID is checked by the crate ulid, a parameter. *)

From S2P Require Import Prelude Text Events Contracts Auth ChatBus ChatStore.

Local Open Scope Z_scope.

Inductive ServiceError : Type :=
| SeAuth
| SeNotFound
| SeForbidden
| SeStaleParent
| SeInFlight
| SeInvalidRequest (message : string)
| SeInternal (message : string).

(** [impl From<StorageError> for ServiceError] *)
Definition from_storage_error (error : StorageError) : ServiceError :=
  match error with
  | StNotFound => SeNotFound
  | StForbidden => SeForbidden
  | StStaleParent => SeStaleParent
  | StInternal message => SeInternal message
  end.

(** [impl From<ChatBusError> for ServiceError] *)
Definition from_chat_bus_error (error : ChatBusError) : ServiceError :=
  match error with
  | InFlight => SeInFlight
  | Unavailable => SeInternal "chat bus unavailable"
  | Payload message => SeInternal message
  end.

(** [ServiceError::into_response]: the status and the body. *)
Definition service_response (error : ServiceError) : Z * ApiErrorBody :=
  match error with
  | SeAuth => (401, mkErrorBody CodeUnauthorized "unauthorized")
  | SeNotFound => (404, mkErrorBody CodeNotFound "not found")
  | SeForbidden => (403, mkErrorBody CodeForbidden "forbidden")
  | SeStaleParent => (409, mkErrorBody CodeStaleParent "conversation changed; refresh before sending")
  | SeInFlight => (409, mkErrorBody CodeInFlight "conversation already has a running turn")
  | SeInvalidRequest message => (400, mkErrorBody CodeInvalidRequest message)
  | SeInternal _ => (500, mkErrorBody CodeInternal "internal error")
  end.

(** ** The calls *)

Inductive ApiE : Type → Type :=
| ApiNow : ApiE DateTime
| ApiUlid : ApiE string
(** ChatRepository *)
| ApiList (t u : string) : ApiE (result (list ConversationSummary) StorageError)
| ApiCreate (t u : string) (title : option string) : ApiE (result ConversationDetail StorageError)
| ApiGet (t u c : string) : ApiE (result ConversationDetail StorageError)
| ApiRename (t u c title : string) : ApiE (result ConversationDetail StorageError)
| ApiDelete (t u c : string) : ApiE (result unit StorageError)
| ApiParentTail (t u c : string) (parent : option string) : ApiE (result unit StorageError)
| ApiTurnFailed (t u c turn error : string) : ApiE (result unit StorageError)
(** ChatBus *)
| ApiAcquire (lock : ChatLock) : ApiE (result unit ChatBusError)
| ApiRelease (t c turn : string) : ApiE unit
| ApiRequestStop (t c user : string) : ApiE (result (option ChatLock) ChatBusError)
| ApiPublishTurn (command : TurnRequested) : ApiE (result unit ChatBusError)
| ApiPublishStop (worker t c turn : string) : ApiE (result unit ChatBusError).

(** [?] on a call of the repository, and on one of the bus. *)
Definition api_repo {A} (e : ApiE (result A StorageError)) : prog ApiE (result A ServiceError) :=
  let* r := call e in Ret (result_map_err from_storage_error r).
Definition api_bus {A} (e : ApiE (result A ChatBusError)) : prog ApiE (result A ServiceError) :=
  let* r := call e in Ret (result_map_err from_chat_bus_error r).

Section api.
(** [str::parse::<Ulid>().is_ok()], and the environment of the process. *)
Context (is_ulid : string → bool) (env : string → option string).

Definition validate_ulid (value field : string) : result unit ServiceError :=
  if is_ulid value then Ok tt else Err (SeInvalidRequest (field +:+ " must be a ULID")).

Section handlers.
Context (auth : AuthContext).

Abbreviation tenant := (ax_tenant_id auth).
Abbreviation user := (ax_user_id auth).

Definition me : prog ApiE (result AuthUser ServiceError) := Ret (Ok (public_user auth)).

Definition list_conversations : prog ApiE (result (list ConversationSummary) ServiceError) :=
  api_repo (ApiList tenant user).

Definition create_conversation (body : CreateConversationRequest)
  : prog ApiE (result ConversationDetail ServiceError) :=
  api_repo (ApiCreate tenant user (cc_title body)).

Definition get_conversation (conversation_id : string)
  : prog ApiE (result ConversationDetail ServiceError) :=
  api_repo (ApiGet tenant user conversation_id).

Definition rename_conversation (conversation_id : string) (body : UpdateConversationRequest)
  : prog ApiE (result ConversationDetail ServiceError) :=
  if is_empty (trim (uc_title body)) then Ret (Err (SeInvalidRequest "title cannot be empty"))
  else api_repo (ApiRename tenant user conversation_id (trim (uc_title body))).

Definition delete_conversation (conversation_id : string) : prog ApiE (result unit ServiceError) :=
  api_repo (ApiDelete tenant user conversation_id).

(** What [enqueue_turn] checks before any call. *)
Definition enqueue_checks (user_message_id turn_id text : string) : result unit ServiceError :=
  let? _ := validate_ulid user_message_id "user_message_id" in
  let? _ := validate_ulid turn_id "turn_id" in
  if is_empty (trim text) then Err (SeInvalidRequest "message text cannot be empty") else Ok tt.

(** The cleanup of a turn whose command could not be published. *)
Definition withdraw_turn (conversation_id turn_id : string) (error : ChatBusError)
  : prog ApiE (result TurnAccepted ServiceError) :=
  let* _ := call (ApiTurnFailed tenant user conversation_id turn_id
                    ("failed to publish turn request: " +:+ chat_bus_error_to_string error)) in
  let* _ := call (ApiRelease tenant conversation_id turn_id) in
  Ret (Err (from_chat_bus_error error)).

(** [enqueue_turn]; [ChatLock::requested] reads the clock first. *)
Definition enqueue_turn (conversation_id user_message_id turn_id text : string)
    (parent_message_id : option string) : prog ApiE (result TurnAccepted ServiceError) :=
  match enqueue_checks user_message_id turn_id text with
  | Err e => Ret (Err e)
  | Ok _ =>
      let*? _ := api_repo (ApiParentTail tenant user conversation_id parent_message_id) in
      let* now := call ApiNow in
      let*? _ := api_bus (ApiAcquire
        (requested env now tenant user conversation_id turn_id user_message_id text parent_message_id
           (ax_bearer_subject auth))) in
      let* ts := call ApiNow in
      let command := mkTurnRequested CONTRACT_VERSION turn_id tenant user conversation_id turn_id ts in
      let* r := call (ApiPublishTurn command) in
      match r with
      | Err error => withdraw_turn conversation_id turn_id error
      | Ok _ => Ret (Ok (mkAccepted turn_id))
      end
  end.

Definition submit_turn (conversation_id : string) (body : SubmitTurnRequest)
  : prog ApiE (result TurnAccepted ServiceError) :=
  enqueue_turn conversation_id (sr_user_message_id body) (sr_turn_id body) (sr_text body)
    (sr_parent_message_id body).

(** [unwrap_or_else(|| Ulid::new().to_string())] *)
Definition or_new_ulid (id : option string) : prog ApiE string :=
  match id with Some id => Ret id | None => call ApiUlid end.

Definition submit_chat_message (conversation_id : string) (body : SubmitChatMessageRequest)
  : prog ApiE (result TurnAccepted ServiceError) :=
  let* user_message_id := or_new_ulid (sm_user_message_id body) in
  let* turn_id := or_new_ulid (sm_turn_id body) in
  enqueue_turn conversation_id user_message_id turn_id (sm_text body) (sm_parent_message_id body).

Definition stop_turn (conversation_id : string) : prog ApiE (result unit ServiceError) :=
  let*? _ := api_repo (ApiGet tenant user conversation_id) in
  let*? lock := api_bus (ApiRequestStop tenant conversation_id user) in
  match lock with
  | None => Ret (Ok tt)
  | Some lock =>
      match lk_worker_id lock with
      | None => Ret (Ok tt)
      | Some worker_id => api_bus (ApiPublishStop worker_id tenant conversation_id (lk_turn_id lock))
      end
  end.
End handlers.

(** ** The routes *)

Inductive ChatRequest : Type :=
| GetMe
| GetConversations
| PostConversation (body : CreateConversationRequest)
| GetOne (conversation_id : string)
| PatchOne (conversation_id : string) (body : UpdateConversationRequest)
| DeleteOne (conversation_id : string)
| PostTurn (conversation_id : string) (body : SubmitTurnRequest)
| PostMessage (conversation_id : string) (body : SubmitChatMessageRequest)
| PostStop (conversation_id : string).

Inductive ChatReply : Type :=
| AnsweredMe (user : AuthUser)
| AnsweredList (summaries : list ConversationSummary)
| AnsweredOne (detail : ConversationDetail)
| AnsweredAccepted (accepted : TurnAccepted)
| AnsweredNothing
| AnsweredError (body : ApiErrorBody).

Definition answer {A} (status : Z) (f : A → ChatReply) (p : prog ApiE (result A ServiceError))
  : prog ApiE (Z * ChatReply) :=
  let* r := p in
  Ret (match r with
       | Ok a => (status, f a)
       | Err e => let '(status, body) := service_response e in (status, AnsweredError body)
       end).

(** The router of [main]. *)
Definition serve_chat (auth : AuthContext) (request : ChatRequest) : prog ApiE (Z * ChatReply) :=
  match request with
  | GetMe => answer 200 AnsweredMe (me auth)
  | GetConversations => answer 200 AnsweredList (list_conversations auth)
  | PostConversation body => answer 201 AnsweredOne (create_conversation auth body)
  | GetOne c => answer 200 AnsweredOne (get_conversation auth c)
  | PatchOne c body => answer 200 AnsweredOne (rename_conversation auth c body)
  | DeleteOne c => answer 204 (λ _, AnsweredNothing) (delete_conversation auth c)
  | PostTurn c body => answer 202 AnsweredAccepted (submit_turn auth c body)
  | PostMessage c body => answer 202 AnsweredAccepted (submit_chat_message auth c body)
  | PostStop c => answer 204 (λ _, AnsweredNothing) (stop_turn auth c)
  end.
End api.
