(* ===== verification/ChatApiRun.v ===== *)
(** * Requests of the chat endpoints

    What a request may do, whatever the repository and the bus answer; and what
    becomes of a submitted turn, of one that is stopped before a worker takes it,
    and of one whose id was used before, against the in-memory services, the
    commands going through a JetStream stream with its window of duplicates. *)

From S2P Require Import Prelude Text Events Contracts Auth ChatBus ChatReplay ChatStore ChatStoreRun ChatWorker.
From S2P Require Import ChatTurnRun ChatApi.

Local Open Scope Z_scope.

(** A call and its answer *)
Inductive ApiObs : Type := mkApiObs (X : Type) (e : ApiE X) (x : X).

Section discipline.
Context (is_ulid : string → bool) (env : string → option string) (auth : AuthContext)
  (request : ChatRequest).

Abbreviation t := (ax_tenant_id auth).
Abbreviation u := (ax_user_id auth).

Definition request_conversation : option string :=
  match request with
  | GetMe | GetConversations | PostConversation _ => None
  | GetOne c | PatchOne c _ | DeleteOne c | PostTurn c _ | PostMessage c _ | PostStop c => Some c
  end.

(** What the request asks to be answered. *)
Definition asked (lock : ChatLock) : Prop :=
  request_conversation = Some (lk_conversation_id lock) ∧
  match request with
  | PostTurn _ body =>
      lk_turn_id lock = sr_turn_id body ∧ lk_user_message_id lock = sr_user_message_id body ∧
      lk_text lock = sr_text body ∧ lk_parent_message_id lock = sr_parent_message_id body
  | PostMessage _ body =>
      (∀ id, sm_turn_id body = Some id → lk_turn_id lock = id) ∧
      (∀ id, sm_user_message_id body = Some id → lk_user_message_id lock = id) ∧
      lk_text lock = sm_text body ∧ lk_parent_message_id lock = sm_parent_message_id body
  | _ => False
  end.

(** A fresh lock of the caller for it. *)
Definition own_lock (lock : ChatLock) : Prop :=
  lk_tenant_id lock = t ∧ lk_user_id lock = u ∧ lk_state lock = Requested ∧ lk_worker_id lock = None ∧
  is_ulid (lk_turn_id lock) = true ∧ is_ulid (lk_user_message_id lock) = true ∧
  trim (lk_text lock) ≠ "" ∧ asked lock.

Definition acquired (past : list ApiObs) (lock : ChatLock) : Prop :=
  own_lock lock ∧ mkApiObs _ (ApiAcquire lock) (Ok tt) ∈ past.

(** The command for a lock. *)
Definition commands (lock : ChatLock) (command : TurnRequested) : Prop :=
  command = mkTurnRequested CONTRACT_VERSION (lk_turn_id lock) t u (lk_conversation_id lock) (lk_turn_id lock)
              (tr_ts command).

(** A turn that was taken but could not be handed over. *)
Definition unpublished (past : list ApiObs) (c i : string) : Prop :=
  ∃ lock command e, acquired past lock ∧ lk_conversation_id lock = c ∧ lk_turn_id lock = i ∧
    commands lock command ∧ mkApiObs _ (ApiPublishTurn command) (Err e) ∈ past.

(** When a request may make a call. *)
Definition api_ok (past : list ApiObs) (o : ApiObs) : Prop :=
  match o with
  | mkApiObs _ e _ =>
      match e with
      | ApiNow | ApiUlid => True
      | ApiList t' u' | ApiCreate t' u' _ => t' = t ∧ u' = u
      | ApiGet t' u' c | ApiRename t' u' c _ | ApiDelete t' u' c | ApiParentTail t' u' c _ =>
          t' = t ∧ u' = u ∧ request_conversation = Some c
      | ApiAcquire lock =>
          own_lock lock ∧
          mkApiObs _ (ApiParentTail t u (lk_conversation_id lock) (lk_parent_message_id lock)) (Ok tt) ∈ past
      | ApiPublishTurn command => ∃ lock, acquired past lock ∧ commands lock command
      | ApiTurnFailed t' u' c i _ => t' = t ∧ u' = u ∧ unpublished past c i
      | ApiRelease t' c i => t' = t ∧ unpublished past c i
      | ApiRequestStop t' c u' =>
          t' = t ∧ u' = u ∧ request_conversation = Some c ∧ ∃ d, mkApiObs _ (ApiGet t u c) (Ok d) ∈ past
      | ApiPublishStop w t' c i =>
          t' = t ∧ ∃ lock, mkApiObs _ (ApiRequestStop t c u) (Ok (Some lock)) ∈ past ∧
            lk_worker_id lock = Some w ∧ lk_turn_id lock = i
      end
  end.

(** The lock a call took. *)
Definition granted (o : ApiObs) : option ChatLock :=
  match o with
  | mkApiObs _ e x =>
      match e in ApiE X return X → option ChatLock with
      | ApiAcquire lock => λ r, if is_ok r then Some lock else None
      | _ => λ _, None
      end x
  end.

Definition is_release (o : ApiObs) : bool := match o with mkApiObs _ (ApiRelease _ _ _) _ => true | _ => false end.

(** A trace before any lock. *)
Definition unlocked (past : list ApiObs) : Prop :=
  Forall (λ o, granted o = None ∧ is_release o = false) past.

(** A submission is accepted only with its lock taken and its command published,
    and keeps the lock; any other answer leaves no lock behind. *)
Definition accepted (past : list ApiObs) (turn : string) : Prop :=
  ∃ lock command, acquired past lock ∧ commands lock command ∧ lk_turn_id lock = turn ∧
    mkApiObs _ (ApiPublishTurn command) (Ok tt) ∈ past ∧ Forall (λ o, is_release o = false) past.

Definition cleared (past : list ApiObs) : Prop :=
  ∀ o lock, o ∈ past → granted o = Some lock →
    mkApiObs _ (ApiRelease t (lk_conversation_id lock) (lk_turn_id lock)) tt ∈ past.

Definition submitted (past : list ApiObs) (r : result TurnAccepted ServiceError) : Prop :=
  match r with Ok a => accepted past (ta_turn_id a) | Err _ => cleared past end.

Definition outcome (past : list ApiObs) (r : Z * ChatReply) : Prop :=
  match r.2 with
  | AnsweredAccepted a => r.1 = 202 ∧ accepted past (ta_turn_id a)
  | AnsweredError body =>
      r.1 ∈ [400; 401; 403; 404; 409; 500] ∧ cleared past ∧
      (r.1 = 500 → body = mkErrorBody CodeInternal "internal error")
  | _ => r.1 ∈ [200; 201; 204] ∧ cleared past
  end.

Abbreviation asafe := (safe mkApiObs api_ok).

Lemma unlocked_cleared past : unlocked past → cleared past.
Proof.
  intros Hu o lock Hin Hg. unfold unlocked in Hu. rewrite Forall_forall in Hu. apply Hu in Hin as [Hn _].
  by rewrite Hg in Hn.
Qed.

Lemma unlocked_snoc past o : unlocked past → granted o = None → is_release o = false → unlocked (past ++ [o]).
Proof. intros Hu H1 H2. apply Forall_app. split; [done | by repeat constructor]. Qed.

Lemma in_snoc (past : list ApiObs) o : o ∈ past ++ [o].
Proof. apply elem_of_app. right. by apply list_elem_of_singleton. Qed.

Lemma in_snoc_l (past : list ApiObs) o o' : o ∈ past → o ∈ past ++ [o'].
Proof. intros H. apply elem_of_app. by left. Qed.

Lemma acquired_snoc past o lock : acquired past lock → acquired (past ++ [o]) lock.
Proof. intros [H1 H2]. split; [done | by apply in_snoc_l]. Qed.

(** The submission of a turn, on every branch. *)
Lemma enqueue_safe c user_message_id turn_id text parent past :
  unlocked past → request_conversation = Some c →
  (∀ now, is_ulid turn_id = true → is_ulid user_message_id = true → trim text ≠ "" →
     asked (requested env now t u c turn_id user_message_id text parent (ax_bearer_subject auth))) →
  asafe (enqueue_turn is_ulid env auth c user_message_id turn_id text parent) submitted past.
Proof.
  intros Hu Hc Hasked. unfold enqueue_turn.
  assert (enqueue_checks is_ulid user_message_id turn_id text = Ok tt →
    is_ulid turn_id = true ∧ is_ulid user_message_id = true ∧ trim text ≠ "") as Hchecks.
  { unfold enqueue_checks, validate_ulid. destruct (is_ulid user_message_id), (is_ulid turn_id); simpl; try done.
    by destruct (trim text). }
  destruct (enqueue_checks _ _ _ _) as [[]|e]; [| by apply safe_ret, unlocked_cleared].
  destruct (Hchecks eq_refl) as (Hturn & Hmsg & Htext). unfold api_repo.
  apply safe_bind, safe_call. intros tail. split; [done |]. apply safe_ret.
  assert (∀ x, unlocked (past ++ [mkApiObs _ (ApiParentTail t u c parent) x])) as Hu1
    by (intros; by apply unlocked_snoc).
  destruct tail as [[]|e]; [| by apply safe_ret, unlocked_cleared]. cbn [result_map_err].
  specialize (Hu1 (Ok tt)).
  set (past1 := past ++ [mkApiObs _ (ApiParentTail t u c parent) (Ok tt)]) in *.
  assert (mkApiObs _ (ApiParentTail t u c parent) (Ok tt) ∈ past1) as Hin by apply in_snoc.
  apply safe_call. intros now. split; [done |].
  apply (unlocked_snoc _ (mkApiObs _ ApiNow now)) in Hu1; [| done..].
  apply (in_snoc_l _ _ (mkApiObs _ ApiNow now)) in Hin.
  set (past2 := past1 ++ [mkApiObs _ ApiNow now]) in *. clearbody past2. clear past1.
  set (lock := requested env now t u c turn_id user_message_id text parent (ax_bearer_subject auth)).
  assert (own_lock lock) as Hown by (split_and!; try done; by apply Hasked).
  unfold api_bus. apply safe_bind, safe_call. intros r. split; [split; [done | exact Hin] |]. apply safe_ret.
  destruct r as [[]|e].
  2: { by apply safe_ret, unlocked_cleared, unlocked_snoc. }
  set (past3 := past2 ++ [mkApiObs _ (ApiAcquire lock) (Ok tt)]).
  assert (acquired past3 lock) as Hacq by (split; [done | apply in_snoc]).
  assert (Forall (λ o, is_release o = false) past3) as Hnorel.
  { apply Forall_app. split; [| by repeat constructor]. eapply Forall_impl; [apply Hu1 | by intros o []]. }
  assert (∀ o l, o ∈ past3 → granted o = Some l → l = lock) as Honly.
  { intros o l [Ho | ->%list_elem_of_singleton]%elem_of_app Hg; [| by simplify_eq/=].
    unfold unlocked in Hu1. rewrite Forall_forall in Hu1. apply Hu1 in Ho as [Hn _]. by rewrite Hg in Hn. }
  clearbody past3. clear dependent past2. cbn [result_map_err].
  apply safe_call. intros ts. split; [done |]. apply safe_call. intros r.
  set (command := mkTurnRequested _ _ _ _ _ _ ts).
  assert (commands lock command) as Hcmd by done.
  split; [exists lock; split; [by apply acquired_snoc | done] |].
  set (past4 := (past3 ++ [mkApiObs _ ApiNow ts]) ++ [mkApiObs _ (ApiPublishTurn command) r]).
  assert (acquired past4 lock) as Hacq4 by by apply acquired_snoc, acquired_snoc.
  destruct r as [[]|e].
  { apply safe_ret. exists lock, command. split_and!; [done.. | apply in_snoc |].
    repeat (apply Forall_app; split); by repeat constructor. }
  assert (∀ o l, o ∈ past4 → granted o = Some l → l = lock) as Honly4.
  { intros o l [[Ho | ->%list_elem_of_singleton]%elem_of_app | ->%list_elem_of_singleton]%elem_of_app Hg; [| done..].
    by eapply Honly. }
  assert (unpublished past4 c turn_id) as Hun.
  { exists lock, command, e. split_and!; [done.. | apply in_snoc]. }
  clearbody past4. clear dependent past3. unfold withdraw_turn.
  apply safe_call. intros x. split; [done |]. apply safe_call. intros []. split.
  { split; [done |]. destruct Hun as (l & cmd & e' & Ha & H1 & H2 & H3 & Hin').
    exists l, cmd, e'. split_and!; [by apply acquired_snoc | done.. | by apply in_snoc_l]. }
  apply safe_ret. intros o l [[Ho | ->%list_elem_of_singleton]%elem_of_app | ->%list_elem_of_singleton]%elem_of_app Hg;
    [| done..]. apply (Honly4 o l Ho) in Hg as ->. apply in_snoc.
Qed.

(** A handler's answer, from what its program leaves. *)
Lemma answer_error past e :
  cleared past →
  outcome past (let '(status, body) := service_response e in (status, AnsweredError body)).
Proof. intros Hc. destruct e; (split; [set_solver | by split]). Qed.

Lemma answer_accepted p past :
  asafe p submitted past → asafe (answer 202 AnsweredAccepted p) outcome past.
Proof.
  intros Hp. unfold answer. eapply safe_bind_spec; [exact Hp |]. intros past' [a | e] _ Hs; apply safe_ret.
  - by split.
  - by apply answer_error.
Qed.

(** A request that takes no lock. *)
Definition quiet {A} (past : list ApiObs) (r : result A ServiceError) : Prop := unlocked past.

Lemma answer_quiet {A} status f (p : prog ApiE (result A ServiceError)) past :
  status ∈ [200; 201; 204] → (∀ a, match f a with AnsweredAccepted _ | AnsweredError _ => False | _ => True end) →
  asafe p quiet past → asafe (answer status f p) outcome past.
Proof.
  intros Hs Hf Hp. unfold answer. eapply safe_bind_spec; [exact Hp |].
  intros past' [a | e] _ Hu%unlocked_cleared; apply safe_ret; [| by apply answer_error].
  unfold outcome. simpl. specialize (Hf a). by destruct (f a).
Qed.

Lemma api_repo_quiet {A} (e : ApiE (result A StorageError)) past :
  unlocked past → (∀ x, api_ok past (mkApiObs _ e x)) →
  (∀ x, granted (mkApiObs _ e x) = None ∧ is_release (mkApiObs _ e x) = false) →
  asafe (api_repo e) quiet past.
Proof.
  intros Hu Hok Hn. unfold api_repo. apply safe_call. intros x. split; [apply Hok |].
  apply safe_ret. destruct (Hn x). by apply unlocked_snoc.
Qed.

Lemma stop_safe c past :
  unlocked past → request_conversation = Some c → asafe (stop_turn auth c) quiet past.
Proof.
  intros Hu Hc. unfold stop_turn, api_repo, api_bus.
  apply safe_bind, safe_call. intros x. split; [done |]. apply safe_ret.
  apply (unlocked_snoc _ (mkApiObs _ (ApiGet t u c) x)) in Hu; [| done..].
  destruct x as [d|e]; [| by apply safe_ret]. cbn [result_map_err].
  apply safe_bind, safe_call. intros x. split.
  { split_and!; [done.. |]. exists d. apply in_snoc. }
  apply safe_ret. apply (unlocked_snoc _ (mkApiObs _ (ApiRequestStop t c u) x)) in Hu; [| done..].
  destruct x as [[lock|]|e]; cbn [result_map_err]; [| by apply safe_ret..].
  destruct (lk_worker_id lock) as [w|] eqn:Hw; [| by apply safe_ret].
  apply safe_call. intros x. split.
  { split; [done |]. exists lock. split_and!; [apply in_snoc | done..]. }
  apply safe_ret. by apply unlocked_snoc.
Qed.

Lemma serve_chat_safe : asafe (serve_chat is_ulid env auth request) outcome [].
Proof.
  assert (unlocked []) as Hu by constructor.
  destruct request as [| | body | c | c body | c | c body | c body | c] eqn:Hr; cbn [serve_chat].
  - apply answer_quiet; [set_solver | done | by apply safe_ret].
  - apply answer_quiet; [set_solver | done | by apply api_repo_quiet].
  - apply answer_quiet; [set_solver | done | by apply api_repo_quiet].
  - apply answer_quiet; [set_solver | done | apply api_repo_quiet; [done | | done]]. intros x. split_and!; [done.. |]. by unfold request_conversation; rewrite Hr.
  - apply answer_quiet; [set_solver | done |]. unfold rename_conversation.
    destruct (is_empty _); [by apply safe_ret |]. apply api_repo_quiet; [done | | done]. intros x. split_and!; [done.. |]. by unfold request_conversation; rewrite Hr.
  - apply answer_quiet; [set_solver | done | apply api_repo_quiet; [done | | done]]. intros x. split_and!; [done.. |]. by unfold request_conversation; rewrite Hr.
  - apply answer_accepted. apply enqueue_safe; [done | by unfold request_conversation; rewrite Hr |]. intros now _ _ _.
    unfold asked, request_conversation. by rewrite Hr.
  - apply answer_accepted. unfold submit_chat_message.
    eapply safe_bind_spec with (P := λ past id, unlocked past ∧ ∀ i, sm_user_message_id body = Some i → id = i).
    { unfold or_new_ulid. destruct (sm_user_message_id body) as [i|].
      - apply safe_ret. split; [done |]. by intros ? [= ->].
      - apply (safe_call _ _ _ Ret). intros i. split; [done |]. apply safe_ret. split; [by apply unlocked_snoc | done]. }
    intros past1 m _ [Hu1 Hm].
    eapply safe_bind_spec with (P := λ past id, unlocked past ∧ ∀ i, sm_turn_id body = Some i → id = i).
    { unfold or_new_ulid. destruct (sm_turn_id body) as [i|].
      - apply safe_ret. split; [done |]. by intros ? [= ->].
      - apply (safe_call _ _ _ Ret). intros i. split; [done |]. apply safe_ret. split; [by apply unlocked_snoc | done]. }
    intros past2 i _ [Hu2 Hi]. apply enqueue_safe; [done | by unfold request_conversation; rewrite Hr |]. intros now _ _ _.
    unfold asked, request_conversation. rewrite Hr. by split_and!.
  - apply answer_quiet; [set_solver | done |]. apply stop_safe; [done | by unfold request_conversation; rewrite Hr].
Qed.

End discipline.

(** ** Against the in-memory services *)

(** The services of a turn, the commands waiting in the stream, the message ids it
    has seen within its window, and the stop signals sent. *)
Record ApiWorld : Type := mkApiWorld {
  aw_chat : ChatWorld;
  aw_queue : list TurnRequested;
  aw_seen : gset string;
  aw_stops : list StopSignal;
}.

Definition with_chat (chat : ChatWorld) (w : ApiWorld) : ApiWorld :=
  mkApiWorld chat (aw_queue w) (aw_seen w) (aw_stops w).

(** A method of the repository, and one of the lock table. *)
Definition in_repo {A} (m : Repo → Repo * A) (w : ApiWorld) : ApiWorld * A :=
  let '(repo, x) := m (cw_repo (aw_chat w)) in (with_chat (with_repo repo (aw_chat w)) w, x).
Definition in_locks {A} (m : Locks → Locks * A) (w : ApiWorld) : ApiWorld * A :=
  let '(chat, x) := on_locks m (aw_chat w) in (with_chat chat w, x).

(** [publish_turn_requested] names the turn as message id: within its window of
    duplicates the stream acknowledges a message it has seen and drops it. *)
Definition publish_command (command : TurnRequested) (w : ApiWorld) : ApiWorld :=
  if bool_decide (tr_turn_id command ∈ aw_seen w) then w
  else mkApiWorld (aw_chat w) (aw_queue w ++ [command]) ({[tr_turn_id command]} ∪ aw_seen w) (aw_stops w).

Definition api_world (env : string → option string) (now : DateTime) (ulid : nat → string)
  : handler ApiE ApiWorld := λ A e w,
  match e in ApiE A return ApiWorld * A with
  | ApiNow => (w, now)
  | ApiUlid =>
      let '(chat, id) := chat_world env now ulid _ NewUlid (aw_chat w) in (with_chat chat w, id)
  | ApiList t u => (w, Ok (repo_list_conversations t u (cw_repo (aw_chat w))))
  | ApiCreate t u title =>
      let '(chat, id) := chat_world env now ulid _ NewUlid (aw_chat w) in
      in_repo (repo_create_conversation t u now id title) (with_chat chat w)
  | ApiGet t u c => (w, repo_get_conversation t u c (cw_repo (aw_chat w)))
  | ApiRename t u c title => in_repo (repo_rename_conversation t u now c title) w
  | ApiDelete t u c => in_repo (repo_delete_conversation t u now c) w
  | ApiParentTail t u c parent => (w, repo_assert_parent_tail t u c parent (cw_repo (aw_chat w)))
  | ApiTurnFailed t u c _ _ => (w, repo_record_turn_failed t u c (cw_repo (aw_chat w)))
  | ApiAcquire lock => in_locks (mem_acquire_lock now lock) w
  | ApiRelease t c turn => in_locks (λ locks, (mem_release_lock t c turn locks, tt)) w
  | ApiRequestStop t c u => in_locks (mem_request_stop now now t c u) w
  | ApiPublishTurn command => (publish_command command w, Ok tt)
  | ApiPublishStop _ t c turn =>
      (mkApiWorld (aw_chat w) (aw_queue w) (aw_seen w) (aw_stops w ++ [mkStop t c turn]), Ok tt)
  end.

Section requests.
Context (is_ulid : string → bool) (env : string → option string) (ulid : nat → string) (auth : AuthContext).

Abbreviation t := (ax_tenant_id auth).
Abbreviation u := (ax_user_id auth).

(** The lock is free for the taking. *)
Definition free (now : DateTime) (c : string) (locks : Locks) : Prop :=
  match locks !! lock_key t c with Some lock => is_expired lock now = true | None => True end.

(** A submission that passes its checks takes the lock and publishes. *)
Lemma run_enqueue now c m i text parent w row :
  enqueue_checks is_ulid m i text = Ok tt →
  visible_row t u (cw_repo (aw_chat w)) c = Ok row → md_id <$> last (sc_messages row) = parent →
  free now c (cw_locks (aw_chat w)) →
  let lock := requested env now t u c i m text parent (ax_bearer_subject auth) in
  let command := mkTurnRequested CONTRACT_VERSION i t u c i now in
  run (api_world env now ulid) (enqueue_turn is_ulid env auth c m i text parent) w =
    (publish_command command
       (with_chat (with_locks (<[lock_key t c := lock]> (cw_locks (aw_chat w))) (aw_chat w)) w),
     Ok (mkAccepted i)).
Proof.
  intros Hchecks Hrow Htail Hfree lock command. unfold enqueue_turn. rewrite Hchecks.
  unfold api_repo, api_bus. cbn [prog_bind call run api_world]. unfold repo_assert_parent_tail.
  rewrite Hrow. cbn [result_bind]. rewrite bool_decide_eq_true_2 by done. cbn [result_map_err run].
  cbn [prog_bind call run api_world].
  unfold in_locks, on_locks, mem_acquire_lock. cbv zeta. cbn [lk_tenant_id lk_conversation_id requested].
  unfold free in Hfree. destruct (cw_locks (aw_chat w) !! lock_key t c) as [held|] eqn:Hl.
  - rewrite Hfree. cbn [negb result_map_err prog_bind run api_world]. done.
  - cbn [result_map_err prog_bind run api_world]. done.
Qed.

Lemma ttl_pos : 0 < chat_lock_ttl env.
Proof.
  unfold chat_lock_ttl, duration_from_env, env_u64.
  destruct (env "CHAT_LOCK_TTL_SECONDS") as [value|]; [| done]. simpl.
  destruct (parse_u64 value) as [seconds|]; [| done]. simpl. destruct (0 <? seconds) eqn:H; [| done]. simpl. lia.
Qed.

Lemma fresh_lease now c i m text parent now' :
  now' < now + chat_lock_ttl env →
  is_expired (requested env now t u c i m text parent (ax_bearer_subject auth)) now' = false.
Proof. intros H. unfold is_expired, requested, lock_expires_at. cbn. lia. Qed.

(** The tail of the conversation is where a commit after it truncates. *)
Lemma retain_tail (messages : list MessageDto) parent :
  NoDup (md_id <$> messages) → md_id <$> last messages = parent →
  retain_len parent messages = Some (length messages).
Proof.
  intros Hnd <-. destruct (last messages) as [m|] eqn:Hlast; simpl.
  - apply last_Some in Hlast as [l ->]. unfold position_of.
    assert (list_find (λ message, md_id message = md_id m) (l ++ [m]) = Some (length l, m)) as ->.
    { apply list_find_Some. split_and!; [by apply list_lookup_middle | done |].
      intros j y Hj Hlt Heq. rewrite lookup_app_l in Hj by done.
      rewrite fmap_app, NoDup_app in Hnd. destruct Hnd as (_ & Hnin & _).
      apply (Hnin (md_id y)); [| rewrite Heq; by apply list_elem_of_singleton].
      apply list_elem_of_fmap. exists y. split; [done |]. by eapply list_elem_of_lookup_2. }
    simpl. rewrite length_app. simpl. f_equal. lia.
  - by apply last_None in Hlast as ->.
Qed.


(** Fact: The id of a turn is the message id of its command.  A turn submitted under
    an id the stream has seen within its window (by a client that retries, or by
    anyone) is accepted like any other, but no command is queued for it: no worker
    takes it, and until its lease has passed every further turn of the
    conversation is refused as in flight. *)
Theorem reused_turn_id_is_lost now now' c m i text parent m' i' text' w row :
  enqueue_checks is_ulid m i text = Ok tt → enqueue_checks is_ulid m' i' text' = Ok tt →
  visible_row t u (cw_repo (aw_chat w)) c = Ok row → md_id <$> last (sc_messages row) = parent →
  free now c (cw_locks (aw_chat w)) → i ∈ aw_seen w → now' < now + chat_lock_ttl env →
  let '(w', r) := run (api_world env now ulid) (enqueue_turn is_ulid env auth c m i text parent) w in
  r = Ok (mkAccepted i) ∧ aw_queue w' = aw_queue w ∧
  run (api_world env now' ulid) (enqueue_turn is_ulid env auth c m' i' text' parent) w' = (w', Err SeInFlight).
Proof.
  intros Hchecks Hchecks' Hrow Htail Hfree Hseen Hlease.
  rewrite (run_enqueue now c m i text parent w row) by done. cbv zeta.
  unfold publish_command. rewrite bool_decide_eq_true_2 by done. split_and!; [done.. |].
  unfold enqueue_turn. rewrite Hchecks'. unfold api_repo, api_bus. cbn [prog_bind call run api_world].
  unfold repo_assert_parent_tail. cbn [aw_chat with_chat with_locks cw_repo]. rewrite Hrow. cbn [result_bind].
  rewrite bool_decide_eq_true_2 by done. cbn [result_map_err prog_bind call run api_world].
  unfold in_locks, on_locks, mem_acquire_lock. cbv zeta.
  cbn [lk_tenant_id lk_conversation_id requested aw_chat with_chat with_locks cw_locks].
  rewrite lookup_insert_eq. fold (requested env now t u c i m text parent (ax_bearer_subject auth)).
  rewrite fresh_lease by done. done.
Qed.

(** Fact: A turn that its user stops before a worker has claimed it is never
    generated: the request to stop succeeds without a signal to any worker, and the
    worker that takes the command commits the user's message with an empty,
    interrupted answer, publishes the start of the turn, the message and
    Interrupted, and releases the lock; the model is left untouched. *)
Theorem stopped_turn_is_interrupted now now' worker_id rounds lock command c row k w :
  cw_locks (aw_chat w) !! lock_key t c = Some lock →
  lk_tenant_id lock = t → lk_user_id lock = u → lk_conversation_id lock = c →
  lk_state lock = Requested → lk_worker_id lock = None →
  tr_tenant_id command = t → tr_conversation_id command = c → tr_turn_id command = lk_turn_id lock →
  visible_row t u (cw_repo (aw_chat w)) c = Ok row →
  retain_len (lk_parent_message_id lock) (sc_messages row) = Some k →
  is_expired lock now = false → is_expired lock now' = false →
  let '(w', r) := run (api_world env now ulid) (stop_turn auth c) w in
  let chat := aw_chat w in let aid := ulid (cw_ulids chat) in
  r = Ok tt ∧ aw_stops w' = aw_stops w ∧
  run (chat_world env now' ulid) (run_turn worker_id command rounds) (aw_chat w') =
    (mkWorld (delete (lock_key t c) (cw_locks chat))
       (publish_list now' command
          [TurnStarted (lk_turn_id lock);
           UserMessage (lk_user_message_id lock) (Some (lk_turn_id lock)) (lk_text lock);
           Interrupted aid "" UserInterrupted] (cw_events chat))
       (<[c := committed row k (turn_commit command lock aid "") true now']> (cw_repo chat))
       (cw_acked chat ++ [lk_turn_id lock]) (S (cw_ulids chat)) (cw_deltas chat), Some (Ok tt)).
Proof.
  intros Hl Ht Hu Hc Hs Hw Hct Hcc Hci Hrow Hk Hx Hx'.
  set (held := stopped lock u now).
  assert (run (api_world env now ulid) (stop_turn auth c) w =
    (with_chat (with_locks (<[lock_key t c := held]> (cw_locks (aw_chat w))) (aw_chat w)) w, Ok tt)) as ->.
  { unfold stop_turn, api_repo, api_bus. cbn [prog_bind call run api_world].
    unfold repo_get_conversation. rewrite Hrow. cbn [result_bind result_map_err prog_bind call run api_world].
    unfold in_locks, on_locks, mem_request_stop. cbv zeta. rewrite Hl, Hx. cbn [negb result_map_err prog_bind run].
    fold held. assert (lk_worker_id held = None) as -> by by destruct lock. done. }
  cbv zeta. split_and!; [done.. |]. cbn [aw_chat with_chat].
  rewrite (stopped_turn_commits env now' ulid worker_id command rounds held row k).
  - rewrite Hct, Hcc, Hci. unfold with_locks. cbn [cw_locks cw_events cw_repo cw_acked cw_ulids cw_deltas].
    rewrite delete_insert_eq. unfold commit_of, turn_commit. by destruct lock.
  - rewrite Hct, Hcc. apply lookup_insert_eq.
  - rewrite Hci. by destruct lock.
  - rewrite Hct. by destruct lock.
  - rewrite Hcc. by destruct lock.
  - by destruct lock.
  - by destruct lock.
  - by destruct lock.
  - rewrite Hct, Hcc. replace (lk_user_id held) with u by by destruct lock. exact Hrow.
  - replace (lk_parent_message_id held) with (lk_parent_message_id lock) by by destruct lock. exact Hk.
Qed.
End requests.

(** ** Witnesses *)

Module ApiDemo.
Definition ann : AuthContext := mkAuth "ann" "acme" None [] "Bearer x".
Definition is_ulid (s : string) : bool := bool_decide (s ∈ ["t1"; "t2"; "m2"; "m3"]).

(** The conversation of [TurnDemo], with no turn, and one whose stream has seen
    [t1] already. *)
Definition free_chat : ChatWorld := with_locks ∅ TurnDemo.world.
Definition world : ApiWorld := mkApiWorld free_chat [] ∅ [].
Definition seen : ApiWorld := mkApiWorld free_chat [] {["t1"]} [].
Definition submit (turn : string) : prog ApiE (result TurnAccepted ServiceError) :=
  enqueue_turn is_ulid TurnDemo.env ann "c1" "m2" turn "continue" (Some "a0").
Definition api : handler ApiE ApiWorld := api_world TurnDemo.env 0 TurnDemo.ulid.
Definition submitted : ApiWorld := (run api (submit "t1") world).1.

Definition request : ChatRequest := PostTurn "c1" (mkSubmitTurn "m2" "t1" "continue" (Some "a0")).
Definition serve : prog ApiE (Z * ChatReply) := serve_chat is_ulid TurnDemo.env ann request.
Definition trace : list ApiObs := run_trace mkApiObs api serve world.
Definition command : TurnRequested := mkTurnRequested 1 "t1" "acme" "ann" "c1" "t1" 0.
End ApiDemo.

Lemma api_demo_parent : md_id <$> last (sc_messages TurnDemo.row) = Some "a0".
Proof. reflexivity. Qed.

Lemma api_demo_ids : NoDup (md_id <$> sc_messages TurnDemo.row).
Proof. apply (bool_decide_unpack _). vm_compute. exact I. Qed.



Lemma reused_turn_id_is_lost_witness :
  aw_queue (run ApiDemo.api (ApiDemo.submit "t1") ApiDemo.seen).1 = [] ∧
  (run ApiDemo.api (ApiDemo.submit "t1") ApiDemo.seen).2 = Ok (mkAccepted "t1").
Proof.
  pose proof (reused_turn_id_is_lost ApiDemo.is_ulid TurnDemo.env TurnDemo.ulid ApiDemo.ann 0 1
    "c1" "m2" "t1" "continue" (Some "a0") "m3" "t2" "again" ApiDemo.seen TurnDemo.row) as H.
  change (run (api_world TurnDemo.env 0 TurnDemo.ulid) _ ApiDemo.seen)
    with (run ApiDemo.api (ApiDemo.submit "t1") ApiDemo.seen) in H.
  destruct (run ApiDemo.api _ _) as [w r].
  destruct H as (Hr & Hq & _);
    [reflexivity | reflexivity | reflexivity | exact api_demo_parent | exact I | set_solver
    | vm_compute; reflexivity |].
  split; [exact Hq | exact Hr].
Defined.

Lemma stopped_turn_is_interrupted_witness :
  let w := ApiDemo.submitted in
  (run ApiDemo.api (stop_turn ApiDemo.ann "c1") w).2 = Ok tt ∧
  (run (chat_world TurnDemo.env 1 TurnDemo.ulid) (run_turn "w1" ApiDemo.command 5)
     (aw_chat (run ApiDemo.api (stop_turn ApiDemo.ann "c1") w).1)).2 = Some (Ok tt).
Proof.
  pose proof (stopped_turn_is_interrupted TurnDemo.env TurnDemo.ulid ApiDemo.ann 0 1 "w1" 5 TurnDemo.lock
    ApiDemo.command "c1" TurnDemo.row 2 ApiDemo.submitted) as H.
  change (run (api_world TurnDemo.env 0 TurnDemo.ulid) _ ApiDemo.submitted)
    with (run ApiDemo.api (stop_turn ApiDemo.ann "c1") ApiDemo.submitted) in H.
  intros w. fold w in H. destruct (run ApiDemo.api _ w) as [w' r].
  destruct H as (Hr & _ & Hrun); [vm_compute; reflexivity.. |].
  split; [exact Hr |]. exact (f_equal snd Hrun).
Defined.
