(* ===== verification/OldBus.v ===== *)
(** * The in-process turn bus of the previous back end

    old/backend/src/chat/bus.rs and inprocess.rs: one session per live conversation
    with a log of frames that keeps two turns, the claim of a turn and the
    subscribers that follow the log from a cursor; and the bus, which indexes the
    sessions weakly, so that one lives exactly as long as somebody holds it.

    Frames are the text of a server-sent event.  Each critical section (a session's
    mutex, a shard of the map) is one action, and [act] makes one action of any
    thread; a theorem about [reached] holds for every interleaving.  The first
    sections are [Session] without its threads; the last are [InProcessBus]. *)

From S2P Require Import Prelude Text.

Local Open Scope Z_scope.

(** ** Cursors *)

Definition SEQ_BITS : Z := 32.

(** [gen << SEQ_BITS] on [u64]. *)
Definition generation (gen : Z) : Z := Z.shiftl gen SEQ_BITS mod (u64_max + 1).

Definition cursor_next (c : Z) : Z := u64_add c 1.

Definition cursor_display (c : Z) : string := show_uint c.

Definition cursor_from_str (s : string) : option Z := parse_u64 (trim s).

(** ** A session *)

Record Inner : Type := mkInner {
  in_frames : list (Z * string);
  in_turn_cursor : Z;
  in_next : Z;
  in_running : bool;
  in_cancel : option nat;
}.

#[export] Instance inner_eq_dec : EqDecision Inner.
Proof. solve_decision. Defined.

Definition session_new (gen : Z) : Inner :=
  let start := generation gen in mkInner [] start start false None.

(** [None] when a turn is running; [token] is the new cancel token. *)
Definition try_begin (user_message : string) (token : nat) (g : Inner) : option Inner :=
  if in_running g then None
  else
    let keep_from := in_turn_cursor g in
    let kept := filter (λ cf : Z * string, keep_from ≤ cf.1) (in_frames g) in
    let c := in_next g in
    Some (mkInner (kept ++ [(c, user_message)]) c (cursor_next c) true (Some token)).

Definition append (frame : string) (g : Inner) : option Inner :=
  if in_running g then
    let c := in_next g in
    Some (mkInner (in_frames g ++ [(c, frame)]) (in_turn_cursor g) (cursor_next c) true (in_cancel g))
  else None.

Definition emit_standalone (frame : string) (g : Inner) : Inner :=
  let c := in_next g in
  mkInner (in_frames g ++ [(c, frame)]) (in_turn_cursor g) (cursor_next c) (in_running g) (in_cancel g).

Definition close_with (frame : string) (g : Inner) : Inner :=
  let c := in_next g in
  mkInner (in_frames g ++ [(c, frame)]) (in_turn_cursor g) (cursor_next c) false None.

Inductive Read : Type :=
| Frames (batch : list (Z * string))
| Resync.

Definition read_from (cursor : option Z) (g : Inner) : Read :=
  match cursor with
  | None =>
      if in_running g
      then Frames (filter (λ cf : Z * string, in_turn_cursor g ≤ cf.1) (in_frames g))
      else Frames []
  | Some c =>
      let floor := from_option fst (in_next g) (head (in_frames g)) in
      if floor <=? u64_add c 1
      then Frames (filter (λ cf : Z * string, c < cf.1) (in_frames g))
      else Resync
  end.

(** ** The sessions and their holders

    What a subscriber was sent. *)
Inductive Item : Type :=
| Sent (c : Z) (frame : string)
| Resynced.

(** Where the loop of [reader] is: before its first poll, at the top, between
    [borrow_and_update] and the slice, or parked on [changed]. *)
Inductive Phase : Type := Fresh | Looping | Slicing | Parked.

Record Reader : Type := mkReader {
  rd_from : option Z;
  rd_cursor : option Z;
  rd_phase : Phase;
  rd_seen : nat;
  rd_out : list Item;
}.

(** The watch channel as the number of its sends, [ss_owed] the sends whose frame
    is appended and which are still to come; [ss_log] is every frame so far, with
    whether it began a turn: no code reads it. *)
Record Session : Type := mkSession {
  ss_conv : string;
  ss_inner : Inner;
  ss_version : nat;
  ss_owed : nat;
  ss_log : list (bool * string);
}.

(** Who holds a strong reference: a call between its steps, the worker's handle,
    the same handle in its [Drop] between the check and the [clear], a subscriber,
    and a pruner inside [remove_if]. *)
Inductive Owner : Type :=
| Held (sid : nat)
| Handle (sid token : nat) (done : bool)
| Clearing (sid : nat)
| Reading (sid : nat) (r : Reader)
| Pruning (sid : nat).

Definition owner_sid (w : Owner) : nat :=
  match w with Held sid | Handle sid _ _ | Clearing sid | Reading sid _ | Pruning sid => sid end.

(** The bus.  A session is named by its generation; [bs_index] is the weak map,
    whose entry is dead when its session is not in [bs_sessions]; [bs_dying] are
    the conversations whose session is in [Drop] and still to be pruned; [bs_lock]
    is the lock of the shard, when a pruner keeps it.  The map is one shard. *)
Record Bus : Type := mkBus {
  bs_sessions : gmap nat Session;
  bs_index : gmap string nat;
  bs_next_gen : nat;
  bs_owners : gmap nat Owner;
  bs_tokens : gset nat;
  bs_cancelled : gset nat;
  bs_dying : list string;
  bs_lock : bool;
}.

Definition bus_new : Bus := mkBus ∅ ∅ 0 ∅ ∅ ∅ [] false.

Definition set_owner (o : nat) (w : Owner) (b : Bus) : Bus :=
  mkBus (bs_sessions b) (bs_index b) (bs_next_gen b) (<[o := w]> (bs_owners b)) (bs_tokens b) (bs_cancelled b)
    (bs_dying b) (bs_lock b).

Definition set_session (sid : nat) (s : Session) (b : Bus) : Bus :=
  mkBus (<[sid := s]> (bs_sessions b)) (bs_index b) (bs_next_gen b) (bs_owners b) (bs_tokens b) (bs_cancelled b)
    (bs_dying b) (bs_lock b).

(** [Weak::upgrade] of the entry of a conversation. *)
Definition upgrade (conv : string) (b : Bus) : option nat :=
  sid ← bs_index b !! conv; _ ← bs_sessions b !! sid; Some sid.

(** [get_or_create], with [new_session]: the caller holds what it returns. *)
Definition get_or_create (o : nat) (conv : string) (b : Bus) : Bus :=
  match upgrade conv b with
  | Some sid => set_owner o (Held sid) b
  | None =>
      let sid := bs_next_gen b in
      let s := mkSession conv (session_new (Z.of_nat sid)) 0 0 [] in
      mkBus (<[sid := s]> (bs_sessions b)) (<[conv := sid]> (bs_index b)) (S sid)
        (<[o := Held sid]> (bs_owners b)) (bs_tokens b) (bs_cancelled b) (bs_dying b) (bs_lock b)
  end.

(** Frames were appended: [g] is the new state, and a wake is owed. *)
Definition appended (begins : bool) (frame : string) (g : Inner) (s : Session) : Session :=
  mkSession (ss_conv s) g (ss_version s) (S (ss_owed s)) (ss_log s ++ [(begins, frame)]).

Definition holders (sid : nat) (owners : gmap nat Owner) : gmap nat Owner :=
  filter (λ ow : nat * Owner, owner_sid ow.2 = sid) owners.

(** A strong reference is dropped; the last one frees the session, whose [Drop] is
    still to run. *)
Definition release (o sid : nat) (b : Bus) : Bus :=
  let owners := delete o (bs_owners b) in
  if decide (holders sid owners = ∅) then
    mkBus (delete sid (bs_sessions b)) (bs_index b) (bs_next_gen b) owners (bs_tokens b) (bs_cancelled b)
      (option_list (ss_conv <$> bs_sessions b !! sid) ++ bs_dying b) (bs_lock b)
  else
    mkBus (bs_sessions b) (bs_index b) (bs_next_gen b) owners (bs_tokens b) (bs_cancelled b) (bs_dying b) (bs_lock b).

(** One round of the reader after its slice: the frames are sent and the cursor
    follows them; after a resync it reads again as a fresh subscriber. *)
Definition slice (g : Inner) (r : Reader) : Reader :=
  match read_from (rd_cursor r) g with
  | Frames batch =>
      mkReader (rd_from r) (from_option (λ cf, Some cf.1) (rd_cursor r) (last batch)) Parked (rd_seen r)
        (rd_out r ++ map (λ cf, Sent cf.1 cf.2) batch)
  | Resync => mkReader (rd_from r) None Looping (rd_seen r) (rd_out r ++ [Resynced])
  end.

Inductive Action : Type :=
| GetOrCreate (o : nat) (conv : string)
| Get (o : nat) (conv : string)
| TryBegin (o : nat) (user_message : string) (token : nat)
| Subscribe (o : nat) (from : option Z)
| Append (o : nat) (frame : string)
| Terminate (o : nat) (frame : string)
| DropHandle (o : nat)
| Clear (o : nat)
| Emit (o : nat) (frame : string)
| Cancel (o : nat)
| Release (o : nat)
| Notify (sid : nat)
| Poll (o : nat)
| Slice (o : nat)
| Wake (o : nat)
| Leave (o : nat)
| Prune (o : nat) (conv : string)
| PruneDrop (o : nat).

Definition CLEAR : string :=
  let newline := String (Ascii.ascii_of_nat 10) EmptyString in
  "event: clear" +:+ newline +:+ "data: null" +:+ newline +:+ newline.

(** The owner [o], and the session it holds. *)
Definition held (o : nat) (b : Bus) : option (Owner * Session) :=
  w ← bs_owners b !! o; s ← bs_sessions b !! owner_sid w; Some (w, s).

Definition is_free (o : nat) (b : Bus) : bool := bool_decide (bs_owners b !! o = None).

(** One of several sessions of the conversation that are in [Drop]. *)
Fixpoint remove_once (conv : string) (l : list string) : list string :=
  match l with
  | [] => []
  | c :: l => if decide (c = conv) then l else c :: remove_once conv l
  end.

(** One action of some thread; [None] when no thread can make it. *)
Definition act (a : Action) (b : Bus) : option Bus :=
  match a with
  | GetOrCreate o conv => if is_free o b && negb (bs_lock b) then Some (get_or_create o conv b) else None
  | Get o conv =>
      if is_free o b && negb (bs_lock b) then
        Some (match upgrade conv b with Some sid => set_owner o (Held sid) b | None => b end)
      else None
  | TryBegin o user_message token =>
      match held o b with
      | Some (Held sid, s) =>
          if bool_decide (token ∈ bs_tokens b) then None
          else
            match try_begin user_message token (ss_inner s) with
            | None => Some b
            | Some g =>
                let b := set_owner o (Handle sid token false) (set_session sid (appended true user_message g s) b) in
                Some (mkBus (bs_sessions b) (bs_index b) (bs_next_gen b) (bs_owners b)
                        ({[token]} ∪ bs_tokens b) (bs_cancelled b) (bs_dying b) (bs_lock b))
            end
      | _ => None
      end
  | Subscribe o from =>
      match held o b with
      | Some (Held sid, _) =>
          if from_option (λ c, (0 <=? c) && (c <=? u64_max)) true from
          then Some (set_owner o (Reading sid (mkReader from from Fresh 0 [])) b)
          else None
      | _ => None
      end
  | Append o frame =>
      match held o b with
      | Some (Handle sid token false, s) =>
          match append frame (ss_inner s) with
          | None => Some b
          | Some g => Some (set_session sid (appended false frame g s) b)
          end
      | _ => None
      end
  | Terminate o frame =>
      match held o b with
      | Some (Handle sid token false, s) =>
          Some (set_owner o (Handle sid token true)
                  (set_session sid (appended false frame (close_with frame (ss_inner s)) s) b))
      | _ => None
      end
  | DropHandle o =>
      match held o b with
      | Some (Handle sid token done, s) =>
          Some (set_owner o (if negb done && in_running (ss_inner s) then Clearing sid else Held sid) b)
      | _ => None
      end
  | Clear o =>
      match held o b with
      | Some (Clearing sid, s) =>
          Some (set_owner o (Held sid) (set_session sid (appended false CLEAR (close_with CLEAR (ss_inner s)) s) b))
      | _ => None
      end
  | Emit o frame =>
      match held o b with
      | Some (Held sid, s) => Some (set_session sid (appended false frame (emit_standalone frame (ss_inner s)) s) b)
      | _ => None
      end
  | Cancel o =>
      match held o b with
      | Some (Held sid, s) =>
          Some (mkBus (bs_sessions b) (bs_index b) (bs_next_gen b) (bs_owners b) (bs_tokens b)
                  (list_to_set (option_list (in_cancel (ss_inner s))) ∪ bs_cancelled b) (bs_dying b) (bs_lock b))
      | _ => None
      end
  | Release o =>
      match held o b with Some (Held sid, _) => Some (release o sid b) | _ => None end
  | Notify sid =>
      match bs_sessions b !! sid with
      | Some (mkSession conv g version (S owed) log) => Some (set_session sid (mkSession conv g (S version) owed log) b)
      | _ => None
      end
  | Poll o =>
      match held o b with
      | Some (Reading sid (mkReader from cursor Fresh _ out), s) =>
          Some (set_owner o (Reading sid (mkReader from cursor Looping (ss_version s) out)) b)
      | Some (Reading sid (mkReader from cursor Looping _ out), s) =>
          Some (set_owner o (Reading sid (mkReader from cursor Slicing (ss_version s) out)) b)
      | _ => None
      end
  | Slice o =>
      match held o b with
      | Some (Reading sid (mkReader from cursor Slicing seen out), s) =>
          Some (set_owner o (Reading sid (slice (ss_inner s) (mkReader from cursor Slicing seen out))) b)
      | _ => None
      end
  | Wake o =>
      match held o b with
      | Some (Reading sid (mkReader from cursor Parked seen out), s) =>
          if bool_decide (ss_version s = seen) then None
          else Some (set_owner o (Reading sid (mkReader from cursor Looping seen out)) b)
      | _ => None
      end
  | Leave o =>
      match held o b with Some (Reading sid _, _) => Some (set_owner o (Held sid) b) | _ => None end
  | Prune o conv =>
      if is_free o b && negb (bs_lock b) && bool_decide (conv ∈ bs_dying b) then
        let dying := remove_once conv (bs_dying b) in
        match upgrade conv b with
        | Some sid =>
            Some (mkBus (bs_sessions b) (bs_index b) (bs_next_gen b) (<[o := Pruning sid]> (bs_owners b))
                    (bs_tokens b) (bs_cancelled b) dying true)
        | None =>
            Some (mkBus (bs_sessions b) (delete conv (bs_index b)) (bs_next_gen b) (bs_owners b)
                    (bs_tokens b) (bs_cancelled b) dying false)
        end
      else None
  | PruneDrop o =>
      match held o b with
      | Some (Pruning sid, _) =>
          let b' := release o sid b in
          let freed := bool_decide (bs_sessions b' !! sid = None) in
          Some (mkBus (bs_sessions b') (bs_index b') (bs_next_gen b') (bs_owners b') (bs_tokens b')
                  (bs_cancelled b') (bs_dying b') freed)
      | _ => None
      end
  end.

Fixpoint acts (l : list Action) (b : Bus) : option Bus :=
  match l with
  | [] => Some b
  | a :: l => b' ← act a b; acts l b'
  end.

(** What the bus is after [n] actions of any threads. *)
Definition reached (n : nat) (b : Bus) : Prop := ∃ l, length l = n ∧ acts l bus_new = Some b.

(** ** The log of a session

    [numbered c l]: the frames [l] under consecutive cursors from [c]. *)
Fixpoint numbered (c : Z) (l : list string) : list (Z * string) :=
  match l with [] => [] | f :: l => (c, f) :: numbered (c + 1) l end.

Lemma numbered_app c l1 l2 : numbered c (l1 ++ l2) = numbered c l1 ++ numbered (c + Z.of_nat (length l1)) l2.
Proof.
  revert c. induction l1 as [| f l1 IH]; intros c; simpl; [by rewrite Z.add_0_r |].
  rewrite IH. do 2 f_equal. f_equal. lia.
Qed.

Lemma numbered_drop c n l : drop n (numbered c l) = numbered (c + Z.of_nat n) (drop n l).
Proof.
  revert c n. induction l as [| f l IH]; intros c [| n]; simpl; [done..| by rewrite Z.add_0_r |].
  rewrite IH. f_equal. lia.
Qed.

Lemma numbered_filter c k l :
  filter (λ cf : Z * string, k ≤ cf.1) (numbered c l) = drop (Z.to_nat (k - c)) (numbered c l).
Proof.
  revert c. induction l as [| f l IH]; intros c; simpl; [by rewrite drop_nil |].
  rewrite filter_cons. simpl. destruct (decide (k ≤ c)).
  - rewrite IH. replace (Z.to_nat (k - c)) with 0%nat by lia. replace (Z.to_nat (k - (c + 1))) with 0%nat by lia. done.
  - rewrite IH. replace (Z.to_nat (k - c)) with (S (Z.to_nat (k - (c + 1)))) by lia. done.
Qed.

Lemma numbered_lt_filter c k l :
  filter (λ cf : Z * string, k < cf.1) (numbered c l) = drop (Z.to_nat (k + 1 - c)) (numbered c l).
Proof. rewrite <- numbered_filter. apply list_filter_iff. intros [? ?]. simpl. lia. Qed.

Lemma numbered_last c l :
  last (numbered c l) = (λ f, (c + Z.of_nat (length l) - 1, f)) <$> last l.
Proof.
  revert c. induction l as [| f l IH]; intros c; [done |]. destruct l as [| f' l].
  - simpl. do 2 f_equal. lia.
  - change (last (numbered c (f :: f' :: l))) with (last (numbered (c + 1) (f' :: l))).
    rewrite IH. change (last (f :: f' :: l)) with (last (f' :: l)).
    destruct (last (f' :: l)); [| done]. cbn [fmap option_fmap option_map length].
    do 2 f_equal. lia.
Qed.

Definition begins (log : list (bool * string)) (i : nat) : Prop := ∃ f, log !! i = Some (true, f).

(** What a session holds of the frames [log] since it was made: the frames from
    position [prev], where the previous turn began, and the current turn from [cur]. *)
Record window (start : Z) (log : list (bool * string)) (prev cur : nat) (g : Inner) : Prop := {
  wi_prev : (prev ≤ cur)%nat;
  wi_cur : (cur ≤ length log)%nat;
  wi_frames : in_frames g = numbered (start + Z.of_nat prev) (drop prev (map snd log));
  wi_turn : in_turn_cursor g = start + Z.of_nat cur;
  wi_next : in_next g = start + Z.of_nat (length log);
  wi_running : in_running g = true → begins log cur;
  wi_turns : prev = 0%nat ∨ (prev < cur)%nat ∧ begins log prev ∧ begins log cur;
  wi_first : cur = 0%nat ∨ begins log cur;
}.

(** There is a cursor for one more frame, with one to spare for the arithmetic of [read_from]. *)
Definition has_room (start : Z) (log : list (bool * string)) : Prop :=
  0 ≤ start ∧ start + Z.of_nat (length log) + 1 ≤ u64_max.

Lemma u64_add_small a b : 0 ≤ a + b ≤ u64_max → u64_add a b = a + b.
Proof. intros H. unfold u64_add. rewrite Z.mod_small; [done | lia]. Qed.

Lemma next_in_room start log : has_room start log →
  cursor_next (start + Z.of_nat (length log)) = start + Z.of_nat (S (length log)).
Proof. intros [H0 H1]. unfold cursor_next. rewrite u64_add_small; lia. Qed.

Lemma window_new gen :
  window (generation gen) [] 0 0 (session_new gen).
Proof. split; simpl; [lia | lia | done | lia | lia | done | by left | by left]. Qed.

Lemma begins_snoc log i e : begins log i → begins (log ++ [e]) i.
Proof. intros [f Hf]. exists f. by apply lookup_app_l_Some. Qed.

(** The frame appended at the end keeps the window. *)
Lemma frames_snoc start log prev cur g b f :
  window start log prev cur g →
  in_frames g ++ [(in_next g, f)] = numbered (start + Z.of_nat prev) (drop prev (map snd (log ++ [(b, f)]))).
Proof.
  intros [Hp Hc Hf _ Hn _ _ _]. rewrite Hf, Hn, map_app, drop_app_le, numbered_app by (rewrite length_map; lia). simpl.
  do 3 f_equal. rewrite length_drop, length_map. lia.
Qed.

Lemma window_begin start log prev cur g f token g' :
  has_room start log → window start log prev cur g → try_begin f token g = Some g' →
  window start (log ++ [(true, f)]) cur (length log) g'.
Proof.
  intros Hroom Hw Hb. pose proof Hw as [Hp Hc Hf Ht Hn _ _ H1]. unfold try_begin in Hb.
  destruct (in_running g); [done |]. injection Hb as <-.
  assert (Hkept : filter (λ cf : Z * string, in_turn_cursor g ≤ cf.1) (in_frames g)
                  = numbered (start + Z.of_nat cur) (drop cur (map snd log))).
  { rewrite Hf, numbered_filter, numbered_drop, drop_drop, Ht. f_equal; [lia |]. f_equal; lia. }
  assert (begins (log ++ [(true, f)]) (length log)) as Hnew.
  { exists f. by rewrite lookup_app_r, Nat.sub_diag by lia. }
  split; simpl; [lia | rewrite length_app; lia | | done | | done | | by right].
  - rewrite Hkept, Hn, map_app, drop_app_le, numbered_app by (rewrite length_map; lia). simpl.
    do 3 f_equal. rewrite length_drop, length_map. lia.
  - rewrite Hn, (next_in_room _ _ Hroom), length_app. simpl. lia.
  - destruct H1 as [| Hcur]; [by left | right]. split; [| split; [by apply begins_snoc | done]].
    destruct Hcur as [f' Hf']. by apply lookup_lt_Some in Hf'.
Qed.

(** The other three append one frame and leave the turn where it is. *)
Lemma window_push start log prev cur g b f running cancel :
  has_room start log → window start log prev cur g →
  (running = true → in_running g = true) →
  window start (log ++ [(b, f)]) prev cur
    (mkInner (in_frames g ++ [(in_next g, f)]) (in_turn_cursor g) (cursor_next (in_next g)) running cancel).
Proof.
  intros Hroom Hw Hr. pose proof Hw as [Hp Hc Hf Ht Hn Hrun H1 H2].
  split; simpl; [lia | rewrite length_app; lia | by eapply frames_snoc | done | | | | ].
  - rewrite Hn, (next_in_room _ _ Hroom), length_app. simpl. lia.
  - intros Hrun'. apply begins_snoc, Hrun, Hr, Hrun'.
  - destruct H1 as [-> | (? & ? & ?)]; [by left | right; auto using begins_snoc].
  - destruct H2 as [-> | ?]; [by left | right; auto using begins_snoc].
Qed.

Lemma window_append start log prev cur g f g' :
  has_room start log → window start log prev cur g → append f g = Some g' →
  window start (log ++ [(false, f)]) prev cur g'.
Proof.
  intros Hroom Hw Ha. unfold append in Ha. destruct (in_running g) eqn:Hr; [| done].
  injection Ha as <-. by apply window_push.
Qed.

Lemma window_emit start log prev cur g f :
  has_room start log → window start log prev cur g →
  window start (log ++ [(false, f)]) prev cur (emit_standalone f g).
Proof. intros. by apply window_push. Qed.

Lemma window_close start log prev cur g f :
  has_room start log → window start log prev cur g →
  window start (log ++ [(false, f)]) prev cur (close_with f g).
Proof. intros. by apply window_push. Qed.

(** *** Reading *)

Lemma window_floor start log prev cur g :
  window start log prev cur g →
  from_option fst (in_next g) (head (in_frames g)) = start + Z.of_nat prev.
Proof.
  intros [Hp Hc Hf _ Hn _ _ _]. rewrite Hf.
  destruct (drop prev (map snd log)) eqn:Hd; simpl; [| done].
  assert (length (drop prev (map snd log)) = 0%nat) as Hl by (by rewrite Hd).
  rewrite length_drop, length_map in Hl. rewrite Hn. lia.
Qed.

Lemma u64_add_one c : in_u64 c → u64_add c 1 = c + 1 ∨ c = u64_max ∧ u64_add c 1 = 0.
Proof.
  intros [? ?]. destruct (decide (c = u64_max)) as [-> | ?]; [by right | left].
  apply u64_add_small. lia.
Qed.

(** What is retained after position [i]. *)
Definition after (start : Z) (log : list (bool * string)) (i : nat) : list (Z * string) :=
  numbered (start + Z.of_nat i) (drop i (map snd log)).

Lemma after_last start log i :
  (i < length log)%nat → ∃ f, last (after start log i) = Some (start + Z.of_nat (length log) - 1, f).
Proof.
  intros Hi. unfold after. rewrite numbered_last, length_drop, length_map.
  destruct (last (drop i (map snd log))) as [f |] eqn:Hl.
  - exists f. simpl. do 2 f_equal. lia.
  - apply last_None, (f_equal length) in Hl. rewrite length_drop, length_map in Hl. simpl in Hl. lia.
Qed.

(** A read after [c], where [c + 1] is within what is kept: exactly what follows. *)
Lemma read_resumes start log prev cur g c :
  window start log prev cur g → 0 ≤ c → c + 1 ≤ u64_max → start + Z.of_nat prev ≤ c + 1 →
  read_from (Some c) g = Frames (after start log (Z.to_nat (c + 1 - start))).
Proof.
  intros Hw H0 H1 Hc. unfold read_from. rewrite (window_floor _ _ _ _ _ Hw), u64_add_small by lia.
  rewrite (proj2 (Z.leb_le _ _)) by lia. f_equal.
  rewrite (wi_frames _ _ _ _ _ Hw), numbered_lt_filter, numbered_drop, drop_drop. unfold after.
  f_equal; [lia |]. f_equal. lia.
Qed.

Lemma read_resyncs start log prev cur g c :
  window start log prev cur g → 0 ≤ c → c + 1 < start + Z.of_nat prev → c + 1 ≤ u64_max →
  read_from (Some c) g = Resync.
Proof.
  intros Hw H0 Hc H1. unfold read_from. rewrite (window_floor _ _ _ _ _ Hw), u64_add_small by lia.
  by rewrite (proj2 (Z.leb_gt _ _)) by lia.
Qed.

Lemma read_fresh start log prev cur g :
  window start log prev cur g →
  read_from None g = Frames (if in_running g then after start log cur else []).
Proof.
  intros [Hp Hc Hf Ht _ _ _ _]. unfold read_from. destruct (in_running g); [| done]. f_equal.
  rewrite Hf, Ht, numbered_filter, numbered_drop, drop_drop. unfold after. f_equal; [lia |]. f_equal. lia.
Qed.

Lemma read_frames start log prev cur g c batch :
  has_room start log → window start log prev cur g → in_u64 c →
  read_from (Some c) g = Frames batch →
  start + Z.of_nat prev ≤ c + 1 ∧ batch = after start log (Z.to_nat (c + 1 - start)).
Proof.
  intros [H0 _] Hw Hc Hr.
  assert (start + Z.of_nat prev ≤ c + 1) as Hle.
  { unfold read_from in Hr. rewrite (window_floor _ _ _ _ _ Hw) in Hr.
    destruct (Z.leb_spec (start + Z.of_nat prev) (u64_add c 1)) as [Hl |]; [| done].
    destruct (u64_add_one c Hc) as [He | [-> He]]; rewrite He in Hl; unfold u64_max in *; lia. }
  split; [done |]. unfold read_from in Hr. destruct (_ <=? _) in Hr; [| done]. injection Hr as <-.
  rewrite (wi_frames _ _ _ _ _ Hw), numbered_lt_filter, numbered_drop, drop_drop. unfold after.
  f_equal; [lia |]. f_equal. lia.
Qed.

(** *** What a subscriber is sent

    [follows]: each frame is the one logged under its cursor; it comes right after
    the last one, or, for a subscriber without a cursor, it begins a turn. *)
Fixpoint follows (start : Z) (log : list (bool * string)) (cur : option Z) (out : list Item) : Prop :=
  match out with
  | [] => True
  | Resynced :: out => follows start log None out
  | Sent c f :: out =>
      (∃ i b, c = start + Z.of_nat i ∧ log !! i = Some (b, f) ∧
              match cur with Some p => c = p + 1 | None => b = true end) ∧
      follows start log (Some c) out
  end.

Fixpoint cursor_after (cur : option Z) (out : list Item) : option Z :=
  match out with
  | [] => cur
  | Resynced :: out => cursor_after None out
  | Sent c _ :: out => cursor_after (Some c) out
  end.

Lemma follows_app start log cur out out' :
  follows start log cur (out ++ out') ↔ follows start log cur out ∧ follows start log (cursor_after cur out) out'.
Proof. revert cur. induction out as [| [c f |] out IH]; intros cur; simpl; [tauto | rewrite IH; tauto | apply IH]. Qed.

Lemma cursor_after_app cur out out' : cursor_after cur (out ++ out') = cursor_after (cursor_after cur out) out'.
Proof. revert cur. induction out as [| [c f |] out IH]; intros cur; simpl; auto. Qed.

Lemma follows_more start log log' cur out : follows start log cur out → follows start (log ++ log') cur out.
Proof.
  revert cur. induction out as [| [c f |] out IH]; intros cur; simpl; [done | | apply IH].
  intros [(i & b & Hc & Hi & Hcur) Hout]. split; [| by apply IH].
  exists i, b. split_and!; [done | by apply lookup_app_l_Some | done].
Qed.

Definition sent (batch : list (Z * string)) : list Item := map (λ cf, Sent cf.1 cf.2) batch.

Lemma cursor_after_sent cur batch :
  cursor_after cur (sent batch) = from_option (λ cf : Z * string, Some cf.1) cur (last batch).
Proof.
  revert cur. induction batch as [| [c f] batch IH]; intros cur; [done |].
  change (sent ((c, f) :: batch)) with (Sent c f :: sent batch). cbn [cursor_after]. rewrite IH.
  destruct batch; [done |]. change (last ((c, f) :: p :: batch)) with (last (p :: batch)).
  destruct (last (p :: batch)) eqn:Hl; [done | by apply last_None in Hl].
Qed.

Lemma follows_after start log cur i :
  (∀ f b, log !! i = Some (b, f) →
     match cur with Some p => start + Z.of_nat i = p + 1 | None => b = true end) →
  follows start log cur (sent (after start log i)).
Proof.
  remember (length log - i)%nat as n eqn:Hn. revert i cur Hn.
  induction n as [| n IH]; intros i cur Hn Hcur; unfold after.
  - by rewrite drop_ge by (rewrite length_map; lia).
  - destruct (lookup_lt_is_Some_2 log i) as [[b f] Hi]; [lia |].
    assert (map snd log !! i = Some f) as Hf by (by rewrite list_lookup_fmap, Hi).
    rewrite (drop_S _ f i Hf).
    cbn [numbered sent map fst snd follows]. split; [exists i, b; split_and!; [done | done | by eapply Hcur] |].
    replace (start + Z.of_nat i + 1) with (start + Z.of_nat (S i)) by lia.
    apply (IH (S i) (Some (start + Z.of_nat i))); [lia |]. intros. lia.
Qed.

(** What holds of a subscriber of a session. *)
Record reader_ok (start : Z) (s : Session) (r : Reader) : Prop := {
  ro_u64 : ∀ c, rd_cursor r = Some c → in_u64 c;
  ro_cursor : rd_cursor r = cursor_after (rd_from r) (rd_out r);
  ro_follows : follows start (ss_log s) (rd_from r) (rd_out r);
  ro_seen : (rd_seen r ≤ ss_version s)%nat;
  ro_parked : rd_phase r = Parked → rd_seen r = ss_version s → ss_owed s = 0%nat →
    read_from (rd_cursor r) (ss_inner s) = Frames [];
}.

(** The batch of a read, as the frames from one position on; what makes the
    position the one the subscriber is at; and that a second read finds nothing. *)
Lemma read_batch start log prev cur g cursor batch :
  has_room start log → window start log prev cur g → (∀ c, cursor = Some c → in_u64 c) →
  read_from cursor g = Frames batch →
  follows start log cursor (sent batch) ∧
  (∀ c, from_option (λ cf : Z * string, Some cf.1) cursor (last batch) = Some c → in_u64 c) ∧
  read_from (from_option (λ cf : Z * string, Some cf.1) cursor (last batch)) g = Frames [].
Proof.
  intros Hroom Hw Hu Hr. pose proof Hroom as [H0 H1]. pose proof Hw as [Hp Hc _ _ _ Hrun _ _].
  assert (batch = [] ∨ ∃ i, batch = after start log i ∧ (prev ≤ i < length log)%nat ∧
    ∀ f b, log !! i = Some (b, f) → match cursor with Some p => start + Z.of_nat i = p + 1 | None => b = true end)
    as [-> | (i & -> & Hi & Hcur)].
  { destruct cursor as [c |].
    - destruct (read_frames _ _ _ _ _ _ _ Hroom Hw (Hu c eq_refl) Hr) as [Hle ->].
      destruct (decide (Z.to_nat (c + 1 - start) < length log)%nat).
      + right. eexists. split; [done |]. split; [lia |]. intros. lia.
      + left. unfold after. by rewrite drop_ge by (rewrite length_map; lia).
    - rewrite (read_fresh _ _ _ _ _ Hw) in Hr. injection Hr as <-. destruct (in_running g); [| by left].
      destruct (Hrun eq_refl) as [f Hf]. right. exists cur. split; [done |].
      split; [split; [done | by apply lookup_lt_Some in Hf] |]. intros ?? Hf'. rewrite Hf in Hf'. congruence. }
  - split; [done |]. split; [exact Hu | exact Hr].
  - split; [by apply follows_after |]. destruct (after_last start log i) as [f ->]; [lia |]. cbn [from_option fst].
    assert (0 ≤ start + Z.of_nat (length log) - 1) by lia.
    split; [intros c [= <-]; unfold in_u64, u64_max in *; lia |].
    rewrite (read_resumes _ _ _ _ _ _ Hw) by lia. unfold after.
    by rewrite drop_ge by (rewrite length_map; lia).
Qed.

Lemma slice_ok start s prev cur r :
  has_room start (ss_log s) → window start (ss_log s) prev cur (ss_inner s) →
  rd_phase r = Slicing → reader_ok start s r → reader_ok start s (slice (ss_inner s) r).
Proof.
  intros Hroom Hw Hph [Hu Hc Hf Hs _]. unfold slice. destruct (read_from (rd_cursor r) (ss_inner s)) as [batch |] eqn:Hr.
  - destruct (read_batch _ _ _ _ _ _ _ Hroom Hw Hu Hr) as (Hf' & Hu' & Hr').
    split; simpl; [done | | | done | done].
    + rewrite cursor_after_app, <- Hc. symmetry. apply cursor_after_sent.
    + apply follows_app. rewrite <- Hc. by split.
  - split; simpl; [done | | | done | done].
    + by rewrite cursor_after_app.
    + apply follows_app. by split.
Qed.

(** What another thread does to the session: frames are appended with a wake owed,
    or an owed wake is sent. *)
Lemma reader_ok_appended start s r b f g :
  reader_ok start s r → reader_ok start (appended b f g s) r.
Proof. intros [Hu Hc Hf Hs Hp]. split; simpl; [done | done | by apply follows_more | done | done]. Qed.

Lemma reader_ok_notified start conv g version owed log r :
  reader_ok start (mkSession conv g version (S owed) log) r → reader_ok start (mkSession conv g (S version) owed log) r.
Proof. intros [Hu Hc Hf Hs Hp]. split; simpl in *; [done | done | done | lia | lia]. Qed.

(** ** What an action may do

    A holder that writes: its turn is running. *)
Definition writer (w : Owner) : bool :=
  match w with Handle _ _ false | Clearing _ => true | _ => false end.

Definition starts (sid : nat) : Z := generation (Z.of_nat sid).

(** A holder and its session, before and after one of its actions. *)
Record change (w : Owner) (s : Session) (w' : Owner) (s' : Session) : Prop := {
  ch_sid : owner_sid w' = owner_sid w;
  ch_conv : ss_conv s' = ss_conv s;
  ch_length : (length (ss_log s') ≤ S (length (ss_log s)))%nat;
  ch_window : ∀ start prev cur, has_room start (ss_log s) → window start (ss_log s) prev cur (ss_inner s) →
    ∃ prev' cur', window start (ss_log s') prev' cur' (ss_inner s');
  ch_writer :
    writer w' = writer w ∧ in_running (ss_inner s') = in_running (ss_inner s) ∨
    writer w = false ∧ in_running (ss_inner s) = false ∧ writer w' = true ∧ in_running (ss_inner s') = true ∨
    writer w = true ∧ writer w' = false ∧ in_running (ss_inner s') = false;
  ch_others : ∀ start r, reader_ok start s r → reader_ok start s' r;
  ch_reader : ∀ start prev cur r', w' = Reading (owner_sid w) r' →
    has_room start (ss_log s) → window start (ss_log s) prev cur (ss_inner s) →
    (∀ r, w = Reading (owner_sid w) r → reader_ok start s r) → reader_ok start s' r';
}.

(** The holder alone changes. *)
Lemma change_owner w s w' :
  owner_sid w' = owner_sid w →
  (writer w' = writer w ∨ writer w = true ∧ writer w' = false ∧ in_running (ss_inner s) = false) →
  (∀ start prev cur r', w' = Reading (owner_sid w) r' →
    has_room start (ss_log s) → window start (ss_log s) prev cur (ss_inner s) →
    (∀ r, w = Reading (owner_sid w) r → reader_ok start s r) → reader_ok start s r') →
  change w s w' s.
Proof. intros Hs Hw Hr. split; [done | done | lia | eauto | intuition | done | done]. Qed.

(** The holder appends a frame. *)
Lemma change_appended w s w' b f g :
  owner_sid w' = owner_sid w →
  (∀ r, w' ≠ Reading (owner_sid w) r) →
  (writer w' = writer w ∧ in_running g = in_running (ss_inner s) ∨
   writer w = false ∧ in_running (ss_inner s) = false ∧ writer w' = true ∧ in_running g = true ∨
   writer w = true ∧ writer w' = false ∧ in_running g = false) →
  (∀ start prev cur, has_room start (ss_log s) → window start (ss_log s) prev cur (ss_inner s) →
    ∃ prev' cur', window start (ss_log s ++ [(b, f)]) prev' cur' g) →
  change w s w' (appended b f g s).
Proof.
  intros Hs Hn Hw Hwin.
  split; [done | done | simpl; rewrite length_app; simpl; lia | done | done | |].
  - intros. by apply reader_ok_appended.
  - intros ???? H. by destruct (Hn _ H).
Qed.

Inductive effect (b b' : Bus) : Prop :=
| ef_none :
    bs_sessions b' = bs_sessions b → bs_owners b' = bs_owners b → bs_next_gen b' = bs_next_gen b →
    (∀ conv sid, bs_index b' !! conv = Some sid → bs_index b !! conv = Some sid) →
    (∀ conv sid, bs_index b !! conv = Some sid → is_Some (bs_sessions b !! sid) → bs_index b' !! conv = Some sid) →
    effect b b'
| ef_owner o w s w' s' :
    bs_owners b !! o = Some w → bs_sessions b !! owner_sid w = Some s → change w s w' s' →
    bs_sessions b' = <[owner_sid w := s']> (bs_sessions b) → bs_owners b' = <[o := w']> (bs_owners b) →
    bs_index b' = bs_index b → bs_next_gen b' = bs_next_gen b → effect b b'
| ef_notify sid conv g version owed log :
    bs_sessions b !! sid = Some (mkSession conv g version (S owed) log) →
    bs_sessions b' = <[sid := mkSession conv g (S version) owed log]> (bs_sessions b) →
    bs_owners b' = bs_owners b → bs_index b' = bs_index b → bs_next_gen b' = bs_next_gen b → effect b b'
| ef_join o w :
    bs_owners b !! o = None → is_Some (bs_sessions b !! owner_sid w) → writer w = false →
    (∀ sid r, w ≠ Reading sid r) →
    bs_sessions b' = bs_sessions b → bs_owners b' = <[o := w]> (bs_owners b) →
    bs_index b' = bs_index b → bs_next_gen b' = bs_next_gen b → effect b b'
| ef_create o conv :
    bs_owners b !! o = None →
    (∀ sid, bs_index b !! conv = Some sid → bs_sessions b !! sid = None) →
    bs_sessions b' = <[bs_next_gen b := mkSession conv (session_new (Z.of_nat (bs_next_gen b))) 0 0 []]> (bs_sessions b) →
    bs_owners b' = <[o := Held (bs_next_gen b)]> (bs_owners b) →
    bs_index b' = <[conv := bs_next_gen b]> (bs_index b) → bs_next_gen b' = S (bs_next_gen b) → effect b b'
| ef_release o w :
    bs_owners b !! o = Some w → writer w = false → is_Some (bs_sessions b !! owner_sid w) →
    bs_owners b' = delete o (bs_owners b) →
    (holders (owner_sid w) (delete o (bs_owners b)) = ∅ ∧ bs_sessions b' = delete (owner_sid w) (bs_sessions b) ∨
     holders (owner_sid w) (delete o (bs_owners b)) ≠ ∅ ∧ bs_sessions b' = bs_sessions b) →
    bs_index b' = bs_index b → bs_next_gen b' = bs_next_gen b → effect b b'.

Lemma upgrade_some conv b sid :
  upgrade conv b = Some sid ↔ bs_index b !! conv = Some sid ∧ is_Some (bs_sessions b !! sid).
Proof.
  unfold upgrade. destruct (bs_index b !! conv) as [i |]; simpl; [| naive_solver].
  destruct (bs_sessions b !! i) eqn:Hi; simpl; split; [intros [= <-]; eauto | intros [[= <-] _]; done | done |].
  intros [[= <-] [s Hs]]. congruence.
Qed.

Lemma upgrade_none conv b sid : upgrade conv b = None → bs_index b !! conv = Some sid → bs_sessions b !! sid = None.
Proof.
  unfold upgrade. intros Hu Hi. rewrite Hi in Hu. simpl in Hu. by destruct (bs_sessions b !! sid).
Qed.

Lemma held_some o b w s :
  held o b = Some (w, s) ↔ bs_owners b !! o = Some w ∧ bs_sessions b !! owner_sid w = Some s.
Proof.
  unfold held. destruct (bs_owners b !! o) as [w0 |]; simpl; [| naive_solver].
  destruct (bs_sessions b !! owner_sid w0) eqn:Hs; simpl; naive_solver congruence.
Qed.

Lemma effect_owner o w s w' b :
  held o b = Some (w, s) → change w s w' s → effect b (set_owner o w' b).
Proof.
  intros [Ho Hs]%held_some Hc. eapply (ef_owner b _ o w s w' s); simpl; [done | done | done | | done | done | done].
  by rewrite insert_id.
Qed.

Lemma effect_appended o w s w' s' b :
  held o b = Some (w, s) → change w s w' s' → effect b (set_owner o w' (set_session (owner_sid w) s' b)).
Proof. intros [Ho Hs]%held_some Hc. by eapply (ef_owner b _ o w s w' s'). Qed.

(** The holder keeps its state. *)
Lemma effect_session o w s s' b :
  held o b = Some (w, s) → change w s w s' → effect b (set_session (owner_sid w) s' b).
Proof.
  intros [Ho Hs]%held_some Hc. eapply (ef_owner b _ o w s w s'); simpl; [done | done | done | done | | done | done].
  by rewrite insert_id.
Qed.

Lemma effect_release o w s b b' :
  held o b = Some (w, s) → writer w = false →
  bs_sessions b' = bs_sessions (release o (owner_sid w) b) → bs_owners b' = bs_owners (release o (owner_sid w) b) →
  bs_index b' = bs_index b → bs_next_gen b' = bs_next_gen b → effect b b'.
Proof.
  intros [Ho Hs]%held_some Hw H1 H2 H3 H4.
  unfold release in *. eapply (ef_release b b' o w); [done | done | done | | | done | done].
  - rewrite H2. by destruct (decide _).
  - rewrite H1. destruct (decide _); [by left | by right].
Qed.

Lemma is_free_true o b : is_free o b = true ↔ bs_owners b !! o = None.
Proof. unfold is_free. by rewrite bool_decide_eq_true. Qed.

(** Nothing of a change concerns a subscriber when the holder is none. *)
Ltac no_reader := intros; by try discriminate.

Lemma try_begin_change sid token f g s :
  try_begin f token (ss_inner s) = Some g →
  change (Held sid) s (Handle sid token false) (appended true f g s).
Proof.
  intros Hg. apply change_appended; [done | no_reader | | ].
  - right; left. unfold try_begin in Hg. destruct (in_running (ss_inner s)); [done |]. by injection Hg as <-.
  - intros start prev cur Hroom Hw. do 2 eexists. by eapply window_begin.
Qed.

Lemma append_change w f g s :
  (∀ r, w ≠ Reading (owner_sid w) r) → append f (ss_inner s) = Some g →
  change w s w (appended false f g s).
Proof.
  intros Hn Hg. apply change_appended; [done | done | | ].
  - left. unfold append in Hg. destruct (in_running (ss_inner s)) eqn:Hr; [| done]. by injection Hg as <-.
  - intros start prev cur Hroom Hw. do 2 eexists. by eapply window_append.
Qed.

Lemma close_change w w' f s :
  owner_sid w' = owner_sid w → (∀ r, w' ≠ Reading (owner_sid w) r) → writer w = true → writer w' = false →
  change w s w' (appended false f (close_with f (ss_inner s)) s).
Proof.
  intros Hs Hn Hw Hw'. apply change_appended; [done | done | by right; right | ].
  intros start prev cur Hroom Hwin. do 2 eexists. by eapply window_close.
Qed.

Lemma emit_change sid f s :
  change (Held sid) s (Held sid) (appended false f (emit_standalone f (ss_inner s)) s).
Proof.
  apply change_appended; [done | no_reader | by left | ].
  intros start prev cur Hroom Hwin. do 2 eexists. by eapply window_emit.
Qed.

(** A subscriber moves. *)
Lemma reader_change sid s r r' :
  (∀ start prev cur, has_room start (ss_log s) → window start (ss_log s) prev cur (ss_inner s) →
    reader_ok start s r → reader_ok start s r') →
  change (Reading sid r) s (Reading sid r') s.
Proof.
  intros Hr. apply change_owner; [done | by left |].
  intros start prev cur r1 [= <-] Hroom Hw Hok. by eapply Hr, Hok.
Qed.

Lemma act_effect a b b' : act a b = Some b' → effect b b'.
Proof.
  assert (Hnone : ∀ b', Some b = Some b' → effect b b') by (intros ? [= <-]; apply ef_none; eauto).
  destruct a as [o conv | o conv | o f token | o from | o f | o f | o | o | o f | o | o | sid | o | o | o | o | o conv | o];
    simpl; intros Ha.
  - destruct (is_free o b) eqn:Hf; [| done]. apply is_free_true in Hf. destruct (negb _); [| done]. simpl in Ha.
    injection Ha as <-. unfold get_or_create. destruct (upgrade conv b) as [sid |] eqn:Hu.
    + apply upgrade_some in Hu as [_ Hs]. by eapply (ef_join b _ o (Held sid)).
    + eapply (ef_create b _ o conv); [done | intros sid; by apply upgrade_none | done..].
  - destruct (is_free o b) eqn:Hf; [| done]. apply is_free_true in Hf. destruct (negb _); [| done]. simpl in Ha.
    destruct (upgrade conv b) as [sid |] eqn:Hu; [| by apply Hnone]. injection Ha as <-.
    apply upgrade_some in Hu as [_ Hs]. by eapply (ef_join b _ o (Held sid)).
  - destruct (held o b) as [[[sid | | | |] s] |] eqn:Hh; try done. case_bool_decide; [done |].
    destruct (try_begin f token (ss_inner s)) as [g |] eqn:Hg; [| by apply Hnone]. injection Ha as <-.
    apply held_some in Hh as [Ho Hs].
    eapply (ef_owner b _ o (Held sid) s _ (appended true f g s)); try done. by apply try_begin_change.
  - destruct (held o b) as [[[sid | | | |] s] |] eqn:Hh; try done.
    destruct (from_option _ true from) eqn:Hfrom; [| done]. injection Ha as <-.
    eapply effect_owner; [done |]. apply change_owner; [done | by left |].
    intros start prev cur r [= <-] _ _ _. split; simpl; [| done | done | lia | done].
    intros c ->. simpl in Hfrom. unfold in_u64. apply andb_true_iff in Hfrom as [?%Z.leb_le ?%Z.leb_le]. lia.
  - destruct (held o b) as [[[| sid token [] | | |] s] |] eqn:Hh; try done.
    destruct (append f (ss_inner s)) as [g |] eqn:Hg; [| by apply Hnone]. injection Ha as <-.
    eapply (effect_session o (Handle sid token false)); [done |]. by apply append_change.
  - destruct (held o b) as [[[| sid token [] | | |] s] |] eqn:Hh; try done. injection Ha as <-.
    eapply (effect_appended o (Handle sid token false)); [done |]. by apply close_change.
  - destruct (held o b) as [[[| sid token fin | | |] s] |] eqn:Hh; try done. injection Ha as <-.
    eapply effect_owner; [done |].
    destruct (negb fin && in_running (ss_inner s)) eqn:Hd; apply change_owner; try done; destruct fin; simpl in *;
      [done | by left | by left | by right].
  - destruct (held o b) as [[[| | sid | |] s] |] eqn:Hh; try done. injection Ha as <-.
    eapply (effect_appended o (Clearing sid)); [done |]. by apply close_change.
  - destruct (held o b) as [[[sid | | | |] s] |] eqn:Hh; try done. injection Ha as <-.
    eapply (effect_session o (Held sid)); [done |]. apply emit_change.
  - destruct (held o b) as [[[sid | | | |] s] |] eqn:Hh; try done. injection Ha as <-. by apply ef_none; eauto.
  - destruct (held o b) as [[[sid | | | |] s] |] eqn:Hh; try done. injection Ha as <-.
    eapply (effect_release o (Held sid)); [done.. | |]; unfold release; by destruct (decide _).
  - destruct (bs_sessions b !! sid) as [[conv g version [| owed] log] |] eqn:Hs; try done. injection Ha as <-.
    by eapply ef_notify.
  - destruct (held o b) as [[[| | | sid [from cursor [] seen out] |] s] |] eqn:Hh; try done; injection Ha as <-;
      (eapply effect_owner; [done |]); apply reader_change; intros start prev cur _ _ [Hu Hc Hf Hs Hp]; by split.
  - destruct (held o b) as [[[| | | sid [from cursor [] seen out] |] s] |] eqn:Hh; try done. injection Ha as <-.
    eapply effect_owner; [done |]. apply reader_change. intros start prev cur Hroom Hw Hok. by eapply slice_ok.
  - destruct (held o b) as [[[| | | sid [from cursor [] seen out] |] s] |] eqn:Hh; try done.
    case_bool_decide; [done |]. injection Ha as <-.
    eapply effect_owner; [done |]. apply reader_change. intros start prev cur _ _ [Hu Hc Hf Hs Hp]; by split.
  - destruct (held o b) as [[[| | | sid r |] s] |] eqn:Hh; try done. injection Ha as <-.
    eapply effect_owner; [done |]. apply change_owner; [done | by left | done].
  - destruct (is_free o b) eqn:Hf; [| done]. apply is_free_true in Hf. destruct (negb _); [| done].
    destruct (bool_decide _); [| done]. simpl in Ha. destruct (upgrade conv b) as [sid |] eqn:Hu; injection Ha as <-.
    + apply upgrade_some in Hu as [_ Hs]. by eapply (ef_join b _ o (Pruning sid)).
    + apply ef_none; simpl; [done.. | |].
      * intros conv' sid [_ ?]%lookup_delete_Some. done.
      * intros conv' sid Hi [s Hs]. apply lookup_delete_Some. split; [| done].
        intros <-. pose proof (upgrade_none _ _ _ Hu Hi). congruence.
  - destruct (held o b) as [[[| | | | sid] s] |] eqn:Hh; try done. injection Ha as <-.
    eapply (effect_release o (Pruning sid)); [done.. | |]; simpl; unfold release; by destruct (decide _).
Qed.

(** ** The invariant *)

(** Sessions, their holders and the index. *)
Record coherent (b : Bus) : Prop := {
  co_index : ∀ sid s, bs_sessions b !! sid = Some s → bs_index b !! ss_conv s = Some sid;
  co_below : ∀ conv sid, bs_index b !! conv = Some sid → (sid < bs_next_gen b)%nat;
  co_live : ∀ o w, bs_owners b !! o = Some w → is_Some (bs_sessions b !! owner_sid w);
  co_used : ∀ sid s, bs_sessions b !! sid = Some s → ∃ o w, bs_owners b !! o = Some w ∧ owner_sid w = sid;
}.

(** The claim of a turn. *)
Record single_flight (b : Bus) : Prop := {
  sf_running : ∀ sid s, bs_sessions b !! sid = Some s →
    in_running (ss_inner s) = true ↔ ∃ o w, bs_owners b !! o = Some w ∧ owner_sid w = sid ∧ writer w = true;
  sf_one : ∀ o1 o2 w1 w2, bs_owners b !! o1 = Some w1 → bs_owners b !! o2 = Some w2 →
    writer w1 = true → writer w2 = true → owner_sid w1 = owner_sid w2 → o1 = o2;
}.

(** The logs and those who read them, after at most [n] actions. *)
Record served (n : nat) (b : Bus) : Prop := {
  se_gens : (bs_next_gen b ≤ n)%nat;
  se_length : ∀ sid s, bs_sessions b !! sid = Some s → (length (ss_log s) ≤ n)%nat;
  se_window : ∀ sid s, bs_sessions b !! sid = Some s →
    ∃ prev cur, window (starts sid) (ss_log s) prev cur (ss_inner s);
  se_reader : ∀ o sid r s, bs_owners b !! o = Some (Reading sid r) → bs_sessions b !! sid = Some s →
    reader_ok (starts sid) s r;
}.

Lemma holders_empty sid m : holders sid m = ∅ ↔ ∀ o w, m !! o = Some w → owner_sid w ≠ sid.
Proof.
  split.
  - intros He o w Hw Hs. assert (holders sid m !! o = Some w) as Hh by (by apply map_lookup_filter_Some).
    by rewrite He, lookup_empty in Hh.
  - intros H. apply map_eq. intros o. rewrite lookup_empty. apply eq_None_not_Some. intros [w Hw].
    apply map_lookup_filter_Some in Hw as [Hw Hs]. by apply (H o w).
Qed.

Lemma holders_not_empty sid m : holders sid m ≠ ∅ → ∃ o w, m !! o = Some w ∧ owner_sid w = sid.
Proof.
  intros (o & w & Hw)%map_choose. apply map_lookup_filter_Some in Hw as [Hw Hs]. by exists o, w.
Qed.

(** An index entry below the counter is never the next session. *)
Lemma coherent_fresh b sid s : coherent b → bs_sessions b !! sid = Some s → (sid < bs_next_gen b)%nat.
Proof. intros Hc Hs. eapply co_below; [done |]. by eapply co_index. Qed.

Lemma coherent_preserved b b' : coherent b → effect b b' → coherent b'.
Proof.
  intros Hc He. pose proof (coherent_fresh b) as Hfresh. pose proof Hc as [Hi Hb Hl Hu].
  destruct He as [Hs Ho Hn Hin1 Hin2 | o w s w' s' How Hsw Hch Hs Ho Hin Hn | sid conv g v owed log Hsid Hs Ho Hin Hn
    | o w How Hsw Hw Hnr Hs Ho Hin Hn | o conv How Hdead Hs Ho Hin Hn | o w How Hw Hsw Ho Hcase Hin Hn].
  - split; rewrite ?Hs, ?Ho, ?Hn; eauto.
  - destruct Hch as [Hsid Hconv _ _ _ _ _].
    split; rewrite ?Hs, ?Ho, ?Hn, ?Hin; [| done | |].
    + intros sid s0 [[<- <-] | [_ ?]]%lookup_insert_Some; [rewrite Hconv |]; eauto.
    + intros o0 w0 [[<- <-] | [_ ?]]%lookup_insert_Some; apply lookup_insert_is_Some'; [left; congruence | right; eauto].
    + intros sid s0 Hs0. assert (is_Some (bs_sessions b !! sid)) as [s1 Hs1].
      { apply lookup_insert_Some in Hs0 as [[<- _] | [_ ?]]; eauto. }
      destruct (Hu _ _ Hs1) as (o1 & w1 & Ho1 & Hw1). destruct (decide (o1 = o)) as [-> | ?].
      * exists o, w'. rewrite lookup_insert_eq. split; [done | congruence].
      * exists o1, w1. by rewrite lookup_insert_ne.
  - split; rewrite ?Hs, ?Ho, ?Hn, ?Hin; [| done | |].
    + intros sid0 s0 [[<- <-] | [_ ?]]%lookup_insert_Some; [by apply (Hi _ _ Hsid) | eauto].
    + intros o0 w0 ?. apply lookup_insert_is_Some'. right. eauto.
    + intros sid0 s0 [[<- <-] | [_ ?]]%lookup_insert_Some; eauto.
  - split; rewrite ?Hs, ?Ho, ?Hn, ?Hin; [done | done | |].
    + intros o0 w0 [[<- <-] | [_ ?]]%lookup_insert_Some; eauto.
    + intros sid s0 Hs0. destruct (Hu _ _ Hs0) as (o1 & w1 & Ho1 & Hw1). exists o1, w1.
      split; [| done]. rewrite lookup_insert_ne; [done | congruence].
  - split; rewrite ?Hs, ?Ho, ?Hn, ?Hin.
    + intros sid s0 [[<- <-] | [_ Hs0]]%lookup_insert_Some; simpl; [by rewrite lookup_insert_eq |].
      rewrite lookup_insert_ne; [eauto |]. intros ->. rewrite (Hdead sid) in Hs0; [done | eauto].
    + intros c sid [[<- <-] | [_ ?]]%lookup_insert_Some; [lia |]. transitivity (bs_next_gen b); [eauto | lia].
    + intros o0 w0 [[<- <-] | [_ ?]]%lookup_insert_Some; apply lookup_insert_is_Some'; [by left | right; eauto].
    + intros sid s0 [[<- <-] | [_ Hs0]]%lookup_insert_Some; [exists o; eexists; by rewrite lookup_insert_eq |].
      destruct (Hu _ _ Hs0) as (o1 & w1 & Ho1 & Hw1). exists o1, w1. split; [| done].
      rewrite lookup_insert_ne; [done | congruence].
  - split; rewrite ?Hn, ?Hin; [| done | |].
    + intros sid s0. destruct Hcase as [[_ ->] | [_ ->]]; [intros [_ ?]%lookup_delete_Some |]; eauto.
    + rewrite Ho. intros o0 w0 [Hne Ho0]%lookup_delete_Some. destruct Hcase as [[He ->] | [_ ->]]; [| eauto].
      rewrite lookup_delete_ne; [eauto |]. intros Heq.
      eapply holders_empty; [done | | by symmetry]. by apply lookup_delete_Some.
    + rewrite Ho. intros sid s0 Hs0.
      assert (bs_sessions b !! sid = Some s0 ∧ (sid = owner_sid w → holders sid (delete o (bs_owners b)) ≠ ∅)) as [Hs1 Hne].
      { destruct Hcase as [[He Hd] | [He Hd]]; rewrite Hd in Hs0; [| split; [done | by intros ->]].
        apply lookup_delete_Some in Hs0 as [? ?]. split; [done | congruence]. }
      destruct (decide (sid = owner_sid w)) as [-> | Hsid]; [by apply holders_not_empty, Hne |].
      destruct (Hu _ _ Hs1) as (o1 & w1 & Ho1 & Hw1). exists o1, w1. split; [| done].
      rewrite lookup_delete_ne; [done | congruence].
Qed.

(** A writer of the bus after one of its holders changed. *)
Lemma writers_insert o w w' (m : gmap nat Owner) sid :
  m !! o = Some w → owner_sid w' = owner_sid w → (sid ≠ owner_sid w ∨ writer w' = writer w) →
  (∃ o1 w1, <[o := w']> m !! o1 = Some w1 ∧ owner_sid w1 = sid ∧ writer w1 = true) ↔
  (∃ o1 w1, m !! o1 = Some w1 ∧ owner_sid w1 = sid ∧ writer w1 = true).
Proof.
  intros Ho Hs Hw. split.
  - intros (o1 & w1 & [[<- <-] | [? ?]]%lookup_insert_Some & Hs1 & Hw1); [| by exists o1, w1].
    exists o, w. split_and!; [done | congruence |]. destruct Hw as [Hw | <-]; [congruence | done].
  - intros (o1 & w1 & Ho1 & Hs1 & Hw1). destruct (decide (o1 = o)) as [-> | ?].
    + exists o, w'. rewrite lookup_insert_eq. split_and!; [done | congruence |].
      destruct Hw as [Hw | ->]; congruence.
    + exists o1, w1. by rewrite lookup_insert_ne.
Qed.

Lemma single_flight_change b b' o w s w' s' :
  coherent b → single_flight b →
  bs_owners b !! o = Some w → bs_sessions b !! owner_sid w = Some s → change w s w' s' →
  bs_sessions b' = <[owner_sid w := s']> (bs_sessions b) → bs_owners b' = <[o := w']> (bs_owners b) →
  single_flight b'.
Proof.
  intros Hc [Hr Hone] How Hsw [Hsid _ _ _ Hch _ _] Hs Ho.
  assert (Hothers : ∀ o1 w1, bs_owners b !! o1 = Some w1 → owner_sid w1 = owner_sid w → writer w1 = true →
    writer w' = true → o1 = o).
  { intros o1 w1 Ho1 Hs1 Hw1 Hw'. destruct Hch as [[He _] | [(_ & Hn & _ & _) | (_ & He & _)]].
    - eapply Hone; [done | done | done | congruence | done].
    - assert (in_running (ss_inner s) = true) as Hrun by (apply (Hr _ _ Hsw); by exists o1, w1). congruence.
    - congruence. }
  split; rewrite Ho.
  - rewrite Hs. intros sid s0 Hs0.
    destruct (decide (sid = owner_sid w)) as [-> | Hne].
    + rewrite lookup_insert_eq in Hs0. injection Hs0 as <-.
      destruct Hch as [[Hw ->] | [(Hw & _ & Hw' & ->) | (Hw & Hw' & ->)]].
      * rewrite (writers_insert o w) by auto. by apply Hr.
      * split; [| done]. intros _. exists o, w'. by rewrite lookup_insert_eq.
      * split; [done |]. intros (o1 & w1 & [[<- <-] | [Hno Ho1]]%lookup_insert_Some & Hs1 & Hw1); [congruence |].
        destruct Hno. by eapply (Hone o o1).
    + rewrite lookup_insert_ne in Hs0 by done. rewrite (writers_insert o w) by auto. by apply Hr.
  - intros o1 o2 w1 w2 [[<- <-] | [? Ho1]]%lookup_insert_Some [[<- <-] | [? Ho2]]%lookup_insert_Some Hw1 Hw2 He;
      [done | | | by eapply Hone].
    + symmetry. eapply Hothers; [done | congruence | done..].
    + eapply Hothers; [done | congruence | done..].
Qed.

(** Who is no writer does not matter. *)
Lemma writers_passive (m m' : gmap nat Owner) sid :
  (∀ o w, writer w = true → m' !! o = Some w ↔ m !! o = Some w) →
  (∃ o w, m' !! o = Some w ∧ owner_sid w = sid ∧ writer w = true) ↔
  (∃ o w, m !! o = Some w ∧ owner_sid w = sid ∧ writer w = true).
Proof. intros H. split; intros (o & w & Ho & Hs & Hw); exists o, w; split_and!; try done; by apply H. Qed.

Lemma single_flight_passive b b' :
  single_flight b →
  (∀ o w, writer w = true → bs_owners b' !! o = Some w ↔ bs_owners b !! o = Some w) →
  (∀ sid s', bs_sessions b' !! sid = Some s' →
    (∃ s, bs_sessions b !! sid = Some s ∧ in_running (ss_inner s') = in_running (ss_inner s)) ∨
    in_running (ss_inner s') = false ∧ ∀ o w, bs_owners b !! o = Some w → owner_sid w ≠ sid) →
  single_flight b'.
Proof.
  intros [Hr Hone] Hw Hs. split.
  - intros sid s' Hs'. rewrite (writers_passive (bs_owners b)) by done.
    destruct (Hs _ _ Hs') as [(s & Hs0 & ->) | [-> Hno]]; [by apply Hr |].
    split; [done |]. intros (o & w & Ho & Hsid & _). by destruct (Hno o w Ho).
  - intros o1 o2 w1 w2 Ho1 Ho2 Hw1 Hw2. apply Hw in Ho1, Ho2; [| done..]. by apply Hone.
Qed.

Lemma single_flight_preserved b b' : coherent b → single_flight b → effect b b' → single_flight b'.
Proof.
  intros Hc Hsf He.
  assert (Hsame : ∀ sid s, bs_sessions b !! sid = Some s →
    (∃ s0, bs_sessions b !! sid = Some s0 ∧ in_running (ss_inner s) = in_running (ss_inner s0)) ∨
    in_running (ss_inner s) = false ∧ ∀ o w, bs_owners b !! o = Some w → owner_sid w ≠ sid) by (intros; left; eauto).
  destruct He as [Hs Ho _ _ _ | o w s w' s' How Hsw Hch Hs Ho _ _ | sid conv g v owed log Hsid Hs Ho _ _
    | o w How Hsw Hw Hnr Hs Ho _ _ | o conv How Hdead Hs Ho _ _ | o w How Hw Hsw Ho Hcase _ _].
  - apply (single_flight_passive b); [done | by rewrite Ho | by rewrite Hs].
  - by eapply single_flight_change.
  - apply (single_flight_passive b); [done | by rewrite Ho | rewrite Hs].
    intros sid0 s0 [[<- <-] | [_ ?]]%lookup_insert_Some; [left; by eexists | by apply Hsame].
  - apply (single_flight_passive b); [done | rewrite Ho | by rewrite Hs].
    intros o1 w1 Hw1. destruct (decide (o1 = o)) as [-> | ?]; [| by rewrite lookup_insert_ne].
    rewrite lookup_insert_eq, How. split; [| done]. intros [= ->]. congruence.
  - apply (single_flight_passive b); [done | rewrite Ho | rewrite Hs].
    + intros o1 w1 Hw1. destruct (decide (o1 = o)) as [-> | ?]; [| by rewrite lookup_insert_ne].
      rewrite lookup_insert_eq, How. split; [| done]. by intros [= <-].
    + intros sid s0 [[<- <-] | [_ ?]]%lookup_insert_Some; [right | by apply Hsame].
      split; [done |]. intros o1 w1 Ho1 Heq. destruct (co_live _ Hc _ _ Ho1) as [s1 Hs1].
      apply (coherent_fresh _ _ _ Hc) in Hs1. lia.
  - apply (single_flight_passive b); [done | rewrite Ho |].
    + intros o1 w1 Hw1. destruct (decide (o1 = o)) as [-> | ?]; [| by rewrite lookup_delete_ne].
      rewrite lookup_delete_eq, How. split; [done |]. intros [= ->]. congruence.
    + intros sid s0 Hs0. apply Hsame. destruct Hcase as [[_ Hd] | [_ Hd]]; rewrite Hd in Hs0; [| done].
      by apply lookup_delete_Some in Hs0 as [_ ?].
Qed.

(** *** The logs *)

Definition room (n : nat) : Prop := Z.of_nat n < 2 ^ 32 - 2.

Lemma starts_exact sid : Z.of_nat sid < 2 ^ 32 → starts sid = Z.of_nat sid * 2 ^ 32.
Proof.
  intros H. unfold starts, generation, SEQ_BITS. rewrite Z.shiftl_mul_pow2 by lia.
  apply Z.mod_small. unfold u64_max. lia.
Qed.

Lemma room_for n sid log : room n → (sid ≤ n)%nat → (length log ≤ n)%nat → has_room (starts sid) log.
Proof.
  unfold room. intros Hn Hs Hl. unfold has_room. rewrite starts_exact by lia. unfold u64_max. lia.
Qed.

Lemma served_preserved n b b' : room n → coherent b → served n b → effect b b' → served (S n) b'.
Proof.
  intros Hn Hc [Hg Hl Hw Hrd] He. pose proof (co_live _ Hc) as Hlive.
  assert (Hroom : ∀ sid s, bs_sessions b !! sid = Some s → has_room (starts sid) (ss_log s)).
  { intros sid s Hs. apply (room_for n); [done | | eauto]. pose proof (coherent_fresh _ _ _ Hc Hs). lia. }
  assert (Hl' : ∀ sid s, bs_sessions b !! sid = Some s → (length (ss_log s) ≤ S n)%nat) by (intros; constructor; eauto).
  destruct He as [Hs Ho Hng _ _ | o w s w' s' How Hsw Hch Hs Ho _ Hng | sid conv g v owed log Hsid Hs Ho _ Hng
    | o w How Hsw Hwr Hnr Hs Ho _ Hng | o conv How Hdead Hs Ho _ Hng | o w How Hwr Hsw Ho Hcase _ Hng].
  - split; rewrite ?Hs, ?Ho, ?Hng; [lia | done..].
  - destruct Hch as [Hsid _ Hlen Hwin _ Hoth Hred]. destruct (Hw _ _ Hsw) as (prev & cur & Hwin0).
    split; rewrite ?Hs, ?Ho, ?Hng; [lia | | |].
    + intros sid s0 [[<- <-] | [_ ?]]%lookup_insert_Some; [| by eauto]. pose proof (Hl _ _ Hsw). lia.
    + intros sid s0 [[<- <-] | [_ ?]]%lookup_insert_Some; [by eauto | by eauto].
    + intros o1 sid r s0 [[<- ->] | [Hne Ho1]]%lookup_insert_Some Hs0.
      * simpl in Hsid. subst sid. rewrite lookup_insert_eq in Hs0. injection Hs0 as <-.
        eapply Hred; [done | by eauto | done |]. intros r0 Hw0. eapply (Hrd o); [by rewrite <- Hw0 | done].
      * apply lookup_insert_Some in Hs0 as [[<- <-] | [_ Hs0]]; [| by eauto]. by eauto.
  - split; rewrite ?Hs, ?Ho, ?Hng; [lia | | |].
    + intros sid0 s0 [[<- <-] | [_ ?]]%lookup_insert_Some; [apply (Hl' _ _ Hsid) | by eauto].
    + intros sid0 s0 [[<- <-] | [_ ?]]%lookup_insert_Some; [apply (Hw _ _ Hsid) | by eauto].
    + intros o1 sid0 r s0 Ho1 [[<- <-] | [_ ?]]%lookup_insert_Some; [| by eauto].
      apply reader_ok_notified. by eapply Hrd.
  - split; rewrite ?Hs, ?Ho, ?Hng; [lia | done | done |].
    intros o1 sid r s0 [[<- ->] | [_ ?]]%lookup_insert_Some ?; [by destruct (Hnr sid r) | by eauto].
  - split; rewrite ?Hs, ?Ho, ?Hng; [lia | | |].
    + intros sid0 s0 [[<- <-] | [_ ?]]%lookup_insert_Some; [simpl; lia | by eauto].
    + intros sid0 s0 [[<- <-] | [_ ?]]%lookup_insert_Some; [exists 0%nat, 0%nat; apply window_new | by eauto].
    + intros o1 sid r s0 [[_ ?] | [_ Ho1]]%lookup_insert_Some Hs0; [done |].
      apply lookup_insert_Some in Hs0 as [[<- _] | [_ Hs0]]; [| by eauto].
      destruct (Hlive _ _ Ho1) as [s1 Hs1]. simpl in Hs1. pose proof (coherent_fresh _ _ _ Hc Hs1). lia.
  - assert (Hsub : ∀ sid s0, bs_sessions b' !! sid = Some s0 → bs_sessions b !! sid = Some s0).
    { intros sid s0. destruct Hcase as [[_ ->] | [_ ->]]; [| done]. by intros [_ ?]%lookup_delete_Some. }
    split; rewrite ?Ho, ?Hng; [lia | by eauto | by eauto |].
    intros o1 sid r s0 [_ Ho1]%lookup_delete_Some ?; by eauto.
Qed.

Lemma coherent_new : coherent bus_new.
Proof. split; simpl; intros *; by rewrite ?lookup_empty. Qed.

Lemma single_flight_new : single_flight bus_new.
Proof. split; intros *; simpl; by rewrite lookup_empty. Qed.

Lemma served_new : served 0 bus_new.
Proof. split; simpl; [lia | intros *; by rewrite lookup_empty..]. Qed.

Lemma reached_invariant n b : reached n b → coherent b ∧ single_flight b ∧ (room n → served n b).
Proof.
  intros (l & <- & Hl).
  cut (∀ k b0, coherent b0 → single_flight b0 → (room k → served k b0) → acts l b0 = Some b →
    coherent b ∧ single_flight b ∧ (room (k + length l) → served (k + length l) b)).
  { intros H. apply (H 0%nat bus_new); [apply coherent_new | apply single_flight_new | intros; apply served_new | done]. }
  clear Hl. induction l as [| a l IH]; intros k b0 Hc Hsf Hse Hl; simpl in *.
  - injection Hl as ->. rewrite Nat.add_0_r. done.
  - destruct (act a b0) as [b1 |] eqn:Ha; [| done]. simpl in Hl. apply act_effect in Ha.
    replace (k + S (length l))%nat with (S k + length l)%nat by lia. apply (IH (S k) b1); [| | | done].
    + by eapply coherent_preserved.
    + by eapply single_flight_preserved.
    + intros Hr. apply (served_preserved k b0); [unfold room in *; lia | done | apply Hse; unfold room in *; lia | done].
Qed.

(** ** What the bus promises *)


(** Fact: a subscriber that comes back with a cursor [c] of the same session gets
    every frame after [c], unless two turns have begun after the frame that follows
    [c]; only then is it told to resync. *)
Theorem resync_means_two_turns n b sid s c :
  reached n b → room n → bs_sessions b !! sid = Some s → starts sid ≤ c + 1 → 0 ≤ c → c + 1 ≤ u64_max →
  read_from (Some c) (ss_inner s) = Frames (after (starts sid) (ss_log s) (Z.to_nat (c + 1 - starts sid))) ∨
  read_from (Some c) (ss_inner s) = Resync ∧
  ∃ i j, c + 1 < starts sid + Z.of_nat i ∧ (i < j)%nat ∧ begins (ss_log s) i ∧ begins (ss_log s) j.
Proof.
  intros Hr Hn Hs Hc H0 H1. destruct (reached_invariant n b Hr) as (_ & _ & Hse). specialize (Hse Hn).
  destruct (se_window _ _ Hse _ _ Hs) as (prev & cur & Hw).
  destruct (decide (starts sid + Z.of_nat prev ≤ c + 1)).
  - left. by eapply read_resumes.
  - right. split; [eapply read_resyncs; [done | done | lia | done] |].
    destruct (wi_turns _ _ _ _ _ Hw) as [-> | (Hlt & Hp & Hq)]; [lia |].
    exists prev, cur. split_and!; [lia | done..].
Qed.

(** Fact: a cursor of an earlier incarnation resyncs. *)
Theorem old_generation_resyncs n b sid s sid' i :
  reached n b → room n → bs_sessions b !! sid = Some s → (sid' < sid)%nat → (i < n)%nat →
  read_from (Some (starts sid' + Z.of_nat i)) (ss_inner s) = Resync.
Proof.
  intros Hr Hn Hs Hlt Hi. destruct (reached_invariant n b Hr) as (Hc & _ & Hse). specialize (Hse Hn).
  destruct (se_window _ _ Hse _ _ Hs) as (prev & cur & Hw).
  pose proof (coherent_fresh _ _ _ Hc Hs). pose proof (se_gens _ _ Hse). unfold room in Hn.
  assert (starts sid' + Z.of_nat i + 1 < starts sid ∧ 0 ≤ starts sid' ∧ starts sid ≤ u64_max) as (? & ? & ?).
  { rewrite !starts_exact by lia. unfold u64_max. lia. }
  eapply read_resyncs; [done | lia..].
Qed.

(** Fact: a conversation has one session and at most one turn in flight: two holders
    that may write to it are the same.  And while a turn is in flight somebody holds
    its handle, whose drop ends it, so that the claim is not lost. *)
Theorem one_turn_in_flight n b :
  reached n b →
  (∀ o1 o2 w1 w2 s1 s2, held o1 b = Some (w1, s1) → held o2 b = Some (w2, s2) →
    writer w1 = true → writer w2 = true → ss_conv s1 = ss_conv s2 → o1 = o2) ∧
  (∀ sid s, bs_sessions b !! sid = Some s →
    in_running (ss_inner s) = true ↔
    ∃ o w, bs_owners b !! o = Some w ∧ owner_sid w = sid ∧ writer w = true).
Proof.
  intros Hr. destruct (reached_invariant n b Hr) as (Hc & [Hrun Hone] & _). split; [| exact Hrun].
  intros o1 o2 w1 w2 s1 s2 [Ho1 Hs1]%held_some [Ho2 Hs2]%held_some Hw1 Hw2 Hconv.
  apply (co_index _ Hc) in Hs1, Hs2. rewrite Hconv, Hs2 in Hs1. injection Hs1 as Heq.
  by eapply Hone.
Qed.

(** Fact: a session lives exactly as long as somebody holds it, and then it is the
    one the index has for its conversation, so that callers of [get_or_create] share
    it. *)
Theorem session_lives_while_held n b sid :
  reached n b →
  (is_Some (bs_sessions b !! sid) ↔ ∃ o w, bs_owners b !! o = Some w ∧ owner_sid w = sid) ∧
  (∀ s o, bs_sessions b !! sid = Some s →
    bs_owners (get_or_create o (ss_conv s) b) !! o = Some (Held sid) ∧
    bs_sessions (get_or_create o (ss_conv s) b) = bs_sessions b).
Proof.
  intros Hr. destruct (reached_invariant n b Hr) as (Hc & _ & _). split.
  - split; [intros [s Hs]; by eapply co_used | intros (o & w & Ho & <-); by eapply co_live].
  - intros s o Hs. assert (upgrade (ss_conv s) b = Some sid) as Hu.
    { apply upgrade_some. split; [by eapply co_index | done]. }
    unfold get_or_create. rewrite Hu. simpl. by rewrite lookup_insert_eq.
Qed.

(** ** What it does not promise *)

(** A pruner that was left with the last reference while it holds the shard. *)
Definition deadlocked (b : Bus) : Prop :=
  bs_lock b = true ∧ ∀ o sid, bs_owners b !! o ≠ Some (Pruning sid).

Lemma deadlock_stays a b b' : deadlocked b → act a b = Some b' → deadlocked b'.
Proof.
  intros [Hl Hn] Ha.
  assert (Hset : ∀ o w b0, bs_owners b0 = bs_owners b → bs_lock b0 = true → (∀ sid, w ≠ Pruning sid) →
    deadlocked (set_owner o w b0)).
  { intros o w b0 Ho Hl0 Hw. split; [done |]. simpl. rewrite Ho.
    intros o1 sid [[_ ?] | [_ ?]]%lookup_insert_Some; [by eapply Hw | by eapply Hn]. }
  destruct a; simpl in Ha; rewrite ?Hl, ?andb_false_r in Ha; try done;
    repeat case_match; simplify_eq; try done; try (by apply Hset); try (by split).
  - split; [done |]. simpl. intros o1 sid1 [[_ ?] | [_ ?]]%lookup_insert_Some; [done | by eapply Hn].
  - unfold release. split; destruct (decide (holders _ _ = _)); simpl; try done; intros o1 sid1 [_ ?]%lookup_delete_Some; by eapply Hn.
  - match goal with H : held _ _ = _ |- _ => apply held_some in H as [Hp _]; by destruct (Hn _ _ Hp) end.
Qed.

Definition deadlock : list Action := [
  GetOrCreate 0 "c"; Release 0;        (* the first session is freed ... *)
  GetOrCreate 1 "c";                   (* ... and replaced before it is pruned *)
  Prune 2 "c"; Release 1;              (* the pruner holds the new one, now alone *)
  PruneDrop 2 ].

(** Fact: a subscriber can block the map for good.  [Drop for Session] upgrades the
    entry inside [remove_if], and when every other holder lets go meanwhile, the
    upgraded reference is the last one: its drop asks for the shard lock that the
    pruner holds, and no later call on the shard ever answers. *)
Theorem prune_can_deadlock :
  ∃ b, acts deadlock bus_new = Some b ∧
    ∀ l b' o conv, acts l b = Some b' → act (GetOrCreate o conv) b' = None.
Proof.
  destruct (acts deadlock bus_new) as [b |] eqn:Hb; [| by vm_compute in Hb]. exists b. split; [done |].
  assert (Hd : deadlocked b).
  { assert (bs_lock <$> acts deadlock bus_new = Some true ∧ bs_owners <$> acts deadlock bus_new = Some ∅) as [Hlock Ho]
      by (split; vm_compute; reflexivity).
    rewrite Hb in Hlock, Ho. injection Hlock as Hlock. injection Ho as Ho.
    split; [done |]. intros o sid. by rewrite Ho, lookup_empty. }
  clear Hb. intros l. revert b Hd. induction l as [| a l IH]; intros b Hd b' o conv Hl; simpl in Hl.
  - injection Hl as <-. simpl. destruct Hd as [-> _]. by rewrite andb_false_r.
  - destruct (act a b) as [b1 |] eqn:Ha; [| done]. simpl in Hl.
    eapply IH; [by eapply deadlock_stays | done].
Qed.

(** A tab opens the stream of an idle conversation and parks; a turn begins and ends. *)
Definition short_turn : list Action := [
  GetOrCreate 0 "c"; Subscribe 0 None; Poll 0; Poll 0; Slice 0;
  GetOrCreate 1 "c"; TryBegin 1 "user_message" 0; Notify 0; Terminate 1 "finish"; Notify 0;
  Wake 0; Poll 0; Slice 0 ].

(** Fact: the subscriber has been woken, has read, is parked with nothing to come
    and was sent neither the turn nor a resync. *)
Theorem fresh_subscriber_misses_turn :
  ∃ b s r, acts short_turn bus_new = Some b ∧ bs_sessions b !! 0%nat = Some s ∧
    bs_owners b !! 0%nat = Some (Reading 0 r) ∧
    map snd (ss_log s) = ["user_message"; "finish"] ∧
    rd_phase r = Parked ∧ rd_seen r = ss_version s ∧ ss_owed s = 0%nat ∧ rd_out r = [].
Proof. do 3 eexists. repeat (split; [vm_compute; reflexivity |]). vm_compute. reflexivity. Qed.

(** A conversation of one turn, whose subscriber got the first frame of it. *)
Definition one_turn (extra : list string) : list Action :=
  [GetOrCreate 0 "c"; Subscribe 0 None; Poll 0; GetOrCreate 1 "c"; TryBegin 1 "user_message" 0] ++
  map (Append 1) extra ++ [Poll 0; Slice 0].

(** Fact: the generations begin again with the process.  A client that was sent
    cursor 0 and comes back after a restart is not told to resync, though the turn
    it finds is another one: it gets that turn without its first frame. *)
Theorem restart_is_not_seen :
  ∃ b r b' s', acts (one_turn []) bus_new = Some b ∧ bs_owners b !! 0%nat = Some (Reading 0 r) ∧
    rd_out r = [Sent 0 "user_message"] ∧
    acts (one_turn ["text"]) bus_new = Some b' ∧ bs_sessions b' !! 0%nat = Some s' ∧
    read_from (rd_cursor r) (ss_inner s') = Frames [(1, "text")].
Proof. do 4 eexists. repeat (split; [vm_compute; reflexivity |]). vm_compute. reflexivity. Qed.

