(* ===== verification/OldChunk.v ===== *)
(** * Text with its place, and chunks, of the previous back end

    old/backend/src/text_extractor (the parser of what pdftotext prints) and
    old/backend/src/chunker: from the layout of a PDF to words with their boxes, and
    from words to overlapping chunks.  An [f64] is a [spec_float] of 53 bits, with
    the operations of IEEE 754; an index of a slice is a [nat]. *)

From Stdlib Require Import SpecFloat.
From S2P Require Import Prelude Text.

Local Open Scope Z_scope.

(** ** [f64] *)

Definition f64_add : spec_float → spec_float → spec_float := SFadd 53 1024.
Definition f64_sub : spec_float → spec_float → spec_float := SFsub 53 1024.
Definition f64_mul : spec_float → spec_float → spec_float := SFmul 53 1024.

Definition f64_zero : spec_float := S754_zero false.
Definition f64_one : spec_float := binary_normalize 53 1024 1 0 false.
Definition f64_half : spec_float := binary_normalize 53 1024 1 (-1) false.

(** [f64::max] and [f64::min], which leave a NaN out. *)
Definition f64_max (a b : spec_float) : spec_float :=
  match a, b with
  | S754_nan, _ => b
  | _, S754_nan => a
  | _, _ => if SFltb a b then b else a
  end.

Definition f64_min (a b : spec_float) : spec_float :=
  match a, b with
  | S754_nan, _ => b
  | _, S754_nan => a
  | _, _ => if SFltb b a then b else a
  end.

(** The decimal [m * 10 ^ e], rounded to nearest even: a quotient of integers of any
    size is rounded once. *)
Definition f64_of_decimal (negative : bool) (m e : Z) : spec_float :=
  match m with
  | Zpos p =>
      if 0 <=? e then binary_round 53 1024 negative (p * Z.to_pos (10 ^ e)) 0
      else SFdiv 53 1024 (S754_finite negative p 0) (S754_finite false (Z.to_pos (10 ^ (- e))) 0)
  | _ => S754_zero negative
  end.

(** The longest prefix of characters that satisfy [f], and the rest. *)
Fixpoint span (f : ascii → bool) (s : string) : string * string :=
  match s with
  | EmptyString => (EmptyString, EmptyString)
  | String c s' => if f c then let '(p, r) := span f s' in (String c p, r) else (EmptyString, s)
  end.

(** An optional sign, which is [true] for a minus. *)
Definition sign_of (s : string) : bool * string :=
  match strip_prefix "-" s with
  | Some s => (true, s)
  | None => (false, default s (strip_prefix "+" s))
  end.

(** The exponent, which ends the number. *)
Definition exponent_of (s : string) : option Z :=
  match s with
  | EmptyString => Some 0
  | String c s =>
      if Ascii.eqb (ascii_lower c) "e" then
        let '(negative, s) := sign_of s in
        if is_empty s then None else (λ n, if negative : bool then - n else n) <$> parse_digits s
      else None
  end.

(** [str::parse::<f64>]. *)
Definition parse_f64 (s : string) : option spec_float :=
  let '(negative, s) := sign_of s in
  let lower := to_ascii_lowercase s in
  if String.eqb lower "inf" || String.eqb lower "infinity" then Some (S754_infinity negative)
  else if String.eqb lower "nan" then Some S754_nan
  else
    let '(int, s) := span is_digit s in
    let '(frac, s) := match strip_prefix "." s with Some s => span is_digit s | None => (EmptyString, s) end in
    if is_empty (int +:+ frac) then None
    else
      m ← parse_digits (int +:+ frac);
      e ← exponent_of s;
      Some (f64_of_decimal negative m (e - Z.of_nat (String.length frac))).

(** ** Words

    [mkWord page x y w h text]: the box in points, from the bottom left. *)
Record Word : Type := mkWord {
  wd_page : Z;
  wd_x : spec_float;
  wd_y : spec_float;
  wd_w : spec_float;
  wd_h : spec_float;
  wd_text : string;
}.

(** *** Entities *)

Definition hex_digit (a : ascii) : option Z :=
  let b := byte_of_ascii (ascii_lower a) in
  if (48 <=? b) && (b <=? 57) then Some (b - 48)
  else if (97 <=? b) && (b <=? 102) then Some (b - 87)
  else None.

(** [u32::from_str_radix(_, 16)] *)
Fixpoint hex_digits (acc : Z) (s : string) : option Z :=
  match s with
  | EmptyString => Some acc
  | String c s => d ← hex_digit c; hex_digits (acc * 16 + d) s
  end.

Definition parse_hex_u32 (s : string) : option Z :=
  let s := default s (strip_prefix "+" s) in
  if is_empty s then None else check_range 0 u32_max (hex_digits 0 s).

(** [char::from_u32] of [parse::<u32>] or its hexadecimal. *)
Definition char_reference (s : string) : option string :=
  let code :=
    match strip_prefix "x" s with
    | Some hex => parse_hex_u32 hex
    | None => check_range 0 u32_max (parse_u64 s)
    end in
  c ← code; if is_scalarb c then Some (utf8_char c EmptyString) else None.

Definition quote_char : ascii := Ascii.ascii_of_nat 34.

(** What stands for [entity], if it is one. *)
Definition entity_text (entity : string) : option string :=
  if String.eqb entity "amp" then Some "&"
  else if String.eqb entity "lt" then Some "<"
  else if String.eqb entity "gt" then Some ">"
  else if String.eqb entity "quot" then Some (String quote_char EmptyString)
  else if String.eqb entity "apos" then Some "'"
  else strip_prefix "#" entity ≫= char_reference.

(** [decode_from n s]: what is written for [s], of which the first [n] bytes belong to
    an entity already written. *)
Fixpoint decode_from (n : nat) (s : string) : string :=
  match s with
  | EmptyString => EmptyString
  | String c s' =>
      match n with
      | S n => decode_from n s'
      | O =>
          if Ascii.eqb c "&" then
            match split_once ";" s' with
            | Some (entity, _) =>
                match entity_text entity with
                | Some r => r +:+ decode_from (String.length entity + 1) s'
                | None => String c (decode_from 0 s')
                end
            | None => String c (decode_from 0 s')
            end
          else String c (decode_from 0 s')
      end
  end.

Definition decode_entities (s : string) : string := if has_char "&" s then decode_from 0 s else s.

(** *** The layout *)

Definition is_ascii_whitespace (a : ascii) : bool :=
  existsb (Z.eqb (byte_of_ascii a)) [9; 10; 12; 13; 32].

Definition is_attr_name (a : ascii) : bool := negb (Ascii.eqb a "=" || is_ascii_whitespace a).

(** The value at the start of [s], with what follows it. *)
Definition attr_value (s : string) : string * string :=
  match s with
  | String q s' =>
      if Ascii.eqb q quote_char || Ascii.eqb q "'" then
        match split_once q s' with
        | Some vr => vr
        | None => (s', EmptyString)
        end
      else span (λ c, negb (is_ascii_whitespace c)) s
  | EmptyString => (EmptyString, EmptyString)
  end.

(** The loop of [parse_attr_f64], which consumes a name each time. *)
Fixpoint find_attr (fuel : nat) (s attr : string) : option spec_float :=
  match fuel with
  | O => None
  | S fuel =>
      let s := (span is_ascii_whitespace s).2 in
      if is_empty s then None
      else
        let '(name, s) := span is_attr_name s in
        if is_empty name then None
        else
          let s := (span (λ c, Ascii.eqb c "=" || is_ascii_whitespace c) s).2 in
          if is_empty s then None
          else
            let '(value, s) := attr_value s in
            if String.eqb (to_ascii_lowercase name) (to_ascii_lowercase attr) then parse_f64 value
            else find_attr fuel s attr
  end.

Definition parse_attr_f64 (tag_body attr_lower : string) : option spec_float :=
  let s := (span (λ c, negb (is_ascii_whitespace c)) tag_body).2 in
  find_attr (S (String.length s)) s attr_lower.

(** The part of [s] before its first white space or slash, in lower case. *)
Fixpoint before_name_end (cs : list Z) : list Z :=
  match cs with
  | [] => []
  | c :: cs => if is_whitespace c || (c =? 47) then [] else c :: before_name_end cs
  end.

Definition tag_name (tag_body : string) : string :=
  to_ascii_lowercase (collect (before_name_end (chars tag_body))).

Definition attr_or_zero (tag_body attr : string) : spec_float := default f64_zero (parse_attr_f64 tag_body attr).

(** A word of the page, from its tag and its text. *)
Definition word_of (page : Z) (height : spec_float) (tag_body text : string) : Word :=
  let x_min := attr_or_zero tag_body "xmin" in
  let y_min := attr_or_zero tag_body "ymin" in
  let x_max := attr_or_zero tag_body "xmax" in
  let y_max := attr_or_zero tag_body "ymax" in
  mkWord (Z.max page 1) x_min (f64_max (f64_sub height y_max) f64_zero)
    (f64_max (f64_sub x_max x_min) f64_zero) (f64_max (f64_sub y_max y_min) f64_zero) text.

(** The loop of [parse_bbox_layout_html], which consumes a tag each time: [page] and
    [height] are those of the last page tag. *)
Fixpoint parse_tags (fuel : nat) (page : Z) (height : spec_float) (html : string) : list Word :=
  match fuel with
  | O => []
  | S fuel =>
      match split_once "<" html with
      | None => []
      | Some (_, html) =>
          match split_once ">" html with
          | None => []
          | Some (tag_body, html) =>
              if starts_with tag_body "/" then parse_tags fuel page height html
              else if String.eqb (tag_name tag_body) "page"
              then parse_tags fuel (page + 1) (attr_or_zero tag_body "height") html
              else if String.eqb (tag_name tag_body) "word" then
                match split_once "<" html with
                | None => []
                | Some (text_raw, after_lt) =>
                    let text := decode_entities (trim text_raw) in
                    let words := parse_tags fuel page height (String "<" after_lt) in
                    if is_empty text then words else word_of page height tag_body text :: words
                end
              else parse_tags fuel page height html
          end
      end
  end.

Definition parse_bbox_layout_html (html : string) : list Word := parse_tags (S (String.length html)) 0 f64_zero html.

(** ** Chunks *)

(** [surrealdb::types::RecordId]: the table and the key. *)
Definition RecordId : Type := string * string.

Record Bbox : Type := mkBbox {
  bb_page : Z;
  bb_x : spec_float;
  bb_y : spec_float;
  bb_w : spec_float;
  bb_h : spec_float;
}.

(** A row of the table [chunk]; an embedding is a vector of [f32]. *)
Record Chunk : Type := mkChunk {
  ck_id : option RecordId;
  ck_doc : option RecordId;
  ck_ordinal : Z;
  ck_char_start : Z;
  ck_char_end : Z;
  ck_bboxes : option (list Bbox);
  ck_text : string;
  ck_embedding : list spec_float;
  ck_embedding_model : string;
  ck_chunk_strategy : string;
}.

Record ChunkConfig : Type := mkChunkConfig {
  cc_size_tokens : nat;
  cc_overlap_tokens : nat;
  cc_strategy : string;
}.

Definition default_chunk_config : ChunkConfig := mkChunkConfig 400 50 "v1-fixed-overlap".

Record ChunkOut : Type := mkChunkOut {
  co_ordinal : Z;
  co_text : string;
  co_char_start : Z;
  co_char_end : Z;
  co_bboxes : list Bbox;
}.

(** Whether [next] is on the line that [first] began. *)
Definition on_line (first next : Word) : bool :=
  let eps := f64_mul (f64_max (wd_h first) f64_one) f64_half in
  (wd_page next =? wd_page first) && SFleb (SFabs (f64_sub (wd_y next) (wd_y first))) eps.

(** The lines of [rest], after the words [line] that [first] began. *)
Fixpoint lines_from (first : Word) (line rest : list Word) : list (list Word) :=
  match rest with
  | [] => [line]
  | next :: rest =>
      if on_line first next then lines_from first (line ++ [next]) rest
      else line :: lines_from next [next] rest
  end.

Definition lines (words : list Word) : list (list Word) :=
  match words with [] => [] | first :: rest => lines_from first [first] rest end.

(** The union of the boxes of a line. *)
Definition line_bbox (line : list Word) : Bbox :=
  let x_min := foldl (λ m w, f64_min m (wd_x w)) (S754_infinity false) line in
  let y_min := foldl (λ m w, f64_min m (wd_y w)) (S754_infinity false) line in
  let x_max := foldl (λ m w, f64_max m (f64_add (wd_x w) (wd_w w))) (S754_infinity true) line in
  let y_max := foldl (λ m w, f64_max m (f64_add (wd_y w) (wd_h w))) (S754_infinity true) line in
  mkBbox (from_option wd_page 0 (head line)) x_min y_min
    (f64_max (f64_sub x_max x_min) f64_zero) (f64_max (f64_sub y_max y_min) f64_zero).

Definition newline : string := String (Ascii.ascii_of_nat 10) EmptyString.

Definition render_slice (words : list Word) : string * list Bbox :=
  (String.concat newline (map (λ line, String.concat " " (map wd_text line)) (lines words)), map line_bbox (lines words)).

(** One turn of the loop of [chunk_words]. *)
Definition chunk_at (words : list Word) (size : nat) (ord : Z) (start : nat) : ChunkOut :=
  let '(text, bboxes) := render_slice (take size (drop start words)) in
  mkChunkOut ord text 0 (Z.of_nat (String.length text)) bboxes.

(** The loop from [start]; [fuel] bounds its turns. *)
Fixpoint chunk_loop (fuel : nat) (words : list Word) (size step : nat) (ord : Z) (start : nat) : list ChunkOut :=
  match fuel with
  | O => []
  | S fuel =>
      chunk_at words size ord start ::
      (if (length words <=? start + size)%nat then []
       else chunk_loop fuel words size step (ord + 1) (start + step))
  end.

Definition window_size (cfg : ChunkConfig) : nat := Nat.max (cc_size_tokens cfg) 1.
Definition window_overlap (cfg : ChunkConfig) : nat := Nat.min (cc_overlap_tokens cfg) (window_size cfg - 1).

Definition chunk_words (words : list Word) (cfg : ChunkConfig) : list ChunkOut :=
  match words with
  | [] => []
  | _ => chunk_loop (length words) words (window_size cfg) (window_size cfg - window_overlap cfg) 0 0
  end.

(** ** Examples *)

Definition page : string :=
  "<doc><page width='612.0' height='792.0'><flow><block><line>" +:+
  "<word xMin='72.0' yMin='90.5' xMax='100.25' yMax='102.5'>Fish</word>" +:+
  "<word xMin='104' yMin='90.5' xMax='1.2e2' yMax='102.5'>&amp;</word></line>" +:+
  "<line><word xMin='72.0' yMin='110' xMax='90' yMax='122'> chips&#33; </word><word> </word></line></block></flow></page></doc>".

(** ** Properties of the parser *)

(** What an XML writer makes of a text. *)
Definition escape_char (c : ascii) : string :=
  if Ascii.eqb c "&" then "&amp;"
  else if Ascii.eqb c "<" then "&lt;"
  else if Ascii.eqb c ">" then "&gt;"
  else if Ascii.eqb c quote_char then "&quot;"
  else if Ascii.eqb c "'" then "&apos;"
  else String c EmptyString.

Fixpoint escape (s : string) : string :=
  match s with EmptyString => EmptyString | String c s => escape_char c +:+ escape s end.

Lemma decode_from_escape_char c s : decode_from 0 (escape_char c +:+ s) = String c (decode_from 0 s).
Proof. by destruct c as [[] [] [] [] [] [] [] []]. Qed.

(** Fact: what a writer escaped is read back, whatever the text. *)
Theorem decode_escape s : decode_entities (escape s) = s.
Proof.
  unfold decode_entities. destruct (has_char "&" (escape s)) eqn:Hc.
  - clear Hc. induction s as [| c s IH]; [done |]. cbn [escape]. by rewrite decode_from_escape_char, IH.
  - induction s as [| c s IH]; [done |]. cbn [escape] in Hc |- *. rewrite has_char_app in Hc.
    apply orb_false_iff in Hc as [Hh Ht]. rewrite IH by done.
    by destruct c as [[] [] [] [] [] [] [] []].
Qed.

Lemma f64_max_zero x : SFltb (f64_max x f64_zero) f64_zero = false.
Proof. destruct x as [[] | [] | | [] m e]; done. Qed.

(** A word of a page from [page] on, with a text and a box that does not begin below
    the page and is not turned inside out. *)
Record placed (page : Z) (w : Word) : Prop := {
  pl_page : Z.max page 1 ≤ wd_page w;
  pl_text : is_empty (wd_text w) = false;
  pl_y : SFltb (wd_y w) f64_zero = false;
  pl_w : SFltb (wd_w w) f64_zero = false;
  pl_h : SFltb (wd_h w) f64_zero = false;
}.

Lemma placed_mono page page' w : page ≤ page' → placed page' w → placed page w.
Proof. intros Hp [? ? ? ? ?]. split; [lia | done..]. Qed.

Lemma parse_tags_placed fuel page height html :
  Forall (placed page) (parse_tags fuel page height html) ∧
  StronglySorted Z.le (map wd_page (parse_tags fuel page height html)).
Proof.
  revert page height html. induction fuel as [| fuel IH]; intros page height html; cbn [parse_tags];
    [split; constructor |].
  destruct (split_once "<" html) as [[? html1] |]; [| split; constructor].
  destruct (split_once ">" html1) as [[tag html2] |]; [| split; constructor].
  destruct (starts_with tag "/"); [apply IH |].
  destruct (String.eqb (tag_name tag) "page").
  { destruct (IH (page + 1) (attr_or_zero tag "height") html2) as [Hp Hs]. split; [| exact Hs].
    eapply Forall_impl; [exact Hp |]. intros w. apply placed_mono. lia. }
  destruct (String.eqb (tag_name tag) "word"); [| apply IH].
  destruct (split_once "<" html2) as [[raw after] |]; [| split; constructor].
  destruct (IH page height (String "<" after)) as [Hp Hs].
  destruct (is_empty _) eqn:He; [by split |]. split.
  - constructor; [| done]. split; [done | exact He | apply f64_max_zero..].
  - constructor; [exact Hs |]. apply Forall_map. eapply Forall_impl; [exact Hp |]. intros w [Hw _ _ _ _]. exact Hw.
Qed.

(** Fact: whatever pdftotext printed, every word that is read has a text and a page,
    no box has a negative side or begins below its page, and the words come page by
    page. *)
Theorem parsed_words_are_placed html :
  Forall (placed 1) (parse_bbox_layout_html html) ∧ StronglySorted Z.le (map wd_page (parse_bbox_layout_html html)).
Proof.
  destruct (parse_tags_placed (S (String.length html)) 0 f64_zero html) as [Hp Hs]. split; [| exact Hs].
  eapply Forall_impl; [exact Hp |]. intros w [? ? ? ? ?]. split; [lia | done..].
Qed.

(** The words of a page of the layout, as an example. *)
Example page_words :
  map (λ w, (wd_page w, wd_text w)) (parse_bbox_layout_html page) = [(1, "Fish"); (1, "&"); (1, "chips!")].
Proof. vm_compute. reflexivity. Qed.

(** ** Properties of the chunker *)

Lemma lines_from_spec first line rest :
  head line = Some first → Forall (λ w, wd_page w = wd_page first) line →
  concat (lines_from first line rest) = line ++ rest ∧
  Forall (λ l, ∃ w, head l = Some w ∧ Forall (λ w', wd_page w' = wd_page w) l) (lines_from first line rest).
Proof.
  revert first line. induction rest as [| next rest IH]; intros first line Hh Hl; cbn [lines_from concat].
  - rewrite !app_nil_r. split; [done |]. repeat constructor. by exists first.
  - destruct (on_line first next) eqn:Ho.
    + destruct (IH first (line ++ [next])) as [Hc Hf]; [by destruct line | |].
      * apply Forall_app. split; [done |]. constructor; [| constructor].
        unfold on_line in Ho. apply andb_true_iff in Ho as [Ho%Z.eqb_eq _]. done.
      * rewrite Hc, <- app_assoc. by split.
    + destruct (IH next [next]) as [Hc Hf]; [done | by repeat constructor |].
      cbn [concat]. rewrite Hc. split; [done |]. constructor; [by exists first | done].
Qed.

(** Fact: the lines of a slice are the slice cut in order, each with a word and on one
    page. *)
Theorem lines_partition words :
  concat (lines words) = words ∧
  Forall (λ l, ∃ w, head l = Some w ∧ Forall (λ w', wd_page w' = wd_page w) l) (lines words).
Proof.
  destruct words as [| first rest]; [by split |]. unfold lines.
  destruct (lines_from_spec first [first] rest) as [Hc Hf]; [done | by repeat constructor |]. by split.
Qed.

(** The number of steps from [d] words short of the end. *)
Definition steps (step d : nat) : nat := (d + step - 1) / step.

Lemma steps_zero step : (0 < step)%nat → steps step 0 = 0%nat.
Proof. intros H. unfold steps. apply Nat.div_small. lia. Qed.

Lemma steps_succ step d : (0 < step)%nat → (0 < d)%nat → steps step d = S (steps step (d - step)).
Proof.
  intros Hs Hd. unfold steps. destruct (decide (step ≤ d)%nat).
  - replace (d + step - 1)%nat with ((d - step + step - 1) + 1 * step)%nat by lia.
    rewrite Nat.div_add by lia. lia.
  - replace (d - step)%nat with 0%nat by lia. rewrite Nat.add_0_l, (Nat.div_small (step - 1)) by lia.
    symmetry. apply (Nat.div_unique _ _ 1 (d - 1)); lia.
Qed.

Lemma steps_le step d : (0 < step)%nat → (steps step d ≤ d)%nat.
Proof.
  intros Hs. induction d as [d IH] using lt_wf_ind. destruct (decide (d = 0%nat)) as [-> | Hd]; [by rewrite steps_zero |].
  rewrite steps_succ by lia. specialize (IH (d - step)%nat ltac:(lia)). lia.
Qed.

Lemma chunk_loop_windows words size step fuel start ord :
  (0 < step)%nat → (steps step (length words - (start + size)) < fuel)%nat →
  chunk_loop fuel words size step ord start =
  map (λ k, chunk_at words size (ord + Z.of_nat k) (start + k * step))
    (seq 0 (S (steps step (length words - (start + size))))).
Proof.
  intros Hs. revert start ord. induction fuel as [| fuel IH]; intros start ord Hf; [lia |]. cbn [chunk_loop].
  cbn [seq map]. f_equal; [by rewrite Z.add_0_r, Nat.add_0_r |].
  destruct (length words <=? start + size)%nat eqn:He; [apply Nat.leb_le in He | apply Nat.leb_gt in He].
  - replace (length words - (start + size))%nat with 0%nat by lia. by rewrite steps_zero.
  - rewrite (steps_succ step) in * by lia.
    replace (length words - (start + size) - step)%nat with (length words - (start + step + size))%nat in * by lia.
    rewrite IH by lia. rewrite <- (seq_shift _ 0), map_map. apply map_ext. intros k. f_equal; lia.
Qed.

Lemma steps_spec step d k : (0 < step)%nat → (k < steps step d)%nat ↔ (k * step < d)%nat.
Proof.
  intros Hs. unfold steps. split; intros H.
  - pose proof (Nat.Div0.mul_div_le (d + step - 1) step). nia.
  - apply Nat.div_le_lower_bound; lia.
Qed.

(** How many chunks there are, and the words of chunk [k]. *)
Definition chunk_count (words : list Word) (cfg : ChunkConfig) : nat :=
  match words with
  | [] => 0
  | _ => S (steps (window_size cfg - window_overlap cfg) (length words - window_size cfg))
  end.

Definition chunk_start (cfg : ChunkConfig) (k : nat) : nat := k * (window_size cfg - window_overlap cfg).

Definition chunk_window (words : list Word) (cfg : ChunkConfig) (k : nat) : list Word :=
  take (window_size cfg) (drop (chunk_start cfg k) words).

(** Fact: the chunks are windows of the words, at most [size_tokens] long, that leave
    no word out, and none begins where the words have ended: neighbours share
    exactly the overlap, and only the last, which ends the words, can be shorter. *)
Theorem chunks_are_windows words cfg :
  let size := window_size cfg in
  let overlap := window_overlap cfg in
  chunk_words words cfg = map (λ k, chunk_at words size (Z.of_nat k) (chunk_start cfg k)) (seq 0 (chunk_count words cfg)) ∧
  (∀ i, (i < length words)%nat →
    ∃ k, (k < chunk_count words cfg)%nat ∧ (chunk_start cfg k ≤ i < chunk_start cfg k + size)%nat) ∧
  (∀ k, (S k < chunk_count words cfg)%nat →
    length (chunk_window words cfg k) = size ∧
    drop (size - overlap) (chunk_window words cfg k) = take overlap (chunk_window words cfg (S k)) ∧
    length (take overlap (chunk_window words cfg (S k))) = overlap) ∧
  (∀ k, S k = chunk_count words cfg → (chunk_start cfg k < length words ≤ chunk_start cfg k + size)%nat).
Proof.
  unfold chunk_window, chunk_count, chunk_start. cbv zeta. set (size := window_size cfg). set (overlap := window_overlap cfg).
  assert (0 < size ∧ overlap < size)%nat as [Hsize Hover].
  { unfold size, overlap, window_overlap, window_size. lia. }
  destruct words as [| w0 words0] eqn:Hw; [split_and!; [done | simpl; lia..] |].
  assert (chunk_words words cfg = chunk_loop (length words) words size (size - overlap) 0 0) as Hloop by by rewrite Hw.
  rewrite <- Hw, Hloop. assert (0 < length words)%nat as Hlen by (rewrite Hw; simpl; lia). clear Hw w0 words0 Hloop.
  assert (step_pos : (0 < size - overlap)%nat) by lia. assert (size - overlap ≤ size)%nat by lia.
  assert (size = (size - overlap) + overlap)%nat as Hsum by lia.
  set (step := (size - overlap)%nat) in *. clearbody size overlap step.
  assert (Hend : ∀ k, (k < steps step (length words - size))%nat ↔ (k * step + size < length words)%nat).
  { intros k. rewrite steps_spec by done. lia. }
  split_and!.
  - apply chunk_loop_windows; [done |]. pose proof (steps_le step (length words - (0 + size)) step_pos). lia.
  - intros i Hi. pose proof (Nat.Div0.mul_div_le i step). pose proof (Nat.mul_succ_div_gt i step ltac:(lia)).
    destruct (decide (i / step < steps step (length words - size))%nat) as [Hk | Hk].
    + exists (i / step)%nat. nia.
    + exists (steps step (length words - size)). specialize (Hend (steps step (length words - size))). nia.
  - intros k Hk%Nat.succ_lt_mono%Hend. split; [rewrite length_take, length_drop; lia |].
    rewrite take_take, Nat.min_l by lia. rewrite Hsum at 1. rewrite <- take_drop_commute, drop_drop.
    replace (k * step + step)%nat with (S k * step)%nat by lia. split; [done |].
    rewrite length_take, length_drop. lia.
  - intros k [= ->]. set (n := steps _ _) in *. pose proof (Hend n).
    destruct n as [| n]; [lia |]. specialize (Hend n). lia.
Qed.
