(* ===== verification/OldTurn.v ===== *)
(** * Chat turns of the previous back end

    old/backend/src/chat/worker.rs and the chat endpoints that start a turn, follow
    it and stop it (old/backend/src/api): the turn as a program over its calls of the
    database, the models and the turn bus (OldBus.v).  Errors are their texts.
    The prompt of a title and the cleaning of its
    answer are the code of ChatWorker.v, which was taken from here. *)

From S2P Require Import Prelude Text OldChunk ChatWorker.

Local Open Scope Z_scope.

(** ** Frames

    What serde_json writes into a frame, and [ToSql::to_sql] of surrealdb. *)
Record CitationEntry : Type := mkCitation {
  ce_n : Z;
  ce_chunk_id : string;
  ce_doc_id : string;
  ce_doc_title : option string;
  ce_page : option Z;
}.

Class SseJson := {
  to_sql : RecordId → string;
  json_string : string → string;
  json_user_message (id content : string) : string;
  json_citations : list CitationEntry → string;
  json_finish (reason assistant_message_id : string) : string;
}.

Definition frame (name data : string) : string :=
  "event: " +:+ name +:+ newline +:+ "data: " +:+ data +:+ newline +:+ newline.

Section frames.
Context {J : SseJson}.
Definition user_message (id content : string) : string := frame "user_message" (json_user_message id content).
Definition text (s : string) : string := frame "text" (json_string s).
Definition citations (entries : list CitationEntry) : string := frame "citations" (json_citations entries).
Definition error (msg : string) : string := frame "error" (json_string msg).
Definition finish (reason assistant_message_id : string) : string :=
  frame "finish" (json_finish reason assistant_message_id).
Definition clear : string := frame "clear" "null".
Definition title (t : string) : string := frame "title" (json_string t).
End frames.

(** ** The calls *)

Record ChatMessage : Type := mkMessage {
  cm_id : option RecordId;
  cm_role : string;
  cm_content : string;
}.

Record ChunkSearchResult : Type := mkHit { hit_doc_id : RecordId; hit_ordinal : Z }.

Record TurnRequest : Type := mkRequest {
  rq_conversation_id : RecordId;
  rq_user_message_id : string;
  rq_user_text : string;
  rq_parent_id : option RecordId;
  rq_bearer : string;
  rq_has_embedder : bool;
}.

Record Commit : Type := mkCommit {
  co_conversation : RecordId;
  co_user_message_id : string;
  co_user_text : string;
  co_parent_id : option RecordId;
  co_assistant_text : string;
  co_citations : list CitationEntry;
}.

(** How the biased [select!] answers: the cancel token first, then the stream. *)
Inductive Selected : Type :=
| Cancelled
| Item (item : option (result LlmDelta string)).

Inductive TurnE {Vec : Type} : Type → Type :=
| Acquire (bearer : string) : TurnE (result unit string)
| ListMessages (conversation : RecordId) : TurnE (result (list ChatMessage) string)
| GetConversation (conversation : RecordId) : TurnE (result (option (option string)) string)
| EmbedQuery (query : string) : TurnE (result Vec string)
| SearchVector (qv : Vec) (top_k : Z) : TurnE (result (list ChunkSearchResult) string)
| ListChunksInRange (doc_id : RecordId) (lo hi : Z) : TurnE (result (list Chunk) string)
| GetDocument (doc_id : RecordId) : TurnE (result (option (option string)) string)
| StreamChat (prompt : list LlmMessage) : TurnE (result unit string)
| Select : TurnE Selected
| HandleAppend (f : string) : TurnE unit
| HandleTerminate (f : string) : TurnE unit
| CommitTurn (commit : Commit) : TurnE (result RecordId string)
| SpawnTitle (user_msg assistant_msg : string) : TurnE unit
| NextDelta : TurnE (option (result LlmDelta string))
| RenameConversation (conversation : RecordId) (title : string) : TurnE (result unit string)
| BusEmit (conversation : RecordId) (f : string) : TurnE unit.
Arguments TurnE : clear implicits.

(** ** The worker *)

Section worker.
Context {J : SseJson} {Vec : Type} (env : string → option string).

Definition DEFAULT_TOP_K : Z := 5.
Definition DEFAULT_NEIGHBOR_RADIUS : Z := 1.

Definition env_usize (key : string) (default : Z) : Z :=
  from_option id default (env key ≫= parse_u64).

Definition env_i64 (key : string) (default : Z) : Z :=
  from_option id default (env key ≫= parse_i64).

Inductive StopReason : Type := StopEof | StopCancelled | StopError.

Definition wire (r : StopReason) : string :=
  match r with StopEof | StopCancelled => "stop" | StopError => "error" end.

Definition role_to_llm (role : string) : option Role :=
  if String.eqb role "system" then Some LlmSystem
  else if String.eqb role "user" then Some LlmUser
  else if String.eqb role "assistant" then Some LlmAssistant
  else None.

Definition history_to_llm (messages : list ChatMessage) : list LlmMessage :=
  omap (λ m, (λ role, mkLlm role (cm_content m)) <$> role_to_llm (cm_role m)) messages.

Record Retrieved : Type := mkRetrieved {
  rt_chunk_id : RecordId;
  rt_doc_id : RecordId;
  rt_ordinal : Z;
  rt_text : string;
  rt_doc_title : option string;
  rt_page : option Z;
}.

(** [a + b] on [i64] in a release build. *)
Definition i64_add (a b : Z) : Z := (a + b - i64_min) mod (u64_max + 1) + i64_min.

(** The chunks of one window that no window had before. *)
Fixpoint take_new (doc_id : RecordId) (doc_title : option string) (window : list Chunk)
    (seen : gset RecordId) (out : list Retrieved) : gset RecordId * list Retrieved :=
  match window with
  | [] => (seen, out)
  | c :: window =>
      match ck_id c with
      | None => take_new doc_id doc_title window seen out
      | Some cid =>
          if decide (cid ∈ seen) then take_new doc_id doc_title window seen out
          else
            take_new doc_id doc_title window ({[cid]} ∪ seen)
              (out ++ [mkRetrieved cid doc_id (ck_ordinal c) (ck_text c) doc_title (bb_page <$> (ck_bboxes c ≫= head))])
      end
  end.

Fixpoint expand (radius : Z) (hits : list ChunkSearchResult) (seen : gset RecordId) (out : list Retrieved)
  : prog (TurnE Vec) (list Retrieved) :=
  match hits with
  | [] => Ret out
  | hit :: hits =>
      let lo := Z.max 0 (i64_add (hit_ordinal hit) (- radius)) in
      let hi := i64_add (hit_ordinal hit) radius in
      let* window := call (ListChunksInRange (hit_doc_id hit) lo hi) in
      let window := match window with Ok w => w | Err _ => [] end in
      let* doc := call (GetDocument (hit_doc_id hit)) in
      let doc_title := match doc with Ok (Some t) => t | _ => None end in
      let '(seen, out) := take_new (hit_doc_id hit) doc_title window seen out in
      expand radius hits seen out
  end.

Definition retrieve_for_query (query : string) : prog (TurnE Vec) (result (list Retrieved) string) :=
  let top_k := Z.max 1 (env_usize "RAG_RETRIEVAL_TOP_K" DEFAULT_TOP_K) in
  let radius := Z.max 0 (env_i64 "RAG_RETRIEVAL_NEIGHBOR_RADIUS" DEFAULT_NEIGHBOR_RADIUS) in
  let* qv := call (EmbedQuery query) in
  match qv with
  | Err e => Ret (Err e)
  | Ok qv =>
      let* hits := call (SearchVector qv top_k) in
      match hits with
      | Err e => Ret (Err e)
      | Ok hits => let* out := expand radius hits ∅ [] in Ret (Ok out)
      end
  end.

Definition SYSTEM_PROMPT : string :=
  "You have access to the following excerpts from the user's corpus." +:+ newline +:+
  "When you make a claim drawn from one of them, append the corresponding [N] marker. Cite only chunks you actually used."
  +:+ newline +:+ newline.

Definition quote : string := String (Ascii.ascii_of_nat 34) EmptyString.

Fixpoint excerpts (n : Z) (rows : list Retrieved) : string :=
  match rows with
  | [] => EmptyString
  | r :: rows =>
      let title := default "(untitled)" (rt_doc_title r) in
      "[" +:+ show_uint n +:+ "] " +:+ quote +:+ title +:+ quote +:+
      match rt_page r with
      | Some p => " (page " +:+ show_int p +:+ ")" +:+ newline
      | None => newline
      end +:+ rt_text r +:+ newline +:+ newline +:+ excerpts (n + 1) rows
  end.

Definition build_system_prompt (rows : list Retrieved) : string := SYSTEM_PROMPT +:+ excerpts 1 rows.

(** [citation_entries] and [storage_citations], whose fields are the same *)
Definition citation_entries (rows : list Retrieved) : list CitationEntry :=
  imap (λ i r, mkCitation (Z.of_nat i + 1) (to_sql (rt_chunk_id r)) (to_sql (rt_doc_id r)) (rt_doc_title r) (rt_page r)) rows.

Context (req : TurnRequest).

(** The loop of deltas, for a number of rounds. *)
Fixpoint stream_loop (rounds : nat) (assistant_buf : string) : prog (TurnE Vec) (option (StopReason * string)) :=
  match rounds with
  | O => Ret None
  | S rounds =>
      let* selected := call Select in
      match selected with
      | Cancelled => Ret (Some (StopCancelled, assistant_buf))
      | Item (Some (Ok (LlmText t))) =>
          let* _ := call (HandleAppend (text t)) in
          stream_loop rounds (assistant_buf +:+ t)
      | Item (Some (Err _)) =>
          let* _ := call (HandleAppend (error "llm stream error")) in
          Ret (Some (StopError, assistant_buf))
      | Item None => Ret (Some (StopEof, assistant_buf))
      end
  end.

(** An [error] frame and the [clear] that ends the turn. *)
Definition abandon (msg err : string) : prog (TurnE Vec) (option (result unit string)) :=
  let* _ := call (HandleAppend (error msg)) in
  let* _ := call (HandleTerminate clear) in
  Ret (Some (Err err)).

Definition commit (citations : list Retrieved) (assistant_buf : string) : Commit :=
  mkCommit (rq_conversation_id req) (rq_user_message_id req) (rq_user_text req) (rq_parent_id req)
    assistant_buf (citation_entries citations).

(** What follows the loop. *)
Definition end_turn (had_title : bool) (citations : list Retrieved) (stop_reason : StopReason)
    (assistant_buf : string) : prog (TurnE Vec) (option (result unit string)) :=
  match stop_reason with
  | StopCancelled => let* _ := call (HandleTerminate clear) in Ret (Some (Ok tt))
  | _ =>
      let* r := call (CommitTurn (commit citations assistant_buf)) in
      match r with
      | Err e =>
          let* _ := call (HandleAppend (error "commit failed")) in
          let* _ := call (HandleTerminate (finish "error" "")) in
          Ret (Some (Err ("commit_turn: " +:+ e)))
      | Ok assistant_id =>
          let* _ := call (HandleTerminate (finish (wire stop_reason) (to_sql assistant_id))) in
          if negb had_title && negb (is_empty assistant_buf) then
            let* _ := call (SpawnTitle (rq_user_text req) assistant_buf) in Ret (Some (Ok tt))
          else Ret (Some (Ok tt))
      end
  end.

(** The citations of the turn, whose frame is sent when there are any. *)
Definition cite (prompt : list LlmMessage) : prog (TurnE Vec) (list LlmMessage * list Retrieved) :=
  let* found :=
    if rq_has_embedder req
    then let* r := retrieve_for_query (rq_user_text req) in Ret (match r with Ok r => r | Err _ => [] end)
    else Ret [] in
  match found with
  | [] => Ret (prompt, [])
  | _ =>
      let* _ := call (HandleAppend (citations (citation_entries found))) in
      Ret (mkLlm LlmSystem (build_system_prompt found) :: prompt, found)
  end.

Definition drive_turn (rounds : nat) : prog (TurnE Vec) (option (result unit string)) :=
  let* db := call (Acquire (rq_bearer req)) in
  match db with
  | Err e => abandon "auth setup failed" ("pool acquire: " +:+ e)
  | Ok _ =>
      let* history := call (ListMessages (rq_conversation_id req)) in
      match history with
      | Err e => abandon "history lookup failed" ("list_messages: " +:+ e)
      | Ok history =>
          let* conversation := call (GetConversation (rq_conversation_id req)) in
          let had_title := match conversation with Ok (Some (Some _)) => true | _ => false end in
          let prompt := history_to_llm history ++ [mkLlm LlmUser (rq_user_text req)] in
          let* cited := cite prompt in
          let* upstream := call (StreamChat cited.1) in
          match upstream with
          | Err e => abandon "llm error" ("stream_chat: " +:+ e)
          | Ok _ =>
              let* ended := stream_loop rounds "" in
              match ended with
              | None => Ret None
              | Some (stop_reason, assistant_buf) => end_turn had_title cited.2 stop_reason assistant_buf
              end
          end
      end
  end.

(** *** The title *)

Fixpoint title_output (rounds : nat) (buf : string) : prog (TurnE Vec) (option (option string)) :=
  match rounds with
  | O => Ret None
  | S rounds =>
      let* item := call NextDelta in
      match item with
      | None => Ret (Some (Some buf))
      | Some (Ok (LlmText t)) => title_output rounds (buf +:+ t)
      | Some (Err _) => Ret (Some None)
      end
  end.

Definition generate_title (rounds : nat) (user_msg assistant_msg : string) : prog (TurnE Vec) (option (option string)) :=
  let* r := call (StreamChat (title_prompt user_msg assistant_msg)) in
  match r with
  | Err _ => Ret (Some None)
  | Ok _ =>
      let* out := title_output rounds "" in
      Ret (match out with
           | None => None
           | Some None => Some None
           | Some (Some buf) =>
               let cleaned := clean_title buf in
               if is_empty cleaned then Some None else Some (Some cleaned)
           end)
  end.

(** The task spawned after the first turn. *)
Definition title_task (rounds : nat) (user_msg assistant_msg : string) : prog (TurnE Vec) unit :=
  let* t := generate_title rounds user_msg assistant_msg in
  match t with
  | Some (Some t) =>
      let* db := call (Acquire (rq_bearer req)) in
      match db with
      | Err _ => Ret tt
      | Ok _ =>
          let* r := call (RenameConversation (rq_conversation_id req) t) in
          match r with
          | Err _ => Ret tt
          | Ok _ => call (BusEmit (rq_conversation_id req) (title t))
          end
      end
  | _ => Ret tt
  end.

End worker.

(** ** The order of a turn *)

Inductive TurnObs : Type :=
| ObsAppend (f : string)
| ObsTerminate (f : string)
| ObsSelect (s : Selected)
| ObsCommit (c : Commit) (r : result RecordId string)
| ObsTitle (user_msg assistant_msg : string)
| ObsOther.

Definition turn_obs {Vec} (X : Type) (e : TurnE Vec X) : X → TurnObs :=
  match e in TurnE _ X return X → TurnObs with
  | HandleAppend f => λ _, ObsAppend f
  | HandleTerminate f => λ _, ObsTerminate f
  | Select => ObsSelect
  | CommitTurn c => ObsCommit c
  | SpawnTitle u a => λ _, ObsTitle u a
  | _ => λ _, ObsOther
  end.

(** A turn so far: the text of the model, whether the token was seen cancelled, the
    commit that was tried and the frame that ended it. *)
Record TurnSoFar : Type := mkSoFar {
  sf_text : string;
  sf_cancelled : bool;
  sf_commit : option (Commit * result RecordId string);
  sf_end : option string;
}.

Definition sf_step (v : TurnSoFar) (o : TurnObs) : TurnSoFar :=
  match o with
  | ObsTerminate f => mkSoFar (sf_text v) (sf_cancelled v) (sf_commit v) (Some f)
  | ObsSelect Cancelled => mkSoFar (sf_text v) true (sf_commit v) (sf_end v)
  | ObsSelect (Item (Some (Ok (LlmText t)))) => mkSoFar (sf_text v +:+ t) (sf_cancelled v) (sf_commit v) (sf_end v)
  | ObsCommit c r => mkSoFar (sf_text v) (sf_cancelled v) (Some (c, r)) (sf_end v)
  | _ => v
  end.

Definition so_far (past : list TurnObs) : TurnSoFar := foldl sf_step (mkSoFar "" false None None) past.

Section order.
Context {J : SseJson} {Vec : Type} (env : string → option string) (req : TurnRequest).

(** What may be done, after what was done. *)
Definition may (v : TurnSoFar) (o : TurnObs) : Prop :=
  match o with
  | ObsTitle u a =>
      is_Some (sf_end v) ∧ u = rq_user_text req ∧ a ≠ "" ∧
      ∃ c id, sf_commit v = Some (c, Ok id) ∧ co_assistant_text c = a
  | ObsAppend _ => sf_end v = None ∧ sf_cancelled v = false
  | ObsTerminate f =>
      sf_end v = None ∧
      match sf_commit v with
      | None => f = clear
      | Some (_, Ok id) => ∃ reason, f = finish reason (to_sql id)
      | Some (_, Err _) => f = finish "error" ""
      end
  | ObsCommit c _ =>
      sf_end v = None ∧ sf_cancelled v = false ∧ sf_commit v = None ∧
      co_conversation c = rq_conversation_id req ∧ co_user_message_id c = rq_user_message_id req ∧
      co_user_text c = rq_user_text req ∧ co_parent_id c = rq_parent_id req ∧ co_assistant_text c = sf_text v
  | ObsSelect _ | ObsOther => sf_end v = None
  end.

Definition turn_ok (past : list TurnObs) (o : TurnObs) : Prop := may (so_far past) o.

Definition turn {R} (v : TurnSoFar) (p : prog (TurnE Vec) R) (Q : TurnSoFar → R → Prop) : Prop :=
  ∀ past, so_far past = v → safe turn_obs turn_ok p (λ past' r, Q (so_far past') r) past.

Lemma turn_ret {R} v (r : R) (Q : TurnSoFar → R → Prop) : Q v r → turn v (Ret r) Q.
Proof. by intros HQ past <-. Qed.

Lemma turn_call {A R} v (e : TurnE Vec A) (f : A → prog (TurnE Vec) R) Q :
  (∀ x, may v (turn_obs A e x) ∧ turn (sf_step v (turn_obs A e x)) (f x) Q) → turn v (prog_bind (call e) f) Q.
Proof.
  intros H past <-. apply safe_call. intros x. destruct (H x) as [Hm Hf]. split; [exact Hm |].
  apply Hf. unfold so_far. by rewrite foldl_app.
Qed.

Lemma turn_bind {A R} v (p : prog (TurnE Vec) A) (f : A → prog (TurnE Vec) R) P Q :
  turn v p P → (∀ v' a, P v' a → turn v' (f a) Q) → turn v (prog_bind p f) Q.
Proof.
  intros Hp Hf past Hv. eapply safe_bind_spec; [by apply Hp |]. intros past' a _ HP. by apply (Hf _ _ HP).
Qed.

(** A call that no order concerns. *)
Lemma turn_other {A R} v (e : TurnE Vec A) (f : A → prog (TurnE Vec) R) Q :
  sf_end v = None → (∀ x, turn_obs A e x = ObsOther) → (∀ x, turn v (f x) Q) → turn v (prog_bind (call e) f) Q.
Proof. intros He Ho Hf. apply turn_call. intros x. rewrite Ho. by split; [| apply Hf]. Qed.

(** The turn is running and nothing was committed. *)
Definition running (t : string) (v : TurnSoFar) : Prop := v = mkSoFar t false None None.

Definition settled (v : TurnSoFar) (r : option (result unit string)) : Prop :=
  is_Some r → is_Some (sf_end v) ∧ (sf_cancelled v = true → sf_commit v = None).

Lemma turn_append {R} t v f (k : unit → prog (TurnE Vec) R) Q :
  running t v → turn v (k tt) Q → turn v (prog_bind (call (HandleAppend f)) k) Q.
Proof. intros -> Hk. apply turn_call. intros []. by split. Qed.

Lemma abandon_spec t v msg err : running t v → turn v (abandon msg err) settled.
Proof.
  intros Hv. eapply turn_append; [done |]. rewrite Hv. apply turn_call. intros []. split; [done |].
  by apply turn_ret.
Qed.

Lemma expand_spec v radius hits seen out P :
  sf_end v = None → (∀ o, P v o) → turn v (expand (Vec := Vec) radius hits seen out) P.
Proof.
  intros He HP. revert seen out. induction hits as [| hit hits IH]; intros seen out; [by apply turn_ret |].
  simpl. apply turn_other; [done | done |]. intros window. apply turn_other; [done | done |]. intros doc.
  destruct (take_new _ _ _ _ _) as [seen' out']. apply IH.
Qed.

Lemma retrieve_spec v query P :
  sf_end v = None → (∀ o, P v o) → turn v (retrieve_for_query (Vec := Vec) env query) P.
Proof.
  intros He HP. unfold retrieve_for_query. apply turn_other; [done | done |]. intros [qv | e]; [| by apply turn_ret].
  apply turn_other; [done | done |]. intros [hits | e]; [| by apply turn_ret].
  eapply (turn_bind _ _ _ (λ v' _, v' = v)); [by apply expand_spec |]. intros v' out ->. by apply turn_ret.
Qed.

Lemma cite_spec v prompt : running "" v → turn v (cite (Vec := Vec) env req prompt) (λ v' _, running "" v').
Proof.
  intros Hv. unfold cite. eapply (turn_bind _ _ _ (λ v' _, v' = v)).
  - destruct (rq_has_embedder req); [| by apply turn_ret].
    eapply (turn_bind _ _ _ (λ v' _, v' = v)); [apply retrieve_spec; by rewrite ?Hv |].
    intros v' r ->. by apply turn_ret.
  - intros v' [| r found] ->; [by apply turn_ret |]. eapply turn_append; [done |]. by apply turn_ret.
Qed.

Lemma old_stream_loop_spec rounds t v :
  running t v →
  turn v (stream_loop (Vec := Vec) rounds t)
    (λ v' r, match r with
             | None => True
             | Some (StopCancelled, t') => v' = mkSoFar t' true None None
             | Some (_, t') => running t' v'
             end).
Proof.
  revert t v. induction rounds as [| rounds IH]; intros t v Hv; [by apply turn_ret |].
  rewrite Hv. cbn [stream_loop]. apply turn_call.
  intros [| [[[t'] | e] |]]; (split; [done |]); cbn [turn_obs sf_step].
  - by apply turn_ret.
  - eapply turn_append; [done |]. by apply IH.
  - eapply turn_append; [done |]. by apply turn_ret.
  - by apply turn_ret.
Qed.

Lemma end_turn_spec had_title citations stop_reason t v :
  match stop_reason with StopCancelled => v = mkSoFar t true None None | _ => running t v end →
  turn v (end_turn (Vec := Vec) req had_title citations stop_reason t) settled.
Proof.
  intros Hv. unfold end_turn.
  assert (Hcommit : running t v →
    turn v (let* r := call (CommitTurn (commit req citations t)) in
            match r with
            | Err e =>
                let* _ := call (HandleAppend (error "commit failed")) in
                let* _ := call (HandleTerminate (finish "error" "")) in
                Ret (Some (Err ("commit_turn: " +:+ e)))
            | Ok assistant_id =>
                let* _ := call (HandleTerminate (finish (wire stop_reason) (to_sql assistant_id))) in
                if negb had_title && negb (is_empty t) then
                  let* _ := call (SpawnTitle (rq_user_text req) t) in Ret (Some (Ok tt))
                else Ret (Some (Ok tt))
            end) settled).
  { intros ->. apply turn_call. intros [id | e]; (split; [by split_and! |]); cbn [turn_obs sf_step].
    - apply turn_call. intros []. split; [by split; [| eexists] |].
      destruct (negb had_title && negb (is_empty t)) eqn:Ht; [| by apply turn_ret].
      apply turn_call. intros []. split; [| by apply turn_ret].
      split_and!; [by eexists | done | | by do 2 eexists].
      intros ->. by rewrite andb_false_r in Ht.
    - apply turn_call. intros []. split; [done |]. apply turn_call. intros []. split; [done |]. by apply turn_ret. }
  destruct stop_reason; [by apply Hcommit | | by apply Hcommit].
  rewrite Hv. apply turn_call. intros []. split; [done |]. by apply turn_ret.
Qed.

(** Fact: whatever the database, the models and the user do, and when: the worker
    commits at most once, the text the model streamed under the ids of the request,
    and not after it saw the stop; it ends the turn exactly once, with [clear] when
    nothing was committed, with [finish] and the id of the assistant message when the
    commit succeeded, and with an error [finish] when it failed; nothing is appended
    after that or after the stop; and only a title of a committed answer follows. *)
Theorem old_turn_is_settled rounds tr r :
  exec (turn_obs (Vec := Vec)) (drive_turn env req rounds) tr r →
  (∀ before o rest, tr = before ++ o :: rest → may (so_far before) o) ∧ settled (so_far tr) r.
Proof.
  intros Hx. apply (exec_safe _ turn_ok _ (λ past r, settled (so_far past) r) [] tr r Hx).
  assert (turn (mkSoFar "" false None None) (drive_turn env req rounds) settled) as H; [| by apply H].
  unfold drive_turn. set (v := mkSoFar "" false None None). assert (running "" v) as Hv by done.
  apply turn_other; [done | done |]. intros [[] | e]; [| by eapply abandon_spec].
  apply turn_other; [done | done |]. intros [history | e]; [| by eapply abandon_spec].
  apply turn_other; [done | done |]. intros conversation.
  eapply turn_bind; [by apply cite_spec |]. cbv beta. intros v1 cited Hv1.
  apply turn_other; [by rewrite Hv1 | done |]. intros [[] | e]; [| by eapply abandon_spec].
  eapply turn_bind; [by eapply old_stream_loop_spec |]. intros v2 [[stop_reason t] |] Hv2; [| by apply turn_ret].
  apply end_turn_spec. by destruct stop_reason.
Qed.

End order.
