(* ===== verification/OldApi.v ===== *)
(** * The chat endpoints of the previous back end

    old/backend/src/api: chat.rs (a message is posted), chat_stream.rs (the stream is
    followed), chat_stop.rs and conversations.rs, as programs over their calls of the
    database and of the turn bus (OldBus.v, OldTurn.v).  axum decodes paths, headers
    and bodies; the JSON of a row is left to serde. *)

From S2P Require Import Prelude Text OldBus OldChunk OldTurn.

Local Open Scope Z_scope.

Section api.
Context {J : SseJson}.
(** [ulid::Ulid::from_string] succeeds; a conversation row. *)
Context (is_ulid : string → bool) {Conversation : Type}.

Inductive Body : Type :=
| Empty
| BodyText (s : string)
| Reason (reason : string)
| JConversations (items : list Conversation)
| JConversation (c : Conversation)
| JDetail (c : Conversation) (messages : list ChatMessage)
| EventStream.

Definition Response : Type := Z * Body.

Inductive ApiE : Type → Type :=
| DbListConversations : ApiE (result (list Conversation) string)
| DbCreateConversation (title : option string) : ApiE (result RecordId string)
| DbGetConversation (id : RecordId) : ApiE (result (option Conversation) string)
| DbListMessages (id : RecordId) : ApiE (result (list ChatMessage) string)
| DbRename (id : RecordId) (title : string) : ApiE (result unit string)
| DbDelete (id : RecordId) : ApiE (result unit string)
| TryStart (id : RecordId) (frame : string) : ApiE bool
| SpawnWorker (req : TurnRequest) : ApiE unit
| SubscribeBus (id : RecordId) (from : option Z) : ApiE unit
| CancelTurn (id : RecordId) : ApiE unit.

Definition parse_conversation_id (key : string) : result RecordId Response :=
  let k := trim key in
  if is_empty k || has_char ":" k || negb (String.length k =? String.length key)%nat
  then Err (400, BodyText "invalid conversation key")
  else Ok ("conversation", k).

Definition parse_parent_id (s : string) : result RecordId Response :=
  let trimmed := trim s in
  if is_empty trimmed then Err (400, BodyText "empty parent_id")
  else
    match split_once ":" trimmed with
    | None => Err (400, BodyText "parent_id missing 'message:' prefix")
    | Some (table, key) =>
        if negb (String.eqb table "message") || is_empty key
        then Err (400, BodyText "parent_id must be 'message:<key>'")
        else Ok ("message", key)
    end.

(** The header, if it is there and visible ASCII. *)
Definition bearer_from_headers (authorization : option string) : option string :=
  v ← authorization;
  match strip_prefix "Bearer " v with Some s => Some s | None => strip_prefix "bearer " v end.

Definition parse_last_event_id (header : option string) : option Z := header ≫= cursor_from_str.

Record ChatRequest : Type := mkChatRequest {
  cr_id : string;
  cr_text : string;
  cr_parent_id : option string;
}.

(** The conversation, for who may see it. *)
Definition with_conversation (id : RecordId) (missing failed : string) (k : Conversation → prog ApiE Response)
  : prog ApiE Response :=
  let* c := call (DbGetConversation id) in
  match c with
  | Ok (Some c) => k c
  | Ok None => Ret (404, BodyText missing)
  | Err _ => Ret (500, BodyText failed)
  end.

Definition tail_id (history : list ChatMessage) : option RecordId := last history ≫= cm_id.

Definition post_message (has_embedder : bool) (authorization : option string) (key : string) (req : ChatRequest)
  : prog ApiE Response :=
  match parse_conversation_id key with
  | Err r => Ret r
  | Ok conv_id =>
      if negb (is_ulid (cr_id req)) then Ret (400, BodyText "invalid message id")
      else if is_empty (trim (cr_text req)) then Ret (400, BodyText "empty text")
      else
        match from_option (λ s, result_map Some (parse_parent_id s)) (Ok None) (cr_parent_id req) with
        | Err r => Ret r
        | Ok parent_id =>
            with_conversation conv_id "conversation not found" "lookup failed" (λ _,
            let* history := call (DbListMessages conv_id) in
            match history with
            | Err _ => Ret (500, BodyText "lookup failed")
            | Ok history =>
                if bool_decide (tail_id history ≠ parent_id) then Ret (409, Reason "stale_parent")
                else
                  match bearer_from_headers authorization with
                  | None => Ret (401, BodyText "missing bearer")
                  | Some bearer =>
                      let* started := call (TryStart conv_id (user_message ("message:" +:+ cr_id req) (cr_text req))) in
                      if started : bool then
                        let* _ := call (SpawnWorker (mkRequest conv_id (cr_id req) (cr_text req) parent_id bearer has_embedder)) in
                        Ret (202, Empty)
                      else Ret (409, Reason "in_flight")
                  end
            end)
        end
  end.

Definition stream (key : string) (last_event_id : option string) : prog ApiE Response :=
  match parse_conversation_id key with
  | Err r => Ret r
  | Ok conv_id =>
      let from := parse_last_event_id last_event_id in
      with_conversation conv_id "not found" "lookup failed" (λ _,
      let* _ := call (SubscribeBus conv_id from) in
      Ret (200, EventStream))
  end.

Definition stop (key : string) : prog ApiE Response :=
  match parse_conversation_id key with
  | Err r => Ret r
  | Ok conv_id =>
      with_conversation conv_id "not found" "lookup failed" (λ _,
      let* _ := call (CancelTurn conv_id) in
      Ret (204, Empty))
  end.

(** *** Conversations *)

Definition list_conversations : prog ApiE Response :=
  let* items := call DbListConversations in
  Ret (match items with Ok items => (200, JConversations items) | Err _ => (500, BodyText "list failed") end).

Definition create_conversation (title : option string) : prog ApiE Response :=
  let* id := call (DbCreateConversation title) in
  match id with
  | Err _ => Ret (500, BodyText "create failed")
  | Ok id =>
      let* c := call (DbGetConversation id) in
      Ret (match c with Ok (Some c) => (201, JConversation c) | _ => (500, BodyText "create failed") end)
  end.

Definition get_conversation (key : string) : prog ApiE Response :=
  match parse_conversation_id key with
  | Err r => Ret r
  | Ok id =>
      with_conversation id "not found" "lookup failed" (λ c,
      let* messages := call (DbListMessages id) in
      Ret (match messages with Ok m => (200, JDetail c m) | Err _ => (500, BodyText "lookup failed") end))
  end.

Definition patch_conversation (key : string) (title : string) : prog ApiE Response :=
  match parse_conversation_id key with
  | Err r => Ret r
  | Ok id =>
      let title := trim title in
      if is_empty title || (200 <? length (chars title))%nat then Ret (400, BodyText "title must be 1..=200 chars")
      else
        with_conversation id "not found" "patch failed" (λ _,
        let* r := call (DbRename id title) in
        Ret (match r with Ok _ => (204, Empty) | Err _ => (500, BodyText "patch failed") end))
  end.

Definition delete_conversation (key : string) : prog ApiE Response :=
  match parse_conversation_id key with
  | Err r => Ret r
  | Ok id =>
      let* r := call (DbDelete id) in
      Ret (match r with Ok _ => (204, Empty) | Err _ => (500, BodyText "delete failed") end)
  end.

(** ** What a request does *)

Inductive ApiObs : Type :=
| ObsConversation (id : RecordId) (found : bool)
| ObsMessages (id : RecordId) (r : result (list ChatMessage) string)
| ObsStart (id : RecordId) (started : bool)
| ObsSpawn (req : TurnRequest)
| ObsSubscribe (id : RecordId) (from : option Z)
| ObsCancel (id : RecordId)
| ObsWrite (id : RecordId)
| ObsRead.

Definition api_obs (X : Type) (e : ApiE X) : X → ApiObs :=
  match e in ApiE X return X → ApiObs with
  | DbGetConversation id => λ r, ObsConversation id (match r with Ok (Some _) => true | _ => false end)
  | DbListMessages id => ObsMessages id
  | TryStart id _ => ObsStart id
  | SpawnWorker req => λ _, ObsSpawn req
  | SubscribeBus id from => λ _, ObsSubscribe id from
  | CancelTurn id => λ _, ObsCancel id
  | DbRename id _ | DbDelete id => λ _, ObsWrite id
  | _ => λ _, ObsRead
  end.

(** A key that parses names a conversation without a colon, and prints back. *)
Lemma parse_conversation_id_ok key id :
  parse_conversation_id key = Ok id → id.1 = "conversation" ∧ has_char ":" id.2 = false ∧ id.2 ≠ "".
Proof.
  unfold parse_conversation_id. destruct (is_empty (trim key)) eqn:He; [done |].
  destruct (has_char ":" (trim key)) eqn:Hc; [done |]. destruct (negb _); [done |].
  intros [= <-]. split_and!; [done | done |]. simpl. by destruct (trim key).
Qed.

Lemma with_conversation_exec id missing failed k tr r :
  exec api_obs (with_conversation id missing failed k) tr r →
  (∃ c tr', tr = ObsConversation id true :: tr' ∧ exec api_obs (k c) tr' r) ∨
  tr = [ObsConversation id false] ∧ (r = (404, BodyText missing) ∨ r = (500, BodyText failed)).
Proof.
  intros Hx. apply exec_vis in Hx as (x & tr' & -> & Hx).
  destruct x as [[c |] | e]; [left; by exists c, tr' | right | right]; destruct Hx as [-> <-]; eauto.
Qed.

(** Fact: a posted message claims the turn only of a conversation its caller sees,
    as the successor of the last message the same request read, with the text that
    was posted; a claimed turn is always given to a worker, with the caller's
    bearer, and only then is the message accepted. *)
Theorem post_is_checked has_embedder authorization key req tr r :
  exec api_obs (post_message has_embedder authorization key req) tr r →
  (∀ id b, ObsStart id b ∈ tr → ∃ history turn,
     tr = [ObsConversation id true; ObsMessages id (Ok history); ObsStart id b] ++
          (if b then [ObsSpawn turn] else []) ∧
     parse_conversation_id key = Ok id ∧ is_ulid (cr_id req) = true ∧ is_empty (trim (cr_text req)) = false ∧
     tail_id history = rq_parent_id turn ∧ rq_conversation_id turn = id ∧
     rq_user_message_id turn = cr_id req ∧ rq_user_text turn = cr_text req ∧
     bearer_from_headers authorization = Some (rq_bearer turn) ∧
     r = if b then (202, Empty) else (409, Reason "in_flight")) ∧
  (r.1 = 202 → ∃ id, ObsStart id true ∈ tr).
Proof.
  unfold post_message. destruct (parse_conversation_id key) as [id | r0] eqn:Hkey.
  2:{ intros [-> <-]. split; [by intros ?? ?%elem_of_nil |]. unfold parse_conversation_id in Hkey.
      destruct (_ || _); [by injection Hkey as <- | done]. }
  destruct (is_ulid (cr_id req)) eqn:Hulid; simpl; [| intros [-> <-]; split; [by intros ?? ?%elem_of_nil | done]].
  destruct (is_empty (trim (cr_text req))) eqn:Htext; [intros [-> <-]; split; [by intros ?? ?%elem_of_nil | done] |].
  destruct (from_option _ _ _) as [parent | r0] eqn:Hp.
  2:{ intros [-> <-]. split; [by intros ?? ?%elem_of_nil |]. destruct (cr_parent_id req) as [s |]; [| done].
      simpl in Hp. unfold parse_parent_id in Hp. destruct (is_empty _) in Hp; [by injection Hp as <- |].
      destruct (split_once _ _) as [[??] |] in Hp; [| by injection Hp as <-].
      destruct (_ || _) in Hp; [by injection Hp as <- | done]. }
  intros [(c & tr' & -> & Hx) | [-> [-> | ->]]]%with_conversation_exec;
    [| split; [by intros ?? [? | ?%elem_of_nil]%elem_of_cons | done]..].
  apply exec_vis in Hx as (x & tr'' & -> & Hx). cbn [api_obs].
  assert (Hno : ∀ r', (r'.1 = 202 → False) → tr'' = [] ∧ r' = r →
    (∀ id' b, ObsStart id' b ∈ ObsConversation id true :: ObsMessages id x :: tr'' → False) ∧ (r.1 = 202 → False)).
  { intros r' Hr' [-> ->]. split; [| done].
    by intros ?? [? | [? | ?%elem_of_nil]%elem_of_cons]%elem_of_cons. }
  destruct x as [history | e].
  2:{ destruct (Hno (500, BodyText "lookup failed")) as [H1 H2]; [done.. |].
      split; [intros ?? H; by destruct (H1 _ _ H) | intros H; by destruct (H2 H)]. }
  case_bool_decide as Htail.
  { destruct (Hno (409, Reason "stale_parent")) as [H1 H2]; [done.. |].
    split; [intros ?? H; by destruct (H1 _ _ H) | intros H; by destruct (H2 H)]. }
  destruct (bearer_from_headers authorization) as [bearer |] eqn:Hb.
  2:{ destruct (Hno (401, BodyText "missing bearer")) as [H1 H2]; [done.. |].
      split; [intros ?? H; by destruct (H1 _ _ H) | intros H; by destruct (H2 H)]. }
  clear Hno. apply exec_vis in Hx as (started & tr3 & -> & Hx). cbn [api_obs].
  set (w := mkRequest id (cr_id req) (cr_text req) parent bearer has_embedder).
  assert (∃ tail, tr3 = (if started then [ObsSpawn w] else []) ∧ tail = tr3 ∧
    r = if started then (202, Empty) else (409, Reason "in_flight")) as (tail & -> & _ & ->).
  { destruct started; [| by destruct Hx as [-> <-]; eexists].
    apply exec_vis in Hx as ([] & tr4 & -> & [-> <-]). by eexists. }
  split.
  - intros id' b Hin. exists history, w.
    assert (id' = id ∧ b = started) as [-> ->]; [| by split_and!; try done; destruct started].
    repeat (apply elem_of_cons in Hin as [Hin | Hin]; [first [by simplify_eq | done] |]).
    destruct started; [apply elem_of_cons in Hin as [Hin | Hin]; [done |] |]; by apply elem_of_nil in Hin.
  - intros H. exists id. destruct started; [set_solver | done].
Qed.

(** Fact: following, stopping, reading and renaming concern only the conversation
    the key names, after it was found visible. *)
Theorem other_requests_are_checked key tr r last_event_id new_title p :
  p ∈ [stream key last_event_id; stop key; get_conversation key; patch_conversation key new_title] →
  exec api_obs p tr r →
  tr = [] ∨ ∃ id, parse_conversation_id key = Ok id ∧
    (tr = [ObsConversation id false] ∨
     ∃ o, tr = [ObsConversation id true; o] ∧
       (o = ObsSubscribe id (parse_last_event_id last_event_id) ∨ o = ObsCancel id ∨
        (∃ m, o = ObsMessages id m) ∨ o = ObsWrite id)).
Proof.
  assert (Hgo : ∀ missing failed A (e : ApiE A) (k : Conversation → A → prog ApiE Response) id,
    (∀ c x, ∃ r, k c x = Ret r) →
    exec api_obs (with_conversation id missing failed (λ c, prog_bind (call e) (k c))) tr r →
    tr = [ObsConversation id false] ∨ ∃ x, tr = [ObsConversation id true; api_obs A e x]).
  { intros missing failed A e k id Hk [(c & tr' & -> & Hx) | [-> _]]%with_conversation_exec; [right | by left].
    apply exec_vis in Hx as (x & tr'' & -> & Hx). destruct (Hk c x) as [r' Hr']. rewrite Hr' in Hx.
    destruct Hx as [-> _]. by exists x. }
  intros Hp Hx. repeat (apply elem_of_cons in Hp as [-> | Hp]); [.. | by apply elem_of_nil in Hp].
  all: unfold stream, stop, get_conversation, patch_conversation in Hx;
    destruct (parse_conversation_id key) as [id | r0] eqn:Hkey; [| destruct Hx as [-> _]; by left].
  4: destruct (is_empty (trim new_title) || _); [destruct Hx as [-> _]; by left |].
  all: right; exists id; split; [done |].
  all: apply Hgo in Hx as [-> | [x ->]]; [by left | | intros; by eexists];
    right; eexists; split; [done |]; cbn [api_obs]; eauto 6.
Qed.

End api.
