(* ===== verification/OldIngest.v ===== *)
(** * Upload validation of the previous back end

    old/backend/src/ingestion: the metadata of a request
    (validation/metadata.rs), the bytes of an object (validation/object), the merge
    of what the user and the extractor say (autofill.rs), and the extraction of text
    (text_extract.rs).  All of it is pure but [validate_uploaded_object], whose reads
    are in OldUpload.v.  The regular expression of the default policy is executed;
    infer and the serializer are parameters. *)

From S2P Require Import Prelude Text OldChunk.

Local Open Scope Z_scope.

(** ** JSON

    [serde_json::Value]; a number as its text, an object in its order. *)
Inductive json : Type :=
| JNull
| JBool (b : bool)
| JNumber (n : string)
| JString (s : string)
| JArray (l : list json)
| JObject (m : list (string * json)).

(** The largest of a nonempty list; [d] of an empty one. *)
Definition max_or (d : nat) (l : list nat) : nat :=
  match l with [] => d | x :: l => foldr Nat.max x l end.

Fixpoint json_depth (v : json) (current : nat) : nat :=
  match v with
  | JObject m => max_or (S current) (map (λ '(_, x), json_depth x (S current)) m)
  | JArray a => max_or (S current) (map (λ x, json_depth x (S current)) a)
  | _ => current
  end.

(** ** Requests *)

Record CreateUploadRequest : Type := mkUploadRequest {
  ur_canonical_id : option string;
  ur_source_type : option string;
  ur_source_uri : option string;
  ur_title : option string;
  ur_filename : option string;
  ur_size : Z;
  ur_metadata : json;
  ur_tenant_id : option json;
  ur_user_id : option json;
  ur_storage_uri : option json;
  ur_key : option json;
  ur_upload_id : option json;
}.

Definition resolved_source_type (r : CreateUploadRequest) : string :=
  match ur_source_type r with
  | Some s => if is_empty s then "manual" else s
  | None => "manual"
  end.

Inductive MetadataField : Type := FTitle | FAuthors | FSummary | FLanguage.

#[export] Instance metadata_field_eq_dec : EqDecision MetadataField.
Proof. solve_decision. Defined.

(** The required fields in the order their set is iterated. *)
Record MetadataPolicy : Type := mkPolicy {
  mp_allowed_content_types : list string;
  mp_max_size_bytes : Z;
  mp_max_title_chars : nat;
  mp_max_summary_chars : nat;
  mp_max_authors : nat;
  mp_max_author_chars : nat;
  mp_max_metadata_depth : nat;
  mp_max_metadata_bytes : Z;
  mp_canonical_id_pattern : string → bool;
  mp_required_fields : list MetadataField;
}.

(** [^[a-z][a-z0-9_-]*:[A-Za-z0-9._:-]{1,256}$]: the first part has no colon. *)
Definition is_lower (a : ascii) : bool := let b := byte_of_ascii a in (97 <=? b) && (b <=? 122).
Definition is_upper (a : ascii) : bool := let b := byte_of_ascii a in (65 <=? b) && (b <=? 90).
Definition one_of (l : list ascii) (a : ascii) : bool := existsb (Ascii.eqb a) l.

Definition default_pattern (s : string) : bool :=
  match split_once ":" s with
  | Some (String a source, id) =>
      is_lower a && all_chars (λ a, is_lower a || is_digit a || one_of ["_"; "-"]%char a) source &&
      negb (is_empty id) && (String.length id <=? 256)%nat &&
      all_chars (λ a, is_upper a || is_lower a || is_digit a || one_of ["."; "_"; ":"; "-"]%char a) id
  | _ => false
  end.

Definition default_content_types : list string :=
  ["application/pdf"; "text/plain"; "text/markdown"; "text/html"].

Definition default_policy : MetadataPolicy :=
  mkPolicy default_content_types (200 * 1024 * 1024) 1024 8192 64 256 8 (64 * 1024) default_pattern [].

Inductive MetadataReject : Type :=
| DisallowedContentType
| SizeExceedsLimit
| TitleTooLong
| MetadataTooDeep
| MetadataTooLarge
| InvalidCanonicalId
| InvalidSourceUri
| MalformedRequest (reason : string).

#[export] Instance metadata_reject_eq_dec : EqDecision MetadataReject.
Proof. solve_decision. Defined.

Definition is_plausible_uri (s : string) : bool :=
  if (4096 <? String.length s)%nat then false
  else
    let lower := to_ascii_lowercase s in
    starts_with lower "http://" || starts_with lower "https://".

Definition server_derived (field : string) : MetadataReject :=
  MalformedRequest (field +:+ " is server-derived; do not send it").

Definition chars_count (s : string) : nat := length (chars s).

Section metadata.
(** [serde_json::to_vec] and the length of what it writes. *)
Context (to_vec_len : json → option Z).

Definition check_metadata (v : json) (policy : MetadataPolicy) : result unit MetadataReject :=
  ensure (json_depth v 0 <=? mp_max_metadata_depth policy)%nat else MetadataTooDeep;
  ensure from_option id u64_max (to_vec_len v) <=? mp_max_metadata_bytes policy else MetadataTooLarge;
  Ok tt.

Definition check_present {A} (field : string) (v : option A) : result unit MetadataReject :=
  ensure negb (bool_decide (is_Some v)) else server_derived field; Ok tt.

Definition check_title (title : option string) (policy : MetadataPolicy) : result unit MetadataReject :=
  match title with
  | Some t => ensure (chars_count t <=? mp_max_title_chars policy)%nat else TitleTooLong; Ok tt
  | None => Ok tt
  end.

Definition validate_ingestion_metadata (req : CreateUploadRequest) (policy : MetadataPolicy)
  : result unit MetadataReject :=
  let? _ := check_present "tenant_id" (ur_tenant_id req) in
  let? _ := check_present "user_id" (ur_user_id req) in
  let? _ := check_present "storage_uri" (ur_storage_uri req) in
  let? _ := check_present "key" (ur_key req) in
  let? _ := check_present "upload_id" (ur_upload_id req) in
  ensure negb (bool_decide (ur_source_type req = Some EmptyString)) else MalformedRequest "source_type is empty";
  ensure from_option (λ cid, negb (is_empty cid) && mp_canonical_id_pattern policy cid) true (ur_canonical_id req)
    else InvalidCanonicalId;
  ensure from_option (λ uri, negb (is_empty uri) && is_plausible_uri uri) true (ur_source_uri req)
    else InvalidSourceUri;
  ensure negb ((ur_size req =? 0) || (mp_max_size_bytes policy <? ur_size req)) else SizeExceedsLimit;
  let? _ := check_title (ur_title req) policy in
  check_metadata (ur_metadata req) policy.

(** ** Descriptive metadata

    Instants are nanoseconds; [now] is the clock. *)
Record DescriptiveView : Type := mkView {
  dv_title : option string;
  dv_authors : list string;
  dv_summary : option string;
  dv_language : option string;
  dv_published_at : option Z;
  dv_extra : option json;
}.

Definition HORIZON : Z := 366 * 86400 * 1000000000.

Definition not_empty (o : option string) : bool := from_option (λ s, negb (is_empty s)) false o.

Definition field_present (meta : DescriptiveView) (field : MetadataField) : bool :=
  match field with
  | FTitle => not_empty (dv_title meta)
  | FAuthors => negb (bool_decide (dv_authors meta = []))
  | FSummary => not_empty (dv_summary meta)
  | FLanguage => not_empty (dv_language meta)
  end.

Definition field_debug (field : MetadataField) : string :=
  match field with FTitle => "Title" | FAuthors => "Authors" | FSummary => "Summary" | FLanguage => "Language" end.

Definition validate_descriptive_metadata (now : Z) (meta : DescriptiveView) (policy : MetadataPolicy)
  : result unit MetadataReject :=
  let? _ := check_title (dv_title meta) policy in
  ensure from_option (λ at_, at_ <=? now + HORIZON) true (dv_published_at meta)
    else MalformedRequest "published_at is implausibly far in the future";
  let? _ := from_option (λ v, check_metadata v policy) (Ok tt) (dv_extra meta) in
  match List.find (λ f, negb (field_present meta f)) (mp_required_fields policy) with
  | Some field => Err (MalformedRequest ("required descriptive field missing: " +:+ field_debug field))
  | None => Ok tt
  end.
End metadata.

(** ** Sanitizing *)

Definition is_disallowed_char (c : Z) : bool :=
  ((8234 <=? c) && (c <=? 8238)) || ((8294 <=? c) && (c <=? 8297)) ||
  (is_control c && negb ((c =? 9) || (c =? 10) || (c =? 13))).

Definition sanitize_text (s : string) (max_chars : nat) : string :=
  let cleaned := collect (filter (λ c, is_disallowed_char c = false) (chars s)) in
  collect (take max_chars (chars (trim cleaned))).

Definition sanitize_authors (authors : list string) (max_authors max_author_chars : nat) : list string :=
  take max_authors
    (filter (λ a, is_empty a = false) (map (λ a, sanitize_text a max_author_chars) authors)).

(** ** Autofill *)

Record DocumentPrefill : Type := mkPrefill {
  pf_title : option string;
  pf_authors : list string;
  pf_summary : option string;
  pf_language : option string;
}.

(** [ExtractedMetadata] and [MergedMetadata], whose fields are the same *)
Record ExtractedMetadata : Type := mkExtracted {
  em_title : option string;
  em_authors : list string;
  em_summary : option string;
  em_language : option string;
  em_published_at : option Z;
  em_extra : json;
}.

Definition extracted_default : ExtractedMetadata := mkExtracted None [] None None None JNull.

Definition noop_extract : result ExtractedMetadata string := Ok extracted_default.

(** [Map::insert] with the order kept. *)
Fixpoint map_insert (k : string) (v : json) (m : list (string * json)) : list (string * json) :=
  match m with
  | [] => [(k, v)]
  | (k', v') :: m => if String.eqb k' k then (k, v) :: m else (k', v') :: map_insert k v m
  end.

Definition shallow_merge_objects (base overlay : json) : json :=
  let out := match base with JObject m => m | _ => [] end in
  JObject (match overlay with JObject m => foldl (λ out kv, map_insert kv.1 kv.2 out) out m | _ => out end).

Definition prefill_extra : json := JObject [].

Definition pick (p a : option string) : option string := match p with Some _ => p | None => a end.

Definition merge_metadata (prefill : DocumentPrefill) (autofill : ExtractedMetadata) : ExtractedMetadata :=
  mkExtracted (pick (pf_title prefill) (em_title autofill))
    (match pf_authors prefill with [] => em_authors autofill | authors => authors end)
    (pick (pf_summary prefill) (em_summary autofill))
    (pick (pf_language prefill) (em_language autofill))
    (em_published_at autofill)
    (shallow_merge_objects (em_extra autofill) prefill_extra).

Definition sanitize_field (max : nat) (o : option string) : option string :=
  match o with
  | Some s => let s := sanitize_text s max in if is_empty s then None else Some s
  | None => None
  end.

Definition sanitize_merged (m : ExtractedMetadata) (policy : MetadataPolicy) : ExtractedMetadata :=
  mkExtracted (sanitize_field (mp_max_title_chars policy) (em_title m))
    (sanitize_authors (em_authors m) (mp_max_authors policy) (mp_max_author_chars policy))
    (sanitize_field (mp_max_summary_chars policy) (em_summary m))
    (sanitize_field 32 (em_language m)) (em_published_at m) (em_extra m).

Definition ensure_object (v : json) : json := match v with JObject m => JObject m | _ => JObject [] end.

(** The view of either. *)
Definition view_of (m : ExtractedMetadata) : DescriptiveView :=
  mkView (em_title m) (em_authors m) (em_summary m) (em_language m) (em_published_at m) (Some (em_extra m)).

(** ** Objects *)

(** Its two limits that no code reads (pages, parse time) are left out. *)
Record ObjectPolicy : Type := mkObjectPolicy {
  op_allowed_content_types : list string;
  op_size_tolerance_bytes : Z;
  op_sniff_window_bytes : Z;
  op_pdf_max_input_bytes : Z;
  op_reject_polyglots : bool;
  op_reject_pdf_active_content : bool;
}.

Definition default_object_policy : ObjectPolicy :=
  mkObjectPolicy default_content_types 0 4096 (50 * 1024 * 1024) true true.

Inductive ObjectReject : Type :=
| SizeMismatch (declared actual : Z)
| ContentTypeMismatch (declared sniffed : string)
| NotInAllowlist
| Polyglot (matched : list string)
| PdfParseFailed
| PdfParseTimeout
| PdfTooManyPages
| PdfActiveContent
| Utf8DecodeFailed
| HeadFailed (e : string)
| SniffFailed (e : string).

Definition reason_code (r : ObjectReject) : string :=
  match r with
  | SizeMismatch _ _ => "size_mismatch"
  | ContentTypeMismatch _ _ => "content_type_mismatch"
  | NotInAllowlist => "not_in_allowlist"
  | Polyglot _ => "polyglot"
  | PdfParseFailed => "pdf_parse_failed"
  | PdfParseTimeout => "pdf_parse_timeout"
  | PdfTooManyPages => "pdf_too_many_pages"
  | PdfActiveContent => "pdf_active_content"
  | Utf8DecodeFailed => "utf8_decode_failed"
  | HeadFailed _ => "head_failed"
  | SniffFailed _ => "sniff_failed"
  end.

Record ObjectMeta : Type := mkObjectMeta { om_size : Z; om_etag : string }.

Record ValidatedAttrs : Type := mkAttrs {
  va_size : Z;
  va_etag : string;
  va_sniffed_content_type : string;
}.

(** *** UTF-8

    [std::str::from_utf8]: [None] when the bytes are valid; otherwise how many were,
    and whether the rest is the beginning of a character that was cut off. *)
Definition in_range (lo hi b : Z) : bool := (lo <=? b) && (b <=? hi).

(** What may follow a lead byte: the range of the next byte and how many more. *)
Definition lead (b : Z) : option (Z * Z * nat) :=
  if in_range 194 223 b then Some (128, 191, 0%nat)
  else if b =? 224 then Some (160, 191, 1%nat)
  else if in_range 225 236 b || in_range 238 239 b then Some (128, 191, 1%nat)
  else if b =? 237 then Some (128, 159, 1%nat)
  else if b =? 240 then Some (144, 191, 2%nat)
  else if in_range 241 243 b then Some (128, 191, 2%nat)
  else if b =? 244 then Some (128, 143, 2%nat)
  else None.

(** The continuation bytes due, of which the first is in a range: the rest of the
    input, or whether the input ended. *)
Fixpoint continuation (lo hi : Z) (more : nat) (l : list Z) : result (list Z) bool :=
  match l with
  | [] => Err true
  | b :: l =>
      if in_range lo hi b
      then match more with O => Ok l | S more => continuation 128 191 more l end
      else Err false
  end.

Fixpoint utf8_error (fuel : nat) (l : list Z) (valid_up_to : nat) : option (nat * bool) :=
  match fuel with
  | O => None
  | S fuel =>
      match l with
      | [] => None
      | b :: rest =>
          if b <? 128 then utf8_error fuel rest (S valid_up_to)
          else
            match lead b with
            | None => Some (valid_up_to, false)
            | Some (lo, hi, more) =>
                match continuation lo hi more rest with
                | Err cut_off => Some (valid_up_to, cut_off)
                | Ok l => utf8_error fuel l (valid_up_to + 2 + more)
                end
            end
      end
  end.

Definition octets (b : bytes) : list Z := map (λ x, Z.of_N (Byte.to_N x)) b.

Definition looks_like_utf8_text (b : bytes) : bool :=
  match utf8_error (length b) (octets b) 0 with
  | None => true
  | Some (valid_up_to, cut_off) => cut_off && (0 <? valid_up_to)%nat
  end.

(** *** Sniffing *)

#[local] Instance byte_eq_decision : EqDecision Byte.byte := Byte.byte_eq_dec.

Definition within_tolerance (declared actual tolerance : Z) : bool :=
  Z.max declared actual - Z.min declared actual <=? tolerance.

Definition slice_starts_with (l p : bytes) : bool := bool_decide (take (length p) l = p).

Definition is_pdf (b : bytes) : bool := slice_starts_with b (bytes_of_string "%PDF-").

Definition ZIP_MAGIC : bytes := bytes_of_string "PK" ++ [Byte.x03; Byte.x04].

Section object.
(** [infer::get], as the MIME type it recognises. *)
Context (infer_get : bytes → option string).

Definition infer_binary (b : bytes) : option string :=
  mime ← infer_get b; if starts_with mime "text/" then None else Some mime.

Definition polyglot_matches (b : bytes) : list string :=
  let all := option_list (infer_get b) in
  let all := if is_pdf b && negb (bool_decide ("application/pdf" ∈ all)) then all ++ ["application/pdf"] else all in
  if slice_starts_with b ZIP_MAGIC && negb (bool_decide ("application/zip" ∈ all))
  then all ++ ["application/zip"] else all.

Definition attrs (head : ObjectMeta) (content_type : string) : ValidatedAttrs :=
  mkAttrs (om_size head) (om_etag head) content_type.

Definition validate_text (subtype : string) (sniff : bytes) (head : ObjectMeta) : result ValidatedAttrs ObjectReject :=
  match infer_binary sniff with
  | Some binary => Err (ContentTypeMismatch subtype binary)
  | None =>
      ensure looks_like_utf8_text sniff else Utf8DecodeFailed;
      Ok (attrs head subtype)
  end.

Definition validate_pdf (sniff : bytes) (head : ObjectMeta) (policy : ObjectPolicy)
  : result ValidatedAttrs ObjectReject :=
  ensure is_pdf sniff
    else ContentTypeMismatch "application/pdf" (default "unknown" (infer_binary sniff));
  ensure om_size head <=? op_pdf_max_input_bytes policy else SizeMismatch (om_size head) (om_size head);
  let matched := polyglot_matches sniff in
  ensure negb (op_reject_polyglots policy &&
               (1 <? length (filter (λ t, t ∈ op_allowed_content_types policy) matched))%nat)
    else Polyglot matched;
  Ok (attrs head "application/pdf").

(** The text after the last [c]; the whole when there is none. *)
Fixpoint after_last (c : ascii → bool) (s : string) (acc : string) : string :=
  match s with
  | EmptyString => acc
  | String a s => if c a then after_last c s s else after_last c s acc
  end.

Definition rsplit_once (c : ascii) (s : string) : option (string * string) :=
  if has_char c s then
    let ext := after_last (Ascii.eqb c) s s in
    Some (String.substring 0 (String.length s - String.length ext - 1) s, ext)
  else None.

Definition ascii_alphanumeric (a : ascii) : bool := is_lower a || is_upper a || is_digit a.

Definition ending_of (filename : option string) : option string :=
  name ← filename;
  let base := after_last (one_of ["/"; "092"]%char) name name in
  '(stem, ext) ← rsplit_once "." base;
  if is_empty stem then None
  else
    let ext := to_ascii_lowercase ext in
    if is_empty ext || (16 <? String.length ext)%nat || negb (all_chars ascii_alphanumeric ext) then None
    else Some ext.

Definition probe (sniff : bytes) (head : ObjectMeta) (policy : ObjectPolicy) : result ValidatedAttrs ObjectReject :=
  if is_pdf sniff then validate_pdf sniff head policy
  else
    match infer_binary sniff with
    | Some _ => Err NotInAllowlist
    | None => if looks_like_utf8_text sniff then Ok (attrs head "text/plain") else Err NotInAllowlist
    end.

(** [dispatch], and the validator it chooses or the prober. *)
Definition dispatch (ending : option string) (sniff : bytes) (head : ObjectMeta) (policy : ObjectPolicy)
  : result ValidatedAttrs ObjectReject :=
  match ending with
  | None => probe sniff head policy
  | Some e =>
      if String.eqb e "pdf" then validate_pdf sniff head policy
      else if String.eqb e "html" || String.eqb e "htm" then validate_text "text/html" sniff head
      else if String.eqb e "md" || String.eqb e "markdown" then validate_text "text/markdown" sniff head
      else if String.eqb e "txt" then validate_text "text/plain" sniff head
      else probe sniff head policy
  end.

(** Steps 3 and 4 of [validate_uploaded_object]. *)
Definition confirm (filename : option string) (sniff : bytes) (head : ObjectMeta) (policy : ObjectPolicy)
  : result ValidatedAttrs ObjectReject :=
  let? validated := dispatch (ending_of filename) sniff head policy in
  ensure bool_decide (va_sniffed_content_type validated ∈ op_allowed_content_types policy) else NotInAllowlist;
  Ok validated.
End object.

(** *** Active content *)

Fixpoint contains_subslice (haystack needle : bytes) : bool :=
  match haystack with
  | [] => false
  | _ :: rest =>
      (negb (bool_decide (needle = [])) && slice_starts_with haystack needle) || contains_subslice rest needle
  end.

Definition ACTIVE_CONTENT_TOKENS : list string :=
  ["/JavaScript"; "/JS"; "/OpenAction"; "/AA"; "/Launch"; "/EmbeddedFile"].

Definition scan_active_content (b : bytes) : option string :=
  List.find (λ tok, contains_subslice b (bytes_of_string tok)) ACTIVE_CONTENT_TOKENS.

(** ** Text *)

Record Content : Type := mkContent { ct_text : string; ct_format : string; ct_extractor : string }.

Fixpoint join_from (last_page : option Z) (words : list Word) : string :=
  match words with
  | [] => EmptyString
  | w :: words =>
      (match last_page with
       | Some p => if p =? wd_page w then " " else newline
       | None => EmptyString
       end) +:+ wd_text w +:+ join_from (Some (wd_page w)) words
  end.

Definition join_words (words : list Word) : string := join_from None words.

Section extract.
(** [PdftotextExtractor::extract] and [html2text::from_read]. *)
Context (pdftotext : bytes → result (list Word) string) (html2text : bytes → result string string).

Definition utf8_valid (b : bytes) : bool := bool_decide (utf8_error (length b) (octets b) 0 = None).

Definition extract_pdf (b : bytes) : result Content string :=
  let? words := pdftotext b in Ok (mkContent (join_words words) "text" "pdftotext").

Definition extract_text_like (b : bytes) (content_type : string) : result Content string :=
  ensure utf8_valid b else "object is not valid UTF-8";
  Ok (mkContent (string_of_bytes b) (if String.eqb content_type "text/markdown" then "markdown" else "text") "passthrough").

Definition extract_html (b : bytes) : result Content string :=
  ensure utf8_valid b else "html object is not valid UTF-8";
  let? text := result_map_err (λ e, "html render failed: " +:+ e) (html2text b) in
  Ok (mkContent text "text" "html2text").

Definition extract_text (content_type : string) (b : bytes) : result Content string :=
  if String.eqb content_type "application/pdf" then extract_pdf b
  else if String.eqb content_type "text/plain" || String.eqb content_type "text/markdown"
  then extract_text_like b content_type
  else if String.eqb content_type "text/html" then extract_html b
  else Err ("text extraction not supported for content-type " +:+ content_type).
End extract.

(** ** Properties *)

(** How deep containers are nested. *)
Fixpoint nesting (v : json) : nat :=
  match v with
  | JObject m => S (foldr Nat.max 0%nat (map (λ '(_, x), nesting x) m))
  | JArray a => S (foldr Nat.max 0%nat (map nesting a))
  | _ => 0%nat
  end.

Lemma max_or_shift {A} (f : A → nat) (g : A → nat) (l : list A) c :
  (∀ x, x ∈ l → f x = (S c + g x)%nat) →
  max_or (S c) (map f l) = (c + S (foldr Nat.max 0%nat (map g l)))%nat.
Proof.
  destruct l as [| x l]; intros H; [simpl; lia |].
  enough (foldr Nat.max (f x) (map f l) = (c + S (g x `max` foldr Nat.max 0 (map g l)))%nat) by done.
  assert (Hx := H x ltac:(constructor)). assert (Hl : ∀ y, y ∈ l → f y = (S c + g y)%nat) by (intros; apply H; by right).
  clear H. induction l as [| y l IH]; cbn [map foldr]; [lia |].
  rewrite (Hl y), IH by (first [constructor | intros; apply Hl; by right]). lia.
Qed.

(** Structural induction through the containers. *)
Lemma json_ind' (P : json → Prop) :
  P JNull → (∀ b, P (JBool b)) → (∀ n, P (JNumber n)) → (∀ s, P (JString s)) →
  (∀ l, (∀ x, x ∈ l → P x) → P (JArray l)) →
  (∀ m, (∀ k x, (k, x) ∈ m → P x) → P (JObject m)) → ∀ v, P v.
Proof.
  intros H1 H2 H3 H4 HA HO. fix IH 1. intros [| b | n | s | l | m]; [auto..| |].
  - apply HA. induction l as [| x l IHl]; intros y Hy; [clear IH; by apply elem_of_nil in Hy |].
    apply elem_of_cons in Hy as [-> | Hy]; [apply IH | clear IH; by apply IHl].
  - apply HO. induction m as [| [k' x] m IHm]; intros k y Hy; [clear IH; by apply elem_of_nil in Hy |].
    apply elem_of_cons in Hy as [[= _ ->] | Hy]; [apply IH | clear IH; by eapply IHm].
Qed.

(** Fact: [json_depth] is the nesting of the value. *)
Theorem json_depth_is_nesting v current : json_depth v current = (current + nesting v)%nat.
Proof.
  revert current. induction v as [| | | | l IH | m IH] using json_ind'; intros current; simpl; try lia.
  - apply max_or_shift. intros x Hx. by rewrite IH.
  - apply max_or_shift. intros [k x] Hx. by rewrite (IH k).
Qed.

(** *** Sanitizing *)

Lemma filter_scalar cs (P : Z → Prop) `{∀ c, Decision (P c)} : Forall is_scalar cs → Forall is_scalar (filter P cs).
Proof. rewrite !Forall_forall. intros Hcs c [_ ?]%list_elem_of_filter. by apply Hcs. Qed.

Lemma chars_scalar s : valid_utf8 s = true → Forall is_scalar (chars s).
Proof.
  unfold valid_utf8. intros [Hs _]%andb_true_iff. apply Forall_forall. intros c Hc.
  assert (is_scalarb c = true) as Hb by (eapply forallb_forall; [done | by apply list_elem_of_In]).
  unfold is_scalarb in Hb. unfold is_scalar. apply andb_true_iff in Hb as [[?%Z.leb_le ?%Z.ltb_lt]%andb_true_iff _]. lia.
Qed.

Lemma collect_chars s : valid_utf8 s = true → collect (chars s) = s.
Proof. unfold valid_utf8. intros [_ H]%andb_true_iff. by apply bool_decide_eq_true in H. Qed.

Lemma trim_start_incl cs c : c ∈ trim_start cs → c ∈ cs.
Proof. induction cs as [| c' cs IH]; simpl; [done |]. destruct (is_whitespace c'); [right; auto | done]. Qed.

Lemma trim_chars_incl cs c : c ∈ trim_chars cs → c ∈ cs.
Proof. unfold trim_chars. intros H. apply trim_start_incl. apply elem_of_reverse, trim_start_incl, elem_of_reverse, H. Qed.

(** The characters a sanitized text has. *)
Lemma sanitize_chars s max :
  valid_utf8 s = true →
  chars (sanitize_text s max) = take max (trim_chars (filter (λ c, is_disallowed_char c = false) (chars s))).
Proof.
  intros Hs. apply chars_scalar in Hs. unfold sanitize_text, trim.
  assert (Forall is_scalar (filter (λ c, is_disallowed_char c = false) (chars s))) as Hf by by apply filter_scalar.
  rewrite (chars_collect (filter _ _)) by done.
  assert (Forall is_scalar (trim_chars (filter (λ c, is_disallowed_char c = false) (chars s)))) as Ht.
  { rewrite Forall_forall in Hf |- *. intros c Hc. by apply Hf, trim_chars_incl. }
  rewrite (chars_collect (trim_chars _)) by done. rewrite chars_collect; [done |]. by apply Forall_take.
Qed.

Lemma trim_start_fixed cs : trim_start (trim_start cs) = trim_start cs.
Proof. induction cs as [| c cs IH]; simpl; [done |]. destruct (is_whitespace c) eqn:Hc; [done |]. simpl. by rewrite Hc. Qed.

(** A suffix that [trim_start] leaves alone when it leaves the whole alone. *)
Lemma trim_start_id cs : trim_start cs = cs ↔ ∀ c, head cs = Some c → is_whitespace c = false.
Proof.
  destruct cs as [| c cs]; simpl; [naive_solver |]. destruct (is_whitespace c) eqn:Hc; split.
  - intros H. exfalso. assert (∀ l, (length (trim_start l) ≤ length l)%nat) as Hlen.
    { induction l as [| c' l IH]; simpl; [lia |]. destruct (is_whitespace c'); simpl; lia. }
    specialize (Hlen cs). rewrite H in Hlen. simpl in Hlen. lia.
  - intros H. specialize (H c eq_refl). congruence.
  - by intros _ c' [= <-].
  - done.
Qed.

Lemma trim_start_last cs : trim_start cs = [] ∨ last (trim_start cs) = last cs.
Proof.
  induction cs as [| c cs IH]; simpl; [by left |]. destruct (is_whitespace c); [| by right].
  destruct cs as [| c' cs]; [by left |]. destruct IH as [-> | ->]; [by left | by right].
Qed.

Lemma filter_all_kept {A} (P : A → Prop) `{∀ x, Decision (P x)} l : Forall P l → filter P l = l.
Proof. induction 1 as [| x l Hx _ IH]; [done |]. by rewrite filter_cons, decide_True, IH by done. Qed.

(** Fact: a sanitized text has no control character but tab and line ends, no
    bidirectional override, and at most [max] characters; and what the limit did not
    cut is sanitized already. *)
Theorem sanitize_text_clean s max :
  valid_utf8 s = true →
  Forall (λ c, is_disallowed_char c = false) (chars (sanitize_text s max)) ∧
  (chars_count (sanitize_text s max) ≤ max)%nat ∧
  ((chars_count (sanitize_text s max) < max)%nat → sanitize_text (sanitize_text s max) max = sanitize_text s max).
Proof.
  intros Hs. set (cs := filter (λ c, is_disallowed_char c = false) (chars s)).
  assert (Hc : Forall (λ c, is_disallowed_char c = false) (trim_chars cs)).
  { apply Forall_forall. intros c Hc%trim_chars_incl. by apply list_elem_of_filter in Hc as [? _]. }
  assert (Hch := sanitize_chars s max Hs). fold cs in Hch.
  split_and!; [rewrite Hch; by apply Forall_take | unfold chars_count; rewrite Hch, length_take; lia |].
  unfold chars_count. rewrite Hch, length_take. intros Hlt.
  unfold sanitize_text at 1. rewrite Hch, (take_ge (trim_chars cs)) by lia.
  rewrite (filter_all_kept _ (trim_chars cs)) by done.
  assert (Forall is_scalar (trim_chars cs)) as Hsc.
  { apply Forall_forall. intros c Hin%trim_chars_incl. apply list_elem_of_filter in Hin as [_ Hin].
    apply chars_scalar in Hs. rewrite Forall_forall in Hs. by apply Hs. }
  unfold trim. rewrite (chars_collect (trim_chars cs)) by done.
  assert (trim_chars (trim_chars cs) = trim_chars cs) as Htt.
  { unfold trim_chars at 1. set (mid := trim_chars cs).
    assert (trim_start mid = mid) as Hmid.
    { apply trim_start_id. intros c Hhd. unfold mid, trim_chars in Hhd. rewrite head_reverse in Hhd.
      destruct (trim_start_last (reverse (trim_start cs))) as [He | He]; rewrite He in Hhd; [done |].
      rewrite last_reverse in Hhd. pose proof (proj1 (trim_start_id (trim_start cs)) (trim_start_fixed cs)) as H. by apply H. }
    rewrite Hmid. unfold mid, trim_chars. by rewrite reverse_involutive, trim_start_fixed. }
  rewrite Htt, chars_collect, take_ge by (done || lia).
  unfold sanitize_text, trim. fold cs. rewrite (chars_collect cs), (chars_collect (trim_chars cs)), take_ge; [done | lia | done |].
  apply filter_scalar. by apply chars_scalar.
Qed.

(** Cut at the limit, it may end in a space that a second pass would drop. *)
Example sanitize_cut : sanitize_text "ab cd" 3 = "ab " ∧ sanitize_text "ab " 3 = "ab".
Proof. by vm_compute. Qed.

(** *** Requests *)

Lemma ensure_ok {E} (c : bool) (e : E) (r : result unit E) : (if c then r else Err e) = Ok tt ↔ c = true ∧ r = Ok tt.
Proof. destruct c; naive_solver. Qed.

Lemma check_present_ok {A} field (v : option A) : check_present field v = Ok tt ↔ v = None.
Proof. unfold check_present. destruct v; simpl; split; congruence. Qed.

Lemma bind_ok {A E} (r : result A E) (k : A → result unit E) :
  result_bind r k = Ok tt ↔ ∃ a, r = Ok a ∧ k a = Ok tt.
Proof. destruct r; simpl; naive_solver. Qed.

Lemma bind_unit_ok {E} (r : result unit E) (k : unit → result unit E) :
  result_bind r k = Ok tt ↔ r = Ok tt ∧ k tt = Ok tt.
Proof. rewrite bind_ok. split; [intros ([] & ? & ?) | intros [? ?]; exists tt]; done. Qed.

Lemma request_metadata_ok to_vec_len v policy :
  mp_max_metadata_bytes policy < u64_max →
  check_metadata to_vec_len v policy = Ok tt ↔
  (nesting v ≤ mp_max_metadata_depth policy)%nat ∧ ∃ n, to_vec_len v = Some n ∧ n ≤ mp_max_metadata_bytes policy.
Proof.
  intros Hmax. unfold check_metadata. rewrite !ensure_ok, json_depth_is_nesting, Nat.leb_le, Z.leb_le. simpl.
  destruct (to_vec_len v) as [n |]; simpl; [naive_solver lia |]. split; [lia | naive_solver].
Qed.

Lemma request_title_ok title policy :
  check_title title policy = Ok tt ↔ ∀ t, title = Some t → (chars_count t ≤ mp_max_title_chars policy)%nat.
Proof. unfold check_title. destruct title as [t |]; [rewrite ensure_ok, Nat.leb_le |]; naive_solver. Qed.

(** Fact: a request passes the gate exactly when it sets no server-derived field, its
    optional identifiers have their shape when present, its size is positive and
    within the limit, its title is not too long, and its metadata is bounded in depth
    and serialized size. *)
Theorem request_gate to_vec_len req policy :
  mp_max_metadata_bytes policy < u64_max → 0 ≤ ur_size req →
  validate_ingestion_metadata to_vec_len req policy = Ok tt ↔
  (ur_tenant_id req = None ∧ ur_user_id req = None ∧ ur_storage_uri req = None ∧ ur_key req = None ∧
   ur_upload_id req = None) ∧
  ur_source_type req ≠ Some "" ∧
  (∀ cid, ur_canonical_id req = Some cid → cid ≠ "" ∧ mp_canonical_id_pattern policy cid = true) ∧
  (∀ uri, ur_source_uri req = Some uri → uri ≠ "" ∧ is_plausible_uri uri = true) ∧
  0 < ur_size req ≤ mp_max_size_bytes policy ∧
  (∀ t, ur_title req = Some t → (chars_count t ≤ mp_max_title_chars policy)%nat) ∧
  (nesting (ur_metadata req) ≤ mp_max_metadata_depth policy)%nat ∧
  ∃ n, to_vec_len (ur_metadata req) = Some n ∧ n ≤ mp_max_metadata_bytes policy.
Proof.
  intros Hmax Hsize. unfold validate_ingestion_metadata.
  rewrite !bind_unit_ok, !check_present_ok, !ensure_ok, bind_unit_ok, request_title_ok, request_metadata_ok by done.
  rewrite negb_true_iff, bool_decide_eq_false, negb_true_iff, orb_false_iff, Z.eqb_neq, Z.ltb_ge.
  assert (∀ (o : option string) f,
    from_option (λ s, negb (is_empty s) && f s) true o = true ↔ ∀ s, o = Some s → s ≠ "" ∧ f s = true) as ->.
  { intros [s |] f; simpl; [| naive_solver]. rewrite andb_true_iff. destruct s; simpl; naive_solver. }
  assert (∀ (o : option string) f,
    from_option (λ s, negb (is_empty s) && f s) true o = true ↔ ∀ s, o = Some s → s ≠ "" ∧ f s = true) as ->.
  { intros [s |] f; simpl; [| naive_solver]. rewrite andb_true_iff. destruct s; simpl; naive_solver. }
  assert (ur_size req ≠ 0 ∧ ur_size req ≤ mp_max_size_bytes policy ↔ 0 < ur_size req ≤ mp_max_size_bytes policy) as -> by lia.
  tauto.
Qed.

(** *** Objects *)

(** Fact: whatever name the client gave the file, an accepted object is of an allowed
    type and its first bytes back that type: a PDF begins as one and is within the
    limit, and anything else is text, not a binary infer knows. *)
Theorem accepted_type_is_backed infer_get filename sniff head policy va :
  confirm infer_get filename sniff head policy = Ok va →
  va_size va = om_size head ∧ va_etag va = om_etag head ∧
  va_sniffed_content_type va ∈ op_allowed_content_types policy ∧
  (va_sniffed_content_type va = "application/pdf" ∧ is_pdf sniff = true ∧
     om_size head ≤ op_pdf_max_input_bytes policy ∨
   va_sniffed_content_type va ∈ ["text/plain"; "text/markdown"; "text/html"] ∧
     infer_binary infer_get sniff = None ∧ looks_like_utf8_text sniff = true).
Proof.
  assert (Hpdf : ∀ va, validate_pdf infer_get sniff head policy = Ok va →
    va = attrs head "application/pdf" ∧ is_pdf sniff = true ∧ om_size head ≤ op_pdf_max_input_bytes policy).
  { unfold validate_pdf. intros va0. destruct (is_pdf sniff); [| done].
    destruct (Z.leb_spec (om_size head) (op_pdf_max_input_bytes policy)); [| done].
    destruct (negb _); [| done]. by intros [= <-]. }
  assert (Htext : ∀ t va, validate_text infer_get t sniff head = Ok va →
    va = attrs head t ∧ infer_binary infer_get sniff = None ∧ looks_like_utf8_text sniff = true).
  { unfold validate_text. intros t va0. destruct (infer_binary infer_get sniff); [done |].
    destruct (looks_like_utf8_text sniff); [| done]. by intros [= <-]. }
  assert (Hprobe : ∀ va, probe infer_get sniff head policy = Ok va →
    va = attrs head "application/pdf" ∧ is_pdf sniff = true ∧ om_size head ≤ op_pdf_max_input_bytes policy ∨
    va = attrs head "text/plain" ∧ infer_binary infer_get sniff = None ∧ looks_like_utf8_text sniff = true).
  { unfold probe. intros va0. destruct (is_pdf sniff) eqn:Hp; [intros H; left; by apply Hpdf |].
    destruct (infer_binary infer_get sniff); [done |]. destruct (looks_like_utf8_text sniff); [| done].
    intros [= <-]. by right. }
  unfold confirm. destruct (dispatch _ _ _ _ _) as [v |] eqn:Hd; [| done]. simpl.
  case_bool_decide as Hin; [| done]. intros [= <-].
  assert (v = attrs head "application/pdf" ∧ is_pdf sniff = true ∧ om_size head ≤ op_pdf_max_input_bytes policy ∨
    ∃ t, t ∈ ["text/plain"; "text/markdown"; "text/html"] ∧
      v = attrs head t ∧ infer_binary infer_get sniff = None ∧ looks_like_utf8_text sniff = true) as Hcases.
  { unfold dispatch in Hd. destruct (ending_of filename) as [e |];
      [| apply Hprobe in Hd as [? | ?]; [by left | right; eexists; split; [| done]; set_solver]].
    destruct (String.eqb e "pdf"); [left; by apply Hpdf |].
    destruct (_ || _); [right; eexists; split; [| by apply Htext]; set_solver |].
    destruct (_ || _); [right; eexists; split; [| by apply Htext]; set_solver |].
    destruct (String.eqb e "txt"); [right; eexists; split; [| by apply Htext]; set_solver |].
    apply Hprobe in Hd as [? | ?]; [by left | right; eexists; split; [| done]; set_solver]. }
  destruct Hcases as [(-> & ? & ?) | (t & Ht & -> & ? & ?)]; simpl in *; split_and!; auto.
Qed.

Lemma slice_starts_with_spec l p : slice_starts_with l p = true ↔ ∃ rest, l = p ++ rest.
Proof.
  unfold slice_starts_with. rewrite bool_decide_eq_true. split.
  - intros H. exists (drop (length p) l). by rewrite <- H at 1; rewrite take_drop.
  - intros [rest ->]. by rewrite take_app_length.
Qed.

(** Fact: the scan finds a token exactly when the bytes contain one of the six, and
    then names the first of the list. *)
Theorem active_content_scan b :
  scan_active_content b = None ↔
  ∀ tok, tok ∈ ACTIVE_CONTENT_TOKENS → ∀ before rest, b ≠ before ++ bytes_of_string tok ++ rest.
Proof.
  assert (Hsub : ∀ needle, needle ≠ [] → ∀ h,
    contains_subslice h needle = true ↔ ∃ before rest, h = before ++ needle ++ rest).
  { intros needle Hne h. induction h as [| x h IH]; simpl.
    - split; [done |]. intros ([|] & rest & H); [by destruct needle | done].
    - rewrite orb_true_iff, andb_true_iff, negb_true_iff, bool_decide_eq_false, slice_starts_with_spec, IH. split.
      + intros [[_ [rest H]] | (before & rest & ->)]; [by exists [], rest | by exists (x :: before), rest].
      + intros ([| y before] & rest & H); [left; eauto |]. injection H as <- ->. right. eauto. }
  assert (Htok : ∀ tok, tok ∈ ACTIVE_CONTENT_TOKENS → bytes_of_string tok ≠ []).
  { apply Forall_forall. repeat constructor; intros H; vm_compute in H; discriminate. }
  unfold scan_active_content. split.
  - intros Hf tok Hin before rest ->.
    assert (Hno := find_none _ _ Hf tok (proj1 (list_elem_of_In _ _) Hin)). simpl in Hno.
    enough (contains_subslice (before ++ bytes_of_string tok ++ rest) (bytes_of_string tok) = true) by congruence.
    apply Hsub; [by apply Htok | by exists before, rest].
  - intros Hno. destruct (List.find _ _) as [tok |] eqn:Hf; [| done].
    apply find_some in Hf as [Hin%list_elem_of_In Hc]. exfalso.
    apply Hsub in Hc as (before & rest & ->); [by eapply Hno | by apply Htok].
Qed.

(** The tests of format.rs and sniff.rs. *)
Example endings :
  map ending_of [Some "paper.pdf"; Some "PAPER.PDF"; Some "a.tar.gz"; Some "/etc/passwd.txt"; Some "noext";
                 Some ".gitignore"; Some "trailing."; Some "weird.tar!evil"; Some "x.superlongextension"; None] =
  [Some "pdf"; Some "pdf"; Some "gz"; Some "txt"; None; None; None; None; None; None].
Proof. by vm_compute. Qed.

Example utf8_prefixes :
  looks_like_utf8_text [Byte.x68; Byte.x69; Byte.xc3] = true ∧
  looks_like_utf8_text (bytes_of_string "plain ascii") = true ∧
  looks_like_utf8_text [Byte.xff; Byte.xfe; Byte.x00] = false.
Proof. by vm_compute. Qed.
