(* ===== verification/OldUpload.v ===== *)
(** * Uploads of the previous back end

    old/backend/src/ingestion/uploads.rs and completion.rs: the four upload endpoints
    and the stages between the last part and the document, as programs over their
    calls of the object store, the database and the extractor.  Errors are their
    texts; instants are nanoseconds and the TTLs of the configuration seconds. *)

From Stdlib Require Import SpecFloat.
From S2P Require Import Prelude Text OldChunk OldTurn OldIngest.

Local Open Scope Z_scope.

(** ** Configuration *)

Record UploadsConfig : Type := mkUploadsConfig {
  uc_part_size_bytes : Z;
  uc_part_url_ttl : Z;
  uc_download_url_ttl : Z;
  uc_session_ttl : Z;
  uc_metadata_policy : MetadataPolicy;
  uc_object_policy : ObjectPolicy;
  uc_bucket : string;
}.

Section from_env.
Context (env : string → option string).

Definition parse_env_u64 (key : string) (default : Z) : Z := from_option id default (env key ≫= parse_u64).

Definition listed (value : string) : list string :=
  filter (λ s, is_empty s = false) (map trim (split "," value)).

Definition parse_field (s : string) : option MetadataField :=
  let s := to_ascii_lowercase s in
  if String.eqb s "title" then Some FTitle
  else if String.eqb s "authors" then Some FAuthors
  else if String.eqb s "summary" then Some FSummary
  else if String.eqb s "language" then Some FLanguage
  else None.

Definition truthy (v : string) : bool := String.eqb v "true" || String.eqb v "1" || String.eqb v "yes".

Definition metadata_policy_from_env : MetadataPolicy :=
  let p := default_policy in
  mkPolicy
    (from_option listed (mp_allowed_content_types p) (env "DELPHI_INGEST_ALLOWED_CONTENT_TYPES"))
    (parse_env_u64 "DELPHI_INGEST_UPLOAD_MAX_FILE_SIZE_BYTES" (mp_max_size_bytes p))
    (mp_max_title_chars p) (mp_max_summary_chars p) (mp_max_authors p) (mp_max_author_chars p)
    (mp_max_metadata_depth p) (mp_max_metadata_bytes p) (mp_canonical_id_pattern p)
    (from_option (λ fields, remove_dups (omap (λ s, parse_field (trim s)) (split "," fields)))
       (mp_required_fields p) (env "DELPHI_INGEST_REQUIRED_METADATA_FIELDS")).

Definition object_policy_from_env : ObjectPolicy :=
  let p := default_object_policy in
  mkObjectPolicy (mp_allowed_content_types metadata_policy_from_env) (op_size_tolerance_bytes p)
    (parse_env_u64 "DELPHI_INGEST_VALIDATOR_SNIFF_WINDOW_BYTES" (op_sniff_window_bytes p))
    (parse_env_u64 "DELPHI_INGEST_VALIDATOR_PDF_MAX_INPUT_BYTES" (op_pdf_max_input_bytes p))
    (from_option truthy (op_reject_polyglots p) (env "DELPHI_INGEST_VALIDATOR_REJECT_POLYGLOTS"))
    (from_option truthy (op_reject_pdf_active_content p) (env "DELPHI_INGEST_VALIDATOR_REJECT_PDF_ACTIVE_CONTENT")).

Definition config_from_env : UploadsConfig :=
  mkUploadsConfig (parse_env_u64 "INGEST_UPLOAD_PART_SIZE_BYTES" (8 * 1024 * 1024))
    (parse_env_u64 "INGEST_UPLOAD_PART_URL_TTL_SECS" 900)
    (parse_env_u64 "INGEST_DOWNLOAD_URL_TTL_SECS" 120)
    (parse_env_u64 "INGEST_UPLOAD_SESSION_TTL_SECS" 3600)
    metadata_policy_from_env object_policy_from_env (default "delphi" (env "DELPHI_INGEST_S3_BUCKET")).
End from_env.

(** ** Rows and bodies *)

Record AuthContext : Type := mkAuth { au_tenant_id : RecordId; au_user_id : RecordId; au_roles : list string }.

Record CreateUploadSessionParams : Type := mkParams {
  cp_doc_id : string;
  cp_s3_key : string;
  cp_s3_upload_id : string;
  cp_canonical_id : option string;
  cp_dedup_key : option string;
  cp_source_type : string;
  cp_source_uri : string;
  cp_title : option string;
  cp_filename : option string;
  cp_declared_size : Z;
  cp_declared_content_type : string;
  cp_declared_metadata : json;
}.

Record UploadSession : Type := mkUpload {
  us_tenant_id : option RecordId;
  us_user_id : option RecordId;
  us_doc_id : string;
  us_s3_key : string;
  us_s3_upload_id : string;
  us_state : string;
  us_canonical_id : option string;
  us_source_type : string;
  us_source_uri : string;
  us_title : option string;
  us_filename : option string;
  us_declared_size : Z;
  us_declared_metadata : json;
  us_started_at : option Z;
}.

Record Document : Type := mkDocument {
  do_id : option RecordId;
  do_tenant_id : option RecordId;
  do_canonical_id : option string;
  do_source_type : string;
  do_source_uri : string;
  do_storage_uri : option string;
  do_title : option string;
  do_authors : list string;
  do_published_at : option Z;
  do_ingested_at : option Z;
  do_language : option string;
  do_summary : option string;
  do_paper_embedding : option (list spec_float);
  do_paper_embedding_model : option string;
  do_content_hash : string;
  do_version : Z;
  do_metadata : json;
}.

Record IngestionRejection : Type := mkRejection {
  ij_tenant_id : RecordId;
  ij_user_id : RecordId;
  ij_doc_id : string;
  ij_reason : string;
  ij_sniffed_type : option string;
}.

Record PartRef : Type := mkPart { pr_part_number : Z; pr_etag : string }.

Inductive CommitError : Type :=
| ExistingDoc (existing_doc_id : string)
| OtherError (e : string).

Inductive UploadBody : Type :=
| UText (s : string)
| UError (debug : string)
| UState (state : string)
| UCreated (doc_id key upload_id : string) (part_size_bytes part_url_ttl_secs : Z)
| UUrl (url : string)
| UReady (doc_id : string)
| UConflict (state : string) (existing_doc_id : option string)
| URejected (reason : string)
| UUploading
| UValidating.

Definition Response : Type := Z * UploadBody.

(** ** The calls *)

Inductive UploadE : Type → Type :=
| HeadObject (key : string) : UploadE (result ObjectMeta string)
| GetRange (key : string) (lo hi : Z) : UploadE (result bytes string)
| DeleteObject (key : string) : UploadE (result unit string)
| CreateMultipart (key content_type : string) : UploadE (result string string)
| CompleteMultipart (key upload_id : string) (parts : list PartRef) : UploadE (result unit string)
| AbortMultipart (key upload_id : string) : UploadE (result unit string)
| MintPart (key upload_id : string) (part_number ttl : Z) : UploadE (result string string)
| ResolveTenantSlug : UploadE (result string string)
| NewUlid : UploadE string
| UtcNow : UploadE Z
| CreateSession (params : CreateUploadSessionParams) : UploadE (result unit string)
| GetSession (doc_id : string) : UploadE (result (option UploadSession) string)
| CasState (doc_id from to : string) : UploadE (result bool string)
| DeleteSession (doc_id : string) : UploadE (result unit string)
| SysDeleteSession (doc_id : string) : UploadE (result unit string)
| RecordRejection (rej : IngestionRejection) : UploadE (result unit string)
| GetRejection (doc_id : string) : UploadE (result (option IngestionRejection) string)
| LookupDocument (id : RecordId) : UploadE (result bool string)
| ExtractText (content_type : string) (b : bytes) : UploadE (result Content string)
| ExtractMetadata (text : string) (prefill : DocumentPrefill) : UploadE (result ExtractedMetadata string)
| CommitUpload (doc_id : string) (doc : Document) (content : Content) (dedup_key : option string)
  : UploadE (result RecordId CommitError).

(** What a program with this result does with a failure. *)
Notation "'try?' x := p 'in' k" :=
  (prog_bind p (λ r, match r with Ok x => k | Err e => Ret (Err e) end))
  (at level 200, x pattern, p at level 100, k at level 200, only parsing).

Section uploads.
(** serde_json, [to_sql], infer, and the lower case of a ULID's letters is ASCII. *)
Context {J : SseJson} (to_vec_len : json → option Z) (infer_get : bytes → option string).
Context (cfg : UploadsConfig) (auth : AuthContext).

Abbreviation policy := (uc_metadata_policy cfg).
Abbreviation object_policy := (uc_object_policy cfg).

(** ** Completion *)

Inductive CompletionError : Type :=
| ObjectRejected (r : ObjectReject)
| MetadataRejected (reason : string)
| CommitFailed (e : string)
| CanonicalIdConflict (existing_doc_id : string).

(** [format!("{rej:?}")] *)
Definition reject_debug (r : MetadataReject) : string :=
  match r with
  | DisallowedContentType => "DisallowedContentType"
  | SizeExceedsLimit => "SizeExceedsLimit"
  | TitleTooLong => "TitleTooLong"
  | MetadataTooDeep => "MetadataTooDeep"
  | MetadataTooLarge => "MetadataTooLarge"
  | InvalidCanonicalId => "InvalidCanonicalId"
  | InvalidSourceUri => "InvalidSourceUri"
  | MalformedRequest reason => "MalformedRequest(" +:+ quote +:+ reason +:+ quote +:+ ")"
  end.

Definition validate_uploaded_object (filename : option string) (key : string) (declared_size : Z)
  : prog UploadE (result ValidatedAttrs ObjectReject) :=
  let* head := call (HeadObject key) in
  match head with
  | Err e => Ret (Err (HeadFailed e))
  | Ok head =>
      if negb (within_tolerance declared_size (om_size head) (op_size_tolerance_bytes object_policy))
      then Ret (Err (SizeMismatch declared_size (om_size head)))
      else
        let window_end := Z.min (op_sniff_window_bytes object_policy) (om_size head) in
        let* sniff := if window_end =? 0 then Ret (Ok []) else call (GetRange key 0 window_end) in
        Ret (match sniff with
             | Err e => Err (SniffFailed e)
             | Ok sniff => confirm infer_get filename sniff head object_policy
             end)
  end.

Definition storage_uri_for_key (bucket key : string) : string :=
  "s3://" +:+ bucket +:+ "/" +:+ default key (strip_prefix "/" key).

(** [trim_matches(quote)] *)
Definition trim_quotes (s : string) : string :=
  let is_quote := λ c, c =? 34 in
  let fix strip (l : list Z) := match l with c :: l' => if is_quote c then strip l' else l | [] => [] end in
  collect (reverse (strip (reverse (strip (chars s))))).

Definition dedup_key (tenant_id : RecordId) (canonical_id : option string) : option string :=
  (λ cid, to_sql tenant_id +:+ "|" +:+ cid) <$> canonical_id.

Definition document (session : UploadSession) (etag : string) (merged : ExtractedMetadata) : Document :=
  mkDocument None None (us_canonical_id session) (us_source_type session) (us_source_uri session)
    (Some (storage_uri_for_key (uc_bucket cfg) (us_s3_key session))) (em_title merged) (em_authors merged)
    (em_published_at merged) None (em_language merged) (em_summary merged) None None (trim_quotes etag) 1
    (ensure_object (em_extra merged)).

Definition commit_document (session : UploadSession) (etag : string) (merged : ExtractedMetadata) (content : Content)
  : prog UploadE (result RecordId CompletionError) :=
  let doc := document session etag merged in
  let dedup := dedup_key (au_tenant_id auth) (do_canonical_id doc) in
  let* r := call (CommitUpload (us_doc_id session) doc content dedup) in
  Ret (match r with
       | Ok id => Ok id
       | Err (ExistingDoc existing) => Err (CanonicalIdConflict existing)
       | Err (OtherError e) => Err (CommitFailed e)
       end).

(** [x as u64] for [x : i64]. *)
Definition i64_cast_u64 (x : Z) : Z := x mod (u64_max + 1).

(** Stage 4c. *)
Definition scan_pdf (validated : ValidatedAttrs) (b : bytes) : result unit CompletionError :=
  if op_reject_pdf_active_content object_policy && String.eqb (va_sniffed_content_type validated) "application/pdf" then
    match scan_active_content b with
    | Some _ => Err (ObjectRejected PdfActiveContent)
    | None => Ok tt
    end
  else Ok tt.

Definition empty_content : Content := mkContent EmptyString "text" "none".

(** Stages 7 to 9: what the extractor said, if it is valid, under what the user
    said, sanitized and checked. *)
Definition merge_stages (now now' : Z) (prefill : DocumentPrefill) (autofilled : ExtractedMetadata)
  : result ExtractedMetadata CompletionError :=
  let autofilled :=
    if is_ok (validate_descriptive_metadata to_vec_len now (view_of autofilled) policy)
    then autofilled else extracted_default in
  let merged := sanitize_merged (merge_metadata prefill autofilled) policy in
  match validate_descriptive_metadata to_vec_len now' (view_of merged) policy with
  | Ok _ => Ok merged
  | Err r => Err (MetadataRejected (reject_debug r))
  end.

Definition run_completion (session : UploadSession) (prefill : DocumentPrefill)
  : prog UploadE (result RecordId CompletionError) :=
  let* validated :=
    validate_uploaded_object (us_filename session) (us_s3_key session) (i64_cast_u64 (us_declared_size session)) in
  match validated with
  | Err r => Ret (Err (ObjectRejected r))
  | Ok validated =>
      let* read := call (GetRange (us_s3_key session) 0 (op_pdf_max_input_bytes object_policy)) in
      match read with
      | Err e => Ret (Err (CommitFailed ("read-back failed: " +:+ e)))
      | Ok b =>
          match scan_pdf validated b with
          | Err e => Ret (Err e)
          | Ok _ =>
              let* content := call (ExtractText (va_sniffed_content_type validated) b) in
              let content := match content with Ok c => c | Err _ => empty_content end in
              let* autofilled := call (ExtractMetadata (ct_text content) prefill) in
              let autofilled := match autofilled with Ok m => m | Err _ => extracted_default end in
              let* now := call UtcNow in
              let* now' := call UtcNow in
              match merge_stages now now' prefill autofilled with
              | Err e => Ret (Err e)
              | Ok merged => commit_document session (va_etag validated) merged content
              end
          end
      end
  end.

(** ** The endpoints *)

Definition INGESTER_ROLE : string := "ingester".

(** [require_ingester], with the rest of the handler. *)
Definition as_ingester (k : prog UploadE Response) : prog UploadE Response :=
  if bool_decide (INGESTER_ROLE ∈ au_roles auth) then k else Ret (403, UText "ingester role required").

Definition key_for (tenant_slug doc_id : string) : string := "tenants/" +:+ tenant_slug +:+ "/" +:+ doc_id.

Definition metadata_reject_status (r : MetadataReject) : Z :=
  match r with SizeExceedsLimit | MetadataTooLarge | MetadataTooDeep => 413 | _ => 400 end.

(** [s.contains(needle)] *)
Fixpoint contains (s needle : string) : bool :=
  starts_with s needle || match s with EmptyString => false | String _ s => contains s needle end.

Definition session_params (req : CreateUploadRequest) (doc_id key upload_id content_type : string)
  : CreateUploadSessionParams :=
  mkParams doc_id key upload_id (ur_canonical_id req) (dedup_key (au_tenant_id auth) (ur_canonical_id req))
    (resolved_source_type req) (default ("urn:delphi:manual:" +:+ doc_id) (ur_source_uri req)) (ur_title req)
    (ur_filename req) (ur_size req) content_type (ur_metadata req).

Definition create_upload (req : CreateUploadRequest) : prog UploadE Response :=
  as_ingester
    (match validate_ingestion_metadata to_vec_len req policy with
     | Err rej => Ret (metadata_reject_status rej, UError (reject_debug rej))
     | Ok _ =>
         let* slug := call ResolveTenantSlug in
         match slug with
         | Err _ => Ret (500, UText "tenant resolve failed")
         | Ok tenant_slug =>
             let* ulid := call NewUlid in
             let doc_id := to_ascii_lowercase ulid in
             let key := key_for tenant_slug doc_id in
             let content_type := "application/octet-stream" in
             let* upload := call (CreateMultipart key content_type) in
             match upload with
             | Err _ => Ret (502, UText "object store create_multipart_upload failed")
             | Ok upload_id =>
                 let* created := call (CreateSession (session_params req doc_id key upload_id content_type)) in
                 match created with
                 | Ok _ => Ret (200, UCreated doc_id key upload_id (uc_part_size_bytes cfg) (uc_part_url_ttl cfg))
                 | Err msg =>
                     let* _ := call (AbortMultipart key upload_id) in
                     Ret (if contains msg "already exists" || contains msg "upload_session_canonical"
                          then (409, UError "canonical_id already in flight")
                          else (500, UText "create session failed"))
                 end
             end
         end
     end).

Definition is_own (session : UploadSession) : bool :=
  bool_decide (us_tenant_id session = Some (au_tenant_id auth)) &&
  bool_decide (us_user_id session = Some (au_user_id auth)).

(** The age beyond which a session is gone: the TTL, as far as chrono can hold it. *)
Definition session_limit : Z := Z.min (uc_session_ttl cfg * 1000000000) (i64_max * 1000000).

Definition sign_upload_part (doc_id : string) (part_number : Z) : prog UploadE Response :=
  as_ingester
    (if (part_number =? 0) || (10000 <? part_number) then Ret (400, UText "part_number out of range")
     else
       let* session := call (GetSession doc_id) in
       match session with
       | Err _ => Ret (500, UText "lookup failed")
       | Ok None => Ret (404, UText "session not found")
       | Ok (Some session) =>
           if negb (is_own session) then Ret (404, UText "session not found")
           else if negb (String.eqb (us_state session) "uploading") then Ret (409, UState (us_state session))
           else
             let* expired :=
               match us_started_at session with
               | None => Ret false
               | Some started_at => let* now := call UtcNow in Ret (session_limit <? now - started_at)
               end in
             if expired : bool then Ret (410, UText "session expired")
             else
               let* url := call (MintPart (us_s3_key session) (us_s3_upload_id session) part_number (uc_part_url_ttl cfg)) in
               Ret (match url with Ok url => (200, UUrl url) | Err _ => (502, UText "presign failed") end)
       end).

(** [Value::get] on an object. *)
Fixpoint lookup_key (k : string) (m : list (string * json)) : option json :=
  match m with
  | [] => None
  | (k', v) :: m => if String.eqb k' k then Some v else lookup_key k m
  end.

Definition json_get (k : string) (v : json) : option json :=
  match v with JObject m => lookup_key k m | _ => None end.

Definition as_str (v : json) : option string := match v with JString s => Some s | _ => None end.

Definition prefill_authors (meta : json) : list string :=
  match json_get "authors" meta with Some (JArray l) => omap as_str l | _ => [] end.

Definition prefill_str (meta : json) (key : string) : option string :=
  s ← json_get key meta ≫= as_str; if is_empty s then None else Some s.

Definition prefill_of (session : UploadSession) : DocumentPrefill :=
  mkPrefill (us_title session) (prefill_authors (us_declared_metadata session))
    (prefill_str (us_declared_metadata session) "summary") (prefill_str (us_declared_metadata session) "language").

Definition rejection (doc_id reason : string) (sniffed : option string) : IngestionRejection :=
  mkRejection (au_tenant_id auth) (au_user_id auth) doc_id reason sniffed.

Definition handle_reject (session : UploadSession) (reason : string) (sniffed : option string)
  : prog UploadE Response :=
  let* _ := call (DeleteObject (us_s3_key session)) in
  let* _ := call (AbortMultipart (us_s3_key session) (us_s3_upload_id session)) in
  let* _ := call (SysDeleteSession (us_doc_id session)) in
  let* _ := call (RecordRejection (rejection (us_doc_id session) reason sniffed)) in
  Ret (422, URejected reason).

(** The answer to each outcome of the completion. *)
Definition answer (doc_id : string) (session : UploadSession) (r : result RecordId CompletionError)
  : prog UploadE Response :=
  match r with
  | Ok id => Ret (200, UReady (to_sql id))
  | Err (ObjectRejected rej) =>
      handle_reject session (reason_code rej)
        (match rej with ContentTypeMismatch _ sniffed => Some sniffed | _ => None end)
  | Err (MetadataRejected reason) => handle_reject session "metadata_rejected" (Some reason)
  | Err (CanonicalIdConflict existing) =>
      let* _ := call (DeleteObject (us_s3_key session)) in
      let* _ := call (DeleteSession doc_id) in
      let* _ := call (RecordRejection (rejection doc_id "canonical_id_conflict" None)) in
      Ret (422, UConflict "rejected" (Some existing))
  | Err (CommitFailed _) => Ret (500, UText "commit failed")
  end.

Definition complete_upload (doc_id : string) (parts : list PartRef) : prog UploadE Response :=
  as_ingester
    (let* acquired := call (CasState doc_id "uploading" "validating") in
     match acquired with
     | Err _ => Ret (500, UText "cas failed")
     | Ok false =>
         let* snap := call (GetSession doc_id) in
         Ret (match snap with
              | Ok (Some s) => (409, UConflict (us_state s) None)
              | _ => (404, UText "session not found")
              end)
     | Ok true =>
         let* session := call (GetSession doc_id) in
         match session with
         | Ok (Some session) =>
             if negb (is_own session) then Ret (404, UText "session not found")
             else
               let finish_upload :=
                 let* r := run_completion session (prefill_of session) in answer doc_id session r in
               let* completed := call (CompleteMultipart (us_s3_key session) (us_s3_upload_id session) parts) in
               match completed with
               | Ok _ => finish_upload
               | Err msg =>
                   if contains msg "already" || contains msg "NoSuchUpload" then finish_upload
                   else
                     let* _ := call (CasState doc_id "validating" "uploading") in
                     Ret (502, UText "complete failed")
               end
         | _ => Ret (500, UText "session disappeared mid-flight")
         end
     end).

Definition get_upload_status (doc_id : string) : prog UploadE Response :=
  as_ingester
    (let* session := call (GetSession doc_id) in
     let committed :=
       let rid : RecordId := ("document", doc_id) in
       let* found := call (LookupDocument rid) in
       match found with
       | Ok true => Ret (200, UReady (to_sql rid))
       | _ =>
           let* rej := call (GetRejection doc_id) in
           Ret (match rej with
                | Ok (Some rej) => (200, URejected (ij_reason rej))
                | _ => (404, UText "upload not found")
                end)
       end in
     match session with
     | Ok (Some s) =>
         if is_own s
         then Ret (200, if String.eqb (us_state s) "validating" then UValidating else UUploading)
         else committed
     | _ => committed
     end).

(** ** What a completion does *)

Inductive UploadObs : Type :=
| OHead (key : string) (r : result ObjectMeta string)
| ORange (key : string) (lo hi : Z) (r : result bytes string)
| ODelete (key : string)
| OAssemble (key : string) (r : result unit string)
| OSession (doc_id : string) (r : result (option UploadSession) string)
| OCas (doc_id from to : string) (r : result bool string)
| ODeleteSession (doc_id : string)
| ORecord (rej : IngestionRejection)
| OCommit (doc_id : string) (doc : Document) (content : Content) (dedup : option string)
    (r : result RecordId CommitError)
| OOther.

Definition upload_obs (X : Type) (e : UploadE X) : X → UploadObs :=
  match e in UploadE X return X → UploadObs with
  | HeadObject key => OHead key
  | GetRange key lo hi => ORange key lo hi
  | DeleteObject key => λ _, ODelete key
  | CompleteMultipart key _ _ => OAssemble key
  | GetSession doc_id => OSession doc_id
  | CasState doc_id from to => OCas doc_id from to
  | DeleteSession doc_id | SysDeleteSession doc_id => λ _, ODeleteSession doc_id
  | RecordRejection rej => λ _, ORecord rej
  | CommitUpload doc_id doc content dedup => OCommit doc_id doc content dedup
  | _ => λ _, OOther
  end.

(** A read, or a call of the clock or the extractors. *)
Definition is_read (o : UploadObs) : bool :=
  match o with OHead _ _ | ORange _ _ _ _ | OOther => true | _ => false end.

(** The document of [session] that the reads of [tr] have earned. *)
Definition earned (session : UploadSession) (tr : list UploadObs) (doc : Document) : Prop :=
  ∃ head sniff va b,
    OHead (us_s3_key session) (Ok head) ∈ tr ∧
    within_tolerance (i64_cast_u64 (us_declared_size session)) (om_size head)
      (op_size_tolerance_bytes object_policy) = true ∧
    (sniff = [] ∨ ∃ window, ORange (us_s3_key session) 0 window (Ok sniff) ∈ tr) ∧
    confirm infer_get (us_filename session) sniff head object_policy = Ok va ∧
    ORange (us_s3_key session) 0 (op_pdf_max_input_bytes object_policy) (Ok b) ∈ tr ∧
    scan_pdf va b = Ok tt ∧
    do_content_hash doc = trim_quotes (om_etag head) ∧
    do_storage_uri doc = Some (storage_uri_for_key (uc_bucket cfg) (us_s3_key session)) ∧
    ∃ now, validate_descriptive_metadata to_vec_len now
      (mkView (do_title doc) (do_authors doc) (do_summary doc) (do_language doc) (do_published_at doc)
         (Some (do_metadata doc))) policy = Ok tt.

Lemma validate_object_exec filename key size tr r :
  exec upload_obs (validate_uploaded_object filename key size) tr r →
  Forall (λ o, is_read o = true) tr ∧
  ∀ va, r = Ok va → ∃ head sniff,
    OHead key (Ok head) ∈ tr ∧ within_tolerance size (om_size head) (op_size_tolerance_bytes object_policy) = true ∧
    (sniff = [] ∨ ∃ window, ORange key 0 window (Ok sniff) ∈ tr) ∧
    confirm infer_get filename sniff head object_policy = Ok va.
Proof.
  unfold validate_uploaded_object. intros (head & tr' & -> & Hx)%exec_vis. cbn [upload_obs].
  destruct head as [head | e]; [| destruct Hx as [-> <-]; split; [by repeat constructor | done]].
  destruct (within_tolerance _ _ _) eqn:Hw; simpl in Hx; [| destruct Hx as [-> <-]; split; [by repeat constructor | done]].
  destruct (_ =? 0).
  - destruct Hx as [-> <-]. split; [by repeat constructor |]. intros va Hva.
    exists head, []. split_and!; [by left | done | by left | done].
  - apply exec_vis in Hx as (sniff & tr'' & -> & [-> <-]). cbn [upload_obs].
    split; [by repeat constructor |]. intros va Hva. destruct sniff as [sniff | e]; [| done].
    exists head, sniff. split_and!; [by left | done | right; eexists; right; by left | done].
Qed.

Lemma merge_stages_ok now now' prefill autofilled merged :
  merge_stages now now' prefill autofilled = Ok merged →
  validate_descriptive_metadata to_vec_len now' (view_of merged) policy = Ok tt ∧
  em_extra merged = ensure_object (em_extra merged).
Proof.
  unfold merge_stages. destruct (validate_descriptive_metadata to_vec_len now' _ policy) as [[] |] eqn:Hv; [| done].
  by intros [= <-].
Qed.

Lemma run_completion_exec session prefill tr r :
  exec upload_obs (run_completion session prefill) tr r →
  Forall (λ o, is_read o = true) tr ∧
    (∃ e, r = Err e ∧ ∀ existing, e ≠ CanonicalIdConflict existing) ∨
  ∃ reads doc content dedup x,
    tr = reads ++ [OCommit (us_doc_id session) doc content dedup x] ∧
    Forall (λ o, is_read o = true) reads ∧ earned session reads doc ∧
    r = match x with
        | Ok id => Ok id
        | Err (ExistingDoc existing) => Err (CanonicalIdConflict existing)
        | Err (OtherError e) => Err (CommitFailed e)
        end.
Proof.
  unfold run_completion. intros (tr1 & tr2 & validated & -> & Hv & Hx)%exec_bind_inv.
  apply validate_object_exec in Hv as [Hreads Hva].
  destruct validated as [va | rej]; [| destruct Hx as [-> <-]; left; rewrite app_nil_r; split; [done | by eexists]].
  destruct (Hva va eq_refl) as (head & sniff & Hhead & Hsize & Hsniff & Hconf). clear Hva.
  apply exec_vis in Hx as (b & tr3 & -> & Hx). cbn [upload_obs].
  destruct b as [b | e]; [| destruct Hx as [-> <-]; left; split; [by apply Forall_app_2; [| repeat constructor] | by eexists]].
  destruct (scan_pdf va b) as [[] | e] eqn:Hscan.
  2:{ destruct Hx as [-> <-]. left. split; [by apply Forall_app_2; [| repeat constructor] |]. eexists. split; [done |].
      unfold scan_pdf in Hscan. destruct (_ && _); [| done]. destruct (scan_active_content b); [| done].
      by injection Hscan as <-. }
  apply exec_vis in Hx as (content & tr4 & -> & Hx). cbn [upload_obs].
  apply exec_vis in Hx as (auto & tr5 & -> & Hx). cbn [upload_obs].
  apply exec_vis in Hx as (now & tr6 & -> & Hx). apply exec_vis in Hx as (now' & tr7 & -> & Hx). cbn [upload_obs].
  destruct (merge_stages _ _ _ _) as [merged | e] eqn:Hm.
  2:{ destruct Hx as [-> <-]. left. split; [by apply Forall_app_2; [| repeat constructor] |]. eexists. split; [done |].
      unfold merge_stages in Hm. destruct (validate_descriptive_metadata _ now' _ _); [done |]. by injection Hm as <-. }
  apply merge_stages_ok in Hm as [Hvalid Hextra].
  unfold commit_document in Hx. apply exec_vis in Hx as (x & tr8 & -> & [-> <-]). cbn [upload_obs].
  right. exists (tr1 ++ [ORange (us_s3_key session) 0 (op_pdf_max_input_bytes object_policy) (Ok b); OOther; OOther; OOther; OOther]).
  do 4 eexists. split; [by rewrite <- (assoc_L app) |]. split; [by apply Forall_app_2; [| repeat constructor] |].
  split; [| done]. pose proof (accepted_type_is_backed _ _ _ _ _ _ Hconf) as (_ & Hetag & _).
  exists head, sniff, va, b. simpl. rewrite <- Hetag. split_and!; [set_solver | done | | done | set_solver | done | done | done |].
  - destruct Hsniff as [-> | [window Hin]]; [by left | right; exists window; set_solver].
  - exists now'. by rewrite <- Hextra.
Qed.

Definition rejected (session : UploadSession) (tr : list UploadObs) : Prop :=
  ODelete (us_s3_key session) ∈ tr ∧ (∃ id, ODeleteSession id ∈ tr) ∧ ∃ rej, ORecord rej ∈ tr.

(** The answer to an outcome: what it calls, and when it deletes. *)
Lemma answer_exec doc_id session r tr resp :
  exec upload_obs (answer doc_id session r) tr resp →
  (∀ o, o ∈ tr → ∀ id doc content dedup x, o ≠ OCommit id doc content dedup x) ∧
  ((∃ id, r = Ok id ∧ tr = [] ∧ resp = (200, UReady (to_sql id))) ∨
   (∃ e, r = Err (CommitFailed e) ∧ tr = [] ∧ resp.1 = 500) ∨
   rejected session tr ∧ resp.1 = 422 ∧ ∃ e, r = Err e ∧ ∀ m, e ≠ CommitFailed m).
Proof.
  assert (Hrej : ∀ reason sniffed, exec upload_obs (handle_reject session reason sniffed) tr resp →
    (∀ o, o ∈ tr → ∀ id doc content dedup x, o ≠ OCommit id doc content dedup x) ∧ rejected session tr ∧ resp.1 = 422).
  { intros reason sniffed Hx. unfold handle_reject in Hx.
    apply exec_vis in Hx as (? & ? & -> & Hx). apply exec_vis in Hx as (? & ? & -> & Hx).
    apply exec_vis in Hx as (? & ? & -> & Hx). apply exec_vis in Hx as (? & ? & -> & [-> <-]). cbn [upload_obs].
    split; [| split; [| done]].
    - intros o Ho. repeat (apply elem_of_cons in Ho as [-> | Ho]; [done |]). by apply elem_of_nil in Ho.
    - split_and!; [by left | eexists; right; right; by left | eexists; right; right; right; by left]. }
  intros Hx. destruct r as [id | [rej | reason | e | existing]]; cbn [answer] in Hx.
  - destruct Hx as [-> <-]. split; [by intros ? ?%elem_of_nil | left; by eexists].
  - apply Hrej in Hx as (? & ? & ?). split; [done | right; right]. split; [done | split; [done | by eexists]].
  - apply Hrej in Hx as (? & ? & ?). split; [done | right; right]. split; [done | split; [done | by eexists]].
  - destruct Hx as [-> <-]. split; [by intros ? ?%elem_of_nil | right; left; eauto].
  - apply exec_vis in Hx as (? & ? & -> & Hx). apply exec_vis in Hx as (? & ? & -> & Hx).
    apply exec_vis in Hx as (? & ? & -> & [-> <-]). cbn [upload_obs]. split.
    + intros o Ho. repeat (apply elem_of_cons in Ho as [-> | Ho]; [done |]). by apply elem_of_nil in Ho.
    + right; right. split; [split_and!; [by left | eexists; right; by left | eexists; right; right; by left] |].
      split; [done | by eexists].
Qed.

(** The completion of an own session whose parts are assembled. *)
Definition completed (doc_id : string) (session : UploadSession) (tr : list UploadObs) (resp : Response) : Prop :=
  ∃ reads commits rest, tr = reads ++ commits ++ rest ∧ Forall (λ o, is_read o = true) reads ∧
    (∀ o, o ∈ rest → ∀ id doc content dedup x, o ≠ OCommit id doc content dedup x) ∧
    (commits = [] ∨ ∃ doc content dedup x,
       commits = [OCommit (us_doc_id session) doc content dedup x] ∧ earned session reads doc ∧
       ((∃ id, x = Ok id ∧ rest = [] ∧ resp = (200, UReady (to_sql id))) ∨
        (∃ e, x = Err (OtherError e) ∧ rest = [] ∧ resp.1 = 500) ∨
        (∃ existing, x = Err (ExistingDoc existing)))) ∧
    (rest = [] ∨ rejected session rest ∧ resp.1 = 422) ∧
    (resp.1 = 422 → rejected session rest) ∧
    (resp.1 = 200 → ∃ doc content dedup id, commits = [OCommit (us_doc_id session) doc content dedup (Ok id)]) ∧
    resp.1 ≠ 502.

Lemma completed_exec doc_id session tr resp :
  exec upload_obs (let* r := run_completion session (prefill_of session) in answer doc_id session r) tr resp →
  completed doc_id session tr resp.
Proof.
  intros (tr1 & rest & r & -> & Hrun & Hans)%exec_bind_inv.
  apply answer_exec in Hans as [Hno Hans]. apply run_completion_exec in Hrun as [[Hreads (e & -> & He)] | Hrun].
  - exists tr1, [], rest. split_and!; [done | done | done | by left | | | |].
    + destruct Hans as [(? & ? & _) | [(? & _ & -> & _) | (? & ? & _)]]; [done | by left | by right].
    + destruct Hans as [(? & ? & _) | [(? & _ & _ & ->) | (? & _ & _)]]; done.
    + destruct Hans as [(? & ? & _) | [(? & _ & _ & ->) | (_ & -> & _)]]; done.
    + destruct Hans as [(? & ? & _) | [(? & _ & _ & ->) | (_ & -> & _)]]; done.
  - destruct Hrun as (reads & doc & content & dedup & x & -> & Hreads & Hearned & Hr).
    exists reads, [OCommit (us_doc_id session) doc content dedup x], rest.
    split_and!; [by rewrite <- (assoc_L app) | done | done | right | | | |].
    + do 4 eexists. split; [done |]. split; [done |].
      destruct x as [id | [existing | e]]; subst r.
      * destruct Hans as [(? & [= <-] & -> & ->) | [(? & ? & _) | (_ & _ & ? & ? & _)]]; [by left; eexists | done | done].
      * right; right; eauto.
      * destruct Hans as [(? & ? & _) | [(? & [= <-] & -> & ?) | (_ & _ & ? & [= <-] & Hno')]]; [done | right; left; eauto |].
        by destruct (Hno' e).
    + destruct Hans as [(? & _ & -> & _) | [(? & _ & -> & _) | (? & ? & _)]]; [by left | by left | by right].
    + destruct Hans as [(? & _ & _ & ->) | [(? & _ & _ & ->) | (? & _ & _)]]; done.
    + destruct Hans as [(id & -> & _ & _) | [(? & _ & _ & ->) | (_ & -> & _)]]; [| done | done].
      intros _. destruct x as [id' | [|]]; [| done | done]. eauto.
    + by destruct Hans as [(id & _ & _ & ->) | [(? & _ & _ & ->) | (_ & -> & _)]].
Qed.

(** A completion that has the session. *)
Definition claimed (doc_id : string) (session : UploadSession) (assembled : result unit string)
    (tr rest : list UploadObs) : Prop :=
  tr = [OCas doc_id "uploading" "validating" (Ok true); OSession doc_id (Ok (Some session));
        OAssemble (us_s3_key session) assembled] ++ rest ∧ is_own session = true.

Lemma complete_upload_exec doc_id parts tr resp :
  exec upload_obs (complete_upload doc_id parts) tr resp →
  (∃ session assembled rest, claimed doc_id session assembled tr rest ∧
     (completed doc_id session rest resp ∨
      ∃ r, rest = [OCas doc_id "validating" "uploading" r] ∧ resp = (502, UText "complete failed"))) ∨
  (∀ o, o ∈ tr → (∃ from to x, o = OCas doc_id from to x) ∨ ∃ x, o = OSession doc_id x) ∧
  resp.1 ∈ [403; 404; 409; 500].
Proof.
  unfold complete_upload, as_ingester. case_bool_decide as Hrole.
  2:{ intros [-> <-]. right. split; [by intros ? ?%elem_of_nil | set_solver]. }
  intros (acquired & tr1 & -> & Hx)%exec_vis. cbn [upload_obs].
  assert (Hstop : ∀ s k, exec upload_obs (Ret k) tr1 resp → k.1 ∈ [403; 404; 409; 500] →
    s = OCas doc_id "uploading" "validating" acquired →
    (∀ o, o ∈ s :: tr1 → (∃ from to x, o = OCas doc_id from to x) ∨ ∃ x, o = OSession doc_id x) ∧
    resp.1 ∈ [403; 404; 409; 500]).
  { intros s k [-> <-] Hk ->. split; [| done]. intros o [-> | ?%elem_of_nil]%elem_of_cons; [left; by do 3 eexists | done]. }
  destruct acquired as [[|] | e]; [| | right; eapply Hstop; [exact Hx | set_solver | done]].
  all: clear Hstop; apply exec_vis in Hx as (session & tr2 & -> & Hx); cbn [upload_obs].
  all: assert (Htwo : ∀ k, exec upload_obs (Ret k) tr2 resp → k.1 ∈ [403; 404; 409; 500] → ∀ b,
    (∀ o, o ∈ [OCas doc_id "uploading" "validating" (Ok b); OSession doc_id session] ++ tr2 →
       (∃ from to x, o = OCas doc_id from to x) ∨ ∃ x, o = OSession doc_id x) ∧ resp.1 ∈ [403; 404; 409; 500])
    by (intros k [-> <-] Hk b; split; [| done];
        intros o [-> | [-> | ?%elem_of_nil]%elem_of_cons]%elem_of_cons; [left; by do 3 eexists | right; by eexists | done]).
  2:{ right. eapply Htwo; [exact Hx |]. destruct session as [[s |] | ?]; set_solver. }
  destruct session as [[session |] | e]; [| right; eapply Htwo; [exact Hx | set_solver]..].
  destruct (is_own session) eqn:Hown; [| right; eapply Htwo; [exact Hx | set_solver]]. clear Htwo. cbn [negb] in Hx.
  apply exec_vis in Hx as (assembled & tr3 & -> & Hx). cbn [upload_obs].
  left. exists session, assembled, tr3. split; [done |].
  destruct assembled as [[] | msg]; [left; by apply completed_exec |].
  destruct (_ || _); [left; by apply completed_exec |].
  apply exec_vis in Hx as (r & tr4 & -> & [-> <-]). right. by eexists.
Qed.


(** Fact: an object store that once fails to answer a HEAD is taken for a bad object:
    the upload, whatever its bytes, is deleted and recorded as rejected. *)
Theorem failed_head_wipes_upload doc_id parts session e :
  INGESTER_ROLE ∈ au_roles auth → is_own session = true →
  ∃ tr, exec upload_obs (complete_upload doc_id parts) tr (422, URejected "head_failed") ∧
    OAssemble (us_s3_key session) (Ok tt) ∈ tr ∧ OHead (us_s3_key session) (Err e) ∈ tr ∧
    ODelete (us_s3_key session) ∈ tr.
Proof.
  intros Hrole Hown. unfold complete_upload, as_ingester. rewrite bool_decide_eq_true_2 by done.
  eexists ([OCas doc_id "uploading" "validating" (Ok true); OSession doc_id (Ok (Some session));
            OAssemble (us_s3_key session) (Ok tt); OHead (us_s3_key session) (Err e); ODelete (us_s3_key session);
            OOther; ODeleteSession (us_doc_id session);
            ORecord (rejection (us_doc_id session) "head_failed" None)]).
  split; [| split_and!; set_solver].
  exists (Ok true). split; [done |]. exists (Ok (Some session)). split; [done |]. cbn. rewrite Hown. cbn.
  exists (Ok tt). split; [done |]. exists (Err e). split; [done |].
  do 4 (exists (Ok tt); split; [done |]). done.
Qed.

End uploads.

Section demo.
#[local] Instance demo_json : SseJson :=
  {| to_sql := λ id, id.1 +:+ ":" +:+ id.2; json_string := id; json_user_message := λ id content, content;
     json_citations := λ _, EmptyString; json_finish := λ reason id, reason |}.

(** Five bytes of text, uploaded and described by their owner. *)
Definition demo_config : UploadsConfig := config_from_env (λ _, None).
Definition demo_auth : AuthContext := mkAuth ("tenant", "t") ("user", "u") [INGESTER_ROLE].
Definition demo_session : UploadSession :=
  mkUpload (Some ("tenant", "t")) (Some ("user", "u")) "d" "tenants/t/d" "m" "validating" None "manual"
    "urn:delphi:manual:d" (Some "Greeting") (Some "hello.txt") 5 (JObject []) (Some 0).
Definition demo_head : ObjectMeta := mkObjectMeta 5 "5d41402a".
Definition demo_document : Document := document demo_config demo_session "5d41402a"
  (sanitize_merged (merge_metadata (prefill_of demo_session) extracted_default) (uc_metadata_policy demo_config)).
Definition demo_content : Content := mkContent "hello" "text" "none".
Definition demo_trace : list UploadObs :=
  [ OCas "d" "uploading" "validating" (Ok true); OSession "d" (Ok (Some demo_session));
    OAssemble "tenants/t/d" (Ok tt); OHead "tenants/t/d" (Ok demo_head);
    ORange "tenants/t/d" 0 5 (Ok (bytes_of_string "hello"));
    ORange "tenants/t/d" 0 (op_pdf_max_input_bytes (uc_object_policy demo_config)) (Ok (bytes_of_string "hello"));
    OOther; OOther; OOther; OOther;
    OCommit "d" demo_document demo_content None (Ok ("document", "d")) ].

Lemma demo_completes :
  exec upload_obs (complete_upload (λ _, Some 2) (λ _, None) demo_config demo_auth "d" [mkPart 1 "e"])
    demo_trace (200, UReady "document:d").
Proof.
  exists (Ok true). split; [done |]. exists (Ok (Some demo_session)). split; [done |].
  exists (Ok tt). split; [done |]. exists (Ok demo_head). split; [done |].
  do 2 (exists (Ok (bytes_of_string "hello")); split; [done |]).
  exists (Ok demo_content). split; [done |]. exists (Ok extracted_default). split; [done |].
  exists 0. split; [done |]. exists 0. split; [done |].
  exists (Ok ("document", "d")). split; [vm_compute; reflexivity |]. done.
Qed.

End demo.

(** Fact: the fields a deployment requires after the merge are asked of the extractor
    alone as well: what it found is dropped when the user, not it, supplied a required
    field, and the upload is rejected, though user and extractor together had all of
    them. *)
Theorem required_fields_are_asked_twice :
  ∃ cfg prefill autofilled,
    validate_descriptive_metadata (λ _, Some 2) 0
      (view_of (sanitize_merged (merge_metadata prefill autofilled) (uc_metadata_policy cfg)))
      (uc_metadata_policy cfg) = Ok tt ∧
    merge_stages (λ _, Some 2) cfg 0 0 prefill autofilled =
      Err (MetadataRejected (reject_debug (MalformedRequest "required descriptive field missing: Summary"))).
Proof.
  pose (env := λ k, if String.eqb k "DELPHI_INGEST_REQUIRED_METADATA_FIELDS" then Some "title, summary" else None).
  exists (config_from_env env), (mkPrefill (Some "A title") [] None None),
    (mkExtracted None [] (Some "A summary.") None None JNull).
  split; vm_compute; reflexivity.
Qed.
