(* ===== verification/OldFeed.v ===== *)
(** * Feeds of the previous back end

    old/backend/src/ingestion (pipeline.rs, rag.rs, notifier.rs, http.rs), embedder,
    sources and filter, and the endpoints of api/discovery.rs, documents.rs and
    chunks.rs: a feed item on its way from its source to the readers.  The programs
    run over their calls of the database, the object store, the embedding service and
    the ingestion endpoint.  Errors are their texts. *)

From Stdlib Require Import SpecFloat.
From S2P Require Import Prelude Text OldChunk OldTurn OldIngest OldUpload.

Local Open Scope Z_scope.

(** ** The embedding service *)

(** [Display] of [Error::Adapter] and [Error::EmptyResult]. *)
Definition adapter_error (name message : string) : string := "source adapter `" +:+ name +:+ "`: " +:+ message.
Definition EMPTY_RESULT : string := "backend returned no record where one was expected".

Record TeiEmbedder : Type := mkTei {
  te_base_url : string;
  te_model_name : string;
  te_dim : Z;
  te_prepare_passage : string → string;
  te_prepare_query : string → string;
  te_prepare_document : option (string → string → string);
}.

Definition bge_passage (t : string) : string := "passage: " +:+ t.
Definition bge_query (t : string) : string := "query: " +:+ t.
Definition specter2_document (title abstract_ : string) : string := title +:+ "[SEP]" +:+ abstract_.

(** [trim_end_matches('/')] *)
Fixpoint trim_end_slashes (s : string) : string :=
  match s with
  | EmptyString => EmptyString
  | String c s =>
      let s := trim_end_slashes s in
      if is_empty s && Ascii.eqb c "/" then EmptyString else String c s
  end.

(** [lookup], with [build]: the model that goes by this name.  The HTTP client is
    taken to build. *)
Definition build_embedder (endpoint model_name : string) : option TeiEmbedder :=
  let model := to_ascii_lowercase model_name in
  let tei := mkTei (trim_end_slashes endpoint) model_name in
  if String.eqb model "bge-small-en-v1.5" || String.eqb model "bge-small" then Some (tei 384 bge_passage bge_query None)
  else if String.eqb model "specter2" || String.eqb model "allenai/specter2_base"
  then Some (tei 768 id id (Some specter2_document))
  else None.

Section embedder_env.
Context (env : string → option string).

Definition env_bool (key : string) (default : bool) : bool :=
  match env key with
  | Some s => existsb (String.eqb (to_ascii_lowercase (trim s))) ["1"; "true"; "yes"; "on"]
  | None => default
  end.

Definition embedder_from_env : option TeiEmbedder * option TeiEmbedder :=
  let get key def := default def (env key) in
  (if env_bool "DELPHI_EMBEDDER_CHUNK_ENABLED" true
   then build_embedder (get "DELPHI_EMBEDDER_CHUNK_ENDPOINT" "http://tei-chunk:80") (get "DELPHI_EMBEDDER_CHUNK_MODEL" "bge-small-en-v1.5")
   else None,
   if env_bool "DELPHI_EMBEDDER_DOCUMENT_ENABLED" true
   then build_embedder (get "DELPHI_EMBEDDER_DOCUMENT_ENDPOINT" "http://tei-paper:80") (get "DELPHI_EMBEDDER_DOCUMENT_MODEL" "specter2")
   else None).
End embedder_env.

(** An untagged answer, as serde_json reads it. *)
Inductive TeiResponse : Type :=
| Bare (vectors : list (list spec_float))
| Wrapped (embeddings : list (list spec_float)).

(** ** Requests and outcomes *)

(** Also the body of the endpoint, which has the same fields. *)
Record IngestRequest : Type := mkIngest {
  ir_canonical_id : string;
  ir_source_type : string;
  ir_source_uri : string;
  ir_title : option string;
  ir_authors : list string;
  ir_published_at : option Z;
  ir_language : option string;
  ir_summary : option string;
  ir_raw_text : option string;
  ir_storage_uri : option string;
  ir_metadata : json;
}.

Inductive IngestOutcome : Type :=
| Created (id : RecordId) (version : Z)
| Unchanged (id : RecordId) (version : Z)
| Versioned (id : RecordId) (version : Z).

(** ** The calls of the ingestion *)

Inductive FeedE : Type → Type :=
| GetDocumentByCanonical (canonical_id : string) : FeedE (result (option Document) string)
| UpsertDocument (doc : Document) : FeedE (result RecordId string)
| UpsertContent (id : RecordId) (content : Content) : FeedE (result unit string)
| GetDocument (id : RecordId) : FeedE (result (option Document) string)
| UpsertChunks (id : RecordId) (rows : list Chunk) : FeedE (result (list RecordId) string)
| GetByUrl (uri : string) : FeedE (result bytes string)
| ExtractWords (b : bytes) : FeedE (result (list Word) string)
| PostEmbed (url : string) (inputs : list string) : FeedE (result (Z * result string string) string)
| SendEvent (document : Document) : FeedE unit.

Section ingestion.
(** serde_json on an answer, with the text of its error, and [Display] of a status. *)
Context {X : Hex} {S2 : Sha2} (parse_tei : string → result TeiResponse string) (status_text : Z → string).

(** *** Embedding *)

Definition parse_tei_response (body model : string) : result (list (list spec_float)) string :=
  match parse_tei body with
  | Ok (Bare v) => Ok v
  | Ok (Wrapped v) => Ok v
  | Err e => Err (adapter_error ("tei:" +:+ model) e)
  end.

Definition embed_batch (emb : TeiEmbedder) (inputs : list string) : prog FeedE (result (list (list spec_float)) string) :=
  match inputs with
  | [] => Ret (Ok [])
  | _ =>
      let* resp := call (PostEmbed (te_base_url emb +:+ "/embed") inputs) in
      Ret (let? resp := resp in
           let '(status, body) := resp in
           if (200 <=? status) && (status <? 300)
           then let? body := body in parse_tei_response body (te_model_name emb)
           else Err (adapter_error ("tei:" +:+ te_model_name emb)
                  ("HTTP " +:+ status_text status +:+ ": " +:+ match body with Ok b => b | Err _ => EmptyString end)))
  end.

Definition passages (emb : TeiEmbedder) (texts : list string) : prog FeedE (result (list (list spec_float)) string) :=
  embed_batch emb (map (te_prepare_passage emb) texts).

(** [out.pop().ok_or(Error::EmptyResult)] *)
Definition popped (r : result (list (list spec_float)) string) : result (list spec_float) string :=
  let? vectors := r in match last vectors with Some v => Ok v | None => Err EMPTY_RESULT end.

Definition embed_query (emb : TeiEmbedder) (text : string) : prog FeedE (result (list spec_float) string) :=
  let* r := embed_batch emb [te_prepare_query emb text] in Ret (popped r).

Definition embed_document (emb : TeiEmbedder) (title abstract_ : string) : prog FeedE (result (list spec_float) string) :=
  let input := match te_prepare_document emb with
               | Some f => f title abstract_
               | None => title +:+ " " +:+ abstract_
               end in
  let* r := embed_batch emb [input] in Ret (popped r).

(** *** The pipeline *)

Definition NUL : string := String (Ascii.ascii_of_nat 0) EmptyString.

Definition compute_content_hash (req : IngestRequest) : string :=
  let hashed :=
    match ir_raw_text req, ir_summary req with
    | Some text, _ => text
    | None, Some summary => summary
    | None, None => ir_canonical_id req +:+ NUL +:+ default EmptyString (ir_title req) +:+ NUL +:+ ir_source_uri req
    end in
  hex_encode (sha256 (bytes_of_string hashed)).

Definition build_document (req : IngestRequest) (content_hash : string) (version : Z) : Document :=
  mkDocument None None (Some (ir_canonical_id req)) (ir_source_type req) (ir_source_uri req) (ir_storage_uri req)
    (ir_title req) (ir_authors req) (ir_published_at req) None (ir_language req) (ir_summary req) None None
    content_hash version (ensure_object (ir_metadata req)).

Definition persist_text_if_present (id : RecordId) (req : IngestRequest) : prog FeedE (result unit string) :=
  match ir_raw_text req with
  | Some text => call (UpsertContent id (mkContent text "text" "ingest"))
  | None => Ret (Ok tt)
  end.

(** [Pipeline::ingest] *)
Definition pipeline (req : IngestRequest) : prog FeedE (result IngestOutcome string) :=
  let content_hash := compute_content_hash req in
  let* existing := call (GetDocumentByCanonical (ir_canonical_id req)) in
  let write (version : Z) (outcome : RecordId → Z → IngestOutcome) :=
    try? id := call (UpsertDocument (build_document req content_hash version)) in
    try? _ := persist_text_if_present id req in
    Ret (Ok (outcome id version)) in
  match existing with
  | Err e => Ret (Err e)
  | Ok None => write 1 Created
  | Ok (Some existing) =>
      if String.eqb (do_content_hash existing) content_hash
      then Ret (match do_id existing with
                | Some id => Ok (Unchanged id (do_version existing))
                | None => Err EMPTY_RESULT
                end)
      else write (i64_add (do_version existing) 1) Versioned
  end.

(** *** Retrieval *)

(** [RagSink]: what a deployment has of it. *)
Record RagConfig : Type := mkRag {
  rg_extractor : bool;
  rg_chunk_embedder : option TeiEmbedder;
  rg_document_embedder : option TeiEmbedder;
  rg_chunk_cfg : ChunkConfig;
}.

Definition should_process (outcome : IngestOutcome) : option RecordId :=
  match outcome with Created id _ | Versioned id _ => Some id | Unchanged _ _ => None end.

Definition chunk_row (model strategy : string) (c : ChunkOut) (v : list spec_float) : Chunk :=
  mkChunk None None (co_ordinal c) (co_char_start c) (co_char_end c)
    (match co_bboxes c with [] => None | b => Some b end) (co_text c) v model strategy.

(** The extractor of the state, or the one that finds no words. *)
Definition extract_words (rag : RagConfig) (b : bytes) : prog FeedE (result (list Word) string) :=
  if rg_extractor rag then call (ExtractWords b) else Ret (Ok []).

Definition run_chunk_pipeline (rag : RagConfig) (doc_id : RecordId) (storage_uri : string) (emb : TeiEmbedder)
  : prog FeedE (result unit string) :=
  try? b := call (GetByUrl storage_uri) in
  try? words := extract_words rag b in
  let chunks := chunk_words words (rg_chunk_cfg rag) in
  match words, chunks with
  | [], _ | _, [] => Ret (Ok tt)
  | _, _ =>
      try? vectors := passages emb (map co_text chunks) in
      if negb (length vectors =? length chunks)%nat then Ret (Ok tt)
      else
        let rows := zip_with (chunk_row (te_model_name emb) (cc_strategy (rg_chunk_cfg rag))) chunks vectors in
        try? _ := call (UpsertChunks doc_id rows) in
        Ret (Ok tt)
  end.

(** The row with its embedding. *)
Definition with_embedding (doc_id : RecordId) (vector : list spec_float) (model : string) (doc : Document) : Document :=
  mkDocument (Some (default doc_id (do_id doc))) (do_tenant_id doc) (do_canonical_id doc) (do_source_type doc)
    (do_source_uri doc) (do_storage_uri doc) (do_title doc) (do_authors doc) (do_published_at doc) (do_ingested_at doc)
    (do_language doc) (do_summary doc) (Some vector) (Some model) (do_content_hash doc) (do_version doc) (do_metadata doc).

Definition run_paper_embedding (doc_id : RecordId) (title abstract_ : string) (emb : TeiEmbedder)
  : prog FeedE (result unit string) :=
  try? vector := embed_document emb title abstract_ in
  try? doc := call (GetDocument doc_id) in
  match doc with
  | None => Ret (Ok tt)
  | Some doc =>
      try? _ := call (UpsertDocument (with_embedding doc_id vector (te_model_name emb) doc)) in
      Ret (Ok tt)
  end.

(** [RagSink::ingest]: what fails after the inner sink is only logged. *)
Definition rag_sink (rag : RagConfig) (inner : IngestRequest → prog FeedE (result IngestOutcome string))
  (req : IngestRequest) : prog FeedE (result IngestOutcome string) :=
  try? outcome := inner req in
  match should_process outcome with
  | None => Ret (Ok outcome)
  | Some doc_id =>
      let* _ := match ir_storage_uri req, rg_chunk_embedder rag with
                | Some uri, Some emb => run_chunk_pipeline rag doc_id uri emb
                | _, _ => Ret (Ok tt)
                end in
      let* _ := match rg_document_embedder rag, ir_title req, ir_summary req with
                | Some emb, Some t, Some a => run_paper_embedding doc_id t a emb
                | _, _, _ => Ret (Ok tt)
                end in
      Ret (Ok outcome)
  end.

(** [NotifyingSink::ingest] *)
Definition notifying_sink (inner : IngestRequest → prog FeedE (result IngestOutcome string)) (req : IngestRequest)
  : prog FeedE (result IngestOutcome string) :=
  try? outcome := inner req in
  match outcome with
  | Created id _ =>
      let* found := call (GetDocument id) in
      let* _ := match found with Ok (Some document) => call (SendEvent document) | _ => Ret tt end in
      Ret (Ok outcome)
  | _ => Ret (Ok outcome)
  end.

(** [ingest_documents]: the status, and the outcome or a text. *)
Definition ingest_documents (rag : RagConfig) (body : IngestRequest) : prog FeedE (Z * result IngestOutcome string) :=
  let sink :=
    match rg_chunk_embedder rag, rg_document_embedder rag with
    | None, None => pipeline
    | _, _ => rag_sink rag pipeline
    end in
  let* r := notifying_sink sink body in
  Ret (match r with Ok outcome => (200, Ok outcome) | Err _ => (500, Err "ingestion failed") end).
End ingestion.

(** ** What an ingestion does *)

Inductive FeedObs : Type :=
| OByCanonical (canonical_id : string) (r : result (option Document) string)
| OUpsert (doc : Document) (r : result RecordId string)
| OContent (id : RecordId) (content : Content) (r : result unit string)
| OGet (id : RecordId) (r : result (option Document) string)
| OChunks (id : RecordId) (rows : list Chunk) (r : result (list RecordId) string)
| OBytes (uri : string) (r : result bytes string)
| OWords (b : bytes) (r : result (list Word) string)
| OEmbed (url : string) (inputs : list string) (r : result (Z * result string string) string)
| OSend (document : Document).

Definition feed_obs (A : Type) (e : FeedE A) : A → FeedObs :=
  match e in FeedE A return A → FeedObs with
  | GetDocumentByCanonical cid => OByCanonical cid
  | UpsertDocument doc => OUpsert doc
  | UpsertContent id content => OContent id content
  | GetDocument id => OGet id
  | UpsertChunks id rows => OChunks id rows
  | GetByUrl uri => OBytes uri
  | ExtractWords b => OWords b
  | PostEmbed url inputs => OEmbed url inputs
  | SendEvent document => λ _, OSend document
  end.

Section feed.
Context {X : Hex} {S2 : Sha2} (parse_tei : string → result TeiResponse string) (status_text : Z → string).

(** What the pipeline writes, and returns, after it has read the row of the canonical
    id. *)
Definition written (req : IngestRequest) (found : result (option Document) string) (tr : list FeedObs)
  (r : result IngestOutcome string) : Prop :=
  let hash := compute_content_hash req in
  let write (version : Z) (outcome : RecordId → IngestOutcome) :=
    (∃ e, tr = [OUpsert (build_document req hash version) (Err e)] ∧ r = Err e) ∨
    (∃ id, let stored := OUpsert (build_document req hash version) (Ok id) in
      match ir_raw_text req with
      | None => tr = [stored] ∧ r = Ok (outcome id)
      | Some text => ∃ x, tr = [stored; OContent id (mkContent text "text" "ingest") x] ∧
          r = match x with Ok _ => Ok (outcome id) | Err e => Err e end
      end) in
  match found with
  | Err e => tr = [] ∧ r = Err e
  | Ok None => write 1 (λ id, Created id 1)
  | Ok (Some doc) =>
      if String.eqb (do_content_hash doc) hash
      then tr = [] ∧ r = match do_id doc with Some id => Ok (Unchanged id (do_version doc)) | None => Err EMPTY_RESULT end
      else write (i64_add (do_version doc) 1) (λ id, Versioned id (i64_add (do_version doc) 1))
  end.

Lemma pipeline_exec req tr r :
  exec feed_obs (pipeline req) tr r →
  ∃ found tr', tr = OByCanonical (ir_canonical_id req) found :: tr' ∧ written req found tr' r.
Proof.
  intros (found & tr' & -> & Hx)%exec_vis. exists found, tr'. split; [done |]. unfold written. cbv zeta.
  assert (Hwrite : ∀ version outcome,
    exec feed_obs (try? id := call (UpsertDocument (build_document req (compute_content_hash req) version)) in
                   try? _ := persist_text_if_present id req in Ret (Ok (outcome id version))) tr' r →
    (∃ e, tr' = [OUpsert (build_document req (compute_content_hash req) version) (Err e)] ∧ r = Err e) ∨
    (∃ id, match ir_raw_text req with
      | None => tr' = [OUpsert (build_document req (compute_content_hash req) version) (Ok id)] ∧ r = Ok (outcome id version)
      | Some text => ∃ x, tr' = [OUpsert (build_document req (compute_content_hash req) version) (Ok id);
                                  OContent id (mkContent text "text" "ingest") x] ∧
          r = match x with Ok _ => Ok (outcome id version) | Err e => Err e end
      end)).
  { clear Hx. intros version outcome (w & tr1 & -> & Hx)%exec_vis. destruct w as [id | e].
    - right. exists id. unfold persist_text_if_present in Hx. destruct (ir_raw_text req) as [text |].
      + apply exec_vis in Hx as (x & tr2 & -> & Hx). exists x. destruct x; by destruct Hx as [-> <-].
      + by destruct Hx as [-> <-].
    - left. exists e. by destruct Hx as [-> <-]. }
  destruct found as [[doc |] | e]; [| by apply (Hwrite 1 Created) | by destruct Hx as [-> <-]].
  destruct (String.eqb _ _); [by destruct Hx as [-> <-] | by apply (Hwrite _ Versioned)].
Qed.

(** What may be seen once the document [id] is written, in a trace [tr]: reads; the
    chunks of words that were extracted, a vector each; the embedding on the row that
    was read; and, of a new document, the row that was read, sent. *)
Definition follow_up (rag : RagConfig) (id : RecordId) (is_new : bool) (tr : list FeedObs) (o : FeedObs) : Prop :=
  match o with
  | OByCanonical _ _ | OContent _ _ _ => False
  | OGet id' _ => id' = id
  | OChunks id' rows _ => id' = id ∧ ∃ emb b words vectors,
      rg_chunk_embedder rag = Some emb ∧ (words = [] ∨ OWords b (Ok words) ∈ tr) ∧
      length vectors = length (chunk_words words (rg_chunk_cfg rag)) ∧
      rows = zip_with (chunk_row (te_model_name emb) (cc_strategy (rg_chunk_cfg rag)))
        (chunk_words words (rg_chunk_cfg rag)) vectors
  | OUpsert doc _ => ∃ emb vector read, rg_document_embedder rag = Some emb ∧
      OGet id (Ok (Some read)) ∈ tr ∧ doc = with_embedding id vector (te_model_name emb) read
  | OSend document => is_new = true ∧ OGet id (Ok (Some document)) ∈ tr
  | OBytes _ _ | OWords _ _ | OEmbed _ _ _ => True
  end.

Lemma follow_up_mono rag id is_new tr tr' o : tr ⊆ tr' → follow_up rag id is_new tr o → follow_up rag id is_new tr' o.
Proof.
  intros Hs. destruct o; simpl; try done.
  - intros (emb & v & read & ? & ? & ?). exists emb, v, read. split_and!; [done | by apply Hs | done].
  - intros (? & emb & b & words & vs & ? & Hw & ?). split; [done |]. exists emb, b, words, vs.
    split_and!; [naive_solver | | naive_solver..]. destruct Hw as [? | Hw]; [by left | right; by apply Hs].
  - intros [? ?]. split; [done | by apply Hs].
Qed.

Lemma follow_ups_mono rag id is_new tr tr' l :
  tr ⊆ tr' → Forall (follow_up rag id is_new tr) l → Forall (follow_up rag id is_new tr') l.
Proof. intros Hs Hf. eapply Forall_impl; [exact Hf |]. intros o. by apply follow_up_mono. Qed.

Lemma follow_ups_app rag id is_new l1 l2 :
  Forall (follow_up rag id is_new l1) l1 → Forall (follow_up rag id is_new l2) l2 →
  Forall (follow_up rag id is_new (l1 ++ l2)) (l1 ++ l2).
Proof.
  intros H1 H2. apply Forall_app. split; eapply follow_ups_mono; [| done | | done]; set_solver.
Qed.

(** The calls of an embedding. *)
Lemma embed_batch_exec emb inputs tr r :
  exec feed_obs (embed_batch parse_tei status_text emb inputs) tr r → ∀ rag id is_new l, Forall (follow_up rag id is_new l) tr.
Proof.
  unfold embed_batch. destruct inputs; [by intros [-> _] |].
  intros (x & tr' & -> & [-> _])%exec_vis. intros. by repeat constructor.
Qed.

Lemma chunk_pipeline_exec rag id is_new uri emb tr r :
  rg_chunk_embedder rag = Some emb → exec feed_obs (run_chunk_pipeline parse_tei status_text rag id uri emb) tr r →
  Forall (follow_up rag id is_new tr) tr.
Proof.
  intros Hemb (b & tr1 & -> & Hx)%exec_vis. cbn [feed_obs].
  destruct b as [b | e]; [| destruct Hx as [-> _]; by repeat constructor].
  apply exec_bind_inv in Hx as (tr2 & tr3 & words & -> & Hw & Hx).
  assert (Forall (follow_up rag id is_new (OBytes uri (Ok b) :: tr2 ++ tr3)) tr2 ∧
    ∀ ws, words = Ok ws → ws = [] ∨ OWords b (Ok ws) ∈ OBytes uri (Ok b) :: tr2 ++ tr3) as [Htr2 Hws].
  { unfold extract_words in Hw. destruct (rg_extractor rag).
    - apply exec_vis in Hw as (x & tr4 & -> & [-> <-]). split; [by repeat constructor |]. intros ws ->. right. set_solver.
    - destruct Hw as [-> <-]. split; [constructor |]. intros ws [= <-]. by left. }
  constructor; [done |]. apply Forall_app. split; [done |].
  destruct words as [words | e]; [| destruct Hx as [-> _]; constructor]. specialize (Hws words eq_refl).
  cbv zeta in Hx. destruct words as [| w words]; [destruct Hx as [-> _]; constructor |].
  destruct (chunk_words (w :: words) (rg_chunk_cfg rag)) as [| c chunks] eqn:Hc; [destruct Hx as [-> _]; constructor |].
  set (ws := w :: words) in *. rewrite <- Hc in Hx. clearbody ws. clear c chunks Hc.
  apply exec_bind_inv in Hx as (tr4 & tr5 & vectors & -> & Hv & Hx). apply Forall_app.
  split; [by eapply embed_batch_exec |].
  destruct vectors as [vectors | e]; [| destruct Hx as [-> _]; constructor].
  destruct (_ =? _)%nat eqn:Hlen; [| destruct Hx as [-> _]; constructor]. apply Nat.eqb_eq in Hlen.
  apply exec_vis in Hx as (x & tr6 & -> & Hx). cbn [feed_obs].
  assert (tr6 = []) as -> by (destruct x; by destruct Hx).
  constructor; [| constructor]. split; [done |]. by exists emb, b, ws, vectors.
Qed.

Lemma paper_embedding_exec rag id is_new t a emb tr r :
  rg_document_embedder rag = Some emb → exec feed_obs (run_paper_embedding parse_tei status_text id t a emb) tr r →
  Forall (follow_up rag id is_new tr) tr.
Proof.
  intros Hemb (tr1 & tr2 & v & -> & Hv & Hx)%exec_bind_inv. apply Forall_app.
  split; [apply exec_bind_inv in Hv as (tr3 & tr4 & ? & -> & Hv & [-> _]); rewrite app_nil_r; by eapply embed_batch_exec |].
  destruct v as [v | e]; [| destruct Hx as [-> _]; constructor].
  apply exec_vis in Hx as (doc & tr3 & -> & Hx). cbn [feed_obs]. constructor; [done |].
  destruct doc as [[doc |] | e]; [| destruct Hx as [-> _]; constructor..].
  apply exec_vis in Hx as (x & tr4 & -> & Hx). cbn [feed_obs].
  assert (tr4 = []) as -> by (destruct x; by destruct Hx).
  constructor; [| constructor]. exists emb, v, doc. split_and!; [done | set_solver | done].
Qed.

(** The sinks around the pipeline. *)
Lemma rag_sink_exec rag inner req tr r :
  exec feed_obs (rag_sink parse_tei status_text rag inner req) tr r →
  ∃ tr1 tr2, tr = tr1 ++ tr2 ∧ exec feed_obs (inner req) tr1 r ∧
    match r with
    | Ok outcome =>
        match should_process outcome with
        | Some id => ∀ is_new, Forall (follow_up rag id is_new tr2) tr2
        | None => tr2 = []
        end
    | Err _ => tr2 = []
    end.
Proof.
  intros (tr1 & tr2 & r1 & -> & H1 & Hx)%exec_bind_inv. exists tr1, tr2. split; [done |].
  destruct r1 as [outcome | e]; [| by destruct Hx as [-> <-]].
  destruct (should_process outcome) as [id |] eqn:Hp; [| by destruct Hx as [-> <-]; rewrite Hp].
  apply exec_bind_inv in Hx as (tr3 & tr4 & r3 & -> & H3 & Hx).
  apply exec_bind_inv in Hx as (tr5 & tr6 & r5 & -> & H5 & [-> <-]). rewrite Hp, app_nil_r. split; [done |].
  intros is_new. apply follow_ups_app.
  - destruct (ir_storage_uri req); [| by destruct H3 as [-> _]].
    destruct (rg_chunk_embedder rag) eqn:He; [| by destruct H3 as [-> _]]. by eapply chunk_pipeline_exec.
  - destruct (rg_document_embedder rag) eqn:He; [| by destruct H5 as [-> _]].
    destruct (ir_title req), (ir_summary req); try by destruct H5 as [-> _]. by eapply paper_embedding_exec.
Qed.

(** The id of an outcome, and whether its document is new. *)
Definition outcome_id (o : IngestOutcome) : RecordId :=
  match o with Created id _ | Versioned id _ | Unchanged id _ => id end.
Definition outcome_new (o : IngestOutcome) : bool := match o with Created _ _ => true | _ => false end.

Lemma notifying_exec rag inner req tr r :
  exec feed_obs (notifying_sink inner req) tr r →
  ∃ tr1 tr2, tr = tr1 ++ tr2 ∧ exec feed_obs (inner req) tr1 r ∧
    match r with
    | Ok outcome =>
        Forall (follow_up rag (outcome_id outcome) (outcome_new outcome) tr2) tr2 ∧ (outcome_new outcome = false → tr2 = [])
    | Err _ => tr2 = []
    end.
Proof.
  intros (tr1 & tr2 & r1 & -> & H1 & Hx)%exec_bind_inv. exists tr1, tr2. split; [done |].
  destruct r1 as [outcome | e]; [| by destruct Hx as [-> <-]].
  destruct outcome as [id v | id v | id v]; [| by destruct Hx as [-> <-]..].
  apply exec_vis in Hx as (found & tr3 & -> & Hx). cbn [feed_obs].
  destruct found as [[doc |] | e].
  - apply exec_vis in Hx as (u & tr4 & -> & [-> <-]). cbn [feed_obs]. split; [done |]. split; [| done].
    repeat constructor; set_solver.
  - destruct Hx as [-> <-]. split; [done |]. split; [by repeat constructor | done].
  - destruct Hx as [-> <-]. split; [done |]. split; [by repeat constructor | done].
Qed.

(** Fact: whatever the database, the object store and the embedding service answer,
    an ingestion reads the row of the canonical id, writes nothing when its content
    hash is the same, and otherwise one row, with the next version, and its text; its
    answer is that of these calls, whatever fails after them.  What follows on a
    document that was written are its chunks, each with its vector, its embedding on
    the row as it was read, and, when it is new, an event with the row as it was
    read. *)
Theorem feed_item_is_ingested rag req tr resp :
  exec feed_obs (ingest_documents parse_tei status_text rag req) tr resp →
  ∃ found tr1 tr2 r, tr = OByCanonical (ir_canonical_id req) found :: tr1 ++ tr2 ∧ written req found tr1 r ∧
    resp = match r with Ok outcome => (200, Ok outcome) | Err _ => (500, Err "ingestion failed") end ∧
    match r with
    | Ok (Unchanged _ _) | Err _ => tr2 = []
    | Ok outcome => Forall (follow_up rag (outcome_id outcome) (outcome_new outcome) tr2) tr2
    end.
Proof.
  intros (tr0 & tr' & r & -> & Hx & [-> <-])%exec_bind_inv. rewrite app_nil_r.
  destruct (notifying_exec rag _ _ _ _ Hx) as (tr1 & tr2 & -> & H1 & H2). clear Hx.
  assert (∃ tr3 tr4, tr1 = tr3 ++ tr4 ∧ exec feed_obs (pipeline req) tr3 r ∧
    match r with
    | Ok outcome =>
        match should_process outcome with
        | Some id => ∀ is_new, Forall (follow_up rag id is_new tr4) tr4
        | None => tr4 = []
        end
    | Err _ => tr4 = []
    end) as (tr3 & tr4 & -> & H3 & H4).
  { destruct (rg_chunk_embedder rag), (rg_document_embedder rag); try by apply rag_sink_exec in H1.
    exists tr1, []. rewrite app_nil_r. split; [done |]. split; [done |].
    destruct r as [o |]; [| done]. destruct (should_process o); [by constructor | done]. }
  apply pipeline_exec in H3 as (found & tr5 & -> & Hw).
  exists found, tr5, (tr4 ++ tr2), r. split; [by rewrite <- app_assoc |]. split; [done |].
  split; [by destruct r |].
  destruct r as [[id v | id v | id v] | e]; cbn in H2, H4 |- *.
  - destruct H2 as [H2 _]. by apply follow_ups_app.
  - destruct H2 as [_ H2]. by rewrite H4, H2.
  - destruct H2 as [H2 _]. by apply follow_ups_app.
  - by rewrite H2, H4.
Qed.

(** Fact: a text that could not be written is not written later.  The row of the
    document, which went before it, has the hash of the text, so that the next
    delivery of the same item finds nothing to do. *)
Theorem failed_text_is_lost req text id e doc tr r :
  ir_raw_text req = Some text →
  do_id doc = Some id → do_content_hash doc = do_content_hash (build_document req (compute_content_hash req) 1) →
  exec feed_obs (pipeline req)
    [OByCanonical (ir_canonical_id req) (Ok None); OUpsert (build_document req (compute_content_hash req) 1) (Ok id);
     OContent id (mkContent text "text" "ingest") (Err e)] (Err e) ∧
  (exec feed_obs (pipeline req) (OByCanonical (ir_canonical_id req) (Ok (Some doc)) :: tr) r →
   tr = [] ∧ r = Ok (Unchanged id (do_version doc))).
Proof.
  intros Ht Hid Hh. split.
  - exists (Ok None). split; [done |]. exists (Ok id). split; [done |]. unfold persist_text_if_present. rewrite Ht.
    exists (Err e). by split.
  - intros (found & tr' & [= <- ->] & Hw)%pipeline_exec. unfold written in Hw. cbv zeta in Hw. cbn in Hh.
    by rewrite Hh, String.eqb_refl, Hid in Hw.
Qed.

End feed.
