(* ===== verification/OldSources.v ===== *)
(** * Sources of the previous back end

    old/backend/src/sources, filter and auth/service_identity.rs: the tasks that poll
    the catalogues, the client by which they call the ingestion endpoint of their own
    process, the tokens they do it with, and how the tasks are stopped.  The programs
    run over their calls; errors are their texts and instants nanoseconds. *)

From S2P Require Import Prelude Text OldTurn OldIngest OldUpload OldFeed.

Local Open Scope Z_scope.

(** ** One cycle of an adapter *)

Inductive Decision : Type :=
| Accept
| Reject (reason : string).

(** [NoopFilter] *)
Definition noop_evaluate (_ : IngestRequest) : Decision := Accept.

Record Fetched : Type := mkFetched {
  ft_items : list IngestRequest;
  ft_next_cursor : option json;
}.

Inductive SourceE : Type → Type :=
| GetSourceCursor (adapter : string) : SourceE (result (option json) string)
| PutSourceCursor (adapter : string) (cursor : json) : SourceE (result unit string)
| Fetch (cursor : option json) : SourceE (result Fetched string)
| Evaluate (item : IngestRequest) : SourceE Decision
| FreshToken : SourceE (result string string)
| PostJson (url token : string) (body : IngestRequest) : SourceE (result (Z * result string string) string).

Section sources.
(** The base URL of the endpoint, serde_json on its answer, and [Display] of a status. *)
Context (base_url : string) (parse_outcome : string → result IngestOutcome string) (status_text : Z → string) (adapter : string).

(** [IngestApiClient::ingest] *)
Definition client_ingest (body : IngestRequest) : prog SourceE (result IngestOutcome string) :=
  let* token := call FreshToken in
  match token with
  | Err e => Ret (Err (adapter_error "ingest-api" ("service identity refresh failed: " +:+ e)))
  | Ok token =>
      try? resp := call (PostJson (base_url +:+ "/api/ingestion/documents") token body) in
      let '(status, text) := resp in
      if (200 <=? status) && (status <? 300)
      then Ret (result_map_err (λ e, "http: " +:+ e) (let? text := text in parse_outcome text))
      else Ret (Err (adapter_error "ingest-api"
             ("ingest API " +:+ status_text status +:+ ": " +:+ match text with Ok t => t | Err _ => EmptyString end)))
  end.

Fixpoint ingest_items (items : list IngestRequest) : prog SourceE unit :=
  match items with
  | [] => Ret tt
  | item :: items =>
      let* decision := call (Evaluate item) in
      match decision with
      | Accept => let* _ := client_ingest item in ingest_items items
      | Reject _ => ingest_items items
      end
  end.

Definition run_once : prog SourceE (result unit string) :=
  try? cursor := call (GetSourceCursor adapter) in
  try? fetched := call (Fetch cursor) in
  let* _ := ingest_items (ft_items fetched) in
  match ft_next_cursor fetched with
  | Some c => call (PutSourceCursor adapter c)
  | None => Ret (Ok tt)
  end.

(** ** What a cycle does *)

Inductive SourceObs : Type :=
| OCursor (r : result (option json) string)
| OPut (cursor : json) (r : result unit string)
| OFetch (cursor : option json) (r : result Fetched string)
| OEvaluate (item : IngestRequest) (d : Decision)
| OToken (r : result string string)
| OPost (token : string) (item : IngestRequest) (r : result (Z * result string string) string).

Definition source_obs (A : Type) (e : SourceE A) : A → SourceObs :=
  match e in SourceE A return A → SourceObs with
  | GetSourceCursor _ => OCursor
  | PutSourceCursor _ c => OPut c
  | Fetch c => OFetch c
  | Evaluate item => OEvaluate item
  | FreshToken => OToken
  | PostJson _ token item => OPost token item
  end.

(** The fate of an item: rejected by the filter, without a token, or posted. *)
Inductive fate (item : IngestRequest) : list SourceObs → Prop :=
| fate_rejected reason : fate item [OEvaluate item (Reject reason)]
| fate_no_token e : fate item [OEvaluate item Accept; OToken (Err e)]
| fate_posted token r : fate item [OEvaluate item Accept; OToken (Ok token); OPost token item r].

Lemma client_ingest_exec item tr r :
  exec source_obs (client_ingest item) tr r →
  (∃ e, tr = [OToken (Err e)]) ∨ ∃ token x, tr = [OToken (Ok token); OPost token item x].
Proof.
  intros (token & tr1 & -> & Hx)%exec_vis. cbn [source_obs]. destruct token as [token | e].
  - right. apply exec_vis in Hx as (x & tr2 & -> & Hx). exists token, x.
    destruct x as [[status text] | e]; [| by destruct Hx as [-> _]].
    destruct (_ && _); by destruct Hx as [-> _].
  - left. exists e. by destruct Hx as [-> _].
Qed.

Lemma ingest_items_exec items tr u :
  exec source_obs (ingest_items items) tr u → ∃ fates, tr = concat fates ∧ Forall2 fate items fates.
Proof.
  revert tr. induction items as [| item items IH]; intros tr Hx.
  { destruct Hx as [-> _]. by exists []. }
  apply exec_vis in Hx as (d & tr1 & -> & Hx). cbn [source_obs]. destruct d as [| reason].
  - apply exec_bind_inv in Hx as (tr2 & tr3 & u1 & -> & Hc & Hx). apply IH in Hx as (fates & -> & Hf).
    apply client_ingest_exec in Hc as [[e ->] | (token & r & ->)].
    + exists ([OEvaluate item Accept; OToken (Err e)] :: fates). split; [done |]. constructor; [constructor | done].
    + exists ([OEvaluate item Accept; OToken (Ok token); OPost token item r] :: fates).
      split; [done |]. constructor; [constructor | done].
  - apply IH in Hx as (fates & -> & Hf). exists ([OEvaluate item (Reject reason)] :: fates).
    split; [done |]. constructor; [constructor | done].
Qed.

(** Fact: a cycle that has fetched asks the filter for every item in order and posts
    those it accepts, each once, and then stores the cursor of the fetch, whatever
    became of the items. *)
Theorem cycle_offers_every_item tr r :
  exec source_obs run_once tr r →
  (∃ e, tr = [OCursor (Err e)] ∧ r = Err e) ∨
  (∃ cursor e, tr = [OCursor (Ok cursor); OFetch cursor (Err e)] ∧ r = Err e) ∨
  ∃ cursor fetched fates,
    Forall2 fate (ft_items fetched) fates ∧
    match ft_next_cursor fetched with
    | None => tr = OCursor (Ok cursor) :: OFetch cursor (Ok fetched) :: concat fates ∧ r = Ok tt
    | Some c => ∃ x, tr = OCursor (Ok cursor) :: OFetch cursor (Ok fetched) :: concat fates ++ [OPut c x] ∧ r = x
    end.
Proof.
  intros (cursor & tr1 & -> & Hx)%exec_vis. cbn [source_obs].
  destruct cursor as [cursor | e]; [| left; exists e; by destruct Hx as [-> <-]]. right.
  apply exec_vis in Hx as (fetched & tr2 & -> & Hx). cbn [source_obs].
  destruct fetched as [fetched | e]; [| left; exists cursor, e; by destruct Hx as [-> <-]]. right.
  apply exec_bind_inv in Hx as (tr3 & tr4 & u & -> & Hi & Hx). apply ingest_items_exec in Hi as (fates & -> & Hf).
  exists cursor, fetched, fates. split; [done |]. destruct (ft_next_cursor fetched) as [c |].
  - destruct tr4 as [| o tr4]; [done |]. destruct Hx as (x & -> & -> & <-). by exists x.
  - destruct Hx as [-> <-]. by rewrite app_nil_r.
Qed.

(** Fact: the cursor passes items that could not be ingested.  When the endpoint cannot
    be called the cycle ends well all the same, and the next one begins after them. *)
Theorem cursor_passes_failed_items cursor items c e :
  ∃ tr, exec source_obs run_once tr (Ok tt) ∧
    tr = OCursor (Ok cursor) :: OFetch cursor (Ok (mkFetched items (Some c))) ::
      concat (map (λ item, [OEvaluate item Accept; OToken (Err e)]) items) ++ [OPut c (Ok tt)].
Proof.
  eexists. split; [| reflexivity]. exists (Ok cursor). split; [done |].
  exists (Ok (mkFetched items (Some c))). split; [done |]. cbn [ft_items ft_next_cursor].
  induction items as [| item items IH]; cbn [map concat ingest_items].
  - by exists (Ok tt).
  - exists Accept. split; [done |]. exists (Err e). by split.
Qed.
End sources.

(** ** Starting and stopping the tasks

    [run_scheduler] spawns a task per adapter.  A task waits in [select!] for its tick
    or for [notified]; [notify_waiters] wakes those that wait and leaves no permit for
    others. *)
Inductive Task : Type :=
| Parked        (** in [select!] *)
| Cycling       (** in [run_once] *)
| Woken         (** [notified] has completed *)
| Returned.

#[export] Instance task_eq_dec : EqDecision Task.
Proof. solve_decision. Defined.

Record Scheduler : Type := mkScheduler { sd_tasks : list Task; sd_stopping : bool }.

Inductive TaskAction : Type :=
| Tick (i : nat)
| CycleEnds (i : nat)
| Leave (i : nat)
| NotifyWaiters.

Definition run_scheduler (adapters : nat) : Scheduler := mkScheduler (replicate adapters Parked) false.

Definition wake (t : Task) : Task := match t with Parked => Woken | t => t end.

(** What task [t] becomes by [a], if it can do it. *)
Definition move (a : TaskAction) (t : Task) : option Task :=
  match a, t with
  | Tick _, Parked => Some Cycling
  | CycleEnds _, Cycling => Some Parked
  | Leave _, Woken => Some Returned
  | _, _ => None
  end.

Definition task_act (a : TaskAction) (s : Scheduler) : option Scheduler :=
  match a with
  | NotifyWaiters => if sd_stopping s then None else Some (mkScheduler (wake <$> sd_tasks s) true)
  | Tick i | CycleEnds i | Leave i =>
      t ← sd_tasks s !! i; t' ← move a t; Some (mkScheduler (<[i := t']> (sd_tasks s)) (sd_stopping s))
  end.

Fixpoint task_acts (l : list TaskAction) (s : Scheduler) : option Scheduler :=
  match l with
  | [] => Some s
  | a :: l => s' ← task_act a s; task_acts l s'
  end.

(** [shutdown] returns once every task has. *)
Definition joined (s : Scheduler) : Prop := Forall (eq Returned) (sd_tasks s).

(** A task that was not waiting when it was notified. *)
Definition missed (i : nat) (s : Scheduler) : Prop :=
  sd_stopping s = true ∧ (sd_tasks s !! i = Some Cycling ∨ sd_tasks s !! i = Some Parked).

Lemma missed_stays i a s s' : missed i s → task_act a s = Some s' → missed i s'.
Proof.
  intros [Hs Hi] Ha. unfold task_act in Ha.
  assert (∀ j, (t ← sd_tasks s !! j; t' ← move a t; Some (mkScheduler (<[j := t']> (sd_tasks s)) (sd_stopping s))) = Some s' →
    missed i s') as Hmove.
  { clear Ha. intros j Ha. apply bind_Some in Ha as (t & Ht & Ha). apply bind_Some in Ha as (t' & Hm & [= <-]).
    split; [done |]. simpl. destruct (decide (j = i)) as [-> | Hj].
    - rewrite list_lookup_insert_eq by (by eapply lookup_lt_Some). rewrite Ht in Hi.
      destruct a, t; simplify_eq/=; destruct Hi; simplify_eq/=; auto.
    - by rewrite list_lookup_insert_ne. }
  destruct a; [by eapply Hmove.. |]. by rewrite Hs in Ha.
Qed.

Lemma missed_forever i l s s' : missed i s → task_acts l s = Some s' → missed i s'.
Proof.
  revert s. induction l as [| a l IH]; intros s Hm Hl; [by injection Hl as <- |].
  apply bind_Some in Hl as (s1 & Ha & Hl). eapply IH; [| done]. by eapply missed_stays.
Qed.

(** The woken tasks from [i] on leave. *)
Lemma leave_all ts s :
  sd_tasks s = replicate (length (sd_tasks s) - length ts) Returned ++ ts → (length ts ≤ length (sd_tasks s))%nat →
  Forall (λ t, t = Woken ∨ t = Returned) ts → ∃ l s', task_acts l s = Some s' ∧ joined s'.
Proof.
  revert s. induction ts as [| t ts IH]; intros s Hs Hlen Hts.
  - exists [], s. split; [done |]. unfold joined. rewrite Hs, app_nil_r. by apply Forall_replicate.
  - apply Forall_cons in Hts as [Ht Hts]. set (i := (length (sd_tasks s) - length (t :: ts))%nat) in *.
    assert (Hi : sd_tasks s !! i = Some t).
    { rewrite Hs, lookup_app_r by (by rewrite length_replicate). by rewrite length_replicate, Nat.sub_diag. }
    assert (Hnext : <[i := Returned]> (sd_tasks s) = replicate (S i) Returned ++ ts).
    { rewrite Hs, insert_app_r_alt by (by rewrite length_replicate). rewrite length_replicate, Nat.sub_diag. simpl.
      by rewrite app_comm_cons, replicate_cons_app, <- app_assoc. }
    simpl in Hlen. assert (S i = length (sd_tasks s) - length ts)%nat as HSi by (unfold i; simpl; lia).
    destruct Ht as [-> | ->].
    + destruct (IH (mkScheduler (<[i := Returned]> (sd_tasks s)) (sd_stopping s))) as (l & s' & Hl & Hj); simpl.
      * by rewrite length_insert, <- HSi.
      * rewrite length_insert. lia.
      * done.
      * exists (Leave i :: l), s'. split; [| done]. cbn [task_acts]. unfold task_act. rewrite Hi. exact Hl.
    + apply (IH s); [| lia | done]. rewrite <- HSi, <- Hnext. by rewrite list_insert_id.
Qed.

(** Fact: [shutdown] can return only if no adapter was in a cycle when it was called:
    a task that was cycling goes back to waiting for its tick, and nothing tells it
    any more. *)
Theorem shutdown_returns_iff_idle s :
  sd_stopping s = false → Forall (λ t, t = Parked ∨ t = Cycling) (sd_tasks s) →
  ∃ s1, task_act NotifyWaiters s = Some s1 ∧
    ((∃ l s2, task_acts l s1 = Some s2 ∧ joined s2) ↔ Forall (eq Parked) (sd_tasks s)).
Proof.
  intros Hs Hts. unfold task_act. rewrite Hs. eexists. split; [done |]. split.
  - intros (l & s2 & Hl & Hj). apply Forall_lookup. intros i t Ht.
    destruct (proj1 (Forall_lookup _ _) Hts i t Ht) as [-> | ->]; [done |]. exfalso.
    assert (missed i s2) as [_ Hm].
    { eapply missed_forever; [| exact Hl]. split; [done |]. left. simpl. by rewrite list_lookup_fmap, Ht. }
    unfold joined in Hj. rewrite Forall_lookup in Hj. by destruct Hm as [H | H]; apply Hj in H.
  - intros Hp. apply (leave_all (wake <$> sd_tasks s)); simpl.
    + by rewrite !length_fmap, Nat.sub_diag.
    + by rewrite !length_fmap.
    + apply Forall_fmap. eapply Forall_impl; [exact Hp |]. intros t <-. by left.
Qed.

(** ** Tokens *)

Definition SECOND : Z := 1000000000.
Definition HS512_SESSION_SECS : Z := 3600.
Definition HS512_REFRESH_HEAD_SECS : Z := 60.
Definition OAUTH_REFRESH_HEAD_SECS : Z := 30.

Record CachedToken : Type := mkCached { ca_jwt : string; ca_refresh_after : Z }.

Record ServiceClaims : Type := mkClaims {
  sc_sub : string;
  sc_iss : string;
  sc_email : string;
  sc_tenant_id : string;
  sc_roles : list string;
  sc_ac : string;
  sc_ns : string;
  sc_db : string;
  sc_iat : Z;
  sc_exp : Z;
}.

Record Hs512ServiceIdentity : Type := mkHs512 {
  hs_name : string;
  hs_secret : string;
  hs_tenant : string;
  hs_ns : string;
  hs_db : string;
}.

Record OAuthClientCredsIdentity : Type := mkOAuth {
  oa_token_url : string;
  oa_client_id : string;
  oa_client_secret : string;
}.

Inductive IdentityE : Type → Type :=
| InstantNow : IdentityE Z
| UtcTimestamp : IdentityE Z          (** whole seconds *)
| PostForm (url client_id client_secret : string) : IdentityE (result (Z * result (string * option Z) string) string).

(** [encode] with HS512, the body of an answer that is not a token, and [Display] of a
    status. *)
Section identity.
Context (encode : ServiceClaims → string → string) (answer_text : result (string * option Z) string → string)
  (status_text : Z → string).

Definition mint (hs : Hs512ServiceIdentity) (now : Z) : string :=
  encode
    (mkClaims ("service:" +:+ hs_name hs) "dev://local" (hs_name hs +:+ "-adapter@delphi.local") (hs_tenant hs) ["ingester"]
       "app_session" (hs_ns hs) (hs_db hs) now (now + HS512_SESSION_SECS))
    (hs_secret hs).

(** The cache, if it holds a token that need not be refreshed; the guard of the mutex
    is held throughout. *)
Definition cached_or (cache : option CachedToken) (refresh : prog IdentityE (result string string * option CachedToken))
  : prog IdentityE (result string string * option CachedToken) :=
  match cache with
  | Some c =>
      let* now := call InstantNow in
      if now <? ca_refresh_after c then Ret (Ok (ca_jwt c), cache) else refresh
  | None => refresh
  end.

Definition hs512_fresh_token (hs : Hs512ServiceIdentity) (cache : option CachedToken) :=
  cached_or cache
    (let* timestamp := call UtcTimestamp in
     let jwt := mint hs timestamp in
     let* now := call InstantNow in
     Ret (Ok jwt, Some (mkCached jwt (now + (HS512_SESSION_SECS - HS512_REFRESH_HEAD_SECS) * SECOND)))).

(** The token and its lifetime in seconds. *)
Definition oauth_fetch (oa : OAuthClientCredsIdentity) : prog IdentityE (result (string * Z) string) :=
  let* resp := call (PostForm (oa_token_url oa) (oa_client_id oa) (oa_client_secret oa)) in
  Ret (match resp with
       | Err _ => Err ("POST " +:+ oa_token_url oa)
       | Ok (status, body) =>
           if (200 <=? status) && (status <? 300)
           then match body with
                | Ok (access_token, expires_in) => Ok (access_token, default 3600 expires_in)
                | Err _ => Err "decode token response"
                end
           else Err ("token endpoint returned " +:+ status_text status +:+ ": " +:+ answer_text body)
       end).

Definition oauth_fresh_token (oa : OAuthClientCredsIdentity) (cache : option CachedToken) :=
  cached_or cache
    (let* fetched := oauth_fetch oa in
     match fetched with
     | Err e => Ret (Err e, cache)
     | Ok (jwt, ttl) =>
         let lifetime := Z.max 0 (ttl - OAUTH_REFRESH_HEAD_SECS) in
         let* now := call InstantNow in
         Ret (Ok jwt, Some (mkCached jwt (now + lifetime * SECOND)))
     end).

(** *** How long a token is used *)

Inductive IdentityObs : Type :=
| ONow (now : Z)
| OTimestamp (now : Z)
| OForm (r : result (Z * result (string * option Z) string) string).

Definition identity_obs (A : Type) (e : IdentityE A) : A → IdentityObs :=
  match e in IdentityE A return A → IdentityObs with
  | InstantNow => ONow
  | UtcTimestamp => OTimestamp
  | PostForm _ _ _ => OForm
  end.

(** What is known of a cache: its token expires at [expiry], by the clock of
    [InstantNow]. *)
Definition covered (expiry : Z) (cache : option CachedToken) (jwt : string) : Prop :=
  ∃ refresh, cache = Some (mkCached jwt refresh) ∧ refresh ≤ expiry.

(** Fact: a token of the identity provider is handed out of the cache only while it is
    valid.  If the provider issued it, for [ttl] seconds, at [issued], and the fetch
    took no longer than the 30 seconds that are the limit of the client, what is
    handed out at a later [now] has not expired; and the cache is kept only then. *)
Theorem cached_token_is_alive oa cache tr jwt cache' issued ttl status now :
  exec identity_obs (oauth_fresh_token oa cache) tr (Ok jwt, cache') →
  last tr = Some (ONow now) → OForm (Ok (status, Ok (jwt, Some ttl))) ∈ tr →
  issued ≤ now ≤ issued + OAUTH_REFRESH_HEAD_SECS * SECOND →
  ∀ tr2 r2 cache2 later, exec identity_obs (oauth_fresh_token oa cache') tr2 (r2, cache2) →
    head tr2 = Some (ONow later) → now ≤ later →
    (tr2 = [ONow later] → later < issued + ttl * SECOND ∧ r2 = Ok jwt ∧ cache2 = cache') ∧
    (tr2 ≠ [ONow later] → ca_refresh_after <$> cache' ≠ None ∧ from_option ca_refresh_after 0 cache' ≤ later).
Proof.
  intros Hx Hlast Hform Hissued.
  assert (cache' = Some (mkCached jwt (now + Z.max 0 (ttl - OAUTH_REFRESH_HEAD_SECS) * SECOND))) as ->.
  { assert (∀ tr', exec identity_obs
      (let* fetched := oauth_fetch oa in
       match fetched with
       | Err e => Ret (Err e, cache)
       | Ok (jwt, ttl) =>
           let lifetime := Z.max 0 (ttl - OAUTH_REFRESH_HEAD_SECS) in
           let* now := call InstantNow in
           Ret (Ok jwt, Some (mkCached jwt (now + lifetime * SECOND)))
       end) tr' (Ok jwt, cache') → last tr' = Some (ONow now) → OForm (Ok (status, Ok (jwt, Some ttl))) ∈ tr' →
      cache' = Some (mkCached jwt (now + Z.max 0 (ttl - OAUTH_REFRESH_HEAD_SECS) * SECOND))) as Hfetch.
    { intros tr' (tr1 & tr2 & fetched & -> & Hf & Hx')%exec_bind_inv Hl Hin.
      apply exec_vis in Hf as (resp & tr3 & -> & [-> <-]). cbn [identity_obs] in *.
      destruct resp as [[st body] | e]; [| by destruct Hx' as [_ ?]].
      destruct (_ && _); [| by destruct Hx' as [_ ?]].
      destruct body as [[tok exp] | e]; [| by destruct Hx' as [_ ?]]. cbn in Hx'.
      destruct tr2 as [| o tr2]; [done |]. destruct Hx' as (n & -> & [-> [= -> <-]]). cbn in Hl, Hin.
      injection Hl as ->. apply elem_of_cons in Hin as [Hin | Hin%list_elem_of_singleton]; [| done].
      injection Hin as <- <-. done. }
    unfold oauth_fresh_token, cached_or in Hx. destruct cache as [c |]; [| by eapply Hfetch].
    apply exec_vis in Hx as (n & tr1 & -> & Hx). cbn [identity_obs] in *. destruct (n <? ca_refresh_after c).
    - destruct Hx as [-> [= <- <-]]. by apply list_elem_of_singleton in Hform.
    - apply (Hfetch tr1); [done | | set_solver]. by destruct tr1. }
  intros tr2 r2 cache2 later Hx2 Hhead Hlater. unfold oauth_fresh_token, cached_or in Hx2.
  apply exec_vis in Hx2 as (n & tr3 & -> & Hx2). cbn in Hhead. injection Hhead as ->. cbn [ca_refresh_after ca_jwt] in Hx2.
  unfold OAUTH_REFRESH_HEAD_SECS, SECOND in *. destruct (_ <? _) eqn:Hlt; [apply Z.ltb_lt in Hlt | apply Z.ltb_ge in Hlt].
  - destruct Hx2 as [-> [= <- <-]]. split; [intros _; split_and!; [lia | done..] | done].
  - split; [| intros _; split; [done | exact Hlt]]. by intros [= ->].
Qed.
End identity.
