(* ===== verification/OldFeedApi.v ===== *)
(** * Readers of the previous back end

    old/backend/src/api/discovery.rs, documents.rs and chunks.rs: the pages of the feed
    with their cursors, the stream of new documents, the URL of an original and the
    lookup of a chunk, as programs over their calls.  A text in place of a body is the
    text of an error. *)

From S2P Require Import Prelude Text OldChunk OldTurn OldIngest OldUpload.

Local Open Scope Z_scope.

(** ** Cursors *)

Record FeedCursor : Type := mkFeedCursor { fc_ingested_at : Z; fc_id : RecordId }.

Record CursorWire : Type := mkWire { cw_p : string; cw_i : string }.

(** [URL_SAFE_NO_PAD] of base64, serde_json on a [CursorWire], and RFC 3339 in chrono,
    which prints every digit of an instant. *)
Class CursorCodec := {
  b64_encode : string → string;
  b64_decode : string → option string;
  wire_to_json : CursorWire → string;
  wire_of_json : string → option CursorWire;
  to_rfc3339 : Z → string;
  parse_from_rfc3339 : string → option Z;
  b64_decode_encode s : b64_decode (b64_encode s) = Some s;
  wire_of_to_json w : wire_of_json (wire_to_json w) = Some w;
  parse_to_rfc3339 t : parse_from_rfc3339 (to_rfc3339 t) = Some t;
}.

Section readers.
Context {CC : CursorCodec} {J : SseJson}.

(** [record_key], of a key that is a string. *)
Definition record_key (id : RecordId) : string := id.2.

Definition encode_cursor (ingested_at : Z) (id : RecordId) : string :=
  b64_encode (wire_to_json (mkWire (to_rfc3339 ingested_at) (record_key id))).

Definition decode_cursor (s : string) : option FeedCursor :=
  json ← b64_decode s;
  wire ← wire_of_json json;
  utc ← parse_from_rfc3339 (cw_p wire);
  Some (mkFeedCursor utc ("document", cw_i wire)).

(** ** The feed *)

Definition DEFAULT_LIMIT : Z := 50.
Definition MAX_LIMIT : Z := 200.

Record FeedQuery : Type := mkQuery { fq_sort : option string; fq_cursor : option string; fq_limit : option Z }.
Record FeedResponse : Type := mkFeed { fr_items : list Document; fr_next_cursor : option string }.

Inductive ReaderE : Type → Type :=
| ListFeed (cursor : option FeedCursor) (limit : Z) : ReaderE (result (list Document) string)
| GetRow (id : RecordId) : ReaderE (result (option Document) string)
| MintDownload (key : string) (ttl : Z) : ReaderE (result (string * Z) string)
| GetChunk (id : RecordId) : ReaderE (result (option Chunk) string).

(** [clamp(1, MAX_LIMIT)] *)
Definition feed_limit (q : FeedQuery) : Z := Z.min (Z.max (default DEFAULT_LIMIT (fq_limit q)) 1) MAX_LIMIT.

Definition next_cursor (items : list Document) (limit : Z) : option string :=
  if Z.of_nat (length items) =? limit then
    doc ← last items;
    ts ← do_ingested_at doc;
    id ← do_id doc;
    Some (encode_cursor ts id)
  else None.

Definition feed (q : FeedQuery) : prog ReaderE (Z * result FeedResponse string) :=
  let limit := feed_limit q in
  let list_with cursor :=
    let* items := call (ListFeed cursor limit) in
    Ret (match items with
         | Err _ => (500, Err "feed query failed")
         | Ok items => (200, Ok (mkFeed items (next_cursor items limit)))
         end) in
  match fq_cursor q with
  | Some s =>
      match decode_cursor s with
      | Some c => list_with (Some c)
      | None => Ret (400, Err "invalid cursor")
      end
  | None => list_with None
  end.

(** ** New documents *)

Definition SSE_LIFETIME_MS : Z := 3600 * 1000.
Definition SSE_JITTER_MS : Z := 300 * 1000.

(** [sse_lifetime_with_jitter] at [now_ns], in milliseconds. *)
Definition sse_lifetime_with_jitter (now_ns : Z) : Z :=
  let offset_ms := (now_ns mod (u64_max + 1)) mod (SSE_JITTER_MS * 2) in
  Z.max (SSE_LIFETIME_MS + (offset_ms - SSE_JITTER_MS)) 60000.

(** What the biased [select!] answers. *)
Inductive Selected : Type :=
| Deadline
| Received (document : Document)
| Lagged (n : Z)
| Closed.

Inductive EventE : Type → Type :=
| SelectEvent : EventE Selected
| SendSse (document : Document) : EventE unit.

(** [broadcast_to_sse], of which [rounds] bounds the receives: [true] once the stream
    has ended. *)
Fixpoint broadcast_to_sse (rounds : nat) (tenant : RecordId) : prog EventE bool :=
  match rounds with
  | O => Ret false
  | S rounds =>
      let* selected := call SelectEvent in
      match selected with
      | Deadline | Closed => Ret true
      | Lagged _ => broadcast_to_sse rounds tenant
      | Received document =>
          if bool_decide (do_tenant_id document = Some tenant)
          then let* _ := call (SendSse document) in broadcast_to_sse rounds tenant
          else broadcast_to_sse rounds tenant
      end
  end.

(** ** Originals and chunks *)

Definition storage_key_from_uri (uri : string) : option string :=
  match strip_prefix "s3://" uri with
  | Some rest => snd <$> split_once "/" rest
  | None =>
      match strip_prefix "mem-multipart://" uri with
      | Some rest => Some rest
      | None => strip_prefix "mem://" uri
      end
  end.

Record ViewUrlResponse : Type := mkView { vu_url : string; vu_expires_at : string }.

Definition view_url (cfg : UploadsConfig) (key : string) : prog ReaderE (Z * result ViewUrlResponse string) :=
  let* doc := call (GetRow ("document", key)) in
  match doc with
  | Err _ => Ret (500, Err "lookup failed")
  | Ok None => Ret (404, Err "document not found")
  | Ok (Some doc) =>
      match do_storage_uri doc with
      | None => Ret (404, Err "no stored original")
      | Some storage_uri =>
          match storage_key_from_uri storage_uri with
          | None => Ret (404, Err "stored original unavailable")
          | Some storage_key =>
              let* grant := call (MintDownload storage_key (uc_download_url_ttl cfg)) in
              Ret (match grant with
                   | Ok (url, expires_at) => (200, Ok (mkView url (to_rfc3339 expires_at)))
                   | Err _ => (502, Err "could not mint download url")
                   end)
          end
      end
  end.

Record ChunkResponse : Type := mkChunkResponse {
  cr_id : string;
  cr_doc_id : string;
  cr_ordinal : Z;
  cr_text : string;
  cr_bboxes : option (list Bbox);
}.

Definition get_chunk (key : string) : prog ReaderE (Z * result ChunkResponse string) :=
  let* chunk := call (GetChunk ("chunk", key)) in
  Ret (match chunk with
       | Err _ => (500, Err "lookup failed")
       | Ok None => (404, Err "chunk not found")
       | Ok (Some chunk) =>
           match ck_doc chunk with
           | None => (500, Err "malformed chunk")
           | Some doc =>
               (200, Ok (mkChunkResponse (match ck_id chunk with Some r => to_sql r | None => "chunk:" +:+ key end)
                           (to_sql doc) (ck_ordinal chunk) (ck_text chunk) (ck_bboxes chunk)))
           end
       end).

(** ** Properties *)

(** Fact: the cursor of a page names the last document of the page. *)
Theorem feed_cursor_roundtrip ts key :
  decode_cursor (encode_cursor ts ("document", key)) = Some (mkFeedCursor ts ("document", key)).
Proof.
  unfold decode_cursor, encode_cursor. rewrite b64_decode_encode. cbn [mbind option_bind].
  rewrite wire_of_to_json. cbn [mbind option_bind cw_p cw_i]. by rewrite parse_to_rfc3339.
Qed.

(** Fact: a page has a size between 1 and 200 and at most one query; a cursor that does
    not decode asks the database nothing. *)
Theorem feed_asks_once {O} (obs : ∀ A, ReaderE A → A → O) q tr resp :
  exec obs (feed q) tr resp →
  1 ≤ feed_limit q ≤ 200 ∧
  ((resp.1 = 400 ∧ tr = [] ∧ fq_cursor q ≫= decode_cursor = None ∧ fq_cursor q ≠ None) ∨
   ∃ items, tr = [obs _ (ListFeed (fq_cursor q ≫= decode_cursor) (feed_limit q)) items] ∧
     resp = match items with
            | Err _ => (500, Err "feed query failed")
            | Ok items => (200, Ok (mkFeed items (next_cursor items (feed_limit q))))
            end).
Proof.
  intros Hx. split; [unfold feed_limit, MAX_LIMIT; lia |]. unfold feed in Hx. cbv zeta in Hx.
  destruct (fq_cursor q) as [s |]; cbn [mbind option_bind].
  - destruct (decode_cursor s) as [c |]; [right | left; by destruct Hx as [-> <-]].
    apply exec_vis in Hx as (items & tr' & -> & [-> <-]). by exists items.
  - right. apply exec_vis in Hx as (items & tr' & -> & [-> <-]). by exists items.
Qed.

(** Fact: a stream lives between 55 and 65 minutes, whatever the clock says. *)
Theorem sse_lifetime_bounds now_ns : 55 * 60 * 1000 ≤ sse_lifetime_with_jitter now_ns < 65 * 60 * 1000.
Proof.
  unfold sse_lifetime_with_jitter, SSE_LIFETIME_MS, SSE_JITTER_MS. cbv zeta.
  set (n := now_ns mod (u64_max + 1)). clearbody n.
  pose proof (Z.mod_pos_bound n (300 * 1000 * 2) ltac:(lia)). lia.
Qed.

Inductive EventObs : Type := OSelected (s : Selected) | OSse (document : Document).

Definition event_obs (A : Type) (e : EventE A) : A → EventObs :=
  match e in EventE A return A → EventObs with
  | SelectEvent => OSelected
  | SendSse document => λ _, OSse document
  end.

Definition sse_sent (tr : list EventObs) : list Document := omap (λ o, match o with OSse d => Some d | _ => None end) tr.
Definition sse_received (tr : list EventObs) : list Document :=
  omap (λ o, match o with OSelected (Received d) => Some d | _ => None end) tr.

(** Fact: the subscribers of a tenant are sent the documents of the tenant among those
    that were received, each once and in their order. *)
Theorem events_stay_in_tenant rounds tenant tr ended :
  exec event_obs (broadcast_to_sse rounds tenant) tr ended →
  sse_sent tr = filter (λ d, do_tenant_id d = Some tenant) (sse_received tr).
Proof.
  revert tr. induction rounds as [| rounds IH]; intros tr Hx; [by destruct Hx as [-> _] |].
  apply exec_vis in Hx as (s & tr1 & -> & Hx). cbn [event_obs].
  destruct s as [| d | n |]; cbn [sse_sent sse_received omap list_omap].
  - by destruct Hx as [-> _].
  - destruct (bool_decide _) eqn:Ht; [apply bool_decide_eq_true in Ht | apply bool_decide_eq_false in Ht].
    + apply exec_vis in Hx as (u & tr2 & -> & Hx). rewrite filter_cons_True by done.
      cbn [event_obs omap list_omap]. f_equal. by apply IH.
    + rewrite filter_cons_False by done. by apply IH.
  - by apply IH.
  - by destruct Hx as [-> _].
Qed.

(** Fact: the key that is signed for a document is the key under which its upload was
    stored, when the bucket has no slash. *)
Theorem view_url_finds_the_object bucket key :
  has_char "/" bucket = false → starts_with key "/" = false →
  storage_key_from_uri (storage_uri_for_key bucket key) = Some key.
Proof.
  intros Hb Hk. unfold storage_uri_for_key, storage_key_from_uri. unfold starts_with in Hk.
  destruct (strip_prefix "/" key) eqn:Hs; [done |]. cbn [default from_option].
  rewrite strip_prefix_app. change ("/" +:+ key) with (String "/" key). by rewrite split_once_app.
Qed.

(** Fact: an original is signed only for a row that the database showed to the caller,
    under the key of that row and for the configured time. *)
Theorem view_url_is_of_a_visible_row {O} (obs : ∀ A, ReaderE A → A → O) cfg key tr resp :
  exec obs (view_url cfg key) tr resp →
  (resp.1 = 200 → ∃ doc uri storage_key grant,
    tr = [obs _ (GetRow ("document", key)) (Ok (Some doc)); obs _ (MintDownload storage_key (uc_download_url_ttl cfg)) (Ok grant)] ∧
    do_storage_uri doc = Some uri ∧ storage_key_from_uri uri = Some storage_key) ∧
  (length tr = 2%nat → resp.1 = 200 ∨ resp.1 = 502).
Proof.
  intros (doc & tr1 & -> & Hx)%exec_vis.
  destruct doc as [[doc |] | e]; [| by destruct Hx as [-> <-]..].
  destruct (do_storage_uri doc) as [uri |] eqn:Hu; [| by destruct Hx as [-> <-]].
  destruct (storage_key_from_uri uri) as [sk |] eqn:Hk; [| by destruct Hx as [-> <-]].
  apply exec_vis in Hx as (grant & tr2 & -> & [-> <-]).
  destruct grant as [[url exp] | e]; (split; [| naive_solver]); [| done].
  intros _. by exists doc, uri, sk, (url, exp).
Qed.
End readers.

(** A codec to evaluate with. *)
Module Demo.

Lemma hex_no_colon s : has_char ":" (Text.Demo.hex_string s) = false.
Proof. induction s as [| a s IH]; [done |]. destruct a as [[] [] [] [] [] [] [] []]; exact IH. Qed.

Definition parse_int (s : string) : option Z :=
  match strip_prefix "-" s with Some s => Z.opp <$> parse_digits s | None => parse_digits s end.

Lemma parse_show_int n : parse_int (show_int n) = Some n.
Proof.
  unfold parse_int, show_int. destruct (Z.ltb_spec n 0).
  - cbn. destruct (strip_prefix "" (show_uint (- n))) eqn:Hs; [| done]. cbn in Hs. injection Hs as <-.
    rewrite parse_digits_show by lia. cbn. by rewrite Z.opp_involutive.
  - destruct (show_uint_head n) as (a & s & Hs & Ha). rewrite <- (parse_digits_show n) by lia. rewrite Hs.
    destruct a as [[] [] [] [] [] [] [] []]; done.
Qed.

#[export] Program Instance codec : CursorCodec := {|
  b64_encode := Text.Demo.hex_string;
  b64_decode := Text.Demo.unhex_string;
  wire_to_json w := Text.Demo.hex_string (cw_p w) +:+ ":" +:+ Text.Demo.hex_string (cw_i w);
  wire_of_json s :=
    '(p, i) ← split_once ":" s;
    p ← Text.Demo.unhex_string p;
    i ← Text.Demo.unhex_string i;
    Some (mkWire p i);
  to_rfc3339 := show_int;
  parse_from_rfc3339 := parse_int;
  b64_decode_encode := Text.Demo.unhex_hex;
  parse_to_rfc3339 := parse_show_int;
|}.
Next Obligation.
  intros [p i]. cbn [cw_p cw_i]. change (":" +:+ ?s) with (String ":" s).
  rewrite split_once_app by apply hex_no_colon. cbn [mbind option_bind]. rewrite Text.Demo.unhex_hex.
  cbn [mbind option_bind]. by rewrite Text.Demo.unhex_hex.
Qed.

(** An address of an original, and a cursor, as examples. *)
Example cursor_example : decode_cursor (encode_cursor 1760000000000000001 ("document", "01J"))
  = Some (mkFeedCursor 1760000000000000001 ("document", "01J")).
Proof. vm_compute. reflexivity. Qed.

Example key_example :
  map storage_key_from_uri ["s3://delphi/tenants/test/abc"; "mem://k/abc"; "not-a-url"] = [Some "tenants/test/abc"; Some "k/abc"; None].
Proof. vm_compute. reflexivity. Qed.
End Demo.
