(* ===== verification/OldAuth.v ===== *)
(** * Identity in the previous back end

    old/backend/src/auth and the parts of old/backend/src/storage it stands on: the
    configuration and the guard of production, the claims of a token, the rows of
    tenant, user and membership that a first request creates, the middleware that
    gives every request an identity on a connection of the pool, and the access
    method by which the database checks the token again.  The JWKS validator is the
    code of Auth.v, which was taken from here; errors of the database are the texts
    of their chains of sources. *)

From S2P Require Import Prelude Text Auth OldChunk OldIngest OldUpload.

Local Open Scope Z_scope.

(** ** Configuration *)

Record DevConfig : Type := mkDev {
  dc_tenant_slug : string;
  dc_user_email : string;
  dc_user_name : string;
  dc_jwt_secret : string;
  dc_surreal_ns : string;
  dc_surreal_db : string;
}.

(** The constructor [DevMode] exists in builds with the feature [dev-auth]. *)
Inductive AuthMode : Type :=
| HeaderMode (default_tenant_slug : string)
| DevMode (cfg : DevConfig).

Definition label (mode : AuthMode) : string :=
  match mode with HeaderMode _ => "header" | DevMode _ => "dev" end.

Definition default_tenant_slug (mode : AuthMode) : string :=
  match mode with HeaderMode slug => slug | DevMode c => dc_tenant_slug c end.

Section config.
(** The environment, whether the feature [dev-auth] is compiled in, and [{:?}]. *)
Context (env : string → option string) (dev_auth : bool) (show_debug : string → string).

Definition load_header : AuthMode := HeaderMode (default "default" (env "DELPHI_AUTH_DEFAULT_TENANT")).

Definition load_dev_or_bail : result AuthMode string :=
  if dev_auth then
    let? jwt_secret := ok_or (env "DELPHI_DB_JWT_SECRET")
      "DELPHI_AUTH_MODE=dev requires DELPHI_DB_JWT_SECRET (the dev injector signs with this; SurrealDB's app_session access method validates with the same secret)." in
    Ok (DevMode (mkDev
      (default "dev" (env "DELPHI_AUTH_DEV_TENANT"))
      (default "dev@delphi.local" (env "DELPHI_AUTH_DEV_USER_EMAIL"))
      (default "Dev User" (env "DELPHI_AUTH_DEV_USER_NAME"))
      jwt_secret
      (default "delphi" (env "DELPHI_DB_NAMESPACE"))
      (default "main" (env "DELPHI_DB_NAME"))))
  else Err "DELPHI_AUTH_MODE=dev requires the 'dev-auth' cargo feature. Rebuild with `--features dev-auth` (development only) or set DELPHI_AUTH_MODE=header.".

Definition auth_from_env : result AuthMode string :=
  let mode_raw := default "header" (env "DELPHI_AUTH_MODE") in
  if String.eqb mode_raw "header" then Ok load_header
  else if String.eqb mode_raw "dev" then load_dev_or_bail
  else Err ("invalid DELPHI_AUTH_MODE: " +:+ show_debug mode_raw +:+ "; expected 'header' or 'dev'").

Definition enforce_production_guard (mode : AuthMode) : result unit string :=
  let prod_marker := bool_decide (env "DELPHI_ENV" = Some "production") in
  if negb prod_marker then Ok tt
  else if dev_auth && match mode with DevMode _ => true | HeaderMode _ => false end then
    Err "REFUSING TO START: DELPHI_AUTH_MODE=dev with DELPHI_ENV=production. This is a fatal misconfiguration."
  else
    let service_user := default EmptyString (env "DELPHI_DB_USER") in
    let service_pass := default EmptyString (env "DELPHI_DB_PASSWORD") in
    if is_empty service_user || String.eqb service_user "root" then
      Err "REFUSING TO START: DELPHI_DB_USER is unset or equals the default 'root' under DELPHI_ENV=production. Provision a dedicated DB EDITOR-role user and set DELPHI_DB_USER / DELPHI_DB_PASSWORD to its credentials."
    else if is_empty service_pass || String.eqb service_pass "root" then
      Err "REFUSING TO START: DELPHI_DB_PASSWORD is unset or equals the default 'root' under DELPHI_ENV=production. Set a real password."
    else Ok tt.

(** A credential that production accepts. *)
Definition own_credential (key : string) : Prop :=
  ∃ v, env key = Some v ∧ v ≠ EmptyString ∧ v ≠ "root".

Lemma own_credential_dec key :
  is_empty (default EmptyString (env key)) || String.eqb (default EmptyString (env key)) "root" = false ↔
  own_credential key.
Proof.
  unfold own_credential. rewrite orb_false_iff, String.eqb_neq. destruct (env key) as [v |]; cbn [default from_option].
  - split; [intros [He Hr]; exists v; split_and!; [done | by intros -> | done] |].
    intros (v' & [= <-] & He & Hr). by destruct v.
  - split; [by intros [? _] | by intros (v & ? & _)].
Qed.

(** Fact: with [DELPHI_ENV=production] the server starts exactly if no request is
    authenticated by itself and both credentials of the database are set and not
    those it is shipped with. *)
Theorem production_starts_hardened mode :
  auth_from_env = Ok mode → env "DELPHI_ENV" = Some "production" →
  enforce_production_guard mode = Ok tt ↔
  (∃ slug, mode = HeaderMode slug) ∧ own_credential "DELPHI_DB_USER" ∧ own_credential "DELPHI_DB_PASSWORD".
Proof.
  intros Hmode Hp. unfold enforce_production_guard. rewrite bool_decide_eq_true_2 by done. cbn [negb].
  rewrite <- !own_credential_dec.
  assert (dev_auth && match mode with DevMode _ => true | HeaderMode _ => false end = false ↔ ∃ slug, mode = HeaderMode slug) as <-.
  { destruct mode as [slug | cfg].
    - rewrite andb_false_r. split; [by exists slug | done].
    - rewrite andb_true_r. split; [| by intros [? ?]]. intros Hd. exfalso.
      unfold auth_from_env, load_dev_or_bail in Hmode. rewrite Hd in Hmode. by case_matches. }
  destruct (_ && _); [naive_solver |]. destruct (_ || String.eqb _ _); [naive_solver |].
  destruct (_ || String.eqb _ _); naive_solver.
Qed.
End config.

(** ** The access method of the database *)

(** [str::replace] of one ASCII character. *)
Fixpoint replace_char (c : ascii) (t s : string) : string :=
  match s with
  | EmptyString => EmptyString
  | String a s => if Ascii.eqb a c then t +:+ replace_char c t s else String a (replace_char c t s)
  end.

Definition backslash : ascii := ascii_of_byte 92.
Definition apostrophe : ascii := ascii_of_byte 39.

Definition escape_surrealql_string (s : string) : string :=
  replace_char apostrophe (String backslash (String apostrophe EmptyString))
    (replace_char backslash (String backslash (String backslash EmptyString)) s).

Inductive JwtAccessKind : Type :=
| KindHs512 (secret : string)
| KindJwks (url : string).

Record JwtAccessConfig : Type := mkAccess {
  ja_kind : JwtAccessKind;
  ja_expected_issuer : option string;
  ja_expected_audience : option string;
  ja_session_duration_secs : option Z;
}.

(** A literal of SurrealQL. *)
Definition quoted (s : string) : string := "'" +:+ escape_surrealql_string s +:+ "'".

(** The statement of [define_jwt_access]. *)
Definition jwt_access_statement (cfg : JwtAccessConfig) : string :=
  let validator := match ja_kind cfg with
                   | KindHs512 secret => "ALGORITHM HS512 KEY " +:+ quoted secret
                   | KindJwks url => "URL " +:+ quoted url
                   end in
  let session_secs := default 1800 (ja_session_duration_secs cfg) in
  let checks :=
    match ja_expected_issuer cfg with
    | Some iss => "IF $token.iss != " +:+ quoted iss +:+ " { THROW 'unexpected issuer'; };"
    | None => EmptyString
    end +:+
    match ja_expected_audience cfg with
    | Some aud =>
        "IF (type::is::array($token.aud) AND !($token.aud CONTAINS " +:+ quoted aud +:+
        ")) OR (type::is::string($token.aud) AND $token.aud != " +:+ quoted aud +:+ ") { THROW 'unexpected audience'; };"
    | None => EmptyString
    end in
  "DEFINE ACCESS OVERWRITE app_session ON DATABASE TYPE RECORD WITH JWT " +:+ validator +:+ " AUTHENTICATE { " +:+ checks +:+
  " LET $u = (SELECT VALUE id FROM app_user WHERE iss = $token.iss AND sub = $token.sub LIMIT 1)[0]; IF $u IS NONE { THROW 'unknown user'; }; RETURN $u; } DURATION FOR SESSION " +:+
  show_int session_secs +:+ "s;".

(** What a reader of quoted literals takes from a text that follows the opening quote: the
    content up to the first quote that no backslash precedes, and the rest. *)
Fixpoint read_literal (s : string) : option (string * string) :=
  match s with
  | EmptyString => None
  | String a s =>
      if Ascii.eqb a apostrophe then Some (EmptyString, s)
      else if Ascii.eqb a backslash then
        match s with
        | EmptyString => None
        | String b s => prod_map (String b) id <$> read_literal s
        end
      else prod_map (String a) id <$> read_literal s
  end.

Lemma escape_cons a s :
  escape_surrealql_string (String a s) =
  if Ascii.eqb a backslash then String backslash (String backslash (escape_surrealql_string s))
  else if Ascii.eqb a apostrophe then String backslash (String apostrophe (escape_surrealql_string s))
  else String a (escape_surrealql_string s).
Proof.
  unfold escape_surrealql_string. cbn [replace_char]. destruct (Ascii.eqb_spec a backslash) as [-> |]; [done |].
  cbn [replace_char]. by destruct (Ascii.eqb a apostrophe).
Qed.

(** Fact: whatever a setting holds, its literal ends where it was meant to end and reads
    back as the setting: a secret, a URL, an issuer or an audience cannot add to the
    statement that defines the access method. *)
Theorem literal_is_contained s rest :
  read_literal (escape_surrealql_string s +:+ "'" +:+ rest) = Some (s, rest).
Proof.
  remember ("'" +:+ rest) as tail eqn:Ht. induction s as [| a s IH]; [by subst tail |]. rewrite escape_cons.
  destruct (Ascii.eqb_spec a backslash) as [-> | Hb]; [| destruct (Ascii.eqb_spec a apostrophe) as [-> | Ha]];
    rewrite ?string_app_cons; cbn [read_literal].
  - change (Ascii.eqb backslash apostrophe) with false. change (Ascii.eqb backslash backslash) with true.
    cbn iota. by rewrite IH.
  - change (Ascii.eqb backslash apostrophe) with false. change (Ascii.eqb backslash backslash) with true.
    cbn iota. by rewrite IH.
  - apply Ascii.eqb_neq in Ha, Hb. by rewrite Ha, Hb, IH.
Qed.

(** ** Claims *)

Record Claims : Type := mkIdentityClaims {
  cl_iss : string;
  cl_sub : string;
  cl_email : string;
  cl_display_name : option string;
  cl_tenant_slug : option string;
  cl_roles : list string;
}.

Inductive ClaimsError : Type :=
| ClaimsMissing
| ClaimsInvalid (message : string).

Record InboundClaims : Type := mkInbound {
  ib_sub : option string;
  ib_iss : option string;
  ib_email : option string;
  ib_preferred_username : option string;
  ib_name : option string;
  ib_tenant_id : option string;
  ib_roles : option (list string);
}.

(** The headers of a request in their order, names in lower case. *)
Definition HeaderMap : Type := list (string * string).

(** [HeaderMap::get], [remove] and [insert] *)
Definition header_get (headers : HeaderMap) (name : string) : option string :=
  snd <$> List.find (λ h : string * string, String.eqb h.1 name) headers.
Definition header_remove (name : string) (headers : HeaderMap) : HeaderMap :=
  List.filter (λ h : string * string, negb (String.eqb h.1 name)) headers.
Definition header_insert (name value : string) (headers : HeaderMap) : HeaderMap :=
  header_remove name headers ++ [(name, value)].

Section claims.
Context `{Jwt}.
(** [to_str] of a header, which fails on what is not visible ASCII; the crates jsonwebtoken
    and serde_json on symmetric keys and on these claims; [{:?}] of a string. *)
Context (to_str : string → option string) (decoding_key_from_secret : string → DecodingKey)
  (inbound_from_value : JwtValue → result InboundClaims string) (show_debug : string → string).

Definition bearer_token (headers : HeaderMap) : option string :=
  v ← header_get headers "authorization" ≫= to_str;
  match strip_prefix "Bearer " v with Some s => Some s | None => strip_prefix "bearer " v end.

(** [Hs512Validator::validate] *)
Definition hs512_validate (secret : string) (expected_issuer expected_audience : option string) (jwt : string)
  : result JwtValue JwtError :=
  result_map_err JwtRejected
    (decode jwt (decoding_key_from_secret secret)
      (apply_iss_aud (validation_new HS512) expected_issuer expected_audience)).

Definition validator_from_jwt_access (cfg : JwtAccessConfig) (jwt : string) : prog AuthE (result JwtValue JwtError) :=
  match ja_kind cfg with
  | KindHs512 secret => Ret (hs512_validate secret (ja_expected_issuer cfg) (ja_expected_audience cfg) jwt)
  | KindJwks _ => Auth.validate (ja_expected_issuer cfg) (ja_expected_audience cfg) jwt
  end.

(** The claims of a verified payload. *)
Definition claims_of (inbound : InboundClaims) : result Claims ClaimsError :=
  let? sub := ok_or (ib_sub inbound) (ClaimsInvalid "JWT missing required `sub` claim") in
  let? iss := ok_or (ib_iss inbound) (ClaimsInvalid "JWT missing required `iss` claim") in
  let? email := ok_or (ib_email inbound) (ClaimsInvalid "JWT missing required `email` claim") in
  Ok (mkIdentityClaims iss sub email
        (match ib_preferred_username inbound with Some n => Some n | None => ib_name inbound end)
        (ib_tenant_id inbound) (default [] (ib_roles inbound))).

(** [JwtClaimsExtractor::extract] *)
Definition extract (validator : string → prog AuthE (result JwtValue JwtError)) (headers : HeaderMap)
  : prog AuthE (result Claims ClaimsError) :=
  match bearer_token headers with
  | None => Ret (Err ClaimsMissing)
  | Some bearer =>
      let* payload := validator bearer in
      Ret (let? payload := result_map_err (λ e, ClaimsInvalid (jwt_error_to_string show_debug e)) payload in
           let? inbound := result_map_err (λ e, ClaimsInvalid ("decode JWT payload: " +:+ e)) (inbound_from_value payload) in
           claims_of inbound)
  end.

(** *** The identity of a developer *)

Record DevClaims : Type := mkDevClaims {
  dv_sub : string;
  dv_iss : string;
  dv_email : string;
  dv_preferred_username : string;
  dv_tenant_id : string;
  dv_roles : list string;
  dv_ac : string;
  dv_ns : string;
  dv_db : string;
  dv_iat : Z;
  dv_exp : Z;
}.

(** jsonwebtoken's [encode] with HS512. *)
Context (encode : DevClaims → string → string).

Definition dev_claims (cfg : DevConfig) (now : Z) : DevClaims :=
  mkDevClaims "dev-user" "dev://local" (dc_user_email cfg) (dc_user_name cfg) (dc_tenant_slug cfg) ["ingester"]
    "app_session" (dc_surreal_ns cfg) (dc_surreal_db cfg) now (now + 86400).

Definition mint_dev_jwt (cfg : DevConfig) (now : Z) : string := encode (dev_claims cfg now) (dc_jwt_secret cfg).

(** [dev_inject_middleware]: the headers it hands on. *)
Definition dev_inject (cfg : DevConfig) (now : Z) (headers : HeaderMap) : HeaderMap :=
  header_insert "authorization" ("Bearer " +:+ mint_dev_jwt cfg now) (header_remove "authorization" headers).

Lemma header_get_insert name value headers : header_get (header_insert name value headers) name = Some value.
Proof.
  unfold header_get, header_insert, header_remove. induction headers as [| h headers IH]; cbn.
  - by rewrite String.eqb_refl.
  - destruct (String.eqb h.1 name) eqn:He; cbn; [done | by rewrite He].
Qed.

(** Fact: behind the injector of the developer every request is that of the configured
    developer, whatever authorization the client sent; the extractor and the validator are
    those of production, so what differs between the two is only who made the token.  The
    header is visible ASCII, jsonwebtoken accepts what it signed with the same secret, and
    serde_json reads the claims it wrote. *)
Theorem dev_identity_is_configured cfg now headers payload :
  to_str ("Bearer " +:+ mint_dev_jwt cfg now) = Some ("Bearer " +:+ mint_dev_jwt cfg now) →
  decode (mint_dev_jwt cfg now) (decoding_key_from_secret (dc_jwt_secret cfg)) (apply_iss_aud (validation_new HS512) None None)
    = Ok payload →
  (let c := dev_claims cfg now in
   inbound_from_value payload = Ok (mkInbound (Some (dv_sub c)) (Some (dv_iss c)) (Some (dv_email c))
     (Some (dv_preferred_username c)) None (Some (dv_tenant_id c)) (Some (dv_roles c)))) →
  let access := mkAccess (KindHs512 (dc_jwt_secret cfg)) None None None in
  extract (validator_from_jwt_access access) (dev_inject cfg now headers) =
  Ret (Ok (mkIdentityClaims "dev://local" "dev-user" (dc_user_email cfg) (Some (dc_user_name cfg))
             (Some (dc_tenant_slug cfg)) ["ingester"])).
Proof.
  intros Hstr Hdec Hin access. unfold extract, bearer_token, dev_inject. rewrite header_get_insert.
  cbn [mbind option_bind]. rewrite Hstr. cbn [mbind option_bind]. rewrite strip_prefix_app.
  unfold validator_from_jwt_access, hs512_validate. cbn [ja_kind access ja_expected_issuer ja_expected_audience].
  rewrite Hdec. cbn [prog_bind result_map_err result_bind]. by rewrite Hin.
Qed.

(** Fact: a request has an identity only if its bearer token was accepted by the validator,
    and then the identity is that of the claims of this token: nothing else of the request
    is read. *)
Theorem identity_is_of_the_token (validator : string → prog AuthE (result JwtValue JwtError)) headers {O}
    (obs : ∀ A, AuthE A → A → O) tr claims :
  exec obs (extract validator headers) tr (Ok claims) →
  ∃ bearer payload inbound,
    bearer_token headers = Some bearer ∧ exec obs (validator bearer) tr (Ok payload) ∧
    inbound_from_value payload = Ok inbound ∧
    ib_sub inbound = Some (cl_sub claims) ∧ ib_iss inbound = Some (cl_iss claims) ∧
    ib_email inbound = Some (cl_email claims) ∧ ib_tenant_id inbound = cl_tenant_slug claims ∧
    cl_roles claims = default [] (ib_roles inbound).
Proof.
  unfold extract. destruct (bearer_token headers) as [bearer |]; [| by intros [_ ?]].
  intros (tr1 & tr2 & payload & -> & Hv & [-> Hr])%exec_bind_inv. rewrite app_nil_r.
  destruct payload as [payload | e]; [cbn [result_map_err result_bind] in Hr | done].
  destruct (inbound_from_value payload) as [inbound | e] eqn:Hi; [cbn [result_map_err result_bind] in Hr | done].
  exists bearer, payload, inbound. split_and!; [done | done | done |..]; unfold claims_of in Hr;
    destruct (ib_sub inbound), (ib_iss inbound), (ib_email inbound); try done; cbn in Hr; by injection Hr as <-.
Qed.
End claims.

(** ** Requests *)

Record AuthContext : Type := mkContext {
  ac_user_id : RecordId;
  ac_tenant_id : RecordId;
  ac_email : string;
  ac_display_name : option string;
  ac_iss : string;
  ac_sub : string;
  ac_roles : list string;
  ac_is_dev : bool;
}.

(** Less the two fields that are only decoded. *)
Record UserRow : Type := mkUserRow {
  ur_id : RecordId;
  ur_email : string;
  ur_display_name : option string;
}.

Record AuthRecord : Type := mkAuthRecord {
  ar_id : RecordId;
  ar_tenant_id : RecordId;
  ar_email : string;
  ar_display_name : option string;
}.

(** An error: its text and those of its sources. *)
Definition Chain : Type := list string.

(** The answer to a query, and what is taken from it. *)
Definition Answer (A : Type) : Type := result (result A Chain) Chain.

(** A connection of the pool. *)
Definition Conn : Type := nat.

(** An answer of the server: a text, the JSON of [me], or what a handler gives. *)
Inductive Reply : Type :=
| Plain (status : Z) (body : string)
| JsonReply (body : json)
| Handled.

(** The calls of a request: those of the pool and its connections, those to the tables
    under the privileged session, and the handlers behind the middleware.  [DropDb] is
    the [Drop] of [AuthedDb]: the task that logs the session out and sends the connection
    back. *)
Inductive IdE : Type → Type :=
| Extract (headers : HeaderMap) : IdE (result Claims ClaimsError)
| PoolRecv : IdE (option Conn)
| PoolSend (c : Conn) : IdE unit
| Authenticate (c : Conn) (bearer : string) : IdE (result unit Chain)
| DropDb (c : Conn) : IdE unit
| ResolveAuth (c : Conn) : IdE (Answer (option AuthRecord))
| Invalidate : IdE unit
| SelectTenant (slug : string) : IdE (Answer (option RecordId))
| CreateTenant (slug name : string) : IdE (Answer (option RecordId))
| SelectUser (iss sub : string) : IdE (Answer (option UserRow))
| UpdateUser (id : RecordId) (email : string) (name : option string) (tenant : RecordId) : IdE unit
| CreateUser (iss sub email : string) (name : option string) (tenant : RecordId) : IdE (Answer (option UserRow))
| SelectMembership (user tenant : RecordId) : IdE (Answer (option RecordId))
| CreateMembership (user tenant : RecordId) : IdE (Answer unit)
| Next (auth : AuthContext) (c : Conn) : IdE Reply.

(** [anyhow::Context::context], on the query and on what is taken from it. *)
Definition context {A} (msg : string) (r : result A Chain) : result A Chain := result_map_err (cons msg) r.
Definition take_answer {A} (query take : string) (r : Answer A) : result A Chain :=
  let? response := context query r in context take response.

Definition is_index_exists (err : Chain) : bool :=
  existsb (λ text, contains (to_ascii_lowercase text) "already contains") err.

Definition is_unknown_user (err : Chain) : bool := existsb (λ text, contains text "unknown user") err.

Section requests.
(** [char::to_uppercase] and whether the database is embedded, with one session for all. *)
Context (to_uppercase : Z → list Z) (shared_engine : bool).

(** Split at [-] and [_]. *)
Definition slug_parts (slug : string) : list string := concat (split "_" <$> split "-" slug).

Definition capitalize (p : string) : string :=
  match chars p with
  | [] => EmptyString
  | c :: cs => collect (to_uppercase c ++ cs)
  end.

Definition slug_to_display_name (slug : string) : string :=
  String.concat " " (capitalize <$> List.filter (λ p, negb (is_empty p)) (slug_parts slug)).

Definition ensure_root_session : prog IdE unit :=
  if negb shared_engine then Ret tt else call Invalidate.

Definition upsert_tenant (slug name : string) : prog IdE (result RecordId Chain) :=
  let* _ := ensure_root_session in
  let* r := call (SelectTenant slug) in
  match take_answer "select tenant by slug" "decode tenant select" r with
  | Err e => Ret (Err e)
  | Ok (Some id) => Ret (Ok id)
  | Ok None =>
      let* r := call (CreateTenant slug name) in
      match take_answer "create tenant" "decode tenant create" r with
      | Ok (Some id) => Ret (Ok id)
      | Ok None => Ret (Err ["tenant CREATE returned no row"])
      | Err e =>
          if is_index_exists e then
            let* r := call (SelectTenant slug) in
            Ret (let? row := take_answer "reselect tenant after race" "decode tenant reselect" r in
                 ok_or row ["tenant vanished after IndexExists race"])
          else Ret (Err e)
      end
  end.

Definition upsert_user (iss sub email : string) (display_name : option string) (tenant : RecordId)
  : prog IdE (result UserRow Chain) :=
  let* _ := ensure_root_session in
  let* r := call (SelectUser iss sub) in
  match take_answer "select app_user" "decode app_user select" r with
  | Err e => Ret (Err e)
  | Ok (Some u) =>
      let* _ := call (UpdateUser (ur_id u) email display_name tenant) in
      Ret (Ok u)
  | Ok None =>
      let* r := call (CreateUser iss sub email display_name tenant) in
      match take_answer "create app_user" "decode app_user create" r with
      | Ok (Some row) => Ret (Ok row)
      | Ok None => Ret (Err ["app_user CREATE returned no row"])
      | Err e =>
          if is_index_exists e then
            let* r := call (SelectUser iss sub) in
            Ret (let? row := take_answer "reselect app_user after race" "decode app_user reselect" r in
                 ok_or row ["app_user vanished after IndexExists race"])
          else Ret (Err e)
      end
  end.

Definition upsert_membership (user tenant : RecordId) : prog IdE (result unit Chain) :=
  let* _ := ensure_root_session in
  let* r := call (SelectMembership user tenant) in
  match take_answer "select membership" "decode membership select" r with
  | Err e => Ret (Err e)
  | Ok (Some _) => Ret (Ok tt)
  | Ok None =>
      let* r := call (CreateMembership user tenant) in
      Ret (match take_answer "create membership" "membership create check" r with
           | Ok _ => Ok tt
           | Err e => if is_index_exists e then Ok tt else Err e
           end)
  end.

Definition resolve_default_tenant (slug : string) : prog IdE (result RecordId Chain) := upsert_tenant slug "Default".

Definition ensure_user (claims : Claims) (default_slug : string) (default_id : RecordId)
  : prog IdE (result AuthContext Chain) :=
  let*? tenant_id :=
    match cl_tenant_slug claims with
    | Some slug => if String.eqb slug default_slug then Ret (Ok default_id)
                   else upsert_tenant slug (slug_to_display_name slug)
    | None => Ret (Ok default_id)
    end in
  let*? user := upsert_user (cl_iss claims) (cl_sub claims) (cl_email claims) (cl_display_name claims) tenant_id in
  let*? _ := upsert_membership (ur_id user) tenant_id in
  Ret (Ok (mkContext (ur_id user) tenant_id (ur_email user) (ur_display_name user)
             (cl_iss claims) (cl_sub claims) (cl_roles claims) false)).

Definition seed_dev_world (cfg : DevConfig) : prog IdE (result RecordId Chain) :=
  let*? tenant_id := upsert_tenant (dc_tenant_slug cfg) "Dev Tenant" in
  let*? user := upsert_user "dev://local" "dev-user" (dc_user_email cfg) (Some (dc_user_name cfg)) tenant_id in
  let*? _ := upsert_membership (ur_id user) tenant_id in
  Ret (Ok tenant_id).

(** [Error::Surreal] of an error, and [Error::InvalidConfig]. *)
Definition surreal_error (e : Chain) : Chain := ("surrealdb: " +:+ default EmptyString (head e)) :: e.
Definition invalid_config (msg : string) : Chain := ["invalid configuration: " +:+ msg].

(** [RequestDbPool::acquire]: the connection of the guard. *)
Definition acquire (bearer : string) : prog IdE (result Conn Chain) :=
  let* db := call PoolRecv in
  match db with
  | None => Ret (Err (invalid_config "request DB pool closed"))
  | Some db =>
      let* r := call (Authenticate db bearer) in
      match r with
      | Err e =>
          let* _ := call (PoolSend db) in
          Ret (Err (surreal_error e))
      | Ok _ => Ret (Ok db)
      end
  end.

(** [AuthedDb::resolve_auth] *)
Definition resolve_auth (db : Conn) : prog IdE (result AuthRecord Chain) :=
  let* r := call (ResolveAuth db) in
  Ret (match r with
       | Ok (Ok (Some row)) => Ok row
       | Ok (Ok None) => Err (invalid_config "resolve_auth: $auth returned no row")
       | Ok (Err e) | Err e => Err (surreal_error e)
       end).

Definition build_context (claims : Claims) (rec : AuthRecord) : AuthContext :=
  mkContext (ar_id rec) (ar_tenant_id rec) (ar_email rec) (ar_display_name rec) (cl_iss claims) (cl_sub claims)
    (cl_roles claims) (String.eqb (cl_iss claims) "dev://local").

Definition set_is_dev (auth : AuthContext) (b : bool) : AuthContext :=
  mkContext (ac_user_id auth) (ac_tenant_id auth) (ac_email auth) (ac_display_name auth) (ac_iss auth) (ac_sub auth)
    (ac_roles auth) b.

(** The dependencies of the middleware but the pool and the database, which are calls. *)
Context (default_slug : string) (default_id : RecordId) (to_str : string → option string).

Definition cold_path_provision (claims : Claims) (bearer : string) : prog IdE (result (Conn * AuthContext) Reply) :=
  let* auth := ensure_user claims default_slug default_id in
  match auth with
  | Err _ => Ret (Err (Plain 500 "auth setup failed"))
  | Ok auth =>
      let auth := set_is_dev auth (String.eqb (cl_iss claims) "dev://local") in
      let* db := acquire bearer in
      Ret (match db with
           | Err _ => Err (Plain 401 "db auth failed")
           | Ok db => Ok (db, auth)
           end)
  end.

(** What the middleware hands to the handlers, from the bearer token on. *)
Definition establish (claims : Claims) (bearer : string) : prog IdE (result (Conn * AuthContext) Reply) :=
  let* db := acquire bearer in
  match db with
  | Ok db =>
      let* rec := resolve_auth db in
      match rec with
      | Ok rec => Ret (Ok (db, build_context claims rec))
      | Err _ =>
          let* _ := call (DropDb db) in
          Ret (Err (Plain 500 "auth setup failed"))
      end
  | Err e =>
      if is_unknown_user e then cold_path_provision claims bearer
      else Ret (Err (Plain 401 "db auth failed"))
  end.

Definition identity_middleware (headers : HeaderMap) : prog IdE Reply :=
  let* claims := call (Extract headers) in
  match claims with
  | Err ClaimsMissing => Ret (Plain 401 "not authenticated")
  | Err (ClaimsInvalid _) => Ret (Plain 401 "invalid identity")
  | Ok claims =>
      match bearer_token to_str headers with
      | None => Ret (Plain 401 "missing bearer token")
      | Some bearer =>
          let* established := establish claims bearer in
          match established with
          | Err resp => Ret resp
          | Ok (db, auth) =>
              let* reply := call (Next auth db) in
              let* _ := call (DropDb db) in
              Ret reply
          end
      end
  end.
End requests.

(** [me], the fields of its object in the order of the source. *)
Definition me (to_sql : RecordId → string) (auth : option AuthContext) : Reply :=
  match auth with
  | None => Plain 401 "not authenticated"
  | Some auth =>
      JsonReply (JObject [
        ("user", JObject [("id", JString (to_sql (ac_user_id auth))); ("email", JString (ac_email auth));
                          ("name", from_option JString JNull (ac_display_name auth))]);
        ("tenant", JObject [("id", JString (to_sql (ac_tenant_id auth)))]);
        ("roles", JArray (JString <$> ac_roles auth));
        ("dev", JBool (ac_is_dev auth))])
  end.

(** The size of the pool. *)
Definition DEFAULT_POOL_SIZE : Z := 8.

Definition pool_size (env : string → option string) (show_debug : string → string) : result Z Chain :=
  let? size := match env "DELPHI_DB_POOL_SIZE" with
               | Some s => ok_or (parse_u64 s) (invalid_config ("DELPHI_DB_POOL_SIZE must be a positive integer; got " +:+ show_debug s))
               | None => Ok DEFAULT_POOL_SIZE
               end in
  if size =? 0 then Err (invalid_config "DELPHI_DB_POOL_SIZE must be > 0") else Ok size.

(** *** What a request does *)

Inductive IdObs : Type :=
| OExtract
| ORecv (c : option Conn)
| OSend (c : Conn)
| OAuthenticate (c : Conn) (bearer : string) (r : result unit Chain)
| ODrop (c : Conn)
| OResolve (c : Conn) (r : Answer (option AuthRecord))
| OSystem
| ONext (auth : AuthContext) (c : Conn).

Definition id_obs (A : Type) (e : IdE A) : A → IdObs :=
  match e in IdE A return A → IdObs with
  | Extract _ => λ _, OExtract
  | PoolRecv => ORecv
  | PoolSend c => λ _, OSend c
  | Authenticate c b => OAuthenticate c b
  | DropDb c => λ _, ODrop c
  | ResolveAuth c => OResolve c
  | Next auth c => λ _, ONext auth c
  | Invalidate | SelectTenant _ | CreateTenant _ _ | SelectUser _ _ | UpdateUser _ _ _ _ | CreateUser _ _ _ _ _
  | SelectMembership _ _ | CreateMembership _ _ => λ _, OSystem
  end.

(** The connection a request has: none, one that nothing gives back but the code itself, or
    one in its guard, authenticated. *)
Inductive Lease : Type :=
| NoConn
| Bare (c : Conn)
| Guarded (c : Conn).

Definition of_conn (c c' : Conn) (l : Lease) : option Lease := if Nat.eqb c c' then Some l else None.

(** One call, if a request with this token may make it with what it has: it takes one
    connection at a time, authenticates it with the token, and hands it to the handlers only
    when it is authenticated. *)
Definition lease_step (token : option string) (l : Lease) (o : IdObs) : option Lease :=
  match l, o with
  | NoConn, (OExtract | OSystem | ORecv None) => Some NoConn
  | NoConn, ORecv (Some c) => Some (Bare c)
  | Bare c, OAuthenticate c' b r =>
      if bool_decide (token = Some b) then of_conn c c' (match r with Ok _ => Guarded c | Err _ => Bare c end) else None
  | Bare c, OSend c' => of_conn c c' NoConn
  | Guarded c, (OResolve c' _ | ONext _ c') => of_conn c c' l
  | Guarded c, ODrop c' => of_conn c c' NoConn
  | _, _ => None
  end.

Fixpoint lease_run (token : option string) (l : Lease) (tr : list IdObs) : option Lease :=
  match tr with
  | [] => Some l
  | o :: tr => l ← lease_step token l o; lease_run token l tr
  end.

Lemma lease_run_app token l tr1 tr2 : lease_run token l (tr1 ++ tr2) = l ← lease_run token l tr1; lease_run token l tr2.
Proof.
  revert l. induction tr1 as [| o tr1 IH]; intros l; [done |]. cbn. by destruct (lease_step token l o); cbn.
Qed.

Lemma of_conn_same c l : of_conn c c l = Some l.
Proof. unfold of_conn. by rewrite Nat.eqb_refl. Qed.

(** Calls to the tables only. *)
Lemma system_run token tr : Forall (λ o, o = OSystem) tr → lease_run token NoConn tr = Some NoConn.
Proof. by induction 1 as [| o tr -> _ IH]. Qed.

Ltac call_step H x tr := apply exec_vis in H as (x & tr & -> & H); cbn [id_obs] in *.

Section behaviour.
Context (to_uppercase : Z → list Z) (shared_engine : bool) (default_slug : string) (default_id : RecordId)
  (to_str : string → option string).

Notation exec := (exec id_obs).
Notation system_only tr := (Forall (λ o, o = OSystem) tr).

Lemma root_session_exec tr u : exec (ensure_root_session shared_engine) tr u → system_only tr.
Proof.
  unfold ensure_root_session. destruct shared_engine; cbn [negb].
  - intros H. call_step H x tr1. destruct H as [-> _]. by repeat constructor.
  - by intros [-> _].
Qed.

Lemma upsert_tenant_exec slug name tr r : exec (upsert_tenant shared_engine slug name) tr r → system_only tr.
Proof.
  unfold upsert_tenant. intros (tr1 & tr2 & u & -> & Hr%root_session_exec & H)%exec_bind_inv.
  apply Forall_app_2; [done |]. call_step H x tr3. constructor; [done |].
  destruct (take_answer _ _ x) as [[id |] | e]; [by destruct H as [-> _] | | by destruct H as [-> _]].
  call_step H y tr4. constructor; [done |].
  destruct (take_answer _ _ y) as [[id |] | e]; [by destruct H as [-> _].. |].
  destruct (is_index_exists e); [| by destruct H as [-> _]]. call_step H z tr5. destruct H as [-> _]. by repeat constructor.
Qed.

Lemma upsert_user_exec iss sub email name tenant tr r :
  exec (upsert_user shared_engine iss sub email name tenant) tr r → system_only tr.
Proof.
  unfold upsert_user. intros (tr1 & tr2 & u & -> & Hr%root_session_exec & H)%exec_bind_inv.
  apply Forall_app_2; [done |]. call_step H x tr3. constructor; [done |].
  destruct (take_answer _ _ x) as [[row |] | e]; [| | by destruct H as [-> _]].
  { call_step H y tr4. destruct H as [-> _]. by repeat constructor. }
  call_step H y tr4. constructor; [done |].
  destruct (take_answer _ _ y) as [[id |] | e]; [by destruct H as [-> _].. |].
  destruct (is_index_exists e); [| by destruct H as [-> _]]. call_step H z tr5. destruct H as [-> _]. by repeat constructor.
Qed.

Lemma upsert_membership_exec user tenant tr r : exec (upsert_membership shared_engine user tenant) tr r → system_only tr.
Proof.
  unfold upsert_membership. intros (tr1 & tr2 & u & -> & Hr%root_session_exec & H)%exec_bind_inv.
  apply Forall_app_2; [done |]. call_step H x tr3. constructor; [done |].
  destruct (take_answer _ _ x) as [[id |] | e]; [by destruct H as [-> _] | | by destruct H as [-> _]].
  call_step H y tr4. destruct H as [-> _]. by repeat constructor.
Qed.

(** Provisioning holds no connection of the pool. *)
Lemma ensure_user_exec claims tr r :
  exec (ensure_user to_uppercase shared_engine claims default_slug default_id) tr r → system_only tr.
Proof.
  unfold ensure_user. intros (tr1 & tr2 & tenant & -> & Ht & H)%exec_bind_inv.
  assert (system_only tr1) as Hs.
  { destruct (cl_tenant_slug claims); [| by destruct Ht as [-> _]].
    destruct (String.eqb _ _); [by destruct Ht as [-> _] | by eapply upsert_tenant_exec]. }
  apply Forall_app_2; [done |]. destruct tenant as [tenant | e]; [| by destruct H as [-> _]].
  apply exec_bind_inv in H as (tr3 & tr4 & user & -> & Hu%upsert_user_exec & H). apply Forall_app_2; [done |].
  destruct user as [user | e]; [| by destruct H as [-> _]].
  apply exec_bind_inv in H as (tr5 & tr6 & m & -> & Hm%upsert_membership_exec & H). apply Forall_app_2; [done |].
  destruct m; by destruct H as [-> _].
Qed.

Lemma acquire_exec bearer tr r :
  exec (acquire bearer) tr r →
  match r with
  | Ok c => tr = [ORecv (Some c); OAuthenticate c bearer (Ok tt)]
  | Err e =>
      tr = [ORecv None] ∧ e = invalid_config "request DB pool closed" ∨
      ∃ c e', tr = [ORecv (Some c); OAuthenticate c bearer (Err e'); OSend c] ∧ e = surreal_error e'
  end.
Proof.
  unfold acquire. intros H. call_step H c tr1. destruct c as [c |]; [| destruct H as [-> <-]; by left].
  call_step H a tr2. destruct a as [[] | e]; [by destruct H as [-> <-] |].
  call_step H u tr3. destruct H as [-> <-]. right. by exists c, e.
Qed.

Ltac lease := cbn; rewrite ?bool_decide_eq_true_2 by done; cbn; rewrite ?of_conn_same; cbn; rewrite ?of_conn_same.

Lemma acquire_lease bearer tr r :
  exec (acquire bearer) tr r →
  lease_run (Some bearer) NoConn tr = Some (match r with Ok c => Guarded c | Err _ => NoConn end).
Proof.
  intros H%acquire_exec. destruct r as [c | e]; [subst tr | destruct H as [[-> _] | (c & e' & -> & _)]]; by lease.
Qed.

(** Fact: the identity of a request is established once, from the row of the user.  A known
    user costs one authentication and one query of the session: the tables of tenants, users
    and memberships are not touched, and the tenant is that of the row, whatever tenant the
    claims name.  Only an unknown user is provisioned, without a connection, and
    authenticated again. *)
Theorem identity_is_established_once claims bearer tr db auth :
  exec (establish to_uppercase shared_engine default_slug default_id claims bearer) tr (Ok (db, auth)) →
  (∃ rec, tr = [ORecv (Some db); OAuthenticate db bearer (Ok tt); OResolve db (Ok (Ok (Some rec)))] ∧
     auth = build_context claims rec) ∨
  (∃ c e tr1 auth', is_unknown_user (surreal_error e) = true ∧
     tr = ORecv (Some c) :: OAuthenticate c bearer (Err e) :: OSend c ::
          tr1 ++ [ORecv (Some db); OAuthenticate db bearer (Ok tt)] ∧
     system_only tr1 ∧
     exec (ensure_user to_uppercase shared_engine claims default_slug default_id) tr1 (Ok auth') ∧
     auth = set_is_dev auth' (String.eqb (cl_iss claims) "dev://local")).
Proof.
  unfold establish. intros (tr1 & tr2 & r & -> & Ha%acquire_exec & H)%exec_bind_inv. destruct r as [c | e].
  - left. subst tr1. unfold resolve_auth in H. cbn [prog_bind] in H. call_step H x tr3.
    destruct x as [[[rec |] | e] | e];
      [destruct H as [-> [= <- <-]]; by exists rec | call_step H u tr4; by destruct H as [_ ?]..].
  - right. destruct (is_unknown_user e) eqn:Hu; [| by destruct H as [_ ?]]. unfold cold_path_provision in H.
    apply exec_bind_inv in H as (tr3 & tr4 & a & -> & Hp & H). pose proof (ensure_user_exec _ _ _ Hp) as Hsys.
    destruct a as [a | e']; [| by destruct H as [_ ?]].
    apply exec_bind_inv in H as (tr5 & tr6 & r & -> & Hb%acquire_exec & [-> Hr]).
    destruct r as [db' | e']; [injection Hr as <- <- | done]. subst tr5.
    destruct Ha as [[-> ->] | (c & e'' & -> & ->)]; [by vm_compute in Hu |].
    exists c, e'', tr3, a. by rewrite app_nil_r.
Qed.

Lemma establish_lease claims bearer tr r :
  exec (establish to_uppercase shared_engine default_slug default_id claims bearer) tr r →
  lease_run (Some bearer) NoConn tr = Some (match r with Ok (db, _) => Guarded db | Err _ => NoConn end).
Proof.
  unfold establish. intros (tr1 & tr2 & a & -> & Ha%acquire_lease & H)%exec_bind_inv. rewrite lease_run_app, Ha. cbn [mbind option_bind].
  destruct a as [c | e].
  - unfold resolve_auth in H. cbn [prog_bind] in H. call_step H x tr3.
    destruct x as [[[rec |] | e] | e]; [destruct H as [-> <-]; by lease | call_step H u tr4; destruct H as [-> <-]; by lease..].
  - destruct (is_unknown_user e); [| by destruct H as [-> <-]]. unfold cold_path_provision in H.
    apply exec_bind_inv in H as (tr3 & tr4 & p & -> & Hp%ensure_user_exec & H). rewrite lease_run_app, (system_run _ _ Hp).
    cbn [mbind option_bind]. destruct p as [p | e']; [| by destruct H as [-> <-]].
    apply exec_bind_inv in H as (tr5 & tr6 & b & -> & Hb%acquire_lease & [-> <-]). rewrite app_nil_r, Hb. by destruct b.
Qed.

(** Fact: a request takes one connection at a time, runs its handlers only on a connection
    that the database has authenticated with the very token of the request, and has given
    back what it took when it has answered, whichever way it ended. *)
Theorem connections_are_returned headers tr reply :
  exec (identity_middleware to_uppercase shared_engine default_slug default_id to_str headers) tr reply →
  lease_run (bearer_token to_str headers) NoConn tr = Some NoConn.
Proof.
  unfold identity_middleware. intros H. call_step H claims tr1. cbn.
  destruct claims as [claims | []]; [| by destruct H as [-> _]..].
  destruct (bearer_token to_str headers) as [bearer |]; [| by destruct H as [-> _]].
  apply exec_bind_inv in H as (tr2 & tr3 & r & -> & He%establish_lease & H). rewrite lease_run_app, He. cbn [mbind option_bind].
  destruct r as [[db auth] | resp]; [| by destruct H as [-> _]].
  call_step H x tr4. call_step H u tr5. destruct H as [-> _]. by lease.
Qed.

(** *** Requests that are dropped *)

Definition held (l : Lease) : nat := match l with NoConn => 0 | _ => 1 end.

(** What the destructors give back when the future of the request is dropped. *)
Definition on_drop (l : Lease) : nat := match l with Guarded _ => 1 | _ => 0 end.

Definition taken (tr : list IdObs) : nat :=
  length (List.filter (λ o, match o with ORecv (Some _) => true | _ => false end) tr).
Definition returned (tr : list IdObs) : nat :=
  length (List.filter (λ o, match o with OSend _ | ODrop _ => true | _ => false end) tr).

Lemma lease_balance token l tr l' :
  lease_run token l tr = Some l' → (held l + taken tr = returned tr + held l')%nat.
Proof.
  revert l. induction tr as [| o tr IH]; intros l; cbn; [intros [= ->]; lia |].
  destruct (lease_step token l o) as [l1 |] eqn:Hs; cbn; [intros H%IH | done]. unfold taken, returned in *.
  unfold lease_step, of_conn in Hs. destruct l as [| c | c], o as [| [c' |] | c' | c' b' [] | c' | c' r | | auth c']; cbn in *; case_matches; simplify_eq/=; lia.
Qed.

(** Fact: a request that is dropped while it waits, as the requests of clients that disconnect
    are, gives its connection back exactly if the guard was built.  Dropped while the database
    authenticates the token, it takes a connection of the pool with it; nothing puts another
    in its place. *)
Theorem dropped_request_loses_connection headers :
  (∀ tr1 tr2 reply,
     exec (identity_middleware to_uppercase shared_engine default_slug default_id to_str headers) (tr1 ++ tr2) reply →
     ∃ l, lease_run (bearer_token to_str headers) NoConn tr1 = Some l ∧
       taken tr1 = (returned tr1 + on_drop l + match l with Bare _ => 1 | _ => 0 end)%nat) ∧
  (bearer_token to_str headers ≠ None → ∀ c, ∃ tr2 reply,
     exec (identity_middleware to_uppercase shared_engine default_slug default_id to_str headers)
       ([OExtract; ORecv (Some c)] ++ tr2) reply ∧
     lease_run (bearer_token to_str headers) NoConn [OExtract; ORecv (Some c)] = Some (Bare c)).
Proof.
  split.
  - intros tr1 tr2 reply H%connections_are_returned. rewrite lease_run_app in H.
    destruct (lease_run _ NoConn tr1) as [l |] eqn:Hl; [| done]. exists l. split; [done |].
    apply lease_balance in Hl. destruct l; cbn in *; lia.
  - intros Hb c. destruct (bearer_token to_str headers) as [bearer |] eqn:Hbearer; [| done].
    exists [OAuthenticate c bearer (Err []); OSend c], (Plain 401 "db auth failed"). split; [| done].
    exists (Ok (mkIdentityClaims EmptyString EmptyString EmptyString None None [])). split; [done |]. rewrite Hbearer.
    exists (Some c). split; [done |]. exists (Err []). split; [done |]. by exists tt.
Qed.
End behaviour.

(** ** First requests that race *)

Record User : Type := mkUser {
  us_iss : string;
  us_sub : string;
  us_email : string;
  us_display_name : option string;
  us_tenant : RecordId;
}.

(** The tables of the privileged session, which each index makes unique by its fields. *)
Record Tables : Type := mkTables {
  tb_tenant : gmap RecordId string;                        (** the slug *)
  tb_user : gmap RecordId User;
  tb_membership : gmap RecordId (RecordId * RecordId);     (** user and tenant *)
}.

Definition identity (u : User) : string * string := (us_iss u, us_sub u).

(** The index of a table: no two rows have the same key. *)
Definition unique {A K : Type} (key : A → K) (m : gmap RecordId A) : Prop :=
  ∀ i j a b, m !! i = Some a → m !! j = Some b → key a = key b → i = j.

Definition keyed {A K : Type} (key : A → K) (m : gmap RecordId A) (k : K) (i : RecordId) : Prop :=
  ∃ a, m !! i = Some a ∧ key a = k.

(** A query that reads. *)
Definition reads {A} (r : Answer A) (Q : A → Prop) : Prop :=
  match r with Ok (Ok a) => Q a | _ => True end.

(** The error of an answer. *)
Definition answer_error {A} (r : Answer A) (e : Chain) : Prop := r = Err e ∨ r = Ok (Err e).

(** A [CREATE] in a table with a unique index: refused, with the text that says so, if the
    key is taken, and only then; done under a fresh identifier; or failed in another way,
    with or without the row, when the answer is lost. *)
Inductive creates {A R K : Type} (key : A → K) (m : gmap RecordId A) (a : A) (row : RecordId → R)
  : gmap RecordId A → Answer R → Prop :=
| create_taken i e r :
    keyed key m (key a) i → is_index_exists e = true → answer_error r e → creates key m a row m r
| create_done i :
    m !! i = None → (∀ j, ¬ keyed key m (key a) j) → creates key m a row (<[i := a]> m) (Ok (Ok (row i)))
| create_failed e r : is_index_exists e = false → answer_error r e → creates key m a row m r
| create_lost i e r :
    m !! i = None → (∀ j, ¬ keyed key m (key a) j) → is_index_exists e = false → answer_error r e →
    creates key m a row (<[i := a]> m) r.

Definition user_row (i : RecordId) (email : string) (name : option string) : UserRow := mkUserRow i email name.

(** One call on the tables; the calls to the pool and the handlers leave them alone. *)
Definition table_step (X : Type) (e : IdE X) (w w' : Tables) : X → Prop :=
  match e in IdE X return X → Prop with
  | SelectTenant slug => λ r, w' = w ∧ reads r (λ o,
      match o with Some i => keyed id (tb_tenant w) slug i | None => ∀ i, ¬ keyed id (tb_tenant w) slug i end)
  | CreateTenant slug _ => λ r, ∃ m, creates id (tb_tenant w) slug Some m r ∧ w' = mkTables m (tb_user w) (tb_membership w)
  | SelectUser iss sub => λ r, w' = w ∧ reads r (λ o,
      match o with
      | Some row => keyed identity (tb_user w) (iss, sub) (ur_id row)
      | None => ∀ i, ¬ keyed identity (tb_user w) (iss, sub) i
      end)
  | UpdateUser i email name tenant => λ _, w' = w ∨
      w' = mkTables (tb_tenant w) (alter (λ u, mkUser (us_iss u) (us_sub u) email name tenant) i (tb_user w)) (tb_membership w)
  | CreateUser iss sub email name tenant => λ r, ∃ m,
      creates identity (tb_user w) (mkUser iss sub email name tenant) (λ i, Some (user_row i email name)) m r ∧
      w' = mkTables (tb_tenant w) m (tb_membership w)
  | SelectMembership user tenant => λ r, w' = w ∧ reads r (λ o,
      match o with
      | Some i => keyed id (tb_membership w) (user, tenant) i
      | None => ∀ i, ¬ keyed id (tb_membership w) (user, tenant) i
      end)
  | CreateMembership user tenant => λ r, ∃ m,
      creates id (tb_membership w) (user, tenant) (λ _, tt) m r ∧ w' = mkTables (tb_tenant w) (tb_user w) m
  | _ => λ _, w' = w
  end.

(** Rows keep their keys and are not deleted, and the indexes hold. *)
Definition grows {A K : Type} (key : A → K) (m m' : gmap RecordId A) : Prop :=
  (∀ k i, keyed key m k i → keyed key m' k i) ∧ (unique key m → unique key m').

Definition table_guarantee (w w' : Tables) : Prop :=
  grows id (tb_tenant w) (tb_tenant w') ∧ grows identity (tb_user w) (tb_user w') ∧
  grows id (tb_membership w) (tb_membership w').

#[export] Instance grows_refl {A K : Type} (key : A → K) : Reflexive (grows key).
Proof. by intros m. Qed.
#[export] Instance grows_trans {A K : Type} (key : A → K) : Transitive (grows key).
Proof. intros m1 m2 m3 [H1 H2] [H3 H4]. split; eauto. Qed.
#[export] Instance table_guarantee_refl : Reflexive table_guarantee.
Proof. by intros w. Qed.
#[export] Instance table_guarantee_trans : Transitive table_guarantee.
Proof. intros w1 w2 w3 (? & ? & ?) (? & ? & ?). split_and!; by etrans. Qed.

Lemma creates_grows {A R K : Type} (key : A → K) m a (row : RecordId → R) m' r : creates key m a row m' r → grows key m m'.
Proof.
  assert (∀ i, m !! i = None → (∀ j, ¬ keyed key m (key a) j) → grows key m (<[i := a]> m)) as Hins.
  { intros i Hi Hfree. split.
    - intros k j (b & Hb & <-). exists b. split; [| done]. rewrite lookup_insert_ne; [done | by intros ->; rewrite Hb in Hi].
    - intros Hu j1 j2 b1 b2 [[<- <-] | [? H1]]%lookup_insert_Some [[<- <-] | [? H2]]%lookup_insert_Some Heq; [done | | | by eapply Hu].
      + destruct (Hfree j2). by exists b2.
      + destruct (Hfree j1). by exists b1. }
  by destruct 1; [| apply Hins | | apply Hins].
Qed.

(** What an answer says: the row, if there is an identifier; that the key is taken, if it is
    the error of the index. *)
Lemma creates_row {A R K : Type} (key : A → K) m a (row : RecordId → R) m' r :
  creates key m a row m' r →
  match r with
  | Ok (Ok x) => ∃ i, x = row i ∧ keyed key m' (key a) i
  | Ok (Err e) | Err e => is_index_exists e = true → ∃ i, keyed key m' (key a) i
  end.
Proof.
  intros H. destruct H as [i e r Hk He [-> | ->] | i Hi Hfree | e r He [-> | ->] | i e r Hi Hfree He [-> | ->]];
    [by exists i.. | | congruence | congruence | congruence | congruence].
  exists i. split; [done |]. exists a. by rewrite lookup_insert_eq.
Qed.

(** What is known of an answer: of the value, and of an error of the index. *)
Definition answered {A : Type} (Q : A → Tables → Prop) (T : Tables → Prop) (r : Answer A) (w : Tables) : Prop :=
  match r with
  | Ok (Ok a) => Q a w
  | Ok (Err e) | Err e => is_index_exists e = true → T w
  end.

Lemma take_answered {A : Type} query take (r : Answer A) Q T w :
  is_index_exists [query] = false → is_index_exists [take] = false → answered Q T r w →
  match take_answer query take r with
  | Ok x => Q x w
  | Err e => is_index_exists e = true → T w
  end.
Proof.
  unfold is_index_exists. cbn [existsb]. rewrite !orb_false_r. intros Hq Ht Hr.
  destruct r as [[x | e] | e]; cbn in *; [done | rewrite Ht.. | rewrite Hq]; cbn; done.
Qed.

Section races.
Context (to_uppercase : Z → list Z) (shared_engine : bool).

Notation rg := (rg table_step table_guarantee).
Notation stable := (stable table_guarantee).

Definition has_tenant (slug : string) (i : RecordId) (w : Tables) : Prop := keyed id (tb_tenant w) slug i.
Definition has_user (who : string * string) (i : RecordId) (w : Tables) : Prop := keyed identity (tb_user w) who i.
Definition has_member (user tenant : RecordId) (w : Tables) : Prop := ∃ i, keyed id (tb_membership w) (user, tenant) i.

Lemma stable_tenant slug i : stable (has_tenant slug i).
Proof. intros w w' H ([Hk _] & _). by apply Hk. Qed.
Lemma stable_user who i : stable (has_user who i).
Proof. intros w w' H (_ & [Hk _] & _). by apply Hk. Qed.
Lemma stable_member user tenant : stable (has_member user tenant).
Proof. intros w w' [i H] (_ & _ & [Hk _]). exists i. by apply Hk. Qed.
Lemma stable_const (φ : Prop) : stable (λ _, φ).
Proof. by intros w w' H _. Qed.
Lemma stable_and (P Q : Tables → Prop) : stable P → stable Q → stable (λ w, P w ∧ Q w).
Proof. intros HP HQ w w' [H1 H2] HG. split; [by eapply HP | by eapply HQ]. Qed.
Lemma stable_answered {A : Type} (Q : A → Tables → Prop) T r :
  (∀ a, stable (Q a)) → stable T → stable (answered Q T r).
Proof.
  intros HQ HT w w' H HG. destruct r as [[a | e] | e]; [by eapply HQ | intros He; eapply HT; [by apply H | done]..].
Qed.

Lemma rg_root (P : Tables → Prop) : stable P → rg (ensure_root_session shared_engine) P (λ _, P).
Proof.
  intros HP. unfold ensure_root_session. destruct shared_engine; cbn; [| auto].
  intros w w' u Hw ->. split; [done |]. exists P. auto.
Qed.

(** A query under a stable frame. *)
Lemma rg_query {A B : Type} (e : IdE (Answer A)) (f : Answer A → prog IdE B) (P : Tables → Prop) Q T R :
  stable P → (∀ a, stable (Q a)) → stable T →
  (∀ w w' r, table_step _ e w w' r → table_guarantee w w' ∧ answered Q T r w') →
  (∀ r, rg (f r) (λ w, P w ∧ answered Q T r w) R) →
  rg (prog_bind (call e) f) P R.
Proof.
  intros HP HQ HT He Hf. eapply rg_call; [| exact Hf]. intros w w' r Hw Hstep. destruct (He _ _ _ Hstep) as [HG Hr].
  split_and!; [done | apply stable_and; [done | by apply stable_answered] | by eapply HP | done].
Qed.

Definition row_or_none {A : Type} (Q : A → Tables → Prop) (o : option A) (w : Tables) : Prop :=
  match o with Some a => Q a w | None => True end.

Lemma stable_row {A : Type} (Q : A → Tables → Prop) o : (∀ a, stable (Q a)) → stable (row_or_none Q o).
Proof. intros HQ. destruct o as [a |]; [apply HQ | exact (stable_const True)]. Qed.

Lemma select_tenant_step slug w w' r :
  table_step _ (SelectTenant slug) w w' r →
  table_guarantee w w' ∧ answered (row_or_none (has_tenant slug)) (λ _, True) r w'.
Proof. intros [-> Hr]. split; [done |]. by destruct r as [[[i |] |] |]. Qed.

Lemma create_tenant_step slug name w w' r :
  table_step _ (CreateTenant slug name) w w' r →
  table_guarantee w w' ∧ answered (row_or_none (has_tenant slug)) (λ _, True) r w'.
Proof.
  intros (m & Hc & ->). split; [split_and!; cbn; [by eapply creates_grows | done | done] |].
  apply creates_row in Hc. destruct r as [[o |] |]; [| done..]. by destruct Hc as (i & -> & Hk).
Qed.

Lemma select_user_step iss sub w w' r :
  table_step _ (SelectUser iss sub) w w' r →
  table_guarantee w w' ∧ answered (row_or_none (λ row, has_user (iss, sub) (ur_id row))) (λ _, True) r w'.
Proof. intros [-> Hr]. split; [done |]. by destruct r as [[[i |] |] |]. Qed.

Lemma create_user_step iss sub email name tenant w w' r :
  table_step _ (CreateUser iss sub email name tenant) w w' r →
  table_guarantee w w' ∧ answered (row_or_none (λ row, has_user (iss, sub) (ur_id row))) (λ _, True) r w'.
Proof.
  intros (m & Hc & ->). split; [split_and!; cbn; [done | by eapply creates_grows | done] |].
  apply creates_row in Hc. destruct r as [[o |] |]; [| done..]. by destruct Hc as (i & -> & Hk).
Qed.

Lemma update_user_step i email name tenant w w' u :
  table_step _ (UpdateUser i email name tenant) w w' u → table_guarantee w w'.
Proof.
  intros [-> | ->]; [done |]. split_and!; cbn; [done | | done].
  set (f u := mkUser (us_iss u) (us_sub u) email name tenant).
  assert (∀ j a, alter f i (tb_user w) !! j = Some a → ∃ b, tb_user w !! j = Some b ∧ identity b = identity a) as Hold.
  { intros j a. destruct (decide (i = j)) as [<- | Hne].
    - rewrite lookup_alter_eq. intros (b & Hb & ->)%fmap_Some. by exists b.
    - rewrite lookup_alter_ne by done. by exists a. }
  split.
  - intros k j (a & Ha & <-). destruct (decide (i = j)) as [<- | Hne].
    + exists (f a). by rewrite lookup_alter_eq, Ha.
    + exists a. by rewrite lookup_alter_ne.
  - intros Hu j1 j2 a1 a2 (b1 & Hb1 & H1)%Hold (b2 & Hb2 & H2)%Hold Heq. eapply Hu; [done.. | congruence].
Qed.

Lemma select_membership_step user tenant w w' r :
  table_step _ (SelectMembership user tenant) w w' r →
  table_guarantee w w' ∧ answered (row_or_none (λ _, has_member user tenant)) (λ _, True) r w'.
Proof. intros [-> Hr]. split; [done |]. destruct r as [[[i |] |] |]; [by exists i | done..]. Qed.

Lemma create_membership_step user tenant w w' r :
  table_step _ (CreateMembership user tenant) w w' r →
  table_guarantee w w' ∧ answered (λ _, has_member user tenant) (has_member user tenant) r w'.
Proof.
  intros (m & Hc & ->). split; [split_and!; cbn; [done | done | by eapply creates_grows] |].
  apply creates_row in Hc. destruct r as [[[] |] |]; [| done..]. by destruct Hc as (i & _ & Hk); exists i.
Qed.

Ltac stables := repeat first
  [ done | apply stable_and | apply stable_row; intros | apply stable_const | apply stable_tenant | apply stable_user
  | apply stable_member | apply stable_answered; intros ].
Ltac query step := eapply rg_query; [stables | | | intros; eapply step; eassumption |]; [intros; stables | stables |].

(** An upsert ends in an answer, in an error, or in a row read again after a race. *)
Ltac upsert_root := eapply rg_bind; [by apply rg_root | intros []; cbn beta].
Ltac forget := eapply rg_pre; [by intros ? [? _] |].

Lemma rg_upsert_tenant slug name (P : Tables → Prop) :
  stable P →
  rg (upsert_tenant shared_engine slug name) P (λ r w, P w ∧ ∀ i, r = Ok i → has_tenant slug i w).
Proof.
  intros HP. unfold upsert_tenant. upsert_root.
  query select_tenant_step. intros r.
  pose proof (λ Q T w, take_answered "select tenant by slug" "decode tenant select" r Q T w eq_refl eq_refl) as Hr.
  destruct (take_answer _ _ r) as [[i |] | e]; [| | apply rg_ret; naive_solver].
  { apply rg_ret. intros w [Hw Ha%Hr]. split; [done |]. by intros ? [= <-]. }
  forget. query create_tenant_step. intros r2.
  pose proof (λ Q T w, take_answered "create tenant" "decode tenant create" r2 Q T w eq_refl eq_refl) as Hr2.
  destruct (take_answer "create tenant" _ r2) as [[i |] | e]; [| apply rg_ret; naive_solver |].
  { apply rg_ret. intros w [Hw Ha%Hr2]. split; [done |]. by intros ? [= <-]. }
  destruct (is_index_exists e); [| apply rg_ret; naive_solver].
  forget. query select_tenant_step. intros r3. apply rg_ret. intros w [Hw Ha]. split; [done |].
  apply (take_answered "reselect tenant after race" "decode tenant reselect" r3 _ _ w eq_refl eq_refl) in Ha.
  destruct (take_answer _ _ r3) as [[i |] | e3]; by intros ? [= <-].
Qed.

Lemma rg_upsert_user iss sub email name tenant (P : Tables → Prop) :
  stable P →
  rg (upsert_user shared_engine iss sub email name tenant) P
     (λ r w, P w ∧ ∀ u, r = Ok u → has_user (iss, sub) (ur_id u) w).
Proof.
  intros HP. unfold upsert_user. upsert_root.
  query select_user_step. intros r.
  pose proof (λ Q T w, take_answered "select app_user" "decode app_user select" r Q T w eq_refl eq_refl) as Hr.
  destruct (take_answer _ _ r) as [[u |] | e]; [| | apply rg_ret; naive_solver].
  { eapply rg_pre with (P := λ w, P w ∧ has_user (iss, sub) (ur_id u) w); [by intros w [Hw Ha%Hr] |].
    eapply (rg_call _ _ _ _ _ (λ _ w, P w ∧ has_user (iss, sub) (ur_id u) w)).
    - intros w w' [] Hw HG%update_user_step. split_and!; [done | stables | |]; [eapply HP; [apply Hw | done] | eapply stable_user; [apply Hw | done]].
    - intros _. apply rg_ret. intros w [Hw Hu]. split; [done |]. by intros ? [= <-]. }
  forget. query create_user_step. intros r2.
  pose proof (λ Q T w, take_answered "create app_user" "decode app_user create" r2 Q T w eq_refl eq_refl) as Hr2.
  destruct (take_answer "create app_user" _ r2) as [[u |] | e]; [| apply rg_ret; naive_solver |].
  { apply rg_ret. intros w [Hw Ha%Hr2]. split; [done |]. by intros ? [= <-]. }
  destruct (is_index_exists e); [| apply rg_ret; naive_solver].
  forget. query select_user_step. intros r3. apply rg_ret. intros w [Hw Ha]. split; [done |].
  apply (take_answered "reselect app_user after race" "decode app_user reselect" r3 _ _ w eq_refl eq_refl) in Ha.
  destruct (take_answer _ _ r3) as [[u |] | e3]; by intros ? [= <-].
Qed.

Lemma rg_upsert_membership user tenant (P : Tables → Prop) :
  stable P →
  rg (upsert_membership shared_engine user tenant) P (λ r w, P w ∧ (r = Ok tt → has_member user tenant w)).
Proof.
  intros HP. unfold upsert_membership. upsert_root.
  query select_membership_step. intros r.
  pose proof (λ Q T w, take_answered "select membership" "decode membership select" r Q T w eq_refl eq_refl) as Hr.
  destruct (take_answer _ _ r) as [[i |] | e]; [| | apply rg_ret; naive_solver].
  { apply rg_ret. intros w [Hw Ha%Hr]. done. }
  forget. query create_membership_step. intros r2. apply rg_ret. intros w [Hw Ha]. split; [done |].
  apply (take_answered "create membership" "membership create check" r2 _ _ w eq_refl eq_refl) in Ha.
  destruct (take_answer _ _ r2) as [[] | e]; [done |]. destruct (is_index_exists e); [auto | done].
Qed.
(** What an identity promises of the tables. *)
Definition provisioned (default_slug : string) (claims : Claims) (r : result AuthContext Chain) (w : Tables) : Prop :=
  ∀ auth, r = Ok auth →
    has_user (cl_iss claims, cl_sub claims) (ac_user_id auth) w ∧
    has_tenant (default default_slug (cl_tenant_slug claims)) (ac_tenant_id auth) w ∧
    has_member (ac_user_id auth) (ac_tenant_id auth) w.

Lemma rg_ensure_user default_slug default_id claims :
  rg (ensure_user to_uppercase shared_engine claims default_slug default_id) (has_tenant default_slug default_id)
     (provisioned default_slug claims).
Proof.
  unfold ensure_user. set (slug := default default_slug (cl_tenant_slug claims)).
  eapply (rg_bind _ _ _ _ _ (λ r w, ∀ i, r = Ok i → has_tenant slug i w)).
  { unfold slug. destruct (cl_tenant_slug claims) as [s |]; cbn [default from_option].
    - destruct (String.eqb_spec s default_slug) as [-> | Hne].
      + apply rg_ret. by intros w Hw i [= <-].
      + eapply rg_weaken; [apply (rg_upsert_tenant _ _ (λ _, True)); stables | done | naive_solver].
    - apply rg_ret. by intros w Hw i [= <-]. }
  intros [tenant | e]; [| by apply rg_ret].
  eapply (rg_pre _ _ _ (has_tenant slug tenant)); [by intros w Hw; apply Hw |].
  eapply rg_bind; [apply rg_upsert_user; stables |]. intros [user | e]; [| by apply rg_ret].
  eapply (rg_pre _ _ _ (λ w, has_tenant slug tenant w ∧ has_user (cl_iss claims, cl_sub claims) (ur_id user) w)).
  { intros w [Ht Hu]. by split; [| apply Hu]. }
  eapply rg_bind; [apply rg_upsert_membership; stables |]. intros [[] | e]; [| by apply rg_ret].
  apply rg_ret. intros w [[Ht Hu] Hm] auth [= <-]. cbn. auto.
Qed.

(** Fact: any number of first requests may be provisioned at once, by any number of processes
    and with any failures of the database.  Those that get an identity agree: one user for
    one pair of issuer and subject, one tenant for one slug, and the user is a member of the
    tenant it was given; losing the race for a row is not an error. *)
Theorem first_requests_agree env default_slug default_id (requests : list Claims) w w' ts :
  (∀ w w', env w w' → table_guarantee w w') →
  unique id (tb_tenant w) → unique identity (tb_user w) → has_tenant default_slug default_id w →
  rtc (pool_step table_step env)
    (w, (λ claims, ensure_user to_uppercase shared_engine claims default_slug default_id) <$> requests) (w', ts) →
  ∀ i claims auth, requests !! i = Some claims → ts !! i = Some (Ret (Ok auth)) →
    provisioned default_slug claims (Ok auth) w' ∧
    ∀ j claims' auth', requests !! j = Some claims' → ts !! j = Some (Ret (Ok auth')) →
      ((cl_iss claims, cl_sub claims) = (cl_iss claims', cl_sub claims') → ac_user_id auth = ac_user_id auth') ∧
      (default default_slug (cl_tenant_slug claims) = default default_slug (cl_tenant_slug claims') →
       ac_tenant_id auth = ac_tenant_id auth').
Proof.
  intros Henv Htu Huu Hdef Hsteps.
  destruct (pool_steps_rg table_step env table_guarantee _ _ (provisioned default_slug <$> requests) Henv Hsteps)
    as [((_ & Ht) & (_ & Hu) & _) Hts].
  { cbn. apply Forall2_fmap_2, Forall_Forall2_diag, Forall_forall. intros claims _.
    exists (has_tenant default_slug default_id). split_and!; [stables | done | apply rg_ensure_user]. }
  specialize (Ht Htu). specialize (Hu Huu). cbn in Hts, Ht, Hu.
  assert (∀ i claims auth, requests !! i = Some claims → ts !! i = Some (Ret (Ok auth)) →
    provisioned default_slug claims (Ok auth) w') as Hall.
  { intros i claims auth Hi Hr. eapply Forall2_lookup_lr in Hts; [| exact Hr | by rewrite list_lookup_fmap, Hi].
    by eapply rg_thread_ret. }
  intros i claims auth Hi Hr. split; [by eapply Hall |]. intros j claims' auth' Hj Hr'.
  destruct (Hall _ _ _ Hi Hr _ eq_refl) as ((u & Hu1 & Hk1) & (t & Ht1 & Hs1) & _).
  destruct (Hall _ _ _ Hj Hr' _ eq_refl) as ((u' & Hu2 & Hk2) & (t' & Ht2 & Hs2) & _).
  split; intros Heq; [eapply Hu | eapply Ht]; [done | done | congruence | done | done | congruence].
Qed.
End races.

(** The name of a tenant that is made from its slug. *)
Example display_names :
  let upper c := [if (97 <=? c) && (c <=? 122) then c - 32 else c] in
  slug_to_display_name upper "tenant-a" = "Tenant A" ∧ slug_to_display_name upper "__big-corp_eu" = "Big Corp Eu".
Proof. by vm_compute. Qed.
