(* ===== verification/OldExtract.v ===== *)
(** * Metadata from a model, in the previous back end

    old/backend/src/ingestion/llm_extractor.rs and its client in llm/rig_impl.rs: what the
    model is shown of a document and what is taken from its answer.  serde_json and chrono are parameters; instants are
    nanoseconds. *)

From S2P Require Import Prelude Text ChatWorker OldChunk OldIngest.

Local Open Scope Z_scope.

(** ** The prompt *)

Definition double_quote : string := String (ascii_of_byte 34) EmptyString.
Definition in_quotes (s : string) : string := double_quote +:+ s +:+ double_quote.
Definition lines (l : list string) : string := String.concat newline l.

Definition SYSTEM_PROMPT : string := lines [
  "You extract bibliographic metadata from the opening text of a document (usually a research paper or article). Respond with ONLY a single JSON object and nothing else — no prose, no markdown, no code fences. Use exactly these keys:";
  "{" +:+ in_quotes "title" +:+ ": string|null, " +:+ in_quotes "authors" +:+ ": string[], " +:+ in_quotes "summary" +:+ ": string|null, "
    +:+ in_quotes "language" +:+ ": string|null, " +:+ in_quotes "published_at" +:+ ": string|null, " +:+ in_quotes "venue"
    +:+ ": string|null, " +:+ in_quotes "doi" +:+ ": string|null}";
  EmptyString;
  "Rules:";
  "- Extract only what is explicitly present in the text. Never guess or invent.";
  "- If a field is not clearly stated, use null (or [] for authors).";
  "- authors: full names in the order shown.";
  "- summary: the abstract if present, else a one-sentence summary; null if there is no basis.";
  "- language: ISO 639-1 code (e.g. " +:+ in_quotes "en" +:+ "); null if unsure.";
  "- published_at: ISO 8601 (YYYY-MM-DD), or just the year if that is all that is known; null if unknown.";
  "- Output only the JSON object."].

Definition DEFAULT_MAX_INPUT_CHARS : Z := 12000.
Definition DEFAULT_TIMEOUT_SECS : Z := 30.

(** A positive number of 64 bits in the environment. *)
Definition env_positive (env : string → option string) (key : string) (default_value : Z) : Z :=
  default default_value
    (s ← env key; n ← parse_u64 (trim s); if 0 <? n then Some n else None).

Record LlmExtractor : Type := mkExtractor {
  le_max_input_chars : Z;
  le_timeout_secs : Z;
}.

Definition extractor_from_env (env : string → option string) : LlmExtractor :=
  mkExtractor (env_positive env "DELPHI_EXTRACT_MAX_INPUT_CHARS" DEFAULT_MAX_INPUT_CHARS)
    (env_positive env "DELPHI_EXTRACT_TIMEOUT_SECS" DEFAULT_TIMEOUT_SECS).

(** ** The answer *)

Definition open_brace : ascii := ascii_of_byte 123.
Definition close_brace : ascii := ascii_of_byte 125.

(** [str::find] and [str::rfind] of an ASCII character. *)
Fixpoint find_char (c : ascii) (s : string) : option nat :=
  match s with
  | EmptyString => None
  | String a s => if Ascii.eqb a c then Some O else S <$> find_char c s
  end.
Fixpoint rfind_char (c : ascii) (s : string) : option nat :=
  match s with
  | EmptyString => None
  | String a s =>
      match rfind_char c s with
      | Some n => Some (S n)
      | None => if Ascii.eqb a c then Some O else None
      end
  end.

Definition extract_json_object (raw : string) : option string :=
  start ← find_char open_brace raw;
  finish ← rfind_char close_brace raw;
  if (start <? finish)%nat then Some (String.substring start (S (finish - start)) raw) else None.

Inductive OneOrMany : Type :=
| Many (authors : list string)
| One (author : string).

(** What serde reads: a missing author list is that of a null. *)
Record ExtractedWire : Type := mkWire {
  ew_title : option string;
  ew_authors : option OneOrMany;
  ew_summary : option string;
  ew_language : option string;
  ew_published_at : option string;
  ew_venue : option string;
  ew_doi : option string;
}.

Definition de_authors (v : option OneOrMany) : list string :=
  match v with
  | Some (Many v) => List.filter (λ s, negb (is_empty s)) (trim <$> v)
  | Some (One s) => let s := trim s in if is_empty s then [] else [s]
  | None => []
  end.

(** Trim, and treat empty as absent. *)
Definition clean (s : option string) : option string :=
  v ← s; let v := trim v in if is_empty v then None else Some v.

(** *** The client *)

(** The variable, less white space, if it is not blank. *)
Definition require_env (env : string → option string) (key : string) : result string string :=
  ok_or (clean (env key)) ("environment variable " +:+ key +:+ " is required but not set").
Definition env_or (env : string → option string) (key default_value : string) : string :=
  default default_value (clean (env key)).

(** The client of the chat, or one of the OpenAI-compatible endpoint the settings name;
    [openai_compat] is [OpenAiCompatLlm::new]. *)
Definition extractor_llm_from_env {Agent : Type} (env : string → option string)
    (openai_compat : string → string → string → result Agent string) (chat_llm : Agent) : result Agent string :=
  match clean (env "DELPHI_EXTRACT_BASE_URL") with
  | Some base_url =>
      let? model := require_env env "DELPHI_EXTRACT_MODEL" in
      openai_compat model (env_or env "DELPHI_EXTRACT_API_KEY" "sk-noauth") base_url
  | None => Ok chat_llm
  end.

Section extract.
(** serde_json on the object, and chrono on a whole instant and on a date, at midnight. *)
Context (from_str : string → result ExtractedWire string) (parse_from_rfc3339 parse_ymd : string → option Z).

Definition parse_date (s : string) : option Z :=
  let s := trim s in
  if is_empty s then None
  else
    match parse_from_rfc3339 s with
    | Some t => Some t
    | None =>
        let length := String.length s in
        parse_ymd (if (length =? 4)%nat && all_chars is_digit s then s +:+ "-01-01"
                   else if (length =? 7)%nat then s +:+ "-01" else s)
    end.

Definition parse_metadata (raw : string) : option ExtractedMetadata :=
  text ← extract_json_object raw;
  match from_str text with
  | Err _ => None
  | Ok wire =>
      let extra := match clean (ew_venue wire) with Some v => map_insert "venue" (JString v) [] | None => [] end in
      let extra := match clean (ew_doi wire) with Some d => map_insert "doi" (JString d) extra | None => extra end in
      Some (mkExtracted (clean (ew_title wire)) (de_authors (ew_authors wire)) (clean (ew_summary wire))
              (clean (ew_language wire)) (ew_published_at wire ≫= parse_date) (JObject extra))
  end.

(** The stream of the model, and its items up to the end, unless the timeout comes first. *)
Inductive ExtractE : Type → Type :=
| StreamChat (messages : list LlmMessage) : ExtractE (result unit string)
| Collect (timeout_secs : Z) : ExtractE (option (list (result LlmDelta string))).

(** [collect_text] on the items of a stream. *)
Definition collect_text (items : list (result LlmDelta string)) : string :=
  foldl (λ out item, match item with Ok (LlmText t) => out +:+ t | Err _ => out end) EmptyString items.

(** [LlmExtractor::extract] *)
Definition llm_extract (ex : LlmExtractor) (text : string) : prog ExtractE (result ExtractedMetadata string) :=
  let head := collect (take (Z.to_nat (le_max_input_chars ex)) (chars text)) in
  if is_empty (trim head) then Ret (Ok extracted_default)
  else
    let* stream := call (StreamChat [mkLlm LlmSystem SYSTEM_PROMPT; mkLlm LlmUser head]) in
    match stream with
    | Err _ => Ret (Ok extracted_default)
    | Ok _ =>
        let* raw := call (Collect (le_timeout_secs ex)) in
        Ret (match raw with
             | None => Ok extracted_default
             | Some items => Ok (default extracted_default (parse_metadata (collect_text items)))
             end)
    end.

(** ** What is taken *)

Inductive ExtractObs : Type :=
| OStream (messages : list LlmMessage) (r : result unit string)
| OCollect (timeout_secs : Z) (r : option (list (result LlmDelta string))).

Definition extract_obs (A : Type) (e : ExtractE A) : A → ExtractObs :=
  match e in ExtractE A return A → ExtractObs with
  | StreamChat messages => OStream messages
  | Collect secs => OCollect secs
  end.

(** Fact: the extraction never fails an upload.  It asks the model at most once, with no more
    of the text than its limit; what it gives that is not empty was parsed from the text of a
    stream that ended in time. *)
Theorem extraction_is_best_effort ex text tr r :
  exec extract_obs (llm_extract ex text) tr r →
  (∃ m, r = Ok m ∧
     (m ≠ extracted_default → ∃ stream items,
        tr = [OStream stream (Ok tt); OCollect (le_timeout_secs ex) (Some items)] ∧
        parse_metadata (collect_text items) = Some m)) ∧
  (∀ messages s, OStream messages s ∈ tr → ∃ head,
     messages = [mkLlm LlmSystem SYSTEM_PROMPT; mkLlm LlmUser head] ∧ trim head ≠ EmptyString ∧
     (Forall is_scalar (chars text) → chars head = take (Z.to_nat (le_max_input_chars ex)) (chars text))).
Proof.
  unfold llm_extract. set (head := collect _). destruct (is_empty (trim head)) eqn:He.
  { intros [-> <-]. split; [by exists extracted_default | by intros ?? ?%not_elem_of_nil]. }
  intros (s & tr1 & -> & H)%exec_vis. cbn [extract_obs].
  assert (∃ h, [mkLlm LlmSystem SYSTEM_PROMPT; mkLlm LlmUser head] = [mkLlm LlmSystem SYSTEM_PROMPT; mkLlm LlmUser h] ∧
    trim h ≠ EmptyString ∧
    (Forall is_scalar (chars text) → chars h = take (Z.to_nat (le_max_input_chars ex)) (chars text))) as Hhead.
  { exists head. split_and!; [done | by intros Ht; rewrite Ht in He |].
    intros Hs. apply chars_collect. by apply Forall_take. }
  destruct s as [[] | e].
  - apply exec_vis in H as (raw & tr2 & -> & [-> <-]). cbn [extract_obs]. split.
    + destruct raw as [items |]; [| by exists extracted_default].
      destruct (parse_metadata (collect_text items)) as [m |] eqn:Hm; [| by exists extracted_default].
      exists m. split; [done |]. intros _. by eexists _, items.
    + intros messages s [[= -> _] | [? | []%not_elem_of_nil]%elem_of_cons]%elem_of_cons; [exact Hhead | done].
  - destruct H as [-> <-]. split; [by exists extracted_default |].
    intros messages s [[= -> _] | []%not_elem_of_nil]%elem_of_cons. exact Hhead.
Qed.

Lemma clean_nonempty s v : clean s = Some v → v ≠ EmptyString.
Proof.
  unfold clean. destruct s as [s |]; [cbn | done]. destruct (is_empty (trim s)) eqn:He; [done |].
  intros [= <-] Ht. by rewrite Ht in He.
Qed.

(** Fact: a field that is there is not empty, and neither is an author. *)
Theorem parsed_fields_are_present raw m :
  parse_metadata raw = Some m →
  (∀ v, em_title m = Some v ∨ em_summary m = Some v ∨ em_language m = Some v → v ≠ EmptyString) ∧
  Forall (λ author, author ≠ EmptyString) (em_authors m).
Proof.
  unfold parse_metadata. destruct (extract_json_object raw) as [t |]; [cbn | done].
  destruct (from_str t) as [wire | e]; [| done]. intros [= <-]. cbn. split.
  - intros v [H | [H | H]]; by eapply clean_nonempty.
  - unfold de_authors. destruct (ew_authors wire) as [[l | s] |]; [| | done].
    + apply Forall_forall. intros s Hs%list_elem_of_In%filter_In. destruct Hs as [_ Hs]. by intros ->.
    + destruct (is_empty (trim s)) eqn:He; constructor; [| done]. intros Ht. by rewrite Ht in He.
Qed.
End extract.

Lemma find_char_spec c s n :
  find_char c s = Some n ↔ ∃ pre post, s = pre +:+ String c post ∧ String.length pre = n ∧ has_char c pre = false.
Proof.
  revert n. induction s as [| a s IH]; intros n; cbn.
  - split; [done |]. intros (pre & post & Heq & _). by destruct pre.
  - destruct (Ascii.eqb_spec a c) as [-> | Hne].
    + split; [intros [= <-]; by exists EmptyString, s |]. intros (pre & post & Heq & <- & Hn).
      destruct pre as [| b pre]; [done |]. injection Heq as <- _. cbn in Hn. by rewrite Ascii.eqb_refl in Hn.
    + rewrite fmap_Some. setoid_rewrite IH. split.
      * intros (k & (pre & post & -> & <- & Hn) & ->). exists (String a pre), post. split_and!; [done | done |].
        cbn. rewrite Hn. apply Ascii.eqb_neq in Hne. by rewrite Hne.
      * intros (pre & post & Heq & <- & Hn). destruct pre as [| b pre]; [by injection Heq as ->|].
        injection Heq as <- ->. cbn in Hn. apply orb_false_iff in Hn as [_ Hn].
        exists (String.length pre). split; [by exists pre, post | done].
Qed.

Lemma rfind_char_none c s : rfind_char c s = None ↔ has_char c s = false.
Proof.
  induction s as [| a s IH]; [done |]. cbn. destruct (rfind_char c s) as [n |] eqn:Hr.
  - split; [done |]. intros [_ Hs]%orb_false_iff. apply IH in Hs. done.
  - rewrite (proj1 IH eq_refl), orb_false_r. by destruct (Ascii.eqb a c).
Qed.

Lemma rfind_char_spec c s n :
  rfind_char c s = Some n ↔ ∃ pre post, s = pre +:+ String c post ∧ String.length pre = n ∧ has_char c post = false.
Proof.
  revert n. induction s as [| a s IH]; intros n; cbn.
  - split; [done |]. intros (pre & post & Heq & _). by destruct pre.
  - destruct (rfind_char c s) as [k |] eqn:Hr.
    + split.
      * intros [= <-].
        destruct (proj1 (IH k) eq_refl) as (pre & post & -> & <- & Hn). by exists (String a pre), post.
      * intros (pre & post & Heq & <- & Hn). destruct pre as [| b pre]; injection Heq as <- Heq.
        { exfalso. subst s. apply rfind_char_none in Hn. congruence. }
        f_equal. assert (Some k = Some (String.length pre)) as [= ->]; [| done]. apply IH. by exists pre, post.
    + apply rfind_char_none in Hr. destruct (Ascii.eqb_spec a c) as [-> | Hne].
      * split; [intros [= <-]; by exists EmptyString, s |]. intros (pre & post & Heq & <- & Hn).
        destruct pre as [| b pre]; [done |]. injection Heq as _ ->. rewrite has_char_app in Hr. cbn in Hr.
        by rewrite Ascii.eqb_refl, orb_true_r in Hr.
      * split; [done |]. intros (pre & post & Heq & <- & Hn). destruct pre as [| b pre]; injection Heq as Ha Heq; [done |].
        subst s. rewrite has_char_app in Hr. cbn in Hr. by rewrite Ascii.eqb_refl, orb_true_r in Hr.
Qed.

Lemma substring_app pre t post : String.substring (String.length pre) (String.length t) (pre +:+ (t +:+ post)) = t.
Proof.
  induction pre as [| a pre IH]; [| exact IH].
  change (String.substring 0 (String.length t) (t +:+ post) = t).
  induction t as [| b t IH]; [by destruct post |].
  change (String b (String.substring 0 (String.length t) (t +:+ post)) = String b t). by rewrite IH.
Qed.

Lemma length_string_app s t : String.length (s +:+ t) = (String.length s + String.length t)%nat.
Proof. induction s as [| a s IH]; [done |]. rewrite string_app_cons. cbn [String.length]. by rewrite IH. Qed.

(** Fact: from an answer with prose or a code fence around it is taken what stands between
    its first opening and its last closing brace, and there is nothing to take only if no
    opening brace is followed by a closing one. *)
Theorem object_is_outermost raw t :
  extract_json_object raw = Some t ↔
  ∃ pre mid post,
    raw = pre +:+ (t +:+ post) ∧ t = String open_brace (mid +:+ String close_brace EmptyString) ∧
    has_char open_brace pre = false ∧ has_char close_brace post = false.
Proof.
  split.
  - unfold extract_json_object. destruct (find_char open_brace raw) as [n |] eqn:Hf; [cbn [mbind option_bind] | done].
    destruct (rfind_char close_brace raw) as [k |] eqn:Hr; [cbn [mbind option_bind] | done]. destruct (Nat.ltb_spec n k) as [Hlt |]; [| done].
    intros [= <-]. apply find_char_spec in Hf as (pre & rest & -> & <- & Hpre).
    apply rfind_char_spec in Hr as (front & post & Heq & <- & Hpost).
    (* the closing brace is behind the opening one *)
    assert (∃ mid, rest = mid +:+ String close_brace post ∧ front = pre +:+ String open_brace mid) as (mid & -> & ->).
    { clear Hpre Hpost. revert front Heq Hlt. induction pre as [| a pre IH]; intros front Heq Hlt.
      - destruct front as [| b front]; [cbn in Hlt; lia |]. injection Heq as <- ->. by exists front.
      - destruct front as [| b front]; [cbn in Hlt; lia |]. injection Heq as <- Heq. cbn in Hlt.
        destruct (IH front Heq) as (mid & -> & ->); [lia |]. by exists mid. }
    set (t := String open_brace (mid +:+ String close_brace EmptyString)).
    assert (pre +:+ String open_brace (mid +:+ String close_brace post) = pre +:+ (t +:+ post)) as Ht.
    { unfold t. f_equal. rewrite string_app_cons. f_equal. by rewrite string_app_assoc. }
    exists pre, mid, post. rewrite Ht.
    assert (S (String.length (pre +:+ String open_brace mid) - String.length pre) = String.length t) as ->.
    { unfold t. rewrite length_string_app. cbn. rewrite length_string_app. cbn. lia. }
    rewrite substring_app. done.
  - intros (pre & mid & post & -> & -> & Hpre & Hpost). set (t := String open_brace _).
    unfold extract_json_object.
    rewrite (proj2 (find_char_spec _ _ (String.length pre))); [cbn [mbind option_bind] |].
    2: { exists pre, ((mid +:+ String close_brace EmptyString) +:+ post). done. }
    rewrite (proj2 (rfind_char_spec _ _ (String.length (pre +:+ String open_brace mid)))); [cbn [mbind option_bind] |].
    2: { exists (pre +:+ String open_brace mid), post. split_and!; [| done | done].
         unfold t. rewrite !string_app_assoc, string_app_cons, string_app_assoc. done. }
    rewrite length_string_app. cbn [String.length].
    destruct (Nat.ltb_spec (String.length pre) (String.length pre + S (String.length mid))); [| lia].
    assert (S (String.length pre + S (String.length mid) - String.length pre) = String.length t) as ->.
    { unfold t. cbn. rewrite length_string_app. cbn. lia. }
    by rewrite substring_app.
Qed.
